(* ===== verification/_CoqProject ===== *)
-Q . S2P
Prelude.v
PageTable.v
PoolAllocator.v
PoolInvariant.v
PoolSafety.v
IntervalTree.v
StreamDeps.v
KvQuant.v
KvCache.v
PagedAttention.v
WaitingIndex.v
BatchScheduler.v
BatchServing.v
TopoSort.v
Graph.v
GraphOptimizer.v
GraphManager.v
GraphDispatch.v
GraphLaunch.v
RobinHood.v
SipHash.v
Bytes.v
Keccak.v
MlKemField.v
MlKemNtt.v
MlKemRing.v
MlKemCodec.v
MlKem.v
Words.v
Poly1305.v
ChaCha20.v
Sha256.v
Aes.v
AesNi.v
Gcm.v
GcmHardware.v
SecureChannel.v
Field25519.v
X25519.v
KeyAgreement.v
KeyExchange.v
HybridKem.v
