(* ===== verification/Prelude.v ===== *)
(** * VGRE runtime core: a verification library

    VGRE runs CUDA programs on CPUs: it implements the CUDA runtime, driver and
    library interfaces over a C++ engine with its own memory manager, graph
    executor, kernel compiler and, for language models, a serving layer with a
    paged key/value cache.  This library models core components of the engine
    whose correctness is a matter of data structures and arithmetic, and proves
    what callers rely on.  Definitions keep the names of the source; each file
    says which functions it translates.

    ** Conventions

    Machine integers are [Z] with explicit wraps ([u8] ... [u64], signed ones
    where a file needs them); stateful code is a record of the object's fields
    with one function per method; maps that the code keys by handle or pointer
    are [gmap]s; error paths return the code's [VGREResult] or an option.  Code
    outside src/ (the system allocator, the language model behind a token
    executor, compiled kernels, [std::exp]) is an argument of the definitions
    that use it; what is assumed of it is a named hypothesis, and each theorem
    with hypotheses is instantiated on a concrete run.  Loops without a
    structural bound take fuel.  Those that might not end return [None] when it
    runs out, and a theorem gives fuel that is enough or says for which runs it
    is.  Those that consume their input (blocks of a message, a path in a tree)
    take fuel computed from the size of the input, which the lemma on the loop
    shows is never used up.

    ** Memory

    - [PageTable] (include/vgre/core/page_table.h, [RadixPageTable]): the
      two-level table of UVM pages with its reference counts.  It refines a map
      from page numbers; counts are exact and leaf tables exist exactly when
      they hold an entry.
    - [IntervalTree] (include/vgre/core/interval_tree.h, [MemoryIntervalTree]):
      the balanced tree that finds the managed region of a fault address.
      Exact on disjoint regions; a counterexample shows it is not on
      overlapping ones.
    - [PoolAllocator], [PoolInvariant], [PoolSafety]
      (src/core/memory/pool_allocator.cpp): memory pools on a word-addressed
      memory: slabs, the queue threaded through the free blocks, the threads'
      caches.  The first file has the operations, the second the invariant
      and its preservation, the third runs of a client and what it may rely
      on: conservation of blocks, fresh and zeroed allocations, exact
      rejection of bad frees, safe trimming, isolation.  These are runs of at
      most 1024 pools and sizes up to 2^50, with handles of live pools; what
      happens outside is stated by the findings of the third file.  Walks over
      the queue take 64 fuel per slab.

    ** Serving

    - [KvQuant] (include/vgre/core/kv_quant.h): the int8 and int4 codecs, on
      IEEE binary32 ([SpecFloat]).
    - [KvCache] (src/core/kv_cache.cpp, [KVCacheManager]): blocks, free list,
      block tables and reservations.  It refines a map from sequences to lists
      of rows, conserves blocks and honours reservations.
    - [PagedAttention] (src/core/kv_cache.cpp): attention through the block
      table equals attention over the contiguous rows.
    - [WaitingIndex], [BatchScheduler], [BatchServing] (src/core/kv_cache.cpp,
      [ContinuousBatchScheduler]): the index of waiting requests (a segment
      tree over block counts), the scheduler on top of any cache that meets the
      interface [KvApi] with laws [KvLaws], and the composition with
      [KVCacheManager].  Serving follows first come, first served among the
      requests that fit, never fails on a cache it has for itself, reports the
      conflict on one it shares, and finishes every request.

    ** Graphs

    - [TopoSort], [Graph] (src/core/runtime_engine_graph.cpp,
      graph_manager.h): nodes, graphs and Kahn's algorithm; the sort succeeds
      exactly on closed acyclic lists.
    - [GraphOptimizer] (src/core/graph_optimizer.cpp): kernel fusion; the
      loop ends with nothing left to fuse, and the optimized graph is the
      original one up to contracted pairs of kernels.
    - [GraphManager] (src/core/graph/graph_manager*.cpp): templates and
      executables on a heap of graph objects, with the aliasing of the source;
      handles, indexes, isolation, dependency edits and argument capture.
    - [GraphDispatch] (src/core/runtime_engine_graph.cpp): compilation of a
      node list, bodies of conditional nodes included, into operations and
      their execution: what runs is every node once, in dependency order, each
      with the function, arguments, launch shape or body its fields name.
    - [GraphLaunch] (src/core/graph/graph_manager.cpp): launching an executable
      and the node fusion done on the third launch.

    ** Streams

    - [StreamDeps] (src/core/graph_dependency_tracker.cpp,
      stream_dep_tracker.h): per-stream completion counters and event snapshots.

    ** Hashing

    - [RobinHood] (include/vgre/core/robin_hood_hash_table.h): open addressing
      with displacement by probe length, shifting erase and growth.  A program
      of operations refines a finite map and keeps the table well formed; the
      insertion loop takes the capacity as fuel, and programs of up to 2^28
      operations stay within the 32-bit probe lengths.
    - [SipHash] (src/common/siphash.cpp): the keyed hash of kernel names equals
      SipHash-2-4 written independently, by arithmetic on the padded words.

    ** Cryptography

    - [Bytes]: what the cryptographic files share on arrays, chunks and bytes.
    - [Keccak] (src/pqc/keccak.cpp): SHA-3 and SHAKE compute the sponge of FIPS
      202, with the permutation given by coordinates and generated constants.
    - [MlKemField] (16-bit modular arithmetic), [MlKemNtt] (the transforms as
      layers of butterflies over the field), [MlKemRing] (residues and the
      negacyclic product), [MlKemCodec] (encodings and sampling), [MlKem] (keys,
      encryption, encapsulation), all of src/pqc/mlkem.cpp: multiplication
      through the transform is exact, and decapsulation returns the
      encapsulated key whenever the noise is within the decoding bound.  The
      refill loop of rejection sampling takes fuel, one unit per block of 168
      bytes: no bound holds for every seed, so the theorem starts from a key
      generation that returned.

    - [Words]: rotations, loads and stores of words, numbers spelled by bytes.
    - [Poly1305], [ChaCha20], [Sha256], [Aes], [Gcm], all of
      src/advanced/secure_channel_crypto.cpp: the authenticator in 26-bit limbs
      (exact, with a padding bit that is not the one of RFC 8439), the cipher
      and its authenticated form, streaming SHA-256 with HMAC, PBKDF2 and HKDF,
      software AES-256 against FIPS 197 and software GCM against NIST SP
      800-38D.  Loops over a message take its length as fuel, one unit per
      block.
    - [AesNi], [GcmHardware] (same file): the paths through the AES and
      PCLMULQDQ instructions, on registers of sixteen bytes, with the
      instructions of the processor manual.  Hardware counter mode equals the
      software one; hardware GCM opens what it seals, with a tag that is not
      the one of the software.
    - [SecureChannel] (src/advanced/secure_channel.cpp): packets, key setup and
      the replay window, against the interface [Aead], indexed by the kind of
      machine, that [GcmHardware] implements.  A packet delivers its data to an
      end of the same kind; no number is accepted twice, and every authentic
      fresh packet is accepted.
    - [Field25519], [X25519] (src/advanced/secure_channel_crypto.cpp, the builds
      without OpenSSL): the field modulo 2^255 - 19 in sixteen signed limbs and
      the Montgomery ladder.  Limb bounds are carried through every operation,
      so that 64 bits are enough, and the whole equals double-and-add by the
      textbook formulas.  That this function on numbers commutes is a fact of
      the curve and is not proved here.
    - [KeyAgreement]: the interface [Dh] of both X25519 functions, its laws on
      sizes and on agreement, and its portable instance.  With OpenSSL the
      functions belong to the library, so agreement is a hypothesis of the
      clients; the portable instance meets it as soon as the function on
      numbers commutes.
    - [KeyExchange] (src/advanced/secure_channel.cpp): the ephemeral exchange of
      the channel, composed with [SecureChannel]: an end is refused or
      both share a fresh session, over which packets arrive intact and in order.
    - [HybridKem] (src/pqc/hybrid_kem.cpp): X25519 and ML-KEM together; both ends
      derive the same secret where the ML-KEM noise is within its bound.
    ** How to read the theorems

    A theorem whose doc comment starts with an identifier C<n> is a claim about
    the program; the others are lemmas.  [.._witness] lemmas apply a claim to a
    concrete run.  Lemmas under "Findings" show behaviour that differs from
    what the code or its comments intend.

    ** Not modelled

    The CUDA interface shims, the compiler (its output is LLVM IR), the
    tensor-graph (XLA) layer and the numeric kernels, whose contracts are about
    floating-point error; thread scheduling and lock-free structures, since the
    models are sequential: an operation is one step.  Most run under their
    object's mutex; the pool's pop from a thread's own cache and parts of
    [recvSecure] do not, and overlapping calls of those are not covered.  Also
    page-fault handling, sockets, files, TLS, logging and metrics,
    which are calls to the operating system; vendored code (LZ4).  NUMA
    placement and out-of-memory exceptions of the C++ library are left out
    throughout. *)

From Stdlib Require Export ZArith Lia Bool.
From stdpp Require Export base tactics numbers list option fin_maps gmap sets.

#[export] Set Default Goal Selector "!".
#[export] Set Warnings "-clear-no-such-hyp".

Declare Scope vgre_scope.
Delimit Scope vgre_scope with vgre.
Open Scope Z_scope.

(** ** Machine integers

    The program computes with [uint8_t] ... [uint64_t] ([size_t] and
    [uintptr_t] are 64 bits wide); values are kept as [Z] and every operation
    that can leave the width is followed by the wrap of that width. *)

Definition u8 (z : Z) : Z := z mod 2 ^ 8.
Definition u16 (z : Z) : Z := z mod 2 ^ 16.
Definition u32 (z : Z) : Z := z mod 2 ^ 32.
Definition u64 (z : Z) : Z := z mod 2 ^ 64.

#[global] Arguments u8 : simpl never.
#[global] Arguments u16 : simpl never.
#[global] Arguments u32 : simpl never.
#[global] Arguments u64 : simpl never.
#[global] Arguments Z.land : simpl never.
#[global] Arguments Z.lor : simpl never.
#[global] Arguments Z.lxor : simpl never.
#[global] Arguments Z.shiftl : simpl never.
#[global] Arguments Z.shiftr : simpl never.
#[global] Arguments Z.pow : simpl never.
#[global] Arguments Z.modulo : simpl never.
#[global] Arguments Z.div : simpl never.

(** [INT_MAX], [SIZE_MAX] and [UINT64_MAX]. *)
Definition INT_MAX : Z := 2 ^ 31 - 1.
Definition U64_MAX : Z := 2 ^ 64 - 1.

Lemma u64_small z : 0 <= z < 2 ^ 64 -> u64 z = z.
Proof. intros. unfold u64. by apply Z.mod_small. Qed.

Lemma u32_small z : 0 <= z < 2 ^ 32 -> u32 z = z.
Proof. intros. unfold u32. by apply Z.mod_small. Qed.

Lemma u64_bound z : 0 <= u64 z < 2 ^ 64.
Proof. unfold u64. apply Z.mod_pos_bound. lia. Qed.

Lemma u32_bound z : 0 <= u32 z < 2 ^ 32.
Proof. unfold u32. apply Z.mod_pos_bound. lia. Qed.

Lemma u64_add_r a b : u64 (a + u64 b) = u64 (a + b).
Proof. apply Zplus_mod_idemp_r. Qed.

Lemma u32_mul a b : u32 (u32 a * u32 b) = u32 (a * b).
Proof. unfold u32. by rewrite <- Zmult_mod. Qed.

(** Listing every position lists the list. *)
Lemma omap_lookup_seq {A} (pre l : list A) :
  omap (fun i => (pre ++ l) !! i) (seq (length pre) (length l)) = l.
Proof.
  revert pre. induction l as [|v l IH]; intros pre; [done|]. simpl.
  rewrite list_lookup_middle by done. f_equal. specialize (IH (pre ++ [v])).
  by rewrite <- app_assoc, length_app, Nat.add_comm in IH.
Qed.

(** Disjoint halves: [lor] is a sum. *)
Lemma lor_shift a b n : 0 <= n -> 0 <= b < 2 ^ n -> Z.lor (Z.shiftl a n) b = b + 2 ^ n * a.
Proof.
  intros Hn Hb. rewrite Z.shiftl_mul_pow2 by lia.
  assert (Z.land (a * 2 ^ n) b = 0) as E.
  { apply Z.bits_inj'. intros i Hi. rewrite Z.land_spec, Z.bits_0. destruct (Z.lt_ge_cases i n).
    - by rewrite Z.mul_pow2_bits_low by lia.
    - destruct (decide (b = 0)) as [->|]; [by rewrite Z.testbit_0_l, andb_false_r|].
      rewrite (Z.bits_above_log2 b i); [by rewrite andb_false_r|lia|]. apply Z.log2_lt_pow2; [lia|].
      apply Z.lt_le_trans with (2 ^ n); [lia|]. by apply Z.pow_le_mono_r; lia. }
  rewrite <- Z.lxor_lor by done. rewrite <- Z.add_nocarry_lxor by done. ring.
Qed.

(** Exclusive or stays within the width. *)
Lemma lxor_bound k x y : 0 < k -> 0 <= x < 2 ^ k -> 0 <= y < 2 ^ k -> 0 <= Z.lxor x y < 2 ^ k.
Proof.
  intros Hk Hx Hy. assert (0 <= Z.lxor x y) as H0 by (by apply Z.lxor_nonneg; lia). split; [done|].
  destruct (decide (Z.lxor x y = 0)) as [->|Hn]; [lia|]. apply Z.log2_lt_pow2; [lia|].
  eapply Z.le_lt_trans; [apply Z.log2_lxor; lia|].
  assert (forall z, 0 <= z < 2 ^ k -> Z.log2 z < k) as Hlog.
  { intros z Hz. destruct (decide (z = 0)) as [->|]; [done|]. apply Z.log2_lt_pow2; lia. }
  apply Z.max_lub_lt; by apply Hlog.
Qed.

(** ** Tactics *)

(** Turn the boolean comparisons of the code into propositions. *)
Ltac b2p :=
  repeat match goal with
  | H : (_ && _) = true |- _ => apply andb_true_iff in H; destruct H
  | H : (_ && _) = false |- _ => apply andb_false_iff in H
  | H : (_ || _) = true |- _ => apply orb_true_iff in H
  | H : (_ || _) = false |- _ => apply orb_false_iff in H; destruct H
  | H : negb _ = true |- _ => apply negb_true_iff in H
  | H : negb _ = false |- _ => apply negb_false_iff in H
  | H : (_ =? _) = true |- _ => apply Z.eqb_eq in H
  | H : (_ =? _) = false |- _ => apply Z.eqb_neq in H
  | H : (_ <? _) = true |- _ => apply Z.ltb_lt in H
  | H : (_ <? _) = false |- _ => apply Z.ltb_ge in H
  | H : (_ <=? _) = true |- _ => apply Z.leb_le in H
  | H : (_ <=? _) = false |- _ => apply Z.leb_gt in H
  | H : (_ >? _) = _ |- _ => rewrite Z.gtb_ltb in H
  | H : (_ >=? _) = _ |- _ => rewrite Z.geb_leb in H
  | H : bool_decide _ = true |- _ => apply bool_decide_eq_true in H
  | H : bool_decide _ = false |- _ => apply bool_decide_eq_false in H
  end.

(** Case analysis on the first [match] or [if] of the goal (or of a
    hypothesis), keeping its equation. *)
Ltac case_goal :=
  match goal with
  | |- context [match ?e with _ => _ end] => destruct e eqn:?
  end.

Ltac case_in H :=
  match type of H with
  | context [match ?e with _ => _ end] => destruct e eqn:?
  end.

(** Break a hypothesis that equates the result of a guarded computation with
    a value into the branch that produced it. *)
Ltac inv_branches H := repeat (case_in H; simplify_eq/=).

(** ** Lists *)

Section Lists.
Context {A : Type}.
Implicit Types (l : list A) (x : A).

Lemma last_cons_app l x : last (l ++ [x]) = Some x.
Proof. apply last_snoc. Qed.

Lemma foldl_inv {B} (P : B -> Prop) (f : B -> A -> B) l b :
  P b -> (forall b x, x ∈ l -> P b -> P (f b x)) -> P (foldl f b l).
Proof.
  revert b. induction l as [|x l IH]; intros b Hb Hf; simpl; [done|].
  apply IH; [apply Hf; [left|done]|].
  intros b' y Hy. apply Hf. by right.
Qed.

Lemma list_filter_all (P : A -> Prop) `{!forall x, Decision (P x)} l : (forall x, x ∈ l -> P x) -> filter P l = l.
Proof.
  induction l as [|x l IH]; intros HP; [done|]. rewrite filter_cons_True by (apply HP; left).
  f_equal. apply IH. intros y Hy. apply HP. by right.
Qed.
End Lists.

(** ** Result codes of the runtime *)

(** [VGREResult] (include/vgre/common/error_codes.h). *)
Inductive VGREResult :=
| SUCCESS | ERR_NOT_INITIALIZED | ERR_INVALID_DEVICE | ERR_OUT_OF_MEMORY | ERR_INVALID_VALUE
| ERR_INVALID_KERNEL | ERR_LAUNCH_FAILURE | ERR_COMPILATION | ERR_NOT_SUPPORTED | ERR_STREAM
| ERR_TIMEOUT | ERR_ALREADY_EXISTS | ERR_IO | ERR_COMPRESSION | ERR_NETWORK | ERR_AUTH_FAILED
| ERR_CRYPTO | ERR_BUSY | ERR_NOT_FOUND | ERR_AUTH_RETRY | ERR_PLATFORM_SPECIFIC | ERR_UNKNOWN.

#[export] Instance VGREResult_eq_dec : EqDecision VGREResult.
Proof. solve_decision. Defined.

(** ** Results and exceptions *)

(** The outcome of an operation that throws or returns an error code. *)
Inductive result (E A : Type) : Type :=
| Ok (a : A)
| Err (e : E).
#[global] Arguments Ok {E A} a.
#[global] Arguments Err {E A} e.

#[export] Instance result_ret {E} : MRet (result E) := fun A a => Ok a.
#[export] Instance result_bind {E} : MBind (result E) := fun A B f m =>
  match m with Ok a => f a | Err e => Err e end.
#[export] Instance result_fmap {E} : FMap (result E) := fun A B f m =>
  match m with Ok a => Ok (f a) | Err e => Err e end.

Lemma bind_Ok {E A B} (m : result E A) (f : A -> result E B) b :
  (m ≫= f) = Ok b -> exists a, m = Ok a /\ f a = Ok b.
Proof. destruct m; simpl; [eauto|done]. Qed.

(** ** Arrays: [memcpy] from and to a range, [None] outside the array *)

Section Arrays.
Context {A : Type}.
Implicit Types (l src : list A).

Definition slice (base n : Z) l : option (list A) :=
  if (0 <=? base) && (0 <=? n) && (base + n <=? Z.of_nat (length l))
  then Some (take (Z.to_nat n) (drop (Z.to_nat base) l)) else None.

Definition blit (base : Z) src l : option (list A) :=
  if (0 <=? base) && (base + Z.of_nat (length src) <=? Z.of_nat (length l))
  then Some (list_inserts (Z.to_nat base) src l) else None.

Lemma slice_Some base n l :
  0 <= base -> 0 <= n -> base + n <= Z.of_nat (length l) ->
  slice base n l = Some (take (Z.to_nat n) (drop (Z.to_nat base) l)).
Proof.
  intros. unfold slice. rewrite (proj2 (Z.leb_le 0 base)), (proj2 (Z.leb_le 0 n)) by done.
  by rewrite (proj2 (Z.leb_le (base + n) _)).
Qed.

Lemma slice_length base n l l' : slice base n l = Some l' -> Z.of_nat (length l') = n.
Proof.
  unfold slice. intros H. case_in H; simplify_eq. b2p. rewrite length_take, length_drop. lia.
Qed.

Lemma blit_Some base src l :
  0 <= base -> base + Z.of_nat (length src) <= Z.of_nat (length l) ->
  exists l', blit base src l = Some l' /\ length l' = length l /\
    slice base (Z.of_nat (length src)) l' = Some src /\
    (forall b n, b + n <= base \/ base + Z.of_nat (length src) <= b -> slice b n l' = slice b n l) /\
    (forall i, 0 <= i -> i < base \/ base + Z.of_nat (length src) <= i -> l' !! Z.to_nat i = l !! Z.to_nat i).
Proof.
  intros Hb Hl. unfold blit.
  rewrite (proj2 (Z.leb_le 0 base)), (proj2 (Z.leb_le (base + _) _)) by done. simpl.
  exists (list_inserts (Z.to_nat base) src l). split_and!; [done|apply length_inserts| | |].
  - rewrite slice_Some by (rewrite ?length_inserts; lia). f_equal. apply list_eq. intros i.
    rewrite Nat2Z.id. destruct (decide (i < length src)%nat).
    + rewrite lookup_take_lt, lookup_drop, list_lookup_inserts by lia. f_equal. lia.
    + rewrite lookup_take_ge, lookup_ge_None_2 by lia. done.
  - intros b n Hd. unfold slice. rewrite length_inserts. case_goal; [|done]. f_equal.
    apply list_eq. intros i. destruct (decide (i < Z.to_nat n)%nat).
    + rewrite !lookup_take_lt, !lookup_drop by done. b2p.
      destruct Hd; [apply list_lookup_inserts_lt|apply list_lookup_inserts_ge]; lia.
    + by rewrite !lookup_take_ge by lia.
  - intros i Hi Hd. destruct Hd; [apply list_lookup_inserts_lt|apply list_lookup_inserts_ge]; lia.
Qed.

Lemma slice_sub base m o n l l' :
  slice base m l = Some l' -> 0 <= o -> 0 <= n -> o + n <= m ->
  slice (base + o) n l = slice o n l'.
Proof.
  intros Hs Ho Hn Hm. pose proof (slice_length _ _ _ _ Hs) as Hl. revert Hs.
  unfold slice at 1. intros Hs. case_in Hs; simplify_eq. b2p.
  rewrite (slice_Some o n) by lia. rewrite slice_Some by lia. f_equal.
  apply list_eq. intros i. destruct (decide (i < Z.to_nat n)%nat).
  - rewrite !lookup_take_lt by lia. rewrite !lookup_drop, <- Hs, lookup_take_lt by lia.
    rewrite lookup_drop. f_equal. lia.
  - by rewrite !lookup_take_ge by lia.
Qed.
End Arrays.

Create HintDb vgre.
#[export] Hint Resolve u64_bound u32_bound : vgre.
