(* ===== verification/PageTable.v ===== *)
(** * The radix page table of the UVM fault handler

    Model of [RadixPageTable] (include/vgre/core/page_table.h).  The two-level
    table maps page numbers to [ManagedRegion] pointers: [l1_] is the L1
    directory, an absent key standing for the null L2 pointer, and an L2 table
    is the finite map of its non-null entries, so [Some ∅] is an allocated
    table whose entries are all null.  A region pointer is an address in [Z],
    0 being [nullptr]. *)

From S2P Require Import Prelude.

Module RadixPageTable.

Definition PAGE_SHIFT : Z := 12.
Definition L2_BITS : Z := 18.
Definition L1_BITS : Z := 18.
Definition L1_SIZE : Z := 2 ^ L1_BITS.
Definition L2_SIZE : Z := 2 ^ L2_BITS.
Definition L2_MASK : Z := L2_SIZE - 1.

Record t := mk {
  l1_ : gmap Z (gmap Z Z);
  l2RefCounts_ : gmap Z Z;
}.

Definition empty : t := mk ∅ ∅.

Definition l1Idx (pageNum : Z) : Z := Z.land (Z.shiftr pageNum L2_BITS) (L1_SIZE - 1).
Definition l2Idx (pageNum : Z) : Z := Z.land pageNum L2_MASK.

#[global] Arguments l1Idx : simpl never.
#[global] Arguments l2Idx : simpl never.

Definition refCount (pt : t) (i : Z) : Z := default 0 (l2RefCounts_ pt !! i).

Definition lookup (pt : t) (addr : Z) : Z :=
  let pageNum := Z.shiftr addr PAGE_SHIFT in
  match l1_ pt !! l1Idx pageNum with
  | None => 0
  | Some l2 => default 0 (l2 !! l2Idx pageNum)
  end.

(** The pages [startPage .. endPage] of [[base, base+size)]; [base + size - 1]
    is computed in [uintptr_t]. *)
Definition pageRange (base size : Z) : list Z :=
  let startPage := Z.shiftr base PAGE_SHIFT in
  let endPage := Z.shiftr (u64 (base + size - 1)) PAGE_SHIFT in
  seqZ startPage (endPage - startPage + 1).

(** Body of the loop of [insert] for page [pg]. *)
Definition insertPage (region : Z) (pt : t) (pg : Z) : t :=
  let i := l1Idx pg in
  let l2 := default ∅ (l1_ pt !! i) in
  let rc := match l2 !! l2Idx pg with
            | None => <[i := u32 (refCount pt i + 1)]> (l2RefCounts_ pt)
            | Some _ => l2RefCounts_ pt
            end in
  mk (<[i := <[l2Idx pg := region]> l2]> (l1_ pt)) rc.

Definition insert (pt : t) (base size region : Z) : t :=
  if (region =? 0) || (size =? 0) then pt
  else foldl (insertPage region) pt (pageRange base size).

(** Body of the loop of [remove] for page [pg]: the entry is nulled and the
    L2 table is freed when its last entry goes. *)
Definition removePage (pt : t) (pg : Z) : t :=
  let i := l1Idx pg in
  match l1_ pt !! i with
  | None => pt
  | Some l2 =>
      match l2 !! l2Idx pg with
      | None => pt
      | Some _ =>
          let newCount := u32 (refCount pt i - 1) in
          mk (if newCount =? 0 then delete i (l1_ pt)
              else <[i := delete (l2Idx pg) l2]> (l1_ pt))
             (<[i := newCount]> (l2RefCounts_ pt))
      end
  end.

Definition remove (pt : t) (base size : Z) : t :=
  if size =? 0 then pt else foldl removePage pt (pageRange base size).

(** [clear] nulls every entry and resets the counts of the allocated tables,
    which stay allocated. *)
Definition clear (pt : t) : t :=
  mk ((fun _ => ∅) <$> l1_ pt)
     (map_imap (fun i c => if decide (is_Some (l1_ pt !! i)) then Some 0 else Some c)
               (l2RefCounts_ pt)).

(** ** Invariant: each count is the number of live entries of its table *)

(** The L2 table of an L1 index, a null pointer counting as no entry. *)
Definition tbl (pt : t) (i : Z) : gmap Z Z := default ∅ (l1_ pt !! i).

Definition l2_ok (l2 : gmap Z Z) : Prop :=
  forall j r, l2 !! j = Some r -> 0 <= j < L2_SIZE /\ r <> 0.

Definition wf (pt : t) : Prop :=
  forall i, l2_ok (tbl pt i) /\ refCount pt i = Z.of_nat (size (tbl pt i)).

(** No L2 table without a live entry is kept allocated. *)
Definition tight (pt : t) : Prop :=
  forall i l2, l1_ pt !! i = Some l2 -> l2 <> ∅.

(** Pages of the 48-bit user address space, the slot of the table that a
    page uses, and the entry found there. *)
Definition canonical (pg : Z) : Prop := 0 <= pg < 2 ^ (L1_BITS + L2_BITS).
Definition page (addr : Z) : Z := Z.shiftr addr PAGE_SHIFT.
Definition slot (pg : Z) : Z * Z := (l1Idx pg, l2Idx pg).
Definition entry (pt : t) (pg : Z) : Z := default 0 (tbl pt (l1Idx pg) !! l2Idx pg).

Lemma lookup_entry pt addr : lookup pt addr = entry pt (page addr).
Proof. unfold lookup, entry, tbl, page. by case_match. Qed.

Lemma l2Idx_mod pg : l2Idx pg = pg mod L2_SIZE.
Proof. unfold l2Idx, L2_MASK, L2_SIZE. by rewrite <- Z.land_ones by done. Qed.

Lemma l1Idx_mod pg : l1Idx pg = (pg / L2_SIZE) mod L1_SIZE.
Proof.
  unfold l1Idx, L1_SIZE. rewrite <- Z.land_ones by done.
  by rewrite Z.shiftr_div_pow2 by done.
Qed.

Lemma l2Idx_bound pg : 0 <= l2Idx pg < L2_SIZE.
Proof. rewrite l2Idx_mod. by apply Z.mod_pos_bound. Qed.

Lemma slot_inj p q : canonical p -> canonical q -> slot p = slot q -> p = q.
Proof.
  unfold slot, canonical. intros Hp Hq [= H1 H2].
  rewrite !l1Idx_mod in H1. rewrite !l2Idx_mod in H2.
  change L1_SIZE with 262144 in *. change L2_SIZE with 262144 in *.
  change (2 ^ (L1_BITS + L2_BITS)) with (262144 * 262144) in *.
  rewrite !(Z.mod_small (_ / _)) in H1
    by (split; [apply Z.div_pos|apply Z.div_lt_upper_bound]; lia).
  rewrite (Z.div_mod p 262144), (Z.div_mod q 262144) by lia. congruence.
Qed.

Lemma page_canonical a : 0 <= a < 2 ^ 48 -> canonical (page a).
Proof.
  intros Ha. unfold canonical, page. rewrite Z.shiftr_div_pow2 by done.
  change (2 ^ PAGE_SHIFT) with 4096. change (2 ^ (L1_BITS + L2_BITS)) with (2 ^ 36).
  split; [apply Z.div_pos|apply Z.div_lt_upper_bound]; lia.
Qed.

Lemma page_mono a b : a <= b -> page a <= page b.
Proof. unfold page. rewrite !Z.shiftr_div_pow2 by done. intros. by apply Z.div_le_mono. Qed.

(** The counts stay far below the width of [uint32_t]. *)
Lemma l2_size_bound l2 : l2_ok l2 -> Z.of_nat (size l2) <= L2_SIZE.
Proof.
  intros Hok. rewrite <- size_dom.
  assert (dom l2 ⊆ (list_to_set (seqZ 0 L2_SIZE) : gset Z)) as Hsub.
  { intros j [r Hr]%elem_of_dom. apply elem_of_list_to_set, elem_of_seqZ.
    apply Hok in Hr. lia. }
  apply subseteq_size in Hsub.
  rewrite size_list_to_set, length_seqZ in Hsub by apply NoDup_seqZ. change L2_SIZE with 262144 in *. lia.
Qed.

Lemma count_inc l2 j :
  l2_ok l2 -> l2 !! j = None -> u32 (Z.of_nat (size l2) + 1) = Z.of_nat (size l2) + 1.
Proof.
  intros Hok _. pose proof (l2_size_bound l2 Hok). change L2_SIZE with 262144 in *.
  apply u32_small. lia.
Qed.

Lemma count_dec l2 j r :
  l2_ok l2 -> l2 !! j = Some r ->
  u32 (Z.of_nat (size l2) - 1) = Z.of_nat (size (delete j l2)).
Proof.
  intros Hok Hr. pose proof (l2_size_bound l2 Hok). change L2_SIZE with 262144 in *.
  assert (size l2 <> 0%nat) by (apply map_size_non_empty_iff; intros ->; done).
  rewrite map_size_delete_Some by done. rewrite u32_small by lia. lia.
Qed.

(** [simpl] would evaluate the index arithmetic, so reduce by name. *)
Local Ltac psimpl := cbn [l1_ l2RefCounts_ default from_option id foldl orb fst snd].
Local Ltac psimpl_all := cbn [l1_ l2RefCounts_ default from_option id foldl orb fst snd] in *.

(** ** One page *)

Lemma tbl_insertPage r pt pg i :
  tbl (insertPage r pt pg) i =
    if decide (i = l1Idx pg) then <[l2Idx pg := r]> (tbl pt i) else tbl pt i.
Proof.
  unfold tbl, insertPage; psimpl. case_decide as E.
  - by rewrite E, lookup_insert_eq.
  - by rewrite lookup_insert_ne.
Qed.

Lemma tbl_removePage pt pg i :
  wf pt ->
  tbl (removePage pt pg) i =
    if decide (i = l1Idx pg) then delete (l2Idx pg) (tbl pt i) else tbl pt i.
Proof.
  intros Hwf. specialize (Hwf (l1Idx pg)) as [Hok Hrc].
  unfold removePage, tbl in *. destruct (l1_ pt !! l1Idx pg) as [l2|] eqn:El; psimpl_all.
  2: { case_decide as E; [|done]. by rewrite E, El. }
  destruct (l2 !! l2Idx pg) as [r|] eqn:Er; psimpl.
  2: { case_decide as E; [|done]. subst i. rewrite El. psimpl. by rewrite delete_id. }
  rewrite Hrc, (count_dec l2 (l2Idx pg) r) by done.
  case_decide as E; [subst i; rewrite El|]; psimpl.
  - destruct (Z.eqb_spec (Z.of_nat (size (delete (l2Idx pg) l2))) 0) as [H0|H0].
    + rewrite lookup_delete_eq. psimpl. symmetry. apply map_size_empty_inv. lia.
    + by rewrite lookup_insert_eq.
  - by case_match; [rewrite lookup_delete_ne|rewrite lookup_insert_ne].
Qed.

Lemma entry_insertPage r pt pg q :
  entry (insertPage r pt pg) q = if decide (slot q = slot pg) then r else entry pt q.
Proof.
  unfold entry, slot. rewrite tbl_insertPage.
  destruct (decide (l1Idx q = l1Idx pg)) as [E1|E1].
  - destruct (decide (l2Idx q = l2Idx pg)) as [E2|E2].
    + by rewrite E2, lookup_insert_eq, decide_True by congruence.
    + by rewrite lookup_insert_ne, decide_False by congruence.
  - by rewrite decide_False by congruence.
Qed.

Lemma entry_removePage pt pg q :
  wf pt ->
  entry (removePage pt pg) q = if decide (slot q = slot pg) then 0 else entry pt q.
Proof.
  intros Hwf. unfold entry, slot. rewrite tbl_removePage by done.
  destruct (decide (l1Idx q = l1Idx pg)) as [E1|E1].
  - destruct (decide (l2Idx q = l2Idx pg)) as [E2|E2].
    + by rewrite E2, lookup_delete_eq, decide_True by congruence.
    + by rewrite lookup_delete_ne, decide_False by congruence.
  - by rewrite decide_False by congruence.
Qed.

Lemma l2_ok_insert l2 j r : l2_ok l2 -> 0 <= j < L2_SIZE -> r <> 0 -> l2_ok (<[j := r]> l2).
Proof. intros Hok Hj Hr j' r' [[-> ->]|[_ ?]]%lookup_insert_Some; [done|by apply Hok]. Qed.

Lemma l2_ok_delete l2 j : l2_ok l2 -> l2_ok (delete j l2).
Proof. intros Hok j' r' [_ ?]%lookup_delete_Some. by apply Hok. Qed.

Lemma refCount_insertPage r pt pg i :
  refCount (insertPage r pt pg) i =
    if decide (i = l1Idx pg /\ tbl pt i !! l2Idx pg = None)
    then u32 (refCount pt i + 1) else refCount pt i.
Proof.
  unfold insertPage. fold (tbl pt (l1Idx pg)). unfold refCount at 1. psimpl.
  destruct (tbl pt (l1Idx pg) !! l2Idx pg) eqn:E.
  - rewrite decide_False; [done|]. intros [-> ?]. congruence.
  - destruct (decide (i = l1Idx pg)) as [->|Hi].
    + by rewrite lookup_insert_eq, decide_True.
    + by rewrite lookup_insert_ne, decide_False by (done || by intros [? _]).
Qed.

Lemma wf_insertPage r pt pg : wf pt -> r <> 0 -> wf (insertPage r pt pg).
Proof.
  intros Hwf Hr i. destruct (Hwf i) as [Hok Hrc].
  rewrite refCount_insertPage, tbl_insertPage.
  destruct (decide (i = l1Idx pg)) as [Hi|Hi].
  2: { rewrite decide_False by tauto. done. }
  split; [apply l2_ok_insert; auto using l2Idx_bound|].
  destruct (tbl pt i !! l2Idx pg) as [r'|] eqn:E.
  - rewrite decide_False by (intros [_ ?]; congruence). by erewrite map_size_insert_Some.
  - rewrite decide_True by done. rewrite Hrc, (count_inc _ (l2Idx pg)) by done.
    rewrite map_size_insert_None by done. lia.
Qed.

Lemma removePage_absent pt pg : tbl pt (l1Idx pg) !! l2Idx pg = None -> removePage pt pg = pt.
Proof. unfold removePage, tbl. case_match; [|done]. psimpl. by intros ->. Qed.

Lemma wf_removePage pt pg : wf pt -> wf (removePage pt pg).
Proof.
  intros Hwf i. rewrite tbl_removePage by done. destruct (Hwf i) as [Hok Hrc].
  destruct (tbl pt (l1Idx pg) !! l2Idx pg) as [r|] eqn:E.
  2: { rewrite removePage_absent by done. case_decide as Hi; [|done].
       subst i. by rewrite delete_id. }
  assert (refCount (removePage pt pg) i =
          if decide (i = l1Idx pg) then u32 (refCount pt i - 1) else refCount pt i) as ->.
  { revert E. unfold removePage, tbl. destruct (l1_ pt !! l1Idx pg); psimpl; [|done].
    intros ->. unfold refCount at 1. psimpl.
    case_decide as Hi; [by rewrite Hi, lookup_insert_eq|by rewrite lookup_insert_ne]. }
  case_decide as Hi; [|done]. subst i. split; [by apply l2_ok_delete|].
  rewrite Hrc. by eapply count_dec.
Qed.

Lemma tight_insertPage r pt pg : tight pt -> tight (insertPage r pt pg).
Proof.
  intros Ht i l2. unfold insertPage; psimpl.
  intros [[_ <-]|[_ ?]]%lookup_insert_Some; [apply insert_non_empty|by eapply Ht].
Qed.

Lemma tight_removePage pt pg : wf pt -> tight pt -> tight (removePage pt pg).
Proof.
  intros Hwf Ht. destruct (Hwf (l1Idx pg)) as [Hok Hrc]. revert Hok Hrc.
  unfold removePage, tbl. destruct (l1_ pt !! l1Idx pg) as [l2|] eqn:El; psimpl; [|done].
  destruct (l2 !! l2Idx pg) as [r|] eqn:Er; [|done].
  intros Hok Hrc i l2'. psimpl. rewrite Hrc, (count_dec l2 _ r) by done.
  destruct (Z.eqb_spec (Z.of_nat (size (delete (l2Idx pg) l2))) 0) as [H0|H0].
  - intros [_ ?]%lookup_delete_Some. by eapply Ht.
  - intros [[_ <-]|[_ ?]]%lookup_insert_Some; [|by eapply Ht].
    intros He. by rewrite He, map_size_empty in H0.
Qed.

(** ** Ranges of pages *)

Lemma elem_of_pageRange base size pg :
  0 <= base -> 0 < size -> base + size <= 2 ^ 48 ->
  pg ∈ pageRange base size <-> page base <= pg <= page (base + size - 1).
Proof.
  intros. unfold pageRange. rewrite u64_small by lia. rewrite elem_of_seqZ.
  unfold page. lia.
Qed.

Lemma pageRange_canonical base size pg :
  0 <= base -> 0 < size -> base + size <= 2 ^ 48 -> pg ∈ pageRange base size -> canonical pg.
Proof.
  intros Hb Hs Hbs Hin. apply elem_of_pageRange in Hin; [|done..].
  destruct (page_canonical base), (page_canonical (base + size - 1)); [lia..|].
  unfold canonical in *. lia.
Qed.

(** Updating page [pg] and then the pages [pgs] updates [pg :: pgs]. *)
Lemma decide_pages_cons {X} (a b : X) q pg pgs :
  canonical q -> canonical pg ->
  (if decide (q ∈ pgs) then a else if decide (slot q = slot pg) then a else b) =
  if decide (q ∈ pg :: pgs) then a else b.
Proof.
  intros Hq Hpg. destruct (decide (q ∈ pgs)) as [H|H].
  { by rewrite decide_True by (by right). }
  destruct (decide (slot q = slot pg)) as [E|E].
  - apply slot_inj in E; [|done..]. subst. by rewrite decide_True by left.
  - rewrite decide_False; [done|]. by intros [->|?]%elem_of_cons.
Qed.

Lemma entry_foldl_insert r pgs pt q :
  canonical q -> Forall canonical pgs ->
  entry (foldl (insertPage r) pt pgs) q = if decide (q ∈ pgs) then r else entry pt q.
Proof.
  intros Hq. revert pt. induction pgs as [|pg pgs IH]; intros pt Hc; psimpl; [done|].
  apply Forall_cons in Hc as [Hpg Hpgs].
  rewrite IH, entry_insertPage by done. by apply decide_pages_cons.
Qed.

Lemma entry_foldl_remove pgs pt q :
  wf pt -> canonical q -> Forall canonical pgs ->
  entry (foldl removePage pt pgs) q = if decide (q ∈ pgs) then 0 else entry pt q.
Proof.
  intros Hwf Hq. revert pt Hwf. induction pgs as [|pg pgs IH]; intros pt Hwf Hc; psimpl; [done|].
  apply Forall_cons in Hc as [Hpg Hpgs].
  rewrite IH, entry_removePage by auto using wf_removePage. by apply decide_pages_cons.
Qed.

Lemma tbl_clear pt i : tbl (clear pt) i = ∅.
Proof. unfold tbl, clear; psimpl. rewrite lookup_fmap. by destruct (l1_ pt !! i). Qed.

Lemma wf_clear pt : wf pt -> wf (clear pt).
Proof.
  intros Hwf i. rewrite tbl_clear, map_size_empty. split; [done|].
  destruct (Hwf i) as [_ Hrc]. unfold refCount, tbl, clear in *; psimpl.
  rewrite map_lookup_imap.
  destruct (l2RefCounts_ pt !! i) as [c|] eqn:Ec; psimpl; [|done].
  case_decide as Hs; [done|]. apply eq_None_not_Some in Hs. rewrite Hs in Hrc. done.
Qed.

(** ** Specification: a map from pages to regions

    The abstract state of the table is the function from canonical pages to
    region pointers; the operations update ranges of it. *)

Inductive op :=
| OpInsert (base size region : Z)
| OpRemove (base size : Z)
| OpClear.

(** The ranges the memory manager passes: non-empty and inside the 48-bit
    address space; [insert] takes a non-null region. *)
Definition op_ok (o : op) : Prop :=
  match o with
  | OpInsert base size region => 0 <= base /\ 0 < size /\ base + size <= 2 ^ 48 /\ region <> 0
  | OpRemove base size => 0 <= base /\ 0 < size /\ base + size <= 2 ^ 48
  | OpClear => True
  end.

Definition run1 (pt : t) (o : op) : t :=
  match o with
  | OpInsert base size region => insert pt base size region
  | OpRemove base size => remove pt base size
  | OpClear => clear pt
  end.

Definition spec1 (f : Z -> Z) (o : op) : Z -> Z :=
  match o with
  | OpInsert base size region =>
      fun pg => if decide (page base <= pg <= page (base + size - 1)) then region else f pg
  | OpRemove base size =>
      fun pg => if decide (page base <= pg <= page (base + size - 1)) then 0 else f pg
  | OpClear => fun _ => 0
  end.

Definition run (pt : t) (ops : list op) : t := foldl run1 pt ops.
Definition spec (f : Z -> Z) (ops : list op) : Z -> Z := foldl spec1 f ops.

Lemma table_wf_empty : wf empty.
Proof. intros i. unfold tbl, refCount, empty. psimpl. by rewrite !lookup_empty. Qed.

Lemma wf_run1 pt o : op_ok o -> wf pt -> wf (run1 pt o).
Proof.
  destruct o as [base size r|base size|]; intros Ho Hwf; cbn [run1]; [| |by apply wf_clear].
  - unfold insert. case_match; [done|]. apply foldl_inv; [done|].
    intros pt' pg _ ?. apply wf_insertPage; [done|apply Ho].
  - unfold remove. case_match; [done|]. apply foldl_inv; auto using wf_removePage.
Qed.

Lemma wf_run ops pt : Forall op_ok ops -> wf pt -> wf (run pt ops).
Proof.
  intros Hok Hwf. unfold run. apply foldl_inv; [done|].
  intros pt' o Ho ?. apply wf_run1; [|done]. by eapply Forall_forall.
Qed.

Lemma tight_run1 pt o : op_ok o -> o <> OpClear -> wf pt -> tight pt -> tight (run1 pt o).
Proof.
  destruct o as [base size r|base size|]; intros Ho Hc Hwf Ht; cbn [run1]; [| |done].
  - unfold insert. case_match; [done|]. apply foldl_inv; auto using tight_insertPage.
  - unfold remove. case_match; [done|].
    apply (foldl_inv (fun pt => wf pt /\ tight pt)); [done|].
    intros pt' pg _ []. auto using wf_removePage, tight_removePage.
Qed.

Lemma entry_run1 pt o q :
  op_ok o -> wf pt -> canonical q -> entry (run1 pt o) q = spec1 (entry pt) o q.
Proof.
  destruct o as [base size r|base size|]; intros Ho Hwf Hq.
  - destruct Ho as (Hb & Hs & Hbs & Hr). cbn [run1 spec1]. unfold insert.
    rewrite (proj2 (Z.eqb_neq r 0)), (proj2 (Z.eqb_neq size 0)) by lia. psimpl.
    rewrite entry_foldl_insert; [|done|by apply Forall_forall; eauto using pageRange_canonical].
    apply decide_ext, elem_of_pageRange; done.
  - destruct Ho as (Hb & Hs & Hbs). cbn [run1 spec1]. unfold remove. rewrite (proj2 (Z.eqb_neq size 0)) by lia.
    rewrite entry_foldl_remove; [|done..|by apply Forall_forall; eauto using pageRange_canonical].
    apply decide_ext, elem_of_pageRange; done.
  - cbn [run1 spec1]. unfold entry. by rewrite tbl_clear, lookup_empty.
Qed.

Lemma spec1_ext f g o q : f q = g q -> spec1 f o q = spec1 g o q.
Proof. intros H. by destruct o; cbn [spec1]; rewrite ?H. Qed.

(** C22: the fault handler's table implements a map from pages to regions.
    After any sequence of [insert], [remove] and [clear] calls on ranges of
    the 48-bit address space, [lookup] of an address returns exactly the
    region that the abstract map holds for its page: the last one inserted
    over it and not removed or cleared since, [nullptr] otherwise. *)
Theorem page_table_refines_map ops addr :
  Forall op_ok ops -> 0 <= addr < 2 ^ 48 ->
  lookup (run empty ops) addr = spec (fun _ => 0) ops (page addr).
Proof.
  intros Hok Ha. rewrite lookup_entry. apply page_canonical in Ha.
  revert Hok Ha. generalize (page addr) as q. induction ops as [|o ops IH] using rev_ind.
  { intros q _ _. unfold entry, tbl, run, spec, empty. psimpl. by rewrite lookup_empty. }
  intros q [Hops [Ho _]%Forall_cons]%Forall_app Hq. unfold run, spec.
  rewrite !foldl_snoc. fold (run empty ops) (spec (fun _ => 0) ops).
  rewrite entry_run1 by auto using wf_run, table_wf_empty. by apply spec1_ext, IH.
Qed.

Lemma page_table_refines_map_witness :
  lookup (run empty [OpInsert 4096 8192 7; OpRemove 8192 1]) 4100 = 7 /\
  lookup (run empty [OpInsert 4096 8192 7; OpRemove 8192 1]) 8200 = 0.
Proof.
  split.
  - rewrite page_table_refines_map; [reflexivity| |lia].
    repeat constructor; psimpl; lia.
  - rewrite page_table_refines_map; [reflexivity| |lia].
    repeat constructor; psimpl; lia.
Defined.

(** The reference counts are exact and no L2 table leaks.  After any
    sequence of [insert] and [remove] calls, every count equals the number
    of non-null entries of its L2 table, without wrapping, and every L2
    table still allocated has a live entry, so a table is freed as soon as
    its last page is removed. *)
Theorem page_table_counts_exact ops i :
  Forall op_ok ops -> OpClear ∉ ops ->
  refCount (run empty ops) i = Z.of_nat (size (tbl (run empty ops) i)) /\
  (is_Some (l1_ (run empty ops) !! i) <-> 0 < refCount (run empty ops) i).
Proof.
  intros Hok Hc. assert (wf (run empty ops)) as Hwf by auto using wf_run, table_wf_empty.
  assert (tight (run empty ops)) as Ht.
  { apply (foldl_inv (fun pt => wf pt /\ tight pt)); [split; [apply table_wf_empty|done]|].
    intros pt o Hin [? ?]. assert (op_ok o) by (by eapply Forall_forall).
    split; [by apply wf_run1|]. apply tight_run1; [done| |done..]. by intros ->. }
  destruct (Hwf i) as [_ Hrc]. split; [done|]. rewrite Hrc. unfold tbl.
  destruct (l1_ (run empty ops) !! i) as [l2|] eqn:E; psimpl; cycle 1.
  { rewrite map_size_empty. split; [by intros []|lia]. }
  split; [intros _|by eauto]. apply Ht in E.
  assert (size l2 <> 0%nat) by (by apply map_size_non_empty_iff). lia.
Qed.

Lemma page_table_counts_exact_witness :
  refCount (run empty [OpInsert 4096 8192 7; OpRemove 8192 1]) 0 = 1 /\
  (is_Some (l1_ (run empty [OpInsert 4096 8192 7; OpRemove 8192 1]) !! 0)).
Proof.
  destruct (page_table_counts_exact [OpInsert 4096 8192 7; OpRemove 8192 1] 0) as [H1 H2].
  - repeat constructor; psimpl; lia.
  - set_solver.
  - split; [by rewrite H1|by apply H2; rewrite H1].
Defined.

End RadixPageTable.
