(* ===== verification/PoolAllocator.v ===== *)
(** * Memory pools

    Model of the pool allocator of [MemoryManager]
    (src/core/memory/pool_allocator.cpp, [MemoryPool] of
    include/vgre/core/memory_manager.h).  Pools carve slabs of 64 blocks; free
    blocks form a queue whose links are stored in the blocks themselves, behind
    a sentinel, and every thread keeps a stack of freed blocks per pool, linked
    the same way.  The model keeps that memory: 64-bit words by address.  The
    operating system's allocator is an argument of the operations ([None] when
    it has no memory); its outstanding regions are part of the state.  Every
    operation holds its pool's mutex for all it does to the pool, so operations
    are atomic; NUMA placement, which is advisory, logging and the counters'
    wrap at 2^64 operations are not modelled. *)

From S2P Require Import Prelude.

Module PoolAllocator.

Definition kTlsMaxBlockSz : Z := 1024 * 1024.
Definition kNumSizeClasses : nat := 8.
Definition kSizeClassBase : Z := 8.

(** [kTlsCacheMax], from the configured depth. *)
Definition tlsDepth (config : option Z) : Z :=
  match config with
  | Some v => if (8 <=? v) && (v <=? 256) then v else 64
  | None => 64
  end.

Definition sizeClass (blockSz : Z) : nat :=
  if blockSz <? kSizeClassBase then O else
  let ratio := blockSz / kSizeClassBase in
  let cls := if 1 <? ratio then Z.to_nat (Z.log2 ratio) else O in
  if (cls <? kNumSizeClasses)%nat then cls else pred kNumSizeClasses.

(** [(size + 63) & ~63] on [size_t]. *)
Definition align64 (size : Z) : Z := Z.land (u64 (size + 63)) (u64 (Z.lnot 63)).

(** ** Memory *)

Definition read (mem : gmap Z Z) (a : Z) : Z := default 0 (mem !! a).
Definition write (a v : Z) (mem : gmap Z Z) : gmap Z Z := <[a := v]> mem.

(** [memset(b, 0, n)]. *)
Definition clear (b n : Z) (mem : gmap Z Z) : gmap Z Z :=
  filter (fun kv => kv.1 < b \/ b + n <= kv.1) mem.

(** ** Data *)

Record SizeClassEntry := mkClass { head : Z; count : Z }.

Record TlsEntry := mkTls { classes : list SizeClassEntry; blockSz : Z; gen : Z }.

Definition emptyTls (g : Z) : TlsEntry := mkTls (replicate kNumSizeClasses (mkClass 0 0)) 0 g.

Record MemoryPool := mkPool {
  id : Z;
  blockSize : Z;
  freeList : Z;
  freeListTail : Z;
  freeListDummy : Z;
  slabList : list (Z * Z);
  totalAllocated : Z;
  peakAllocated : Z;
  allocCount : Z;
  freeCount : Z;
  oversizedAllocs : gmap Z Z;
  liveSlabAllocs : gset Z;
  slabRanges : list (Z * Z);
  releaseThreshold : Z;
  reuseFollowEventDependencies : bool;
  reuseAllowOpportunistic : bool;
  reuseAllowInternalDependencies : bool;
  accessFlagsByDevice : gmap Z Z;
}.

Record t := mk {
  mem : gmap Z Z;
  os : gmap Z Z;
  pools_ : gmap Z MemoryPool;
  nextPoolId_ : Z;
  usedMemory_ : Z;
  g_poolGen : gmap Z Z;
  t_cache : gmap (Z * Z) TlsEntry;
}.

Definition init (m : gmap Z Z) : t := mk m ∅ ∅ 1 0 ∅ ∅.

Definition poolGen (s : t) (h : Z) : Z := default 0 (g_poolGen s !! (h mod 1024)).

Definition set_mem (s : t) m := mk m (os s) (pools_ s) (nextPoolId_ s) (usedMemory_ s) (g_poolGen s) (t_cache s).
Definition set_pool (s : t) (h : Z) (p : MemoryPool) :=
  mk (mem s) (os s) (<[h := p]> (pools_ s)) (nextPoolId_ s) (usedMemory_ s) (g_poolGen s) (t_cache s).
Definition set_tls (s : t) (thr h : Z) (e : TlsEntry) :=
  mk (mem s) (os s) (pools_ s) (nextPoolId_ s) (usedMemory_ s) (g_poolGen s) (<[(thr, h) := e]> (t_cache s)).

(** [posix_memalign] and [free], with the accounting that follows them. *)
Definition os_alloc (s : t) (a n : Z) :=
  mk (mem s) (<[a := n]> (os s)) (pools_ s) (nextPoolId_ s) (usedMemory_ s + n) (g_poolGen s) (t_cache s).
Definition os_free (s : t) (a n : Z) :=
  mk (mem s) (delete a (os s)) (pools_ s) (nextPoolId_ s) (usedMemory_ s - n) (g_poolGen s) (t_cache s).

Definition with_queue (p : MemoryPool) tail :=
  mkPool (id p) (blockSize p) (freeList p) tail (freeListDummy p) (slabList p) (totalAllocated p) (peakAllocated p) (allocCount p) (freeCount p) (oversizedAllocs p) (liveSlabAllocs p) (slabRanges p) (releaseThreshold p) (reuseFollowEventDependencies p) (reuseAllowOpportunistic p) (reuseAllowInternalDependencies p) (accessFlagsByDevice p).
Definition with_slabs (p : MemoryPool) slabs ranges :=
  mkPool (id p) (blockSize p) (freeList p) (freeListTail p) (freeListDummy p) slabs (totalAllocated p) (peakAllocated p) (allocCount p) (freeCount p) (oversizedAllocs p) (liveSlabAllocs p) ranges (releaseThreshold p) (reuseFollowEventDependencies p) (reuseAllowOpportunistic p) (reuseAllowInternalDependencies p) (accessFlagsByDevice p).
Definition with_allocs (p : MemoryPool) over live :=
  mkPool (id p) (blockSize p) (freeList p) (freeListTail p) (freeListDummy p) (slabList p) (totalAllocated p) (peakAllocated p) (allocCount p) (freeCount p) over live (slabRanges p) (releaseThreshold p) (reuseFollowEventDependencies p) (reuseAllowOpportunistic p) (reuseAllowInternalDependencies p) (accessFlagsByDevice p).
Definition with_counts (p : MemoryPool) total peak allocs frees :=
  mkPool (id p) (blockSize p) (freeList p) (freeListTail p) (freeListDummy p) (slabList p) total peak allocs frees (oversizedAllocs p) (liveSlabAllocs p) (slabRanges p) (releaseThreshold p) (reuseFollowEventDependencies p) (reuseAllowOpportunistic p) (reuseAllowInternalDependencies p) (accessFlagsByDevice p).
Definition with_attrs (p : MemoryPool) thr a b c flags :=
  mkPool (id p) (blockSize p) (freeList p) (freeListTail p) (freeListDummy p) (slabList p) (totalAllocated p) (peakAllocated p) (allocCount p) (freeCount p) (oversizedAllocs p) (liveSlabAllocs p) (slabRanges p) thr a b c flags.

(** Statistics of an allocation and of a release of [n] bytes. *)
Definition count_alloc (p : MemoryPool) (n : Z) : MemoryPool :=
  let total := totalAllocated p + n in
  with_counts p total (if peakAllocated p <? total then total else peakAllocated p) (allocCount p + 1) (freeCount p).
Definition count_free (p : MemoryPool) (n : Z) : MemoryPool :=
  with_counts p (if n <=? totalAllocated p then totalAllocated p - n else totalAllocated p)
    (peakAllocated p) (allocCount p) (freeCount p + 1).

(** ** Creation and destruction *)

(** [dummy] is the address of [new FreeBlock{}]. *)
Definition createPool (s : t) (blockSize dummy : Z) : t * Z :=
  let newId := nextPoolId_ s in
  let bs := align64 (if blockSize <? 8 then 8 else blockSize) in
  let p := mkPool newId bs dummy dummy dummy [] 0 0 0 0 ∅ ∅ [] U64_MAX true true true ∅ in
  (mk (write dummy 0 (mem s)) (<[dummy := 8]> (os s)) (<[newId := p]> (pools_ s)) (newId + 1) (usedMemory_ s)
      (<[newId mod 1024 := 0]> (g_poolGen s)) (t_cache s), newId).

Definition destroyPool (s : t) (h : Z) : t * VGREResult :=
  match pools_ s !! h with
  | None => (s, ERR_INVALID_VALUE)
  | Some p =>
      if negb (bool_decide (liveSlabAllocs p = ∅)) || negb (bool_decide (oversizedAllocs p = ∅)) then (s, ERR_BUSY) else
      let s := foldl (fun s '(ptr, size) => os_free s ptr size) s (slabList p) in
      (mk (mem s) (delete (freeListDummy p) (os s)) (delete h (pools_ s)) (nextPoolId_ s) (usedMemory_ s)
          (<[h mod 1024 := u32 (poolGen s h + 1)]> (g_poolGen s)) (t_cache s), SUCCESS)
  end.

(** ** Allocation *)

(** The thread's cache entry, reset when the pool's generation has changed. *)
Definition tlsEntry (s : t) (thr h : Z) : TlsEntry :=
  let e := default (emptyTls 0) (t_cache s !! (thr, h)) in
  if gen e =? poolGen s h then e else emptyTls (poolGen s h).

Definition classOf (e : TlsEntry) (bs : Z) : SizeClassEntry :=
  default (mkClass 0 0) (classes e !! sizeClass bs).

(** Popping a block of the thread's stack, if there is one that fits. *)
Definition tlsPop (s : t) (thr h size : Z) : option (t * Z) :=
  let e := tlsEntry s thr h in
  if (0 <? blockSz e) && (size <=? blockSz e) && (blockSz e <=? kTlsMaxBlockSz) then
    let sc := classOf e (blockSz e) in
    if 0 <? count sc then
      let blk := head sc in
      let e' := mkTls (<[sizeClass (blockSz e) := mkClass (read (mem s) blk) (count sc - 1)]> (classes e)) (blockSz e) (gen e) in
      let s := set_tls (set_mem s (clear blk (blockSz e) (mem s))) thr h e' in
      let s := match pools_ s !! h with
               | Some p => set_pool s h (count_alloc (with_allocs p (oversizedAllocs p) ({[blk]} ∪ liveSlabAllocs p)) (blockSz e))
               | None => s
               end in
      Some (s, blk)
    else None
  else None.

(** Links [n] more blocks behind [chainTail], the block at [curr]. *)
Fixpoint carve (n : nat) (curr bs : Z) (m : gmap Z Z) : gmap Z Z * Z :=
  match n with
  | O => (m, curr)
  | S n => let node := curr + bs in carve n node bs (write curr node (write node 0 m))
  end.

(** A fresh slab: the first block is the allocation, the others are queued. *)
Definition newSlab (s : t) (h : Z) (p : MemoryPool) (slab : Z) : t * MemoryPool :=
  let numBlocks := 64 in
  let slabSize := u64 (numBlocks * blockSize p) in
  let s := os_alloc s slab slabSize in
  let p := with_slabs p ((slab, slabSize) :: slabList p) (slabRanges p ++ [(slab, slab + slabSize)]) in
  let chainHead := slab + blockSize p in
  let (m, chainTail) := carve 62 chainHead (blockSize p) (write chainHead 0 (mem s)) in
  (set_mem s (write (freeListTail p) chainHead m), with_queue p chainTail).

(** Dequeuing the first block behind the sentinel. *)
Definition dequeue (m : gmap Z Z) (p : MemoryPool) : option (gmap Z Z * MemoryPool * Z) :=
  let next := read m (freeList p) in
  if next =? 0 then None else
  Some (write (freeList p) (read m next) m,
        if freeListTail p =? next then with_queue p (freeList p) else p, next).

(** [mem_] is what [posix_memalign] returns if it is called. *)
Definition allocateFromPool (s : t) (thr h size : Z) (mem_ : option Z) : t * VGREResult * Z :=
  match tlsPop s thr h size with
  | Some (s, blk) => (s, SUCCESS, blk)
  | None =>
    let s := set_tls s thr h (tlsEntry s thr h) in
    match pools_ s !! h with
    | None => (s, ERR_INVALID_VALUE, 0)
    | Some p =>
      if blockSize p <? size then
        let alignedSz := align64 size in
        match mem_ with
        | None => (s, ERR_OUT_OF_MEMORY, 0)
        | Some a =>
            let s := os_alloc (set_mem s (clear a alignedSz (mem s))) a alignedSz in
            let p := with_allocs p (<[a := alignedSz]> (oversizedAllocs p)) (liveSlabAllocs p) in
            (set_pool s h (count_alloc p alignedSz), SUCCESS, a)
        end
      else
        match (match dequeue (mem s) p with
               | Some (m, p, b) => Some (set_mem s m, p, b)
               | None => match mem_ with
                         | None => None
                         | Some a => let (s, p) := newSlab s h p a in Some (s, p, a)
                         end
               end) with
        | None => (s, ERR_OUT_OF_MEMORY, 0)
        | Some (s, p, b) =>
            let s := set_mem s (clear b (blockSize p) (mem s)) in
            let p := with_allocs p (oversizedAllocs p) ({[b]} ∪ liveSlabAllocs p) in
            (set_pool s h (count_alloc p (blockSize p)), SUCCESS, b)
        end
    end
  end.

(** ** Release *)

Section Depth.
Context (kTlsCacheMax : Z).

Definition freeToPool (s : t) (thr h ptr : Z) : t * VGREResult :=
  match pools_ s !! h with
  | None => (s, ERR_INVALID_VALUE)
  | Some p =>
      if ptr =? 0 then (s, SUCCESS) else
      match oversizedAllocs p !! ptr with
      | Some sz =>
          let p := with_allocs p (delete ptr (oversizedAllocs p)) (liveSlabAllocs p) in
          (set_pool (os_free s ptr sz) h (count_free p sz), SUCCESS)
      | None =>
          if negb (bool_decide (ptr ∈ liveSlabAllocs p)) then (s, ERR_INVALID_VALUE) else
          let p := with_allocs p (oversizedAllocs p) (liveSlabAllocs p ∖ {[ptr]}) in
          let enqueue (s : t) :=
            let m := write (freeListTail p) ptr (write ptr 0 (mem s)) in
            (set_pool (set_mem s m) h (count_free (with_queue p ptr) (blockSize p)), SUCCESS) in
          if blockSize p <=? kTlsMaxBlockSz then
            let e := tlsEntry s thr h in
            let sc := classOf e (blockSize p) in
            if count sc <? kTlsCacheMax then
              let e := mkTls (<[sizeClass (blockSize p) := mkClass ptr (count sc + 1)]> (classes e)) (blockSize p) (gen e) in
              (set_pool (set_tls (set_mem s (write ptr (head sc) (mem s))) thr h e) h (count_free p (blockSize p)), SUCCESS)
            else enqueue (set_tls s thr h (mkTls (classes e) (blockSize p) (gen e)))
          else enqueue s
      end
  end.

End Depth.

(** ** Statistics and trimming *)

Definition getPoolUsedBytes (s : t) (h : Z) : Z :=
  match pools_ s !! h with
  | None => 0
  | Some p =>
      let active := if freeCount p <=? allocCount p then allocCount p - freeCount p else 0 in
      active * blockSize p + map_fold (fun _ sz acc => acc + sz) 0 (oversizedAllocs p)
  end.

Definition getPoolPeakBytes (s : t) (h : Z) : Z :=
  match pools_ s !! h with None => 0 | Some p => peakAllocated p end.

(** The blocks of the queue from [cur]; [None] if [fuel] is not enough. *)
Fixpoint walk (fuel : nat) (m : gmap Z Z) (cur : Z) : option (list Z) :=
  match fuel with
  | O => None
  | S fuel => if cur =? 0 then Some [] else l ← walk fuel m (read m cur); Some (cur :: l)
  end.

Definition inRange (p b e : Z) : bool := (b <=? p) && (p <? e).

(** The slabs to release, and the bytes that stay reserved. *)
Definition selectSlabs (bs keepTarget : Z) (freeBlocks : list Z) (slabs : list (Z * Z)) (reserved : Z) : Z * list (Z * Z) :=
  foldl (fun '(reserved, acc) '(ptr, size) =>
    let totalBlocks := if 0 <? bs then size / bs else 0 in
    let freeInSlab := Z.of_nat (length (filter (fun b => inRange b ptr (ptr + size) = true) freeBlocks)) in
    if (totalBlocks =? 0) || negb (freeInSlab =? totalBlocks) then (reserved, acc) else
    if u64 (reserved - size) <? keepTarget then (reserved, acc) else
    (reserved - size, acc ++ [(ptr, size)])) (reserved, []) slabs.

(** Relinking the kept blocks behind [prev]. *)
Fixpoint relink (prev : Z) (l : list Z) (m : gmap Z Z) : gmap Z Z :=
  match l with
  | [] => m
  | b :: l => relink b l (write prev b (write b 0 m))
  end.

Definition reservedBytes (slabs : list (Z * Z)) : Z := foldr (fun sl a => sl.2 + a) 0 slabs.

(** Unlinking the first element equal to [x]. *)
Fixpoint unlink (x : Z * Z) (l : list (Z * Z)) : list (Z * Z) :=
  match l with
  | [] => []
  | y :: l => if bool_decide (y = x) then l else y :: unlink x l
  end.

Definition releaseSlab (s : t) (p : MemoryPool) (ptr size : Z) : t * MemoryPool :=
  (os_free s ptr size, with_slabs p (unlink (ptr, size) (slabList p)) (unlink (ptr, ptr + size) (slabRanges p))).

Definition releaseSlabs (s : t) (p : MemoryPool) (toRelease : list (Z * Z)) : t * MemoryPool :=
  foldl (fun '(s, p) '(ptr, size) => releaseSlab s p ptr size) (s, p) toRelease.

(** [fuel] bounds the walk over the queue. *)
Definition trimPool (fuel : nat) (s : t) (h minBytes : Z) : option (t * VGREResult) :=
  match pools_ s !! h with
  | None => Some (s, ERR_INVALID_VALUE)
  | Some p =>
      freeBlocks ← walk fuel (mem s) (read (mem s) (freeList p));
      let reserved := reservedBytes (slabList p) in
      let keepTarget := Z.max minBytes (Z.of_nat (size (liveSlabAllocs p)) * blockSize p) in
      if reserved <=? keepTarget then Some (s, SUCCESS) else
      let '(_, toRelease) := selectSlabs (blockSize p) keepTarget freeBlocks (slabList p) reserved in
      if bool_decide (toRelease = []) then Some (s, SUCCESS) else
      let drop b := existsb (fun r => inRange b r.1 (r.1 + r.2)) toRelease in
      let keptBlocks := filter (fun b => drop b = false) freeBlocks in
      let m := relink (freeListDummy p) keptBlocks (write (freeListDummy p) 0 (mem s)) in
      let p := mkPool (id p) (blockSize p) (freeListDummy p) (default (freeListDummy p) (last keptBlocks)) (freeListDummy p)
        (slabList p) (totalAllocated p) (peakAllocated p) (allocCount p) (freeCount p) (oversizedAllocs p) (liveSlabAllocs p)
        (slabRanges p) (releaseThreshold p) (reuseFollowEventDependencies p) (reuseAllowOpportunistic p)
        (reuseAllowInternalDependencies p) (accessFlagsByDevice p) in
      Some (let (s, p) := releaseSlabs (set_mem s m) p toRelease in set_pool s h p, SUCCESS)
  end.

(** ** Attributes *)

Definition update_pool (s : t) (h : Z) (f : MemoryPool -> MemoryPool) : t * VGREResult :=
  match pools_ s !! h with None => (s, ERR_INVALID_VALUE) | Some p => (set_pool s h (f p), SUCCESS) end.

Definition setPoolReleaseThreshold (s : t) (h threshold : Z) := update_pool s h (fun p =>
  with_attrs p threshold (reuseFollowEventDependencies p) (reuseAllowOpportunistic p) (reuseAllowInternalDependencies p) (accessFlagsByDevice p)).
Definition setPoolReuseFlags (s : t) (h : Z) (followEventDeps opportunistic internalDeps : bool) := update_pool s h (fun p =>
  with_attrs p (releaseThreshold p) followEventDeps opportunistic internalDeps (accessFlagsByDevice p)).
Definition setPoolAccess (s : t) (h device flags : Z) := update_pool s h (fun p =>
  with_attrs p (releaseThreshold p) (reuseFollowEventDependencies p) (reuseAllowOpportunistic p) (reuseAllowInternalDependencies p)
    (<[device := flags]> (accessFlagsByDevice p))).
Definition getPoolReleaseThreshold (s : t) (h : Z) : VGREResult * option Z :=
  match pools_ s !! h with None => (ERR_INVALID_VALUE, None) | Some p => (SUCCESS, Some (releaseThreshold p)) end.
Definition getPoolReuseFlags (s : t) (h : Z) : VGREResult * option (bool * bool * bool) :=
  match pools_ s !! h with
  | None => (ERR_INVALID_VALUE, None)
  | Some p => (SUCCESS, Some (reuseFollowEventDependencies p, reuseAllowOpportunistic p, reuseAllowInternalDependencies p))
  end.
Definition getPoolAccess (s : t) (h device : Z) : VGREResult * option Z :=
  match pools_ s !! h with
  | None => (ERR_INVALID_VALUE, None)
  | Some p => (SUCCESS, Some (default 3 (accessFlagsByDevice p !! device)))
  end.

End PoolAllocator.
