(* ===== verification/PoolInvariant.v ===== *)
(** * Memory pools: the invariant

    Every slab of a pool is cut into 64 blocks, and every block is in exactly
    one place: the queue behind the sentinel, the stack of one thread, or the
    set of blocks in use.  The file relates the memory words to those lists
    ([lst]), states the invariant ([pool_ok] for a pool, [inv] for the whole
    state, where the ghost map [G] gives each thread's stack) and proves that
    every operation preserves it, with a frame rule for the other pools
    ([inv_pool_step]). *)

From S2P Require Import Prelude PoolAllocator.

Module PoolInvariant.
Import PoolAllocator.

(** ** Linked lists in memory *)

Lemma read_write_eq a v m : read (write a v m) a = v.
Proof. unfold read, write. by rewrite lookup_insert_eq. Qed.

Lemma read_write_ne a b v m : a <> b -> read (write a v m) b = read m b.
Proof. intros. unfold read, write. by rewrite lookup_insert_ne. Qed.

Lemma read_clear_in b n m a : b <= a < b + n -> read (clear b n m) a = 0.
Proof.
  intros Ha. unfold read, clear. destruct (filter _ m !! a) as [v|] eqn:E; [|done].
  apply map_lookup_filter_Some in E as [_ E]. simpl in E. lia.
Qed.

Lemma read_clear_out b n m a : a < b \/ b + n <= a -> read (clear b n m) a = read m a.
Proof.
  intros Ha. unfold read, clear. f_equal. destruct (m !! a) as [v|] eqn:E.
  - apply map_lookup_filter_Some. split; [done|]. simpl. lia.
  - apply map_lookup_filter_None. by left.
Qed.

(** The blocks linked from [hd]. *)
Fixpoint lst (m : gmap Z Z) (hd : Z) (l : list Z) : Prop :=
  match l with
  | [] => hd = 0
  | b :: l => hd = b /\ b <> 0 /\ lst m (read m b) l
  end.

Lemma lst_frame m m' hd l : (forall b, b ∈ l -> read m' b = read m b) -> lst m hd l -> lst m' hd l.
Proof.
  revert hd. induction l as [|b l IH]; intros hd Hf; simpl; [done|]. intros (-> & Hb & Hl).
  split_and!; [done..|]. rewrite Hf by (left). apply IH; [|done]. intros b' Hb'. apply Hf. by right.
Qed.

Lemma lst_enqueue m d F tail g G : lst m (read m d) F -> last (d :: F) = Some tail -> lst m g G ->
  NoDup (d :: F) -> tail ∉ G -> lst (write tail g m) (read (write tail g m) d) (F ++ G).
Proof.
  revert d. induction F as [|b F IH]; intros d HF Hlast HG Hn Ht.
  - simpl in Hlast. injection Hlast as <-. rewrite read_write_eq. simpl. eapply lst_frame; [|exact HG].
    intros b Hb. apply read_write_ne. by intros ->.
  - destruct HF as (Hd & Hb & HF). apply NoDup_cons in Hn as [Hni Hn].
    assert (last (b :: F) = Some tail) as Hlast' by exact Hlast.
    assert (tail <> d) as Htd.
    { intros ->. apply Hni. apply list_elem_of_lookup. rewrite last_lookup in Hlast'. by eexists. }
    rewrite read_write_ne by done. simpl. split_and!; [done..|]. by apply IH.
Qed.

Lemma lst_nonzero m hd l b : lst m hd l -> b ∈ l -> b <> 0.
Proof.
  revert hd. induction l as [|b' l IH]; intros hd; simpl; [by intros _ ?%not_elem_of_nil|].
  intros (_ & Hb & Hl) [->|Hin]%elem_of_cons; [done|by eapply IH].
Qed.

Lemma walk_lst fuel m hd l : lst m hd l -> (length l < fuel)%nat -> walk fuel m hd = Some l.
Proof.
  revert fuel hd. induction l as [|b l IH]; intros fuel hd; (destruct fuel as [|fuel]; [simpl; lia|]); simpl.
  - by intros -> _.
  - intros (-> & Hb & Hl) Hf. rewrite (proj2 (Z.eqb_neq _ _) Hb), (IH fuel (read m b) Hl) by lia. done.
Qed.

(** The nodes of a chain carved from a slab. *)
Definition nodes (n : nat) (curr bs : Z) : list Z := (fun i => curr + i * bs) <$> seqZ 0 (Z.of_nat n).

Lemma nodes_S n curr bs : nodes (S n) curr bs = curr :: nodes n (curr + bs) bs.
Proof.
  unfold nodes. rewrite seqZ_cons by lia. rewrite fmap_cons. f_equal; [lia|].
  replace (Z.pred (Z.of_nat (S n))) with (Z.of_nat n) by lia. rewrite <- (fmap_add_seqZ 1 0), <- list_fmap_compose.
  apply list_fmap_ext. intros i x _. simpl. lia.
Qed.

Lemma elem_of_nodes n curr bs b : b ∈ nodes n curr bs <-> exists i, 0 <= i < Z.of_nat n /\ b = curr + i * bs.
Proof.
  unfold nodes. rewrite list_elem_of_fmap. split.
  - intros (i & -> & Hi%elem_of_seqZ). exists i. split; [lia|done].
  - intros (i & Hi & ->). exists i. split; [done|]. apply elem_of_seqZ. lia.
Qed.

Lemma NoDup_nodes n curr bs : bs <> 0 -> NoDup (nodes n curr bs).
Proof. intros Hbs. apply NoDup_fmap_2; [intros x y E; nia|apply NoDup_seqZ]. Qed.

Lemma carve_spec n curr bs m : 0 < bs -> 0 < curr -> read m curr = 0 ->
  let '(m', tail) := carve n curr bs m in
  lst m' curr (nodes (S n) curr bs) /\ last (nodes (S n) curr bs) = Some tail /\
  (forall a, a ∉ nodes (S n) curr bs -> read m' a = read m a).
Proof.
  intros Hbs. revert curr m. induction n as [|n IH]; intros curr m Hc Hz; cbn [carve].
  { rewrite nodes_S. simpl. split_and!; [done|lia|done|done|done]. }
  set (m1 := write curr (curr + bs) (write (curr + bs) 0 m)).
  specialize (IH (curr + bs) m1 ltac:(lia)). rewrite (nodes_S (S n)).
  destruct (carve n (curr + bs) bs m1) as [m' tail]. destruct IH as (Hl & Hlast & Hf).
  { unfold m1. rewrite read_write_ne by lia. apply read_write_eq. }
  assert (curr ∉ nodes (S n) (curr + bs) bs) as Hni.
  { rewrite elem_of_nodes. intros (i & Hi & E). nia. }
  split_and!.
  - simpl. split_and!; [done|lia|]. rewrite (Hf _ Hni). unfold m1. by rewrite read_write_eq.
  - rewrite nodes_S in *. exact Hlast.
  - intros a [Ha1 Ha2]%not_elem_of_cons. rewrite (Hf a Ha2). unfold m1.
    rewrite !read_write_ne; [done| |done]. intros <-. apply Ha2. rewrite nodes_S. left.
Qed.

Lemma relink_spec prev l m : NoDup (prev :: l) -> Forall (fun b => b <> 0) l -> read m prev = 0 ->
  lst (relink prev l m) (read (relink prev l m) prev) l /\
  (forall a, a ∉ prev :: l -> read (relink prev l m) a = read m a).
Proof.
  revert prev m. induction l as [|b l IH]; intros prev m Hn Hz Hp; simpl; [done|].
  apply NoDup_cons in Hn as [Hni Hn]. apply Forall_cons in Hz as [Hb Hz]. apply not_elem_of_cons in Hni as [Hpb Hpl].
  set (m1 := write prev b (write b 0 m)).
  destruct (IH b m1 Hn Hz) as [Hl Hf]; [unfold m1; rewrite read_write_ne by done; apply read_write_eq|].
  assert (read (relink b l m1) prev = b) as Hrp.
  { rewrite Hf; [apply read_write_eq|]. by apply not_elem_of_cons. }
  split; [by rewrite Hrp|]. intros a [Ha1 [Ha2 Ha3]%not_elem_of_cons]%not_elem_of_cons. rewrite Hf by (by apply not_elem_of_cons).
  unfold m1. by rewrite !read_write_ne.
Qed.

Lemma clear_lst b n m hd l : (forall a, a ∈ l -> a < b \/ b + n <= a) -> lst m hd l -> lst (clear b n m) hd l.
Proof. intros H. apply lst_frame. intros a Ha. by apply read_clear_out, H. Qed.

(** ** The invariant *)

(** The blocks of a slab. *)
Definition slabBlocks (bs : Z) (sl : Z * Z) : list Z := nodes 64 sl.1 bs.
Definition blocks (p : MemoryPool) : list Z := slabList p ≫= slabBlocks (blockSize p).

Definition sumSizes (m : gmap Z Z) : Z := map_fold (fun _ n acc => acc + n) 0 m.

(** The regions of a pool: its sentinel, its slabs, its oversized allocations. *)
Definition bases (p : MemoryPool) : list Z :=
  freeListDummy p :: (slabList p).*1 ++ (map_to_list (oversizedAllocs p)).*1.

Record pool_ok (m osr : gmap Z Z) (p : MemoryPool) (F C : list Z) : Prop := mkPoolOk {
  po_bs : (64 | blockSize p) /\ 64 <= blockSize p <= 2 ^ 51;
  po_head : freeList p = freeListDummy p;
  po_tail : last (freeListDummy p :: F) = Some (freeListTail p);
  po_list : lst m (read m (freeListDummy p)) F;
  po_part : F ++ C ++ elements (liveSlabAllocs p) ≡ₚ blocks p;
  po_slabs : Forall (fun sl => sl.2 = 64 * blockSize p /\ osr !! sl.1 = Some sl.2 /\ (64 | sl.1)) (slabList p);
  po_dummy : osr !! freeListDummy p = Some 8;
  po_over : map_Forall (fun a n => osr !! a = Some n /\ (64 | a)) (oversizedAllocs p);
  po_bases : NoDup (bases p);
  po_total : totalAllocated p = Z.of_nat (size (liveSlabAllocs p)) * blockSize p + sumSizes (oversizedAllocs p);
  po_count : allocCount p = freeCount p + Z.of_nat (size (liveSlabAllocs p)) + Z.of_nat (size (oversizedAllocs p));
  po_peak : totalAllocated p <= peakAllocated p;
}.

(** A thread's stack of a live pool. *)
Definition tls_ok (m : gmap Z Z) (bs : Z) (e : TlsEntry) (l : list Z) : Prop :=
  gen e = 0 /\ length (classes e) = kNumSizeClasses /\
  count (classOf e bs) = Z.of_nat (length l) /\ lst m (head (classOf e bs)) l /\
  (blockSz e = bs \/ blockSz e = 0 /\ e = emptyTls 0).

(** The stacks of all threads for one pool. *)
Definition stacksOf (G : gmap (Z * Z) (list Z)) (h : Z) : list Z :=
  map_to_list (filter (fun kv => kv.1.2 = h) G) ≫= snd.

Definition os_ok (osr : gmap Z Z) : Prop :=
  (forall a n, osr !! a = Some n -> 0 < a /\ 0 < n) /\
  (forall a n b m, osr !! a = Some n -> osr !! b = Some m -> a <> b -> a + n <= b \/ b + m <= a).

Record inv (s : t) (G : gmap (Z * Z) (list Z)) : Prop := mkInv {
  i_pool : forall h p, pools_ s !! h = Some p -> 1 <= h < nextPoolId_ s /\
    exists F, pool_ok (mem s) (os s) p F (stacksOf G h);
  i_tls : forall h p thr, pools_ s !! h = Some p ->
    option_Forall2 (tls_ok (mem s) (blockSize p)) (t_cache s !! (thr, h)) (G !! (thr, h));
  i_dead : forall h thr e, pools_ s !! h = None -> t_cache s !! (thr, h) = Some e ->
    e = emptyTls (gen e) /\ (nextPoolId_ s <= h <= 1024 -> gen e = 0) \/ 1 <= h < nextPoolId_ s /\ gen e = 0;
  i_gen : forall h, 1 <= h <= 1024 -> poolGen s h = (if bool_decide (h < nextPoolId_ s /\ pools_ s !! h = None) then 1 else 0);
  i_next : 1 <= nextPoolId_ s <= 1025;
  i_os : os_ok (os s);
  i_bases : forall h h' p p' a, pools_ s !! h = Some p -> pools_ s !! h' = Some p' -> h <> h' ->
    a ∈ bases p -> a ∉ bases p';
  i_used : usedMemory_ s = sumSizes (os s) - 8 * Z.of_nat (size (pools_ s));
  i_G : forall thr h, pools_ s !! h = None -> G !! (thr, h) = None;
}.

(** Sums of sizes. *)
Lemma sumSizes_insert m a n : m !! a = None -> sumSizes (<[a := n]> m) = sumSizes m + n.
Proof. intros Ha. unfold sumSizes. rewrite map_fold_insert_L; [done|lia|done]. Qed.

Lemma sumSizes_delete m a n : m !! a = Some n -> sumSizes (delete a m) = sumSizes m - n.
Proof.
  intros Ha. rewrite <- (insert_delete_id m a n Ha) at 2. rewrite sumSizes_insert; [lia|]. apply lookup_delete_eq.
Qed.

(** Replacing the stack of one thread. *)
Lemma stacksOf_insert G thr h l : let rest := stacksOf (delete (thr, h) G) h in
  stacksOf G h ≡ₚ default [] (G !! (thr, h)) ++ rest /\ stacksOf (<[(thr, h) := l]> G) h ≡ₚ l ++ rest.
Proof.
  assert (forall l0 G0, G0 !! (thr, h) = None -> stacksOf (<[(thr, h) := l0]> G0) h ≡ₚ l0 ++ stacksOf G0 h) as Hins.
  { intros l0 G0 Hn. unfold stacksOf. rewrite map_filter_insert_True by done. rewrite map_to_list_insert; [done|].
    apply map_lookup_filter_None. by left. }
  intros rest. split.
  - destruct (G !! (thr, h)) as [l0|] eqn:E; simpl.
    + rewrite <- (insert_delete_id G (thr, h) l0 E) at 1. apply Hins. apply lookup_delete_eq.
    + unfold rest. by rewrite delete_id.
  - rewrite <- insert_delete_eq. apply Hins. apply lookup_delete_eq.
Qed.

Lemma stacksOf_other G k l h : k.2 <> h -> stacksOf (<[k := l]> G) h = stacksOf G h.
Proof. intros Hk. unfold stacksOf. by rewrite map_filter_insert_not. Qed.

Lemma stacksOf_ext G G' h : (forall thr, G' !! (thr, h) = G !! (thr, h)) -> stacksOf G' h = stacksOf G h.
Proof.
  intros Hext. unfold stacksOf. f_equal. f_equal. apply map_eq. intros [thr h'].
  apply option_eq. intros l. rewrite !map_lookup_filter_Some. simpl. split; intros [H <-]; (split; [|done]).
  - by rewrite <- Hext.
  - by rewrite Hext.
Qed.

Lemma stacksOf_elem G thr h l b : G !! (thr, h) = Some l -> b ∈ l -> b ∈ stacksOf G h.
Proof.
  intros HG Hb. unfold stacksOf. apply list_elem_of_bind. exists ((thr, h), l). split; [done|].
  apply elem_of_map_to_list. by apply map_lookup_filter_Some.
Qed.

(** Where the tracked addresses of a pool lie. *)
Lemma block_region m osr p F C a : pool_ok m osr p F C -> a ∈ blocks p ->
  exists sl, sl ∈ slabList p /\ osr !! sl.1 = Some sl.2 /\ sl.1 <= a /\ a + blockSize p <= sl.1 + sl.2 /\
    sl.2 = 64 * blockSize p /\ exists i, 0 <= i < 64 /\ a = sl.1 + i * blockSize p.
Proof.
  intros H Ha. apply list_elem_of_bind in Ha as (sl & Ha & Hsl).
  apply elem_of_nodes in Ha as (i & Hi & ->). pose proof (po_slabs _ _ _ _ _ H) as Hs.
  rewrite Forall_forall in Hs. destruct (Hs sl Hsl) as (E & Ho & _). destruct (po_bs _ _ _ _ _ H) as [_ Hb].
  exists sl. split_and!; [done|done|nia|nia|done|by exists i].
Qed.

Lemma slab_base p sl : sl ∈ slabList p -> sl.1 ∈ bases p.
Proof.
  intros H. right. apply elem_of_app. left. apply list_elem_of_fmap. by exists sl.
Qed.

Lemma over_base p a n : oversizedAllocs p !! a = Some n -> a ∈ bases p.
Proof.
  intros H. right. apply elem_of_app. right. apply list_elem_of_fmap. exists (a, n). split; [done|].
  by apply elem_of_map_to_list.
Qed.

(** An address inside one of the regions. *)
Definition inside (osr : gmap Z Z) (B : list Z) (a : Z) : Prop :=
  exists b n, b ∈ B /\ osr !! b = Some n /\ b <= a < b + n.

Lemma tracked_inside m osr p F C a : pool_ok m osr p F C -> a ∈ freeListDummy p :: blocks p -> inside osr (bases p) a.
Proof.
  intros H [->|Ha]%elem_of_cons.
  - exists (freeListDummy p), 8. split_and!; [left|apply H|lia..].
  - destruct (block_region _ _ _ _ _ _ H Ha) as (sl & Hsl & Ho & H1 & H2 & E & _). destruct (po_bs _ _ _ _ _ H) as [_ ?].
    exists sl.1, sl.2. split_and!; [by apply slab_base|done|lia|lia].
Qed.

Lemma inside_disjoint osr B1 B2 a : os_ok osr -> (forall b, b ∈ B1 -> b ∉ B2) -> inside osr B1 a -> inside osr B2 a -> False.
Proof.
  intros [_ Hsep] Hd (b1 & n1 & H1 & Ho1 & Ha1) (b2 & n2 & H2 & Ho2 & Ha2).
  destruct (Hsep b1 n1 b2 n2 Ho1 Ho2) as [|]; [|lia..]. intros ->. by apply (Hd b2).
Qed.

(** Blocks of a pool do not overlap. *)
Lemma slab_unique p sl1 sl2 : NoDup (bases p) -> sl1 ∈ slabList p -> sl2 ∈ slabList p -> sl1.1 = sl2.1 -> sl1 = sl2.
Proof.
  intros Hn H1 H2 E. unfold bases in Hn. apply NoDup_cons in Hn as [_ Hn]. apply NoDup_app in Hn as [Hn _].
  apply list_elem_of_lookup in H1 as [i Hi], H2 as [j Hj].
  assert (i = j) as ->; [|congruence]. eapply (NoDup_lookup _ _ _ sl1.1 Hn).
  - by rewrite list_lookup_fmap, Hi.
  - by rewrite list_lookup_fmap, Hj, E.
Qed.

Lemma blocks_sep m osr p F C a b : os_ok osr -> pool_ok m osr p F C -> a ∈ blocks p -> b ∈ blocks p -> a <> b ->
  b + blockSize p <= a \/ a + blockSize p <= b.
Proof.
  intros Hos H Ha Hb Hne. destruct (po_bs _ _ _ _ _ H) as [_ Hbs].
  destruct (block_region _ _ _ _ _ _ H Ha) as (sl1 & Hs1 & Ho1 & ? & ? & E1 & i & Hi & ->).
  destruct (block_region _ _ _ _ _ _ H Hb) as (sl2 & Hs2 & Ho2 & ? & ? & E2 & j & Hj & ->).
  destruct (decide (sl1.1 = sl2.1)) as [E|E].
  - rewrite (slab_unique p sl1 sl2 (po_bases _ _ _ _ _ H) Hs1 Hs2 E) in *. assert (i <> j) by congruence.
    assert (i < j \/ j < i) as [?|?] by lia; [right|left]; nia.
  - destruct (proj2 Hos _ _ _ _ Ho1 Ho2 E); lia.
Qed.

Lemma dummy_sep m osr p F C a : os_ok osr -> pool_ok m osr p F C -> a ∈ blocks p ->
  freeListDummy p < a \/ a + blockSize p <= freeListDummy p.
Proof.
  intros Hos H Ha. destruct (block_region _ _ _ _ _ _ H Ha) as (sl & Hs & Ho & ? & ? & E & _).
  assert (freeListDummy p <> sl.1) as Hne.
  { intros E'. pose proof (po_bases _ _ _ _ _ H) as Hn. unfold bases in Hn. apply NoDup_cons in Hn as [Hn _].
    apply Hn. rewrite E'. apply elem_of_app. left. apply list_elem_of_fmap. by exists sl. }
  destruct (proj2 Hos _ _ _ _ (po_dummy _ _ _ _ _ H) Ho Hne); lia.
Qed.

Lemma NoDup_bind_blocks m osr p F C : os_ok osr -> pool_ok m osr p F C -> NoDup (freeListDummy p :: blocks p).
Proof.
  intros Hos H. destruct (po_bs _ _ _ _ _ H) as [_ Hbs]. apply NoDup_cons. split.
  { intros Ha. destruct (dummy_sep _ _ _ _ _ _ Hos H Ha); lia. }
  pose proof (po_bases _ _ _ _ _ H) as Hn. unfold bases in Hn. apply NoDup_cons in Hn as [_ Hn]. apply NoDup_app in Hn as [Hn _].
  unfold blocks. apply NoDup_bind.
  - intros sl1 sl2 b H1 H2 Hb1 Hb2. destruct (decide (sl1.1 = sl2.1)) as [E|E].
    { by eapply slab_unique; [apply H|..]. }
    pose proof (po_slabs _ _ _ _ _ H) as Hs. rewrite Forall_forall in Hs.
    destruct (Hs _ H1) as (E1 & Ho1 & _), (Hs _ H2) as (E2 & Ho2 & _).
    apply elem_of_nodes in Hb1 as (i & ? & ->), Hb2 as (j & ? & Eb).
    destruct (proj2 Hos _ _ _ _ Ho1 Ho2 E); nia.
  - intros sl _. apply NoDup_nodes. lia.
  - by eapply NoDup_fmap_1.
Qed.

Lemma part_NoDup m osr p F C : os_ok osr -> pool_ok m osr p F C -> NoDup (freeListDummy p :: F ++ C ++ elements (liveSlabAllocs p)).
Proof.
  intros Hos H. rewrite (po_part _ _ _ _ _ H). by eapply NoDup_bind_blocks.
Qed.

(** ** Frames *)

Lemma part_blocks m osr p F C a : pool_ok m osr p F C ->
  a ∈ F \/ a ∈ C \/ a ∈ liveSlabAllocs p <-> a ∈ blocks p.
Proof.
  intros H. rewrite <- (po_part _ _ _ _ _ H), !elem_of_app, elem_of_elements. done.
Qed.

Lemma pool_ok_frame m m' osr osr' p F C : pool_ok m osr p F C ->
  (forall a, a ∈ freeListDummy p :: blocks p -> read m' a = read m a) ->
  (forall a, a ∈ bases p -> osr' !! a = osr !! a) -> pool_ok m' osr' p F C.
Proof.
  intros H Hm Ho. assert (forall b, b ∈ F -> b ∈ blocks p) as HF
    by (intros b Hb; apply (part_blocks _ _ _ _ _ _ H); by left).
  destruct H as [? ? ? Hl ? Hs Hd Hov ? ? ? ?]. split; try done.
  - rewrite Hm by (left). eapply lst_frame; [|exact Hl]. intros b Hb. apply Hm. right. by apply HF.
  - rewrite Forall_forall in *. intros sl Hsl. rewrite Ho by (by apply slab_base). by apply Hs.
  - rewrite Ho; [done|left].
  - intros a n Ha. rewrite Ho by (by eapply over_base). by apply Hov.
Qed.

Lemma tls_ok_frame m m' bs e l : (forall a, a ∈ l -> read m' a = read m a) -> tls_ok m bs e l -> tls_ok m' bs e l.
Proof. intros Hm (? & ? & ? & Hl & ?). split_and!; [done..| |done]. by eapply lst_frame. Qed.

Lemma gen_small h h' : 1 <= h <= 1024 -> 1 <= h' <= 1024 -> h mod 1024 = h' mod 1024 -> h = h'.
Proof. intros. pose proof (Z.div_mod h 1024). pose proof (Z.div_mod h' 1024). lia. Qed.

(** A step inside one pool. *)
Lemma inv_pool_step s G h p s' G' p' F' : inv s G -> pools_ s !! h = Some p ->
  pools_ s' = <[h := p']> (pools_ s) -> nextPoolId_ s' = nextPoolId_ s -> g_poolGen s' = g_poolGen s ->
  (forall k, k.2 <> h -> t_cache s' !! k = t_cache s !! k /\ G' !! k = G !! k) ->
  os_ok (os s') -> (forall a, a ∉ bases p -> os s !! a <> None -> os s' !! a = os s !! a) ->
  (forall a, a ∈ bases p' -> a ∈ bases p \/ os s !! a = None) ->
  (forall a, ~ inside (os s') (bases p') a -> read (mem s') a = read (mem s) a) ->
  usedMemory_ s' = sumSizes (os s') - 8 * Z.of_nat (size (pools_ s)) ->
  pool_ok (mem s') (os s') p' F' (stacksOf G' h) ->
  (forall thr, option_Forall2 (tls_ok (mem s') (blockSize p')) (t_cache s' !! (thr, h)) (G' !! (thr, h))) ->
  inv s' G'.
Proof.
  intros Hinv Hh Hp Hnx Hg Hk Hos Hos' Hb Hm Hu Hpo Htls. pose proof Hinv as [Hpool Htl Hdead Hgen Hnext Hos0 Hbases Hused HG].
  assert (forall h' q F C, h' <> h -> pools_ s !! h' = Some q -> pool_ok (mem s) (os s) q F C ->
    (forall a, a ∈ freeListDummy q :: blocks q -> read (mem s') a = read (mem s) a) /\
    (forall a, a ∈ bases q -> os s' !! a = os s !! a)) as Hfr.
  { intros h' q F C Hne Hq Hok. assert (forall a, a ∈ bases q -> os s !! a <> None) as Hin.
    { intros a. unfold bases. rewrite elem_of_cons, elem_of_app, !list_elem_of_fmap. destruct Hok as [_ _ _ _ _ Hs Hd Hov _ _ _ _].
      rewrite Forall_forall in Hs. intros [->|[(sl & -> & Hsl)|([a' n] & -> & Ha)]].
      - by rewrite Hd.
      - destruct (Hs sl Hsl) as (_ & -> & _). done.
      - apply elem_of_map_to_list in Ha. destruct (Hov _ _ Ha) as [Hx _]. simpl. by rewrite Hx. }
    assert (forall a, a ∈ bases q -> a ∉ bases p) as Hd by (intros a Ha; by apply (Hbases h' h q p)).
    assert (forall a, a ∈ bases q -> os s' !! a = os s !! a) as Hsame by (intros a Ha; apply Hos'; auto).
    split; [|exact Hsame]. intros a Ha. apply Hm. intros HinB.
    assert (inside (os s') (bases q) a) as Hiq.
    { destruct (tracked_inside _ _ _ _ _ _ Hok Ha) as (b & n & Hbq & Ho & Hr). exists b, n. rewrite Hsame by done. done. }
    eapply (inside_disjoint (os s') (bases p') (bases q)); [done| |done|done]. intros b HbB Hbq.
    destruct (Hb b HbB) as [Hb2|Hb2]; [by apply (Hd b)|by apply (Hin b)]. }
  split; rewrite ?Hnx.
  - intros h' q Hq. rewrite Hp in Hq. destruct (decide (h' = h)) as [->|Hne].
    + rewrite lookup_insert_eq in Hq. injection Hq as <-. split; [by eapply Hpool|]. by exists F'.
    + rewrite lookup_insert_ne in Hq by done. destruct (Hpool h' q Hq) as [Hr (F & Hok)]. split; [done|]. exists F.
      rewrite (stacksOf_ext G) by (intros thr; by apply (Hk (thr, h'))). destruct (Hfr h' q _ _ Hne Hq Hok).
      by eapply pool_ok_frame.
  - intros h' q thr Hq. rewrite Hp in Hq. destruct (decide (h' = h)) as [->|Hne].
    + rewrite lookup_insert_eq in Hq. injection Hq as <-. apply Htls.
    + rewrite lookup_insert_ne in Hq by done. destruct (Hk (thr, h') Hne) as [Ht' HG']. rewrite Ht', HG'.
      specialize (Htl h' q thr Hq). destruct (Hpool h' q Hq) as [_ (F & Hok)]. destruct (Hfr h' q _ _ Hne Hq Hok) as [Hf _].
      inversion Htl as [e l He E1 E2|]; constructor. eapply tls_ok_frame; [|exact He]. intros a Ha. apply Hf. right.
      eapply part_blocks; [exact Hok|]. right. left. by eapply stacksOf_elem.
  - intros h' thr e Hq He. rewrite Hp in Hq. destruct (decide (h' = h)) as [->|Hne]; [by rewrite lookup_insert_eq in Hq|].
    rewrite lookup_insert_ne in Hq by done. destruct (Hk (thr, h') Hne) as [Ht' _]. rewrite Ht' in He. by eapply Hdead.
  - intros h' Hr. unfold poolGen. rewrite Hg. unfold poolGen in Hgen. rewrite (Hgen h' Hr), Hp.
    destruct (decide (h' = h)) as [->|Hne]; [rewrite lookup_insert_eq, Hh|by rewrite lookup_insert_ne by done].
    rewrite !bool_decide_eq_false_2; [done|by intros [_ ?]..].
  - done.
  - done.
  - intros h1 h2 p1 p2 a H1 H2 Hne Ha1 Ha2. rewrite Hp in H1, H2.
    assert (forall h' q, h' <> h -> pools_ s !! h' = Some q -> a ∈ bases q -> a ∉ bases p') as Hcross.
    { intros h' q Hne' Hq Haq Hap. destruct (Hb a Hap) as [Ha|Ha]; [by apply (Hbases h' h q p a)|].
      destruct (Hpool h' q Hq) as [_ (F & Hok)].
      unfold bases in Haq. rewrite elem_of_cons, elem_of_app, !list_elem_of_fmap in Haq. destruct Hok as [_ _ _ _ _ Hs Hd Hov _ _ _ _].
      rewrite Forall_forall in Hs. destruct Haq as [->|[(sl & -> & Hsl)|([a' n] & -> & Ha')]].
      - by rewrite Hd in Ha.
      - destruct (Hs sl Hsl) as (_ & Hx & _). by rewrite Hx in Ha.
      - apply elem_of_map_to_list in Ha'. destruct (Hov _ _ Ha') as [Hx _]. simpl in Ha. by rewrite Hx in Ha. }
    destruct (decide (h1 = h)) as [->|H1n], (decide (h2 = h)) as [->|H2n]; [done|..].
    + rewrite lookup_insert_eq in H1. rewrite lookup_insert_ne in H2 by done. injection H1 as <-. by eapply (Hcross h2 p2).
    + rewrite lookup_insert_eq in H2. rewrite lookup_insert_ne in H1 by done. injection H2 as <-. by eapply (Hcross h1 p1).
    + rewrite lookup_insert_ne in H1, H2 by done. by eapply (Hbases h1 h2 p1 p2).
  - rewrite Hu, Hp. f_equal. f_equal. f_equal. rewrite map_size_insert_Some; [done|by eexists].
  - intros thr h' Hq. rewrite Hp in Hq. destruct (decide (h' = h)) as [->|Hne]; [by rewrite lookup_insert_eq in Hq|].
    rewrite lookup_insert_ne in Hq by done. destruct (Hk (thr, h') Hne) as [_ ->]. by apply HG.
Qed.

(** ** Thread caches *)

Lemma sizeClass_lt bs : (sizeClass bs < kNumSizeClasses)%nat.
Proof.
  unfold sizeClass. destruct (bs <? kSizeClassBase); [unfold kNumSizeClasses; lia|]. cbv zeta.
  destruct (_ <? kNumSizeClasses)%nat eqn:E; [by apply Nat.ltb_lt|unfold kNumSizeClasses; simpl; lia].
Qed.

Lemma emptyTls_class g bs : classOf (emptyTls g) bs = mkClass 0 0.
Proof.
  unfold classOf, emptyTls. cbn [classes]. rewrite lookup_replicate_2; [done|]. apply sizeClass_lt.
Qed.

Lemma classOf_update c cls b g bs : length cls = kNumSizeClasses -> classOf (mkTls (<[sizeClass bs := c]> cls) b g) bs = c.
Proof.
  intros Hl. unfold classOf. cbn [classes]. rewrite list_lookup_insert_eq; [done|]. rewrite Hl. apply sizeClass_lt.
Qed.

Lemma emptyTls_ok m bs : tls_ok m bs (emptyTls 0) [].
Proof. split_and!; [done|done|by rewrite emptyTls_class..|by right]. Qed.

Lemma poolGen_alive s G h p : inv s G -> pools_ s !! h = Some p -> poolGen s h = 0.
Proof.
  intros H Hh. destruct (i_pool _ _ H h p Hh) as [Hr _]. pose proof (i_next _ _ H).
  rewrite (i_gen _ _ H) by lia. rewrite bool_decide_eq_false_2; [done|]. rewrite Hh. by intros [_ ?].
Qed.

Lemma tls_alive s G h p thr : inv s G -> pools_ s !! h = Some p ->
  tls_ok (mem s) (blockSize p) (tlsEntry s thr h) (default [] (G !! (thr, h))).
Proof.
  intros H Hh. unfold tlsEntry. rewrite (poolGen_alive s G h p H Hh). pose proof (i_tls _ _ H h p thr Hh) as Ht.
  inversion Ht as [e l He E1 E2|E1 E2]; simpl.
  - pose proof He as (Hg & _). by rewrite Hg.
  - apply emptyTls_ok.
Qed.

Lemma tls_dead s G h thr : inv s G -> pools_ s !! h = None -> tlsEntry s thr h = emptyTls (poolGen s h).
Proof.
  intros H Hh. unfold tlsEntry. destruct (t_cache s !! (thr, h)) as [e|] eqn:E.
  - change (default (emptyTls 0) (Some e)) with e. destruct (i_dead _ _ H h thr e Hh E) as [[He _]|[Hr He]].
    + destruct (Z.eqb_spec (gen e) (poolGen s h)) as [<-|]; [done|done].
    + pose proof (i_next _ _ H). rewrite (i_gen _ _ H h), He by lia. rewrite bool_decide_eq_true_2 by (split; [lia|done]). done.
  - change (default (emptyTls 0) None) with (emptyTls 0). cbn [emptyTls gen].
    destruct (Z.eqb_spec 0 (poolGen s h)) as [<-|]; done.
Qed.

Lemma tls_dead_pop s G h thr sz : inv s G -> pools_ s !! h = None -> tlsPop s thr h sz = None.
Proof. intros H Hh. unfold tlsPop. by rewrite (tls_dead s G h thr H Hh). Qed.

Lemma pool_ok_perm m osr p F C C' : C ≡ₚ C' -> pool_ok m osr p F C -> pool_ok m osr p F C'.
Proof. intros Hp []. split; try done. by rewrite <- Hp. Qed.

(** Replacing a thread's entry by one with the same stack. *)
Lemma set_entry_inv s G thr h p e : inv s G -> pools_ s !! h = Some p ->
  tls_ok (mem s) (blockSize p) e (default [] (G !! (thr, h))) -> exists G', inv (set_tls s thr h e) G'.
Proof.
  intros H Hh He. set (G' := <[(thr, h) := default [] (G !! (thr, h))]> G). exists G'.
  destruct (i_pool _ _ H h p Hh) as [_ (F & Hok)].
  apply (inv_pool_step s G h p _ G' p F H Hh); try done; cbn [set_tls pools_ t_cache os mem usedMemory_].
  - by rewrite insert_id.
  - intros k Hk. unfold G'. rewrite !lookup_insert_ne by (by intros <-). done.
  - apply H.
  - intros a Ha. by left.
  - apply H.
  - destruct (stacksOf_insert G thr h (default [] (G !! (thr, h)))) as [H1 H2]. eapply pool_ok_perm; [|exact Hok].
    unfold G'. by rewrite H2.
  - intros thr'. unfold G'. destruct (decide (thr' = thr)) as [->|Hne].
    + rewrite !lookup_insert_eq. by constructor.
    + rewrite !lookup_insert_ne by congruence. by apply (i_tls _ _ H).
Qed.

(** The entry a call leaves behind, also for a pool that does not exist. *)
Lemma set_tls_inv s G thr h : inv s G -> exists G', inv (set_tls s thr h (tlsEntry s thr h)) G'.
Proof.
  intros H. destruct (pools_ s !! h) as [p|] eqn:Hh.
  - apply (set_entry_inv s G thr h p); [done..|]. by apply tls_alive.
  - exists G. pose proof H as Hinv. destruct H. split; try done.
    + intros h' p thr' Hp. cbn [set_tls t_cache pools_] in *. rewrite lookup_insert_ne by (intros [= _ <-]; congruence). by apply i_tls0.
    + intros h' thr' e Hp. cbn [set_tls t_cache nextPoolId_ pools_] in *.
      intros [[[= <- <-] <-]|[Hne He]]%lookup_insert_Some; [|by eapply i_dead0]. left.
      rewrite (tls_dead s G h thr Hinv Hh). split; [done|]. cbn [emptyTls gen]. intros Hr.
      rewrite i_gen0 by lia. rewrite bool_decide_eq_false_2; [done|lia].
Qed.

(** ** What a handle owns *)

Definition owns (s : t) (h a n : Z) : Prop := exists p, pools_ s !! h = Some p /\
  (a ∈ liveSlabAllocs p /\ n = blockSize p \/ oversizedAllocs p !! a = Some n).

Lemma owns_set_pool s s' h p p' : pools_ s !! h = Some p -> pools_ s' = <[h := p']> (pools_ s) ->
  forall h' a n, owns s' h' a n <-> (h' = h /\ (a ∈ liveSlabAllocs p' /\ n = blockSize p' \/ oversizedAllocs p' !! a = Some n)) \/
    (h' <> h /\ owns s h' a n).
Proof.
  intros Hh Hp h' a n. unfold owns. rewrite Hp. destruct (decide (h' = h)) as [->|Hne].
  - rewrite lookup_insert_eq. split.
    + intros (q & [= <-] & Hq). left. done.
    + intros [[_ Hq]|[? _]]; [|done]. by exists p'.
  - rewrite lookup_insert_ne by done. split; [intros Hq; by right|]. intros [[? _]|[_ Hq]]; done.
Qed.

(** Taking a block that was free. *)
Definition take_block (p : MemoryPool) (b : Z) : MemoryPool :=
  count_alloc (with_allocs p (oversizedAllocs p) ({[b]} ∪ liveSlabAllocs p)) (blockSize p).

Lemma with_queue_same p : with_queue p (freeListTail p) = p.
Proof. by destruct p. Qed.

Lemma take_block_ok m m' osr p tl F C F' C' b :
  os_ok osr -> pool_ok m osr p F C -> F ++ C ≡ₚ b :: (F' ++ C') ->
  last (freeListDummy p :: F') = Some tl -> lst m' (read m' (freeListDummy p)) F' ->
  pool_ok m' osr (take_block (with_queue p tl) b) F' C' /\ (b ∉ liveSlabAllocs p) /\ b ∈ blocks p.
Proof.
  intros Hos H Hp Ht Hl. pose proof (part_NoDup _ _ _ _ _ Hos H) as Hn. apply NoDup_cons in Hn as [_ Hn].
  rewrite app_assoc, Hp in Hn. simpl in Hn. apply NoDup_cons in Hn as [Hb _].
  assert (b ∉ liveSlabAllocs p) as Hbl.
  { intros Hin. apply Hb. rewrite elem_of_app, elem_of_elements. by right. }
  assert (size ({[b]} ∪ liveSlabAllocs p) = S (size (liveSlabAllocs p))) as Hsz.
  { rewrite size_union by set_solver. by rewrite size_singleton. }
  split; [|split; [done|]].
  - destruct H as [? ? ? ? Hpart ? ? ? ? Htot Hcnt Hpk]. split; try done; cbn [take_block count_alloc with_counts with_allocs with_queue
      freeListDummy blockSize liveSlabAllocs oversizedAllocs totalAllocated allocCount freeCount peakAllocated].
    + rewrite elements_union_singleton by done. transitivity (F ++ C ++ elements (liveSlabAllocs p)); [|exact Hpart].
      rewrite (app_assoc F C), Hp. simpl. rewrite <- app_assoc. solve_Permutation.
    + rewrite Hsz, Htot. lia.
    + rewrite Hsz, Hcnt. lia.
    + destruct (Z.ltb_spec (peakAllocated p) (totalAllocated p + blockSize p)); lia.
  - rewrite <- (po_part _ _ _ _ _ H), app_assoc, Hp. left.
Qed.

Lemma tlsPop_inv s G thr h p sz s' b : inv s G -> pools_ s !! h = Some p -> tlsPop s thr h sz = Some (s', b) ->
  exists G', inv s' G' /\ pools_ s' = <[h := take_block p b]> (pools_ s) /\ (b ∉ liveSlabAllocs p) /\ b ∈ blocks p /\
    sz <= blockSize p /\ (forall a, b <= a < b + blockSize p -> read (mem s') a = 0).
Proof.
  intros H Hh. unfold tlsPop. pose proof (tls_alive s G h p thr H Hh) as (Hg & Hcl & Hcnt & Hlst & Hbs).
  set (e := tlsEntry s thr h) in *. set (l := default [] (G !! (thr, h))) in *.
  destruct (_ && _ && _) eqn:E; [|done]. apply andb_true_iff in E as [[E1 E2]%andb_true_iff E3].
  apply Z.ltb_lt in E1. apply Z.leb_le in E2, E3.
  assert (blockSz e = blockSize p) as Eb by (destruct Hbs as [?|[? _]]; [done|lia]). rewrite Eb in *.
  destruct (Z.ltb_spec 0 (count (classOf e (blockSize p)))) as [Hc|]; [|done]. cbv zeta. cbn [set_tls set_mem pools_]. rewrite Hh. intros [= <- <-].
  destruct l as [|b l'] eqn:El; [simpl in Hcnt; lia|]. destruct Hlst as (Hb & Hb0 & Hlst). rewrite Hb.
  destruct (i_pool _ _ H h p Hh) as [_ (F & Hok)]. set (G' := <[(thr, h) := l']> G). exists G'.
  destruct (stacksOf_insert G thr h l') as [P1 P2]. fold l in P1. fold G' in P2. rewrite El in P1.
  set (m' := clear b (blockSize p) (mem s)).
  assert (forall a, a ∈ freeListDummy p :: blocks p -> a <> b -> read m' a = read (mem s) a) as Hout.
  { intros a Ha Hne. apply read_clear_out. assert (b ∈ blocks p) as Hbb.
    { rewrite <- (po_part _ _ _ _ _ Hok), !elem_of_app. right. left. rewrite P1. left. }
    apply elem_of_cons in Ha as [->|Ha].
    - destruct (dummy_sep _ _ _ _ _ _ (i_os _ _ H) Hok Hbb); lia.
    - destruct (blocks_sep _ _ _ _ _ _ _ (i_os _ _ H) Hok Ha Hbb Hne); lia. }
  pose proof (part_NoDup _ _ _ _ _ (i_os _ _ H) Hok) as Hn. rewrite P1 in Hn.
  destruct (take_block_ok (mem s) m' (os s) p (freeListTail p) F (stacksOf G h) F (stacksOf G' h) b (i_os _ _ H) Hok) as (Hok' & Hbl & Hbb).
  { rewrite P1, P2. simpl. solve_Permutation. }
  { apply Hok. }
  { apply NoDup_cons in Hn as [Hd Hn]. apply NoDup_app in Hn as (_ & Hn & _).
    rewrite Hout; [|left|intros Ed; apply Hd; rewrite Ed, !elem_of_app; right; left; left; left].
    eapply lst_frame; [|apply Hok]. intros a Ha. apply Hout.
    - right. apply (part_blocks _ _ _ _ _ _ Hok). by left.
    - intros ->. apply (Hn b Ha). rewrite !elem_of_app. left. left. left. }
  rewrite with_queue_same in Hok'. split_and!; [|done|done|done|lia|intros a Ha; by apply read_clear_in].
  eapply (inv_pool_step s G h p _ G' (take_block p b) F H Hh); try done; cbn [set_pool set_tls set_mem pools_ t_cache os mem usedMemory_].
  - intros k Hk. unfold G'. rewrite !lookup_insert_ne by (by intros <-). done.
  - apply H.
  - intros a Ha. by left.
  - intros a Ha. apply read_clear_out. destruct (decide (b <= a < b + blockSize p)) as [Hin|]; [|lia]. destruct Ha.
    destruct (block_region _ _ _ _ _ _ Hok Hbb) as (sl & Hsl & Ho & H1 & H2 & _). exists sl.1, sl.2.
    split_and!; [by apply (slab_base p)|done|lia|lia].
  - apply H.
  - intros thr'. unfold G'. destruct (decide (thr' = thr)) as [->|Hne].
    + rewrite !lookup_insert_eq. constructor. split_and!; cbn [gen classes blockSz].
      * done.
      * by rewrite length_insert.
      * rewrite classOf_update by done. cbn [count]. rewrite Hcnt. simpl. lia.
      * rewrite classOf_update by done. cbn [head].
        eapply lst_frame; [|exact Hlst]. intros a Ha. apply Hout.
        -- right. apply (part_blocks _ _ _ _ _ _ Hok). right. left. rewrite P1. apply elem_of_app. left. by right.
        -- intros ->. apply NoDup_cons in Hn as [_ Hn]. apply NoDup_app in Hn as (_ & _ & Hn). apply NoDup_app in Hn as [Hn _].
           apply NoDup_app in Hn as [Hn _]. by apply NoDup_cons in Hn as [? _].
      * by left.
    + rewrite !lookup_insert_ne by congruence. pose proof (i_tls _ _ H h p thr' Hh) as Ht.
      inversion Ht as [e0 l0 He0 E4 E5|]; constructor. eapply tls_ok_frame; [|exact He0]. intros a Ha. apply Hout.
      * right. apply (part_blocks _ _ _ _ _ _ Hok). right. left. by eapply stacksOf_elem.
      * intros ->. apply NoDup_cons in Hn as [_ Hn]. apply NoDup_app in Hn as (_ & _ & Hn). apply NoDup_app in Hn as [Hn _].
        apply NoDup_app in Hn as (_ & Hn & _). apply (Hn b); [left|].
        apply (stacksOf_elem _ thr' _ l0); [|done]. by rewrite lookup_delete_ne by congruence.
Qed.

(** ** Allocation *)

(** What [posix_memalign] and [new] promise: an aligned region that overlaps
    none of the outstanding ones. *)
Definition region_free (s : t) (a n : Z) : Prop :=
  0 < a /\ 0 < n /\ forall b m, os s !! b = Some m -> a + n <= b \/ b + m <= a.

Lemma region_free_new s a n : region_free s a n -> os_ok (os s) -> os s !! a = None /\ os_ok (<[a := n]> (os s)).
Proof.
  intros (Ha & Hn & Hf) [H1 H2]. assert (os s !! a = None) as Hnone.
  { destruct (os s !! a) as [m|] eqn:E; [|done]. destruct (H1 a m E). destruct (Hf a m E); lia. }
  split; [done|]. split.
  - intros b m [[<- <-]|[_ Hb]]%lookup_insert_Some; [done|by apply H1].
  - intros b m b' m' [[<- <-]|[Hne Hb]]%lookup_insert_Some [[<- <-]|[Hne' Hb']]%lookup_insert_Some Hd; [done|..].
    + by apply Hf.
    + destruct (Hf b m Hb); [by right|by left].
    + by apply H2.
Qed.

Lemma bases_known m osr p F C a : pool_ok m osr p F C -> a ∈ bases p -> is_Some (osr !! a).
Proof.
  intros [_ _ _ _ _ Hs Hd Hov _ _ _ _]. unfold bases. rewrite elem_of_cons, elem_of_app, !list_elem_of_fmap.
  rewrite Forall_forall in Hs. intros [->|[(sl & -> & Hsl)|([a' n] & -> & Ha)]].
  - by rewrite Hd.
  - destruct (Hs sl Hsl) as (_ & -> & _). done.
  - apply elem_of_map_to_list in Ha. destruct (Hov _ _ Ha) as [Hx _]. simpl. by rewrite Hx.
Qed.

(** Tracked addresses are outside a fresh region. *)
Lemma tracked_fresh m s p F C a b n : pool_ok m (os s) p F C -> region_free s b n ->
  a ∈ freeListDummy p :: blocks p -> a < b \/ b + n <= a.
Proof.
  intros Hok (_ & _ & Hf) Ha. destruct (tracked_inside _ _ _ _ _ _ Hok Ha) as (b' & m' & _ & Ho & Hr).
  destruct (Hf b' m' Ho); lia.
Qed.

Lemma dequeue_inv s G h p m p' b : inv s G -> pools_ s !! h = Some p -> dequeue (mem s) p = Some (m, p', b) ->
  let s' := set_pool (set_mem s (clear b (blockSize p') m)) h (take_block p' b) in
  inv s' G /\ (b ∉ liveSlabAllocs p) /\ b ∈ blocks p /\
  blockSize p' = blockSize p /\ liveSlabAllocs p' = liveSlabAllocs p /\ oversizedAllocs p' = oversizedAllocs p.
Proof.
  intros H Hh. unfold dequeue. destruct (i_pool _ _ H h p Hh) as [_ (F & Hok)]. rewrite (po_head _ _ _ _ _ Hok).
  pose proof (po_list _ _ _ _ _ Hok) as Hl. pose proof (po_tail _ _ _ _ _ Hok) as Ht. pose proof (i_os _ _ H) as Hos.
  set (d := freeListDummy p) in *. destruct F as [|b0 F]; [simpl in Hl; intros E; cbv zeta in E; rewrite Hl in E; discriminate E|].
  destruct Hl as (-> & Hb0 & Hl). rewrite (proj2 (Z.eqb_neq b0 0) Hb0). intros [= <- Hp' <-].
  pose proof (part_NoDup _ _ _ _ _ Hos Hok) as Hn. fold d in Hn.
  set (tl := if freeListTail p =? b0 then d else freeListTail p).
  assert (p' = with_queue p tl) as ->.
  { rewrite <- Hp'. unfold tl. destruct (freeListTail p =? b0); [done|]. by destruct p. }
  assert (last (d :: F) = Some tl) as Htl.
  { unfold tl. destruct (Z.eqb_spec (freeListTail p) b0) as [E|E].
    - destruct F as [|b1 F]; [done|]. exfalso. rewrite E in Ht. apply NoDup_cons in Hn as [_ Hn].
      assert (b0 ∈ b1 :: F) as Hin by (apply list_elem_of_lookup; change (last (b1 :: F) = Some b0) in Ht; rewrite last_lookup in Ht; by eexists).
      simpl in Hn. apply NoDup_cons in Hn as [Hn _]. apply Hn. rewrite app_comm_cons, elem_of_app. by left.
    - destruct F as [|b1 F]; [simpl in Ht; congruence|exact Ht]. }
  set (m' := clear b0 (blockSize p) (write d (read (mem s) b0) (mem s))). cbn [with_queue blockSize].
  assert (b0 ∈ blocks p) as Hbb by (apply (part_blocks _ _ _ _ _ _ Hok); left; left).
  assert (d <> b0 /\ b0 ∉ F) as [Hdb HbF].
  { apply NoDup_cons in Hn as [Hn1 Hn2]. simpl in Hn2. apply NoDup_cons in Hn2 as [Hn2 _]. split.
    - intros E. apply Hn1. rewrite E. left.
    - intros Hin. apply Hn2. rewrite elem_of_app. by left. }
  assert (forall a, a ∈ freeListDummy p :: blocks p -> a <> b0 -> a <> d -> read m' a = read (mem s) a) as Hout.
  { intros a Ha Hne Hnd. unfold m'. rewrite read_clear_out; [by apply read_write_ne|].
    apply elem_of_cons in Ha as [->|Ha]; [done|].
    destruct (blocks_sep _ _ _ _ _ _ _ Hos Hok Ha Hbb Hne); lia. }
  assert (read m' d = read (mem s) b0) as Hrd.
  { unfold m'. rewrite read_clear_out; [apply read_write_eq|]. destruct (dummy_sep _ _ _ _ _ _ Hos Hok Hbb) as [Hx|Hx]; fold d in Hx; lia. }
  assert (forall l, (forall a, a ∈ l -> a ∈ blocks p /\ a <> b0) -> forall hd, lst (mem s) hd l -> lst m' hd l) as Hlf.
  { intros l Hin hd. apply lst_frame. intros a Ha. destruct (Hin a Ha). apply Hout; [by right|done|].
    intros ->. apply NoDup_bind_blocks in Hok as Hnb; [|done]. by apply NoDup_cons in Hnb as [? _]. }
  destruct (take_block_ok (mem s) m' (os s) p tl (b0 :: F) (stacksOf G h) F (stacksOf G h) b0 Hos Hok) as (Hok' & Hbl & _);
    [done|done| |].
  { fold d. rewrite Hrd. apply Hlf; [|exact Hl]. intros a Ha. split; [|by intros ->].
    apply (part_blocks _ _ _ _ _ _ Hok). left. by right. }
  split_and!; [|done..].
  eapply (inv_pool_step s G h p _ G (take_block (with_queue p tl) b0) F H Hh); try done; cbn [set_pool set_mem t_cache os mem usedMemory_].
  - intros a Ha. by left.
  - intros a Ha. fold m'. unfold m'. rewrite read_clear_out.
    + apply read_write_ne. intros <-. apply Ha. exists d, 8. split_and!; [left|apply Hok|lia..].
    + destruct (decide (b0 <= a < b0 + blockSize p)) as [Hin|]; [|lia]. destruct Ha.
      destruct (block_region _ _ _ _ _ _ Hok Hbb) as (sl & Hsl & Ho & H1 & H2 & _). exists sl.1, sl.2.
      split_and!; [by apply (slab_base p)|done|lia|lia].
  - apply H.
  - intros thr. pose proof (i_tls _ _ H h p thr Hh) as Htt.
    inversion Htt as [e l He E1 E2|]; constructor. destruct He as (? & ? & ? & He & ?). split_and!; [done..| |done].
    fold m'. apply Hlf; [|exact He]. intros a Ha.
    assert (a ∈ stacksOf G h) as Has by (by eapply stacksOf_elem). split.
    + apply (part_blocks _ _ _ _ _ _ Hok). auto.
    + intros ->. apply NoDup_cons in Hn as [_ Hn]. simpl in Hn. apply NoDup_cons in Hn as [Hn _].
      apply Hn. rewrite !elem_of_app. auto.
Qed.

Lemma slab_size bs : 64 <= bs <= 2 ^ 51 -> u64 (64 * bs) = 64 * bs.
Proof. intros. apply u64_small. lia. Qed.

(** A new slab, its first block taken and the others queued. *)
Lemma addSlab_ok m m' osr p C a chain tl ranges : pool_ok m osr p [] C -> nodes 64 a (blockSize p) = a :: chain ->
  (forall x, x ∈ bases p -> x <> a) -> (64 | a) -> (a ∉ liveSlabAllocs p) ->
  last (freeListDummy p :: chain) = Some tl -> lst m' (read m' (freeListDummy p)) chain ->
  pool_ok m' (<[a := 64 * blockSize p]> osr)
    (take_block (with_queue (with_slabs p ((a, 64 * blockSize p) :: slabList p) ranges) tl) a) chain C.
Proof.
  intros [? ? _ _ Hpart Hsl Hd Hov Hbn Htot Hcnt Hpk] Hnodes Hba Ha Hal Hlast Hl. set (bs := blockSize p) in *.
  set (p' := take_block _ a). set (osr' := <[a := 64 * bs]> osr).
  assert (size ({[a]} ∪ liveSlabAllocs p) = S (size (liveSlabAllocs p))) as Hsz by (by rewrite size_union, size_singleton by set_solver).
  assert (forall x n, osr !! x = Some n -> x ∈ bases p -> osr' !! x = Some n) as Ho.
  { intros x n Hx Hin. unfold osr'. rewrite lookup_insert_ne; [done|]. intros <-. by apply (Hba a). }
  split; try assumption.
  - change (blocks p') with (nodes 64 a bs ++ blocks p). rewrite Hnodes, <- Hpart.
    change (liveSlabAllocs p') with ({[a]} ∪ liveSlabAllocs p). rewrite elements_union_singleton by done.
    rewrite app_nil_l, <- !app_comm_cons. solve_Permutation.
  - change (slabList p') with ((a, 64 * bs) :: slabList p). constructor.
    + split_and!; [done|apply lookup_insert_eq|done].
    + rewrite Forall_forall in *. intros sl Hin. destruct (Hsl sl Hin) as (? & Hs & ?).
      split_and!; [done| |done]. by apply Ho, slab_base.
  - apply Ho; [done|left].
  - intros x n Hx. destruct (Hov x n Hx). split; [|done]. apply Ho; [done|by eapply over_base].
  - change (bases p') with (freeListDummy p :: a :: (slabList p).*1 ++ (map_to_list (oversizedAllocs p)).*1).
    unfold bases in Hbn, Hba. apply NoDup_cons in Hbn as [Hn1 Hn2]. apply NoDup_cons. split.
    + intros [E|Hin]%elem_of_cons; [|done]. apply (Hba (freeListDummy p)); [left|done].
    + apply NoDup_cons. split; [|done]. intros Hin. apply (Hba a); [by right|done].
  - change (totalAllocated p + bs = Z.of_nat (size ({[a]} ∪ liveSlabAllocs p)) * bs + sumSizes (oversizedAllocs p)).
    rewrite Hsz. lia.
  - change (allocCount p + 1 = freeCount p + Z.of_nat (size ({[a]} ∪ liveSlabAllocs p)) + Z.of_nat (size (oversizedAllocs p))).
    rewrite Hsz. lia.
  - change (totalAllocated p + bs <= if peakAllocated p <? totalAllocated p + bs then totalAllocated p + bs else peakAllocated p).
    destruct (Z.ltb_spec (peakAllocated p) (totalAllocated p + bs)); lia.
Qed.

(** A pool with an empty queue gets a slab; its first block is taken. *)
Lemma newSlab_inv s G h p a s1 p1 : inv s G -> pools_ s !! h = Some p -> dequeue (mem s) p = None ->
  region_free s a (64 * blockSize p) -> (64 | a) -> newSlab s h p a = (s1, p1) ->
  let s' := set_pool (set_mem s1 (clear a (blockSize p1) (mem s1))) h (take_block p1 a) in
  inv s' G /\ (a ∉ liveSlabAllocs p) /\ pools_ s1 = pools_ s /\
  blockSize p1 = blockSize p /\ liveSlabAllocs p1 = liveSlabAllocs p /\ oversizedAllocs p1 = oversizedAllocs p.
Proof.
  intros H Hh Hdq Hfree Ha64. destruct (i_pool _ _ H h p Hh) as [_ (F & Hok)]. pose proof (i_os _ _ H) as Hos.
  destruct (po_bs _ _ _ _ _ Hok) as [_ Hbs]. unfold newSlab. cbv zeta. rewrite slab_size by done.
  set (bs := blockSize p) in *. set (d := freeListDummy p).
  assert (F = []) as ->.
  { unfold dequeue in Hdq. rewrite (po_head _ _ _ _ _ Hok) in Hdq. pose proof (po_list _ _ _ _ _ Hok) as Hl.
    destruct F as [|b F]; [done|]. destruct Hl as (Hb & Hb0 & _). rewrite Hb in Hdq. cbv zeta in Hdq.
    by rewrite (proj2 (Z.eqb_neq b 0) Hb0) in Hdq. }
  pose proof (po_tail _ _ _ _ _ Hok) as Ht. simpl in Ht. injection Ht as Ht.
  destruct (region_free_new _ _ _ Hfree Hos) as [Hnone Hos']. pose proof Hfree as (Ha0 & _ & _).
  set (osr' := <[a := 64 * bs]> (os s)) in *.
  pose proof (carve_spec 62 (a + bs) bs (write (a + bs) 0 (mem s)) ltac:(lia) ltac:(lia) (read_write_eq _ _ _)) as Hcv.
  cbn [os_alloc mem blockSize with_slabs freeListTail]. rewrite <- Ht. fold bs. destruct (carve 62 (a + bs) bs _) as [m1 tl]. destruct Hcv as (Hl & Hlast & Hout).
  intros [= <- <-]. cbn [with_queue with_slabs blockSize liveSlabAllocs oversizedAllocs set_mem mem pools_ os_alloc]. fold bs.
  set (chain := nodes 63 (a + bs) bs) in *. set (m' := clear a bs (write (freeListDummy p) (a + bs) m1)).
  assert (nodes 64 a bs = a :: chain) as Hnodes by apply nodes_S.
  assert (forall x, x ∈ chain -> a + bs <= x < a + 64 * bs) as Hchain.
  { intros x (i & Hi & ->)%elem_of_nodes. nia. }
  clearbody chain.
  assert (forall x, x ∈ freeListDummy p :: blocks p -> x < a \/ a + 64 * bs <= x) as Hold
    by (intros x; by apply (tracked_fresh (mem s) s p [] (stacksOf G h))).
  assert (forall x, x <> freeListDummy p -> x < a \/ a + 64 * bs <= x -> read m' x = read (mem s) x) as Hrd.
  { intros x Hxd Hx. unfold m'. rewrite read_clear_out by lia. rewrite read_write_ne by done. rewrite Hout.
    - apply read_write_ne. lia.
    - intros Hin. apply Hchain in Hin. lia. }
  assert (read m' (freeListDummy p) = a + bs) as Hrdd.
  { unfold m'. rewrite read_clear_out; [apply read_write_eq|]. destruct (Hold (freeListDummy p)); [left|lia..]. }
  assert (lst m' (a + bs) chain) as Hl'.
  { apply clear_lst; [intros x Hx; apply Hchain in Hx; lia|]. eapply lst_frame; [|exact Hl]. intros x Hx.
    apply read_write_ne. intros <-. apply Hchain in Hx. destruct (Hold (freeListDummy p)); [left|lia..]. }
  assert (a ∉ liveSlabAllocs p) as Hal.
  { intros Hin. assert (a ∈ blocks p) as Hab by (apply (part_blocks _ _ _ _ _ _ Hok); auto). destruct (Hold a); [by right|lia..]. }
  assert (forall x, x ∈ bases p -> x <> a) as Hba.
  { intros x Hx ->. destruct (bases_known _ _ _ _ _ _ Hok Hx) as [n Hn]. congruence. }
  set (p' := take_block _ a).
  assert (pool_ok m' osr' p' chain (stacksOf G h)) as Hok'.
  { apply (addSlab_ok (mem s) m' (os s) p (stacksOf G h) a chain tl (slabRanges p ++ [(a, a + 64 * bs)]) Hok Hnodes); try done.
    - by rewrite last_cons, Hlast.
    - by rewrite Hrdd. }
  split_and!; [|done..].
  eapply (inv_pool_step s G h p _ G p' chain H Hh); try done; cbn [set_pool set_mem t_cache os mem usedMemory_ os_alloc].
  - intros x Hx Hne. unfold osr'. rewrite lookup_insert_ne; [done|]. intros <-. congruence.
  - change (bases p') with (freeListDummy p :: a :: (slabList p).*1 ++ (map_to_list (oversizedAllocs p)).*1).
    intros x. rewrite !elem_of_cons. intros [->|[->|Hx]]; [left; left|by right|left; by right].
  - intros x Hx. change (read m' x = read (mem s) x). apply Hrd.
    + intros ->. apply Hx. exists (freeListDummy p), 8. split_and!; [left| |lia..].
      unfold osr'. rewrite lookup_insert_ne; [apply Hok|]. intros E. apply (Hba (freeListDummy p)); [left|done].
    + destruct (decide (a <= x < a + 64 * bs)); [|lia]. destruct Hx. exists a, (64 * bs).
      split_and!; [right; left|apply lookup_insert_eq|lia..].
  - unfold osr'. rewrite sumSizes_insert by done. rewrite (i_used _ _ H). lia.
  - intros thr. pose proof (i_tls _ _ H h p thr Hh) as Htt.
    inversion Htt as [e l He E1 E2|]; constructor. change (blockSize p') with (blockSize p). eapply tls_ok_frame; [|exact He].
    intros x Hx. assert (x ∈ blocks p) as Hxb.
    { apply (part_blocks _ _ _ _ _ _ Hok). right. left. by eapply stacksOf_elem. }
    change (read m' x = read (mem s) x). apply Hrd; [|apply Hold; by right].
    intros ->. apply NoDup_bind_blocks in Hok as Hnb; [|done]. by apply NoDup_cons in Hnb as [? _].
Qed.

(** An allocation of its own region. *)
Lemma oversized_inv s G h p a n : inv s G -> pools_ s !! h = Some p -> region_free s a n -> (64 | a) ->
  let s' := set_pool (os_alloc (set_mem s (clear a n (mem s))) a n) h
    (count_alloc (with_allocs p (<[a := n]> (oversizedAllocs p)) (liveSlabAllocs p)) n) in
  inv s' G /\ oversizedAllocs p !! a = None.
Proof.
  intros H Hh Hfree Ha64. destruct (i_pool _ _ H h p Hh) as [_ (F & Hok)]. pose proof (i_os _ _ H) as Hos.
  destruct (region_free_new _ _ _ Hfree Hos) as [Hnone Hos']. pose proof Hfree as (Ha0 & Hn0 & _).
  assert (forall x, x ∈ bases p -> x <> a) as Hba.
  { intros x Hx ->. destruct (bases_known _ _ _ _ _ _ Hok Hx) as [k Hk]. congruence. }
  assert (oversizedAllocs p !! a = None) as Hov0.
  { destruct (oversizedAllocs p !! a) as [k|] eqn:E; [|done]. exfalso. by apply (Hba a); [eapply over_base|]. }
  set (p' := count_alloc _ n). set (osr' := <[a := n]> (os s)) in *. set (m' := clear a n (mem s)).
  assert (forall x, x ∈ freeListDummy p :: blocks p -> read m' x = read (mem s) x) as Hrd.
  { intros x Hx. apply read_clear_out. by apply (tracked_fresh (mem s) s p F (stacksOf G h)). }
  assert (bases p' ≡ₚ a :: bases p) as Hbp.
  { unfold bases. cbn [p' count_alloc with_counts with_allocs freeListDummy slabList oversizedAllocs].
    rewrite map_to_list_insert by done. simpl. solve_Permutation. }
  assert (pool_ok m' osr' p' F (stacksOf G h)) as Hok'.
  { pose proof (pool_ok_frame _ m' _ osr' _ _ _ Hok Hrd) as Hok1.
    destruct Hok1 as [? ? ? ? Hpart Hsl Hd Hov Hbn Htot Hcnt Hpk].
    { intros x Hx. unfold osr'. rewrite lookup_insert_ne; [done|]. intros <-. by apply (Hba a). }
    split; try done.
    - cbn. intros x k [[<- <-]|[_ Hx]]%lookup_insert_Some; [|by apply Hov]. split; [apply lookup_insert_eq|done].
    - rewrite Hbp. apply NoDup_cons. split; [|done]. intros Hin. by apply (Hba a).
    - change (totalAllocated p + n = Z.of_nat (size (liveSlabAllocs p)) * blockSize p + sumSizes (<[a := n]> (oversizedAllocs p))).
      rewrite sumSizes_insert by done. lia.
    - change (allocCount p + 1 = freeCount p + Z.of_nat (size (liveSlabAllocs p)) + Z.of_nat (size (<[a := n]> (oversizedAllocs p)))).
      rewrite map_size_insert_None by done. lia.
    - change (totalAllocated p + n <= if peakAllocated p <? totalAllocated p + n then totalAllocated p + n else peakAllocated p).
      destruct (Z.ltb_spec (peakAllocated p) (totalAllocated p + n)); lia. }
  split; [|done].
  eapply (inv_pool_step s G h p _ G p' F H Hh); try done; cbn [set_pool set_mem t_cache os mem usedMemory_ os_alloc].
  - intros x Hx Hne. unfold osr'. rewrite lookup_insert_ne; [done|]. intros <-. congruence.
  - intros x. rewrite Hbp, elem_of_cons. intros [->|Hx]; [by right|by left].
  - intros x Hx. apply read_clear_out. destruct (decide (a <= x < a + n)); [|lia]. destruct Hx. exists a, n.
    split_and!; [rewrite Hbp; left|apply lookup_insert_eq|lia..].
  - unfold osr'. rewrite sumSizes_insert by done. rewrite (i_used _ _ H). lia.
  - intros thr. pose proof (i_tls _ _ H h p thr Hh) as Htt.
    inversion Htt as [e l He E1 E2|]; constructor. change (blockSize p') with (blockSize p). eapply tls_ok_frame; [|exact He].
    intros x Hx. apply Hrd. right. apply (part_blocks _ _ _ _ _ _ Hok). right. left. by eapply stacksOf_elem.
Qed.

(** ** Release *)

Lemma sumSizes_nonneg m : (forall a n, m !! a = Some n -> 0 <= n) -> 0 <= sumSizes m.
Proof.
  induction m as [|a n m Ha IH] using map_ind; intros H; [done|]. rewrite sumSizes_insert by done.
  assert (0 <= n) by (apply (H a); apply lookup_insert_eq).
  assert (0 <= sumSizes m); [|lia]. apply IH. intros b k Hb. apply (H b). rewrite lookup_insert_ne; [done|]. intros <-. congruence.
Qed.

Lemma over_nonneg m osr p F C : os_ok osr -> pool_ok m osr p F C -> 0 <= sumSizes (oversizedAllocs p).
Proof.
  intros Hos H. apply sumSizes_nonneg. intros a n Ha. destruct (po_over _ _ _ _ _ H a n Ha) as [Ho _].
  destruct (proj1 Hos a n Ho). lia.
Qed.

(** Giving a block back. *)
Definition release_block (p : MemoryPool) (b : Z) : MemoryPool :=
  count_free (with_allocs p (oversizedAllocs p) (liveSlabAllocs p ∖ {[b]})) (blockSize p).

Lemma release_block_ok m m' osr p tl F C F' C' b :
  os_ok osr -> pool_ok m osr p F C -> b ∈ liveSlabAllocs p -> F' ++ C' ≡ₚ b :: (F ++ C) ->
  last (freeListDummy p :: F') = Some tl -> lst m' (read m' (freeListDummy p)) F' ->
  pool_ok m' osr (release_block (with_queue p tl) b) F' C'.
Proof.
  intros Hos H Hb Hp Ht Hl. pose proof (over_nonneg _ _ _ _ _ Hos H) as Hov.
  assert (liveSlabAllocs p = {[b]} ∪ (liveSlabAllocs p ∖ {[b]})) as Hlive by (by apply union_difference_singleton_L).
  set (live := liveSlabAllocs p ∖ {[b]}) in *. assert (b ∉ live) as Hbn by (unfold live; set_solver).
  assert (size (liveSlabAllocs p) = S (size live)) as Hsz.
  { rewrite Hlive, size_union, size_singleton by set_solver. done. }
  destruct H as [[? ?] ? ? ? Hpart ? ? ? ? Htot Hcnt Hpk].
  assert ((blockSize p <=? totalAllocated p) = true) as Hle by (apply Z.leb_le; rewrite Htot, Hsz; nia).
  split; try done; unfold release_block, count_free;
    cbn [with_counts with_allocs with_queue blockSize totalAllocated liveSlabAllocs oversizedAllocs allocCount freeCount peakAllocated];
    fold live; rewrite ?Hle.
  - transitivity (F ++ C ++ elements (liveSlabAllocs p)); [|exact Hpart].
    rewrite (app_assoc F'), Hp, Hlive, elements_union_singleton by done. simpl. solve_Permutation.
  - lia.
  - lia.
  - lia.
Qed.

(** The memory of a tracked address is not that of another pool. *)
Lemma inside_tracked m s p p' F C a b n : pool_ok m (os s) p F C -> bases p' = bases p ->
  b ∈ freeListDummy p :: blocks p -> ~ inside (os s) (bases p') a ->
  (b = freeListDummy p /\ n = 8 \/ n = blockSize p /\ b ∈ blocks p) -> a < b \/ b + n <= a.
Proof.
  intros Hok Hbp Hb Ha Hn. destruct (decide (b <= a < b + n)) as [Hin|]; [|lia]. destruct Ha. rewrite Hbp.
  destruct Hn as [[-> ->]|[-> Hbb]].
  - exists (freeListDummy p), 8. split_and!; [left|apply Hok|lia..].
  - destruct (block_region _ _ _ _ _ _ Hok Hbb) as (sl & Hsl & Ho & H1 & H2 & _). exists sl.1, sl.2.
    split_and!; [by apply slab_base|done|lia|lia].
Qed.

(** Pushing on the thread's stack. *)
Lemma tlsPush_inv s G thr h p b : inv s G -> pools_ s !! h = Some p -> b ∈ liveSlabAllocs p ->
  let e := tlsEntry s thr h in let sc := classOf e (blockSize p) in
  let e' := mkTls (<[sizeClass (blockSize p) := mkClass b (count sc + 1)]> (classes e)) (blockSize p) (gen e) in
  exists G', inv (set_pool (set_tls (set_mem s (write b (head sc) (mem s))) thr h e') h (release_block p b)) G'.
Proof.
  intros H Hh Hb e sc e'. pose proof (tls_alive s G h p thr H Hh) as (Hg & Hcl & Hcnt & Hlst & _).
  fold e in Hg, Hcl, Hcnt, Hlst. fold sc in Hcnt, Hlst. set (l := default [] (G !! (thr, h))) in *.
  destruct (i_pool _ _ H h p Hh) as [_ (F & Hok)]. pose proof (i_os _ _ H) as Hos.
  set (G' := <[(thr, h) := b :: l]> G). exists G'.
  destruct (stacksOf_insert G thr h (b :: l)) as [P1 P2]. fold l in P1. fold G' in P2.
  pose proof (part_NoDup _ _ _ _ _ Hos Hok) as Hn.
  assert (b ∈ blocks p) as Hbb by (apply (part_blocks _ _ _ _ _ _ Hok); auto).
  set (m' := write b (head sc) (mem s)).
  assert (forall a, a ∈ freeListDummy p :: F ++ stacksOf G h -> a <> b) as Hne.
  { intros a Ha ->. rewrite app_comm_cons, app_assoc in Hn. apply NoDup_app in Hn as (_ & Hn & _).
    apply (Hn b); [done|]. by apply elem_of_elements. }
  assert (forall a, a <> b -> read m' a = read (mem s) a) as Hrd by (intros a Ha; apply read_write_ne; congruence).
  assert (pool_ok m' (os s) (release_block p b) F (stacksOf G' h)) as Hok'.
  { rewrite <- (with_queue_same p). apply (release_block_ok (mem s) m' (os s) p (freeListTail p) F (stacksOf G h)); [done..| |apply Hok|].
    - rewrite P1, P2. simpl. solve_Permutation.
    - rewrite Hrd by (apply Hne; left). eapply lst_frame; [|apply Hok]. intros a Ha. apply Hrd, Hne. right.
      rewrite elem_of_app. by left. }
  eapply (inv_pool_step s G h p _ G' (release_block p b) F H Hh); try done; cbn [set_pool set_tls set_mem pools_ t_cache os mem usedMemory_].
  - intros k Hk. unfold G'. rewrite !lookup_insert_ne by (by intros <-). done.
  - intros a Ha. by left.
  - intros a Ha. apply Hrd. intros ->.
    destruct (inside_tracked _ s p p _ _ b b (blockSize p) Hok eq_refl (list_elem_of_further _ _ _ Hbb) Ha); [by right|lia|].
    destruct (po_bs _ _ _ _ _ Hok). lia.
  - apply H.
  - intros thr'. unfold G'. destruct (decide (thr' = thr)) as [->|Hnt].
    + rewrite !lookup_insert_eq. constructor. change (blockSize (release_block p b)) with (blockSize p). split_and!; unfold e'; cbn [gen classes blockSz].
      * done.
      * by rewrite length_insert.
      * rewrite classOf_update by done. cbn [count]. simpl. lia.
      * rewrite classOf_update by done. cbn [head]. split_and!; [done| |].
        { intros ->. destruct (block_region _ _ _ _ _ _ Hok Hbb) as (sl & _ & Ho & H1 & _). destruct (proj1 Hos _ _ Ho). lia. }
        unfold m'. rewrite read_write_eq. eapply lst_frame; [|exact Hlst]. intros a Ha. apply Hrd, Hne.
        right. rewrite elem_of_app. right. rewrite P1, elem_of_app. by left.
      * by left.
    + rewrite !lookup_insert_ne by congruence. pose proof (i_tls _ _ H h p thr' Hh) as Ht.
      inversion Ht as [e0 l0 He0 E4 E5|]; constructor. eapply tls_ok_frame; [|exact He0]. intros a Ha. apply Hrd, Hne.
      right. rewrite elem_of_app. right. by eapply stacksOf_elem.
Qed.

(** Appending to the queue. *)
Lemma enqueue_inv s G h p b : inv s G -> pools_ s !! h = Some p -> b ∈ liveSlabAllocs p ->
  inv (set_pool (set_mem s (write (freeListTail p) b (write b 0 (mem s)))) h (release_block (with_queue p b) b)) G.
Proof.
  intros H Hh Hb. destruct (i_pool _ _ H h p Hh) as [_ (F & Hok)]. pose proof (i_os _ _ H) as Hos.
  pose proof (part_NoDup _ _ _ _ _ Hos Hok) as Hn. pose proof (po_tail _ _ _ _ _ Hok) as Ht.
  set (d := freeListDummy p) in *. set (tl := freeListTail p) in *.
  assert (b ∈ blocks p) as Hbb by (apply (part_blocks _ _ _ _ _ _ Hok); auto).
  assert (forall a, a ∈ d :: F ++ stacksOf G h -> a <> b) as Hne.
  { intros a Ha ->. rewrite app_comm_cons, app_assoc in Hn. apply NoDup_app in Hn as (_ & Hn & _).
    apply (Hn b); [done|]. by apply elem_of_elements. }
  assert (tl ∈ d :: F) as Htl by (apply list_elem_of_lookup; rewrite last_lookup in Ht; by eexists).
  assert (forall a, a ∈ d :: F -> a <> b) as HneF.
  { intros a Ha. apply Hne. apply elem_of_cons in Ha as [->|Ha]; [left|right; rewrite elem_of_app; by left]. }
  assert (NoDup (d :: F)) as HnF.
  { rewrite app_comm_cons in Hn. by apply NoDup_app in Hn as [? _]. }
  assert (b <> 0) as Hb0.
  { intros ->. destruct (block_region _ _ _ _ _ _ Hok Hbb) as (sl & _ & Ho & H1 & _). destruct (proj1 Hos _ _ Ho). lia. }
  assert (forall a, a <> b -> read (write b 0 (mem s)) a = read (mem s) a) as Hrd by (intros a Ha; apply read_write_ne; congruence).
  set (m' := write tl b (write b 0 (mem s))).
  assert (lst m' (read m' d) (F ++ [b])) as Hl.
  { apply lst_enqueue; [|done| |done|].
    - rewrite Hrd by (apply HneF; left). eapply lst_frame; [|apply Hok]. intros a Ha. apply Hrd, HneF. by right.
    - simpl. split_and!; [done|done|apply read_write_eq].
    - intros ->%list_elem_of_singleton. by apply (HneF b). }
  assert (pool_ok m' (os s) (release_block (with_queue p b) b) (F ++ [b]) (stacksOf G h)) as Hok'.
  { apply (release_block_ok (mem s) m' (os s) p b F (stacksOf G h)); [done..| | |exact Hl].
    - solve_Permutation.
    - rewrite app_comm_cons. apply last_snoc. }
  eapply (inv_pool_step s G h p _ G (release_block (with_queue p b) b) _ H Hh); try done; cbn [set_pool set_mem pools_ t_cache os mem usedMemory_].
  - intros a Ha. by left.
  - intros a Ha. change (bases (release_block (with_queue p b) b)) with (bases p) in Ha. unfold m'. rewrite !read_write_ne; [done|..].
    + intros <-. destruct (inside_tracked _ s p p _ _ b b (blockSize p) Hok eq_refl (list_elem_of_further _ _ _ Hbb) Ha); [by right|lia|].
      destruct (po_bs _ _ _ _ _ Hok). lia.
    + intros <-. apply Ha. apply (tracked_inside _ _ _ _ _ _ Hok). apply elem_of_cons in Htl as [->|Hin]; [left|].
      right. apply (part_blocks _ _ _ _ _ _ Hok). by left.
  - apply H.
  - intros thr. pose proof (i_tls _ _ H h p thr Hh) as Htt.
    inversion Htt as [e0 l0 He0 E4 E5|]; constructor. change (blockSize (release_block (with_queue p b) b)) with (blockSize p).
    eapply tls_ok_frame; [|exact He0]. intros a Ha. assert (a ∈ stacksOf G h) as Has by (by eapply stacksOf_elem).
    unfold m'. rewrite !read_write_ne; [done|..].
    + intros <-. apply (Hne b); [|done]. right. rewrite elem_of_app. by right.
    + intros <-. rewrite app_comm_cons in Hn. apply NoDup_app in Hn as (_ & Hn & _). apply (Hn tl Htl). rewrite elem_of_app. by left.
Qed.

Lemma enqueue_tls_inv s G thr h p b : inv s G -> pools_ s !! h = Some p -> b ∈ liveSlabAllocs p ->
  let e := tlsEntry s thr h in let s1 := set_tls s thr h (mkTls (classes e) (blockSize p) (gen e)) in
  exists G', inv (set_pool (set_mem s1 (write (freeListTail p) b (write b 0 (mem s1)))) h (release_block (with_queue p b) b)) G'.
Proof.
  intros H Hh Hb e s1. destruct (set_entry_inv s G thr h p (mkTls (classes e) (blockSize p) (gen e)) H Hh) as [G' H'].
  { destruct (tls_alive s G h p thr H Hh) as (? & ? & ? & ? & _). split_and!; try done. by left. }
  exists G'. by apply enqueue_inv.
Qed.

(** Returning an oversized allocation. *)
Lemma freeOversized_inv s G h p a n : inv s G -> pools_ s !! h = Some p -> oversizedAllocs p !! a = Some n ->
  inv (set_pool (os_free s a n) h (count_free (with_allocs p (delete a (oversizedAllocs p)) (liveSlabAllocs p)) n)) G.
Proof.
  intros H Hh Ha. destruct (i_pool _ _ H h p Hh) as [_ (F & Hok)]. pose proof (i_os _ _ H) as Hos.
  destruct (po_over _ _ _ _ _ Hok a n Ha) as [Ho Ha64]. pose proof (over_nonneg _ _ _ _ _ Hos Hok) as Hov0.
  set (p' := count_free _ n). destruct (proj1 Hos a n Ho) as [Ha0 Hn0].
  assert (bases p ≡ₚ a :: bases p') as Hbp.
  { unfold bases. cbn [p' count_free with_counts with_allocs freeListDummy slabList oversizedAllocs].
    rewrite <- (insert_delete_id (oversizedAllocs p) a n Ha) at 1. rewrite map_to_list_insert by apply lookup_delete_eq.
    simpl. solve_Permutation. }
  assert (NoDup (a :: bases p')) as Hnb by (rewrite <- Hbp; apply Hok). apply NoDup_cons in Hnb as [Hna Hnb].
  assert (sumSizes (oversizedAllocs p) = sumSizes (delete a (oversizedAllocs p)) + n) as Hsum
    by (rewrite (sumSizes_delete _ a n Ha); lia).
  assert (0 <= sumSizes (delete a (oversizedAllocs p))) as Hsum0.
  { apply sumSizes_nonneg. intros x k [_ Hx]%lookup_delete_Some. destruct (po_over _ _ _ _ _ Hok x k Hx) as [Hox _].
    destruct (proj1 Hos _ _ Hox). lia. }
  assert (pool_ok (mem s) (delete a (os s)) p' F (stacksOf G h)) as Hok'.
  { destruct Hok as [? ? ? ? Hpart Hsl Hd Hov ? Htot Hcnt Hpk].
    assert (n <= totalAllocated p) as Hle by (rewrite Htot; nia).
    split; try done.
    - rewrite Forall_forall in *. intros sl Hs. destruct (Hsl sl Hs) as (? & Hx & ?). split_and!; [done| |done].
      rewrite lookup_delete_ne; [done|]. intros ->. apply Hna. by apply (slab_base p').
    - rewrite lookup_delete_ne; [done|]. intros E. apply Hna. rewrite E. left.
    - intros x k Hx. apply (lookup_delete_Some (oversizedAllocs p)) in Hx as [Hne Hx].
      destruct (Hov x k Hx). split; [|done]. by rewrite lookup_delete_ne.
    - unfold p', count_free. cbn [with_allocs with_counts totalAllocated blockSize liveSlabAllocs oversizedAllocs].
      rewrite (proj2 (Z.leb_le _ _) Hle). lia.
    - change (allocCount p = freeCount p + 1 + Z.of_nat (size (liveSlabAllocs p)) + Z.of_nat (size (delete a (oversizedAllocs p)))).
      rewrite Hcnt, map_size_delete_Some by (by eexists).
      assert (0 < size (oversizedAllocs p))%nat; [|lia].
      apply Nat.neq_0_lt_0. intros E%map_size_empty_inv. rewrite E in Ha. done.
    - unfold p', count_free. cbn [with_allocs with_counts totalAllocated peakAllocated].
      rewrite (proj2 (Z.leb_le _ _) Hle). lia. }
  eapply (inv_pool_step s G h p _ G p' F H Hh); try done; cbn [set_pool os_free pools_ t_cache os mem usedMemory_].
  - destruct Hos as [H1 H2]. split; [intros x k [_ Hx]%lookup_delete_Some; by apply H1|].
    intros x k y j [_ Hx]%lookup_delete_Some [_ Hy]%lookup_delete_Some. by apply H2.
  - intros x Hx _. rewrite lookup_delete_ne; [done|]. intros ->. apply Hx. rewrite Hbp. left.
  - intros x Hx. left. rewrite Hbp. by right.
  - rewrite (sumSizes_delete _ a n Ho), (i_used _ _ H). lia.
  - intros thr. apply (i_tls _ _ H h p thr Hh).
Qed.

(** ** Creation, destruction, and writes of the program *)

Lemma align64_spec x : 0 <= x <= 2 ^ 62 -> (64 | align64 x) /\ x <= align64 x < x + 64.
Proof.
  intros Hx. unfold align64. rewrite (u64_small (x + 63)) by lia.
  assert (Z.land (x + 63) (u64 (Z.lnot 63)) = Z.ldiff (x + 63) (Z.ones 6)) as ->.
  { apply Z.bits_inj'. intros i Hi. rewrite Z.land_spec, Z.ldiff_spec. unfold u64.
    destruct (Z.lt_ge_cases i 64) as [Hlt|Hge].
    - rewrite Z.mod_pow2_bits_low by lia. rewrite Z.lnot_spec by lia. done.
    - rewrite (Z.bits_above_log2 (x + 63) i); [done|lia|].
      apply Z.log2_lt_pow2; [lia|]. apply Z.lt_le_trans with (2 ^ 63); [lia|]. apply Z.pow_le_mono_r; lia. }
  rewrite Z.ldiff_ones_r, Z.shiftr_div_pow2, Z.shiftl_mul_pow2 by lia. change (2 ^ 6) with 64.
  split; [by exists ((x + 63) / 64)|]. pose proof (Z.div_mod (x + 63) 64). pose proof (Z.mod_pos_bound (x + 63) 64). lia.
Qed.

Lemma stacksOf_nil G h : (forall thr l, G !! (thr, h) = Some l -> l = []) -> stacksOf G h = [].
Proof.
  intros H. destruct (stacksOf G h) as [|b L] eqn:E; [done|]. assert (b ∈ stacksOf G h) as Hb by (rewrite E; left).
  unfold stacksOf in Hb. apply list_elem_of_bind in Hb as ([[thr h'] l] & Hb & Hl).
  apply elem_of_map_to_list, map_lookup_filter_Some in Hl as [Hl Hh]. simpl in Hh, Hb. subst h'.
  rewrite (H thr l Hl) in Hb. by apply not_elem_of_nil in Hb.
Qed.

Lemma createPool_inv s G bsz dummy : inv s G -> 0 <= bsz <= 2 ^ 50 -> region_free s dummy 8 -> nextPoolId_ s <= 1024 ->
  exists G', inv (createPool s bsz dummy).1 G'.
Proof.
  intros H Hb Hfree Hnx. pose proof (i_next _ _ H) as Hnext. pose proof (i_os _ _ H) as Hos.
  set (h := nextPoolId_ s) in *.
  assert (pools_ s !! h = None) as Hnone.
  { destruct (pools_ s !! h) as [p|] eqn:E; [|done]. destruct (i_pool _ _ H h p E). unfold h in *. lia. }
  destruct (region_free_new _ _ _ Hfree Hos) as [Hod Hos'].
  set (E0 := (fun _ : TlsEntry => @nil Z) <$> filter (fun kv : Z * Z * TlsEntry => kv.1.2 = h) (t_cache s)).
  set (G' := G ∪ E0). exists G'.
  assert (forall k, k.2 <> h -> G' !! k = G !! k) as HGo.
  { intros k Hk. unfold G', E0. destruct (G !! k) as [l|] eqn:E; [by apply lookup_union_Some_l|].
    apply lookup_union_None. split; [done|]. rewrite lookup_fmap. destruct (filter _ _ !! k) as [e|] eqn:Ef; [|done].
    apply map_lookup_filter_Some in Ef as [_ Ef]. simpl in Ef. done. }
  assert (forall thr, G' !! (thr, h) = (fun _ => []) <$> t_cache s !! (thr, h)) as HGh.
  { intros thr. unfold G', E0. rewrite lookup_union_r by (by apply (i_G _ _ H)). rewrite lookup_fmap. f_equal.
    destruct (t_cache s !! (thr, h)) as [e|] eqn:E; [by apply map_lookup_filter_Some|].
    apply map_lookup_filter_None. by left. }
  set (bs0 := align64 (if bsz <? 8 then 8 else bsz)).
  assert ((64 | bs0) /\ 64 <= bs0 <= 2 ^ 51) as [Hbs1 Hbs2].
  { destruct (align64_spec (if bsz <? 8 then 8 else bsz)) as [Hd Hr]; [destruct (Z.ltb_spec bsz 8); lia|].
    fold bs0 in Hd, Hr. split; [done|]. destruct Hd as [k Hk]. destruct (Z.ltb_spec bsz 8); lia. }
  unfold createPool. cbv zeta. cbn [fst]. fold h bs0. set (p' := mkPool _ _ _ _ _ _ _ _ _ _ _ _ _ _ _ _ _ _).
  assert (forall h' q F, pools_ s !! h' = Some q -> pool_ok (mem s) (os s) q F (stacksOf G h') ->
    (forall a, a ∈ freeListDummy q :: blocks q -> read (write dummy 0 (mem s)) a = read (mem s) a) /\
    (forall a, a ∈ bases q -> <[dummy := 8]> (os s) !! a = os s !! a /\ a <> dummy)) as Hfr.
  { intros h' q F Hq Hok. split.
    - intros a Ha. apply read_write_ne. intros ->. destruct (tracked_fresh _ s q F _ a a 8 Hok Hfree Ha); lia.
    - intros a Ha. destruct (bases_known _ _ _ _ _ _ Hok Ha) as [n Hn]. assert (a <> dummy) by congruence.
      split; [by rewrite lookup_insert_ne by congruence|done]. }
  split; cbn [mem os pools_ nextPoolId_ usedMemory_ g_poolGen t_cache].
  - intros h' q [[<- <-]|[Hne Hq]]%lookup_insert_Some.
    + split; [lia|]. exists []. rewrite stacksOf_nil.
      2: { intros thr l. rewrite HGh. destruct (t_cache s !! (thr, h)); simpl; congruence. }
      split; try done.
      * change (read (write dummy 0 (mem s)) dummy = 0). apply read_write_eq.
      * change (<[dummy := 8]> (os s) !! dummy = Some 8). apply lookup_insert_eq.
      * apply NoDup_singleton.
    + destruct (i_pool _ _ H h' q Hq) as [Hr (F & Hok)]. split; [unfold h; lia|]. exists F.
      rewrite (stacksOf_ext G) by (intros thr; by apply HGo). destruct (Hfr _ _ _ Hq Hok) as [H1 H2].
      eapply pool_ok_frame; [exact Hok|done|]. intros a Ha. by apply H2.
  - intros h' q thr [[<- <-]|[Hne Hq]]%lookup_insert_Some.
    + rewrite HGh. destruct (t_cache s !! (thr, h)) as [e|] eqn:E; constructor.
      destruct (i_dead _ _ H h thr e Hnone E) as [[He Hg]|[? _]]; [|unfold h in *; lia].
      rewrite He, Hg by (unfold h; lia). apply emptyTls_ok.
    + rewrite HGo by done. destruct (i_pool _ _ H h' q Hq) as [_ (F & Hok)]. destruct (Hfr _ _ _ Hq Hok) as [H1 _].
      pose proof (i_tls _ _ H h' q thr Hq) as Ht. inversion Ht as [e l He E1 E2|]; constructor.
      eapply tls_ok_frame; [|exact He]. intros a Ha. apply H1. right. apply (part_blocks _ _ _ _ _ _ Hok). right. left.
      by eapply stacksOf_elem.
  - intros h' thr e [Hq Hne]%lookup_insert_None He. destruct (i_dead _ _ H h' thr e Hq He) as [[E Hg]|[? ?]].
    + left. split; [done|]. intros. apply Hg. unfold h in *. lia.
    + right. unfold h in *. split; [lia|done].
  - intros h' Hr. unfold poolGen. cbn [g_poolGen]. destruct (decide (h' = h)) as [->|Hne].
    + rewrite lookup_insert_eq. rewrite bool_decide_eq_false_2; [done|]. rewrite lookup_insert_eq. by intros [_ ?].
    + rewrite lookup_insert_ne by (intros E; apply Hne; symmetry; apply gen_small; [unfold h; lia|done|done]).
      pose proof (i_gen _ _ H h' Hr) as Hg. unfold poolGen in Hg. rewrite Hg, lookup_insert_ne by done.
      fold h. assert (h' < h + 1 <-> h' < h) as Hiff by lia. by rewrite (bool_decide_ext _ _ (and_iff_compat_r (pools_ s !! h' = None) Hiff)).
  - lia.
  - done.
  - intros h1 h2 p1 p2 a [[<- <-]|[Hn1 H1]]%lookup_insert_Some [[<- <-]|[Hn2 H2]]%lookup_insert_Some Hne; [done|..].
    + intros ->%list_elem_of_singleton Ha. destruct (i_pool _ _ H _ _ H2) as [_ (F & Hok)].
      by destruct (proj2 (Hfr _ _ _ H2 Hok) _ Ha).
    + intros Ha ->%list_elem_of_singleton. destruct (i_pool _ _ H _ _ H1) as [_ (F & Hok)].
      by destruct (proj2 (Hfr _ _ _ H1 Hok) _ Ha).
    + by apply (i_bases _ _ H h1 h2 p1 p2).
  - rewrite sumSizes_insert by done. rewrite map_size_insert_None by done. rewrite (i_used _ _ H). lia.
  - intros thr h' [Hq Hne]%lookup_insert_None. rewrite HGo by done. by apply (i_G _ _ H).
Qed.

(** Returning several regions. *)
Definition free_all (s : t) (l : list (Z * Z)) : t := foldl (fun s '(ptr, size) => os_free s ptr size) s l.

Lemma free_all_spec s l : let s' := free_all s l in
  mem s' = mem s /\ pools_ s' = pools_ s /\ nextPoolId_ s' = nextPoolId_ s /\ g_poolGen s' = g_poolGen s /\
  t_cache s' = t_cache s /\ (forall a, a ∉ l.*1 -> os s' !! a = os s !! a) /\
  (forall a n, os s' !! a = Some n -> os s !! a = Some n /\ a ∉ l.*1) /\
  (NoDup l.*1 -> Forall (fun sl => os s !! sl.1 = Some sl.2) l ->
   usedMemory_ s' - sumSizes (os s') = usedMemory_ s - sumSizes (os s)).
Proof.
  revert s. induction l as [|[ptr n] l IH]; intros s; simpl.
  { split_and!; try done. intros a n Ha. split; [done|by apply not_elem_of_nil]. }
  destruct (IH (os_free s ptr n)) as (-> & -> & -> & -> & -> & H1 & H2 & H3). split_and!; [done..| | |].
  - intros a [Hne Ha]%not_elem_of_cons. rewrite H1 by done. cbn. by rewrite lookup_delete_ne.
  - intros a k Ha. destruct (H2 a k Ha) as [Hx Hni]. cbn in Hx. apply lookup_delete_Some in Hx as [Hne Hx].
    split; [done|]. apply not_elem_of_cons. done.
  - intros [Hni Hn]%NoDup_cons [Ho Hf]%Forall_cons. simpl in Ho. rewrite H3; [|done|].
    + cbn. rewrite (sumSizes_delete _ _ _ Ho). lia.
    + rewrite Forall_forall in *. intros sl Hs. cbn. rewrite lookup_delete_ne; [by apply Hf|].
      intros ->. apply Hni. apply list_elem_of_fmap. by exists sl.
Qed.

Lemma destroyPool_inv s G h : inv s G -> exists G', inv (destroyPool s h).1 G'.
Proof.
  intros H. unfold destroyPool. destruct (pools_ s !! h) as [p|] eqn:Hh; [|by exists G].
  destruct (_ || _) eqn:E; [by exists G|]. apply orb_false_iff in E as [E1 E2].
  apply negb_false_iff, bool_decide_eq_true in E1, E2. cbn [fst].
  change (foldl _ s (slabList p)) with (free_all s (slabList p)).
  destruct (free_all_spec s (slabList p)) as (Em & Ep & En & Eg & Et & Ho1 & Ho2 & Hu). set (s1 := free_all s (slabList p)) in *.
  destruct (i_pool _ _ H h p Hh) as [Hr (F & Hok)]. pose proof (i_os _ _ H) as Hos. pose proof (i_next _ _ H) as Hnext.
  set (G' := filter (fun kv : Z * Z * list Z => kv.1.2 <> h) G). exists G'.
  assert (forall k, k.2 <> h -> G' !! k = G !! k) as HGo.
  { intros k Hk. unfold G'. destruct (G !! k) as [l|] eqn:E; [by apply map_lookup_filter_Some|]. apply map_lookup_filter_None. by left. }
  assert (forall thr, G' !! (thr, h) = None) as HGh.
  { intros thr. apply map_lookup_filter_None. right. intros l _ Hx. by apply Hx. }
  pose proof (po_bases _ _ _ _ _ Hok) as Hnb. unfold bases in Hnb. apply NoDup_cons in Hnb as [Hnd Hnb].
  assert (freeListDummy p ∉ (slabList p).*1) as Hds by (intros Hx; apply Hnd, elem_of_app; by left).
  assert (forall h' q a F', h' <> h -> pools_ s !! h' = Some q -> pool_ok (mem s) (os s) q F' (stacksOf G h') -> a ∈ bases q ->
    delete (freeListDummy p) (os s1) !! a = os s !! a) as Hosq.
  { intros h' q a F' Hne Hq _ Ha. assert (a ∉ bases p) as Hna by (by apply (i_bases _ _ H h' h q p)).
    unfold bases in Hna. rewrite not_elem_of_cons, not_elem_of_app in Hna. destruct Hna as (Hn1 & Hn2 & _).
    rewrite lookup_delete_ne by done. by apply Ho1. }
  assert (poolGen s1 h = 0) as Hg0 by (unfold poolGen; rewrite Eg; by apply (poolGen_alive s G h p)).
  split; cbn [mem os pools_ nextPoolId_ usedMemory_ g_poolGen t_cache]; rewrite ?Em, ?Ep, ?En, ?Eg, ?Et.
  - intros h' q [Hne Hq]%lookup_delete_Some. destruct (i_pool _ _ H h' q Hq) as [? (F' & Hok')]. split; [done|]. exists F'.
    rewrite (stacksOf_ext G) by (intros thr; by apply HGo). eapply pool_ok_frame; [exact Hok'|done|].
    intros a Ha. by eapply Hosq.
  - intros h' q thr [Hne Hq]%lookup_delete_Some. rewrite HGo by done. by apply (i_tls _ _ H).
  - intros h' thr e [->|Hq]%lookup_delete_None He; [|by eapply (i_dead _ _ H)]. right. split; [done|].
    pose proof (i_tls _ _ H h' p thr Hh) as Ht. rewrite He in Ht. inversion Ht as [? ? [Hg _]|]; subst. done.
  - intros h' Hr'. unfold poolGen. cbn [g_poolGen]. fold (poolGen s1 h). rewrite Hg0. change (u32 (0 + 1)) with 1.
    destruct (decide (h' = h)) as [->|Hne].
    + rewrite lookup_insert_eq. rewrite bool_decide_eq_true_2; [done|]. split; [lia|apply lookup_delete_eq].
    + rewrite lookup_insert_ne by (intros E; apply Hne; symmetry; apply gen_small; [lia|done|done]).
      pose proof (i_gen _ _ H h' Hr') as Hg. unfold poolGen in Hg. rewrite Hg, lookup_delete_ne by done. done.
  - done.
  - destruct Hos as [H1 H2]. split.
    + intros a n [_ Ha]%lookup_delete_Some. destruct (Ho2 a n Ha) as [Ha' _]. by apply H1.
    + intros a n b m [_ Ha]%lookup_delete_Some [_ Hb]%lookup_delete_Some. destruct (Ho2 _ _ Ha), (Ho2 _ _ Hb). by apply H2.
  - intros h1 h2 p1 p2 a [_ H1]%lookup_delete_Some [_ H2]%lookup_delete_Some. by apply (i_bases _ _ H h1 h2).
  - assert (os s1 !! freeListDummy p = Some 8) as Hod by (rewrite Ho1 by done; apply Hok).
    rewrite (sumSizes_delete _ _ _ Hod), map_size_delete_Some by (by eexists).
    assert (0 < size (pools_ s))%nat as Hsz by (apply Nat.neq_0_lt_0; intros E%map_size_empty_inv; rewrite E in Hh; done).
    rewrite (i_used _ _ H) in Hu. apply NoDup_app in Hnb as [Hns _]. specialize (Hu Hns). rewrite <- (Z.add_0_r (usedMemory_ s1)).
    assert (Forall (fun sl => os s !! sl.1 = Some sl.2) (slabList p)) as Hall.
    { eapply Forall_impl; [apply Hok|]. by intros sl (_ & ? & _). }
    specialize (Hu Hall). lia.
  - intros thr h' [->|Hq]%lookup_delete_None; [apply HGh|].
    destruct (decide (h' = h)) as [->|Hne]; [apply HGh|]. rewrite HGo by done. by apply (i_G _ _ H).
Qed.

(** The program writes to memory that is not free pool memory. *)
Lemma write_inv s G a v : inv s G ->
  (forall h p, pools_ s !! h = Some p -> a <> freeListDummy p /\ (a ∈ blocks p -> a ∈ liveSlabAllocs p)) ->
  inv (set_mem s (write a v (mem s))) G.
Proof.
  intros H Ha. pose proof (i_os _ _ H) as Hos.
  assert (forall h p F, pools_ s !! h = Some p -> pool_ok (mem s) (os s) p F (stacksOf G h) ->
    forall x, x ∈ freeListDummy p :: F ++ stacksOf G h -> read (write a v (mem s)) x = read (mem s) x) as Hrd.
  { intros h p F Hh Hok x Hx. apply read_write_ne. intros <-. destruct (Ha h p Hh) as [Hd Hl].
    apply elem_of_cons in Hx as [->|Hx]; [done|]. assert (a ∈ blocks p) as Hab.
    { apply (part_blocks _ _ _ _ _ _ Hok). apply elem_of_app in Hx as [|]; auto. }
    pose proof (part_NoDup _ _ _ _ _ Hos Hok) as Hn. apply NoDup_cons in Hn as [_ Hn]. rewrite app_assoc in Hn.
    apply NoDup_app in Hn as (_ & Hn & _). apply (Hn a Hx). apply elem_of_elements. auto. }
  destruct H as [Hp Ht ? ? ? ? ? ? ?]. split; try done; cbn [set_mem mem].
  - intros h p Hh. destruct (Hp h p Hh) as [? (F & Hok)]. split; [done|]. exists F. pose proof (Hrd h p F Hh Hok) as Hr.
    destruct Hok. split; try done. rewrite Hr by (left). eapply lst_frame; [|done].
    intros b Hb. apply Hr. right. rewrite elem_of_app. by left.
  - intros h p thr Hh. destruct (Hp h p Hh) as [_ (F & Hok)]. specialize (Ht h p thr Hh).
    change (t_cache (set_mem s (write a v (mem s)))) with (t_cache s).
    inversion Ht as [e l He E1 E2|]; constructor. eapply tls_ok_frame; [|exact He]. intros b Hb.
    apply (Hrd h p F Hh Hok). right. rewrite elem_of_app. right. by eapply stacksOf_elem.
Qed.

(** Attributes. *)
Lemma attrs_inv s G h p thr a b c fl : inv s G -> pools_ s !! h = Some p -> inv (set_pool s h (with_attrs p thr a b c fl)) G.
Proof.
  intros H Hh. destruct (i_pool _ _ H h p Hh) as [_ (F & Hok)].
  eapply (inv_pool_step s G h p _ G (with_attrs p thr a b c fl) F H Hh); try done; try apply H.
  - intros x Hx. by left.
  - by destruct Hok; split.
  - intros thr'. apply (i_tls _ _ H h p thr' Hh).
Qed.

(** ** Trimming *)

Lemma walk_det fuel m hd l l' : lst m hd l -> walk fuel m hd = Some l' -> l' = l.
Proof.
  revert hd l l'. induction fuel as [|fuel IH]; intros hd l l'; [done|]. cbn [walk].
  destruct l as [|b l]; [by intros -> [= <-]|]. intros (-> & Hb & Hl). rewrite (proj2 (Z.eqb_neq _ _) Hb).
  destruct (walk fuel m (read m b)) as [l0|] eqn:E; [|done]. intros [= <-]. f_equal. by apply (IH (read m b)).
Qed.

(** The free blocks of a slab, and whether it has no other ones. *)
Definition freeIn (F : list Z) (sl : Z * Z) : list Z := filter (fun b => inRange b sl.1 (sl.1 + sl.2) = true) F.
Definition fullyFree (bs : Z) (F : list Z) (sl : Z * Z) : Prop := Z.of_nat (length (freeIn F sl)) = sl.2 / bs.

Lemma reservedBytes_nonneg bs slabs : 0 < bs -> Forall (fun sl => sl.2 = 64 * bs) slabs -> 0 <= reservedBytes slabs.
Proof. intros Hbs. induction 1 as [|sl l E _ IH]; simpl; [done|]. fold (reservedBytes l). lia. Qed.

(** The loop over the slabs releases fully free ones, as long as the target allows. *)
Lemma selectSlabs_spec bs keep F slabs r0 : 0 < bs -> Forall (fun sl => sl.2 = 64 * bs) slabs ->
  reservedBytes slabs <= r0 -> let '(r, acc) := selectSlabs bs keep F slabs r0 in
  sublist acc slabs /\ Forall (fullyFree bs F) acc /\ r = r0 - reservedBytes acc /\
  (r0 < 2 ^ 64 -> (acc <> [] -> keep <= r) /\
    (forall sl, sl ∈ slabs -> fullyFree bs F sl -> (sl ∉ acc) -> r - 64 * bs < keep)).
Proof.
  intros Hbs. unfold selectSlabs. set (step := fun '(reserved, acc) '(ptr, size) => _).
  enough (forall acc0 r0, Forall (fun sl => sl.2 = 64 * bs) slabs -> reservedBytes slabs <= r0 ->
    let '(r, acc) := foldl step (r0, acc0) slabs in exists acc1, acc = acc0 ++ acc1 /\
    sublist acc1 slabs /\ Forall (fullyFree bs F) acc1 /\ r = r0 - reservedBytes acc1 /\
    (r0 < 2 ^ 64 -> (acc1 <> [] -> keep <= r) /\
      (forall sl, sl ∈ slabs -> fullyFree bs F sl -> (sl ∉ acc1) -> r - 64 * bs < keep))) as Hgen.
  { intros Hs Hr. specialize (Hgen [] r0 Hs Hr). destruct (foldl step (r0, []) slabs) as [r acc].
    by destruct Hgen as (acc1 & -> & Hgen). }
  clear r0. induction slabs as [|[ptr size] slabs IH]; intros acc0 r0 Hs Hr; cbn [foldl].
  { exists []. rewrite app_nil_r. split_and!; try done. simpl. lia. }
  apply Forall_cons in Hs as [Hsz Hs]. cbn [snd] in Hsz. subst size. pose proof (reservedBytes_nonneg bs slabs Hbs Hs) as Hnn.
  cbn [reservedBytes foldr snd] in Hr. fold (reservedBytes slabs) in Hr.
  assert (64 * bs / bs = 64) as Hdiv by (apply Z.div_mul; lia).
  assert (fullyFree bs F (ptr, 64 * bs) <->
    Z.of_nat (length (filter (fun b => inRange b ptr (ptr + 64 * bs) = true) F)) = 64) as Hff
    by (unfold fullyFree; cbn [snd]; by rewrite Hdiv).
  unfold step at 2. rewrite (proj2 (Z.ltb_lt 0 bs) Hbs), Hdiv. cbn [orb Z.eqb].
  destruct (Z.eqb_spec (Z.of_nat (length (filter (fun b => inRange b ptr (ptr + 64 * bs) = true) F))) 64) as [Hfull|Hfull]; cbn [negb].
  - destruct (Z.ltb_spec (u64 (r0 - 64 * bs)) keep) as [Hk|Hk].
    + specialize (IH acc0 r0 Hs ltac:(lia)). destruct (foldl step (r0, acc0) slabs) as [r acc].
      destruct IH as (acc1 & -> & H1 & H2 & H3 & H4). exists acc1. split_and!; try done; [by constructor|].
      intros Hb. destruct (H4 Hb) as [H5 H6]. split; [done|]. intros sl Hsl _ _. rewrite u64_small in Hk by lia.
      assert (0 <= reservedBytes acc1); [|lia]. apply (reservedBytes_nonneg bs _ Hbs).
      rewrite Forall_forall in *. intros x Hx. by apply Hs, (elem_of_sublist acc1).
    + specialize (IH (acc0 ++ [(ptr, 64 * bs)]) (r0 - 64 * bs) Hs ltac:(lia)).
      destruct (foldl step (r0 - 64 * bs, acc0 ++ [(ptr, 64 * bs)]) slabs) as [r acc].
      destruct IH as (acc1 & -> & H1 & H2 & H3 & H4). exists ((ptr, 64 * bs) :: acc1).
      rewrite <- app_assoc. split_and!; [done|by constructor|by constructor; [apply Hff|]| |].
      * simpl. fold (reservedBytes acc1). lia.
      * intros Hb. rewrite u64_small in Hk by lia. destruct (H4 ltac:(lia)) as [H5 H6]. split.
        -- intros _. destruct acc1 as [|sl acc1]; [simpl in H3; lia|by apply H5].
        -- intros sl [->|Hsl]%elem_of_cons Hf [Hn Hn']%not_elem_of_cons; [done|]. by apply (H6 sl).
  - specialize (IH acc0 r0 Hs ltac:(lia)). destruct (foldl step (r0, acc0) slabs) as [r acc].
    destruct IH as (acc1 & -> & H1 & H2 & H3 & H4). exists acc1. split_and!; try done; [by constructor|].
    intros Hb. destruct (H4 Hb) as [H5 H6]. split; [done|].
    intros sl [->|Hsl]%elem_of_cons Hf Hn; [by apply Hff in Hf|by apply (H6 sl)].
Qed.

(** What unlinking the released slabs leaves. *)
Lemma unlink_filter x l : NoDup l -> unlink x l = filter (fun y => y <> x) l.
Proof.
  induction l as [|y l IH]; [done|]. intros [Hy Hn]%NoDup_cons. cbn [unlink]. case_bool_decide as E.
  - subst y. rewrite filter_cons_False by (by intros []). symmetry. apply list_filter_all. intros z Hz ->. done.
  - by rewrite filter_cons_True, IH.
Qed.

Lemma releaseSlabs_spec R : forall s p, NoDup (slabList p) ->
  exists ranges, releaseSlabs s p R = (free_all s R, with_slabs p (filter (fun sl => sl ∉ R) (slabList p)) ranges).
Proof.
  induction R as [|[ptr size] R IH]; intros s p Hn.
  - exists (slabRanges p). cbn. rewrite list_filter_all by (intros; apply not_elem_of_nil). by destruct p.
  - unfold releaseSlabs. cbn [foldl]. fold (releaseSlabs (os_free s ptr size)).
    change (foldl _ (releaseSlab s p ptr size) R) with
      (releaseSlabs (releaseSlab s p ptr size).1 (releaseSlab s p ptr size).2 R).
    unfold releaseSlab. cbn [fst snd]. rewrite unlink_filter by done.
    edestruct (IH (os_free s ptr size)) as [ranges E]; [|rewrite E].
    { cbn [with_slabs slabList]. by apply NoDup_filter. }
    exists ranges. f_equal. cbn [with_slabs slabList]. rewrite list_filter_filter. unfold with_slabs. cbn. f_equal.
    apply list_filter_iff. intros sl. rewrite not_elem_of_cons. tauto.
Qed.

Lemma block_slab m osr p F C b sl : os_ok osr -> pool_ok m osr p F C -> b ∈ blocks p -> sl ∈ slabList p ->
  inRange b sl.1 (sl.1 + sl.2) = true -> b ∈ slabBlocks (blockSize p) sl.
Proof.
  intros Hos H Hb Hsl [H1 H2]%andb_true_iff. apply Z.leb_le in H1. apply Z.ltb_lt in H2.
  destruct (block_region _ _ _ _ _ _ H Hb) as (sl' & Hsl' & Ho' & Hr1 & Hr2 & E & i & Hi & Eb).
  destruct (po_bs _ _ _ _ _ H) as [_ Hbs]. pose proof (po_slabs _ _ _ _ _ H) as Hs. rewrite Forall_forall in Hs.
  destruct (Hs sl Hsl) as (_ & Ho & _). destruct (decide (sl.1 = sl'.1)) as [E1|E1].
  - rewrite (slab_unique p sl sl' (po_bases _ _ _ _ _ H) Hsl Hsl' E1). apply elem_of_nodes. by exists i.
  - destruct (proj2 Hos _ _ _ _ Ho Ho' E1); lia.
Qed.

Lemma slab_inRange m osr p F C b sl : pool_ok m osr p F C -> sl ∈ slabList p -> b ∈ slabBlocks (blockSize p) sl ->
  inRange b sl.1 (sl.1 + sl.2) = true.
Proof.
  intros H Hsl (i & Hi & ->)%elem_of_nodes. destruct (po_bs _ _ _ _ _ H) as [_ Hbs].
  pose proof (po_slabs _ _ _ _ _ H) as Hs. rewrite Forall_forall in Hs. destruct (Hs sl Hsl) as (E & _ & _).
  apply andb_true_iff. split; [apply Z.leb_le; nia|apply Z.ltb_lt; nia].
Qed.

(** All blocks of a fully free slab are in the queue. *)
Lemma fullyFree_all m osr p F C sl b : os_ok osr -> pool_ok m osr p F C -> sl ∈ slabList p ->
  fullyFree (blockSize p) F sl -> b ∈ slabBlocks (blockSize p) sl -> b ∈ F.
Proof.
  intros Hos H Hsl Hf Hb. destruct (po_bs _ _ _ _ _ H) as [_ Hbs].
  pose proof (part_NoDup _ _ _ _ _ Hos H) as Hn. apply NoDup_cons in Hn as [_ Hn]. apply NoDup_app in Hn as [Hn _].
  assert (freeIn F sl ≡ₚ slabBlocks (blockSize p) sl) as Hp.
  { apply submseteq_length_Permutation.
    - apply NoDup_submseteq; [by apply NoDup_filter|]. intros x [Hx Hin]%list_elem_of_filter.
      eapply block_slab; [done|exact H| |done|done]. apply (part_blocks _ _ _ _ _ _ H). by left.
    - unfold fullyFree in Hf. pose proof (po_slabs _ _ _ _ _ H) as Hs. rewrite Forall_forall in Hs.
      destruct (Hs sl Hsl) as (E & _ & _). rewrite E, Z.div_mul in Hf by lia.
      unfold slabBlocks, nodes. rewrite length_fmap, length_seqZ. lia. }
  rewrite <- Hp in Hb. by apply list_elem_of_filter in Hb as [_ ?].
Qed.

Lemma all_fullyFree m osr p F C sl : os_ok osr -> pool_ok m osr p F C -> sl ∈ slabList p ->
  (forall b, b ∈ slabBlocks (blockSize p) sl -> b ∈ F) -> fullyFree (blockSize p) F sl.
Proof.
  intros Hos H Hsl Hall. destruct (po_bs _ _ _ _ _ H) as [_ Hbs].
  assert (freeIn F sl ≡ₚ slabBlocks (blockSize p) sl) as Hp.
  { apply NoDup_Permutation.
    - pose proof (part_NoDup _ _ _ _ _ Hos H) as Hn. apply NoDup_cons in Hn as [_ Hn]. apply NoDup_app in Hn as [Hn _].
      by apply NoDup_filter.
    - apply NoDup_nodes. lia.
    - intros b. unfold freeIn. rewrite list_elem_of_filter. split.
      + intros [Hr Hb]. eapply block_slab; [done|exact H| |done|done]. apply (part_blocks _ _ _ _ _ _ H). by left.
      + intros Hb. split; [by eapply slab_inRange|by apply Hall]. }
  pose proof (po_slabs _ _ _ _ _ H) as Hs. rewrite Forall_forall in Hs. destruct (Hs sl Hsl) as (E & _ & _).
  unfold fullyFree. rewrite E, Z.div_mul by lia. apply Permutation_length in Hp. rewrite Hp.
  unfold slabBlocks, nodes. rewrite length_fmap, length_seqZ. lia.
Qed.

(** The pool after the release of fully free slabs. *)
Definition dropped (R : list (Z * Z)) (b : Z) : bool := existsb (fun r => inRange b r.1 (r.1 + r.2)) R.

Lemma dropped_spec m osr p F C R b : os_ok osr -> pool_ok m osr p F C -> sublist R (slabList p) -> b ∈ blocks p ->
  dropped R b = true <-> exists sl, sl ∈ R /\ b ∈ slabBlocks (blockSize p) sl.
Proof.
  intros Hos H HR Hb. unfold dropped. rewrite existsb_exists. split; intros (sl & Hsl & Hin); exists sl.
  - apply list_elem_of_In in Hsl. split; [done|]. eapply block_slab; [done..| |done]. by eapply elem_of_sublist.
  - split; [by apply list_elem_of_In|]. eapply slab_inRange; [done| |done]. by eapply elem_of_sublist.
Qed.

Definition trimmed (p : MemoryPool) (R : list (Z * Z)) (keep : list Z) ranges : MemoryPool :=
  with_slabs (with_queue p (default (freeListDummy p) (last keep))) (filter (fun sl => sl ∉ R) (slabList p)) ranges.

Lemma trimmed_blocks m osr p F C R keep ranges b : os_ok osr -> pool_ok m osr p F C -> sublist R (slabList p) ->
  b ∈ blocks (trimmed p R keep ranges) <-> b ∈ blocks p /\ dropped R b = false.
Proof.
  intros Hos H HR. rewrite <- not_true_iff_false. unfold blocks at 1. rewrite list_elem_of_bind.
  cbn [trimmed with_slabs with_queue slabList blockSize]. split.
  - intros (sl & Hb & [HnR Hsl]%list_elem_of_filter). assert (b ∈ blocks p) as Hbp by (apply list_elem_of_bind; by exists sl).
    split; [done|]. rewrite (dropped_spec _ _ _ _ _ _ _ Hos H HR Hbp). intros (sl' & Hsl' & Hb').
    assert (sl' ∈ slabList p) as Hs' by (by eapply elem_of_sublist). apply HnR.
    pose proof (slab_inRange _ _ _ _ _ _ _ H Hsl Hb) as [H1 H2]%andb_true_iff.
    pose proof (slab_inRange _ _ _ _ _ _ _ H Hs' Hb') as [H3 H4]%andb_true_iff.
    apply Z.leb_le in H1, H3. apply Z.ltb_lt in H2, H4.
    assert (sl.1 = sl'.1) as E.
    { destruct (decide (sl.1 = sl'.1)) as [|E]; [done|]. pose proof (po_slabs _ _ _ _ _ H) as Hs. rewrite Forall_forall in Hs.
      destruct (Hs _ Hsl) as (_ & Ho & _), (Hs _ Hs') as (_ & Ho' & _). destruct (proj2 Hos _ _ _ _ Ho Ho' E); lia. }
    by rewrite (slab_unique p sl sl' (po_bases _ _ _ _ _ H) Hsl Hs' E).
  - intros [Hb Hd]. rewrite (dropped_spec _ _ _ _ _ _ _ Hos H HR Hb) in Hd.
    pose proof Hb as (sl & Hb' & Hsl)%list_elem_of_bind. exists sl. split; [done|]. apply list_elem_of_filter. split; [|done].
    intros HslR. apply Hd. by exists sl.
Qed.

Lemma bases_sublist p R keep ranges : sublist (bases (trimmed p R keep ranges)) (bases p).
Proof.
  unfold bases. cbn [trimmed with_slabs with_queue slabList freeListDummy oversizedAllocs]. constructor.
  apply sublist_app; [|done]. apply fmap_sublist, sublist_filter.
Qed.

Lemma trimmed_part m osr p F C R ranges : os_ok osr -> pool_ok m osr p F C -> sublist R (slabList p) ->
  Forall (fullyFree (blockSize p) F) R -> let keep := filter (fun b => dropped R b = false) F in
  keep ++ C ++ elements (liveSlabAllocs p) ≡ₚ blocks (trimmed p R keep ranges).
Proof.
  intros Hos H HR Hf keep. pose proof (part_NoDup _ _ _ _ _ Hos H) as Hn. apply NoDup_cons in Hn as [_ Hn].
  apply NoDup_Permutation.
  - apply NoDup_app in Hn as (Hn1 & Hn2 & Hn3). apply NoDup_app. split_and!; [by apply NoDup_filter| |done].
    intros x [_ Hx]%list_elem_of_filter. by apply Hn2.
  - unfold blocks. cbn [trimmed with_slabs with_queue slabList blockSize]. apply (sublist_NoDup _ (blocks p)).
    + pose proof (NoDup_bind_blocks _ _ _ _ _ Hos H) as Hb. by apply NoDup_cons in Hb as [_ ?].
    + unfold blocks. generalize (slabList p). clear. intros l. induction l as [|sl l IH]; [done|].
      destruct (decide (sl ∉ R)) as [Hd|Hd].
      * rewrite filter_cons_True by done. cbn. by apply sublist_app.
      * rewrite filter_cons_False by done. cbn. by apply sublist_inserts_l.
  - intros b. rewrite (trimmed_blocks _ _ _ _ _ _ _ _ _ Hos H HR), <- (part_blocks _ _ _ _ _ _ H), !elem_of_app, elem_of_elements.
    unfold keep. rewrite list_elem_of_filter. split; [|tauto]. intros [[? ?]|Hin]; [tauto|]. split; [tauto|].
    apply not_true_iff_false. intros Hd. assert (b ∈ blocks p) as Hb by (apply (part_blocks _ _ _ _ _ _ H); tauto).
    apply (dropped_spec _ _ _ _ _ _ _ Hos H HR Hb) in Hd as (sl & Hsl & Hbs). apply NoDup_app in Hn as (_ & Hn & _).
    apply (Hn b); [|by rewrite elem_of_app, elem_of_elements]. rewrite Forall_forall in Hf.
    eapply fullyFree_all; [done|done| |by apply Hf|done]. by eapply elem_of_sublist.
Qed.

Lemma trimmed_ok m osr osr' p F C R ranges : os_ok osr -> pool_ok m osr p F C -> sublist R (slabList p) ->
  Forall (fullyFree (blockSize p) F) R -> (forall a, a ∉ R.*1 -> osr' !! a = osr !! a) ->
  let keep := filter (fun b => dropped R b = false) F in
  let m' := relink (freeListDummy p) keep (write (freeListDummy p) 0 m) in
  pool_ok m' osr' (trimmed p R keep ranges) keep C /\
  (forall a, a ∉ freeListDummy p :: keep -> read m' a = read m a) /\
  (forall a, a ∈ bases (trimmed p R keep ranges) -> a ∉ R.*1).
Proof.
  intros Hos H HR Hf Ho keep m'. pose proof (part_NoDup _ _ _ _ _ Hos H) as Hn.
  assert (NoDup (freeListDummy p :: keep)) as Hnk.
  { apply NoDup_cons in Hn as [Hd Hn]. apply NoDup_app in Hn as (Hn & _). apply NoDup_cons. split; [|by apply NoDup_filter].
    intros [_ Hx]%list_elem_of_filter. apply Hd. rewrite elem_of_app. by left. }
  destruct (relink_spec (freeListDummy p) keep (write (freeListDummy p) 0 m) Hnk) as [Hl Hfr].
  { apply Forall_forall. intros b [_ Hb]%list_elem_of_filter. eapply lst_nonzero; [apply H|done]. }
  { apply read_write_eq. }
  assert (forall a, a ∈ bases (trimmed p R keep ranges) -> a ∉ R.*1) as Hbase.
  { intros a Ha (sl & -> & HslR)%list_elem_of_fmap. pose proof (po_bases _ _ _ _ _ H) as Hnb. unfold bases in Ha, Hnb.
    assert (sl ∈ slabList p) as Hsl by (by eapply elem_of_sublist).
    apply NoDup_cons in Hnb as [Hd Hnb]. apply NoDup_app in Hnb as (_ & Hov & _).
    assert (sl.1 ∈ (slabList p).*1) as Hin by (apply list_elem_of_fmap; by exists sl).
    cbn [trimmed with_slabs with_queue slabList freeListDummy oversizedAllocs] in Ha.
    apply elem_of_cons in Ha as [E|[(sl' & E & [Hn' Hsl']%list_elem_of_filter)%list_elem_of_fmap|Ha]%elem_of_app].
    - apply Hd. rewrite <- E, elem_of_app. by left.
    - apply Hn'. by rewrite <- (slab_unique p sl sl' (po_bases _ _ _ _ _ H) Hsl Hsl' E).
    - by apply (Hov sl.1). }
  split_and!; [|intros a Ha; rewrite Hfr by done; apply read_write_ne; intros <-; apply Ha; left|done].
  assert (forall a, a ∈ bases (trimmed p R keep ranges) -> osr' !! a = osr !! a) as Ho' by (intros a Ha; apply Ho; by apply Hbase).
  pose proof (trimmed_part _ _ _ _ _ R ranges Hos H HR Hf) as Hpt.
  destruct H as [? Hh ? ? Hpart Hsl Hd Hov Hbn Htot Hcnt Hpk]. split; try done.
  - cbn [trimmed with_slabs with_queue freeListDummy freeListTail]. clearbody keep. clear. destruct keep as [|b keep]; [done|].
    change (last (freeListDummy p :: b :: keep)) with (last (b :: keep)).
    destruct (last (b :: keep)) eqn:E; [done|]. by apply last_None in E.
  - apply Forall_forall. intros sl Hin. rewrite Ho' by (by apply slab_base). rewrite Forall_forall in Hsl. apply Hsl.
    by apply list_elem_of_filter in Hin as [_ ?].
  - change (osr' !! freeListDummy p = Some 8). rewrite Ho'; [done|left].
  - intros a n Ha. rewrite Ho' by (by apply (over_base (trimmed p R keep ranges) a n)). by apply Hov.
  - eapply sublist_NoDup; [|apply bases_sublist]. done.
Qed.

(** The whole of [trimPool] on a live pool. *)
Lemma trim_spec s G h p F fuel mb : inv s G -> pools_ s !! h = Some p -> pool_ok (mem s) (os s) p F (stacksOf G h) ->
  (length F < fuel)%nat ->
  let keepTarget := Z.max mb (Z.of_nat (size (liveSlabAllocs p)) * blockSize p) in
  trimPool fuel s h mb = Some (s, SUCCESS) /\
    (reservedBytes (slabList p) <= keepTarget \/
     reservedBytes (slabList p) < 2 ^ 64 -> forall sl, sl ∈ slabList p -> fullyFree (blockSize p) F sl ->
       reservedBytes (slabList p) - 64 * blockSize p < keepTarget) \/
  exists R ranges, sublist R (slabList p) /\ Forall (fullyFree (blockSize p) F) R /\
    let keep := filter (fun b => dropped R b = false) F in
    let s0 := free_all (set_mem s (relink (freeListDummy p) keep (write (freeListDummy p) 0 (mem s)))) R in
    trimPool fuel s h mb = Some (set_pool s0 h (trimmed p R keep ranges), SUCCESS) /\
    (reservedBytes (slabList p) < 2 ^ 64 -> keepTarget <= reservedBytes (slabList p) - reservedBytes R /\
      forall sl, sl ∈ slabList p -> fullyFree (blockSize p) F sl -> (sl ∉ R) ->
        reservedBytes (slabList p) - reservedBytes R - 64 * blockSize p < keepTarget).
Proof.
  intros H Hh Hok Hfuel keepTarget. pose proof (po_bs _ _ _ _ _ Hok) as [_ Hbs]. unfold trimPool. rewrite Hh.
  rewrite (po_head _ _ _ _ _ Hok), (walk_lst fuel _ _ F) by (done || apply Hok). cbn [mbind option_bind]. fold keepTarget.
  assert (Forall (fun sl => sl.2 = 64 * blockSize p) (slabList p)) as Hsz
    by (eapply Forall_impl; [apply Hok|]; by intros sl (? & _)).
  destruct (Z.leb_spec (reservedBytes (slabList p)) keepTarget) as [Hle|Hgt].
  { left. split; [done|]. intros _ sl _ _. lia. }
  pose proof (selectSlabs_spec (blockSize p) keepTarget F (slabList p) _ ltac:(lia) Hsz (Z.le_refl _)) as Hsel.
  destruct (selectSlabs _ _ _ _ _) as [r R]. destruct Hsel as (HR & Hf & -> & Hb).
  case_bool_decide as HRn.
  { left. split; [done|]. subst R. intros Hlt sl Hsl Hff. destruct Hlt as [Hlt|Hlt]; [lia|].
    destruct (Hb Hlt) as [_ Hb2]. specialize (Hb2 sl Hsl Hff (not_elem_of_nil _)). simpl in Hb2. lia. }
  right. set (keep := filter (fun b => dropped R b = false) F).
  destruct (releaseSlabs_spec R (set_mem s (relink (freeListDummy p) keep (write (freeListDummy p) 0 (mem s))))
    (with_queue p (default (freeListDummy p) (last keep)))) as [ranges E].
  { pose proof (po_bases _ _ _ _ _ Hok) as Hn. unfold bases in Hn. apply NoDup_cons in Hn as [_ Hn].
    apply NoDup_app in Hn as [Hn _]. by eapply NoDup_fmap_1. }
  exists R, ranges. split; [done|]. split; [done|]. cbv zeta. split.
  - unfold with_queue in E. rewrite (po_head _ _ _ _ _ Hok) in E. unfold keep, dropped in E. rewrite E. unfold trimmed, keep, with_queue.
    by rewrite (po_head _ _ _ _ _ Hok).
  - intros Hlt. destruct (Hb Hlt) as [Hb1 Hb2]. split; [by apply Hb1|done].
Qed.

Lemma trim_inv s G h p F R ranges : inv s G -> pools_ s !! h = Some p -> pool_ok (mem s) (os s) p F (stacksOf G h) ->
  sublist R (slabList p) -> Forall (fullyFree (blockSize p) F) R ->
  let keep := filter (fun b => dropped R b = false) F in
  let s0 := free_all (set_mem s (relink (freeListDummy p) keep (write (freeListDummy p) 0 (mem s)))) R in
  inv (set_pool s0 h (trimmed p R keep ranges)) G.
Proof.
  intros H Hh Hok HR Hf keep s0. pose proof (i_os _ _ H) as Hos.
  set (m' := relink (freeListDummy p) keep (write (freeListDummy p) 0 (mem s))) in *.
  destruct (free_all_spec (set_mem s m') R) as (Em & Ep & En & Eg & Et & Ho1 & Ho2 & Hu). fold s0 in Em, Ep, En, Eg, Et, Ho1, Ho2, Hu.
  cbn [set_mem os mem pools_ nextPoolId_ g_poolGen t_cache usedMemory_] in Em, Ep, En, Eg, Et, Ho1, Ho2, Hu.
  destruct (trimmed_ok (mem s) (os s) (os s0) p F (stacksOf G h) R ranges Hos Hok HR Hf Ho1) as (Hok' & Hfr & Hb).
  fold keep m' in Hok', Hfr.
  assert (forall sl, sl ∈ R -> sl ∈ slabList p) as HRs by (intros sl Hsl; by eapply elem_of_sublist).
  assert (os_ok (os s0)) as Hos0.
  { destruct Hos as [H1 H2]. split.
    - intros a n Ha. destruct (Ho2 a n Ha) as [Ha' _]. by apply H1.
    - intros a n b k Ha Hbk. destruct (Ho2 _ _ Ha), (Ho2 _ _ Hbk). by apply H2. }
  assert (forall a, a ∉ freeListDummy p :: keep -> read m' a = read (mem s) a) as Hfr' by exact Hfr.
  eapply (inv_pool_step s G h p _ G (trimmed p R keep ranges) keep H Hh); cbn [set_pool mem os pools_ nextPoolId_ usedMemory_ g_poolGen t_cache];
    rewrite ?Em, ?Ep, ?En, ?Eg, ?Et; try done.
  - intros a Ha _. apply Ho1. intros (sl & -> & Hsl)%list_elem_of_fmap. apply Ha. apply slab_base. by apply HRs.
  - intros a Ha. left. by eapply elem_of_sublist; [|apply bases_sublist].
  - intros a Ha. apply Hfr. intros Hin. apply Ha. eapply tracked_inside; [exact Hok'|].
    apply elem_of_cons in Hin as [->|Hin]; [left|right]. apply (part_blocks _ _ _ _ _ _ Hok'). by left.
  - pose proof (po_bases _ _ _ _ _ Hok) as Hn. unfold bases in Hn. apply NoDup_cons in Hn as [_ Hn]. apply NoDup_app in Hn as [Hn _].
    rewrite (i_used _ _ H) in Hu. assert (NoDup R.*1) as HnR by (eapply sublist_NoDup; [exact Hn|by apply fmap_sublist]).
    specialize (Hu HnR). assert (Forall (fun sl => os s !! sl.1 = Some sl.2) R) as HfR.
    { apply Forall_forall. intros sl Hsl. pose proof (po_slabs _ _ _ _ _ Hok) as Hs. rewrite Forall_forall in Hs.
      by destruct (Hs sl (HRs sl Hsl)) as (_ & ? & _). }
    specialize (Hu HfR). lia.
  - intros thr. pose proof (i_tls _ _ H h p thr Hh) as Ht. inversion Ht as [e l He E1 E2|]; constructor.
    change (blockSize (trimmed p R keep ranges)) with (blockSize p). eapply tls_ok_frame; [|exact He]. intros a Ha. apply Hfr.
    assert (a ∈ stacksOf G h) as Has by (by eapply stacksOf_elem).
    pose proof (part_NoDup _ _ _ _ _ Hos0 Hok') as Hn. rewrite app_comm_cons in Hn. apply NoDup_app in Hn as (_ & Hn & _).
    intros Hin. apply (Hn a); [done|]. rewrite elem_of_app. by left.
Qed.

End PoolInvariant.
