(* ===== verification/PoolSafety.v ===== *)
(** * Memory pools: what a program can rely on

    Runs of the allocator ([exec], [run]) under the conditions its callers meet
    ([op_ok]), the memory a program may use ([usable]) and the theorems about
    them: no block is lost or duplicated, allocations are fresh, zeroed and
    disjoint, exactly what was allocated can be freed, and nothing that is in
    use changes under the calls of others. *)

From S2P Require Import Prelude PoolAllocator PoolInvariant.

Module PoolSafety.
Import PoolAllocator PoolInvariant.

(** ** Runs of the allocator *)

(** The calls of a program, and its writes to memory it was given: [Write h b
    off v] stores [v] at offset [off] of its allocation [b] from pool [h]. *)
Inductive op :=
  | CreatePool (blockSize dummy : Z)
  | DestroyPool (h : Z)
  | Allocate (thr h size : Z) (mem_ : option Z)
  | Free (thr h ptr : Z)
  | Trim (h minBytes : Z)
  | Write (h b off v : Z)
  | ReleaseThreshold (h threshold : Z)
  | ReuseFlags (h : Z) (followEventDeps opportunistic internalDeps : bool)
  | Access (h device flags : Z).

(** Enough for the walk over the queue, whatever it holds. *)
Definition trimFuel (s : t) (h : Z) : nat := from_option (fun p => S (64 * length (slabList p))) 1%nat (pools_ s !! h).

Definition exec (kTlsCacheMax : Z) (s : t) (o : op) : option t :=
  match o with
  | CreatePool bs dummy => Some (createPool s bs dummy).1
  | DestroyPool h => Some (destroyPool s h).1
  | Allocate thr h size mem_ => Some (allocateFromPool s thr h size mem_).1.1
  | Free thr h ptr => Some (freeToPool kTlsCacheMax s thr h ptr).1
  | Trim h minBytes => fst <$> trimPool (trimFuel s h) s h minBytes
  | Write h b off v => Some (set_mem s (write (b + off) v (mem s)))
  | ReleaseThreshold h v => Some (setPoolReleaseThreshold s h v).1
  | ReuseFlags h a b c => Some (setPoolReuseFlags s h a b c).1
  | Access h d f => Some (setPoolAccess s h d f).1
  end.

(** The region a call takes from the operating system, if it takes one. *)
Definition osSize (p : MemoryPool) (size : Z) : Z := if blockSize p <? size then align64 size else 64 * blockSize p.

(** The bytes a program may use at [b]. *)
Definition usable (s : t) (h b : Z) : option Z :=
  p ← pools_ s !! h; if decide (b ∈ liveSlabAllocs p) then Some (blockSize p) else oversizedAllocs p !! b.

(** What the calls rely on: block and request sizes are at most 2^50, at most
    1024 pools are created, [posix_memalign] and [new] return regions that
    overlap no outstanding one, and the program writes where it may. *)
Definition op_ok (s : t) (o : op) : Prop :=
  match o with
  | CreatePool bs dummy => 0 <= bs <= 2 ^ 50 /\ region_free s dummy 8 /\ nextPoolId_ s <= 1024
  | Allocate _ h size mem_ => 0 <= size <= 2 ^ 50 /\
      match mem_, pools_ s !! h with
      | Some a, Some p => region_free s a (osSize p size) /\ (64 | a)
      | _, _ => True
      end
  | Write h b off _ => match usable s h b with Some n => 0 <= off < n | None => False end
  | _ => True
  end.

#[export] Instance region_free_dec s a n : Decision (region_free s a n).
Proof.
  refine (cast_if (decide (0 < a /\ 0 < n /\ map_Forall (fun b m => a + n <= b \/ b + m <= a) (os s)))); abstract (unfold region_free, map_Forall in *; tauto).
Defined.

#[export] Instance divide64_dec a : Decision (64 | a).
Proof. refine (cast_if (decide (a mod 64 = 0))); abstract (rewrite <- Z.mod_divide; done || lia). Defined.

#[export] Instance op_ok_dec s o : Decision (op_ok s o).
Proof.
  destruct o as [| |thr h size mem_| | |h b off v| | |]; cbn [op_ok]; try apply _.
  - destruct mem_, (pools_ s !! h); apply _.
  - destruct (usable s h b); apply _.
Defined.

Fixpoint run (depth : Z) (s : t) (l : list op) : option t :=
  match l with [] => Some s | o :: l => s ← exec depth s o; run depth s l end.

Fixpoint ops_ok (depth : Z) (s : t) (l : list op) : Prop :=
  match l with
  | [] => True
  | o :: l => op_ok s o /\ match exec depth s o with Some s => ops_ok depth s l | None => True end
  end.

(** ** Allocations do not overlap *)

#[export] Instance ops_ok_dec depth l s : Decision (ops_ok depth s l).
Proof.
  revert s. induction l as [|o l IH]; intros s; cbn [ops_ok]; [apply _|].
  apply and_dec; [apply _|]. destruct (exec depth s o); [apply IH|apply _].
Defined.

Lemma slab_not_over p sl m : NoDup (bases p) -> sl ∈ slabList p -> oversizedAllocs p !! sl.1 <> Some m.
Proof.
  intros Hn Hsl Hv. unfold bases in Hn. apply NoDup_cons in Hn as [_ Hn]. apply NoDup_app in Hn as (_ & Hn & _).
  apply (Hn sl.1); apply list_elem_of_fmap; [by exists sl|]. exists (sl.1, m). split; [done|]. by apply elem_of_map_to_list.
Qed.

Lemma live_not_over s G h p b : inv s G -> pools_ s !! h = Some p -> b ∈ liveSlabAllocs p -> oversizedAllocs p !! b = None.
Proof.
  intros H Hh Hl. destruct (oversizedAllocs p !! b) as [n|] eqn:Hb; [exfalso|done].
  destruct (i_pool _ _ H h p Hh) as [_ (F & Hok)].
  assert (b ∈ blocks p) as Hbb by (apply (part_blocks _ _ _ _ _ _ Hok); auto).
  destruct (block_region _ _ _ _ _ _ Hok Hbb) as (sl & Hsl & Ho & Hr1 & Hr2 & _).
  destruct (po_over _ _ _ _ _ Hok _ _ Hb) as [Hob _]. destruct (po_bs _ _ _ _ _ Hok) as [_ Hbs].
  destruct (i_os _ _ H) as [Hpos Hsep]. destruct (Hpos _ _ Hob). destruct (decide (b = sl.1)) as [->|Hne].
  - by apply (slab_not_over p sl n (po_bases _ _ _ _ _ Hok) Hsl).
  - destruct (Hsep _ _ _ _ Hob Ho Hne); lia.
Qed.

Lemma owns_usable s G h b n : inv s G -> owns s h b n <-> usable s h b = Some n.
Proof.
  intros H. unfold owns, usable. split.
  - intros (p & Hh & Hb). rewrite Hh. cbn [mbind option_bind]. destruct Hb as [[Hl ->]|Hb]; [by rewrite decide_True|].
    case_decide as Hl; [|done]. by rewrite (live_not_over s G h p b H Hh Hl) in Hb.
  - destruct (pools_ s !! h) as [p|] eqn:E; [|done]. cbn [mbind option_bind]. intros Hb. exists p. split; [done|].
    case_decide; [left; split; [done|congruence]|by right].
Qed.

Lemma owns_area s G h p b n : inv s G -> pools_ s !! h = Some p -> owns s h b n ->
  exists base k, base ∈ bases p /\ os s !! base = Some k /\ base <> freeListDummy p /\ base <= b /\ b + n <= base + k /\ 0 < n /\ (64 | b).
Proof.
  intros H Hh (q & Hq & Hb). rewrite Hh in Hq. injection Hq as <-. destruct (i_pool _ _ H h p Hh) as [_ (F & Hok)].
  pose proof (po_bases _ _ _ _ _ Hok) as Hn. unfold bases in Hn. apply NoDup_cons in Hn as [Hn _]. rewrite not_elem_of_app in Hn.
  destruct Hn as [Hn1 Hn2]. destruct (po_bs _ _ _ _ _ Hok) as [Hbd Hbs]. destruct Hb as [[Hl ->]|Hov].
  - assert (b ∈ blocks p) as Hbb by (apply (part_blocks _ _ _ _ _ _ Hok); auto).
    destruct (block_region _ _ _ _ _ _ Hok Hbb) as (sl & Hsl & Ho & Hr1 & Hr2 & E & i & _ & ->). exists sl.1, sl.2.
    split_and!; [by apply slab_base|done| |done|done|lia|].
    + intros E'. apply Hn1. rewrite <- E'. apply list_elem_of_fmap. by exists sl.
    + pose proof (po_slabs _ _ _ _ _ Hok) as Hs. rewrite Forall_forall in Hs. destruct (Hs sl Hsl) as (_ & _ & ?).
      apply Z.divide_add_r; [done|]. by apply Z.divide_mul_r.
  - destruct (po_over _ _ _ _ _ Hok b n Hov) as [Ho ?]. exists b, n. destruct (proj1 (i_os _ _ H) b n Ho).
    split_and!; [by eapply over_base|done| |lia..|done].
    intros ->. apply Hn2, list_elem_of_fmap. exists (freeListDummy p, n). split; [done|]. by apply elem_of_map_to_list.
Qed.

Lemma area_dec b n b' n' : {b + n <= b' \/ b' + n' <= b} + {b' < b + n /\ b < b' + n'}.
Proof. destruct (Z_le_dec (b + n) b'), (Z_le_dec (b' + n') b); (left; lia) || (right; lia). Defined.

Lemma owns_disjoint s G h b n h' b' n' : inv s G -> owns s h b n -> owns s h' b' n' -> (h, b) <> (h', b') ->
  b + n <= b' \/ b' + n' <= b.
Proof.
  intros H Ho Ho' Hne. destruct (area_dec b n b' n') as [|[Hov1 Hov2]]; [done|exfalso].
  pose proof Ho as (p & Hp & Hb). pose proof Ho' as (p' & Hp' & Hb').
  destruct (owns_area s G h p b n H Hp Ho) as (base & k & Hb1 & Hk & Hd1 & ? & ? & ? & _).
  destruct (owns_area s G h' p' b' n' H Hp' Ho') as (base' & k' & Hb1' & Hk' & Hd1' & ? & ? & ? & _).
  destruct (decide (base = base')) as [<-|Hbn]; [|destruct (proj2 (i_os _ _ H) _ _ _ _ Hk Hk' Hbn); lia].
  destruct (decide (h = h')) as [<-|Hhn]; [|by apply (i_bases _ _ H h h' p p' base)].
  rewrite Hp in Hp'. injection Hp' as <-. assert (b <> b') as Hbb by congruence.
  destruct (i_pool _ _ H h p Hp) as [_ (F & Hok)]. pose proof (i_os _ _ H) as Hos.
  assert (forall x y m j, x ∈ liveSlabAllocs p -> oversizedAllocs p !! y = Some m -> j = blockSize p -> y < x + j -> x < y + m -> False) as Hmix.
  { intros x y m j Hx Hy -> Hlt1 Hlt2. assert (x ∈ blocks p) as Hxb by (apply (part_blocks _ _ _ _ _ _ Hok); auto).
    destruct (block_region _ _ _ _ _ _ Hok Hxb) as (sl & Hsl & Hso & ? & ? & _). destruct (po_over _ _ _ _ _ Hok y m Hy) as [Hyo _].
    destruct (decide (y = sl.1)) as [->|Hn]; [|destruct (proj2 Hos _ _ _ _ Hyo Hso Hn); lia].
    by apply (slab_not_over p sl m (po_bases _ _ _ _ _ Hok) Hsl). }
  destruct Hb as [[Hl ->]|Hv], Hb' as [[Hl' ->]|Hv'].
  - assert (forall x, x ∈ liveSlabAllocs p -> x ∈ blocks p) as Hlb by (intros x Hx; apply (part_blocks _ _ _ _ _ _ Hok); auto).
    destruct (blocks_sep _ _ _ _ _ _ _ Hos Hok (Hlb _ Hl) (Hlb _ Hl') Hbb); lia.
  - by eapply (Hmix b b' n').
  - eapply (Hmix b' b n); [done..|lia|lia].
  - destruct (po_over _ _ _ _ _ Hok _ _ Hv) as [Ho1 _], (po_over _ _ _ _ _ Hok _ _ Hv') as [Ho2 _].
    destruct (proj2 Hos _ _ _ _ Ho1 Ho2 Hbb); lia.
Qed.

(** What a program may touch holds no sentinel and no free block. *)
Lemma owns_meta s G h b n h' p' a : inv s G -> owns s h b n -> b <= a < b + n -> pools_ s !! h' = Some p' ->
  a <> freeListDummy p' /\ (a ∈ blocks p' -> a ∈ liveSlabAllocs p').
Proof.
  intros H Ho Ha Hp'. pose proof Ho as (p & Hp & Hb). pose proof (i_os _ _ H) as Hos.
  destruct (owns_area s G h p b n H Hp Ho) as (base & k & Hb1 & Hk & Hd & Hr1 & Hr2 & _ & _).
  destruct (i_pool _ _ H h' p' Hp') as [_ (F & Hok)].
  assert (forall base' k', base' ∈ bases p' -> os s !! base' = Some k' -> base' <= a < base' + k' -> base = base' /\ h = h') as Hsame.
  { intros base' k' Hb' Hk' Ha'. destruct (decide (base = base')) as [<-|Hn]; [|destruct (proj2 Hos _ _ _ _ Hk Hk' Hn); lia].
    split; [done|]. destruct (decide (h = h')) as [|Hn]; [done|]. by destruct (i_bases _ _ H h h' p p' base Hp Hp' Hn Hb1). }
  split.
  - intros ->. destruct (Hsame (freeListDummy p') 8) as [E E']; [left|apply Hok|lia|]. subst. congruence.
  - intros Hab. destruct (tracked_inside _ _ _ _ _ a Hok) as (b1 & k1 & Hb1' & Hk1 & Hr); [by right|].
    destruct (Hsame b1 k1 Hb1' Hk1 Hr) as [<- <-]. rewrite Hp in Hp'. injection Hp' as <-.
    destruct (decide (a ∈ liveSlabAllocs p)) as [|Hnl]; [done|exfalso].
    destruct Hb as [[Hl ->]|Hv].
    + assert (b ∈ blocks p) as Hbb by (apply (part_blocks _ _ _ _ _ _ Hok); auto).
      assert (a <> b) as Hne by congruence. destruct (blocks_sep _ _ _ _ _ _ _ Hos Hok Hab Hbb Hne); lia.
    + destruct (block_region _ _ _ _ _ _ Hok Hab) as (sl & Hsl & Hso & ? & ? & _). destruct (po_over _ _ _ _ _ Hok _ _ Hv) as [Hvo _].
      destruct (po_bs _ _ _ _ _ Hok) as [_ ?].
      destruct (decide (b = sl.1)) as [->|Hn]; [|destruct (proj2 Hos _ _ _ _ Hvo Hso Hn); lia].
      by apply (slab_not_over p sl n (po_bases _ _ _ _ _ Hok) Hsl).
Qed.

(** ** The operations, as a program sees them *)

Definition usableIn (p : MemoryPool) (b : Z) : option Z :=
  if decide (b ∈ liveSlabAllocs p) then Some (blockSize p) else oversizedAllocs p !! b.

Lemma usable_in s h b p : pools_ s !! h = Some p -> usable s h b = usableIn p b.
Proof. intros Hh. unfold usable. by rewrite Hh. Qed.

Lemma usable_set s s' h p' : pools_ s' = <[h := p']> (pools_ s) ->
  forall h' b, usable s' h' b = if decide (h' = h) then usableIn p' b else usable s h' b.
Proof.
  intros Hp h' b. unfold usable at 1. rewrite Hp. case_decide as E; [subst; by rewrite lookup_insert_eq|].
  by rewrite lookup_insert_ne.
Qed.

(** Handing out [n] bytes at [b]. *)
Definition handed (s s' : t) (h b n : Z) : Prop :=
  usable s h b = None /\ (forall h' x, usable s' h' x = if decide (h' = h /\ x = b) then Some n else usable s h' x).

Lemma handed_frame s G s' G' h p b n : inv s G -> inv s' G' -> pools_ s !! h = Some p -> handed s s' h b n ->
  (forall x base k, x <> freeListDummy p -> (x < b \/ b + n <= x) -> os s !! base = Some k -> base <= x < base + k ->
    read (mem s') x = read (mem s) x) ->
  forall h' b' n' x, usable s h' b' = Some n' -> b' <= x < b' + n' ->
    read (mem s') x = read (mem s) x /\ (x < b \/ b + n <= x).
Proof.
  intros H H' Hh [Hn Hu] Hm h' b' n' x Hx Hr. apply (owns_usable s G h' b' n' H) in Hx as Hox.
  assert ((h, b) <> (h', b')) as Hne by (intros [= <- <-]; congruence).
  assert (owns s' h' b' n') as Ho' by (apply (owns_usable s' G' _ _ _ H'); rewrite Hu, decide_False; [done|naive_solver]).
  assert (owns s' h b n) as Ho by (apply (owns_usable s' G' _ _ _ H'); by rewrite Hu, decide_True).
  pose proof (owns_disjoint _ _ _ _ _ _ _ _ H' Ho Ho' Hne) as Hd. split; [|lia].
  pose proof Hox as (q & Hq & _). destruct (owns_area s G h' q b' n' H Hq Hox) as (base & k & _ & Hk & _ & ? & ? & _).
  apply (Hm x base k); [|lia|done|lia]. by apply (owns_meta s G h' b' n' h p x).
Qed.

Lemma handed_block s G' s' h p p1 b : inv s' G' -> pools_ s !! h = Some p ->
  pools_ s' = <[h := take_block p1 b]> (pools_ s) -> blockSize p1 = blockSize p -> liveSlabAllocs p1 = liveSlabAllocs p ->
  oversizedAllocs p1 = oversizedAllocs p -> b ∉ liveSlabAllocs p -> handed s s' h b (blockSize p).
Proof.
  intros H' Hh Hp Eb El Eo Hb. assert (pools_ s' !! h = Some (take_block p1 b)) as Hq by (by rewrite Hp, lookup_insert_eq).
  split.
  - rewrite (usable_in s h b p Hh). unfold usableIn. rewrite decide_False by done.
    pose proof (live_not_over s' G' h _ b H' Hq) as Hn. cbn in Hn. rewrite <- Eo. apply Hn. set_solver.
  - intros h' x. rewrite (usable_set s s' h _ Hp). destruct (decide (h' = h)) as [->|Hn]; [|rewrite decide_False; [done|tauto]].
    rewrite (usable_in s h x p Hh). unfold usableIn. cbn. rewrite El, Eb, Eo.
    destruct (decide (x = b)) as [->|Hx].
    + rewrite decide_True by set_solver. by rewrite decide_True.
    + rewrite (decide_False (P := h = h /\ x = b)) by tauto. apply decide_ext. set_solver.
Qed.

Lemma handed_over s G' s' h p b n : inv s' G' -> pools_ s !! h = Some p -> oversizedAllocs p !! b = None ->
  pools_ s' = <[h := count_alloc (with_allocs p (<[b := n]> (oversizedAllocs p)) (liveSlabAllocs p)) n]> (pools_ s) ->
  handed s s' h b n.
Proof.
  intros H' Hh Hb Hp. assert (b ∉ liveSlabAllocs p) as Hl.
  { intros Hl. pose proof (live_not_over s' G' h _ b H' ltac:(by rewrite Hp, lookup_insert_eq) Hl) as Hn.
    cbn in Hn. by rewrite lookup_insert_eq in Hn. }
  split.
  - rewrite (usable_in s h b p Hh). unfold usableIn. by rewrite decide_False.
  - intros h' x. rewrite (usable_set s s' h _ Hp). destruct (decide (h' = h)) as [->|Hn]; [|rewrite decide_False; [done|tauto]].
    rewrite (usable_in s h x p Hh). unfold usableIn. cbn. destruct (decide (x = b)) as [->|Hx].
    + rewrite decide_False by done. rewrite lookup_insert_eq. by rewrite decide_True.
    + rewrite (decide_False (P := h = h /\ x = b)) by tauto. by rewrite lookup_insert_ne.
Qed.

(** *** Allocation *)

Definition allocSize (p : MemoryPool) (size : Z) : Z := if blockSize p <? size then align64 size else blockSize p.

(** Success: fresh, zeroed memory, and nothing in use changes. *)
Definition allocated (s s' : t) (h b n : Z) : Prop :=
  (64 | b) /\ handed s s' h b n /\ (forall x, b <= x < b + n -> read (mem s') x = 0) /\
  (forall h' b' n' x, usable s h' b' = Some n' -> b' <= x < b' + n' ->
    read (mem s') x = read (mem s) x /\ (x < b \/ b + n <= x)).

Lemma allocated_intro s G s' G' h p b n : inv s G -> inv s' G' -> pools_ s !! h = Some p -> handed s s' h b n ->
  (forall x, b <= x < b + n -> read (mem s') x = 0) ->
  (forall x base k, x <> freeListDummy p -> (x < b \/ b + n <= x) -> os s !! base = Some k -> base <= x < base + k ->
    read (mem s') x = read (mem s) x) -> allocated s s' h b n.
Proof.
  intros H H' Hh Hhd Hz Hf. split_and!; [|done..|by eapply handed_frame].
  assert (owns s' h b n) as Ho by (apply (owns_usable s' G' _ _ _ H'); rewrite (proj2 Hhd); by rewrite decide_True).
  pose proof Ho as (q & Hq & _). by destruct (owns_area s' G' h q b n H' Hq Ho) as (? & ? & ? & ? & ? & ? & ? & ? & ?).
Qed.

Lemma tlsPop_spec s G thr h p sz s' b : inv s G -> pools_ s !! h = Some p -> tlsPop s thr h sz = Some (s', b) ->
  exists G', inv s' G' /\ allocated s s' h b (blockSize p) /\ sz <= blockSize p.
Proof.
  intros H Hh Hpop. destruct (tlsPop_inv s G thr h p sz s' b H Hh Hpop) as (G' & H' & Hp & Hb & _ & Hsz & Hz).
  exists G'. split; [done|]. split; [|done]. eapply allocated_intro; [done..| |done|].
  - by eapply (handed_block s G' s' h p p).
  - intros x base k _ Hx _ _. revert Hpop. unfold tlsPop. destruct (_ && _ && _) eqn:E; [|done].
    destruct (0 <? count _) eqn:Ec; [|done]. cbn [set_tls set_mem pools_]. rewrite Hh. intros [= <- <-].
    apply read_clear_out. apply andb_true_iff in E as [[E1%Z.ltb_lt _]%andb_true_iff _].
    destruct (tls_alive s G h p thr H Hh) as (_ & _ & _ & _ & [Eb|[Eb _]]); [|lia]. rewrite Eb in *. done.
Qed.

Lemma dequeue_spec s G h p m p1 b : inv s G -> pools_ s !! h = Some p -> dequeue (mem s) p = Some (m, p1, b) ->
  let s' := set_pool (set_mem s (clear b (blockSize p1) m)) h (take_block p1 b) in
  inv s' G /\ allocated s s' h b (blockSize p).
Proof.
  intros H Hh Hdq s'. destruct (dequeue_inv s G h p m p1 b H Hh Hdq) as (H' & Hb & _ & Eb & El & Eo). split; [done|].
  eapply allocated_intro; [done..| | |].
  - by eapply (handed_block s G s' h p p1).
  - intros x Hx. cbn. apply read_clear_in. by rewrite Eb.
  - intros x base k Hd Hx _ _. cbn. rewrite Eb, read_clear_out by done. destruct (i_pool _ _ H h p Hh) as [_ (F & Hok)].
    unfold dequeue in Hdq. rewrite (po_head _ _ _ _ _ Hok) in Hdq. cbv zeta in Hdq. destruct (_ =? 0); [done|].
    injection Hdq as <- _ _. by apply read_write_ne.
Qed.

Lemma newSlab_spec s G h p a s1 p1 : inv s G -> pools_ s !! h = Some p -> dequeue (mem s) p = None ->
  region_free s a (64 * blockSize p) -> (64 | a) -> newSlab s h p a = (s1, p1) ->
  let s' := set_pool (set_mem s1 (clear a (blockSize p1) (mem s1))) h (take_block p1 a) in
  inv s' G /\ allocated s s' h a (blockSize p).
Proof.
  intros H Hh Hdq Hfree Ha Hns s'. destruct (newSlab_inv s G h p a s1 p1 H Hh Hdq Hfree Ha Hns) as (H' & Hb & Hp & Eb & El & Eo).
  split; [done|]. eapply allocated_intro; [done..| | |].
  - eapply (handed_block s G s' h p p1); try done. cbn. by rewrite Hp.
  - intros x Hx. cbn. apply read_clear_in. by rewrite Eb.
  - intros x base k Hd Hx Ho Hr. cbn. rewrite Eb, read_clear_out by done. destruct Hfree as (Ha0 & Hn0 & Hf).
    destruct (i_pool _ _ H h p Hh) as [_ (F & Hok)]. destruct (po_bs _ _ _ _ _ Hok) as [_ Hbs].
    assert (freeListTail p = freeListDummy p) as Ht.
    { unfold dequeue in Hdq. rewrite (po_head _ _ _ _ _ Hok) in Hdq. pose proof (po_list _ _ _ _ _ Hok) as Hl.
      pose proof (po_tail _ _ _ _ _ Hok) as Ht. destruct F as [|c F]; [simpl in Ht; congruence|].
      destruct Hl as (Hc & Hc0 & _). rewrite Hc in Hdq. cbv zeta in Hdq. by rewrite (proj2 (Z.eqb_neq c 0) Hc0) in Hdq. }
    revert Hns. unfold newSlab. cbv zeta. cbn [os_alloc with_slabs blockSize mem].
    pose proof (carve_spec 62 (a + blockSize p) (blockSize p) (write (a + blockSize p) 0 (mem s)) ltac:(lia) ltac:(lia) (read_write_eq _ _ _)) as Hcv.
    destruct (carve _ _ _ _) as [m tl]. destruct Hcv as (_ & _ & Hout). intros [= <- _]. cbn.
    rewrite read_write_ne by (rewrite Ht; congruence). rewrite Hout.
    + apply read_write_ne. destruct (Hf base k Ho); lia.
    + intros (i & Hi & E)%elem_of_nodes. destruct (Hf base k Ho); nia.
Qed.

Lemma oversized_spec s G h p a n : inv s G -> pools_ s !! h = Some p -> region_free s a n -> (64 | a) ->
  let s' := set_pool (os_alloc (set_mem s (clear a n (mem s))) a n) h
    (count_alloc (with_allocs p (<[a := n]> (oversizedAllocs p)) (liveSlabAllocs p)) n) in
  inv s' G /\ allocated s s' h a n.
Proof.
  intros H Hh Hfree Ha s'. destruct (oversized_inv s G h p a n H Hh Hfree Ha) as [H' Hov]. split; [done|].
  eapply allocated_intro; [done..| | |].
  - by eapply (handed_over s G s' h p).
  - intros x Hx. by apply read_clear_in.
  - intros x base k _ Hx _ _. by apply read_clear_out.
Qed.

(** The whole of [allocateFromPool]. *)
Lemma alloc_spec s G thr h size mem_ : inv s G -> op_ok s (Allocate thr h size mem_) ->
  let '(s', r, b) := allocateFromPool s thr h size mem_ in exists G', inv s' G' /\
  match pools_ s !! h with
  | None => r = ERR_INVALID_VALUE /\ pools_ s' = pools_ s /\ mem s' = mem s
  | Some p => r = ERR_OUT_OF_MEMORY /\ mem_ = None /\ pools_ s' = pools_ s /\ mem s' = mem s \/
      r = SUCCESS /\ size <= allocSize p size /\ allocated s s' h b (allocSize p size)
  end.
Proof.
  intros H (Hsz & Hok). unfold allocateFromPool. destruct (pools_ s !! h) as [p|] eqn:Hh.
  2: { rewrite (tls_dead_pop s G h thr size H Hh). cbv zeta. destruct (set_tls_inv s G thr h H) as [G' H'].
    cbn [set_tls pools_]. rewrite Hh. by exists G'. }
  destruct (tlsPop s thr h size) as [[s' b]|] eqn:Hpop.
  { destruct (tlsPop_spec s G thr h p size s' b H Hh Hpop) as (G' & H' & Ha & Hle). exists G'. split; [done|]. right.
    unfold allocSize. rewrite (proj2 (Z.ltb_ge _ _) Hle). done. }
  destruct (set_tls_inv s G thr h H) as [G1 H1]. cbv zeta. set (s1 := set_tls s thr h (tlsEntry s thr h)) in *.
  assert (pools_ s1 !! h = Some p) as Hh1 by exact Hh. rewrite Hh1.
  assert (forall s' b n, allocated s1 s' h b n -> allocated s s' h b n) as Hbase by (intros s' b n Ha; exact Ha).
  unfold osSize in Hok. unfold allocSize. destruct (Z.ltb_spec (blockSize p) size) as [Hlt|Hge].
  - destruct (align64_spec size) as [_ Hal]; [lia|]. destruct mem_ as [a|].
    + destruct Hok as [Hfree Ha]. destruct (oversized_spec s1 G1 h p a (align64 size) H1 Hh1 Hfree Ha) as [H2 Hal2].
      exists G1. split; [exact H2|]. right. split; [done|]. split; [lia|exact Hal2].
    + exists G1. split; [done|]. by left.
  - destruct (dequeue (mem s1) p) as [[[m p1] b]|] eqn:Hdq.
    + destruct (dequeue_spec s1 G1 h p m p1 b H1 Hh1 Hdq) as [H2 Ha]. exists G1. split; [exact H2|]. right.
      split; [done|]. split; [done|exact Ha].
    + destruct mem_ as [a|].
      * destruct Hok as [Hfree Ha]. destruct (newSlab s1 h p a) as [s2 p2] eqn:Hns.
        destruct (newSlab_spec s1 G1 h p a s2 p2 H1 Hh1 Hdq Hfree Ha Hns) as [H2 Hal2]. exists G1. split; [exact H2|]. right.
        split; [done|]. split; [done|exact Hal2].
      * exists G1. split; [done|]. by left.
Qed.

(** *** Release *)

(** Nothing in use changes, except that [b] is given back. *)
Definition released (s s' : t) (h b : Z) : Prop :=
  (forall h' x, usable s' h' x = if decide (h' = h /\ x = b) then None else usable s h' x) /\
  (forall h' b' n' x, usable s' h' b' = Some n' -> b' <= x < b' + n' -> read (mem s') x = read (mem s) x).

Lemma released_frame s G s' h p b : inv s G -> pools_ s !! h = Some p ->
  (forall h' x, usable s' h' x = if decide (h' = h /\ x = b) then None else usable s h' x) ->
  (forall x, x <> freeListTail p -> x <> b -> read (mem s') x = read (mem s) x) ->
  is_Some (usable s h b) -> released s s' h b.
Proof.
  intros H Hh Hu Hm [n Hn]. split; [done|]. intros h' b' n' x Hx Hr. rewrite Hu in Hx. case_decide as E; [done|].
  apply (owns_usable s G h' b' n' H) in Hx as Ho'. apply (owns_usable s G h b n H) in Hn as Ho.
  assert ((h, b) <> (h', b')) as Hne by (intros [= <- <-]; tauto).
  pose proof (owns_disjoint _ _ _ _ _ _ _ _ H Ho Ho' Hne) as Hd.
  destruct (owns_area s G h p b n H Hh Ho) as (_ & _ & _ & _ & _ & _ & _ & Hpos & _).
  destruct (owns_meta s G h' b' n' h p x H Ho' Hr Hh) as [Hxd Hxb]. apply Hm; [|lia].
  intros ->. destruct (i_pool _ _ H h p Hh) as [_ (F & Hok)]. pose proof (po_tail _ _ _ _ _ Hok) as Ht.
  apply last_Some_elem_of, elem_of_cons in Ht as [Ht|Ht]; [done|].
  assert (freeListTail p ∈ liveSlabAllocs p) as Hl by (apply Hxb, (part_blocks _ _ _ _ _ _ Hok); auto).
  pose proof (part_NoDup _ _ _ _ _ (i_os _ _ H) Hok) as Hnd. apply NoDup_cons in Hnd as [_ Hnd].
  apply NoDup_app in Hnd as (_ & Hnd & _). apply (Hnd _ Ht). rewrite elem_of_app, elem_of_elements. by right.
Qed.

Lemma usable_release s s' h p b tl : pools_ s !! h = Some p -> oversizedAllocs p !! b = None ->
  pools_ s' = <[h := release_block (with_queue p tl) b]> (pools_ s) ->
  forall h' x, usable s' h' x = if decide (h' = h /\ x = b) then None else usable s h' x.
Proof.
  intros Hh Hb Hp h' x. rewrite (usable_set s s' h _ Hp). destruct (decide (h' = h)) as [->|Hn]; [|rewrite decide_False; [done|tauto]].
  rewrite (usable_in s h x p Hh). unfold usableIn. cbn. destruct (decide (x = b)) as [->|Hx].
  - rewrite decide_False by set_solver. by rewrite decide_True.
  - rewrite (decide_False (P := h = h /\ x = b)) by tauto. apply decide_ext. set_solver.
Qed.

(** The whole of [freeToPool]: it accepts exactly what the program was given. *)
Lemma free_spec depth s G thr h ptr : inv s G -> let '(s', r) := freeToPool depth s thr h ptr in exists G', inv s' G' /\
  match pools_ s !! h with
  | None => r = ERR_INVALID_VALUE /\ s' = s
  | Some _ => if ptr =? 0 then r = SUCCESS /\ s' = s else
      match usable s h ptr with
      | None => r = ERR_INVALID_VALUE /\ s' = s
      | Some _ => r = SUCCESS /\ released s s' h ptr
      end
  end.
Proof.
  intros H. unfold freeToPool. destruct (pools_ s !! h) as [p|] eqn:Hh; [|by exists G].
  destruct (Z.eqb_spec ptr 0) as [->|Hp0]; [by exists G|]. rewrite (usable_in s h ptr p Hh).
  pose proof (usable_in s h ptr p Hh) as Hus. unfold usableIn in Hus |- *.
  destruct (oversizedAllocs p !! ptr) as [sz|] eqn:Hov.
  - pose proof (freeOversized_inv s G h p ptr sz H Hh Hov) as H'. eexists. split; [exact H'|].
    assert (ptr ∉ liveSlabAllocs p) as Hl by (intros Hl; by rewrite (live_not_over s G h p ptr H Hh Hl) in Hov).
    rewrite decide_False by done. split; [done|]. eapply (released_frame s G); [done|done| |done|].
    + intros h' x. erewrite usable_set by done. destruct (decide (h' = h)) as [->|Hn]; [|rewrite decide_False; [done|tauto]].
      rewrite (usable_in s h x p Hh). unfold usableIn. cbn. destruct (decide (x = ptr)) as [->|Hx].
      * rewrite decide_False by done. rewrite lookup_delete_eq. by rewrite decide_True.
      * rewrite (decide_False (P := h = h /\ x = ptr)) by tauto. by rewrite lookup_delete_ne.
    + rewrite Hus, decide_False by done. rewrite ?Hov. by eexists.
  - destruct (bool_decide_reflect (ptr ∈ liveSlabAllocs p)) as [Hl|Hl]; cbn [negb]; [|rewrite decide_False by done; by exists G].
    rewrite decide_True in Hus |- * by done. cbv zeta.
    change (blockSize (with_allocs p (oversizedAllocs p) (liveSlabAllocs p ∖ {[ptr]}))) with (blockSize p).
    pose proof (usable_release s) as Hur. assert (is_Some (usable s h ptr)) as Hsome by (rewrite Hus; by eexists).
    destruct (blockSize p <=? kTlsMaxBlockSz); [destruct (count _ <? depth)|].
    + pose proof (tlsPush_inv s G thr h p ptr H Hh Hl) as Hi. cbv zeta in Hi. destruct Hi as [G' H']. exists G'. split; [exact H'|]. split; [done|].
      eapply (released_frame s G); [done|done| | |done].
      * eapply (Hur _ h p ptr (freeListTail p) Hh Hov). by rewrite with_queue_same.
      * intros x _ Hx. by apply read_write_ne.
    + pose proof (enqueue_tls_inv s G thr h p ptr H Hh Hl) as Hi. cbv zeta in Hi. destruct Hi as [G' H']. exists G'. split; [exact H'|]. split; [done|].
      eapply (released_frame s G); [done|done| | |done].
      * by eapply (Hur _ h p ptr ptr Hh Hov).
      * intros x Hx1 Hx2. cbn. rewrite !read_write_ne by congruence. done.
    + exists G. split; [exact (enqueue_inv s G h p ptr H Hh Hl)|]. split; [done|]. eapply (released_frame s G); [done|done| | |done].
      * by eapply (Hur _ h p ptr ptr Hh Hov).
      * intros x Hx1 Hx2. cbn. rewrite !read_write_ne by congruence. done.
Qed.

(** *** Every call preserves the invariant *)

Lemma queue_length m osr p F C : pool_ok m osr p F C -> (length F <= 64 * length (slabList p))%nat.
Proof.
  intros H. pose proof (Permutation_length (po_part _ _ _ _ _ H)) as Hl. rewrite length_app in Hl.
  assert (length (blocks p) = 64 * length (slabList p))%nat as Hb; [|lia].
  unfold blocks. induction (slabList p) as [|sl l IH]; [done|]. cbn [mbind list_bind].
  rewrite length_app, IH. unfold slabBlocks, nodes. rewrite length_fmap, length_seqZ. cbn [length]. lia.
Qed.

Lemma trimFuel_enough m osr s h p F C : pools_ s !! h = Some p -> pool_ok m osr p F C -> (length F < trimFuel s h)%nat.
Proof. intros Hh Hok. unfold trimFuel. rewrite Hh. cbn. pose proof (queue_length _ _ _ _ _ Hok). lia. Qed.

#[export] Instance reservedBytes_perm : Proper (Permutation ==> eq) reservedBytes.
Proof.
  unfold reservedBytes. intros l l' Hp. induction Hp as [|x l l' _ IH|x y l|l l' l'' _ IH1 _ IH2]; simpl; [done|lia|lia|congruence].
Qed.

Lemma reservedBytes_app l l' : reservedBytes (l ++ l') = reservedBytes l + reservedBytes l'.
Proof. unfold reservedBytes. induction l as [|x l IH]; simpl; [done|lia]. Qed.

Lemma reservedBytes_filter R l : sublist R l -> NoDup l ->
  reservedBytes (filter (fun sl => sl ∉ R) l) = reservedBytes l - reservedBytes R.
Proof.
  intros HR Hn. assert (l ≡ₚ R ++ filter (fun sl => sl ∉ R) l) as Hp.
  { apply NoDup_Permutation; [done| |].
    - apply NoDup_app. split_and!; [by eapply sublist_NoDup| |by apply NoDup_filter].
      intros x Hx [Hx' _]%list_elem_of_filter. done.
    - intros x. rewrite elem_of_app, list_elem_of_filter. split.
      + intros Hx. destruct (decide (x ∈ R)); [by left|by right].
      + intros [Hx|[_ Hx]]; [by eapply elem_of_sublist|done]. }
  rewrite Hp at 2. rewrite reservedBytes_app. lia.
Qed.

(** The released slabs leave what is in use alone. *)
Lemma trim_frame s G h p F R ranges : inv s G -> pools_ s !! h = Some p -> pool_ok (mem s) (os s) p F (stacksOf G h) ->
  sublist R (slabList p) -> Forall (fullyFree (blockSize p) F) R ->
  let keep := filter (fun b => dropped R b = false) F in
  let s0 := free_all (set_mem s (relink (freeListDummy p) keep (write (freeListDummy p) 0 (mem s)))) R in
  let s' := set_pool s0 h (trimmed p R keep ranges) in
  pools_ s' = <[h := trimmed p R keep ranges]> (pools_ s) /\ (forall h' x, usable s' h' x = usable s h' x) /\
  (forall h' b n x, usable s h' b = Some n -> b <= x < b + n -> read (mem s') x = read (mem s) x) /\
  (forall a n, os s' !! a = Some n -> os s !! a = Some n).
Proof.
  intros H Hh Hok HR Hf keep s0 s'. set (m' := relink (freeListDummy p) keep (write (freeListDummy p) 0 (mem s))) in *.
  destruct (free_all_spec (set_mem s m') R) as (Em & Ep & _ & _ & _ & Ho1 & Ho2 & _). fold s0 in Em, Ep, Ho1, Ho2.
  assert (pools_ s' = <[h := trimmed p R keep ranges]> (pools_ s)) as Hp by (cbn; by rewrite Ep). split_and!; [done|..].
  - intros h' x. erewrite usable_set by done. destruct (decide (h' = h)) as [->|]; [|done]. by rewrite (usable_in s h x p Hh).
  - intros h' b n x Hx Hr. apply (owns_usable s G h' b n H) in Hx. destruct (owns_meta s G h' b n h p x H Hx Hr Hh) as [Hxd Hxb].
    cbn. rewrite Em. destruct (trimmed_ok (mem s) (os s) (os s0) p F (stacksOf G h) R ranges (i_os _ _ H) Hok HR Hf Ho1) as (_ & Hfr & _).
    fold keep m' in Hfr. apply Hfr. apply not_elem_of_cons. split; [done|]. intros [_ Hk]%list_elem_of_filter.
    assert (x ∈ liveSlabAllocs p) as Hl by (apply Hxb, (part_blocks _ _ _ _ _ _ Hok); auto).
    pose proof (part_NoDup _ _ _ _ _ (i_os _ _ H) Hok) as Hnd. apply NoDup_cons in Hnd as [_ Hnd].
    apply NoDup_app in Hnd as (_ & Hnd & _). apply (Hnd _ Hk). rewrite elem_of_app, elem_of_elements. by right.
  - intros a n Ha. by destruct (Ho2 a n Ha).
Qed.

(** [trimPool] finishes, keeps what is in use, and keeps as much memory as it is told to. *)
Lemma trim_total s G h mb p F : inv s G -> pools_ s !! h = Some p -> pool_ok (mem s) (os s) p F (stacksOf G h) ->
  let keepTarget := Z.max mb (Z.of_nat (size (liveSlabAllocs p)) * blockSize p) in
  exists s' p', trimPool (trimFuel s h) s h mb = Some (s', SUCCESS) /\ inv s' G /\
  pools_ s' = <[h := p']> (pools_ s) /\ (forall h' x, usable s' h' x = usable s h' x) /\
  (forall h' b n x, usable s h' b = Some n -> b <= x < b + n -> read (mem s') x = read (mem s) x) /\
  sublist (slabList p') (slabList p) /\
  (forall a, os s' !! a = os s !! a \/ exists sl, sl.1 = a /\ sl ∈ slabList p /\ sl ∉ slabList p') /\
  (forall sl, sl ∈ slabList p -> sl ∉ slabList p' -> os s' !! sl.1 = None /\ forall b, b ∈ slabBlocks (blockSize p) sl -> b ∈ F) /\
  (reservedBytes (slabList p) < 2 ^ 64 ->
    Z.min keepTarget (reservedBytes (slabList p)) <= reservedBytes (slabList p') /\
    forall sl, sl ∈ slabList p' -> fullyFree (blockSize p) F sl -> reservedBytes (slabList p') - 64 * blockSize p < keepTarget).
Proof.
  intros H Hh Hok keepTarget.
  pose proof (trim_spec s G h p F _ mb H Hh Hok (trimFuel_enough _ _ s h p F _ Hh Hok)) as Ht. cbv zeta in Ht. fold keepTarget in Ht.
  destruct Ht as [[E Hb]|(R & ranges & HR & Hf & E & Hb)].
  - exists s, p. split_and!; try done; [by rewrite insert_id|intros a; by left|]. intros Hlt. split; [lia|]. intros sl Hsl Hff. apply (Hb (or_intror Hlt) sl Hsl Hff).
  - pose proof (trim_inv s G h p F R ranges H Hh Hok HR Hf) as H'. cbv zeta in H'.
    pose proof (trim_frame s G h p F R ranges H Hh Hok HR Hf) as Hfr. cbv zeta in Hfr. destruct Hfr as (Hp & Hu & Hm & Ho).
    destruct (free_all_spec (set_mem s (relink (freeListDummy p) (filter (fun b => dropped R b = false) F)
      (write (freeListDummy p) 0 (mem s)))) R) as (_ & _ & _ & _ & _ & Ho1 & Ho2 & _).
    assert (forall sl, sl ∈ slabList p -> sl ∉ slabList (trimmed p R (filter (fun b => dropped R b = false) F) ranges) <-> sl ∈ R) as Hgone.
    { intros sl Hsl. cbn [trimmed with_slabs with_queue slabList]. rewrite list_elem_of_filter. destruct (decide (sl ∈ R)); tauto. }
    eexists _, _. split; [exact E|]. split; [exact H'|]. split; [exact Hp|]. split; [exact Hu|]. split; [exact Hm|].
    split; [apply sublist_filter|]. split; [|split].
    { intros a. destruct (decide (a ∈ R.*1)) as [(sl & -> & Hsl)%list_elem_of_fmap|Ha]; [right|left; by apply Ho1].
      assert (sl ∈ slabList p) by (by eapply elem_of_sublist). exists sl. split; [done|]. split; [done|]. by apply Hgone. }
    { intros sl Hsl HslR%Hgone; [|done]. split.
      - apply eq_None_not_Some. intros [n Hn]. destruct (Ho2 _ _ Hn) as [_ Hx]. apply Hx, list_elem_of_fmap. by exists sl.
      - intros b Hb'. rewrite Forall_forall in Hf. eapply fullyFree_all; [apply H|done|exact Hsl|by apply Hf|done]. }
    intros Hlt. destruct (Hb Hlt) as [Hb1 Hb2]. cbn [trimmed with_slabs with_queue slabList]. rewrite reservedBytes_filter; [|done|].
    2: { pose proof (po_bases _ _ _ _ _ Hok) as Hn. unfold bases in Hn. apply NoDup_cons in Hn as [_ Hn].
      apply NoDup_app in Hn as [Hn _]. by eapply NoDup_fmap_1. }
    split; [lia|]. intros sl [Hn Hsl]%list_elem_of_filter Hff. by apply (Hb2 sl).
Qed.

Lemma update_inv s G h f : inv s G -> (forall p, pools_ s !! h = Some p -> inv (set_pool s h (f p)) G) ->
  inv (update_pool s h f).1 G.
Proof. intros H Hf. unfold update_pool. destruct (pools_ s !! h) as [p|] eqn:Hh; [by apply Hf|done]. Qed.

Lemma exec_inv depth s G o : inv s G -> op_ok s o -> exists s' G', exec depth s o = Some s' /\ inv s' G'.
Proof.
  intros H Ho. destruct o as [bs dummy|h|thr h size mem_|thr h ptr|h mb|h b off v|h v|h a b c|h d f]; cbn [exec].
  - destruct Ho as (? & ? & ?). destruct (createPool_inv s G bs dummy) as [G' H']; [done..|]. by eexists _, G'.
  - destruct (destroyPool_inv s G h H) as [G' H']. by eexists _, G'.
  - pose proof (alloc_spec s G thr h size mem_ H Ho) as Ha. destruct (allocateFromPool s thr h size mem_) as [[s' r] b].
    destruct Ha as (G' & H' & _). by exists s', G'.
  - pose proof (free_spec depth s G thr h ptr H) as Hf. destruct (freeToPool depth s thr h ptr) as [s' r].
    destruct Hf as (G' & H' & _). by exists s', G'.
  - destruct (pools_ s !! h) as [p|] eqn:Hh; [|exists s, G; unfold trimPool; by rewrite Hh].
    destruct (i_pool _ _ H h p Hh) as [_ (F & Hok)].
    destruct (trim_total s G h mb p F H Hh Hok) as (s' & p' & E & H' & _). rewrite E. by exists s', G.
  - cbn [op_ok] in Ho. destruct (usable s h b) as [n|] eqn:Hu; [|done]. apply (owns_usable s G h b n H) in Hu.
    eexists _, G. split; [done|]. apply write_inv; [done|]. intros h' p Hp. by apply (owns_meta s G h b n h' p (b + off) H Hu ltac:(lia)).
  - eexists _, G. split; [done|]. apply update_inv; [done|]. intros p Hp. by apply attrs_inv.
  - eexists _, G. split; [done|]. apply update_inv; [done|]. intros p Hp. by apply attrs_inv.
  - eexists _, G. split; [done|]. apply update_inv; [done|]. intros p Hp. by apply attrs_inv.
Qed.

Lemma init_inv m : inv (init m) ∅.
Proof.
  split; try done; cbn [init pools_ t_cache nextPoolId_ os usedMemory_].
  intros h Hr. unfold poolGen. cbn [init g_poolGen]. rewrite lookup_empty. cbn [default].
  rewrite bool_decide_eq_false_2; [done|lia].
Qed.

Lemma runs_inv depth l : forall s G, inv s G -> ops_ok depth s l -> exists s' G', run depth s l = Some s' /\ inv s' G'.
Proof.
  induction l as [|o l IH]; intros s G H; [by exists s, G|]. intros [Ho Hl]. cbn [run].
  destruct (exec_inv depth s G o H Ho) as (s1 & G1 & E & H1). rewrite E in Hl |- *. cbn [mbind option_bind]. by eapply IH.
Qed.

(** The states of a program that uses the allocator as it may. *)
Definition reachable (depth : Z) (s : t) : Prop :=
  exists m l, ops_ok depth (init m) l /\ run depth (init m) l = Some s.

Lemma reachable_inv depth s : reachable depth s -> exists G, inv s G.
Proof.
  intros (m & l & Ho & Hr). destruct (runs_inv depth l (init m) ∅ (init_inv m) Ho) as (s' & G & Hr' & H).
  exists G. congruence.
Qed.

(** *** Creation and destruction, as the other pools see them *)

Lemma createPool_usable s G bs dummy : inv s G -> region_free s dummy 8 -> let s' := (createPool s bs dummy).1 in
  (forall h x, usable s' h x = usable s h x) /\
  (forall h b n x, usable s h b = Some n -> b <= x < b + n -> read (mem s') x = read (mem s) x).
Proof.
  intros H Hf s'. split.
  - intros h x. erewrite usable_set by done. destruct (decide (h = nextPoolId_ s)) as [->|]; [|done].
    unfold usable. destruct (pools_ s !! nextPoolId_ s) as [p|] eqn:E; [destruct (i_pool _ _ H _ _ E); lia|done].
  - intros h b n x Hu Hr. apply (owns_usable s G h b n H) in Hu. pose proof Hu as (p & Hp & _).
    destruct (owns_area s G h p b n H Hp Hu) as (base & k & _ & Hk & _ & ? & ? & _).
    apply read_write_ne. destruct Hf as (_ & _ & Hf). destruct (Hf base k Hk); lia.
Qed.

Lemma destroyPool_usable s h : let s' := (destroyPool s h).1 in
  (forall h' x, usable s' h' x = usable s h' x) /\ mem s' = mem s.
Proof.
  unfold destroyPool. destruct (pools_ s !! h) as [p|] eqn:Hh; [|done].
  destruct (_ || _) eqn:E; [done|]. apply orb_false_iff in E as [E1 E2].
  apply negb_false_iff, bool_decide_eq_true in E1, E2. cbn [fst]. fold (free_all s (slabList p)).
  destruct (free_all_spec s (slabList p)) as (Em & Ep & _). split; [|exact Em].
  intros h' x. unfold usable. cbn [pools_]. rewrite Ep. destruct (decide (h' = h)) as [->|Hn]; [|by rewrite lookup_delete_ne].
  rewrite lookup_delete_eq, Hh. cbn. rewrite E1, E2. by rewrite decide_False by set_solver.
Qed.

Lemma update_usable s h f h' b n : (forall p, liveSlabAllocs (f p) = liveSlabAllocs p /\ oversizedAllocs (f p) = oversizedAllocs p /\
  blockSize (f p) = blockSize p) -> usable s h' b = Some n -> usable (update_pool s h f).1 h' b = Some n.
Proof.
  intros Hf Hu. unfold update_pool. destruct (pools_ s !! h) as [p|] eqn:Hh; [|done]. cbn [fst]. rewrite <- Hu.
  erewrite usable_set by done. destruct (decide (h' = h)) as [->|]; [|done]. rewrite (usable_in s h b p Hh).
  unfold usableIn. destruct (Hf p) as (-> & -> & ->). done.
Qed.

Lemma update_mem s h f : mem (update_pool s h f).1 = mem s.
Proof. unfold update_pool. by destruct (pools_ s !! h). Qed.

(** *** The blocks in the threads' caches *)

(** The first [n] blocks linked from [hd]. *)
Fixpoint stack (n : nat) (m : gmap Z Z) (hd : Z) : list Z :=
  match n with O => [] | S n => hd :: stack n m (read m hd) end.

Definition entryBlocks (s : t) (bs : Z) (e : TlsEntry) : list Z :=
  stack (Z.to_nat (count (classOf e bs))) (mem s) (head (classOf e bs)).

(** The blocks of pool [h] that some thread has cached. *)
Definition cachedBlocks (s : t) (h : Z) : list Z :=
  match pools_ s !! h with
  | Some p => map_to_list (filter (fun kv => kv.1.2 = h) (t_cache s)) ≫= (fun kv => entryBlocks s (blockSize p) kv.2)
  | None => []
  end.

Lemma stack_lst m hd l : lst m hd l -> stack (length l) m hd = l.
Proof. revert hd. induction l as [|b l IH]; intros hd; [done|]. intros (-> & _ & Hl). simpl. by rewrite IH. Qed.

Lemma cachedBlocks_stacks s G h p : inv s G -> pools_ s !! h = Some p -> cachedBlocks s h ≡ₚ stacksOf G h.
Proof.
  intros H Hh. unfold cachedBlocks, stacksOf. rewrite Hh.
  assert (filter (fun kv => kv.1.2 = h) G = entryBlocks s (blockSize p) <$> filter (fun kv => kv.1.2 = h) (t_cache s)) as ->.
  { apply map_eq. intros [thr h']. rewrite lookup_fmap. destruct (decide (h' = h)) as [->|Hn].
    - pose proof (i_tls _ _ H h p thr Hh) as Ht. rewrite !map_lookup_filter. inversion Ht as [e l He E1 E2|E1 E2]; [|done]. cbn.
      rewrite !option_guard_True by done. cbn. f_equal. destruct He as (_ & _ & Hc & Hl & _). unfold entryBlocks.
      rewrite Hc, Nat2Z.id. by rewrite stack_lst.
    - rewrite !(proj2 (map_lookup_filter_None _ _ _)); [done|right; by intros ? _|right; by intros ? _]. }
  rewrite map_to_list_fmap. generalize (map_to_list (filter (fun kv => kv.1.2 = h) (t_cache s))). intros L.
  induction L as [|kv L IH]; [done|]. cbn. by rewrite IH.
Qed.


(** ** Properties *)


(** Allocations that a program holds never overlap, whatever pools they
    came from, and are aligned to 64 bytes. *)
Theorem allocations_disjoint depth s h b n h' b' n' : reachable depth s ->
  usable s h b = Some n -> usable s h' b' = Some n' -> (h, b) <> (h', b') ->
  (64 | b) /\ (b + n <= b' \/ b' + n' <= b).
Proof.
  intros [G H]%reachable_inv Hu Hu' Hne. apply (owns_usable s G _ _ _ H) in Hu, Hu'. split.
  - pose proof Hu as (q & Hq & _). by destruct (owns_area s G h q b n H Hq Hu) as (? & ? & ? & ? & ? & ? & ? & ? & ?).
  - by eapply owns_disjoint.
Qed.

(** C14: within [op_ok], that is for requests of at most 2^50 bytes and a
    program that creates at most 1024 pools (see [huge_request_succeeds] and
    [stale_handle_allocates] for what happens beyond), [allocateFromPool]
    fails on unknown pools, and on known ones only when the system has no
    memory; otherwise it returns at least the requested bytes, zeroed,
    overlapping nothing in use, and changes no byte in use. *)
Theorem allocateFromPool_fresh depth s thr h size mem_ : reachable depth s -> op_ok s (Allocate thr h size mem_) ->
  let '(s', r, b) := allocateFromPool s thr h size mem_ in
  match pools_ s !! h with
  | None => r = ERR_INVALID_VALUE /\ pools_ s' = pools_ s /\ mem s' = mem s
  | Some p =>
      let n := if blockSize p <? size then align64 size else blockSize p in
      r = ERR_OUT_OF_MEMORY /\ mem_ = None /\ pools_ s' = pools_ s /\ mem s' = mem s \/
      r = SUCCESS /\ size <= n /\ (64 | b) /\
      usable s h b = None /\ (forall h' x, usable s' h' x = if decide (h' = h /\ x = b) then Some n else usable s h' x) /\
      (forall x, b <= x < b + n -> read (mem s') x = 0) /\
      (forall h' b' n' x, usable s h' b' = Some n' -> b' <= x < b' + n' ->
         read (mem s') x = read (mem s) x /\ (x < b \/ b + n <= x))
  end.
Proof.
  intros [G H]%reachable_inv Ho. pose proof (alloc_spec s G thr h size mem_ H Ho) as Ha.
  destruct (allocateFromPool s thr h size mem_) as [[s' r] b]. destruct Ha as (G' & _ & Ha).
  destruct (pools_ s !! h) as [p|]; [|done].
  destruct Ha as [Ha|(Hr & Hsz & Hal & [Hn Hu] & Hz & Hf)]; [by left|]. right. done.
Qed.

(** C15: [freeToPool] accepts exactly null and what the program was given from
    that pool; a double free, a foreign or an inner pointer changes nothing.
    After a successful free the pointer is not usable and nothing else in use
    has changed. *)
Theorem freeToPool_exact depth s thr h ptr : reachable depth s ->
  let '(s', r) := freeToPool depth s thr h ptr in
  match pools_ s !! h with
  | None => r = ERR_INVALID_VALUE /\ s' = s
  | Some _ =>
      if ptr =? 0 then r = SUCCESS /\ s' = s else
      match usable s h ptr with
      | None => r = ERR_INVALID_VALUE /\ s' = s
      | Some _ => r = SUCCESS /\
          (forall h' x, usable s' h' x = if decide (h' = h /\ x = ptr) then None else usable s h' x) /\
          (forall h' b' n' x, usable s' h' b' = Some n' -> b' <= x < b' + n' -> read (mem s') x = read (mem s) x)
      end
  end.
Proof.
  intros [G H]%reachable_inv. pose proof (free_spec depth s G thr h ptr H) as Hf.
  destruct (freeToPool depth s thr h ptr) as [s' r]. destruct Hf as (G' & _ & Hf).
  destruct (pools_ s !! h); [|done]. destruct (ptr =? 0); [done|]. destruct (usable s h ptr); [|done]. exact Hf.
Qed.

(** C16: [trimPool] always finishes, and what it gives back to the system are
    exactly the slabs it unlinks: nothing else is released, every block of an
    unlinked slab was in the queue [F], and everything in use keeps its
    contents.  If the reserved bytes are below 2^64, they stay at the target
    or above, and a fully free slab is kept only if releasing it would go
    below.  The states are those of a program within [op_ok]: at most 1024
    pools ever created, sizes of at most 2^50. *)
Theorem trimPool_correct depth s h minBytes p F : reachable depth s -> pools_ s !! h = Some p ->
  walk (trimFuel s h) (mem s) (read (mem s) (freeList p)) = Some F ->
  let keepTarget := Z.max minBytes (Z.of_nat (size (liveSlabAllocs p)) * blockSize p) in
  exists s' p', trimPool (trimFuel s h) s h minBytes = Some (s', SUCCESS) /\ pools_ s' = <[h := p']> (pools_ s) /\
  (forall h' x, usable s' h' x = usable s h' x) /\
  (forall h' b n x, usable s h' b = Some n -> b <= x < b + n -> read (mem s') x = read (mem s) x) /\
  sublist (slabList p') (slabList p) /\
  (forall a, os s' !! a = os s !! a \/ exists sl, sl.1 = a /\ sl ∈ slabList p /\ sl ∉ slabList p') /\
  (forall sl, sl ∈ slabList p -> sl ∉ slabList p' -> os s' !! sl.1 = None /\ forall b, b ∈ slabBlocks (blockSize p) sl -> b ∈ F) /\
  (reservedBytes (slabList p) < 2 ^ 64 ->
    Z.min keepTarget (reservedBytes (slabList p)) <= reservedBytes (slabList p') /\
    forall sl, sl ∈ slabList p' -> (forall b, b ∈ slabBlocks (blockSize p) sl -> b ∈ F) ->
      reservedBytes (slabList p') - 64 * blockSize p < keepTarget).
Proof.
  intros [G H]%reachable_inv Hh Hw. destruct (i_pool _ _ H h p Hh) as [_ (F' & Hok)].
  rewrite (po_head _ _ _ _ _ Hok) in Hw. apply (walk_det _ _ _ F') in Hw as ->; [|apply Hok].
  destruct (trim_total s G h minBytes p F' H Hh Hok) as (s' & p' & E & _ & Hp & Hu & Hm & Hs & Ho & Hgone & Hb).
  exists s', p'. do 7 (split; [done|]). intros Hlt. destruct (Hb Hlt) as [Hb1 Hb2]. split; [done|].
  intros sl Hsl Hall. apply (Hb2 sl Hsl). eapply all_fullyFree; [apply H|done| |done]. by eapply elem_of_sublist.
Qed.

(** C17: within [op_ok] (at most 1024 pools ever created, sizes of at most
    2^50, the program writes only where it may; see [stale_handle_allocates]
    for a program that exceeds the first limit) an allocation stays usable,
    and its contents change only by what the program stores in it, under every
    call but its own [freeToPool]. *)
Theorem allocation_survives depth s o s' h b n : reachable depth s -> op_ok s o -> exec depth s o = Some s' ->
  usable s h b = Some n -> (forall thr, o <> Free thr h b) ->
  usable s' h b = Some n /\
  forall x, b <= x < b + n -> (forall off v, o = Write h b off v -> x <> b + off) -> read (mem s') x = read (mem s) x.
Proof.
  intros [G H]%reachable_inv Ho E Hu Hfree. destruct o as [bs dummy|h'|thr h' size mem_|thr h' ptr|h' mb|h' b' off v|h' v|h' a c d|h' d f];
    cbn [exec] in E.
  - injection E as <-. destruct Ho as (_ & Hf & _). destruct (createPool_usable s G bs dummy H Hf) as [Hu' Hm].
    rewrite Hu'. split; [done|]. intros x Hx _. by eapply Hm.
  - injection E as <-. destruct (destroyPool_usable s h') as [Hu' Hm]. rewrite Hu', Hm. done.
  - pose proof (alloc_spec s G thr h' size mem_ H Ho) as Ha. destruct (allocateFromPool s thr h' size mem_) as [[s1 r] b1].
    cbn in E. injection E as <-. destruct Ha as (_ & _ & Ha).
    assert (pools_ s1 = pools_ s /\ mem s1 = mem s -> usable s1 h b = Some n /\ forall x, b <= x < b + n -> read (mem s1) x = read (mem s) x) as Hsame
      by (intros [Ep ->]; unfold usable; by rewrite Ep).
    destruct (pools_ s !! h'); [destruct Ha as [(_ & _ & Ha)|(_ & _ & _ & [Hn Hu'] & _ & Hm)]|].
    + destruct (Hsame Ha) as [H1 H2]. split; [done|]. intros x Hx _. by apply H2.
    + rewrite Hu', decide_False by (intros [-> ->]; congruence). split; [done|]. intros x Hx _. by destruct (Hm h b n x Hu Hx).
    + destruct (Hsame (proj2 Ha)) as [H1 H2]. split; [done|]. intros x Hx _. by apply H2.
  - pose proof (free_spec depth s G thr h' ptr H) as Hf. destruct (freeToPool depth s thr h' ptr) as [s1 r]. cbn in E. injection E as <-.
    destruct Hf as (_ & _ & Hf). destruct (pools_ s !! h'); [|by destruct Hf as [_ ->]].
    destruct (ptr =? 0); [by destruct Hf as [_ ->]|]. destruct (usable s h' ptr); [|by destruct Hf as [_ ->]].
    destruct Hf as (_ & Hu' & Hm). assert (usable s1 h b = Some n) as Hu1.
    { rewrite Hu', decide_False; [done|]. intros [-> ->]. by apply (Hfree thr). }
    split; [done|]. intros x Hx _. by eapply Hm.
  - destruct (pools_ s !! h') as [p|] eqn:Hh.
    + destruct (i_pool _ _ H h' p Hh) as [_ (F & Hok)].
      destruct (trim_total s G h' mb p F H Hh Hok) as (s1 & p' & E1 & _ & _ & Hu' & Hm & _). rewrite E1 in E. injection E as <-.
      rewrite Hu'. split; [done|]. intros x Hx _. by eapply Hm.
    + unfold trimPool in E. rewrite Hh in E. by injection E as <-.
  - injection E as <-. cbn [op_ok] in Ho. destruct (usable s h' b') as [n'|] eqn:Hu'; [|done].
    split; [done|]. intros x Hx Hw. apply read_write_ne. intros Ex. destruct (decide ((h', b') = (h, b))) as [[= -> ->]|Hne].
    + by apply (Hw off v).
    + apply (owns_usable s G _ _ _ H) in Hu, Hu'. destruct (owns_disjoint _ _ _ _ _ _ _ _ H Hu' Hu Hne); lia.
  - injection E as <-. unfold setPoolReleaseThreshold. split; [by apply update_usable|intros x _ _; by rewrite update_mem].
  - injection E as <-. unfold setPoolReuseFlags. split; [by apply update_usable|intros x _ _; by rewrite update_mem].
  - injection E as <-. unfold setPoolAccess. split; [by apply update_usable|intros x _ _; by rewrite update_mem].
Qed.

(** *** Witnesses *)

(** Thread 7 uses a pool of 64-byte blocks: an oversized allocation, three
    blocks of a fresh slab, one of them freed into the thread's cache. *)
Definition demo : list op :=
  [CreatePool 50 16; Allocate 7 1 100 (Some 32768); Allocate 7 1 64 (Some 4096); Allocate 7 1 10 None; Allocate 8 1 64 None;
   Write 1 4096 8 77; Free 7 1 4160; CreatePool 4096 32].

Definition demoState : t := default (init ∅) (run 8 (init ∅) demo).

Lemma demo_run : run 8 (init ∅) demo = Some demoState.
Proof. reflexivity. Qed.

Lemma demo_reachable : reachable 8 demoState.
Proof. exists ∅, demo. split; [|exact demo_run]. apply (bool_decide_unpack _). vm_compute. exact I. Qed.

Definition demoPool : MemoryPool := default (mkPool 0 0 0 0 0 [] 0 0 0 0 ∅ ∅ [] 0 true true true ∅) (pools_ demoState !! 1).


Lemma allocations_disjoint_witness : usable demoState 1 4096 = Some 64 /\ usable demoState 1 32768 = Some 128 /\
  (4096 + 64 <= 32768 \/ 32768 + 128 <= 4096).
Proof.
  assert (usable demoState 1 4096 = Some 64) as H1 by (vm_compute; reflexivity).
  assert (usable demoState 1 32768 = Some 128) as H2 by (vm_compute; reflexivity).
  split; [exact H1|]. split; [exact H2|].
  apply (allocations_disjoint 8 demoState 1 4096 64 1 32768 128 demo_reachable H1 H2). discriminate.
Defined.

Lemma allocateFromPool_fresh_witness : (allocateFromPool demoState 7 1 60 None).1.2 = SUCCESS /\
  (allocateFromPool demoState 7 1 60 None).2 = 4160 /\ usable demoState 1 4160 = None /\
  read (mem (allocateFromPool demoState 7 1 60 None).1.1) 4168 = 0.
Proof.
  pose proof (allocateFromPool_fresh 8 demoState 7 1 60 None demo_reachable ltac:(apply (bool_decide_unpack _); vm_compute; exact I)) as H.
  destruct (allocateFromPool demoState 7 1 60 None) as [[s' r] b] eqn:E.
  assert (r = SUCCESS) as -> by (transitivity (allocateFromPool demoState 7 1 60 None).1.2; [by rewrite E|vm_compute; reflexivity]).
  assert (b = 4160) as -> by (transitivity (allocateFromPool demoState 7 1 60 None).2; [by rewrite E|vm_compute; reflexivity]).
  destruct (pools_ demoState !! 1) as [p|] eqn:Ep; [|destruct H; discriminate].
  destruct H as [(H & _)|(_ & _ & _ & Hu & _ & Hz & _)]; [discriminate|].
  split; [reflexivity|]. split; [reflexivity|]. split; [exact Hu|]. apply Hz.
  assert (blockSize p = 64) as ->; [|simpl; lia].
  assert (blockSize <$> pools_ demoState !! 1 = Some 64) as Hb by (vm_compute; reflexivity). rewrite Ep in Hb. by injection Hb.
Defined.

Lemma freeToPool_exact_witness : (freeToPool 8 demoState 7 1 4160).2 = ERR_INVALID_VALUE /\ (freeToPool 8 demoState 7 1 4160).1 = demoState /\
  (freeToPool 8 demoState 9 1 4096).2 = SUCCESS.
Proof.
  pose proof (freeToPool_exact 8 demoState 7 1 4160 demo_reachable) as H1.
  pose proof (freeToPool_exact 8 demoState 9 1 4096 demo_reachable) as H2.
  destruct (freeToPool 8 demoState 7 1 4160) as [s1 r1], (freeToPool 8 demoState 9 1 4096) as [s2 r2].
  destruct (pools_ demoState !! 1) as [p|] eqn:Ep; [|vm_compute in Ep; discriminate].
  replace (usable demoState 1 4160) with (@None Z) in H1 by (vm_compute; reflexivity).
  replace (usable demoState 1 4096) with (Some 64) in H2 by (vm_compute; reflexivity).
  destruct H1 as [-> ->], H2 as [-> _]. cbn [fst snd]. split; [reflexivity|]. split; reflexivity.
Defined.

(** Everything freed from another thread than it was allocated on, with a cache
    of no blocks: the slab is fully free and is released. *)
Definition emptyState : t :=
  default (init ∅) (run 0 (init ∅) [CreatePool 50 16; Allocate 7 1 64 (Some 4096); Free 7 1 4096]).
Definition emptyPool : MemoryPool := default demoPool (pools_ emptyState !! 1).

Lemma emptyState_reachable : reachable 0 emptyState.
Proof.
  exists ∅, [CreatePool 50 16; Allocate 7 1 64 (Some 4096); Free 7 1 4096]. split; [|reflexivity].
  apply (bool_decide_unpack _). vm_compute. exact I.
Qed.

Lemma trimPool_correct_witness : exists s' p', trimPool (trimFuel emptyState 1) emptyState 1 0 = Some (s', SUCCESS) /\
  pools_ s' !! 1 = Some p' /\ slabList emptyPool = [(4096, 4096)] /\ slabList p' = [].
Proof.
  destruct (walk (trimFuel emptyState 1) (mem emptyState) (read (mem emptyState) (freeList emptyPool))) as [F|] eqn:Ew; [|vm_compute in Ew; discriminate].
  destruct (trimPool_correct 0 emptyState 1 0 emptyPool F emptyState_reachable ltac:(vm_compute; reflexivity) Ew) as (s' & p' & E & Hp & _ & _ & _ & _ & Hb).
  exists s', p'. split; [exact E|]. split; [rewrite Hp; apply lookup_insert_eq|]. split; [vm_compute; reflexivity|].
  assert (slabList <$> pools_ s' !! 1 = Some []) as Hs.
  { assert (Some s' = fst <$> trimPool (trimFuel emptyState 1) emptyState 1 0) as Es by (by rewrite E).
    vm_compute in Es. injection Es as ->. vm_compute. reflexivity. }
  rewrite Hp, lookup_insert_eq in Hs. by injection Hs.
Defined.

Lemma allocation_survives_witness : exists s', exec 8 demoState (Free 7 1 4224) = Some s' /\ usable s' 1 4096 = Some 64 /\ read (mem s') 4104 = 77.
Proof.
  destruct (exec 8 demoState (Free 7 1 4224)) as [s'|] eqn:E; [|vm_compute in E; discriminate].
  destruct (allocation_survives 8 demoState (Free 7 1 4224) s' 1 4096 64 demo_reachable I E) as [Hu Hm]; [vm_compute; reflexivity|discriminate|].
  exists s'. split; [reflexivity|]. split; [exact Hu|]. rewrite Hm; [vm_compute; reflexivity|lia|discriminate].
Defined.

(** *** Findings *)

(** The generation that invalidates a thread's cache is kept per handle modulo
    1024, and creating pool 1025 resets that of the destroyed pool 1: an
    allocation from pool 1 succeeds and returns memory that was released. *)
Definition staleOps : list op :=
  [CreatePool 64 16; Allocate 7 1 64 (Some 4096); Free 7 1 4096; DestroyPool 1] ++
  ((fun i => CreatePool 64 (100000 + 16 * i)) <$> seqZ 0 1024).

Lemma stale_handle_allocates : match run 8 (init ∅) staleOps with
  | Some s => pools_ s !! 1 = None /\ os s !! 4096 = None /\ (allocateFromPool s 7 1 64 None).1.2 = SUCCESS /\
      (allocateFromPool s 7 1 64 None).2 = 4096
  | None => False
  end.
Proof. vm_compute. done. Qed.

(** A request within 63 bytes of 2^64 is rounded to zero bytes and succeeds. *)
Lemma huge_request_succeeds : let '(s', r, b) := allocateFromPool demoState 7 1 (2 ^ 64 - 10) (Some 65536) in
  r = SUCCESS /\ usable s' 1 b = Some 0.
Proof. vm_compute. done. Qed.

End PoolSafety.
