(* ===== verification/IntervalTree.v ===== *)
(** * The interval tree of managed memory regions

    Model of [MemoryIntervalTree<T>] (include/vgre/core/interval_tree.h): an
    unbalanced search tree on the low end of half-open intervals, each node
    carrying the largest high end of its subtree ([max]). *)

From S2P Require Import Prelude.

Module MemoryIntervalTree.
Section IntervalTree.
Context {T : Type}.

(** [IntervalNode<T>]; a null [unique_ptr] is [Leaf]. *)
Inductive tree :=
| Leaf
| Node (low high max : Z) (data : T) (lft rgt : tree).

Definition newNode (low high : Z) (data : T) : tree := Node low high high data Leaf Leaf.

(** [insert]: the loop descends from the root, raising [max] on the way. *)
Fixpoint insert (low high : Z) (data : T) (t : tree) : tree :=
  match t with
  | Leaf => newNode low high data
  | Node l h m d lft rgt =>
      let m' := if high >? m then high else m in
      if low <? l then Node l h m' d (insert low high data lft) rgt
      else Node l h m' d lft (insert low high data rgt)
  end.

(** [findOverlap]: one path from the root, going left whenever the left
    subtree's [max] reaches the point. *)
Fixpoint findOverlap (point : Z) (t : tree) : option T :=
  match t with
  | Leaf => None
  | Node l h m d lft rgt =>
      if (point >=? l) && (point <? h) then Some d
      else match lft with
           | Node _ _ lm _ _ _ =>
               if lm >=? point then findOverlap point lft else findOverlap point rgt
           | Leaf => findOverlap point rgt
           end
  end.

Definition clear (t : tree) : tree := Leaf.

(** ** Invariants *)

(** The stored intervals, in order of the tree. *)
Fixpoint elements (t : tree) : list (Z * Z * T) :=
  match t with
  | Leaf => []
  | Node l h m d lft rgt => elements lft ++ (l, h, d) :: elements rgt
  end.

(** [max] bounds the high ends of the subtree and is one of them. *)
Fixpoint max_ok (t : tree) : Prop :=
  match t with
  | Leaf => True
  | Node l h m d lft rgt =>
      Forall (fun '(_, h', _) => h' <= m) (elements t) /\
      Exists (fun '(_, h', _) => h' = m) (elements t) /\
      max_ok lft /\ max_ok rgt
  end.

(** Search-tree order on the low ends. *)
Fixpoint ordered (t : tree) : Prop :=
  match t with
  | Leaf => True
  | Node l h m d lft rgt =>
      Forall (fun '(l', _, _) => l' < l) (elements lft) /\
      Forall (fun '(l', _, _) => l <= l') (elements rgt) /\
      ordered lft /\ ordered rgt
  end.

Definition wf (t : tree) : Prop := max_ok t /\ ordered t.

Lemma elements_insert low high d t :
  elements (insert low high d t) ≡ₚ (low, high, d) :: elements t.
Proof.
  induction t as [|l h m d' lft IHl rgt IHr]; simpl; [done|].
  case_match; simpl.
  - by rewrite IHl.
  - rewrite IHr. solve_Permutation.
Qed.

Lemma max_ok_insert low high d t : max_ok t -> max_ok (insert low high d t).
Proof.
  induction t as [|l h m d' lft IHl rgt IHr]; [intros _; simpl|].
  { repeat constructor; done. }
  intros (Hb & He & Hl & Hr).
  set (m' := if high >? m then high else m).
  assert (Forall (fun '(_, h', _) => h' <= m') ((low, high, d) :: elements (Node l h m d' lft rgt))
          /\ Exists (fun '(_, h', _) => h' = m') ((low, high, d) :: elements (Node l h m d' lft rgt)))
    as [Hb' He'].
  { subst m'. destruct (high >? m) eqn:E; b2p.
    - split; [|by left]. constructor; [done|].
      eapply Forall_impl; [exact Hb|]. intros [[? ?] ?]. lia.
    - split; [by constructor|by right]. }
  pose proof (elements_insert low high d (Node l h m d' lft rgt)) as Hp.
  rewrite <- Hp in Hb', He'. clear Hp. revert Hb' He'. simpl. fold m'.
  case_match; simpl; auto.
Qed.

Lemma ordered_insert low high d t : ordered t -> ordered (insert low high d t).
Proof.
  induction t as [|l h m d' lft IHl rgt IHr]; simpl.
  { intros _. by repeat constructor. }
  intros (Hl & Hr & Ol & Or). destruct (low <? l) eqn:E; b2p; simpl.
  - rewrite elements_insert, Forall_cons. auto.
  - rewrite elements_insert, Forall_cons. auto.
Qed.

Lemma wf_insert low high d t : wf t -> wf (insert low high d t).
Proof. intros [? ?]. split; auto using max_ok_insert, ordered_insert. Qed.

(** ** Searching *)

Definition covers (point : Z) (e : Z * Z * T) : Prop :=
  let '(l, h, _) := e in l <= point < h.

Lemma findOverlap_sound point t d :
  findOverlap point t = Some d -> exists l h, (l, h, d) ∈ elements t /\ l <= point < h.
Proof.
  induction t as [|l h m d' lft IHl rgt IHr]; simpl; [done|].
  destruct ((point >=? l) && (point <? h)) eqn:E.
  { intros [= ->]. b2p. exists l, h. split; [set_solver|lia]. }
  intros Hf. assert (findOverlap point lft = Some d \/ findOverlap point rgt = Some d) as [H|H].
  { destruct lft as [|ll lh lm ld ll' lr']; [by right|]. case_match; auto. }
  - destruct (IHl H) as (l' & h' & ? & ?). exists l', h'. split; [set_solver|lia].
  - destruct (IHr H) as (l' & h' & ? & ?). exists l', h'. split; [set_solver|lia].
Qed.

(** The regions the memory manager registers: non-empty, and any two of them
    equal or disjoint. *)
Definition regions_ok (es : list (Z * Z * T)) : Prop :=
  (forall l h d, (l, h, d) ∈ es -> l < h) /\
  (forall l1 h1 d1 l2 h2 d2, (l1, h1, d1) ∈ es -> (l2, h2, d2) ∈ es ->
     (l1, h1, d1) = (l2, h2, d2) \/ h1 <= l2 \/ h2 <= l1).

Lemma regions_ok_sub es es' : (forall e, e ∈ es' -> e ∈ es) -> regions_ok es -> regions_ok es'.
Proof. intros Hs [H1 H2]. split; eauto. Qed.

Lemma max_ok_attained ll lh lm ld l' r' :
  max_ok (Node ll lh lm ld l' r') ->
  exists l d, (l, lm, d) ∈ elements (Node ll lh lm ld l' r').
Proof.
  intros (_ & He & _). apply Exists_exists in He as ([[l h] d] & Hin & <-). eauto.
Qed.

Lemma findOverlap_complete point t l h d :
  wf t -> regions_ok (elements t) -> (l, h, d) ∈ elements t -> l <= point < h ->
  findOverlap point t = Some d.
Proof.
  intros [Hm Ho]. induction t as [|nl nh nm nd lft IHl rgt IHr]; [set_solver|].
  intros Hok Hin Hp. pose proof Hok as [Hne Hdis].
  assert ((nl, nh, nd) ∈ elements (Node nl nh nm nd lft rgt)) as Hroot by set_solver.
  simpl. destruct ((point >=? nl) && (point <? nh)) eqn:E.
  { b2p. destruct (Hdis _ _ _ _ _ _ Hin Hroot) as [[= _ _ ->]|]; [done|lia]. }
  simpl in Hm, Ho. destruct Hm as (Hb & _ & Hml & Hmr), Ho as (Hol & Hor & Ool & Oor).
  assert (regions_ok (elements lft) /\ regions_ok (elements rgt)) as [Hokl Hokr].
  { split; (eapply regions_ok_sub; [|exact Hok]); set_solver. }
  assert ((l, h, d) ∈ elements lft \/ (l, h, d) ∈ elements rgt) as [Hl|Hr].
  { simpl in Hin. apply elem_of_app in Hin as [?|[[= -> -> ->]|?]%elem_of_cons]; auto.
    apply andb_false_iff in E as [E|E]; b2p; lia. }
  - destruct lft as [|ll lh lm ld l' r'] eqn:El; [set_solver|].
    assert (h <= lm).
    { destruct Hml as [Hb' _]. rewrite Forall_forall in Hb'. apply (Hb' (l, h, d) Hl). }
    replace (lm >=? point) with true by (symmetry; apply Z.geb_le; lia). auto.
  - destruct lft as [|ll lh lm ld l' r'] eqn:El; [auto|].
    case_match eqn:Eg; [|auto]. b2p. exfalso.
    destruct (max_ok_attained _ _ _ _ _ _ Hml) as (l0 & d0 & Hin0).
    rewrite Forall_forall in Hol, Hor. specialize (Hol _ Hin0). specialize (Hor _ Hr). simpl in *.
    assert ((l0, lm, d0) ∈ elements (Node nl nh nm nd (Node ll lh lm ld l' r') rgt)) as Hin0'
      by set_solver.
    pose proof (Hne _ _ _ Hroot).
    destruct (Hdis _ _ _ _ _ _ Hin0' Hroot) as [Heq|]; [injection Heq; lia|].
    destruct E as [E|E]; b2p; lia.
Qed.

Definition build (es : list (Z * Z * T)) : tree :=
  foldl (fun t '(l, h, d) => insert l h d t) Leaf es.

Lemma build_snoc es l h d : build (es ++ [(l, h, d)]) = insert l h d (build es).
Proof. unfold build. by rewrite foldl_snoc. Qed.

Lemma elements_build es : elements (build es) ≡ₚ es.
Proof.
  induction es as [|[[l h] d] es IH] using rev_ind; [done|].
  rewrite build_snoc, elements_insert, IH. solve_Permutation.
Qed.

Lemma itree_wf_build es : wf (build es).
Proof.
  induction es as [|[[l h] d] es IH] using rev_ind; [done|].
  rewrite build_snoc. by apply wf_insert.
Qed.

(** C23: point location is exact on disjoint regions.  Whatever the order in
    which pairwise disjoint non-empty regions were inserted, [findOverlap]
    returns the region that contains the point, and [nullptr] exactly when no
    region contains it. *)
Theorem findOverlap_exact es point d :
  regions_ok es ->
  findOverlap point (build es) = Some d <->
  exists l h, (l, h, d) ∈ es /\ l <= point < h.
Proof.
  intros Hok. split.
  - intros Hf. apply findOverlap_sound in Hf as (l & h & Hin & Hp).
    exists l, h. by rewrite elements_build in Hin.
  - intros (l & h & Hin & Hp). eapply findOverlap_complete; [apply itree_wf_build| | |done].
    + eapply regions_ok_sub; [|exact Hok]. intros e. by rewrite elements_build.
    + by rewrite elements_build.
Qed.
End IntervalTree.
Arguments tree : clear implicits.

Lemma findOverlap_exact_witness :
  findOverlap 25 (build [(10, 20, 1); (0, 5, 2); (20, 30, 3)]) = Some 3.
Proof.
  apply findOverlap_exact.
  - split.
    + intros l h d. rewrite !elem_of_cons, !elem_of_nil. intros H.
      destruct_or! H; simplify_eq; lia.
    + intros l1 h1 d1 l2 h2 d2. rewrite !elem_of_cons, !elem_of_nil. intros H1 H2.
      destruct_or! H1; destruct_or! H2; simplify_eq; auto with lia.
  - exists 20, 30. split; [set_solver|lia].
Defined.

(** With overlapping regions the search can miss: it enters the left
    subtree when the subtree's [max] merely equals the point, although the
    intervals are half-open, and never comes back to the right subtree that
    holds a region containing the point. *)
Theorem findOverlap_misses_overlapping :
  findOverlap 30 (build [(10, 20, 1); (0, 30, 2); (15, 40, 3)]) = None /\
  (15, 40, 3) ∈ elements (build [(10, 20, 1); (0, 30, 2); (15, 40, 3)]) /\ 15 <= 30 < 40.
Proof.
  split; [reflexivity|]. split; [|lia]. rewrite elements_build. set_solver.
Qed.
End MemoryIntervalTree.
