(* ===== verification/StreamDeps.v ===== *)
(** * The stream dependency tracker

    Model of [StreamDepTracker] (include/vgre/core/stream_dep_tracker.h,
    src/core/graph_dependency_tracker.cpp): per-stream completion counters in
    the upper half of an array that is meant to be a min-segment tree, the map
    from streams to slots and the event snapshots.  The array is a list and an
    access outside it makes the operation [None]; atomic operations are single
    steps and the mutexes make each operation atomic. *)

From S2P Require Import Prelude.

Module StreamDepTracker.

Definition kMaxTrackedStreams : Z := 1024.
Local Abbreviation K := kMaxTrackedStreams.

(** [EventCounterSnapshot]. *)
Record EventCounterSnapshot := mkSnapshot { streamSlot : Z; counter : Z }.

Record t := mk {
  tree_ : list Z;
  slotMap_ : gmap Z Z;
  nextSlot_ : Z;
  eventSnapshots_ : gmap Z EventCounterSnapshot;
}.

(** The constructor: every node is zero. *)
Definition init : t := mk (replicate (Z.to_nat (2 * K)) 0) ∅ 0 ∅.

Definition load (tr : list Z) (i : Z) : option Z := tr !! Z.to_nat i.

(** Removing the mapping that occupies [slot] for another stream. *)
Definition evict (m : gmap Z Z) (slot key : Z) : gmap Z Z :=
  match list_find (fun '(k, s) => s = slot /\ k <> key) (map_to_list m) with
  | Some (_, (k, _)) => delete k m
  | None => m
  end.

(** [slotOf], the overload that assigns slots round-robin. *)
Definition slotOf (st : t) (s : Z) : t * Z :=
  match slotMap_ st !! s with
  | Some slot => (st, slot)
  | None =>
      let slot := nextSlot_ st mod K in
      (mk (tree_ st) (<[s := slot]> (evict (slotMap_ st) slot s))
          (u64 (nextSlot_ st + 1)) (eventSnapshots_ st), slot)
  end.

(** [slotOf const]: slot 0 for a stream without a mapping. *)
Definition slotOf_const (st : t) (s : Z) : Z := default 0 (slotMap_ st !! s).

(** The loop of [propagateUp] from node [i]. *)
Fixpoint propagateFrom (fuel : nat) (tr : list Z) (i : Z) : option (list Z) :=
  if i <=? 0 then Some tr
  else match fuel with
       | O => None
       | S fuel =>
           let parent := (i - 1) / 2 in
           lv ← load tr (2 * parent + 1);
           rv ← load tr (2 * parent + 2);
           propagateFrom fuel (<[Z.to_nat parent := Z.min lv rv]> tr) parent
       end.

Definition propagateUp (tr : list Z) (slot : Z) : option (list Z) :=
  propagateFrom (Z.to_nat (K + slot)) tr (K + slot).

Definition notifyKernelComplete (st : t) (s : Z) : option t :=
  let '(st, slot) := slotOf st s in
  let leaf := K + slot in
  v ← load (tree_ st) leaf;
  tr ← propagateUp (<[Z.to_nat leaf := u64 (v + 1)]> (tree_ st)) slot;
  Some (mk tr (slotMap_ st) (nextSlot_ st) (eventSnapshots_ st)).

(** The loop of [queryMinCompleted] on the half-open range [lo, hi). *)
Fixpoint queryLoop (fuel : nat) (tr : list Z) (lo hi result : Z) : option Z :=
  if lo <? hi then
    match fuel with
    | O => None
    | S fuel =>
        '(lo, result) ← (if Z.odd lo then v ← load tr lo; Some (lo + 1, Z.min result v)
                         else Some (lo, result));
        '(hi, result) ← (if Z.odd hi then v ← load tr (hi - 1); Some (hi - 1, Z.min result v)
                         else Some (hi, result));
        queryLoop fuel tr (Z.shiftr lo 1) (Z.shiftr hi 1) result
    end
  else Some result.

Definition queryMinCompleted (st : t) (a b : Z) : option Z :=
  if (a >? b) || (b >=? K) then Some 0
  else queryLoop (Z.to_nat (K + b + 1)) (tree_ st) (K + a) (K + b + 1) U64_MAX.

Definition allCompleted (st : t) (threshold : Z) : option bool :=
  root ← load (tree_ st) 0; Some (root >=? threshold).

Definition recordEventCounter (st : t) (eventKey s : Z) : option t :=
  let '(st, slot) := slotOf st s in
  count ← load (tree_ st) (K + slot);
  Some (mk (tree_ st) (slotMap_ st) (nextSlot_ st)
           (<[eventKey := mkSnapshot slot count]> (eventSnapshots_ st))).

Definition waitEventSatisfied (st : t) (eventKey : Z) : option bool :=
  match eventSnapshots_ st !! eventKey with
  | None => Some false
  | Some snap =>
      current ← load (tree_ st) (K + streamSlot snap);
      Some (current >=? counter snap)
  end.

Definition getCounter (st : t) (slot : Z) : option Z :=
  if slot >=? K then Some 0 else load (tree_ st) (K + slot).

(** ** Propagation stays inside the array, except from the last slot *)

Lemma load_insert_ne tr i j v : 0 <= i -> 0 <= j -> i <> j -> load (<[Z.to_nat i := v]> tr) j = load tr j.
Proof. intros. unfold load. apply list_lookup_insert_ne. lia. Qed.

Lemma load_insert_eq tr i v : 0 <= i < Z.of_nat (length tr) -> load (<[Z.to_nat i := v]> tr) i = Some v.
Proof. intros. unfold load. apply list_lookup_insert_eq. lia. Qed.

Lemma load_Some tr i : 0 <= i < Z.of_nat (length tr) -> exists v, load tr i = Some v.
Proof. intros. unfold load. apply lookup_lt_is_Some. lia. Qed.

Lemma parent_bounds i : 0 < i -> 0 <= (i - 1) / 2 /\ 2 * ((i - 1) / 2) + 2 <= i + 1 /\ (i - 1) / 2 < i.
Proof. intros. pose proof (Z.div_mod (i - 1) 2). pose proof (Z.mod_pos_bound (i - 1) 2). lia. Qed.

Lemma propagateFrom_total fuel tr i :
  0 <= i -> i + 1 < Z.of_nat (length tr) -> i <= Z.of_nat fuel ->
  exists tr', propagateFrom fuel tr i = Some tr' /\ length tr' = length tr /\
    forall j, (i - 1) / 2 < j -> load tr' j = load tr j.
Proof.
  revert tr i. induction fuel as [|fuel IH]; intros tr i Hi Hlen Hf; simpl.
  - rewrite (proj2 (Z.leb_le i 0)) by lia. eauto.
  - destruct (Z.leb_spec i 0); [by eauto|].
    destruct (parent_bounds i) as (Hp & Hc & Hlt); [lia|].
    destruct (load_Some tr (2 * ((i - 1) / 2) + 1)) as [lv ->]; [lia|].
    destruct (load_Some tr (2 * ((i - 1) / 2) + 2)) as [rv ->]; [lia|]. simpl.
    destruct (IH (<[Z.to_nat ((i - 1) / 2) := Z.min lv rv]> tr) ((i - 1) / 2))
      as (tr' & Htr & Hl & Hj); [lia|rewrite length_insert; lia|lia|].
    exists tr'. rewrite length_insert in Hl. split_and!; [done|done|].
    intros j Hij. rewrite Hj; [apply load_insert_ne; lia|].
    pose proof (Z.div_le_mono ((i - 1) / 2 - 1) (i - 1) 2). lia.
Qed.

Lemma propagateUp_last tr : length tr = Z.to_nat (2 * K) -> propagateUp tr (K - 1) = None.
Proof.
  intros Hlen. unfold propagateUp. destruct (Z.to_nat (K + (K - 1))) as [|fuel] eqn:Ef; [done|].
  simpl. replace ((K + (K - 1) - 1) / 2) with (K - 1) by reflexivity.
  destruct (load tr (2 * (K - 1) + 1)); [|done]. simpl.
  unfold load. rewrite lookup_ge_None_2; [done|]. unfold K in *. lia.
Qed.

Lemma propagateUp_ok tr slot :
  length tr = Z.to_nat (2 * K) -> 0 <= slot < K - 1 ->
  exists tr', propagateUp tr slot = Some tr' /\ length tr' = length tr /\
    forall j, K <= j -> load tr' j = load tr j.
Proof.
  intros Hlen Hs. unfold kMaxTrackedStreams in *.
  destruct (propagateFrom_total (Z.to_nat (1024 + slot)) tr (1024 + slot)) as (tr' & H & Hl & Hj);
    [lia..|].
  exists tr'. split_and!; [done|done|]. intros j Hj'. apply Hj.
  apply Z.div_lt_upper_bound; lia.
Qed.

(** ** Reachable states without eviction *)

Definition count (s : Z) (ss : list Z) : Z := Z.of_nat (count_occ Z.eq_dec ss s).

Lemma count_snoc s s' ss : count s (ss ++ [s']) = count s ss + (if decide (s' = s) then 1 else 0).
Proof.
  unfold count. rewrite count_occ_app. simpl. destruct (Z.eq_dec s' s); case_decide; lia.
Qed.

(** Calls on the tracker: a kernel completes on a stream, or an event is
    recorded on a stream. *)
Inductive op :=
| Notify (s : Z)
| RecordEvent (eventKey s : Z).

Definition run1 (st : t) (o : op) : option t :=
  match o with
  | Notify s => notifyKernelComplete st s
  | RecordEvent k s => recordEventCounter st k s
  end.

Definition run (ops : list op) : option t :=
  foldl (fun o op => o ≫= fun st => run1 st op) (Some init) ops.

Lemma run_snoc ops o : run (ops ++ [o]) = run ops ≫= fun st => run1 st o.
Proof. unfold run. by rewrite foldl_snoc. Qed.

(** Streams named by the calls, and completed kernels in order. *)
Definition op_stream (o : op) : Z := match o with Notify s => s | RecordEvent _ s => s end.
Definition seen (ops : list op) : list Z := op_stream <$> ops.
Definition completed (ops : list op) : list Z :=
  omap (fun o => match o with Notify s => Some s | RecordEvent _ _ => None end) ops.

Definition streams (ss : list Z) : gset Z := list_to_set ss.

Record inv (ss cs : list Z) (st : t) : Prop := mkInv {
  inv_len : length (tree_ st) = Z.to_nat (2 * K);
  inv_dom : dom (slotMap_ st) = streams ss;
  inv_next : nextSlot_ st = Z.of_nat (size (streams ss));
  inv_slot : forall s slot, slotMap_ st !! s = Some slot ->
    0 <= slot < nextSlot_ st /\ load (tree_ st) (K + slot) = Some (count s cs);
  inv_inj : forall s1 s2 slot, slotMap_ st !! s1 = Some slot -> slotMap_ st !! s2 = Some slot -> s1 = s2;
  inv_seen : forall s, s ∈ cs -> s ∈ ss;
  inv_event : forall k snap, eventSnapshots_ st !! k = Some snap ->
    0 <= streamSlot snap < nextSlot_ st /\
    exists v, load (tree_ st) (K + streamSlot snap) = Some v /\ counter snap <= v;
  inv_free : forall slot, nextSlot_ st <= slot < K -> load (tree_ st) (K + slot) = Some 0;
}.

Lemma inv_init : inv [] [] init.
Proof.
  unfold init. split; cbn [tree_ slotMap_ nextSlot_ eventSnapshots_]; try done.
  intros slot Hs. unfold load. apply lookup_replicate_2. unfold kMaxTrackedStreams in *. lia.
Qed.

Lemma evict_fresh m slot key :
  (forall k s, m !! k = Some s -> s < slot) -> evict m slot key = m.
Proof.
  intros Hm. unfold evict. destruct (list_find _ _) as [[i [k s]]|] eqn:E; [|done].
  apply list_find_Some in E as (Hl & [-> _] & _).
  apply list_elem_of_lookup_2, elem_of_map_to_list in Hl. apply Hm in Hl. lia.
Qed.

(** [slotOf] on a reachable state: the stream's slot, assigned if new. *)
Lemma slotOf_inv ss cs st s :
  inv ss cs st -> Z.of_nat (size (streams (ss ++ [s]))) < K ->
  exists slotMap slot,
    slotOf st s = (mk (tree_ st) slotMap (Z.of_nat (size (streams (ss ++ [s])))) (eventSnapshots_ st), slot) /\
    dom slotMap = streams (ss ++ [s]) /\ slotMap !! s = Some slot /\
    0 <= slot < Z.of_nat (size (streams (ss ++ [s]))) /\
    nextSlot_ st <= Z.of_nat (size (streams (ss ++ [s]))) /\
    load (tree_ st) (K + slot) = Some (count s cs) /\
    (forall s', s' <> s -> slotMap !! s' = slotMap_ st !! s') /\
    (forall s' sl, s' <> s -> slotMap_ st !! s' = Some sl -> sl <> slot).
Proof.
  intros Hinv Hsz. unfold slotOf.
  assert (streams (ss ++ [s]) = {[s]} ∪ streams ss) as Hstr.
  { unfold streams. rewrite list_to_set_app_L. set_solver. }
  rewrite Hstr in *. destruct (slotMap_ st !! s) as [slot|] eqn:Es.
  - assert (s ∈ streams ss) as Hin by (rewrite <- (inv_dom _ _ _ Hinv); by apply elem_of_dom).
    replace ({[s]} ∪ streams ss) with (streams ss) in * by set_solver.
    destruct (inv_slot _ _ _ Hinv _ _ Es) as [Hb Hl].
    exists (slotMap_ st), slot. rewrite <- (inv_next _ _ _ Hinv).
    split_and!; try done; try lia; [by destruct st|by eapply inv_dom|].
    intros s' sl Hne Hs' ->. by pose proof (inv_inj _ _ _ Hinv _ _ _ Hs' Es).
  - assert (s ∉ streams ss) as Hin by (rewrite <- (inv_dom _ _ _ Hinv); by apply not_elem_of_dom).
    rewrite size_union, size_singleton in * by set_solver.
    pose proof (inv_next _ _ _ Hinv) as Hn.
    assert (nextSlot_ st mod K = nextSlot_ st) as Hmod by (apply Z.mod_small; lia).
    rewrite Hmod. rewrite evict_fresh by (intros k sl Hk; destruct (inv_slot _ _ _ Hinv _ _ Hk); lia).
    exists (<[s := nextSlot_ st]> (slotMap_ st)), (nextSlot_ st).
    rewrite u64_small by (unfold kMaxTrackedStreams in *; lia).
    split_and!; [f_equal; f_equal; lia| |by rewrite lookup_insert_eq|lia|lia|lia| | |].
    + by rewrite dom_insert_L, (inv_dom _ _ _ Hinv).
    + rewrite (inv_free _ _ _ Hinv) by lia. f_equal. unfold count.
      rewrite (proj1 (count_occ_not_In Z.eq_dec cs s)); [done|].
      intros Hi. apply Hin. unfold streams.
      by apply elem_of_list_to_set, (inv_seen _ _ _ Hinv), list_elem_of_In.
    + intros s' Hne. by rewrite lookup_insert_ne.
    + intros s' sl Hne Hs'. destruct (inv_slot _ _ _ Hinv _ _ Hs'). lia.
Qed.

Lemma notify_inv ss cs st s :
  inv ss cs st -> Z.of_nat (size (streams (ss ++ [s]))) < K -> Z.of_nat (length cs) + 1 < 2 ^ 64 ->
  exists st', notifyKernelComplete st s = Some st' /\ inv (ss ++ [s]) (cs ++ [s]) st'.
Proof.
  intros Hinv Hsz Hlen.
  destruct (slotOf_inv ss cs st s Hinv Hsz) as (sm & slot & Heq & Hdom & Hsl & Hb & Hn & Hl & Hoth & Hne).
  unfold notifyKernelComplete. rewrite Heq. cbn [tree_ slotMap_ nextSlot_ eventSnapshots_].
  rewrite Hl. simpl. pose proof (inv_len _ _ _ Hinv) as Hlt.
  destruct (propagateUp_ok (<[Z.to_nat (K + slot) := u64 (count s cs + 1)]> (tree_ st)) slot)
    as (tr' & -> & Hl' & Hj); [by rewrite length_insert|lia|]. simpl.
  eexists. split; [done|].
  assert (count s cs <= Z.of_nat (length cs)) as Hc.
  { unfold count. pose proof (count_occ_bound Z.eq_dec s cs). lia. }
  assert (0 <= count s cs) by (unfold count; lia).
  assert (forall sl, 0 <= sl < K -> load tr' (K + sl) =
            if decide (sl = slot) then Some (count s cs + 1) else load (tree_ st) (K + sl)) as Hload.
  { intros sl Hsl'. rewrite Hj by lia. case_decide as E.
    - subst sl. rewrite load_insert_eq; [|unfold kMaxTrackedStreams in *; lia].
      by rewrite u64_small by lia.
    - apply load_insert_ne; lia. }
  split; cbn [tree_ slotMap_ nextSlot_ eventSnapshots_].
  - by rewrite Hl', length_insert.
  - done.
  - done.
  - intros s' sl Hs'. destruct (decide (s' = s)) as [->|Hn'].
    + rewrite Hsl in Hs'. simplify_eq.
      by rewrite Hload, decide_True, count_snoc, decide_True by (done || lia).
    + rewrite Hoth in Hs' by done. destruct (inv_slot _ _ _ Hinv _ _ Hs') as [Hsb Hld].
      rewrite Hload, decide_False, count_snoc, decide_False by (eauto || lia).
      rewrite Z.add_0_r. split; [lia|done].
  - intros s1 s2 sl H1 H2. destruct (decide (s1 = s)) as [->|N1], (decide (s2 = s)) as [->|N2].
    + done.
    + rewrite Hoth in H2 by done. rewrite Hsl in H1. simplify_eq. by destruct (Hne _ _ N2 H2).
    + rewrite Hoth in H1 by done. rewrite Hsl in H2. simplify_eq. by destruct (Hne _ _ N1 H1).
    + rewrite Hoth in H1, H2 by done. by eapply inv_inj.
  - intros s'. rewrite !elem_of_app. pose proof (inv_seen _ _ _ Hinv s'). tauto.
  - intros k snap Hk. destruct (inv_event _ _ _ Hinv _ _ Hk) as (Hsb & v & Hv & Hc').
    split; [lia|]. rewrite Hload by lia. case_decide as E; [|by eauto].
    exists (count s cs + 1). split; [done|]. rewrite E in Hv. rewrite Hl in Hv. simplify_eq. lia.
  - intros sl Hsb. rewrite Hload, decide_False by lia. apply (inv_free _ _ _ Hinv). lia.
Qed.

Lemma record_inv ss cs st k s :
  inv ss cs st -> Z.of_nat (size (streams (ss ++ [s]))) < K ->
  exists st', recordEventCounter st k s = Some st' /\ inv (ss ++ [s]) cs st' /\
    dom (eventSnapshots_ st') = {[k]} ∪ dom (eventSnapshots_ st).
Proof.
  intros Hinv Hsz.
  destruct (slotOf_inv ss cs st s Hinv Hsz) as (sm & slot & Heq & Hdom & Hsl & Hb & Hn & Hl & Hoth & Hne).
  unfold recordEventCounter. rewrite Heq. cbn [tree_ slotMap_ nextSlot_ eventSnapshots_].
  rewrite Hl. simpl. eexists. split; [done|]. split; [|cbn [eventSnapshots_]; by rewrite dom_insert_L].
  split; cbn [tree_ slotMap_ nextSlot_ eventSnapshots_].
  - apply Hinv.
  - done.
  - done.
  - intros s' sl Hs'. destruct (decide (s' = s)) as [->|N].
    + rewrite Hsl in Hs'. by simplify_eq.
    + rewrite Hoth in Hs' by done. destruct (inv_slot _ _ _ Hinv _ _ Hs'). split; [lia|done].
  - intros s1 s2 sl H1 H2. destruct (decide (s1 = s)) as [->|N1], (decide (s2 = s)) as [->|N2].
    + done.
    + rewrite Hoth in H2 by done. rewrite Hsl in H1. simplify_eq. by destruct (Hne _ _ N2 H2).
    + rewrite Hoth in H1 by done. rewrite Hsl in H2. simplify_eq. by destruct (Hne _ _ N1 H1).
    + rewrite Hoth in H1, H2 by done. by eapply inv_inj.
  - intros s'. rewrite elem_of_app. pose proof (inv_seen _ _ _ Hinv s'). tauto.
  - intros k' snap. rewrite lookup_insert_Some. intros [[<- <-]|[_ Hk]]; simpl.
    + split; [lia|]. exists (count s cs). split; [done|lia].
    + destruct (inv_event _ _ _ Hinv _ _ Hk) as (Hsb & v & Hv & Hc'). split; [lia|eauto].
  - intros sl Hsb. apply (inv_free _ _ _ Hinv). lia.
Qed.

Definition recorded (ops : list op) : gset Z :=
  list_to_set (omap (fun o => match o with RecordEvent k _ => Some k | Notify _ => None end) ops).

Lemma notify_events st s st' :
  notifyKernelComplete st s = Some st' -> eventSnapshots_ st' = eventSnapshots_ st.
Proof.
  unfold notifyKernelComplete, slotOf. destruct (slotMap_ st !! s); simpl; intros H;
    destruct (load _ _); simplify_eq/=; destruct (propagateUp _ _); by simplify_eq/=.
Qed.

(** Calls naming fewer than [kMaxTrackedStreams] streams: no eviction. *)
Definition few_streams (ops : list op) : Prop :=
  Z.of_nat (size (streams (seen ops))) < K /\ Z.of_nat (length ops) < 2 ^ 64.

Lemma completed_length ops : (length (completed ops) <= length ops)%nat.
Proof. induction ops as [|[] ? IH]; simpl; lia. Qed.

Lemma run_inv ops :
  few_streams ops ->
  exists st, run ops = Some st /\ inv (seen ops) (completed ops) st /\
    dom (eventSnapshots_ st) = recorded ops.
Proof.
  unfold few_streams. induction ops as [|o ops IH] using rev_ind; intros [Hsz Hlen].
  { exists init. split_and!; [done|apply inv_init|done]. }
  rewrite length_app in Hlen; simpl in Hlen. pose proof (completed_length ops).
  unfold seen in *. rewrite fmap_app in *. simpl in *.
  destruct IH as (st & Hr & Hinv & Hev).
  { split; [|lia].
    assert (size (streams (op_stream <$> ops)) <= size (streams ((op_stream <$> ops) ++ [op_stream o])))%nat; [|lia].
    apply subseteq_size. unfold streams. rewrite list_to_set_app_L. set_solver. }
  rewrite run_snoc, Hr. unfold completed, recorded in *. rewrite !omap_app, list_to_set_app_L.
  destruct o as [s|k s]; simpl in *.
  - destruct (notify_inv _ _ st s Hinv) as (st' & Hs & Hi); [done|lia|].
    exists st'. split_and!; [done|done|]. rewrite (notify_events _ _ _ Hs). set_solver.
  - destruct (record_inv _ _ st k s Hinv) as (st' & Hs & Hi & Hd); [done|].
    exists st'. rewrite app_nil_r. split_and!; [done|done|]. rewrite Hd. set_solver.
Qed.

(** C40: completion counters are exact while fewer than [kMaxTrackedStreams]
    streams are tracked.  After any sequence of completions and event
    recordings no access left the array, streams have pairwise distinct slots,
    and the counter of a stream's slot is the number of its completions. *)
Theorem counters_exact ops :
  few_streams ops ->
  exists st, run ops = Some st /\
    (forall s, s ∈ seen ops -> exists slot, slotOf st s = (st, slot) /\
       getCounter st slot = Some (count s (completed ops))) /\
    (forall s1 s2, s1 ∈ seen ops -> s2 ∈ seen ops ->
       (slotOf st s1).2 = (slotOf st s2).2 -> s1 = s2).
Proof.
  intros Hf. destruct (run_inv ops Hf) as (st & Hr & Hinv & _). exists st.
  assert (forall s, s ∈ seen ops -> exists slot, slotMap_ st !! s = Some slot) as Hm.
  { intros s Hs. apply elem_of_dom. rewrite (inv_dom _ _ _ Hinv). by apply elem_of_list_to_set. }
  split_and!; [done| |].
  - intros s Hs. destruct (Hm s Hs) as [slot Hsl]. exists slot. unfold slotOf. rewrite Hsl.
    split; [done|]. destruct (inv_slot _ _ _ Hinv _ _ Hsl) as [Hb Hl].
    rewrite (inv_next _ _ _ Hinv) in Hb. destruct Hf. unfold getCounter.
    destruct (slot >=? K) eqn:E; b2p; [lia|done].
  - intros s1 s2 [sl1 H1]%Hm [sl2 H2]%Hm. unfold slotOf. rewrite H1, H2. simpl.
    intros ->. by eapply inv_inj.
Qed.

Lemma counters_exact_witness :
  exists st, run [Notify 5; RecordEvent 1 7; Notify 5] = Some st /\
    (exists slot, slotOf st 5 = (st, slot) /\ getCounter st slot = Some 2).
Proof.
  destruct (counters_exact [Notify 5; RecordEvent 1 7; Notify 5]) as (st & Hr & Hc & _).
  { by vm_compute. }
  exists st. split; [done|]. apply Hc. left.
Defined.

(** Event waits never block.  A snapshot counts only kernels that had
    already completed when the event was recorded, so in every later state
    [waitEventSatisfied] is true exactly for the recorded events. *)
Theorem wait_true_iff_recorded ops eventKey :
  few_streams ops ->
  exists st, run ops = Some st /\
    waitEventSatisfied st eventKey = Some (bool_decide (eventKey ∈ recorded ops)).
Proof.
  intros Hf. destruct (run_inv ops Hf) as (st & Hr & Hinv & Hd). exists st. split; [done|].
  rewrite <- Hd. unfold waitEventSatisfied.
  destruct (eventSnapshots_ st !! eventKey) as [snap|] eqn:E.
  - destruct (inv_event _ _ _ Hinv _ _ E) as (_ & v & -> & Hc). simpl.
    rewrite bool_decide_eq_true_2 by (by apply elem_of_dom). f_equal. apply Z.geb_le. lia.
  - by rewrite bool_decide_eq_false_2 by (by apply not_elem_of_dom).
Qed.

Lemma wait_true_iff_recorded_witness :
  exists st, run [RecordEvent 1 7] = Some st /\ waitEventSatisfied st 1 = Some true.
Proof.
  destruct (wait_true_iff_recorded [RecordEvent 1 7] 1) as (st & Hr & Hw); [by vm_compute|].
  exists st. split; [done|]. by rewrite Hw.
Defined.

(** Tracking [kMaxTrackedStreams] distinct streams leaves the array.  The
    completion that gives the last slot to a stream makes [propagateUp] read
    node [2 * kMaxTrackedStreams], one past the end of the tree. *)
Theorem last_slot_out_of_bounds ops s :
  Z.of_nat (size (streams (seen ops))) = K - 1 -> s ∉ seen ops -> Z.of_nat (length ops) < 2 ^ 64 ->
  is_Some (run ops) /\ run (ops ++ [Notify s]) = None.
Proof.
  intros Hsz Hs Hlen. destruct (run_inv ops) as (st & Hr & Hinv & _); [split; lia|].
  split; [by rewrite Hr|]. rewrite run_snoc, Hr. simpl. unfold notifyKernelComplete, slotOf.
  assert (slotMap_ st !! s = None) as ->.
  { apply not_elem_of_dom. rewrite (inv_dom _ _ _ Hinv). unfold streams. by rewrite elem_of_list_to_set. }
  pose proof (inv_next _ _ _ Hinv) as Hn. rewrite Hsz in Hn. rewrite Hn.
  cbn [tree_ slotMap_ nextSlot_ eventSnapshots_]. rewrite Z.mod_small by (unfold kMaxTrackedStreams; lia).
  rewrite (inv_free _ _ _ Hinv) by lia. simpl. rewrite propagateUp_last; [done|].
  by rewrite length_insert, (inv_len _ _ _ Hinv).
Qed.

Lemma last_slot_out_of_bounds_witness : is_Some (run (Notify <$> seqZ 0 (K - 1))) /\
  run ((Notify <$> seqZ 0 (K - 1)) ++ [Notify (K - 1)]) = None.
Proof.
  apply (last_slot_out_of_bounds (Notify <$> seqZ 0 (K - 1)) (K - 1)).
  - vm_compute. reflexivity.
  - intros Hin. unfold seen in Hin. rewrite <- list_fmap_compose in Hin.
    apply list_elem_of_fmap in Hin as (x & Hx & Hin). apply elem_of_seqZ in Hin. cbn in Hx. lia.
  - vm_compute. reflexivity.
Defined.

(** A range query over two slots can report the wrong minimum.  The query
    climbs with [i / 2] as in a 1-based heap while the updates use the 0-based
    parent [(i - 1) / 2]; after one kernel on each of two streams, the
    reported minimum over their two slots is 0. *)
Theorem query_disagrees_with_counters :
  exists st, run [Notify 10; Notify 20] = Some st /\
    getCounter st 0 = Some 1 /\ getCounter st 1 = Some 1 /\ queryMinCompleted st 0 1 = Some 0.
Proof. eexists. split; [vm_compute; reflexivity|]. repeat split; vm_compute; reflexivity. Qed.

Lemma queryLoop_one fuel tr lo result v :
  (0 < fuel)%nat -> 0 <= lo -> load tr lo = Some v ->
  queryLoop (S fuel) tr lo (lo + 1) result = Some (Z.min result v).
Proof.
  intros Hf Hlo Hv. simpl. rewrite (proj2 (Z.ltb_lt lo (lo + 1))) by lia.
  destruct fuel as [|fuel]; [lia|]. replace (Z.odd (lo + 1)) with (negb (Z.odd lo)) by (by rewrite Z.odd_add).
  destruct (Z.odd lo) eqn:E; simpl.
  - rewrite Hv. simpl. by rewrite Z.ltb_irrefl.
  - replace (lo + 1 - 1) with lo by lia. rewrite Hv. simpl. by rewrite Z.ltb_irrefl.
Qed.

(** A query over a single slot returns that slot's counter. *)
Lemma query_single_slot st a v :
  0 <= a < K -> getCounter st a = Some v -> v <= U64_MAX -> queryMinCompleted st a a = Some v.
Proof.
  unfold getCounter, queryMinCompleted. intros Ha. rewrite Z.gtb_ltb, Z.ltb_irrefl.
  destruct (a >=? K) eqn:E; b2p; [lia|]. simpl. intros Hv Hmax.
  destruct (Z.to_nat (K + a + 1)) as [|fuel] eqn:Ef; [unfold kMaxTrackedStreams in *; lia|].
  rewrite queryLoop_one with (v := v); [f_equal; lia|unfold kMaxTrackedStreams in *; lia..|done].
Qed.

End StreamDepTracker.
