(* ===== verification/KvQuant.v ===== *)
(** * K/V-cache quantization

    Model of include/vgre/core/kv_quant.h: per-head symmetric absmax codes, one
    byte per value ([kvQuantInt8]) or two values per byte ([kvQuantInt4]).
    [float] is IEEE binary32 (the standard library's [spec_float] with 24-bit
    precision); arrays written through pointers are lists, and a write outside
    the list makes the operation [None]. *)

From Stdlib Require Export SpecFloat.
From S2P Require Import Prelude.

Module KvQuant.

(** ** binary32 *)

Abbreviation f32 := spec_float.
Definition fadd : f32 -> f32 -> f32 := SFadd 24 128.
Definition fmul : f32 -> f32 -> f32 := SFmul 24 128.
Definition fdiv : f32 -> f32 -> f32 := SFdiv 24 128.
Definition f32_of_Z (z : Z) : f32 := binary_normalize 24 128 z 0 false.
Definition fzero : f32 := S754_zero false.

(** [std::max(a, b)] and [std::min(a, b)]. *)
Definition fmax (a b : f32) : f32 := if SFltb a b then b else a.
Definition fmin (a b : f32) : f32 := if SFltb b a then b else a.

(** Round half to even of [m / 2 ^ k]. *)
Definition round_half_even (m k : Z) : Z :=
  let q := Z.shiftr m k in
  let r := m - Z.shiftl q k in
  let half := Z.shiftl 1 (k - 1) in
  if (half <? r) || ((r =? half) && Z.odd q) then q + 1 else q.

(** [std::nearbyint] in the default rounding mode. *)
Definition nearbyint (x : f32) : f32 :=
  match x with
  | S754_finite s m e =>
      if 0 <=? e then x
      else let n := round_half_even (Zpos m) (- e) in
           binary_normalize 24 128 (if s then - n else n) 0 s
  | _ => x
  end.

(** The value of [(int)x]; [None] where the conversion is undefined. *)
Definition int_of_f32 (x : f32) : option Z :=
  match x with
  | S754_zero _ => Some 0
  | S754_finite s m e =>
      let n := if 0 <=? e then Z.shiftl (Zpos m) e else Z.shiftr (Zpos m) (- e) in
      let v := if s then - n else n in
      if (- 2 ^ 31 <=? v) && (v <? 2 ^ 31) then Some v else None
  | _ => None
  end.

(** The conversion instruction of the x86-64 targets: the undefined cases give
    the most negative [int]. *)
Definition cvt_int (x : f32) : Z := default (- 2 ^ 31) (int_of_f32 x).

(** Low eight bits of an [int], as [int8_t]. *)
Definition i8 (z : Z) : Z := let b := u8 z in if b <? 128 then b else b - 256.

(** ** The codec *)

Definition absmax (src : list f32) : f32 :=
  foldl (fun amax x => fmax amax (SFabs x)) fzero src.

Definition quantScale (amax levels : f32) : f32 :=
  if SFltb fzero amax then fdiv amax levels else fzero.

Definition quantInv (scale : f32) : f32 :=
  if SFltb fzero scale then fdiv (f32_of_Z 1) scale else fzero.

Definition int8Code (inv x : f32) : Z :=
  let r := nearbyint (fmul x inv) in
  i8 (cvt_int (fmin (f32_of_Z 127) (fmax (f32_of_Z (-127)) r))).

(** [kvQuantInt8]: the codes and the scale. *)
Definition kvQuantInt8 (src : list f32) : list Z * f32 :=
  let scale := quantScale (absmax src) (f32_of_Z 127) in
  (int8Code (quantInv scale) <$> src, scale).

Definition kvDequantInt8 (code : Z) (scale : f32) : f32 := fmul (f32_of_Z code) scale.

Definition int4Code (inv x : f32) : Z :=
  Z.min 7 (Z.max (-7) (cvt_int (nearbyint (fmul x inv)))).

(** The read-modify-write of the nibble of channel [gch]. *)
Definition setNibble (gch c : Z) (packed : list Z) : option (list Z) :=
  let nib := u8 (c + 8) in
  byte ← packed !! Z.to_nat (Z.shiftr gch 1);
  let byte' := if Z.odd gch then Z.lor (Z.land byte 15) (u8 (Z.shiftl nib 4))
               else Z.lor (Z.land byte 240) nib in
  Some (<[Z.to_nat (Z.shiftr gch 1) := u8 byte']> packed).

Fixpoint packCodes (gch : Z) (cs : list Z) (packed : list Z) : option (list Z) :=
  match cs with
  | [] => Some packed
  | c :: cs => packed ← setNibble gch c packed; packCodes (gch + 1) cs packed
  end.

Definition kvQuantInt4 (src : list f32) (packed : list Z) (off : Z) : option (list Z * f32) :=
  let scale := quantScale (absmax src) (f32_of_Z 7) in
  packed ← packCodes off (int4Code (quantInv scale) <$> src) packed;
  Some (packed, scale).

Definition nibble (byte gch : Z) : Z :=
  if Z.odd gch then Z.shiftr byte 4 else Z.land byte 15.

Definition kvDequantInt4 (packedRow : list Z) (gch : Z) (scale : f32) : option f32 :=
  byte ← packedRow !! Z.to_nat (Z.shiftr gch 1);
  Some (fmul (f32_of_Z (nibble byte gch - 8)) scale).

(** ** Nibbles *)

Definition byte (b : Z) : Prop := 0 <= b < 256.

(** Exhaustive check of a property of a byte and a nibble. *)
Lemma check_byte_nibble (P : Z -> Z -> bool) :
  forallb (fun b => forallb (P b) (seqZ 0 16)) (seqZ 0 256) = true ->
  forall b n, byte b -> 0 <= n < 16 -> P b n = true.
Proof.
  rewrite forallb_forall. intros H b n Hb Hn.
  assert (In b (seqZ 0 256)) as Hin by (apply list_elem_of_In, elem_of_seqZ; unfold byte in Hb; lia).
  specialize (H b Hin). rewrite forallb_forall in H.
  apply H, list_elem_of_In, elem_of_seqZ. lia.
Qed.

(** The byte [setNibble] stores: the nibble of [gch] is [n], the other one is
    unchanged. *)
Definition newByte (odd : bool) (b n : Z) : Z :=
  u8 (if odd then Z.lor (Z.land b 15) (u8 (Z.shiftl n 4)) else Z.lor (Z.land b 240) n).

Lemma newByte_spec odd b n : byte b -> 0 <= n < 16 ->
  byte (newByte odd b n) /\
  (if odd then Z.shiftr (newByte odd b n) 4 else Z.land (newByte odd b n) 15) = n /\
  (if odd then Z.land (newByte odd b n) 15 else Z.shiftr (newByte odd b n) 4) =
    (if odd then Z.land b 15 else Z.shiftr b 4).
Proof.
  intros Hb Hn.
  pose proof (check_byte_nibble (fun b n => let b' := newByte odd b n in
    (0 <=? b') && (b' <? 256) && ((if odd then Z.shiftr b' 4 else Z.land b' 15) =? n) &&
    ((if odd then Z.land b' 15 else Z.shiftr b' 4) =? (if odd then Z.land b 15 else Z.shiftr b 4)))) as H.
  specialize (H ltac:(destruct odd; vm_compute; reflexivity) b n Hb Hn). cbv beta zeta in H. b2p.
  unfold byte. split_and!; try lia; done.
Qed.

(** Channels share a byte exactly when they differ in the low bit only. *)
Lemma same_byte g g' : Z.shiftr g 1 = Z.shiftr g' 1 -> Z.odd g = Z.odd g' -> g = g'.
Proof.
  rewrite <- !Z.div2_spec. intros Hd Ho. rewrite (Z.div2_odd g), (Z.div2_odd g'). by rewrite Hd, Ho.
Qed.

(** The nibble of channel [g] in a packed row. *)
Definition channel (row : list Z) (g : Z) : option Z :=
  byte ← row !! Z.to_nat (Z.shiftr g 1); Some (nibble byte g).

Lemma setNibble_spec g c row :
  0 <= g -> Z.shiftr g 1 < Z.of_nat (length row) -> -7 <= c <= 7 -> Forall byte row ->
  exists row', setNibble g c row = Some row' /\ length row' = length row /\ Forall byte row' /\
    channel row' g = Some (c + 8) /\
    forall g', 0 <= g' -> g' <> g -> channel row' g' = channel row g'.
Proof.
  intros Hg Hlen Hc Hrow. pose proof (proj2 (Z.shiftr_nonneg g 1) Hg) as Hs.
  destruct (lookup_lt_is_Some_2 row (Z.to_nat (Z.shiftr g 1))) as [b Hb]; [lia|].
  pose proof (Forall_lookup_1 _ _ _ _ Hrow Hb) as Hbb.
  unfold setNibble. rewrite Hb. simpl. replace (u8 (c + 8)) with (c + 8) by
    (unfold u8; rewrite Z.mod_small; lia).
  destruct (newByte_spec (Z.odd g) b (c + 8) Hbb ltac:(lia)) as (Hn1 & Hn2 & Hn3).
  eexists. split; [reflexivity|]. fold (newByte (Z.odd g) b (c + 8)).
  rewrite length_insert. split_and!; [done|by apply Forall_insert| |].
  - unfold channel. rewrite list_lookup_insert_eq by (by eapply lookup_lt_Some). simpl.
    unfold nibble. by rewrite Hn2.
  - intros g' Hg' Hne. unfold channel.
    destruct (decide (Z.shiftr g' 1 = Z.shiftr g 1)) as [E|E].
    + rewrite E, list_lookup_insert_eq, Hb by (by eapply lookup_lt_Some). simpl. f_equal.
      assert (Z.odd g' = negb (Z.odd g)) as Ho.
      { destruct (Z.odd g') eqn:E1, (Z.odd g) eqn:E2; try done; by destruct Hne; apply same_byte; congruence. }
      unfold nibble. rewrite Ho. by destruct (Z.odd g).
    + rewrite list_lookup_insert_ne; [done|].
      pose proof (proj2 (Z.shiftr_nonneg g' 1) Hg'). lia.
Qed.

Lemma packCodes_spec cs g row :
  0 <= g -> Z.shiftr (g + Z.of_nat (length cs) - 1) 1 < Z.of_nat (length row) ->
  Forall (fun c => -7 <= c <= 7) cs -> Forall byte row ->
  exists row', packCodes g cs row = Some row' /\ length row' = length row /\ Forall byte row' /\
    (forall i c, cs !! i = Some c -> channel row' (g + Z.of_nat i) = Some (c + 8)) /\
    (forall g', 0 <= g' -> ~ (g <= g' < g + Z.of_nat (length cs)) -> channel row' g' = channel row g').
Proof.
  revert g row. induction cs as [|c cs IH]; intros g row Hg Hlen Hcs Hrow.
  { exists row. split_and!; done. }
  apply Forall_cons in Hcs as [Hc Hcs]. simpl length in Hlen.
  destruct (setNibble_spec g c row) as (r1 & H1 & Hl1 & Hb1 & Hc1 & Ho1); [done| |done|done|].
  { apply Z.le_lt_trans with (2 := Hlen). rewrite !Z.shiftr_div_pow2 by lia. apply Z.div_le_mono; lia. }
  destruct (IH (g + 1) r1) as (r2 & H2 & Hl2 & Hb2 & Hc2 & Ho2); [lia| |done|done|].
  { rewrite Hl1. apply Z.le_lt_trans with (2 := Hlen). rewrite !Z.shiftr_div_pow2 by lia.
    apply Z.div_le_mono; lia. }
  exists r2. simpl. rewrite H1. simpl. split_and!; [done|congruence|done| |].
  - intros [|i] c' Hi; simpl in Hi; simplify_eq.
    + rewrite Ho2 by lia. by rewrite Z.add_0_r.
    + rewrite <- (Hc2 i c' Hi). f_equal. lia.
  - intros g' Hg' Hn. rewrite Ho2 by lia. apply Ho1; lia.
Qed.

Lemma int4Code_range inv x : -7 <= int4Code inv x <= 7.
Proof. unfold int4Code. lia. Qed.

(** The 4-bit codec keeps its channels apart.  Packing the values of one
    head into a row with room for them succeeds; reading a packed channel
    gives the channel's own code in [-7, 7] times the scale, and every channel
    outside the packed range reads as before, also one that shares a byte with
    a packed channel. *)
Theorem int4_roundtrip src row off :
  0 <= off -> Z.shiftr (off + Z.of_nat (length src) - 1) 1 < Z.of_nat (length row) -> Forall byte row ->
  exists row' scale, kvQuantInt4 src row off = Some (row', scale) /\
    length row' = length row /\ Forall byte row' /\
    (forall i x, src !! i = Some x ->
       kvDequantInt4 row' (off + Z.of_nat i) scale = Some (fmul (f32_of_Z (int4Code (quantInv scale) x)) scale)) /\
    (forall g sc, 0 <= g -> ~ (off <= g < off + Z.of_nat (length src)) ->
       kvDequantInt4 row' g sc = kvDequantInt4 row g sc).
Proof.
  intros Hoff Hlen Hrow. unfold kvQuantInt4. set (scale := quantScale (absmax src) (f32_of_Z 7)).
  destruct (packCodes_spec (int4Code (quantInv scale) <$> src) off row) as (row' & Hp & Hl & Hb & Hc & Ho);
    [done|by rewrite length_fmap|apply Forall_fmap, Forall_true; intros; apply int4Code_range|done|].
  rewrite length_fmap in Ho. exists row', scale. rewrite Hp. split_and!; [done|done|done| |].
  - intros i x Hi. specialize (Hc i (int4Code (quantInv scale) x)).
    rewrite list_lookup_fmap, Hi in Hc. specialize (Hc eq_refl). unfold channel, kvDequantInt4 in *.
    destruct (row' !! _); simplify_eq/=. by rewrite Hc, Z.add_simpl_r.
  - intros g sc Hg Hn. specialize (Ho g Hg Hn). unfold channel, kvDequantInt4 in *.
    destruct (row' !! _), (row !! _); simplify_eq/=; [by rewrite Ho|done].
Qed.

Lemma int4_roundtrip_witness :
  exists row' scale, kvQuantInt4 [f32_of_Z 3; f32_of_Z (-7)] [170; 187] 1 = Some (row', scale) /\
    kvDequantInt4 row' 2 scale = Some (fmul (f32_of_Z (int4Code (quantInv scale) (f32_of_Z (-7)))) scale).
Proof.
  destruct (int4_roundtrip [f32_of_Z 3; f32_of_Z (-7)] [170; 187] 1) as (row' & scale & Hq & _ & _ & Hc & _).
  - lia.
  - vm_compute. reflexivity.
  - repeat constructor; unfold byte; lia.
  - exists row', scale. split; [exact Hq|]. exact (Hc 1%nat _ eq_refl).
Defined.

(** ** The zero slice *)

Definition isZero (x : f32) : Prop := exists s, x = S754_zero s.

Lemma absmax_zero src : Forall isZero src -> absmax src = fzero.
Proof.
  unfold absmax. intros H. induction H as [|x src [s ->] _ IH]; simpl; [done|exact IH].
Qed.

(** Scale 0 and codes 0, so every value reads as zero. *)
Lemma int8_zero_slice src : Forall isZero src ->
  kvQuantInt8 src = (replicate (length src) 0, fzero).
Proof.
  intros H. unfold kvQuantInt8. rewrite (absmax_zero _ H). unfold quantScale.
  change (SFltb fzero fzero) with false. cbv iota. f_equal.
  induction H as [|x src [s ->] _ IH]; [done|]. cbn [fmap list_fmap length replicate]. rewrite IH. by destruct s.
Qed.

(** In a slice whose scale is subnormal the reciprocal of the scale
    overflows to infinity, and an exact zero is quantized to the code -127
    (0 * inf is NaN), the negated maximum of the slice. *)
Theorem int8_zero_becomes_minimum :
  let tiny := S754_finite false 524288 (-149) in
  exists scale, kvQuantInt8 [tiny; fzero] = ([127; -127], scale) /\
    SFltb (kvDequantInt8 (-127) scale) fzero = true.
Proof. eexists. split; vm_compute; reflexivity. Qed.

(** The conversion of the same NaN to [int] in [kvQuantInt4] is undefined. *)
Example int4_conversion_undefined :
  let tiny := S754_finite false 524288 (-149) in
  let inv := quantInv (quantScale (absmax [tiny; fzero]) (f32_of_Z 7)) in
  int_of_f32 (nearbyint (fmul fzero inv)) = None.
Proof. vm_compute. reflexivity. Qed.

End KvQuant.
