(* ===== verification/KvCache.v ===== *)
(** * The paged K/V cache

    Model of [KVCacheManager] (include/vgre/core/kv_cache.h,
    src/core/kv_cache.cpp): the block pool and its free list, block states,
    sequences with their block tables, and the K and V pools in the three
    storage types.  [freeList_] is kept with its back first.  An operation that
    would access an array outside its bounds is [None]; running out of host
    memory is not modelled. *)

From S2P Require Import Prelude KvQuant.
Import KvQuant.

Module KVCacheManager.

Inductive KVDType := F32 | I8 | I4.

#[export] Instance KVDType_eq_dec : EqDecision KVDType.
Proof. solve_decision. Defined.

Definition kBlockFree : Z := 0.
Definition kBlockRaw : Z := 1.
Definition kBlockSequence : Z := 2.

(** The exceptions the constructor throws. *)
Inductive exn := invalid_argument | length_error.

Definition requirePositiveDimension (value : Z) : result exn Z :=
  if value <=? 0 then Err invalid_argument else Ok value.

Definition checkedProduct (a b : Z) : result exn Z :=
  if negb (b =? 0) && (a >? U64_MAX / b) then Err length_error else Ok (a * b).

Definition checkedSum (a b : Z) : result exn Z :=
  if a >? U64_MAX - b then Err length_error else Ok (a + b).

(** The pools of K or of V; only those of the storage type are allocated. *)
Record Store := mkStore {
  pool : list f32;
  pool8 : list Z;
  pool4 : list Z;
  scale : list f32;
}.

Record Seq := mkSeq { blockTable : list Z; length_ : Z }.

Record t := mk {
  blockSize_ : Z;
  numHeads_ : Z;
  headDim_ : Z;
  dtype_ : KVDType;
  tokenStride_ : Z;
  blockStride_ : Z;
  packDim_ : Z;
  kStore : Store;
  vStore : Store;
  freeList_ : list Z;
  blockState_ : list Z;
  seqs_ : gmap Z Seq;
}.

Definition emptyStore : Store := mkStore [] [] [] [].

(** The pools the constructor allocates for a storage type. *)
Definition allocStore (dt : KVDType) (nElements nSlotHead packDim : Z) : result exn Store :=
  match dt with
  | I8 => Ok (mkStore [] (replicate (Z.to_nat nElements) 0) [] (replicate (Z.to_nat nSlotHead) fzero))
  | I4 => nPacked ← checkedProduct nSlotHead packDim;
          Ok (mkStore [] [] (replicate (Z.to_nat nPacked) 0) (replicate (Z.to_nat nSlotHead) fzero))
  | F32 => Ok (mkStore (replicate (Z.to_nat nElements) fzero) [] [] [])
  end.

(** An odd head dimension downgrades 4-bit storage. *)
Definition storageType (dtype : KVDType) (headDim : Z) : KVDType :=
  match dtype with I4 => if Z.odd headDim then I8 else I4 | _ => dtype end.

(** The constructor [KVCacheManager(numBlocks, blockSize, numHeads, headDim, dtype)]. *)
Definition create (numBlocks blockSize numHeads headDim : Z) (dtype : KVDType) : result exn t :=
  bs ← requirePositiveDimension blockSize;
  nh ← requirePositiveDimension numHeads;
  hd ← requirePositiveDimension headDim;
  tokenStride ← checkedProduct nh hd;
  blockStride ← checkedProduct bs tokenStride;
  let packDim := headDim / 2 in
  if numBlocks <? 0 then Err invalid_argument else
  let dt := storageType dtype headDim in
  nTokens ← checkedProduct numBlocks bs;
  nSlotHead ← checkedProduct nTokens nh;
  nElements ← checkedProduct numBlocks blockStride;
  store ← allocStore dt nElements nSlotHead packDim;
  Ok (mk bs nh hd dt tokenStride blockStride packDim store store
         (seqZ 0 numBlocks) (replicate (Z.to_nat numBlocks) kBlockFree) ∅).

Definition totalBlocks (st : t) : Z := Z.of_nat (length (blockState_ st)).
Definition freeBlocks (st : t) : Z := Z.of_nat (length (freeList_ st)).

Definition bytesPerToken (st : t) : result exn Z :=
  scaleBytes ← checkedProduct (numHeads_ st) 4;
  match dtype_ st with
  | I8 => codes ← checkedProduct (tokenStride_ st) 1;
          s ← checkedSum codes scaleBytes; checkedProduct 2 s
  | I4 => codes ← checkedProduct (numHeads_ st) (packDim_ st);
          s ← checkedSum codes scaleBytes; checkedProduct 2 s
  | F32 => s ← checkedProduct (tokenStride_ st) 4; checkedProduct 2 s
  end.

Definition set_blocks (st : t) (fl bs : list Z) (sq : gmap Z Seq) : t :=
  mk (blockSize_ st) (numHeads_ st) (headDim_ st) (dtype_ st) (tokenStride_ st) (blockStride_ st)
     (packDim_ st) (kStore st) (vStore st) fl bs sq.

Definition set_stores (st : t) (k v : Store) : t :=
  mk (blockSize_ st) (numHeads_ st) (headDim_ st) (dtype_ st) (tokenStride_ st) (blockStride_ st)
     (packDim_ st) k v (freeList_ st) (blockState_ st) (seqs_ st).

Definition allocateBlock (st : t) : t * Z :=
  match freeList_ st with
  | [] => (st, -1)
  | b :: fl => (set_blocks st fl (<[Z.to_nat b := kBlockRaw]> (blockState_ st)) (seqs_ st), b)
  end.

(** The loop that moves blocks from the free list to a block table. *)
Fixpoint moveBlocks (n : nat) (fl table states : list Z) : list Z * list Z * list Z :=
  match n, fl with
  | S n, b :: fl => moveBlocks n fl (table ++ [b]) (<[Z.to_nat b := kBlockSequence]> states)
  | _, _ => (fl, table, states)
  end.

Definition requiredBlocks (st : t) (tokenCapacity : Z) : Z :=
  tokenCapacity / blockSize_ st + (if negb (tokenCapacity mod blockSize_ st =? 0) then 1 else 0).

Definition reserveSequenceCapacity (st : t) (seq tokenCapacity : Z) : t * bool :=
  if tokenCapacity <? 0 then (st, false) else
  let required := requiredBlocks st tokenCapacity in
  if bool_decide (seqs_ st !! seq = None) && (required >? freeBlocks st) then (st, false) else
  let s := default (mkSeq [] 0) (seqs_ st !! seq) in
  let st := set_blocks st (freeList_ st) (blockState_ st) (<[seq := s]> (seqs_ st)) in
  if tokenCapacity <? length_ s then (st, false) else
  if required <=? Z.of_nat (length (blockTable s)) then (st, true) else
  let additional := required - Z.of_nat (length (blockTable s)) in
  if additional >? freeBlocks st then (st, false) else
  let '(fl, table, states) :=
    moveBlocks (Z.to_nat additional) (freeList_ st) (blockTable s) (blockState_ st) in
  (set_blocks st fl states (<[seq := mkSeq table (length_ s)]> (seqs_ st)), true).

Definition releaseBlock (st : t) (physBlock : Z) (sequenceRelease : bool) : t :=
  if (physBlock <? 0) || (totalBlocks st <=? physBlock) then st else
  let expected := if sequenceRelease then kBlockSequence else kBlockRaw in
  if negb (bool_decide (blockState_ st !! Z.to_nat physBlock = Some expected)) then st else
  set_blocks st (physBlock :: freeList_ st)
    (<[Z.to_nat physBlock := kBlockFree]> (blockState_ st)) (seqs_ st).

Definition freeBlock (st : t) (physBlock : Z) : t := releaseBlock st physBlock false.

(** The guard [keyPtr], [valPtr], [readKey] and [readVal] share. *)
Definition validSlot (st : t) (physBlock slot head : Z) : bool :=
  negb ((physBlock <? 0) || (totalBlocks st <=? physBlock) ||
        bool_decide (blockState_ st !! Z.to_nat physBlock = Some kBlockFree) ||
        (slot <? 0) || (blockSize_ st <=? slot) || (head <? 0) || (numHeads_ st <=? head)).

Definition slotIndex (st : t) (physBlock slot : Z) : Z := u64 (physBlock * blockSize_ st + slot).
Definition headIndex (st : t) (si head : Z) : Z := u64 (si * numHeads_ st + head).
Definition elemIndex (st : t) (si head : Z) : Z := u64 (si * tokenStride_ st + head * headDim_ st).
Definition packIndex (st : t) (si head : Z) : Z := u64 (headIndex st si head * packDim_ st).

(** [keyPtr] and [valPtr]: the index of the slice in the pool, [None] for
    [nullptr]. *)
Definition slicePtr (st : t) (physBlock slot head : Z) : option Z :=
  match dtype_ st with
  | F32 => if validSlot st physBlock slot head
           then Some (elemIndex st (slotIndex st physBlock slot) head) else None
  | _ => None
  end.

Definition readSlice (dt : KVDType) (s : Store) (slotHead elemBase packBase headDim packDim : Z) : option (list f32) :=
  match dt with
  | F32 => slice elemBase headDim (pool s)
  | I8 => sc ← scale s !! Z.to_nat slotHead;
          codes ← slice elemBase headDim (pool8 s);
          Some (map (fun c => kvDequantInt8 c sc) codes)
  | I4 => sc ← scale s !! Z.to_nat slotHead;
          row ← slice packBase packDim (pool4 s);
          @mapM option _ _ _ _ (fun i => kvDequantInt4 row i sc) (seqZ 0 headDim)
  end.

(** [readKey] and [readVal] into a buffer [out] of [headDim] floats. *)
Definition readHead (st : t) (s : Store) (physBlock slot head : Z) (out : list f32) : option (list f32) :=
  if negb (validSlot st physBlock slot head) then Some out else
  let si := slotIndex st physBlock slot in
  readSlice (dtype_ st) s (headIndex st si head) (elemIndex st si head) (packIndex st si head)
    (headDim_ st) (packDim_ st).

Definition readKey (st : t) := readHead st (kStore st).
Definition readVal (st : t) := readHead st (vStore st).

(** Quantizing one head slice of [src] into a store. *)
Definition writeHead (st : t) (si : Z) (src : list f32) (s : Store) (h : Z) : option Store :=
  hsrc ← slice (h * headDim_ st) (headDim_ st) src;
  let sh := headIndex st si h in
  _ ← scale s !! Z.to_nat sh;
  match dtype_ st with
  | I8 =>
      let '(codes, sc) := kvQuantInt8 hsrc in
      p ← blit (elemIndex st si h) codes (pool8 s);
      Some (mkStore (pool s) p (pool4 s) (<[Z.to_nat sh := sc]> (scale s)))
  | _ =>
      row ← slice (packIndex st si h) (packDim_ st) (pool4 s);
      '(row, sc) ← kvQuantInt4 hsrc row 0;
      p ← blit (packIndex st si h) row (pool4 s);
      Some (mkStore (pool s) (pool8 s) p (<[Z.to_nat sh := sc]> (scale s)))
  end.

Definition writeStore (st : t) (si : Z) (src : list f32) (s : Store) : option Store :=
  match dtype_ st with
  | F32 => tok ← slice 0 (tokenStride_ st) src;
           p ← blit (u64 (si * tokenStride_ st)) tok (pool s);
           Some (mkStore p (pool8 s) (pool4 s) (scale s))
  | _ => foldl (fun o h => o ≫= fun s => writeHead st si src s h) (Some s) (seqZ 0 (numHeads_ st))
  end.

(** [writeToken]: K and V go to separate pools. *)
Definition writeToken (st : t) (physBlock slot : Z) (kAllHeads vAllHeads : list f32) : option t :=
  let si := slotIndex st physBlock slot in
  k ← writeStore st si kAllHeads (kStore st);
  v ← writeStore st si vAllHeads (vStore st);
  Some (set_stores st k v).

(** [appendToken]; [None] as an argument is a null pointer. *)
Definition appendToken (st : t) (seq : Z) (kAllHeads vAllHeads : option (list f32)) : option (t * bool) :=
  match kAllHeads, vAllHeads with
  | Some kAll, Some vAll =>
      let s := default (mkSeq [] 0) (seqs_ st !! seq) in
      let st := set_blocks st (freeList_ st) (blockState_ st) (<[seq := s]> (seqs_ st)) in
      if length_ s =? INT_MAX then Some (st, false) else
      let slot := length_ s mod blockSize_ st in
      let logicalBlock := length_ s / blockSize_ st in
      let '(st, s, ok) :=
        if Z.of_nat (length (blockTable s)) <=? logicalBlock then
          let '(st, b) := allocateBlock st in
          if b <? 0 then (st, s, false) else
          let s := mkSeq (blockTable s ++ [b]) (length_ s) in
          (set_blocks st (freeList_ st) (<[Z.to_nat b := kBlockSequence]> (blockState_ st))
             (<[seq := s]> (seqs_ st)), s, true)
        else (st, s, true) in
      if negb ok then Some (st, false) else
      physBlock ← blockTable s !! Z.to_nat logicalBlock;
      st ← writeToken st physBlock slot kAll vAll;
      Some (set_blocks st (freeList_ st) (blockState_ st)
              (<[seq := mkSeq (blockTable s) (length_ s + 1)]> (seqs_ st)), true)
  | _, _ => Some (st, false)
  end.

Definition seqLen (st : t) (seq : Z) : Z := match seqs_ st !! seq with Some s => length_ s | None => 0 end.
Definition hasSequence (st : t) (seq : Z) : bool := bool_decide (is_Some (seqs_ st !! seq)).
Definition blockTableOf (st : t) (seq : Z) : list Z :=
  match seqs_ st !! seq with Some s => blockTable s | None => [] end.

Definition freeSequence (st : t) (seq : Z) : t :=
  match seqs_ st !! seq with
  | None => st
  | Some s =>
      let st := foldl (fun st b => releaseBlock st b true) st (blockTable s) in
      set_blocks st (freeList_ st) (blockState_ st) (delete seq (seqs_ st))
  end.

(** ** Geometry of the pools *)

(** What the constructor establishes about the dimensions. *)
Record cfg_ok (st : t) : Prop := mkCfg {
  cfg_bs : 0 < blockSize_ st;
  cfg_nh : 0 < numHeads_ st;
  cfg_hd : 0 < headDim_ st;
  cfg_ts : tokenStride_ st = numHeads_ st * headDim_ st;
  cfg_pd : packDim_ st = headDim_ st / 2;
  cfg_even : dtype_ st = I4 -> headDim_ st = 2 * packDim_ st;
  cfg_elems : totalBlocks st * blockSize_ st * numHeads_ st * headDim_ st <= U64_MAX;
}.

(** Number of (block, slot, head) triples. *)
Definition heads (st : t) : Z := totalBlocks st * blockSize_ st * numHeads_ st.

Definition store_ok (st : t) (s : Store) : Prop :=
  match dtype_ st with
  | F32 => Z.of_nat (length (pool s)) = heads st * headDim_ st
  | I8 => Z.of_nat (length (pool8 s)) = heads st * headDim_ st /\ Z.of_nat (length (scale s)) = heads st
  | I4 => Z.of_nat (length (pool4 s)) = heads st * packDim_ st /\ Z.of_nat (length (scale s)) = heads st /\
          Forall byte (pool4 s)
  end.

(** The value of the head slice with index [g]. *)
Definition headAt (st : t) (s : Store) (g : Z) : option (list f32) :=
  readSlice (dtype_ st) s g (g * headDim_ st) (g * packDim_ st) (headDim_ st) (packDim_ st).

(** What reading back a head slice gives: the slice itself, or its
    dequantized codes. *)
Definition stored (dt : KVDType) (l : list f32) : list f32 :=
  match dt with
  | F32 => l
  | I8 => let '(codes, sc) := kvQuantInt8 l in map (fun c => kvDequantInt8 c sc) codes
  | I4 => let sc := quantScale (absmax l) (f32_of_Z 7) in
          map (fun x => fmul (f32_of_Z (int4Code (quantInv sc) x)) sc) l
  end.

(** The slice of head [h] in a token of all heads. *)
Definition hslice (st : t) (h : Z) (src : list f32) : list f32 :=
  take (Z.to_nat (headDim_ st)) (drop (Z.to_nat (h * headDim_ st)) src).

Lemma mul_lt_lin a b n m : 0 <= a < n -> 0 <= b < m -> 0 <= a * m + b < n * m.
Proof. intros. nia. Qed.

Section Geometry.
Context (st : t) (Hcfg : cfg_ok st).

Local Abbreviation nh := (numHeads_ st).
Local Abbreviation hd := (headDim_ st).
Local Abbreviation pd := (packDim_ st).
Local Abbreviation bs := (blockSize_ st).
Local Abbreviation n := (totalBlocks st).

Lemma pd_bounds : 0 <= pd /\ 2 * pd <= hd.
Proof.
  rewrite (cfg_pd _ Hcfg). pose proof (cfg_hd _ Hcfg). pose proof (Z.div_mod hd 2).
  pose proof (Z.mod_pos_bound hd 2). lia.
Qed.

Lemma heads_nonneg : 0 <= n * bs /\ n * bs <= heads st.
Proof.
  pose proof (cfg_bs _ Hcfg). pose proof (cfg_nh _ Hcfg). unfold heads.
  assert (0 <= n) by (unfold totalBlocks; lia).
  assert (0 <= n * bs) by (apply Z.mul_nonneg_nonneg; lia). split; [done|].
  rewrite <- (Z.mul_1_r (n * bs)) at 1. apply Z.mul_le_mono_nonneg_l; lia.
Qed.

Lemma head_u64 g d : 0 <= g < heads st -> 0 <= d <= hd -> u64 (g * d) = g * d.
Proof.
  intros Hg Hd. apply u64_small. pose proof (cfg_elems _ Hcfg) as He. fold (heads st) in He.
  assert (g * d < 2 ^ 64); [|split; [apply Z.mul_nonneg_nonneg; lia|done]].
  apply Z.le_lt_trans with (heads st * hd); [apply Z.mul_le_mono_nonneg; lia|].
  unfold U64_MAX in He. lia.
Qed.

Lemma head_u64_1 g : 0 <= g < heads st -> u64 g = g.
Proof.
  intros Hg. rewrite <- (Z.mul_1_r g) at 1. rewrite head_u64; [lia|done|].
  pose proof (cfg_hd _ Hcfg). lia.
Qed.

Lemma slotIndex_ok b slot : 0 <= b < n -> 0 <= slot < bs ->
  slotIndex st b slot = b * bs + slot /\ 0 <= b * bs + slot < n * bs.
Proof.
  intros Hb Hs. pose proof (mul_lt_lin b slot n bs Hb Hs) as H. split; [|done].
  pose proof heads_nonneg. apply head_u64_1. lia.
Qed.

Lemma head_bounds si h : 0 <= si < n * bs -> 0 <= h < nh -> 0 <= si * nh + h < heads st.
Proof. intros. unfold heads. by apply mul_lt_lin. Qed.

Lemma headIndex_ok si h : 0 <= si < n * bs -> 0 <= h < nh -> headIndex st si h = si * nh + h.
Proof. intros Hs Hh. by apply head_u64_1, head_bounds. Qed.

Lemma elemIndex_ok si h : 0 <= si < n * bs -> 0 <= h < nh -> elemIndex st si h = (si * nh + h) * hd.
Proof.
  intros Hs Hh. unfold elemIndex. rewrite (cfg_ts _ Hcfg).
  replace (si * (nh * hd) + h * hd) with ((si * nh + h) * hd) by lia.
  pose proof (cfg_hd _ Hcfg). apply head_u64; [by apply head_bounds|lia].
Qed.

Lemma packIndex_ok si h : 0 <= si < n * bs -> 0 <= h < nh -> packIndex st si h = (si * nh + h) * pd.
Proof.
  intros Hs Hh. unfold packIndex. rewrite (headIndex_ok si h Hs Hh), head_u64; [done|by apply head_bounds|].
  pose proof pd_bounds. lia.
Qed.

Lemma disjoint_slices g g' d : 0 <= d -> 0 <= g -> 0 <= g' -> g' <> g ->
  g' * d + d <= g * d \/ g * d + d <= g' * d.
Proof. intros. destruct (decide (g' < g)); [left|right]; nia. Qed.

Lemma slice_bound g d : 0 <= d -> 0 <= g < heads st -> 0 <= g * d /\ g * d + d <= heads st * d.
Proof. intros. nia. Qed.

Lemma mapM_seqZ {A} (f : Z -> option A) (l : list A) m :
  Z.of_nat (length l) = m -> (forall i x, l !! i = Some x -> f (Z.of_nat i) = Some x) ->
  mapM f (seqZ 0 m) = Some l.
Proof.
  intros Hl Hf. apply mapM_Some_2, Forall2_same_length_lookup_2.
  - rewrite length_seqZ. lia.
  - intros i x y Hx Hy. apply lookup_seqZ in Hx as [-> _]. by apply Hf.
Qed.

Lemma length_hslice h src : 0 <= h < nh -> Z.of_nat (length src) = tokenStride_ st ->
  slice (h * hd) hd src = Some (hslice st h src) /\ Z.of_nat (length (hslice st h src)) = hd.
Proof.
  intros Hh Hl. pose proof (cfg_hd _ Hcfg). rewrite (cfg_ts _ Hcfg) in Hl.
  assert (slice (h * hd) hd src = Some (hslice st h src)) as Hs by (apply slice_Some; nia).
  split; [done|]. by apply slice_length in Hs.
Qed.

(** ** Writing a head slice *)

Lemma writeHead_I8 si h src s : dtype_ st = I8 -> store_ok st s ->
  0 <= si < n * bs -> 0 <= h < nh -> Z.of_nat (length src) = tokenStride_ st ->
  exists s', writeHead st si src s h = Some s' /\ store_ok st s' /\
    headAt st s' (si * nh + h) = Some (stored I8 (hslice st h src)) /\
    (forall g, 0 <= g -> g <> si * nh + h -> headAt st s' g = headAt st s g).
Proof.
  intros Hdt Hok Hsi Hh Hsrc. unfold store_ok in Hok. rewrite Hdt in Hok. destruct Hok as [Hp Hs].
  pose proof (head_bounds si h Hsi Hh) as Hg. pose proof (cfg_hd _ Hcfg) as Hhd.
  destruct (length_hslice h src Hh Hsrc) as [Hsl Hll]. unfold writeHead. rewrite Hsl. simpl.
  rewrite headIndex_ok, elemIndex_ok, Hdt by done. set (g := si * nh + h) in *.
  destruct (lookup_lt_is_Some_2 (scale s) (Z.to_nat g)) as [sc0 Hsc]; [lia|]. rewrite Hsc. simpl.
  set (codes := int8Code _ <$> _). assert (Z.of_nat (length codes) = hd) as Hc.
  { unfold codes. by rewrite length_fmap. }
  destruct (slice_bound g hd ltac:(lia) Hg) as [Hb1 Hb2].
  destruct (blit_Some (g * hd) codes (pool8 s)) as (p' & -> & Hpl & Hps & Hpo & _); [lia|lia|].
  rewrite Hc in Hps, Hpo. simpl. eexists. split; [reflexivity|].
  unfold store_ok, headAt. rewrite Hdt. simpl. rewrite length_insert.
  split_and!; [lia|done| |].
  - rewrite list_lookup_insert_eq by lia. simpl. by rewrite Hps.
  - intros g' Hg' Hne. rewrite list_lookup_insert_ne by lia.
    by rewrite Hpo by (destruct (disjoint_slices g g' hd); lia).
Qed.

Lemma writeHead_I4 si h src s : dtype_ st = I4 -> store_ok st s ->
  0 <= si < n * bs -> 0 <= h < nh -> Z.of_nat (length src) = tokenStride_ st ->
  exists s', writeHead st si src s h = Some s' /\ store_ok st s' /\
    headAt st s' (si * nh + h) = Some (stored I4 (hslice st h src)) /\
    (forall g, 0 <= g -> g <> si * nh + h -> headAt st s' g = headAt st s g).
Proof.
  intros Hdt Hok Hsi Hh Hsrc. unfold store_ok in Hok. rewrite Hdt in Hok. destruct Hok as (Hp & Hs & Hby).
  pose proof (head_bounds si h Hsi Hh) as Hg. pose proof (cfg_hd _ Hcfg) as Hhd.
  pose proof pd_bounds as Hpd. pose proof (cfg_even _ Hcfg Hdt) as Hev.
  destruct (length_hslice h src Hh Hsrc) as [Hsl Hll]. unfold writeHead. rewrite Hsl. simpl.
  rewrite headIndex_ok, packIndex_ok, Hdt by done. set (g := si * nh + h) in *.
  destruct (lookup_lt_is_Some_2 (scale s) (Z.to_nat g)) as [sc0 Hsc]; [lia|]. rewrite Hsc. simpl.
  destruct (slice_bound g pd ltac:(lia) Hg) as [Hb1 Hb2].
  rewrite slice_Some by lia. simpl. set (row := take _ _).
  assert (Z.of_nat (length row) = pd) as Hrl.
  { unfold row. rewrite length_take, length_drop. lia. }
  unfold kvQuantInt4. set (sc := quantScale _ _).
  destruct (packCodes_spec (int4Code (quantInv sc) <$> hslice st h src) 0 row) as (row' & -> & Hrl' & Hrb & Hrc & _);
    [done|rewrite length_fmap, Hll, Hrl, Z.shiftr_div_pow2 by lia; apply Z.div_lt_upper_bound; lia
    |apply Forall_fmap, Forall_true; intros; apply int4Code_range|by apply Forall_take, Forall_drop|].
  simpl. destruct (blit_Some (g * pd) row' (pool4 s)) as (p' & Hbl & Hpl & Hps & Hpo & Hpi); [lia|lia|].
  rewrite Hbl. simpl. rewrite Hrl', Hrl in Hps, Hpo. eexists. split; [reflexivity|].
  unfold store_ok, headAt. rewrite Hdt. simpl. rewrite length_insert.
  split_and!; [lia|done| | |].
  - unfold blit in Hbl. case_in Hbl; simplify_eq.
    apply Forall_lookup. intros i b [[_ Hi]|(_ & _ & Hi)]%list_lookup_inserts_Some.
    + by apply (Forall_lookup_1 _ _ _ _ Hby Hi).
    + by apply (Forall_lookup_1 _ _ _ _ Hrb Hi).
  - rewrite list_lookup_insert_eq by lia. simpl. rewrite Hps. simpl. apply mapM_seqZ.
    + by rewrite length_map.
    + intros i x Hx. apply list_lookup_fmap_Some in Hx as (y & -> & Hy).
      specialize (Hrc i (int4Code (quantInv sc) y)). rewrite list_lookup_fmap, Hy in Hrc.
      specialize (Hrc eq_refl). unfold channel, kvDequantInt4 in *. rewrite Z.add_0_l in Hrc.
      destruct (row' !! _); simplify_eq/=. by rewrite Hrc, Z.add_simpl_r.
  - intros g' Hg' Hne. rewrite list_lookup_insert_ne by lia.
    by rewrite Hpo by (destruct (disjoint_slices g g' pd); lia).
Qed.

Lemma writeHeads_spec dt hs si src s :
  dtype_ st = dt -> dt <> F32 -> store_ok st s -> 0 <= si < n * bs -> Z.of_nat (length src) = tokenStride_ st ->
  NoDup hs -> Forall (fun h => 0 <= h < nh) hs ->
  exists s', foldl (fun o h => o ≫= fun s => writeHead st si src s h) (Some s) hs = Some s' /\ store_ok st s' /\
    (forall h, h ∈ hs -> headAt st s' (si * nh + h) = Some (stored dt (hslice st h src))) /\
    (forall g, 0 <= g -> (forall h, h ∈ hs -> g <> si * nh + h) -> headAt st s' g = headAt st s g).
Proof.
  intros Hdt Hf Hok Hsi Hsrc. revert s Hok. induction hs as [|h hs IH] using rev_ind; intros s Hok Hnd Hr.
  { exists s. split_and!; [done|done|by intros ? ?%elem_of_nil|done]. }
  apply Forall_app in Hr as [Hr [Hh _]%Forall_cons]. apply NoDup_app in Hnd as (Hnd & Hd & _).
  destruct (IH s Hok Hnd Hr) as (s1 & H1 & Hok1 & Hin1 & Hout1).
  assert (exists s', writeHead st si src s1 h = Some s' /\ store_ok st s' /\
    headAt st s' (si * nh + h) = Some (stored dt (hslice st h src)) /\
    (forall g, 0 <= g -> g <> si * nh + h -> headAt st s' g = headAt st s1 g))
    as (s2 & H2 & Hok2 & Hin2 & Hout2).
  { destruct dt; [done|by apply writeHead_I8|by apply writeHead_I4]. }
  exists s2. rewrite foldl_snoc, H1. split_and!; [done|done| |].
  - intros h' Hh'. apply elem_of_app in Hh' as [Hh'|Hh']; [|by apply list_elem_of_singleton in Hh' as ->].
    rewrite Hout2; [by apply Hin1| |].
    + rewrite Forall_forall in Hr. specialize (Hr _ Hh'). pose proof (head_bounds si h' Hsi Hr). lia.
    + intros E. assert (h' = h) as -> by lia. apply (Hd h Hh'). by apply list_elem_of_singleton.
  - intros g Hg Hne. rewrite Hout2, Hout1; [done|done| |done|].
    + intros h' Hh'. apply Hne. apply elem_of_app. by left.
    + apply Hne. apply elem_of_app. right. by apply list_elem_of_singleton.
Qed.

Lemma writeStore_F32 si src s : dtype_ st = F32 -> store_ok st s ->
  0 <= si < n * bs -> Z.of_nat (length src) = tokenStride_ st ->
  exists s', writeStore st si src s = Some s' /\ store_ok st s' /\
    (forall h, 0 <= h < nh -> headAt st s' (si * nh + h) = Some (stored F32 (hslice st h src))) /\
    (forall g, 0 <= g -> (forall h, 0 <= h < nh -> g <> si * nh + h) -> headAt st s' g = headAt st s g).
Proof.
  intros Hdt Hok Hsi Hsrc. unfold store_ok in Hok. rewrite Hdt in Hok.
  pose proof (cfg_nh _ Hcfg) as Hnh. pose proof (cfg_hd _ Hcfg) as Hhd. pose proof (cfg_ts _ Hcfg) as Hts.
  pose proof (head_bounds si 0 Hsi ltac:(lia)) as Hg0.
  pose proof (head_bounds si (nh - 1) Hsi ltac:(lia)) as Hg1.
  unfold writeStore. rewrite Hdt, slice_Some by lia. simpl. rewrite drop_0, take_ge by lia.
  replace (u64 (si * tokenStride_ st)) with ((si * nh) * hd)
    by (rewrite Hts; replace (si * (nh * hd)) with (si * nh * hd) by lia; symmetry; apply head_u64; lia).
  destruct (blit_Some (si * nh * hd) src (pool s)) as (p & -> & Hl & Hin & Hout & _); [nia| |].
  { rewrite Hsrc, Hok, Hts. replace (si * nh * hd + nh * hd) with ((si * nh + nh) * hd) by lia.
    apply Z.mul_le_mono_nonneg_r; lia. }
  simpl. eexists. split; [done|]. unfold store_ok, headAt. rewrite Hdt. simpl. split_and!; [lia| |].
  - intros h Hh. replace ((si * nh + h) * hd) with (si * nh * hd + h * hd) by lia.
    rewrite (slice_sub _ (Z.of_nat (length src)) _ _ _ src) by (done || nia).
    by apply length_hslice.
  - intros g Hg Hne. rewrite Hout; [done|]. rewrite Hsrc, Hts.
    destruct (decide (g < si * nh)) as [?|?]; [left; nia|right].
    specialize (Hne (g - si * nh)). assert (si * nh + nh <= g) by lia. nia.
Qed.

(** Writing a token gives each of its heads its stored value and leaves every
    other slice of the store. *)
Lemma writeStore_spec si src s : store_ok st s -> 0 <= si < n * bs -> Z.of_nat (length src) = tokenStride_ st ->
  exists s', writeStore st si src s = Some s' /\ store_ok st s' /\
    (forall h, 0 <= h < nh -> headAt st s' (si * nh + h) = Some (stored (dtype_ st) (hslice st h src))) /\
    (forall si' h, 0 <= si' -> si' <> si -> 0 <= h < nh ->
       headAt st s' (si' * nh + h) = headAt st s (si' * nh + h)).
Proof.
  intros Hok Hsi Hsrc.
  assert (exists s', writeStore st si src s = Some s' /\ store_ok st s' /\
    (forall h, 0 <= h < nh -> headAt st s' (si * nh + h) = Some (stored (dtype_ st) (hslice st h src))) /\
    (forall g, 0 <= g -> (forall h, 0 <= h < nh -> g <> si * nh + h) -> headAt st s' g = headAt st s g))
    as (s' & Hw & Hok' & Hin & Hout).
  { destruct (decide (dtype_ st = F32)) as [E|E]; [rewrite E; by apply writeStore_F32|].
    destruct (writeHeads_spec (dtype_ st) (seqZ 0 nh) si src s) as (s' & Hw & Hok' & Hin & Hout);
      [done..|apply NoDup_seqZ|apply Forall_seqZ; lia|].
    exists s'. split_and!.
    - unfold writeStore. by destruct (dtype_ st).
    - done.
    - intros h Hh. apply Hin, elem_of_seqZ. lia.
    - intros g Hg Hne. apply Hout; [done|]. intros h Hh%elem_of_seqZ. apply Hne. lia. }
  exists s'. split_and!; [done..|]. intros si' h Hs' Hne Hh. apply Hout; [nia|].
  intros h' Hh' E. apply Hne. assert (si' * nh + h = si * nh + h') as E' by done. nia.
Qed.

End Geometry.

(** ** Block ownership *)

(** Block [b] is entry [i] of the table of sequence [s]. *)
Definition own (tabs : gmap Z (list Z)) (s : Z) (i : nat) (b : Z) : Prop :=
  exists tab, tabs !! s = Some tab /\ tab !! i = Some b.

Lemma own_insert tabs s tab s' i b :
  own (<[s := tab]> tabs) s' i b <-> (s' = s /\ tab !! i = Some b) \/ (s' <> s /\ own tabs s' i b).
Proof.
  unfold own. destruct (decide (s' = s)) as [->|Hne].
  - rewrite lookup_insert_eq. naive_solver.
  - rewrite lookup_insert_ne by done. naive_solver.
Qed.

(** Every block is in exactly one place: the free list, a raw allocation, or
    one entry of one sequence's table. *)
Record blocks_inv (fl states : list Z) (tabs : gmap Z (list Z)) : Prop := mkBlocks {
  bi_nodup : NoDup fl;
  bi_free : forall b, b ∈ fl <-> 0 <= b /\ states !! Z.to_nat b = Some kBlockFree;
  bi_states : Forall (fun x => x = kBlockFree \/ x = kBlockRaw \/ x = kBlockSequence) states;
  bi_owner : forall s i b, own tabs s i b -> 0 <= b /\ states !! Z.to_nat b = Some kBlockSequence;
  bi_inj : forall s1 i1 s2 i2 b, own tabs s1 i1 b -> own tabs s2 i2 b -> s1 = s2 /\ i1 = i2;
  bi_owned : forall b, 0 <= b -> states !! Z.to_nat b = Some kBlockSequence -> exists s i, own tabs s i b;
}.

(** The state of one block changes. *)
Lemma state_insert (states : list Z) b x b' y : 0 <= b -> 0 <= b' -> (Z.to_nat b < length states)%nat ->
  <[Z.to_nat b := x]> states !! Z.to_nat b' = Some y <->
  (b' = b /\ y = x) \/ (b' <> b /\ states !! Z.to_nat b' = Some y).
Proof.
  intros Hb Hb' Hl. destruct (decide (b' = b)) as [->|Hne].
  - rewrite list_lookup_insert_eq by done. naive_solver.
  - rewrite list_lookup_insert_ne by lia. naive_solver.
Qed.

Lemma head_free b fl states tabs : blocks_inv (b :: fl) states tabs ->
  0 <= b /\ states !! Z.to_nat b = Some kBlockFree /\ (Z.to_nat b < length states)%nat /\ (b ∉ fl) /\
  (forall s i, ~ own tabs s i b).
Proof.
  intros H. pose proof (proj1 (bi_free _ _ _ H b) ltac:(left)) as [Hb Hs].
  pose proof (bi_nodup _ _ _ H) as [Hn _]%NoDup_cons. split_and!; [done|done|by eapply lookup_lt_Some|done|].
  intros s i Ho. apply (bi_owner _ _ _ H) in Ho as [_ Ho]. unfold kBlockSequence, kBlockFree in *. congruence.
Qed.

(** A block leaves the free list with state [x]. *)
Lemma free_uncons b fl states tabs x : blocks_inv (b :: fl) states tabs -> x <> kBlockFree ->
  NoDup fl /\ forall b', b' ∈ fl <-> 0 <= b' /\ <[Z.to_nat b := x]> states !! Z.to_nat b' = Some kBlockFree.
Proof.
  intros H Hx. destruct (head_free _ _ _ _ H) as (Hb & Hs & Hl & Hni & _).
  split; [by pose proof (bi_nodup _ _ _ H) as [_ ?]%NoDup_cons|].
  intros b'. pose proof (bi_free _ _ _ H b') as Hf. rewrite elem_of_cons in Hf.
  destruct (decide (0 <= b')); [rewrite state_insert by done|]; naive_solver.
Qed.

Lemma take_block b fl states tabs s tab : blocks_inv (b :: fl) states tabs -> tabs !! s = Some tab ->
  blocks_inv fl (<[Z.to_nat b := kBlockSequence]> states) (<[s := tab ++ [b]]> tabs).
Proof.
  intros H Htab. destruct (head_free _ _ _ _ H) as (Hb & Hs & Hl & Hni & Hno).
  destruct (free_uncons _ _ _ _ kBlockSequence H) as [Hnd Hfr]; [done|].
  assert (forall s' i b', own (<[s := tab ++ [b]]> tabs) s' i b' <->
            own tabs s' i b' \/ (s' = s /\ i = length tab /\ b' = b)) as Hown.
  { intros s' i b'. rewrite own_insert. split.
    - intros [[-> Hi]|[Hne Ho]]; [|by left].
      apply lookup_snoc_Some in Hi as [[_ Hi]|[-> <-]]; [left; by exists tab|by right].
    - intros [Ho|(-> & -> & ->)]; [|left; by rewrite lookup_app_r, Nat.sub_diag by lia].
      destruct (decide (s' = s)) as [->|]; [left|by right]. destruct Ho as (tab' & Ht & Hi). simplify_eq.
      split; [done|]. by apply lookup_app_l_Some. }
  split; [done|done|apply Forall_insert; [apply H|auto]| | |].
  - intros s' i b'. rewrite Hown. intros [Ho|(-> & -> & ->)].
    + pose proof (bi_owner _ _ _ H _ _ _ Ho) as [? ?]. split; [done|]. rewrite state_insert by done. right.
      split; [|done]. intros ->. by eapply Hno.
    + split; [done|]. rewrite state_insert by done. by left.
  - intros s1 i1 s2 i2 b'. rewrite !Hown. pose proof (bi_inj _ _ _ H s1 i1 s2 i2 b'). naive_solver.
  - intros b' Hb'. rewrite state_insert by done. intros [[-> _]|[_ Ho]].
    + exists s, (length tab). apply Hown. by right.
    + destruct (bi_owned _ _ _ H b' Hb' Ho) as (s' & i & Ho'). exists s', i. apply Hown. by left.
Qed.

Lemma take_raw b fl states tabs : blocks_inv (b :: fl) states tabs ->
  blocks_inv fl (<[Z.to_nat b := kBlockRaw]> states) tabs.
Proof.
  intros H. destruct (head_free _ _ _ _ H) as (Hb & Hs & Hl & Hni & Hno).
  destruct (free_uncons _ _ _ _ kBlockRaw H) as [Hnd Hfr]; [done|].
  split; [done|done|apply Forall_insert; [apply H|auto]| |apply H|].
  - intros s' i b' Ho. pose proof (bi_owner _ _ _ H _ _ _ Ho) as [? ?]. split; [done|].
    rewrite state_insert by done. right. split; [|done]. intros ->. by eapply Hno.
  - intros b' Hb'. rewrite state_insert by done. intros [[_ ?]|[_ Ho]]; [done|].
    by apply (bi_owned _ _ _ H).
Qed.

(** A block that is not free returns to the free list; the owners of the
    other blocks are unchanged. *)
Lemma release_block b x fl states tabs tabs' : blocks_inv fl states tabs -> 0 <= b ->
  states !! Z.to_nat b = Some x -> x <> kBlockFree ->
  (forall s i, ~ own tabs' s i b) ->
  (forall s i b', b' <> b -> own tabs' s i b' -> exists i', own tabs s i' b' /\
     forall i2, own tabs' s i2 b' -> i2 = i) ->
  (forall s i b', b' <> b -> own tabs s i b' -> exists i', own tabs' s i' b') ->
  blocks_inv (b :: fl) (<[Z.to_nat b := kBlockFree]> states) tabs'.
Proof.
  intros H Hb Hs Hx Hno Hold Hnew.
  assert (Z.to_nat b < length states)%nat as Hl by (by eapply lookup_lt_Some). split.
  - apply NoDup_cons. split; [|apply H]. rewrite (bi_free _ _ _ H). intros [_ ?]. congruence.
  - intros b'. rewrite elem_of_cons, (bi_free _ _ _ H).
    destruct (decide (0 <= b')); [rewrite state_insert by done|]; naive_solver.
  - apply Forall_insert; [apply H|auto].
  - intros s i b' Ho. assert (b' <> b) as Hne by (intros ->; by eapply Hno).
    destruct (Hold _ _ _ Hne Ho) as (i' & Ho' & _). pose proof (bi_owner _ _ _ H _ _ _ Ho') as [? ?].
    split; [done|]. rewrite state_insert by done. by right.
  - intros s1 i1 s2 i2 b' H1 H2. assert (b' <> b) as Hne by (intros ->; by eapply Hno).
    destruct (Hold _ _ _ Hne H1) as (i1' & H1' & Hu). destruct (Hold _ _ _ Hne H2) as (i2' & H2' & _).
    destruct (bi_inj _ _ _ H _ _ _ _ _ H1' H2') as [-> _]. split; [done|]. symmetry. by apply Hu.
  - intros b' Hb'. rewrite state_insert by done. intros [[_ ?]|[Hne Ho]]; [done|].
    destruct (bi_owned _ _ _ H b' Hb' Ho) as (s & i & Ho'). exists s. by eapply Hnew.
Qed.

Lemma release_raw b fl states tabs : blocks_inv fl states tabs -> 0 <= b ->
  states !! Z.to_nat b = Some kBlockRaw ->
  blocks_inv (b :: fl) (<[Z.to_nat b := kBlockFree]> states) tabs.
Proof.
  intros H Hb Hs. apply (release_block _ kBlockRaw _ _ tabs); try done.
  - intros s i Ho. apply (bi_owner _ _ _ H) in Ho as [_ Ho]. unfold kBlockSequence, kBlockRaw in *. congruence.
  - intros s i b' _ Ho. exists i. split; [done|]. intros i2 Ho2. by eapply (bi_inj _ _ _ H).
  - eauto.
Qed.

Lemma release_head s b tab fl states tabs : blocks_inv fl states tabs -> tabs !! s = Some (b :: tab) ->
  0 <= b /\ states !! Z.to_nat b = Some kBlockSequence /\
  blocks_inv (b :: fl) (<[Z.to_nat b := kBlockFree]> states) (<[s := tab]> tabs).
Proof.
  intros H Ht. assert (own tabs s 0 b) as H0 by (by exists (b :: tab)).
  pose proof (bi_owner _ _ _ H _ _ _ H0) as [Hb Hs]. split_and!; [done|done|].
  assert (forall i b', tab !! i = Some b' -> own tabs s (S i) b') as Hsh by (intros; by exists (b :: tab)).
  apply (release_block _ kBlockSequence _ _ tabs); try done.
  - intros s' i [[-> Hi]|[Hne Ho]]%own_insert.
    + by destruct (bi_inj _ _ _ H _ _ _ _ _ H0 (Hsh _ _ Hi)).
    + by destruct (bi_inj _ _ _ H _ _ _ _ _ H0 Ho).
  - intros s' i b' Hne [[-> Hi]|[Hs' Ho]]%own_insert.
    + exists (S i). split; [by apply Hsh|]. intros i2 [[_ H2]|[? _]]%own_insert; [|done].
      destruct (bi_inj _ _ _ H _ _ _ _ _ (Hsh _ _ Hi) (Hsh _ _ H2)). lia.
    + exists i. split; [done|]. intros i2 [[? _]|[_ H2]]%own_insert; [done|].
      by destruct (bi_inj _ _ _ H _ _ _ _ _ H2 Ho).
  - intros s' i b' Hne Ho. destruct (decide (s' = s)) as [->|].
    + destruct Ho as (tab' & Ht' & Hi). simplify_eq. destruct i as [|i]; [simpl in Hi; congruence|].
      exists i. apply own_insert. by left.
    + exists i. apply own_insert. by right.
Qed.

Lemma blocks_inv_tabs fl states tabs tabs' : blocks_inv fl states tabs ->
  (forall s i b, own tabs' s i b <-> own tabs s i b) -> blocks_inv fl states tabs'.
Proof.
  intros [] He. split; try done.
  - intros s i b. rewrite He. eauto.
  - intros s1 i1 s2 i2 b. rewrite !He. eauto.
  - intros b Hb Hs. destruct (bi_owned0 b Hb Hs) as (s & i & Ho). exists s, i. by apply He.
Qed.

Lemma new_table fl states tabs s : blocks_inv fl states tabs ->
  blocks_inv fl states (<[s := default [] (tabs !! s)]> tabs).
Proof.
  intros H. apply (blocks_inv_tabs _ _ _ _ H). intros s' i b. rewrite own_insert.
  destruct (decide (s' = s)) as [->|]; [|tauto]. unfold own.
  destruct (tabs !! s); simpl; [naive_solver|]. split; [intros [[_ ?]|[? _]]; done|naive_solver].
Qed.

Lemma delete_table fl states tabs s : blocks_inv fl states (<[s := []]> tabs) ->
  blocks_inv fl states (delete s tabs).
Proof.
  intros H. apply (blocks_inv_tabs _ _ _ _ H). intros s' i b. rewrite own_insert. unfold own.
  destruct (decide (s' = s)) as [->|].
  - rewrite lookup_delete_eq. naive_solver.
  - rewrite lookup_delete_ne by done. naive_solver.
Qed.

(** ** The invariant and the abstract state *)

Record inv (st : t) : Prop := mkInv {
  inv_cfg : cfg_ok st;
  inv_k : store_ok st (kStore st);
  inv_v : store_ok st (vStore st);
  inv_blocks : blocks_inv (freeList_ st) (blockState_ st) (blockTable <$> seqs_ st);
  inv_len : forall s sq, seqs_ st !! s = Some sq ->
    0 <= length_ sq <= INT_MAX /\ length_ sq <= Z.of_nat (length (blockTable sq)) * blockSize_ st;
}.

(** A token: K and V of all heads.  The abstract cache maps every sequence to
    its tokens. *)
Definition token : Type := list f32 * list f32.
Abbreviation cache := (gmap Z (list token)).

(** The slot that holds token [i] of a sequence, as an index of slots. *)
Definition slotOf (st : t) (sq : Seq) (i : Z) : option Z :=
  b ← blockTable sq !! Z.to_nat (i / blockSize_ st);
  Some (b * blockSize_ st + i mod blockSize_ st).

Definition token_at (st : t) (si : Z) (kv : token) : Prop :=
  forall h, 0 <= h < numHeads_ st ->
    headAt st (kStore st) (si * numHeads_ st + h) = Some (stored (dtype_ st) (hslice st h kv.1)) /\
    headAt st (vStore st) (si * numHeads_ st + h) = Some (stored (dtype_ st) (hslice st h kv.2)).

Definition seq_repr (st : t) (sq : Seq) (toks : list token) : Prop :=
  length_ sq = Z.of_nat (length toks) /\
  forall i kv, toks !! i = Some kv -> exists si, slotOf st sq (Z.of_nat i) = Some si /\ token_at st si kv.

Record repr (st : t) (c : cache) : Prop := mkRepr {
  repr_inv : inv st;
  repr_seq : forall s, option_Forall2 (seq_repr st) (seqs_ st !! s) (c !! s);
}.

Lemma store_ok_blocks st fl bs sq s : length bs = length (blockState_ st) ->
  store_ok (set_blocks st fl bs sq) s <-> store_ok st s.
Proof. intros Hl. unfold store_ok, heads, totalBlocks. simpl. by rewrite Hl. Qed.

Lemma cfg_ok_blocks st fl bs sq : length bs = length (blockState_ st) -> cfg_ok st ->
  cfg_ok (set_blocks st fl bs sq).
Proof. intros Hl []. split; try done. unfold totalBlocks in *. simpl. by rewrite Hl. Qed.

(** The tables of one sequence change: the other parts of the invariant. *)
Lemma inv_set_blocks st fl bs seqs : inv st -> length bs = length (blockState_ st) ->
  blocks_inv fl bs (blockTable <$> seqs) ->
  (forall s sq, seqs !! s = Some sq ->
    0 <= length_ sq <= INT_MAX /\ length_ sq <= Z.of_nat (length (blockTable sq)) * blockSize_ st) ->
  inv (set_blocks st fl bs seqs).
Proof.
  intros [] Hl Hb Hs. split; [by apply cfg_ok_blocks| | |done|done];
    by apply store_ok_blocks.
Qed.

(** A sequence is created if it is missing, and its table extended. *)
Lemma extend_repr st c s sq fl bs ext : repr st c -> sq = default (mkSeq [] 0) (seqs_ st !! s) ->
  length bs = length (blockState_ st) ->
  blocks_inv fl bs (<[s := blockTable sq ++ ext]> (blockTable <$> seqs_ st)) ->
  repr (set_blocks st fl bs (<[s := mkSeq (blockTable sq ++ ext) (length_ sq)]> (seqs_ st)))
    (<[s := default [] (c !! s)]> c).
Proof.
  intros [Hinv Hsq] -> Hl Hb. pose proof (cfg_bs _ (inv_cfg _ Hinv)) as Hbs. split.
  - apply inv_set_blocks; [done|done|by rewrite fmap_insert|].
    intros s' sq' [[<- <-]|[Hne Hs']]%lookup_insert_Some; [|by eapply (inv_len _ Hinv)].
    simpl. rewrite length_app. destruct (seqs_ st !! s) as [sq|] eqn:E; simpl; [|unfold INT_MAX; lia].
    pose proof (inv_len _ Hinv _ _ E). nia.
  - intros s'. cbn [seqs_ set_blocks]. destruct (decide (s' = s)) as [->|Hne].
    2:{ rewrite (lookup_insert_ne (seqs_ st)), (lookup_insert_ne c) by done. apply Hsq. }
    rewrite (lookup_insert_eq (seqs_ st)), (lookup_insert_eq c). constructor. specialize (Hsq s).
    destruct Hsq as [sq toks [Hlen Htok]|]; simpl; [|by split].
    split; [done|]. intros i kv Hi. destruct (Htok i kv Hi) as (si & Hsi & Hat).
    exists si. split; [|done]. unfold slotOf in *. simpl.
    destruct (blockTable sq !! _) as [b|] eqn:E; simplify_eq/=. by rewrite (lookup_app_l_Some _ _ _ _ E).
Qed.

Lemma ensure_repr st c s : repr st c ->
  repr (set_blocks st (freeList_ st) (blockState_ st) (<[s := default (mkSeq [] 0) (seqs_ st !! s)]> (seqs_ st)))
    (<[s := default [] (c !! s)]> c).
Proof.
  intros H. pose proof (extend_repr st c s _ (freeList_ st) (blockState_ st) [] H eq_refl eq_refl) as He.
  rewrite app_nil_r in He. destruct (default _ _) as [tab len] eqn:E. apply He.
  pose proof (new_table _ _ _ s (inv_blocks _ (repr_inv _ _ H))) as Hn. rewrite lookup_fmap in Hn.
  destruct (seqs_ st !! s) as [sq|]; simplify_eq/=; done.
Qed.

Lemma repr_same_key st c s : repr st c -> is_Some (seqs_ st !! s) -> <[s := default [] (c !! s)]> c = c.
Proof.
  intros H [sq Hs]. pose proof (repr_seq _ _ H s) as Hr. rewrite Hs in Hr. inversion Hr as [? toks Hq Heq|].
  simpl. by apply insert_id.
Qed.

Lemma set_blocks_twice st fl bs sq fl' bs' sq' :
  set_blocks (set_blocks st fl bs sq) fl' bs' sq' = set_blocks st fl' bs' sq'.
Proof. done. Qed.

Lemma set_blocks_same st s sq : seqs_ st !! s = Some sq ->
  set_blocks st (freeList_ st) (blockState_ st) (<[s := sq]> (seqs_ st)) = st.
Proof. intros H. rewrite insert_id by done. by destruct st. Qed.

(** ** Each operation *)

Lemma moveBlocks_spec n fl states tabs s tab : blocks_inv fl states tabs -> tabs !! s = Some tab ->
  (n <= length fl)%nat ->
  exists states', moveBlocks n fl tab states = (drop n fl, tab ++ take n fl, states') /\
    length states' = length states /\ blocks_inv (drop n fl) states' (<[s := tab ++ take n fl]> tabs).
Proof.
  revert fl states tabs tab. induction n as [|n IH]; intros fl states tabs tab H Ht Hn.
  { exists states. rewrite drop_0, take_0, app_nil_r. split_and!; [by destruct fl|done|by rewrite insert_id]. }
  destruct fl as [|b fl]; simpl in Hn; [lia|].
  pose proof (take_block _ _ _ _ _ _ H Ht) as H1.
  destruct (IH fl _ _ (tab ++ [b]) H1) as (states' & He & Hl & Hb); [by rewrite lookup_insert_eq|lia|].
  exists states'. simpl. rewrite He, insert_insert_eq, <- app_assoc in *. rewrite length_insert in Hl. done.
Qed.

Lemma requiredBlocks_le st cap k : 0 < blockSize_ st -> 0 <= cap ->
  requiredBlocks st cap <= k <-> cap <= k * blockSize_ st.
Proof.
  intros Hb Hc. unfold requiredBlocks. pose proof (Z.div_mod cap (blockSize_ st) ltac:(lia)) as Hd.
  pose proof (Z.mod_pos_bound cap (blockSize_ st) Hb). destruct (Z.eqb_spec (cap mod blockSize_ st) 0); simpl; nia.
Qed.

(** The table of a sequence, empty if there is none. *)
Lemma blockTableOf_default st s : blockTableOf st s = blockTable (default (mkSeq [] 0) (seqs_ st !! s)).
Proof. unfold blockTableOf. by destruct (seqs_ st !! s). Qed.

Lemma seqLen_default st s : seqLen st s = length_ (default (mkSeq [] 0) (seqs_ st !! s)).
Proof. unfold seqLen. by destruct (seqs_ st !! s). Qed.

Lemma tabs_ensure st s : blocks_inv (freeList_ st) (blockState_ st) (blockTable <$> seqs_ st) ->
  blocks_inv (freeList_ st) (blockState_ st) (<[s := blockTableOf st s]> (blockTable <$> seqs_ st)).
Proof.
  intros H. pose proof (new_table _ _ _ s H) as Hn. rewrite lookup_fmap in Hn.
  rewrite blockTableOf_default. by destruct (seqs_ st !! s).
Qed.

(** Whether [reserveSequenceCapacity] succeeds: the capacity covers the
    sequence and the missing blocks are free. *)
Definition can_reserve (st : t) (s cap : Z) : bool :=
  (seqLen st s <=? cap) &&
  (requiredBlocks st cap - Z.of_nat (length (blockTableOf st s)) <=? freeBlocks st).

Lemma reserve_spec st c s cap : repr st c -> 0 <= cap ->
  let k := Z.to_nat (requiredBlocks st cap - Z.of_nat (length (blockTableOf st s))) in
  exists st', reserveSequenceCapacity st s cap = (st', can_reserve st s cap) /\
    if can_reserve st s cap
    then repr st' (<[s := default [] (c !! s)]> c) /\
         blockTableOf st' s = blockTableOf st s ++ take k (freeList_ st) /\
         freeList_ st' = drop k (freeList_ st)
    else st' = st.
Proof.
  intros H Hcap k. pose proof (inv_blocks _ (repr_inv _ _ H)) as Hb.
  pose proof (inv_cfg _ (repr_inv _ _ H)) as Hcfg. pose proof (cfg_bs _ Hcfg) as Hbs.
  pose proof (ensure_repr st c s H) as Hens. pose proof (tabs_ensure _ s Hb) as Htab.
  assert (0 <= requiredBlocks st cap) as Hreq.
  { unfold requiredBlocks. pose proof (Z.div_pos cap (blockSize_ st)). case_match; lia. }
  unfold reserveSequenceCapacity, can_reserve. subst k. rewrite seqLen_default, blockTableOf_default in *.
  destruct (Z.ltb_spec cap 0); [lia|].
  destruct (bool_decide (seqs_ st !! s = None) && _) eqn:E0.
  { apply andb_true_iff in E0 as [E0 E1]; b2p. rewrite E0 in *. simpl. exists st.
    rewrite Z.sub_0_r, (proj2 (Z.leb_gt (requiredBlocks st cap) (freeBlocks st))), andb_false_r by lia. done. }
  set (s0 := default _ _) in *. cbv zeta. set (st1 := set_blocks st _ _ (<[s := s0]> _)) in *.
  destruct (Z.ltb_spec cap (length_ s0)) as [Hl|Hl].
  { rewrite (proj2 (Z.leb_gt (length_ s0) cap)) by done. exists st. split; [|done]. f_equal.
    apply set_blocks_same. unfold s0 in *. destruct (seqs_ st !! s); [done|]. simpl in Hl. lia. }
  rewrite (proj2 (Z.leb_le (length_ s0) cap)) by done. simpl andb.
  change (freeBlocks st1) with (freeBlocks st).
  destruct (Z.leb_spec (requiredBlocks st cap) (Z.of_nat (length (blockTable s0)))) as [Hr|Hr].
  { rewrite (proj2 (Z.leb_le _ (freeBlocks st))) by (unfold freeBlocks; lia). exists st1. split; [done|].
    rewrite Z2Nat.nonpos, take_0, drop_0, app_nil_r, blockTableOf_default by lia. split_and!; [done| |done].
    unfold st1. cbn [seqs_ set_blocks]. by rewrite lookup_insert_eq. }
  destruct (requiredBlocks st cap - _ >? freeBlocks st) eqn:E1; b2p.
  { rewrite (proj2 (Z.leb_gt _ _)) by lia. exists st. split; [|done]. f_equal.
    apply set_blocks_same. unfold s0 in *. destruct (seqs_ st !! s); [done|]. simpl in *.
    destruct E0 as [E0|E0]; b2p; [done|lia]. }
  rewrite (proj2 (Z.leb_le _ _)) by lia. unfold freeBlocks in E1.
  destruct (moveBlocks_spec (Z.to_nat (requiredBlocks st cap - Z.of_nat (length (blockTable s0))))
    _ _ _ s (blockTable s0) Htab) as (states' & He & Hsl & Hbi); [by rewrite lookup_insert_eq|lia|].
  unfold st1 at 1 2. cbn [freeList_ blockState_ set_blocks]. rewrite He. eexists. split; [reflexivity|].
  rewrite insert_insert_eq in Hbi. unfold st1. cbn [freeList_ seqs_ set_blocks].
  rewrite insert_insert_eq, set_blocks_twice. split_and!; [by apply extend_repr| |done].
  rewrite blockTableOf_default. cbn [seqs_ set_blocks]. by rewrite lookup_insert_eq.
Qed.

(** Releasing the blocks of a table one by one. *)
Lemma release_all s tab st tabs : blocks_inv (freeList_ st) (blockState_ st) (<[s := tab]> tabs) ->
  let st' := foldl (fun st b => releaseBlock st b true) st tab in
  exists states, st' = set_blocks st (rev tab ++ freeList_ st) states (seqs_ st) /\
    length states = length (blockState_ st) /\ blocks_inv (rev tab ++ freeList_ st) states (<[s := []]> tabs).
Proof.
  revert st. induction tab as [|b tab IH]; intros st H; simpl.
  { exists (blockState_ st). split_and!; [by destruct st|done|done]. }
  destruct (release_head s b tab _ _ _ H) as (Hb & Hs & H'); [by rewrite lookup_insert_eq|].
  pose proof (lookup_lt_Some _ _ _ Hs) as Hlt.
  assert (releaseBlock st b true = set_blocks st (b :: freeList_ st)
            (<[Z.to_nat b := kBlockFree]> (blockState_ st)) (seqs_ st)) as ->.
  { unfold releaseBlock, totalBlocks. destruct (Z.ltb_spec b 0); [lia|].
    destruct (Z.leb_spec (Z.of_nat (length (blockState_ st))) b); [lia|]. simpl.
    by rewrite bool_decide_eq_true_2. }
  rewrite insert_insert_eq in H'. 
  destruct (IH (set_blocks st (b :: freeList_ st) (<[Z.to_nat b := kBlockFree]> (blockState_ st)) (seqs_ st)) H')
    as (states & He & Hl & Hbi). exists states. rewrite He. cbn [freeList_ blockState_ seqs_ set_blocks] in *.
  rewrite length_insert in Hl. rewrite <- app_assoc. done.
Qed.

(** An operation that only touches blocks no token is read through. *)
Lemma blocks_repr st c fl bs : repr st c -> length bs = length (blockState_ st) ->
  blocks_inv fl bs (blockTable <$> seqs_ st) -> repr (set_blocks st fl bs (seqs_ st)) c.
Proof.
  intros [Hinv Hsq] Hl Hb. split; [|done]. apply inv_set_blocks; [done..|]. apply Hinv.
Qed.

Lemma freeSequence_spec st c s : repr st c ->
  repr (freeSequence st s) (delete s c) /\
  freeList_ (freeSequence st s) = rev (blockTableOf st s) ++ freeList_ st.
Proof.
  intros H. unfold freeSequence, blockTableOf. destruct (seqs_ st !! s) as [sq|] eqn:E.
  - pose proof (tabs_ensure _ s (inv_blocks _ (repr_inv _ _ H))) as Hb. unfold blockTableOf in Hb.
    rewrite E in Hb. destruct (release_all s _ st _ Hb) as (states & -> & Hl & Hbi).
    cbn [freeList_ blockState_ seqs_ set_blocks]. split; [|done]. apply delete_table in Hbi.
    destruct H as [Hinv Hsq]. split.
    + apply (inv_set_blocks st); [done|done|by rewrite fmap_delete|].
      intros s' sq' [_ Hs']%lookup_delete_Some. by eapply inv_len.
    + intros s'. cbn [seqs_ set_blocks]. destruct (decide (s' = s)) as [->|].
      * rewrite (lookup_delete_eq (seqs_ st)), (lookup_delete_eq c). constructor.
      * rewrite (lookup_delete_ne (seqs_ st)), (lookup_delete_ne c) by done. apply Hsq.
  - split; [|done]. pose proof (repr_seq _ _ H s) as Hr. rewrite E in Hr. inversion Hr.
    by rewrite delete_id.
Qed.

Lemma allocateBlock_spec st c : repr st c ->
  repr (allocateBlock st).1 c /\
  ((allocateBlock st).2 = match freeList_ st with [] => -1 | b :: _ => b end).
Proof.
  intros H. unfold allocateBlock. destruct (freeList_ st) as [|b fl] eqn:E; [done|]. split; [|done].
  apply blocks_repr; [done|apply length_insert|]. apply take_raw. rewrite <- E. apply H.
Qed.

Lemma freeBlock_spec st c b : repr st c -> repr (freeBlock st b) c.
Proof.
  intros H. unfold freeBlock, releaseBlock. destruct ((b <? 0) || _) eqn:E; [done|].
  destruct (negb _) eqn:E1; [done|]. b2p.
  apply blocks_repr; [done|apply length_insert|]. apply release_raw; [apply H|done|done].
Qed.

(** ** Appending a token *)

(** A slot of a sequence is a valid slot of the pool, and belongs to one
    position of one sequence. *)
Lemma slot_valid st s sq i si : inv st -> seqs_ st !! s = Some sq -> slotOf st sq i = Some si ->
  exists b, blockTable sq !! Z.to_nat (i / blockSize_ st) = Some b /\ own (blockTable <$> seqs_ st) s (Z.to_nat (i / blockSize_ st)) b /\
    0 <= b < totalBlocks st /\ 0 <= i mod blockSize_ st < blockSize_ st /\
    si = b * blockSize_ st + i mod blockSize_ st /\ 0 <= si < totalBlocks st * blockSize_ st /\
    blockState_ st !! Z.to_nat b = Some kBlockSequence.
Proof.
  intros H Hs Hsl. unfold slotOf in Hsl.
  destruct (blockTable sq !! _) as [b|] eqn:E; simplify_eq/=. exists b.
  assert (own (blockTable <$> seqs_ st) s (Z.to_nat (i / blockSize_ st)) b) as Ho.
  { exists (blockTable sq). by rewrite lookup_fmap, Hs. }
  destruct (bi_owner _ _ _ (inv_blocks _ H) _ _ _ Ho) as [Hb Hst].
  pose proof (lookup_lt_Some _ _ _ Hst). pose proof (cfg_bs _ (inv_cfg _ H)).
  pose proof (Z.mod_pos_bound i (blockSize_ st) ltac:(lia)).
  assert (0 <= b < totalBlocks st) by (unfold totalBlocks; lia).
  split_and!; try done; try lia; apply mul_lt_lin; lia.
Qed.

Lemma slot_unique st s1 sq1 i1 s2 sq2 i2 si : inv st ->
  seqs_ st !! s1 = Some sq1 -> seqs_ st !! s2 = Some sq2 -> 0 <= i1 -> 0 <= i2 ->
  slotOf st sq1 i1 = Some si -> slotOf st sq2 i2 = Some si -> s1 = s2 /\ i1 = i2.
Proof.
  intros H H1 H2 Hi1 Hi2 Hs1 Hs2. pose proof (cfg_bs _ (inv_cfg _ H)) as Hbs.
  destruct (slot_valid _ _ _ _ _ H H1 Hs1) as (b1 & _ & Ho1 & Hb1 & Hm1 & He1 & _).
  destruct (slot_valid _ _ _ _ _ H H2 Hs2) as (b2 & _ & Ho2 & Hb2 & Hm2 & He2 & _).
  assert (b1 = b2) as -> by nia.
  destruct (bi_inj _ _ _ (inv_blocks _ H) _ _ _ _ _ Ho1 Ho2) as [-> Hd]. split; [done|].
  pose proof (Z.div_mod i1 (blockSize_ st)). pose proof (Z.div_mod i2 (blockSize_ st)).
  pose proof (Z.div_pos i1 (blockSize_ st)). pose proof (Z.div_pos i2 (blockSize_ st)).
  assert (i1 / blockSize_ st = i2 / blockSize_ st) by lia. nia.
Qed.

(** Tokens of all heads the caller passes. *)
Definition token_ok (st : t) (kv : token) : Prop :=
  Z.of_nat (length kv.1) = tokenStride_ st /\ Z.of_nat (length kv.2) = tokenStride_ st.

Lemma write_repr st c s sq toks kv : repr st c -> seqs_ st !! s = Some sq -> c !! s = Some toks ->
  token_ok st kv -> length_ sq < INT_MAX -> length_ sq / blockSize_ st < Z.of_nat (length (blockTable sq)) ->
  exists b st', blockTable sq !! Z.to_nat (length_ sq / blockSize_ st) = Some b /\
    writeToken st b (length_ sq mod blockSize_ st) kv.1 kv.2 = Some st' /\
    freeList_ st' = freeList_ st /\ tokenStride_ st' = tokenStride_ st /\
    repr (set_blocks st' (freeList_ st') (blockState_ st')
            (<[s := mkSeq (blockTable sq) (length_ sq + 1)]> (seqs_ st'))) (<[s := toks ++ [kv]]> c).
Proof.
  intros H Hs Hc [Hk Hv] Hmax Hroom. pose proof (repr_inv _ _ H) as Hinv.
  pose proof (inv_cfg _ Hinv) as Hcfg. pose proof (cfg_bs _ Hcfg) as Hbs.
  destruct (inv_len _ Hinv _ _ Hs) as [Hl0 Hl1].
  pose proof (Z.div_pos (length_ sq) (blockSize_ st) ltac:(lia) Hbs) as Hd.
  destruct (lookup_lt_is_Some_2 (blockTable sq) (Z.to_nat (length_ sq / blockSize_ st))) as [b Hb]; [lia|].
  assert (slotOf st sq (length_ sq) = Some (b * blockSize_ st + length_ sq mod blockSize_ st)) as Hsl
    by (unfold slotOf; by rewrite Hb).
  destruct (slot_valid _ _ _ _ _ Hinv Hs Hsl) as (b' & Hb' & _ & Hbn & Hm & _ & Hsi & _).
  rewrite Hb in Hb'. injection Hb' as <-.
  exists b. unfold writeToken. destruct (slotIndex_ok st Hcfg b _ Hbn Hm) as [-> _].
  set (si := b * blockSize_ st + length_ sq mod blockSize_ st) in *.
  destruct (writeStore_spec st Hcfg si kv.1 (kStore st)) as (ks & -> & Hks & Hkin & Hkout); [apply Hinv|done|done|].
  destruct (writeStore_spec st Hcfg si kv.2 (vStore st)) as (vs & -> & Hvs & Hvin & Hvout); [apply Hinv|done|done|].
  simpl. eexists. split_and!; [done|done|done|done|].
  pose proof (repr_seq _ _ H s) as Hsr. rewrite Hs, Hc in Hsr. inversion Hsr as [? ? [Hlen Htoks]|]. subst.
  split.
  { split; try done; [by destruct Hcfg| |]; cbn [seqs_ set_blocks set_stores freeList_ blockState_ blockSize_].
    - rewrite fmap_insert. simpl. rewrite insert_id; [apply Hinv|]. by rewrite lookup_fmap, Hs.
    - intros s' sq' [[<- <-]|[_ Hs']]%lookup_insert_Some; [|by eapply (inv_len _ Hinv)].
      simpl. split; [lia|]. pose proof (Z.div_mod (length_ sq) (blockSize_ st)). nia. }
  assert (forall s' sq' i kv' si', seqs_ st !! s' = Some sq' -> slotOf st sq' i = Some si' -> 0 <= i ->
    s' <> s \/ i <> length_ sq -> token_at st si' kv' -> token_at (set_stores st ks vs) si' kv') as Hkeep.
  { intros s' sq' i kv' si' Hs' Hsl' Hi Hne Ht h Hh.
    destruct (slot_valid _ _ _ _ _ Hinv Hs' Hsl') as (_ & _ & _ & _ & _ & _ & Hsi' & _).
    assert (si' <> si) by (intros ->; destruct (slot_unique _ _ _ _ _ _ _ _ Hinv Hs' Hs Hi (proj1 Hl0) Hsl' Hsl); tauto).
    destruct (Ht h Hh) as [Hh1 Hh2].
    split; [etrans; [apply Hkout|exact Hh1]|etrans; [apply Hvout|exact Hh2]]; (done || lia). }
  intros s'. cbn [seqs_ set_blocks set_stores]. destruct (decide (s' = s)) as [->|Hne].
  - rewrite (lookup_insert_eq (seqs_ st)), (lookup_insert_eq c). constructor. split.
    { simpl. rewrite length_app. simpl. lia. }
    intros i kv' [Hi|[-> <-]]%lookup_snoc_Some.
    + destruct Hi as [Hi Hi']. destruct (Htoks i kv' Hi') as (si' & Hsl' & Ht).
      exists si'. split; [exact Hsl'|]. apply (Hkeep s sq (Z.of_nat i)); [done..|lia|right; lia|done].
    + exists si. rewrite <- Hlen. split; [exact Hsl|]. intros h Hh.
      split; [exact (Hkin h Hh)|exact (Hvin h Hh)].
  - rewrite (lookup_insert_ne (seqs_ st)), (lookup_insert_ne c) by done.
    pose proof (repr_seq _ _ H s') as Hr. inversion Hr as [sq' toks' [Hl' Ht'] E1 E2|E1 E2]; constructor.
    split; [done|]. intros i kv' Hi. destruct (Ht' i kv' Hi) as (si' & Hsl' & Hat).
    exists si'. split; [exact Hsl'|]. apply (Hkeep s' sq' (Z.of_nat i)); [done..|lia|by left|done].
Qed.

(** The end of [appendToken], from a state with a block for the token. *)
Lemma append_finish st c s sq toks kv : repr st (<[s := toks]> c) -> seqs_ st !! s = Some sq ->
  token_ok st kv -> length_ sq < INT_MAX -> length_ sq / blockSize_ st < Z.of_nat (length (blockTable sq)) ->
  exists st', (physBlock ← blockTable sq !! Z.to_nat (length_ sq / blockSize_ st);
     st ← writeToken st physBlock (length_ sq mod blockSize_ st) kv.1 kv.2;
     Some (set_blocks st (freeList_ st) (blockState_ st)
             (<[s := mkSeq (blockTable sq) (length_ sq + 1)]> (seqs_ st)), true)) = Some (st', true) /\
    repr st' (<[s := toks ++ [kv]]> c) /\ freeList_ st' = freeList_ st.
Proof.
  intros H Hs Hkv Hm Hr.
  destruct (write_repr st _ s sq toks kv H Hs) as (b & st3 & -> & Hw & Hfl & _ & H3);
    [by rewrite lookup_insert_eq|done..|].
  simpl. rewrite Hw. simpl. eexists. split; [done|]. by rewrite insert_insert_eq in H3.
Qed.

(** Whether [appendToken] has room: a reserved slot, or a free block. *)
Definition can_append (st : t) (s : Z) : bool :=
  negb (seqLen st s =? INT_MAX) &&
  ((seqLen st s / blockSize_ st <? Z.of_nat (length (blockTableOf st s))) || (0 <? freeBlocks st)).

Lemma append_spec st c s kv : repr st c -> token_ok st kv ->
  exists st', appendToken st s (Some kv.1) (Some kv.2) = Some (st', can_append st s) /\
    repr st' (if can_append st s then <[s := default [] (c !! s) ++ [kv]]> c
              else <[s := default [] (c !! s)]> c) /\
    freeBlocks st' = (if can_append st s && (Z.of_nat (length (blockTableOf st s)) <=? seqLen st s / blockSize_ st)
                      then freeBlocks st - 1 else freeBlocks st).
Proof.
  intros H Hkv. pose proof (ensure_repr st c s H) as Hens.
  pose proof (tabs_ensure _ s (inv_blocks _ (repr_inv _ _ H))) as Htab.
  unfold appendToken, can_append, freeBlocks. rewrite seqLen_default, blockTableOf_default in *.
  set (s0 := default (mkSeq [] 0) (seqs_ st !! s)) in *. set (c0 := default [] (c !! s)) in *. cbv zeta.
  set (st1 := set_blocks st _ _ (<[s := s0]> _)) in *.
  assert (seqs_ st1 !! s = Some s0) as Hs1 by apply lookup_insert_eq.
  destruct (Z.eqb_spec (length_ s0) INT_MAX) as [Hm|Hm]; [by exists st1|]. simpl negb. simpl andb.
  assert (length_ s0 < INT_MAX) as Hm'.
  { pose proof (inv_len _ (repr_inv _ _ Hens) _ _ Hs1). lia. }
  change (blockSize_ st1) with (blockSize_ st). rewrite Z.ltb_antisym.
  destruct (Z.leb_spec (Z.of_nat (length (blockTable s0))) (length_ s0 / blockSize_ st)) as [Hr|Hr]; simpl.
  - unfold allocateBlock. change (freeList_ st1) with (freeList_ st).
    destruct (freeList_ st) as [|b fl] eqn:Efl.
    { exists st1. split_and!; [done|exact Hens|]. unfold st1. simpl. by rewrite ?Efl. }
    destruct (head_free b fl (blockState_ st) (blockTable <$> seqs_ st)) as (Hb & _).
    { rewrite <- Efl. apply H. }
    rewrite (proj2 (Z.ltb_ge b 0)) by done. simpl negb. cbv iota.
    rewrite set_blocks_twice. unfold st1. rewrite set_blocks_twice.
    cbn [seqs_ set_blocks blockState_ freeList_]. rewrite insert_insert_eq, list_insert_insert_eq.
    set (st2 := set_blocks st fl _ _).
    assert (repr st2 (<[s := c0]> c)) as H2.
    { apply extend_repr; [done|done|apply length_insert|].
      rewrite <- (insert_insert_eq (blockTable <$> seqs_ st) s _ (blockTable s0)).
      apply take_block; [exact Htab|by rewrite lookup_insert_eq]. }
    destruct (append_finish st2 c s _ c0 kv H2 (lookup_insert_eq _ _ _) Hkv) as (st' & He & Hr' & Hfl).
    { done. }
    { pose proof (inv_len _ (repr_inv _ _ Hens) _ _ Hs1) as [_ Hb1].
      pose proof (cfg_bs _ (inv_cfg _ (repr_inv _ _ H))) as Hbs. simpl. rewrite length_app. simpl.
      apply Z.div_lt_upper_bound; [done|]. change (blockSize_ st1) with (blockSize_ st) in Hb1. lia. }
    exists st'. split; [exact He|]. split; [exact Hr'|]. rewrite Hfl. simpl. lia.
  - destruct (append_finish st1 c s s0 c0 kv Hens Hs1 Hkv) as (st' & He & Hr' & Hfl); [done|done|].
    exists st'. split; [exact He|]. split; [exact Hr'|]. by rewrite Hfl.
Qed.

(** ** The constructor *)

Lemma checkedProduct_Ok a b p : 0 <= a -> 0 <= b -> checkedProduct a b = Ok p -> p = a * b /\ a * b <= U64_MAX.
Proof.
  intros Ha Hb. unfold checkedProduct. destruct (negb (b =? 0) && (a >? U64_MAX / b)) eqn:E; [done|].
  intros [= <-]. split; [done|]. b2p. destruct E as [E|E]; b2p; [subst b; unfold U64_MAX; lia|].
  destruct (decide (b = 0)) as [->|]; [unfold U64_MAX; lia|].
  pose proof (Z.mul_div_le U64_MAX b). nia.
Qed.

Lemma requirePositive_Ok v v' : requirePositiveDimension v = Ok v' -> v' = v /\ 0 < v.
Proof. unfold requirePositiveDimension. intros H. case_in H; simplify_eq. b2p. done. Qed.

Lemma blocks_inv_init n : 0 <= n -> blocks_inv (seqZ 0 n) (replicate (Z.to_nat n) kBlockFree) ∅.
Proof.
  intros Hn.
  assert (forall s i b, ~ own ∅ s i b) as Hno.
  { intros s i b (tab & Ht & _). by rewrite lookup_empty in Ht. }
  split.
  - apply NoDup_seqZ.
  - intros b. rewrite elem_of_seqZ. split.
    + intros Hb. split; [lia|]. apply lookup_replicate_2. lia.
    + intros [Hb [_ Hl]%lookup_replicate]. lia.
  - apply Forall_replicate. auto.
  - intros s i b Ho. by destruct (Hno _ _ _ Ho).
  - intros s1 i1 s2 i2 b Ho. by destruct (Hno _ _ _ Ho).
  - intros b _ [? _]%lookup_replicate. done.
Qed.

Lemma create_spec numBlocks blockSize numHeads headDim dtype st :
  create numBlocks blockSize numHeads headDim dtype = Ok st ->
  repr st ∅ /\ totalBlocks st = numBlocks /\ blockSize_ st = blockSize /\ numHeads_ st = numHeads /\
  headDim_ st = headDim /\ freeBlocks st = numBlocks.
Proof.
  unfold create. intros (bs & [-> Hbs]%requirePositive_Ok & H)%bind_Ok.
  apply bind_Ok in H as (nh & [-> Hnh]%requirePositive_Ok & H).
  apply bind_Ok in H as (hd & [-> Hhd]%requirePositive_Ok & H).
  apply bind_Ok in H as (ts & Hts & H). apply checkedProduct_Ok in Hts as [-> _]; [|lia..].
  apply bind_Ok in H as (bst & Hbst & H). apply checkedProduct_Ok in Hbst as [-> _]; [|lia..].
  destruct (Z.ltb_spec numBlocks 0) as [|Hn]; [done|]. cbv zeta in H. set (dt := storageType dtype headDim) in *.
  apply bind_Ok in H as (nt & Hnt & H). apply checkedProduct_Ok in Hnt as [-> _]; [|lia..].
  apply bind_Ok in H as (nsh & Hnsh & H). apply checkedProduct_Ok in Hnsh as [-> _]; [|lia..].
  apply bind_Ok in H as (ne & Hne & H). apply checkedProduct_Ok in Hne as [-> He]; [|lia..].
  apply bind_Ok in H as (store & Hstore & H). simplify_eq/=.
  assert (totalBlocks (mk blockSize numHeads headDim dt (numHeads * headDim) (blockSize * (numHeads * headDim))
    (headDim / 2) store store (seqZ 0 numBlocks) (replicate (Z.to_nat numBlocks) kBlockFree) ∅) = numBlocks) as Ht.
  { unfold totalBlocks. simpl. rewrite length_replicate. lia. }
  split_and!; try done; [|unfold freeBlocks; simpl; rewrite length_seqZ; lia].
  assert (dt = I4 -> headDim = 2 * (headDim / 2)) as Hev.
  { unfold dt, storageType. destruct dtype; try done. destruct (Z.odd headDim) eqn:E; [done|]. intros _.
    pose proof (Z.div2_odd headDim) as Hd. rewrite E, Z.div2_div in Hd. simpl in Hd. lia. }
  split; [|intros s; simpl; by rewrite !lookup_empty; constructor].
  match goal with |- inv ?x => set (st := x) in * end.
  assert (store_ok st store) as Hok.
  { unfold store_ok, heads. change (dtype_ st) with dt. rewrite Ht. simpl. unfold allocStore in Hstore.
    destruct dt; simplify_eq/=.
    - rewrite length_replicate. nia.
    - rewrite !length_replicate. split; nia.
    - apply bind_Ok in Hstore as (np & Hnp & Hstore). pose proof (Z.div_pos headDim 2).
      apply checkedProduct_Ok in Hnp as [-> _]; [|nia|lia]. simplify_eq/=. rewrite !length_replicate.
      split_and!; [nia|nia|]. apply Forall_replicate. unfold byte. lia. }
  split; [split; try done|done|done|simpl; rewrite fmap_empty; by apply blocks_inv_init|done].
  unfold st in *. cbn [blockSize_ numHeads_ headDim_]. rewrite Ht. etrans; [|exact He]. lia.
Qed.

(** ** Runs *)

Inductive op :=
| AllocateBlock
| FreeBlock (physBlock : Z)
| AppendToken (seq : Z) (kv : token)
| ReserveSequenceCapacity (seq tokenCapacity : Z)
| FreeSequence (seq : Z).

(** One call and its boolean result. *)
Definition step (o : op) (st : t) : option (t * bool) :=
  match o with
  | AllocateBlock => Some ((allocateBlock st).1, true)
  | FreeBlock b => Some (freeBlock st b, true)
  | AppendToken s kv => appendToken st s (Some kv.1) (Some kv.2)
  | ReserveSequenceCapacity s cap => Some (reserveSequenceCapacity st s cap)
  | FreeSequence s => Some (freeSequence st s, true)
  end.

(** Its effect on the abstract cache, given the result. *)
Definition abs_step (o : op) (r : bool) (c : cache) : cache :=
  match o, r with
  | AppendToken s kv, true => <[s := default [] (c !! s) ++ [kv]]> c
  | AppendToken s kv, false => <[s := default [] (c !! s)]> c
  | ReserveSequenceCapacity s _, true => <[s := default [] (c !! s)]> c
  | FreeSequence s, _ => delete s c
  | _, _ => c
  end.

Definition run1 (o : op) (stc : t * cache) : option (t * cache) :=
  '(st', r) ← step o stc.1; Some (st', abs_step o r stc.2).

Definition run (st : t) (ops : list op) : option (t * cache) :=
  foldl (fun o op => o ≫= run1 op) (Some (st, ∅)) ops.

Definition op_ok (st : t) (o : op) : Prop :=
  match o with AppendToken _ kv => token_ok st kv | _ => True end.

Lemma step_repr st c o : repr st c -> op_ok st o ->
  exists st' r, step o st = Some (st', r) /\ repr st' (abs_step o r c).
Proof.
  intros H Ho. destruct o as [|b|s kv|s cap|s]; simpl.
  - do 2 eexists. split; [done|]. by apply allocateBlock_spec.
  - do 2 eexists. split; [done|]. by apply freeBlock_spec.
  - destruct (append_spec st c s kv H Ho) as (st' & He & Hr & _). do 2 eexists. split; [done|].
    by destruct (can_append st s).
  - destruct (decide (0 <= cap)) as [Hc|Hc].
    + destruct (reserve_spec st c s cap H Hc) as (st' & He & Hr). rewrite He. do 2 eexists. split; [done|].
      destruct (can_reserve st s cap); [tauto|by subst].
    + unfold reserveSequenceCapacity. rewrite (proj2 (Z.ltb_lt cap 0)) by lia. by do 2 eexists.
  - do 2 eexists. split; [done|]. by apply freeSequence_spec.
Qed.

Definition dims (st : t) : Z * Z * Z * KVDType * Z :=
  (blockSize_ st, numHeads_ st, headDim_ st, dtype_ st, tokenStride_ st).

Lemma releaseBlock_dims st b r : dims (releaseBlock st b r) = dims st.
Proof. unfold releaseBlock. repeat (case_match; try done). Qed.

Lemma freeSequence_dims st s : dims (freeSequence st s) = dims st.
Proof.
  unfold freeSequence. destruct (seqs_ st !! s) as [sq|]; [|done].
  change (dims (foldl (fun st b => releaseBlock st b true) st (blockTable sq)) = dims st).
  apply (foldl_inv (fun st' => dims st' = dims st)); [done|]. intros. by rewrite releaseBlock_dims.
Qed.

Lemma writeToken_dims st b slot k v st' : writeToken st b slot k v = Some st' -> dims st' = dims st.
Proof.
  unfold writeToken. intros H. apply bind_Some in H as (? & _ & H). apply bind_Some in H as (? & _ & H).
  by simplify_eq.
Qed.

Lemma appendToken_dims st s k v st' r : appendToken st s k v = Some (st', r) -> dims st' = dims st.
Proof.
  unfold appendToken, allocateBlock. intros H.
  destruct k as [k|], v as [v|]; simplify_eq; try done. cbv zeta in H.
  cbn [freeList_ set_blocks] in H. case_match; [by simplify_eq|].
  case_match eqn:E. destruct p as [st1 s1]. assert (dims st1 = dims st) as <-.
  { clear H. case_match; [|by simplify_eq]. destruct (freeList_ st); [by simplify_eq/=|].
    case_match; by simplify_eq/=. }
  case_match; [by simplify_eq|]. apply bind_Some in H as (phys & _ & H). apply bind_Some in H as (st2 & Hw & H).
  simplify_eq. by apply writeToken_dims in Hw.
Qed.

Lemma step_dims o st st' r : step o st = Some (st', r) -> dims st' = dims st.
Proof.
  destruct o as [|b|s kv|s cap|s]; cbn [step].
  - intros [= <- <-]. unfold allocateBlock. by destruct (freeList_ st).
  - intros [= <- <-]. apply releaseBlock_dims.
  - intros H. by apply appendToken_dims in H.
  - unfold reserveSequenceCapacity. intros H. cbv zeta in H. injection H as H. inv_branches H; done.
  - intros [= <- <-]. apply freeSequence_dims.
Qed.

Lemma op_ok_dims st st' o : dims st' = dims st -> op_ok st o -> op_ok st' o.
Proof. unfold dims. intros [= _ _ _ _ E]. destruct o; simpl; unfold token_ok; by rewrite ?E. Qed.

(** A run from any state, on the concrete and the abstract cache. *)
Definition run_from (stc : option (t * cache)) (ops : list op) : option (t * cache) :=
  foldl (fun o op => o ≫= run1 op) stc ops.

Lemma run_from_repr st c ops : repr st c -> Forall (op_ok st) ops ->
  exists st' c', run_from (Some (st, c)) ops = Some (st', c') /\ repr st' c' /\ dims st' = dims st.
Proof.
  intros H Hops. induction ops as [|o ops IH] using rev_ind.
  { exists st, c. done. }
  apply Forall_app in Hops as [Hops [Ho _]%Forall_cons]. destruct (IH Hops) as (st1 & c1 & He & H1 & Hd).
  destruct (step_repr st1 c1 o H1) as (st2 & r & Hs & H2); [by apply (op_ok_dims st)|].
  exists st2, (abs_step o r c1). unfold run_from in *. rewrite foldl_snoc, He. simpl.
  unfold run1. cbn [fst snd]. rewrite Hs. split_and!; [done|done|]. rewrite <- Hd. by eapply step_dims.
Qed.

Lemma seqLen_repr st c s : repr st c ->
  seqLen st s = Z.of_nat (length (default [] (c !! s))) /\ hasSequence st s = bool_decide (is_Some (c !! s)).
Proof.
  intros H. pose proof (repr_seq _ _ H s) as Hr. unfold seqLen, hasSequence.
  by inversion Hr as [sq toks [Hl _]|].
Qed.

Lemma validSlot_true st b slot h : 0 <= b < totalBlocks st -> 0 <= slot < blockSize_ st -> 0 <= h < numHeads_ st ->
  blockState_ st !! Z.to_nat b = Some kBlockSequence -> validSlot st b slot h = true.
Proof.
  intros Hb Hs Hh Hst. unfold validSlot. rewrite Hst, bool_decide_eq_false_2 by done.
  rewrite (proj2 (Z.ltb_ge b 0)), (proj2 (Z.leb_gt (totalBlocks st) b)), (proj2 (Z.ltb_ge slot 0)),
    (proj2 (Z.leb_gt (blockSize_ st) slot)), (proj2 (Z.ltb_ge h 0)), (proj2 (Z.leb_gt (numHeads_ st) h)) by lia.
  done.
Qed.

(** Reading the slice of one head through the guards of [readKey]. *)
Lemma readHead_at st sq s i si b h str out l : inv st -> seqs_ st !! s = Some sq ->
  slotOf st sq i = Some si -> blockTable sq !! Z.to_nat (i / blockSize_ st) = Some b ->
  0 <= h < numHeads_ st -> headAt st str (si * numHeads_ st + h) = Some l ->
  readHead st str b (i mod blockSize_ st) h out = Some l.
Proof.
  intros Hinv Hs Hsl Hb Hh Hl. pose proof (inv_cfg _ Hinv) as Hcfg.
  destruct (slot_valid _ _ _ _ _ Hinv Hs Hsl) as (b' & Hb' & _ & Hbn & Hm & Hsi & Hsib & Hst).
  rewrite Hb in Hb'. injection Hb' as <-. unfold readHead.
  rewrite validSlot_true by done.
  simpl. destruct (slotIndex_ok st Hcfg b _ Hbn Hm) as [-> _]. rewrite <- Hsi.
  by rewrite headIndex_ok, elemIndex_ok, packIndex_ok by done.
Qed.

(** C1: the paged cache is a map from sequences to token lists.  After any
    calls on a fresh cache no access leaves an array, sequence lengths are the
    number of successfully appended tokens, and for every token [readKey] and
    [readVal], at the block the block table gives for its position, return
    what the storage type keeps of that token's slice for the head: exactly
    the appended floats for F32, the dequantized codes otherwise.  Blocks of
    other sequences, releases and reservations never disturb it. *)
Theorem kv_cache_refines numBlocks blockSize numHeads headDim dtype st0 ops :
  create numBlocks blockSize numHeads headDim dtype = Ok st0 -> Forall (op_ok st0) ops ->
  exists st c, run st0 ops = Some (st, c) /\
    (forall s, seqLen st s = Z.of_nat (length (default [] (c !! s))) /\
               hasSequence st s = bool_decide (is_Some (c !! s))) /\
    forall s toks i kv h out, c !! s = Some toks -> toks !! i = Some kv -> 0 <= h < numHeads ->
      exists b, blockTableOf st s !! Z.to_nat (Z.of_nat i / blockSize) = Some b /\
        readKey st b (Z.of_nat i mod blockSize) h out = Some (stored (dtype_ st) (hslice st h kv.1)) /\
        readVal st b (Z.of_nat i mod blockSize) h out = Some (stored (dtype_ st) (hslice st h kv.2)).
Proof.
  intros Hc Hops. apply create_spec in Hc as (H0 & _ & <- & <- & _ & _).
  destruct (run_from_repr st0 ∅ ops H0 Hops) as (st & c & Hr & H & [= Hbs Hnh _ _ _]). exists st, c.
  rewrite <- Hbs, <- Hnh. split; [exact Hr|]. split; [intros s; by apply seqLen_repr|].
  intros s toks i kv h out Hs Hi Hh. pose proof (repr_seq _ _ H s) as Hsr. rewrite Hs in Hsr.
  inversion Hsr as [sq ? [_ Ht] Hsq|]. subst. destruct (Ht i kv Hi) as (si & Hsl & Hat).
  symmetry in Hsq. destruct (slot_valid _ _ _ _ _ (repr_inv _ _ H) Hsq Hsl) as (b & Hb & _).
  exists b. unfold blockTableOf. rewrite Hsq. split; [exact Hb|]. destruct (Hat h Hh) as [Hk Hv].
  split; eapply readHead_at; eauto using repr_inv.
Qed.

Definition tokF (a b : Z) : token := ([f32_of_Z a; f32_of_Z b], [f32_of_Z (- a); f32_of_Z (- b)]).

Lemma kv_cache_refines_witness :
  exists st0, create 2 2 1 2 I8 = Ok st0 /\
  exists st c, run st0 [AppendToken 7 (tokF 1 2); AppendToken 9 (tokF 5 6); AppendToken 7 (tokF 3 4)] = Some (st, c) /\
    seqLen st 7 = 2.
Proof.
  destruct (create 2 2 1 2 I8) as [st0|] eqn:E; [|vm_compute in E; discriminate E].
  exists st0. split; [reflexivity|].
  destruct (kv_cache_refines 2 2 1 2 I8 st0
    [AppendToken 7 (tokF 1 2); AppendToken 9 (tokF 5 6); AppendToken 7 (tokF 3 4)] E) as (st & c & Hr & Hl & _).
  { vm_compute in E. injection E as <-. repeat constructor. }
  exists st, c. split; [exact Hr|]. rewrite (proj1 (Hl 7)). vm_compute in E. injection E as <-.
  vm_compute in Hr. injection Hr as _ <-. vm_compute. reflexivity.
Defined.

(** Blocks handed out by [allocateBlock] and not released. *)
Definition rawBlocks (st : t) : list Z :=
  filter (fun b => blockState_ st !! Z.to_nat b = Some kBlockRaw) (seqZ 0 (totalBlocks st)).

Definition sequenceBlocks (st : t) : list Z :=
  map_to_list (seqs_ st) ≫= fun '(_, sq) => blockTable sq.

Lemma elem_sequenceBlocks st b : b ∈ sequenceBlocks st <-> exists s i, own (blockTable <$> seqs_ st) s i b.
Proof.
  unfold sequenceBlocks, own. rewrite list_elem_of_bind. split.
  - intros ([s sq] & Hb & Hs%elem_of_map_to_list). apply list_elem_of_lookup in Hb as [i Hi].
    exists s, i, (blockTable sq). by rewrite lookup_fmap, Hs.
  - intros (s & i & tab & Ht & Hi). rewrite lookup_fmap in Ht. apply fmap_Some in Ht as (sq & Hs & ->).
    exists (s, sq). split; [by eapply list_elem_of_lookup_2|by apply elem_of_map_to_list].
Qed.

Lemma NoDup_sequenceBlocks st : inv st -> NoDup (sequenceBlocks st).
Proof.
  intros H. unfold sequenceBlocks.
  assert (forall s sq i b, seqs_ st !! s = Some sq -> blockTable sq !! i = Some b ->
    own (blockTable <$> seqs_ st) s i b) as Hown.
  { intros s sq i b Hs Hb. exists (blockTable sq). by rewrite lookup_fmap, Hs. }
  apply NoDup_bind; [| |apply NoDup_map_to_list].
  - intros [s1 sq1] [s2 sq2] b H1%elem_of_map_to_list H2%elem_of_map_to_list Hb1 Hb2.
    apply list_elem_of_lookup in Hb1 as [i1 Hb1], Hb2 as [i2 Hb2].
    destruct (bi_inj _ _ _ (inv_blocks _ H) _ _ _ _ _ (Hown _ _ _ _ H1 Hb1) (Hown _ _ _ _ H2 Hb2)) as [-> _].
    congruence.
  - intros [s sq] Hs%elem_of_map_to_list. apply NoDup_alt. intros i j b Hi Hj.
    by destruct (bi_inj _ _ _ (inv_blocks _ H) _ _ _ _ _ (Hown _ _ _ _ Hs Hi) (Hown _ _ _ _ Hs Hj)).
Qed.

Lemma blocks_partition st : inv st ->
  freeList_ st ++ rawBlocks st ++ sequenceBlocks st ≡ₚ seqZ 0 (totalBlocks st).
Proof.
  intros H. pose proof (inv_blocks _ H) as Hb.
  assert (forall b x, 0 <= b -> blockState_ st !! Z.to_nat b = Some x -> b ∈ seqZ 0 (totalBlocks st)) as Hin.
  { intros b x Hb0 Hx. apply elem_of_seqZ. apply lookup_lt_Some in Hx. unfold totalBlocks. lia. }
  assert (forall b, b ∈ sequenceBlocks st <-> 0 <= b /\ blockState_ st !! Z.to_nat b = Some kBlockSequence) as Hsb.
  { intros b. rewrite elem_sequenceBlocks. split.
    - intros (s & i & Ho). by eapply bi_owner.
    - intros [H0 Hs]. by eapply bi_owned. }
  apply NoDup_Permutation; [|apply NoDup_seqZ|].
  - apply NoDup_app. split_and!; [apply Hb| |].
    + intros b [_ Hf]%(bi_free _ _ _ Hb) [Hr|Hs]%elem_of_app.
      * apply list_elem_of_filter in Hr as [Hr _]. rewrite Hf in Hr. done.
      * apply Hsb in Hs as [_ Hs]. rewrite Hf in Hs. done.
    + apply NoDup_app. split_and!; [apply NoDup_filter, NoDup_seqZ| |by apply NoDup_sequenceBlocks].
      intros b [Hr _]%list_elem_of_filter [_ Hs]%Hsb. rewrite Hr in Hs. done.
  - intros b. rewrite !elem_of_app. split.
    + intros [[? ?]%(bi_free _ _ _ Hb)|[[_ ?]%list_elem_of_filter|[? ?]%Hsb]]; eauto.
    + intros Hb0. pose proof Hb0 as Hb1. apply elem_of_seqZ in Hb1.
      destruct (lookup_lt_is_Some_2 (blockState_ st) (Z.to_nat b)) as [x Hx]; [unfold totalBlocks in *; lia|].
      destruct (Forall_lookup_1 _ _ _ _ (bi_states _ _ _ Hb) Hx) as [-> | [-> | ->]].
      * left. apply (bi_free _ _ _ Hb). split; [lia|done].
      * right. left. by apply list_elem_of_filter.
      * right. right. apply Hsb. split; [lia|done].
Qed.

(** C2: physical blocks are conserved.  In every reachable state the free
    list, the raw allocations and the block tables of the sequences together
    hold each of the pool's blocks exactly once, so no block is leaked,
    handed out twice, or shared by two sequences. *)
Theorem kv_blocks_conserved numBlocks blockSize numHeads headDim dtype st0 ops :
  create numBlocks blockSize numHeads headDim dtype = Ok st0 -> Forall (op_ok st0) ops ->
  exists st c, run st0 ops = Some (st, c) /\
    freeList_ st ++ rawBlocks st ++ sequenceBlocks st ≡ₚ seqZ 0 (totalBlocks st).
Proof.
  intros Hc Hops. apply create_spec in Hc as (H0 & _).
  destruct (run_from_repr st0 ∅ ops H0 Hops) as (st & c & Hr & H & _). exists st, c.
  split; [exact Hr|]. by apply blocks_partition, (repr_inv _ c).
Qed.

Lemma kv_blocks_conserved_witness :
  exists st0, create 3 2 1 2 F32 = Ok st0 /\
  exists st c, run st0 [AppendToken 7 (tokF 1 2); AllocateBlock; FreeSequence 7] = Some (st, c) /\
    freeList_ st ++ rawBlocks st ++ sequenceBlocks st ≡ₚ seqZ 0 (totalBlocks st).
Proof.
  destruct (create 3 2 1 2 F32) as [st0|] eqn:E; [|vm_compute in E; discriminate E].
  exists st0. split; [reflexivity|]. apply (kv_blocks_conserved 3 2 1 2 F32 st0 _ E).
  vm_compute in E. injection E as <-. repeat constructor.
Defined.

(** ** Reservations *)

(** No table shrinks from [st] to [st'], except that of a sequence in [ex]. *)
Definition tables_grow (ex : Z -> Prop) (st st' : t) : Prop :=
  forall s, ~ ex s -> (length (blockTableOf st s) <= length (blockTableOf st' s))%nat.

Lemma tables_grow_refl ex st : tables_grow ex st st.
Proof. by intros s _. Qed.

Lemma tables_grow_insert ex st s sq fl bs :
  (length (blockTableOf st s) <= length (blockTable sq))%nat ->
  tables_grow ex st (set_blocks st fl bs (<[s := sq]> (seqs_ st))).
Proof.
  intros Hl s' _. unfold blockTableOf in *. cbn [seqs_ set_blocks].
  destruct (decide (s' = s)) as [->|]; [by rewrite lookup_insert_eq|by rewrite lookup_insert_ne].
Qed.

Lemma moveBlocks_length n fl tab states :
  (length tab <= length (moveBlocks n fl tab states).1.2)%nat.
Proof.
  revert fl tab states. induction n as [|n IH]; intros [|b fl] tab states; simpl; try lia.
  etrans; [|apply IH]. rewrite length_app. lia.
Qed.

Lemma append_tables s st k v st' r : appendToken st s k v = Some (st', r) -> tables_grow (fun _ => False) st st'.
Proof.
  unfold appendToken, allocateBlock. intros H.
  destruct k as [k|], v as [v|]; simplify_eq; try apply tables_grow_refl. cbv zeta in H.
  pose proof (blockTableOf_default st s) as Hd. set (s0 := default (mkSeq [] 0) (seqs_ st !! s)) in *.
  cbn [freeList_ set_blocks] in H.
  case_match; [simplify_eq; apply tables_grow_insert; by rewrite Hd|].
  case_match eqn:E. destruct p as [st1 s1].
  assert (seqs_ st1 = <[s := s1]> (seqs_ st) /\ (length (blockTableOf st s) <= length (blockTable s1))%nat) as [H1 Hl].
  { clear H. rewrite Hd. case_match; [|by simplify_eq]. destruct (freeList_ st); [by simplify_eq/=|].
    case_match; simplify_eq/=; [done|]. rewrite insert_insert_eq, length_app. split; [done|lia]. }
  assert (forall sq st2, length (blockTable sq) = length (blockTable s1) -> seqs_ st2 = <[s := sq]> (seqs_ st) ->
    tables_grow (fun _ => False) st st2) as Hgrow.
  { intros sq st2 Hsq Hst2 s' Hs'. etrans; [apply (tables_grow_insert (fun _ => False) st s sq (freeList_ st) (blockState_ st)); [lia|done]|].
    unfold blockTableOf. cbn [seqs_ set_blocks]. by rewrite Hst2. }
  case_match; [simplify_eq; by apply (Hgrow s1)|].
  apply bind_Some in H as (phys & _ & H). apply bind_Some in H as (st2 & Hw & H). simplify_eq.
  unfold writeToken in Hw. apply bind_Some in Hw as (? & _ & Hw). apply bind_Some in Hw as (? & _ & Hw).
  simplify_eq. eapply (Hgrow (mkSeq (blockTable s1) (length_ s1 + 1))); [done|].
  cbn [seqs_ set_blocks set_stores]. by rewrite H1, insert_insert_eq.
Qed.

Lemma releaseBlock_seqs st b r : seqs_ (releaseBlock st b r) = seqs_ st.
Proof. unfold releaseBlock. repeat (case_match; try done). Qed.

Lemma freeSequence_seqs st s : seqs_ (freeSequence st s) = delete s (seqs_ st).
Proof.
  unfold freeSequence. destruct (seqs_ st !! s) as [sq|] eqn:E; [|by rewrite delete_id].
  cbn [seqs_ set_blocks]. f_equal.
  apply (foldl_inv (fun st' => seqs_ st' = seqs_ st)); [done|]. intros. by rewrite releaseBlock_seqs.
Qed.

Lemma step_tables o st st' r : step o st = Some (st', r) -> tables_grow (fun s => o = FreeSequence s) st st'.
Proof.
  destruct o as [|b|s kv|s cap|s]; cbn [step]; intros H.
  - simplify_eq. intros s _. unfold allocateBlock. by destruct (freeList_ st).
  - simplify_eq. intros s _. unfold blockTableOf, freeBlock. by rewrite releaseBlock_seqs.
  - intros s' _. apply (append_tables _ _ _ _ _ _ H). tauto.
  - injection H as H. unfold reserveSequenceCapacity in H. cbv zeta in H.
    pose proof (blockTableOf_default st s) as Hd. set (s0 := default (mkSeq [] 0) (seqs_ st !! s)) in *.
    repeat (case_match; [simplify_eq; first [apply tables_grow_refl|apply tables_grow_insert; by rewrite Hd]|]).
    case_match eqn:E. destruct p as [fl tab]. simplify_eq. rewrite set_blocks_twice. cbn [seqs_ set_blocks].
    rewrite insert_insert_eq. apply tables_grow_insert. rewrite Hd. cbn [blockTable].
    match type of E with moveBlocks ?n ?f ?t ?b = _ => pose proof (moveBlocks_length n f t b) as Hl end.
    by rewrite E in Hl.
  - simplify_eq. intros s' Hne. unfold blockTableOf. rewrite freeSequence_seqs, lookup_delete_ne; [done|congruence].
Qed.

Lemma run_tables s ops : Forall (fun o => o <> FreeSequence s) ops -> forall st c st' c',
  run_from (Some (st, c)) ops = Some (st', c') -> (length (blockTableOf st s) <= length (blockTableOf st' s))%nat.
Proof.
  intros Hops. unfold run_from. induction ops as [|o ops IH] using rev_ind; intros st c st' c' H.
  { by simplify_eq/=. }
  apply Forall_app in Hops as [Hops [Ho _]%Forall_cons]. rewrite foldl_snoc in H.
  apply bind_Some in H as ([st1 c1] & H1 & H). unfold run1 in H. apply bind_Some in H as ([st2 r] & H2 & H).
  simplify_eq/=. etrans; [by eapply IH|]. apply step_tables in H2. apply H2. congruence.
Qed.

(** C3: a reservation is honoured.  Once [reserveSequenceCapacity] has
    succeeded for a capacity, whatever other calls follow (appends and
    reservations of other sequences, raw allocations that exhaust the pool)
    until the sequence is freed, appending to it succeeds while its length is
    below that capacity, and takes no block from the free list. *)
Theorem reservation_honoured numBlocks blockSize numHeads headDim dtype st0 ops1 st1 c1 s cap st2 ops2 kv :
  create numBlocks blockSize numHeads headDim dtype = Ok st0 ->
  Forall (op_ok st0) ops1 -> run st0 ops1 = Some (st1, c1) ->
  0 <= cap <= INT_MAX -> reserveSequenceCapacity st1 s cap = (st2, true) ->
  Forall (op_ok st0) ops2 -> Forall (fun o => o <> FreeSequence s) ops2 -> token_ok st0 kv ->
  exists st c, run_from (Some (st2, abs_step (ReserveSequenceCapacity s cap) true c1)) ops2 = Some (st, c) /\
    (seqLen st s < cap -> exists st', appendToken st s (Some kv.1) (Some kv.2) = Some (st', true) /\
       freeBlocks st' = freeBlocks st /\ seqLen st' s = seqLen st s + 1).
Proof.
  intros Hc Ho1 Hr1 Hcap Hres Ho2 Hnf Hkv. apply create_spec in Hc as (H0 & _).
  destruct (run_from_repr st0 ∅ ops1 H0 Ho1) as (st1' & c1' & He & H1 & Hd1).
  unfold run in Hr1. unfold run_from in He. rewrite Hr1 in He. injection He as <- <-.
  destruct (reserve_spec st1 c1 s cap H1) as (st2' & He2 & Hsp); [lia|].
  rewrite Hres in He2. injection He2 as <- Hcr. rewrite <- Hcr in Hsp. destruct Hsp as (H2 & Ht2 & _).
  assert (dims st2 = dims st0) as Hd2.
  { rewrite <- Hd1. apply (step_dims (ReserveSequenceCapacity s cap) _ _ true). cbn [step]. by rewrite Hres. }
  assert (Forall (op_ok st2) ops2) as Ho2' by (eapply Forall_impl; [exact Ho2|]; intros; by apply (op_ok_dims st0)).
  destruct (run_from_repr st2 _ ops2 H2 Ho2') as (st & c & Hr & H & Hd). exists st, c. split; [exact Hr|].
  intros Hlt. pose proof (run_tables s ops2 Hnf _ _ _ _ Hr) as Hlen.
  pose proof (cfg_bs _ (inv_cfg _ (repr_inv _ _ H1))) as Hbs.
  assert (blockSize_ st = blockSize_ st1) as Ebs by (rewrite <- Hd2 in Hd1; unfold dims in *; congruence).
  assert (cap <= Z.of_nat (length (blockTableOf st s)) * blockSize_ st1) as Hroom.
  { apply (requiredBlocks_le st1); [done|lia|]. rewrite Ht2, length_app, length_take in Hlen.
    symmetry in Hcr. unfold can_reserve, freeBlocks in Hcr. b2p. lia. }
  assert (can_append st s = true /\
    (Z.of_nat (length (blockTableOf st s)) <=? seqLen st s / blockSize_ st) = false) as [Hca Hnb].
  { assert (seqLen st s / blockSize_ st < Z.of_nat (length (blockTableOf st s))) as Hdiv
      by (apply Z.div_lt_upper_bound; lia).
    unfold can_append. rewrite (proj2 (Z.ltb_lt _ _) Hdiv), (proj2 (Z.eqb_neq _ _)) by lia.
    split; [done|]. by apply Z.leb_gt. }
  destruct (append_spec st c s kv H) as (st' & Ha & Hr' & Hf).
  { unfold token_ok, dims in *. rewrite Hd2 in Hd. by injection Hd as _ _ _ _ ->. }
  rewrite Hca, ?Hnb in *. exists st'. split_and!; [exact Ha|exact Hf|].
  rewrite (proj1 (seqLen_repr _ _ s Hr')), (proj1 (seqLen_repr _ _ s H)), lookup_insert_eq. simpl.
  rewrite length_app. simpl. lia.
Qed.

Lemma reservation_honoured_witness :
  exists st0 st2, create 2 1 1 2 F32 = Ok st0 /\ reserveSequenceCapacity st0 7 1 = (st2, true) /\
  exists st st', run_from (Some (st2, {[7 := []]})) [AllocateBlock; AllocateBlock] = Some (st, {[7 := []]}) /\
    appendToken st 7 (Some (tokF 1 2).1) (Some (tokF 1 2).2) = Some (st', true).
Proof.
  destruct (create 2 1 1 2 F32) as [st0|] eqn:E; [|vm_compute in E; discriminate E].
  destruct (reserveSequenceCapacity st0 7 1) as [st2 b] eqn:E2.
  assert (b = true) as -> by (vm_compute in E; injection E as <-; vm_compute in E2; congruence).
  exists st0, st2. split; [reflexivity|]. split; [exact E2|].
  destruct (reservation_honoured 2 1 1 2 F32 st0 [] st0 ∅ 7 1 st2 [AllocateBlock; AllocateBlock] (tokF 1 2)
    E ltac:(constructor) eq_refl ltac:(unfold INT_MAX; lia) E2) as (st & c & Hr & Ha).
  - repeat constructor.
  - repeat constructor; discriminate.
  - vm_compute in E. injection E as <-. split; reflexivity.
  - assert (seqLen st 7 < 1) as Hl.
    { vm_compute in E. injection E as <-. vm_compute in E2. injection E2 as <-.
      vm_compute in Hr. injection Hr as <- _. reflexivity. }
    assert (c = {[7 := []]}) as ->.
    { vm_compute in E. injection E as <-. vm_compute in E2. injection E2 as <-.
      vm_compute in Hr. injection Hr as _ <-. reflexivity. }
    destruct (Ha Hl) as (st' & Hs & _). exists st, st'. split; [exact Hr|exact Hs].
Defined.

End KVCacheManager.
