(* ===== verification/PagedAttention.v ===== *)
(** * Paged attention

    Model of [pagedAttention] (src/core/kv_cache.cpp): online-softmax attention
    of one query row over the cached tokens of a sequence, read block by block
    through the block table.  [std::exp] is a parameter.  Reading through a
    null [keyPtr] is [None]. *)

From S2P Require Import Prelude KvQuant KvCache.
Import KvQuant KVCacheManager.

Module PagedAttention.

Section PagedAttention.
Context (expf : f32 -> f32).

(** [-3.402823466e+38f]: the least finite float. *)
Definition lowest : f32 := S754_finite true 16777215 104.

Definition fsub (a b : f32) : f32 := SFsub 24 128 a b.

(** The accumulators: [out], [runMax], [runSum]. *)
Record Acc := mkAcc { out : list f32; runMax : f32; runSum : f32 }.

Definition dot (q k : list f32) : f32 :=
  foldl (fun acc '(x, y) => fadd acc (fmul x y)) fzero (zip q k).

(** One token of the online softmax. *)
Definition softmaxStep (q : list f32) (scale : f32) (acc : Acc) (kv : list f32 * list f32) : Acc :=
  let s := fmul (dot q kv.1) scale in
  let newMax := if SFltb s (runMax acc) then runMax acc else s in
  let resc := expf (fsub (runMax acc) newMax) in
  let e := expf (fsub s newMax) in
  mkAcc (zip_with (fun o v => fadd (fmul o resc) (fmul e v)) (out acc) kv.2)
        newMax (fadd (fmul (runSum acc) resc) e).

Definition finish (acc : Acc) : list f32 :=
  if SFltb fzero (runSum acc) then (fun o => fdiv o (runSum acc)) <$> out acc else out acc.

Definition start (d : Z) : Acc := mkAcc (replicate (Z.to_nat d) fzero) lowest fzero.

(** The slice the loop reads: through the pool pointer in fp32 mode, into the
    scratch buffer otherwise. *)
Definition readRow (st : t) (s : Store) (physBlock slot head : Z) (buf : list f32) : option (list f32) :=
  match dtype_ st with
  | F32 => idx ← slicePtr st physBlock slot head; slice idx (headDim_ st) (pool s)
  | _ => readHead st s physBlock slot head buf
  end.

(** The loop from token [i] to [last]. *)
Fixpoint attendLoop (fuel : nat) (st : t) (q : list f32) (head : Z) (table : list Z) (scale : f32)
    (last i : Z) (kbuf vbuf : list f32) (acc : Acc) : option Acc :=
  match fuel with
  | O => Some acc
  | S fuel =>
      if last <? i then Some acc else
      let logical := i / blockSize_ st in
      let slot := i mod blockSize_ st in
      match table !! Z.to_nat logical with
      | None => Some acc
      | Some physBlock =>
          k ← readRow st (kStore st) physBlock slot head kbuf;
          v ← readRow st (vStore st) physBlock slot head vbuf;
          attendLoop fuel st q head table scale last (i + 1) k v (softmaxStep q scale acc (k, v))
      end
  end.

Definition pagedAttention (st : t) (q : list f32) (head seq : Z) (scale : f32) (causalUpTo : Z) : option (list f32) :=
  let len := seqLen st seq in
  let buf := replicate (Z.to_nat (headDim_ st)) fzero in
  let last := if (causalUpTo <? 0) || (len <=? causalUpTo) then len - 1 else causalUpTo in
  acc ← attendLoop (Z.to_nat (last + 1)) st q head (blockTableOf st seq) scale last 0 buf buf (start (headDim_ st));
  Some (finish acc).

(** ** Paging is transparent *)

(** Attention over a contiguous list of key and value rows. *)
Definition attention (q : list f32) (scale : f32) (d : Z) (rows : list (list f32 * list f32)) : list f32 :=
  finish (foldl (softmaxStep q scale) (start d) rows).

(** The rows of a head as the cache keeps them. *)
Definition rows (st : t) (head : Z) (toks : list token) : list (list f32 * list f32) :=
  (fun kv => (stored (dtype_ st) (hslice st head kv.1), stored (dtype_ st) (hslice st head kv.2))) <$> toks.

(** The number of tokens the query attends to. *)
Definition visible (len causalUpTo : Z) : Z :=
  if (causalUpTo <? 0) || (len <=? causalUpTo) then len else causalUpTo + 1.

Lemma readRow_at st sq s i si b h str buf l : inv st -> seqs_ st !! s = Some sq ->
  slotOf st sq i = Some si -> blockTable sq !! Z.to_nat (i / blockSize_ st) = Some b ->
  0 <= h < numHeads_ st -> headAt st str (si * numHeads_ st + h) = Some l ->
  readRow st str b (i mod blockSize_ st) h buf = Some l.
Proof.
  intros Hinv Hs Hsl Hb Hh Hl. pose proof (readHead_at _ _ _ _ _ _ _ _ buf _ Hinv Hs Hsl Hb Hh Hl) as Hr.
  unfold readRow. destruct (dtype_ st) eqn:Edt; [|exact Hr..]. unfold slicePtr, readHead in *. rewrite Edt in *.
  pose proof (inv_cfg _ Hinv) as Hcfg.
  destruct (slot_valid _ _ _ _ _ Hinv Hs Hsl) as (b' & Hb' & _ & Hbn & Hm & Hsi & Hsib & Hst).
  rewrite Hb in Hb'. injection Hb' as <-.
  rewrite (validSlot_true st) in Hr |- * by done. exact Hr.
Qed.

Lemma attendLoop_rows st c seq sq toks q head scale last fuel i kbuf vbuf acc :
  repr st c -> seqs_ st !! seq = Some sq -> c !! seq = Some toks -> 0 <= head < numHeads_ st ->
  0 <= i -> last < Z.of_nat (length toks) -> last + 1 - i <= Z.of_nat fuel ->
  attendLoop fuel st q head (blockTable sq) scale last i kbuf vbuf acc =
    Some (foldl (softmaxStep q scale) acc
            (take (Z.to_nat (last + 1 - i)) (drop (Z.to_nat i) (rows st head toks)))).
Proof.
  intros H Hs Hc Hh. revert i kbuf vbuf acc. induction fuel as [|fuel IH]; intros i kbuf vbuf acc Hi Hlast Hf; simpl.
  { by replace (Z.to_nat (last + 1 - i)) with 0%nat by lia. }
  destruct (Z.ltb_spec last i).
  { by replace (Z.to_nat (last + 1 - i)) with 0%nat by lia. }
  pose proof (repr_seq _ _ H seq) as Hr. rewrite Hs, Hc in Hr. inversion Hr as [? ? [_ Ht]|]. subst.
  destruct (lookup_lt_is_Some_2 toks (Z.to_nat i)) as [kv Hkv]; [lia|].
  destruct (Ht _ _ Hkv) as (si & Hsl & Hat). rewrite Z2Nat.id in Hsl by lia.
  destruct (slot_valid _ _ _ _ _ (repr_inv _ _ H) Hs Hsl) as (b & Hb & _). rewrite Hb.
  destruct (Hat head Hh) as [Hk Hv].
  rewrite (readRow_at _ _ _ _ _ _ _ _ kbuf _ (repr_inv _ _ H) Hs Hsl Hb Hh Hk). simpl.
  rewrite (readRow_at _ _ _ _ _ _ _ _ vbuf _ (repr_inv _ _ H) Hs Hsl Hb Hh Hv). simpl.
  rewrite IH by lia. f_equal.
  assert (rows st head toks !! Z.to_nat i = Some (stored (dtype_ st) (hslice st head kv.1),
    stored (dtype_ st) (hslice st head kv.2))) as Hrow by (apply list_lookup_fmap_Some; by exists kv).
  rewrite (drop_S _ _ _ Hrow).
  replace (Z.to_nat (last + 1 - i)) with (S (Z.to_nat (last + 1 - (i + 1)))) by lia. simpl.
  by replace (Z.to_nat (i + 1)) with (S (Z.to_nat i)) by lia.
Qed.

(** C11: paged attention computes attention over the contiguous token list.  In
    every state reachable from a fresh cache, for any exponential function,
    query, scale and causal bound, the result is the online-softmax attention
    over the stored rows of the visible prefix of the sequence, whatever
    physical blocks hold them; a sequence the cache does not have gives zeros. *)
Theorem paged_attention_contiguous numBlocks blockSize numHeads headDim dtype st0 ops q head seq scale causalUpTo :
  create numBlocks blockSize numHeads headDim dtype = Ok st0 -> Forall (op_ok st0) ops -> 0 <= head < numHeads ->
  exists st c, run st0 ops = Some (st, c) /\
    let toks := default [] (c !! seq) in
    pagedAttention st q head seq scale causalUpTo =
      Some (attention q scale (headDim_ st)
              (take (Z.to_nat (visible (Z.of_nat (length toks)) causalUpTo)) (rows st head toks))).
Proof.
  intros Hc Hops Hh. apply create_spec in Hc as (H0 & _ & _ & Hnh & _ & _).
  destruct (run_from_repr st0 ∅ ops H0 Hops) as (st & c & Hr & H & Hd). exists st, c. split; [exact Hr|].
  assert (numHeads_ st = numHeads) as Hnh' by (unfold dims in Hd; congruence). subst numHeads.
  cbv zeta. unfold pagedAttention, attention. rewrite (proj1 (seqLen_repr _ _ seq H)).
  set (len := Z.of_nat _). set (last := if _ || _ then len - 1 else causalUpTo).
  assert (visible len causalUpTo = last + 1) as ->.
  { unfold visible, last. destruct (_ || _); lia. }
  assert (last < len) as Hlast.
  { unfold last. destruct ((causalUpTo <? 0) || (len <=? causalUpTo)) eqn:E; b2p; lia. }
  pose proof (repr_seq _ _ H seq) as Hsr. unfold len in *. clear len.
  destruct (c !! seq) as [toks|] eqn:Ec; simpl in *; inversion Hsr as [sq ? Hsq E|E]; subst.
  - unfold blockTableOf. rewrite <- E.
    rewrite (attendLoop_rows st c seq sq toks) by (done || lia). simpl. by rewrite Z.sub_0_r, drop_0.
  - replace (Z.to_nat (last + 1)) with 0%nat by lia. done.
Qed.

End PagedAttention.

Lemma paged_attention_contiguous_witness :
  exists st0, create 2 2 1 2 F32 = Ok st0 /\
  exists st c, run st0 [AppendToken 7 (tokF 1 2)] = Some (st, c) /\
    pagedAttention (fun x => x) st [f32_of_Z 1; f32_of_Z 1] 0 7 (f32_of_Z 1) (-1) <> None.
Proof.
  destruct (create 2 2 1 2 F32) as [st0|] eqn:E; [|vm_compute in E; discriminate E].
  exists st0. split; [reflexivity|].
  destruct (paged_attention_contiguous (fun x => x) 2 2 1 2 F32 st0 [AppendToken 7 (tokF 1 2)]
    [f32_of_Z 1; f32_of_Z 1] 0 7 (f32_of_Z 1) (-1) E) as (st & c & Hr & Ha).
  - vm_compute in E. injection E as <-. repeat constructor.
  - lia.
  - exists st, c. split; [exact Hr|]. rewrite Ha. discriminate.
Defined.

End PagedAttention.
