(* ===== verification/WaitingIndex.v ===== *)
(** * The scheduler's waiting index

    The queues of [ContinuousBatchScheduler] (include/vgre/core/kv_cache.h,
    src/core/kv_cache.cpp) by number of cache blocks, and the segment tree over
    them: leaf [base + b] stands for queue [b], and every node holds the queue
    with the oldest front below it, or the number of queues when there is none. *)

From S2P Require Import Prelude.

Module WaitingIndex.

Inductive RequestState := WAITING | RUNNING | FINISHED.

Record Request := mkReq {
  id : Z;
  promptLen : Z;
  maxNewTokens : Z;
  generated : Z;
  state : RequestState;
}.

#[export] Instance RequestState_eq_dec : EqDecision RequestState.
Proof. solve_decision. Defined.
#[export] Instance Request_eq_dec : EqDecision Request.
Proof. solve_decision. Defined.

Record QueuedRequest := mkQueued { request : Request; order : Z }.

Abbreviation buckets := (list (option (list QueuedRequest))).

(** [leafCount *= 2] until it covers the buckets. *)
Fixpoint leafCountLoop (fuel leafCount bucketCount : nat) : nat :=
  match fuel with
  | O => leafCount
  | S fuel => if (leafCount <? bucketCount)%nat then leafCountLoop fuel (leafCount * 2) bucketCount else leafCount
  end.

(** [waitingByBlocks_[b]->front().order]. *)
Definition frontOrder (B : buckets) (b : nat) : option Z :=
  match B !! b with Some (Some (q :: _)) => Some (order q) | _ => None end.

Definition olderWaitingBucket (B : buckets) (lhs rhs : nat) : nat :=
  let noBucket := length B in
  if (noBucket <=? lhs)%nat then rhs else
  if (noBucket <=? rhs)%nat then lhs else
  if default 0 (frontOrder B lhs) <=? default 0 (frontOrder B rhs) then lhs else rhs.

#[local] Arguments Nat.div : simpl never.

Lemma div_le_self a b : (a / b <= a)%nat.
Proof. destruct b; [unfold Nat.div; lia|]. apply Nat.Div0.div_le_upper_bound. nia. Qed.

(** The way up from [node]. *)
Fixpoint updateLoop (fuel : nat) (B : buckets) (node : nat) (tree : list nat) : list nat :=
  match fuel with
  | O => tree
  | S fuel =>
      if (1 <? node)%nat then
        let node := (node / 2)%nat in
        updateLoop fuel B node
          (<[node := olderWaitingBucket B (tree !!! (node * 2)%nat) (tree !!! (node * 2 + 1)%nat)]> tree)
      else tree
  end.

(** The range query, bottom up over the leaves [l], ..., [r - 1]. *)
Fixpoint queryLoop (fuel : nat) (B : buckets) (tree : list nat) (l r oldestLeft oldestRight : nat) : nat :=
  match fuel with
  | O => olderWaitingBucket B oldestLeft oldestRight
  | S fuel =>
      if (l <? r)%nat then
        let '(l, oldestLeft) :=
          if Nat.odd l then (S l, olderWaitingBucket B oldestLeft (tree !!! l)) else (l, oldestLeft) in
        let '(r, oldestRight) :=
          if Nat.odd r then (pred r, olderWaitingBucket B (tree !!! pred r) oldestRight) else (r, oldestRight) in
        queryLoop fuel B tree (l / 2) (r / 2) oldestLeft oldestRight
      else olderWaitingBucket B oldestLeft oldestRight
  end.

(** ** What the tree holds *)

(** [r] is the queue with the oldest front among those in [S]. *)
Definition is_best (B : buckets) (S : nat -> Prop) (r : nat) : Prop :=
  (exists o, S r /\ frontOrder B r = Some o /\ (r < length B)%nat /\
     forall b o', S b -> frontOrder B b = Some o' -> o <= o') \/
  (r = length B /\ forall b, S b -> frontOrder B b = None).

Lemma is_best_ext B S S' r : (forall b, S b <-> S' b) -> is_best B S r -> is_best B S' r.
Proof.
  intros HS [(o & Hr & Ho & Hl & Hm)|[-> Hn]]; [left|right].
  - exists o. split_and!; [by apply HS|done|done|]. intros b o' Hb. by apply Hm, HS.
  - split; [done|]. intros b Hb. by apply Hn, HS.
Qed.

Lemma is_best_empty B S : (forall b, ~ S b) -> is_best B S (length B).
Proof. intros H. right. split; [done|]. intros b Hb. by destruct (H b). Qed.

Lemma older_best B S1 S2 l r : is_best B S1 l -> is_best B S2 r ->
  is_best B (fun b => S1 b \/ S2 b) (olderWaitingBucket B l r).
Proof.
  unfold olderWaitingBucket.
  intros [(o1 & H1 & Ho1 & Hl1 & Hm1)|[-> Hn1]] [(o2 & H2 & Ho2 & Hl2 & Hm2)|[-> Hn2]].
  - rewrite (proj2 (Nat.leb_gt _ _) Hl1), (proj2 (Nat.leb_gt _ _) Hl2), Ho1, Ho2. simpl.
    destruct (Z.leb_spec o1 o2); left; [exists o1|exists o2]; split_and!; eauto;
      intros b o' [Hb|Hb] Hb'; [specialize (Hm1 b o' Hb Hb')|specialize (Hm2 b o' Hb Hb')
        |specialize (Hm1 b o' Hb Hb')|specialize (Hm2 b o' Hb Hb')]; lia.
  - rewrite (proj2 (Nat.leb_gt _ _) Hl1), (proj2 (Nat.leb_le _ _)) by done. left. exists o1.
    split_and!; eauto. intros b o' [Hb|Hb] Hb'; [by eauto|]. rewrite Hn2 in Hb'; [|done]. done.
  - rewrite (proj2 (Nat.leb_le _ _)) by done. left. exists o2.
    split_and!; eauto. intros b o' [Hb|Hb] Hb'; [|by eauto]. rewrite Hn1 in Hb'; [|done]. done.
  - rewrite (proj2 (Nat.leb_le _ _)) by done. right. split; [done|]. intros b [Hb|Hb]; auto.
Qed.

Section Tree.
(** The tree has [2 ^ p] leaves. *)
Context (p : nat).

Local Abbreviation base := (2 ^ p)%nat.

(** The height of a node, and the queues below it. *)
Definition height (v : nat) : nat := p - Nat.log2 v.
Definition cover (v b : nat) : Prop := ((base + b) / 2 ^ height v = v)%nat.

Definition node_ok (B : buckets) (T : list nat) (v : nat) : Prop := is_best B (cover v) (T !!! v).
Definition tree_ok (B : buckets) (T : list nat) : Prop :=
  forall v, (1 <= v < 2 * base)%nat -> node_ok B T v.

Lemma height_child u c : (1 <= u < base)%nat -> (c <= 1)%nat ->
  height u = S (height (u * 2 + c)).
Proof.
  intros Hu Hc. unfold height.
  assert (Nat.log2 u < p)%nat by (apply Nat.log2_lt_pow2; lia).
  assert (Nat.log2 (u * 2 + c) = S (Nat.log2 u)) as ->; [|lia].
  destruct c as [|[|]]; [| |lia].
  - rewrite Nat.add_0_r, Nat.mul_comm. apply Nat.log2_double. lia.
  - rewrite Nat.mul_comm. apply Nat.log2_succ_double. lia.
Qed.

Lemma cover_children u b : (1 <= u < base)%nat -> cover u b <-> cover (u * 2) b \/ cover (u * 2 + 1) b.
Proof.
  intros Hu. unfold cover. pose proof (height_child u 0 Hu ltac:(lia)) as H0.
  pose proof (height_child u 1 Hu ltac:(lia)) as H1. rewrite Nat.add_0_r in H0.
  rewrite <- (Nat.succ_inj _ _ (eq_trans (eq_sym H0) H1)), H0.
  rewrite Nat.pow_succ_r', Nat.mul_comm, <- Nat.Div0.div_div.
  set (x := ((base + b) / 2 ^ height (u * 2))%nat). clearbody x.
  pose proof (Nat.div_mod_eq x 2). pose proof (Nat.mod_upper_bound x 2). lia.
Qed.

Lemma update_node B T u : (1 <= u < base)%nat -> (length T = 2 * base)%nat ->
  node_ok B T (u * 2) -> node_ok B T (u * 2 + 1) ->
  node_ok B (<[u := olderWaitingBucket B (T !!! (u * 2)%nat) (T !!! (u * 2 + 1)%nat)]> T) u.
Proof.
  intros Hu Hl H0 H1. unfold node_ok. rewrite list_lookup_total_insert_eq by lia.
  eapply is_best_ext; [|by apply older_best]. intros b. symmetry. by apply cover_children.
Qed.

(** The update visits the ancestors of a leaf and leaves all other nodes. *)
Lemma updateLoop_ok B b fuel T v : (length T = 2 * base)%nat -> (b < base)%nat ->
  (1 <= v)%nat -> v = ((base + b) / 2 ^ height v)%nat -> (v <= fuel)%nat ->
  (forall v', (1 <= v' < 2 * base)%nat -> (v' <> (base + b) / 2 ^ height v')%nat \/ (height v' <= height v)%nat ->
     node_ok B T v') ->
  length (updateLoop fuel B v T) = length T /\ tree_ok B (updateLoop fuel B v T).
Proof.
  intros Hl Hb. revert T v Hl. induction fuel as [|fuel IH]; intros T v Hl Hv Hanc Hf Hok; [lia|].
  simpl. destruct (Nat.ltb_spec 1 v) as [H1|H1].
  - set (u := (v / 2)%nat). set (T' := <[u := olderWaitingBucket B (T !!! (u * 2)%nat) (T !!! (u * 2 + 1)%nat)]> T).
    assert (v < 2 * base)%nat as Hv2.
    { rewrite Hanc. eapply Nat.le_lt_trans; [apply (div_le_self (base + b)%nat)|lia]. }
    assert (1 <= u < base /\ u < v)%nat as [Hu Huv].
    { unfold u. split; [split|].
      - apply Nat.div_le_lower_bound; lia.
      - apply Nat.Div0.div_lt_upper_bound. lia.
      - apply Nat.div_lt; lia. }
    assert (exists c, (c <= 1)%nat /\ v = (u * 2 + c)%nat) as (c & Hc & Hvc).
    { exists (v mod 2)%nat. pose proof (Nat.div_mod_eq v 2). pose proof (Nat.mod_upper_bound v 2). unfold u. lia. }
    pose proof (height_child u c Hu Hc) as Hh. rewrite <- Hvc in Hh.
    assert (u = (base + b) / 2 ^ height u)%nat as Hua.
    { rewrite Hh, Nat.pow_succ_r', Nat.mul_comm, <- Nat.Div0.div_div, <- Hanc. done. }
    assert (forall d, (d <= 1)%nat -> node_ok B T (u * 2 + d)) as Hch.
    { intros d Hd. apply Hok; [lia|]. right. pose proof (height_child u d Hu Hd). lia. }
    assert (length T' = length T) as Hl' by apply length_insert.
    rewrite <- Hl'. apply (IH T'); [congruence|apply Hu|exact Hua|lia|].
    intros v' Hv' Hcase. destruct (decide (v' = u)) as [->|Hne].
    + apply update_node; [done|done| |by apply Hch]. rewrite <- (Nat.add_0_r (u * 2)). apply Hch. lia.
    + unfold node_ok, T'. rewrite list_lookup_total_insert_ne by done.
      apply Hok; [done|]. destruct (decide (v' = (base + b) / 2 ^ height v')%nat) as [E|]; [right|by left].
      destruct Hcase as [|Hcase]; [done|]. destruct (decide (height v' = height u)) as [Eh|]; [|lia].
      destruct Hne. rewrite E, Eh. by rewrite <- Hua.
  - split; [done|]. intros v' Hv'. apply Hok; [done|]. right. assert (v = 1)%nat as -> by lia.
    unfold height. rewrite Nat.log2_1. lia.
Qed.

Lemma height_leaf v : (base <= v < 2 * base)%nat -> height v = O.
Proof.
  intros Hv. unfold height. rewrite (Nat.log2_unique' v p (v - base)); simpl; lia.
Qed.

(** Changing queue [b] and updating its ancestors restores the tree. *)
Lemma update_ok B B' T b : tree_ok B T -> (length T = 2 * base)%nat -> (b < base)%nat ->
  length B' = length B -> (forall b', b' <> b -> frontOrder B' b' = frontOrder B b') ->
  let leaf := match B' !! b with Some (Some _) => b | _ => length B' end in
  (forall q, B' !! b = Some (Some q) -> q <> []) ->
  let T' := updateLoop (base + b) B' (base + b) (<[(base + b)%nat := leaf]> T) in
  length T' = length T /\ tree_ok B' T'.
Proof.
  intros Hok Hl Hb HB Hoth leaf Hq T'. subst T'. rewrite <- (length_insert T (base + b)%nat leaf).
  assert (height (base + b) = O) as Hh by (apply height_leaf; lia).
  apply (updateLoop_ok B' b); [by rewrite length_insert|done|lia|by rewrite Hh, Nat.div_1_r|done|].
  intros v Hv Hcase. unfold node_ok. destruct (decide (v = base + b)%nat) as [->|Hne].
  - rewrite list_lookup_total_insert_eq by lia. subst leaf. unfold cover. rewrite Hh.
    assert (forall x, x <> b -> (base + x) / 2 ^ 0 <> base + b)%nat as Hnb
      by (intros x Hx; rewrite Nat.div_1_r; lia).
    destruct (B' !! b) as [[q|]|] eqn:E; [left|right|right].
    + destruct q as [|e q]; [by destruct (Hq [] eq_refl)|]. exists (order e).
      assert (frontOrder B' b = Some (order e)) as Hf by (unfold frontOrder; by rewrite E).
      split_and!; [by rewrite Nat.div_1_r|done|by eapply lookup_lt_Some|].
      intros x o Hx Hxo. destruct (decide (x = b)) as [->|Hxb]; [|by destruct (Hnb x Hxb)].
      rewrite Hf in Hxo. injection Hxo as <-. lia.
    + split; [done|]. intros x Hx. destruct (decide (x = b)) as [->|Hxb]; [|by destruct (Hnb x Hxb)].
      unfold frontOrder. by rewrite E.
    + split; [done|]. intros x Hx. destruct (decide (x = b)) as [->|Hxb]; [|by destruct (Hnb x Hxb)].
      unfold frontOrder. by rewrite E.
  - rewrite list_lookup_total_insert_ne by done.
    assert (forall x, cover v x -> frontOrder B' x = frontOrder B x) as Hsame.
    { intros x Hx. apply Hoth. intros ->. destruct Hcase as [Hcase|Hcase]; [by destruct Hcase|].
      rewrite Hh in Hcase. unfold cover in Hx. replace (height v) with O in Hx by lia.
      rewrite Nat.div_1_r in Hx. lia. }
    destruct (Hok v Hv) as [(o & Hr & Ho & Hlt & Hm)|[Hr Hn]]; [left|right].
    + exists o. split_and!; [done|by rewrite Hsame|by rewrite HB|]. intros x o' Hx. rewrite Hsame by done. by apply Hm.
    + split; [by rewrite HB|]. intros x Hx. rewrite Hsame by done. by apply Hn.
Qed.

(** Levels of the tree during the query. *)
Definition at_level (h lo hi b : nat) : Prop := (lo <= (base + b) / 2 ^ h < hi)%nat.

Lemma level_height h v : (h <= p)%nat -> (2 ^ (p - h) <= v < 2 * 2 ^ (p - h))%nat -> height v = h.
Proof.
  intros Hh Hv. unfold height. rewrite (Nat.log2_unique' v (p - h) (v - 2 ^ (p - h))); simpl in *; lia.
Qed.

Lemma queryLoop_best B T R fuel h lo hi ol orr Sl Sr : tree_ok B T ->
  (hi <= fuel)%nat ->
  ((lo < hi)%nat -> (h <= p)%nat /\ (2 ^ (p - h) <= lo)%nat /\ (hi <= 2 * 2 ^ (p - h))%nat) ->
  is_best B Sl ol -> is_best B Sr orr ->
  (forall b, R b <-> Sl b \/ Sr b \/ at_level h lo hi b) ->
  is_best B R (queryLoop fuel B T lo hi ol orr).
Proof.
  intros Hok. revert h lo hi ol orr Sl Sr.
  induction fuel as [|fuel IH]; intros h lo hi ol orr Sl Sr Hf Hlev Hol Hor HR.
  { simpl. eapply is_best_ext; [|by apply older_best]. intros b. rewrite HR. unfold at_level.
    split; [tauto|]. intros [?|[?|?]]; [tauto..|lia]. }
  simpl. destruct (Nat.ltb_spec lo hi) as [Hlr|Hlr].
  2: { eapply is_best_ext; [|by apply older_best]. intros b. rewrite HR. unfold at_level.
       split; [tauto|]. intros [?|[?|?]]; [tauto..|lia]. }
  destruct (Hlev Hlr) as (Hh & H1 & H2).
  assert (forall v, (lo <= v < hi)%nat -> is_best B (fun b => (base + b) / 2 ^ h = v)%nat (T !!! v)) as Hnode.
  { intros v Hv. pose proof (level_height h v Hh ltac:(lia)) as E.
    assert (2 ^ (p - h) <= base)%nat by (apply Nat.pow_le_mono_r; lia).
    pose proof (Nat.pow_nonzero 2 (p - h)).
    specialize (Hok v ltac:(lia)). unfold node_ok, cover in Hok. by rewrite E in Hok. }
  set (L := if Nat.odd lo then (S lo, olderWaitingBucket B ol (T !!! lo)) else (lo, ol)).
  set (Rr := if Nat.odd hi then _ else _).
  set (Sl' := fun b => Sl b \/ (Nat.odd lo = true /\ (base + b) / 2 ^ h = lo)%nat).
  set (Sr' := fun b => (Nat.odd hi = true /\ (base + b) / 2 ^ h = pred hi)%nat \/ Sr b).
  assert (is_best B Sl' L.2 /\ L.1 = (2 * ((lo + 1) / 2))%nat) as [HL EL].
  { unfold L, Sl'. destruct (Nat.odd lo) eqn:Eo; simpl.
    - split; [eapply is_best_ext; [|by apply older_best, Hnode]; intros b; naive_solver|].
      apply Nat.odd_spec in Eo as [m ->]. replace (2 * m + 1 + 1)%nat with ((m + 1) * 2)%nat by lia.
      rewrite Nat.div_mul; lia.
    - split; [eapply is_best_ext; [|exact Hol]; intros b; naive_solver|].
      rewrite <- Nat.negb_even in Eo. apply negb_false_iff, Nat.even_spec in Eo as [m ->].
      rewrite (Nat.mul_comm 2 m), Nat.div_add_l by lia. change (1 / 2)%nat with O. lia. }
  assert (is_best B Sr' Rr.2 /\ Rr.1 = (2 * (hi / 2))%nat) as [HRr ER].
  { unfold Rr, Sr'. destruct (Nat.odd hi) eqn:Eo; simpl.
    - split; [eapply is_best_ext; [|apply older_best; [apply Hnode; lia|exact Hor]]; intros b; naive_solver|].
      apply Nat.odd_spec in Eo as [m ->]. rewrite (Nat.mul_comm 2 m), Nat.div_add_l by lia. change (1 / 2)%nat with O. simpl. lia.
    - split; [eapply is_best_ext; [|exact Hor]; intros b; naive_solver|].
      rewrite <- Nat.negb_even in Eo. apply negb_false_iff, Nat.even_spec in Eo as [m ->].
      rewrite (Nat.mul_comm 2 m), Nat.div_mul; lia. }
  destruct L as [l' ol'] eqn:EqL, Rr as [r' orr'] eqn:EqR. cbn [fst snd] in *. rewrite EL, ER.
  rewrite !(Nat.mul_comm 2), !Nat.div_mul by done.
  apply (IH (S h) _ _ _ _ Sl' Sr'); [| |exact HL|exact HRr|].
  - pose proof (Nat.div_lt hi 2). lia.
  - intros Hlt. destruct (decide (h = p)) as [->|].
    { rewrite Nat.sub_diag in *. simpl in *. assert (hi = 2 /\ lo = 1)%nat as [-> ->] by lia.
      simpl in Hlt. lia. }
    replace (p - h)%nat with (S (p - S h)) in * by lia. rewrite Nat.pow_succ_r' in *.
    split_and!; [lia| |].
    + apply Nat.div_le_lower_bound; lia.
    + apply Nat.Div0.div_le_upper_bound. lia.
  - intros b. rewrite HR. unfold Sl', Sr', at_level.
    rewrite Nat.pow_succ_r', (Nat.mul_comm 2 (2 ^ h)), <- Nat.Div0.div_div.
    set (x := ((base + b) / 2 ^ h)%nat). clearbody x.
    assert ((lo <= x < hi)%nat <->
      (Nat.odd lo = true /\ x = lo) \/ (Nat.odd hi = true /\ x = pred hi) \/
      ((lo + 1) / 2 <= x / 2 < hi / 2)%nat); [|tauto].
    clear -Hlr. destruct (Nat.odd lo) eqn:E1, (Nat.odd hi) eqn:E2;
    rewrite ?Nat.odd_spec, <- ?Nat.negb_even, ?negb_false_iff, ?Nat.even_spec in E1;
    rewrite ?Nat.odd_spec, <- ?Nat.negb_even, ?negb_false_iff, ?Nat.even_spec in E2;
    destruct E1 as [a ->], E2 as [c ->];
    pose proof (Nat.div_mod_eq x 2); pose proof (Nat.mod_upper_bound x 2);
    rewrite ?(Nat.mul_comm 2 a), ?(Nat.mul_comm 2 c), ?Nat.div_mul, ?Nat.div_add_l by lia;
    replace (a * 2 + 1 + 1)%nat with ((a + 1) * 2)%nat by lia; rewrite ?Nat.div_mul by lia;
    try change (1 / 2)%nat with O; lia.
Qed.

Lemma query_ok B T last : tree_ok B T -> (last < base)%nat ->
  is_best B (fun b => (b <= last)%nat)
    (queryLoop (base + last + 1) B T base (base + last + 1) (length B) (length B)).
Proof.
  intros Hok Hl. apply (queryLoop_best B T _ _ 0 _ _ _ _ (fun _ => False) (fun _ => False)).
  - done.
  - done.
  - rewrite Nat.sub_0_r. lia.
  - apply is_best_empty. by intros b [].  
  - apply is_best_empty. by intros b [].  
  - intros b. unfold at_level. rewrite Nat.div_1_r. lia.
Qed.

End Tree.

(** The tree the constructor allocates. *)
Lemma leafCount_pow fuel p n : (n <= 2 ^ (p + fuel))%nat ->
  exists q, leafCountLoop fuel (2 ^ p) n = (2 ^ q)%nat /\ (n <= 2 ^ q)%nat.
Proof.
  revert p. induction fuel as [|fuel IH]; intros p Hn; simpl.
  { exists p. by rewrite Nat.add_0_r in Hn. }
  destruct (Nat.ltb_spec (2 ^ p) n); [|by exists p].
  replace (2 ^ p * 2)%nat with (2 ^ S p)%nat by (simpl; lia). apply IH.
  by replace (S p + fuel)%nat with (p + S fuel)%nat by lia.
Qed.

Lemma leafCount_ok n : exists p, leafCountLoop n 1 n = (2 ^ p)%nat /\ (n <= 2 ^ p)%nat.
Proof. apply (leafCount_pow n 0). apply Nat.lt_le_incl, Nat.pow_gt_lin_r. lia. Qed.

Lemma tree_ok_init p n : tree_ok p (replicate n None) (replicate (2 ^ p * 2) n).
Proof.
  intros v Hv. unfold node_ok. right. rewrite length_replicate. split.
  - apply lookup_total_replicate_2. lia.
  - intros b _. unfold frontOrder. destruct (replicate n None !! b) as [o|] eqn:E; [|done].
    apply lookup_replicate in E as [-> _]. done.
Qed.

End WaitingIndex.
