(* ===== verification/BatchScheduler.v ===== *)
(** * Continuous batching

    Model of [ContinuousBatchScheduler] (src/core/kv_cache.cpp): requests wait
    in queues by the number of cache blocks they need, a segment tree over the
    queues finds the oldest request that fits, and a step retires, admits and
    decodes.  The cache is used through the interface [KvApi] with the laws
    [KvLaws], which the paged cache satisfies.  The model executor is arbitrary:
    its calls may throw, return any K/V, and call back into the scheduler.
    Host memory exhaustion (std::bad_alloc) and the text of error messages are
    not modelled; nor is an executor that replaces itself or calls the cache.
    The statistics [finished_] and [cancelled_] are C++ ints that nothing in
    the scheduler reads; they are counted here without a bound, so they stand
    for the members as long as each counts fewer than 2^31 requests (beyond,
    the increment overflows and C++ leaves the program undefined). *)

From stdpp Require Import sorting.
From S2P Require Import Prelude KvQuant KvCache WaitingIndex.
Import KvQuant WaitingIndex.

(** What the scheduler calls on the cache. *)
Class KvApi (K : Type) := {
  kvTotalBlocks : K -> Z;
  kvFreeBlocks : K -> Z;
  kvBlockSize : K -> Z;
  kvStride : K -> Z;
  kvHasSequence : K -> Z -> bool;
  kvReserve : K -> Z -> Z -> K * bool;
  kvAppend : K -> Z -> list f32 -> list f32 -> K * bool;
  kvFreeSequence : K -> Z -> K;
}.

Definition blocksOf (bs tokens : Z) : Z := tokens / bs + (if tokens mod bs =? 0 then 0 else 1).

(** What it relies on: [kvSlots] gives the length and the number of blocks of
    every sequence. *)
Class KvLaws (K : Type) `{KvApi K} := {
  kvOk : K -> Prop;
  kvSlots : K -> gmap Z (Z * Z);
  kv_config : forall k, kvOk k -> 0 < kvBlockSize k /\ 0 <= kvFreeBlocks k /\ 0 <= kvTotalBlocks k;
  kv_has : forall k s, kvOk k -> kvHasSequence k s = bool_decide (is_Some (kvSlots k !! s));
  kv_reserve : forall k s cap, kvOk k -> kvSlots k !! s = None -> 0 <= cap <= INT_MAX ->
    let n := blocksOf (kvBlockSize k) cap in n <= kvFreeBlocks k ->
    exists k', kvReserve k s cap = (k', true) /\ kvOk k' /\ kvSlots k' = <[s := (0, n)]> (kvSlots k) /\
      kvFreeBlocks k' = kvFreeBlocks k - n /\
      kvTotalBlocks k' = kvTotalBlocks k /\ kvBlockSize k' = kvBlockSize k /\ kvStride k' = kvStride k;
  kv_append : forall k s ks vs len n, kvOk k -> kvSlots k !! s = Some (len, n) ->
    Z.of_nat (length ks) = kvStride k -> Z.of_nat (length vs) = kvStride k -> 0 <= len < INT_MAX -> len < n * kvBlockSize k ->
    exists k', kvAppend k s ks vs = (k', true) /\ kvOk k' /\ kvSlots k' = <[s := (len + 1, n)]> (kvSlots k) /\
      kvFreeBlocks k' = kvFreeBlocks k /\
      kvTotalBlocks k' = kvTotalBlocks k /\ kvBlockSize k' = kvBlockSize k /\ kvStride k' = kvStride k;
  kv_free : forall k s, kvOk k -> let k' := kvFreeSequence k s in
      kvOk k' /\ kvSlots k' = delete s (kvSlots k) /\
      kvFreeBlocks k' = kvFreeBlocks k + default 0 (snd <$> kvSlots k !! s) /\
      kvTotalBlocks k' = kvTotalBlocks k /\ kvBlockSize k' = kvBlockSize k /\ kvStride k' = kvStride k;
}.

Module ContinuousBatchScheduler.

Inductive ScheduledTokenPhase := PREFILL | DECODE.

Inductive SchedulerError :=
| NONE | MISSING_EXECUTOR | EXECUTOR_FAILURE | INVALID_KV_OUTPUT
| CACHE_APPEND_FAILURE | CACHE_RESERVATION_FAILURE | REENTRANT_STEP.

(** What [addRequest] throws. *)
Inductive AddError := invalid_argument | length_error | logic_error.

#[export] Instance SchedulerError_eq_dec : EqDecision SchedulerError.
Proof. solve_decision. Defined.

(** A waiting request's list position is the node that holds its identifier. *)
Record WaitingLocation := mkLoc { bucket : nat; zeroTokenRequest : bool }.

(** What a call of the executor does to the scheduler before it returns, and
    how it returns. *)
Inductive Reentrant :=
| CallAdd (id promptLen maxNewTokens : Z)
| CallCancel (id : Z)
| CallStep.

Inductive Outcome :=
| Threw
| Output (keys values : list f32).

Section Scheduler.
Context {K : Type} {api : KvApi K}.

Record t := mk {
  kv_ : K;
  maxBatch_ : Z;
  tokenExecutor_ : bool;
  lastError_ : SchedulerError;
  waitingByBlocks_ : list (option (list QueuedRequest));
  waitingLocations_ : gmap Z WaitingLocation;
  waitingTree_ : list nat;
  waitingTreeBase_ : nat;
  waitingCount_ : Z;
  zeroTokenWaitingCount_ : Z;
  nextWaitingOrder_ : Z;
  running_ : list Request;
  activeRequestIds_ : gset Z;
  inStep_ : bool;
  finished_ : Z;
  cancelled_ : Z;
}.

(** Field updates. *)
Definition set_kv (s : t) k := mk k (maxBatch_ s) (tokenExecutor_ s) (lastError_ s) (waitingByBlocks_ s) (waitingLocations_ s) (waitingTree_ s) (waitingTreeBase_ s) (waitingCount_ s) (zeroTokenWaitingCount_ s) (nextWaitingOrder_ s) (running_ s) (activeRequestIds_ s) (inStep_ s) (finished_ s) (cancelled_ s).
Definition set_error (s : t) e := mk (kv_ s) (maxBatch_ s) (tokenExecutor_ s) e (waitingByBlocks_ s) (waitingLocations_ s) (waitingTree_ s) (waitingTreeBase_ s) (waitingCount_ s) (zeroTokenWaitingCount_ s) (nextWaitingOrder_ s) (running_ s) (activeRequestIds_ s) (inStep_ s) (finished_ s) (cancelled_ s).
Definition set_inStep (s : t) b := mk (kv_ s) (maxBatch_ s) (tokenExecutor_ s) (lastError_ s) (waitingByBlocks_ s) (waitingLocations_ s) (waitingTree_ s) (waitingTreeBase_ s) (waitingCount_ s) (zeroTokenWaitingCount_ s) (nextWaitingOrder_ s) (running_ s) (activeRequestIds_ s) b (finished_ s) (cancelled_ s).
Definition set_running (s : t) r := mk (kv_ s) (maxBatch_ s) (tokenExecutor_ s) (lastError_ s) (waitingByBlocks_ s) (waitingLocations_ s) (waitingTree_ s) (waitingTreeBase_ s) (waitingCount_ s) (zeroTokenWaitingCount_ s) (nextWaitingOrder_ s) r (activeRequestIds_ s) (inStep_ s) (finished_ s) (cancelled_ s).
Definition set_waiting (s : t) b l c z o ids := mk (kv_ s) (maxBatch_ s) (tokenExecutor_ s) (lastError_ s) b l (waitingTree_ s) (waitingTreeBase_ s) c z o (running_ s) ids (inStep_ s) (finished_ s) (cancelled_ s).
Definition set_index (s : t) b tree := mk (kv_ s) (maxBatch_ s) (tokenExecutor_ s) (lastError_ s) b (waitingLocations_ s) tree (waitingTreeBase_ s) (waitingCount_ s) (zeroTokenWaitingCount_ s) (nextWaitingOrder_ s) (running_ s) (activeRequestIds_ s) (inStep_ s) (finished_ s) (cancelled_ s).
Definition set_done (s : t) ids f c := mk (kv_ s) (maxBatch_ s) (tokenExecutor_ s) (lastError_ s) (waitingByBlocks_ s) (waitingLocations_ s) (waitingTree_ s) (waitingTreeBase_ s) (waitingCount_ s) (zeroTokenWaitingCount_ s) (nextWaitingOrder_ s) (running_ s) ids (inStep_ s) f c.

(** The constructor. *)
Definition create (kv : K) (maxBatch : Z) : t :=
  let bucketCount := S (Z.to_nat (kvTotalBlocks kv)) in
  let leafCount := leafCountLoop bucketCount 1 bucketCount in
  mk kv (if maxBatch <? 1 then 1 else maxBatch) false NONE (replicate bucketCount None) ∅
     (replicate (leafCount * 2) bucketCount) leafCount 0 0 0 [] ∅ false 0 0.

Definition setTokenExecutor (s : t) (present : bool) : t :=
  mk (kv_ s) (maxBatch_ s) present (lastError_ s) (waitingByBlocks_ s) (waitingLocations_ s) (waitingTree_ s) (waitingTreeBase_ s) (waitingCount_ s) (zeroTokenWaitingCount_ s) (nextWaitingOrder_ s) (running_ s) (activeRequestIds_ s) (inStep_ s) (finished_ s) (cancelled_ s).

(** ** The waiting index *)

Definition dropEmpty (q : option (list QueuedRequest)) : option (list QueuedRequest) :=
  match q with Some [] => None | _ => q end.

Definition updateWaitingBucket (s : t) (b : nat) : t :=
  let node := (waitingTreeBase_ s + b)%nat in
  let B := alter dropEmpty b (waitingByBlocks_ s) in
  let leaf := match B !! b with Some (Some _) => b | _ => length B end in
  set_index s B (updateLoop node B node (<[node := leaf]> (waitingTree_ s))).

Definition oldestEligibleWaitingBucket (s : t) (availableBlocks beforeOrder : Z) : nat :=
  let B := waitingByBlocks_ s in
  let noBucket := length B in
  if (waitingCount_ s =? 0) || (availableBlocks <? 0) then noBucket else
  let lastEligible := Nat.min (Z.to_nat availableBlocks) (noBucket - 1) in
  let lo := waitingTreeBase_ s in
  let hi := (waitingTreeBase_ s + lastEligible + 1)%nat in
  let oldest := queryLoop hi B (waitingTree_ s) lo hi noBucket noBucket in
  if (oldest <? noBucket)%nat && (beforeOrder <=? default 0 (frontOrder B oldest)) then noBucket else oldest.

(** ** Adding and cancelling *)

Definition blocksFor (s : t) (tokens : Z) : Z := blocksOf (kvBlockSize (kv_ s)) tokens.

Definition addRequest (s : t) (rid prompt maxNew : Z) : result AddError t :=
  if (prompt <? 0) || (maxNew <? 0) then Err invalid_argument else
  if INT_MAX - prompt <? maxNew then Err length_error else
  if kvTotalBlocks (kv_ s) <? blocksFor s (prompt + maxNew) then Err length_error else
  if INT_MAX <=? waitingCount_ s then Err length_error else
  if kvHasSequence (kv_ s) rid then Err invalid_argument else
  if bool_decide (rid ∈ activeRequestIds_ s) then Err invalid_argument else
  if nextWaitingOrder_ s =? U64_MAX then Err length_error else
  if bool_decide (is_Some (waitingLocations_ s !! rid)) then Err logic_error else
  let r := mkReq rid prompt maxNew 0 WAITING in
  let b := Z.to_nat (blocksFor s (prompt + maxNew)) in
  let zero := (prompt =? 0) && (maxNew =? 0) in
  Ok (updateWaitingBucket
    (set_waiting s
      (alter (fun q => Some (default [] q ++ [mkQueued r (nextWaitingOrder_ s)])) b (waitingByBlocks_ s))
      (<[rid := mkLoc b zero]> (waitingLocations_ s))
      (waitingCount_ s + 1) (zeroTokenWaitingCount_ s + Z.b2z zero) (nextWaitingOrder_ s + 1)
      ({[rid]} ∪ activeRequestIds_ s)) b).

(** Taking a waiting request out of its queue. *)
Definition removeWaiting (s : t) (rid : Z) (loc : WaitingLocation) (ids : gset Z) : t :=
  updateWaitingBucket
    (set_waiting s
      (alter (fmap (filter (fun q => id (request q) <> rid))) (bucket loc) (waitingByBlocks_ s))
      (delete rid (waitingLocations_ s))
      (waitingCount_ s - 1) (zeroTokenWaitingCount_ s - Z.b2z (zeroTokenRequest loc)) (nextWaitingOrder_ s) ids)
    (bucket loc).

Definition cancelRequest (s : t) (rid : Z) : t * bool :=
  if inStep_ s then (s, false) else
  match waitingLocations_ s !! rid with
  | Some loc =>
      let s := removeWaiting s rid loc (activeRequestIds_ s ∖ {[rid]}) in
      (set_done s (activeRequestIds_ s) (finished_ s) (cancelled_ s + 1), true)
  | None =>
      match list_find (fun r => id r = rid) (running_ s) with
      | Some (i, r) =>
          if maxNewTokens r <=? generated r then (s, false) else
          let s := set_running (set_kv s (kvFreeSequence (kv_ s) rid)) (delete i (running_ s)) in
          (set_done s (activeRequestIds_ s ∖ {[rid]}) (finished_ s) (cancelled_ s + 1), true)
      | None => (s, false)
      end
  end.

(** ** Steps *)

Context {X : Type}.
(** The executor, with the state of the model. *)
Context (executor : X -> Request -> ScheduledTokenPhase -> Z -> X * list Reentrant * Outcome).

Definition isFinite (f : f32) : bool :=
  match f with S754_zero _ | S754_finite _ _ _ => true | _ => false end.

(** A call from inside the executor, while [inStep_] is set; what it throws or
    returns is the executor's business. *)
Definition reenter (s : t) (c : Reentrant) : t :=
  match c with
  | CallAdd rid p m => match addRequest s rid p m with Ok s => s | Err _ => s end
  | CallCancel rid => (cancelRequest s rid).1
  | CallStep => set_error (set_error s NONE) REENTRANT_STEP
  end.

Definition executeAndAppend (s : t) (x : X) (r : Request) (phase : ScheduledTokenPhase) (position : Z) : t * X * bool :=
  if negb (tokenExecutor_ s) then (set_error s MISSING_EXECUTOR, x, false) else
  let stride := kvStride (kv_ s) in
  let '(x, calls, outcome) := executor x r phase position in
  let s := foldl reenter s calls in
  match outcome with
  | Threw => (set_error s EXECUTOR_FAILURE, x, false)
  | Output ks vs =>
      if negb ((Z.of_nat (length ks) =? stride) && (Z.of_nat (length vs) =? stride)) then
        (set_error s INVALID_KV_OUTPUT, x, false)
      else if negb (forallb isFinite ks && forallb isFinite vs) then
        (set_error s INVALID_KV_OUTPUT, x, false)
      else
        let (k, ok) := kvAppend (kv_ s) (id r) ks vs in
        if ok then (set_kv s k, x, true) else (set_error (set_kv s k) CACHE_APPEND_FAILURE, x, false)
  end.

(** Prefill from position [i]; [n] tokens are left. *)
Fixpoint prefill (n : nat) (i : Z) (s : t) (x : X) (r : Request) : t * X * bool :=
  match n with
  | O => (s, x, true)
  | S n =>
      let '(s, x, ok) := executeAndAppend s x r PREFILL i in
      if ok then prefill n (i + 1) s x r else (s, x, false)
  end.

Definition is_done (r : Request) : bool := maxNewTokens r <=? generated r.

(** Retiring finished requests. *)
Definition retire1 (s : t) (r : Request) : t :=
  if is_done r then
    let s := set_kv s (kvFreeSequence (kv_ s) (id r)) in
    set_done s (activeRequestIds_ s ∖ {[id r]}) (finished_ s + 1) (cancelled_ s)
  else s.

Definition retire (s : t) : t :=
  set_running (foldl retire1 s (running_ s)) (filter (fun r => is_done r = false) (running_ s)).

Definition with_state (r : Request) (st : RequestState) : Request :=
  mkReq (id r) (promptLen r) (maxNewTokens r) (generated r) st.

(** Moving the admitted request from its queue to the running ones. *)
Definition popFront (s : t) (b : nat) (r : Request) : t :=
  let s := updateWaitingBucket
    (set_waiting s (alter (fmap tail) b (waitingByBlocks_ s)) (delete (id r) (waitingLocations_ s))
      (waitingCount_ s - 1) (zeroTokenWaitingCount_ s - Z.b2z ((promptLen r =? 0) && (maxNewTokens r =? 0)))
      (nextWaitingOrder_ s) (activeRequestIds_ s)) b in
  set_running s (running_ s ++ [with_state r RUNNING]).

(** The admission loop; [n] batch slots are left.  [false] is the [-1] exit.
    The index never names an empty queue ([query_exact]), whose front the code
    could not read. *)
Fixpoint admitLoop (n : nat) (limit : Z) (s : t) (x : X) : t * X * bool :=
  match n with
  | O => (s, x, true)
  | S n =>
      let b := oldestEligibleWaitingBucket s (kvFreeBlocks (kv_ s)) limit in
      if (b =? length (waitingByBlocks_ s))%nat then (s, x, true) else
      match waitingByBlocks_ s !! b with
      | Some (Some (q :: _)) =>
          let r := request q in
          if kvHasSequence (kv_ s) (id r) then (set_error s CACHE_RESERVATION_FAILURE, x, false) else
          let (k, reserved) := kvReserve (kv_ s) (id r) (promptLen r + maxNewTokens r) in
          let s := set_kv s k in
          if negb reserved then (set_error s CACHE_RESERVATION_FAILURE, x, false) else
          let '(s, x, ok) := prefill (Z.to_nat (promptLen r)) 0 s x r in
          if ok then admitLoop n limit (popFront s b r) x
          else (set_kv s (kvFreeSequence (kv_ s) (id r)), x, false)
      | _ => (s, x, true)
      end
  end.

(** The decode loop over [running_], from position [i]. *)
Fixpoint decode (n : nat) (i : nat) (s : t) (x : X) : t * X * bool :=
  match n with
  | O => (s, x, true)
  | S n =>
      match running_ s !! i with
      | None => (s, x, true)
      | Some r =>
          if is_done r then decode n (S i) s x else
          let '(s, x, ok) := executeAndAppend s x r DECODE (promptLen r + generated r) in
          if ok then
            decode n (S i)
              (set_running s (<[i := mkReq (id r) (promptLen r) (maxNewTokens r) (generated r + 1) (state r)]> (running_ s))) x
          else (s, x, false)
      end
  end.

(** [step]: the count of running requests or -1. *)
Definition step (s : t) (x : X) : t * X * Z :=
  let s := set_error s NONE in
  if inStep_ s then (set_error s REENTRANT_STEP, x, -1) else
  let limit := nextWaitingOrder_ s in
  if negb (tokenExecutor_ s) &&
     (existsb (fun r => generated r <? maxNewTokens r) (running_ s) || (zeroTokenWaitingCount_ s <? waitingCount_ s))
  then (set_error s MISSING_EXECUTOR, x, -1) else
  let s := retire (set_inStep s true) in
  let '(s, x, ok) := admitLoop (Z.to_nat (maxBatch_ s - Z.of_nat (length (running_ s)))) limit s x in
  if negb ok then (set_inStep s false, x, -1) else
  let '(s, x, ok) := decode (length (running_ s)) 0 s x in
  (set_inStep s false, x, if ok then Z.of_nat (length (running_ s)) else -1).

Definition allDone (s : t) : bool := (waitingCount_ s =? 0) && bool_decide (running_ s = []).

End Scheduler.

#[global] Arguments t : clear implicits.

(** ** The waiting queues as a whole *)

Definition queued (B : buckets) : list QueuedRequest := concat (default [] <$> B).

Definition needs (bs : Z) (r : Request) : Z := blocksOf bs (promptLen r + maxNewTokens r).

Definition zeroReq (r : Request) : bool := (promptLen r =? 0) && (maxNewTokens r =? 0).

(** What [addRequest] checks. *)
Definition req_ok (r : Request) : Prop :=
  0 <= promptLen r /\ 0 <= maxNewTokens r /\ promptLen r + maxNewTokens r <= INT_MAX.

Definition queued_ok (bs next : Z) (b : nat) (e : QueuedRequest) : Prop :=
  0 <= order e < next /\ req_ok (request e) /\ generated (request e) = 0 /\ state (request e) = WAITING /\
  Z.to_nat (needs bs (request e)) = b.

Definition before (e1 e2 : QueuedRequest) : Prop := order e1 < order e2.

Definition queue_ok (bs next : Z) (b : nat) (o : option (list QueuedRequest)) : Prop :=
  match o with
  | None => True
  | Some q => q <> [] /\ StronglySorted before q /\ Forall (queued_ok bs next b) q
  end.

Definition eid (e : QueuedRequest) : Z := id (request e).

Definition location (bs : Z) (e : QueuedRequest) : Z * WaitingLocation :=
  (eid e, mkLoc (Z.to_nat (needs bs (request e))) (zeroReq (request e))).

(** The waiting side of the scheduler; [R] are the identifiers that are
    running. *)
Record winv {K} (bs : Z) (R : list Z) (s : t K) : Prop := mkWinv {
  w_tree : exists p, waitingTreeBase_ s = (2 ^ p)%nat /\ (length (waitingByBlocks_ s) <= 2 ^ p)%nat /\
    (length (waitingTree_ s) = 2 * 2 ^ p)%nat /\ tree_ok p (waitingByBlocks_ s) (waitingTree_ s);
  w_queue : forall b o, waitingByBlocks_ s !! b = Some o -> queue_ok bs (nextWaitingOrder_ s) b o;
  w_orders : NoDup (order <$> queued (waitingByBlocks_ s));
  w_ids : NoDup ((eid <$> queued (waitingByBlocks_ s)) ++ R);
  w_active : activeRequestIds_ s = list_to_set ((eid <$> queued (waitingByBlocks_ s)) ++ R);
  w_locs : waitingLocations_ s = list_to_map (location bs <$> queued (waitingByBlocks_ s));
  w_count : waitingCount_ s = Z.of_nat (length (queued (waitingByBlocks_ s)));
  w_zero : zeroTokenWaitingCount_ s =
    Z.of_nat (length (filter (fun e => zeroReq (request e) = true) (queued (waitingByBlocks_ s))));
  w_next : 0 <= nextWaitingOrder_ s <= U64_MAX;
}.

(** Changing one queue permutes the rest away. *)
Lemma queued_alter B b o : B !! b = Some o -> exists rest, queued B ≡ₚ default [] o ++ rest /\
  forall f, queued (alter f b B) ≡ₚ default [] (f o) ++ rest.
Proof.
  revert b. induction B as [|o' B IH]; intros [|b] Hb; simplify_eq/=.
  - exists (queued B). split; [done|]. intros f. done.
  - destruct (IH b Hb) as (rest & H1 & H2). exists (default [] o' ++ rest). split.
    + unfold queued in *. simpl. rewrite H1. solve_Permutation.
    + intros f. unfold queued in *. simpl. rewrite (H2 f). solve_Permutation.
Qed.

Lemma elem_of_queued B e : e ∈ queued B <-> exists b q, B !! b = Some (Some q) /\ e ∈ q.
Proof.
  unfold queued. rewrite list_elem_of_In, in_concat. setoid_rewrite <- list_elem_of_In. split.
  - intros (q & Hq & He). apply list_elem_of_fmap in Hq as ([q'|] & -> & Hq); simpl in He.
    + apply list_elem_of_lookup in Hq as [b Hb]. eauto.
    + by apply not_elem_of_nil in He.
  - intros (b & q & Hb & He). exists q. split; [|done]. apply list_elem_of_fmap.
    exists (Some q). split; [done|]. by eapply list_elem_of_lookup_2.
Qed.

Lemma winv_elem {K} bs R (s : t K) e : winv bs R s -> e ∈ queued (waitingByBlocks_ s) ->
  queued_ok bs (nextWaitingOrder_ s) (Z.to_nat (needs bs (request e))) e /\
  (Z.to_nat (needs bs (request e)) < length (waitingByBlocks_ s))%nat /\
  exists q, waitingByBlocks_ s !! Z.to_nat (needs bs (request e)) = Some (Some q) /\ e ∈ q.
Proof.
  intros H (b & q & Hb & He)%elem_of_queued. destruct (w_queue _ _ _ H _ _ Hb) as (_ & _ & Hq).
  rewrite Forall_forall in Hq. pose proof (Hq e He) as (? & ? & ? & ? & <-). split_and!; [done..| |eauto].
  by eapply lookup_lt_Some.
Qed.

Lemma frontOrder_Some B b o : frontOrder B b = Some o -> exists e q, B !! b = Some (Some (e :: q)) /\ o = order e.
Proof. unfold frontOrder. intros H. repeat (case_match; simplify_eq). eauto. Qed.

Lemma location_fst bs W : (location bs <$> W).*1 = eid <$> W.
Proof. rewrite <- list_fmap_compose. done. Qed.

(** What one queue change has to establish. *)
Record wlist_ok (bs : Z) (R : list Z) (W : list QueuedRequest) (active : gset Z) (locs : gmap Z WaitingLocation)
    (c z : Z) : Prop := mkWlist {
  l_orders : NoDup (order <$> W);
  l_ids : NoDup ((eid <$> W) ++ R);
  l_active : active = list_to_set ((eid <$> W) ++ R);
  l_locs : locs = list_to_map (location bs <$> W);
  l_count : c = Z.of_nat (length W);
  l_zero : z = Z.of_nat (length (filter (fun e => zeroReq (request e) = true) W));
}.

Lemma wlist_ok_perm bs R W W' active locs c z : W ≡ₚ W' ->
  wlist_ok bs R W active locs c z -> wlist_ok bs R W' active locs c z.
Proof.
  intros Hp [H1 H2 -> -> -> ->].
  assert ((eid <$> W) ++ R ≡ₚ (eid <$> W') ++ R) as Hi by (by rewrite Hp).
  split.
  - by rewrite <- Hp.
  - by rewrite <- Hi.
  - apply leibniz_equiv. by rewrite Hi.
  - apply list_to_map_proper; [|by rewrite Hp]. rewrite location_fst. by apply NoDup_app in H2 as [? _].
  - by rewrite Hp.
  - by rewrite Hp.
Qed.

Lemma winv_wlist {K} bs R (s : t K) : winv bs R s ->
  wlist_ok bs R (queued (waitingByBlocks_ s)) (activeRequestIds_ s) (waitingLocations_ s)
    (waitingCount_ s) (zeroTokenWaitingCount_ s).
Proof. by intros []. Qed.

Lemma queue_ok_next bs n n' b o : n <= n' -> queue_ok bs n b o -> queue_ok bs n' b o.
Proof.
  intros Hn. destruct o as [q|]; [|done]. intros (? & ? & Hq). split_and!; [done..|].
  eapply Forall_impl; [exact Hq|]. intros e (? & ?). split; [lia|done].
Qed.

Lemma alter_twice {A} (f g : A -> A) b (l : list A) : alter f b (alter g b l) = alter (fun x => f (g x)) b l.
Proof.
  apply list_alter_alter_eq.
Qed.

Lemma alter_Some {A} (f : A -> A) b (l : list A) x : l !! b = Some x -> alter f b l !! b = Some (f x).
Proof. intros H. by rewrite list_lookup_alter_eq, H. Qed.

(** One queue changes, and the index with it. *)
Lemma winv_change {K} bs R (s : t K) b o f locs c z next active R' :
  winv bs R s -> waitingByBlocks_ s !! b = Some o -> queue_ok bs next b (dropEmpty (f o)) ->
  nextWaitingOrder_ s <= next <= U64_MAX ->
  (forall rest, wlist_ok bs R (default [] o ++ rest) (activeRequestIds_ s) (waitingLocations_ s)
       (waitingCount_ s) (zeroTokenWaitingCount_ s) -> queued (waitingByBlocks_ s) ≡ₚ default [] o ++ rest ->
     wlist_ok bs R' (default [] (f o) ++ rest) active locs c z) ->
  let B := alter (fun o => dropEmpty (f o)) b (waitingByBlocks_ s) in
  let s' := updateWaitingBucket (set_waiting s (alter f b (waitingByBlocks_ s)) locs c z next active) b in
  winv bs R' s' /\ waitingByBlocks_ s' = B /\
  exists rest, queued (waitingByBlocks_ s) ≡ₚ default [] o ++ rest /\
    queued (waitingByBlocks_ s') ≡ₚ default [] (f o) ++ rest.
Proof.
  intros H Hb Hq Hn Hl B s'. assert (waitingByBlocks_ s' = B) as HB by apply alter_twice.
  destruct (queued_alter _ _ _ Hb) as (rest & Hp & Hp').
  assert (queued B ≡ₚ default [] (f o) ++ rest) as HpB.
  { unfold B. rewrite Hp'. by destruct (f o) as [[|]|]. }
  split; [|split; [done|exists rest; split; [exact Hp|by rewrite HB]]].
  assert (wlist_ok bs R' (queued B) active locs c z) as [].
  { apply (wlist_ok_perm _ _ (default [] (f o) ++ rest)); [by symmetry|].
    apply Hl; [|done]. eapply wlist_ok_perm; [exact Hp|]. by apply winv_wlist. }
  destruct (w_tree _ _ _ H) as (p & Hbase & HlB & HlT & Hok).
  assert (B !! b = Some (dropEmpty (f o))) as HBb by (unfold B; by apply (alter_Some (fun o => dropEmpty (f o)))).
  split; try (rewrite HB; assumption); try assumption; [| |pose proof (w_next _ _ _ H); cbn; lia].
  - exists p. cbn [s' updateWaitingBucket set_waiting set_index waitingByBlocks_ waitingTreeBase_ waitingTree_].
    rewrite alter_twice, Hbase. fold B.
    assert (length B = length (waitingByBlocks_ s)) as HlB' by apply length_alter.
    apply lookup_lt_Some in Hb as Hlt.
    destruct (update_ok p (waitingByBlocks_ s) B (waitingTree_ s) b Hok) as [HT Hok']; [done|lia|done| | |].
    + intros b' Hne. unfold frontOrder, B. by rewrite list_lookup_alter_ne.
    + intros q Hq'. rewrite HBb in Hq'. injection Hq' as Hq'. rewrite Hq' in Hq. by destruct Hq.
    + split_and!; [done|lia|by rewrite HT|exact Hok'].
  - rewrite HB. intros b' o' Hb'. destruct (decide (b' = b)) as [->|Hne].
    + rewrite HBb in Hb'. by injection Hb' as <-.
    + unfold B in Hb'. rewrite list_lookup_alter_ne in Hb' by done.
      eapply (queue_ok_next _ (nextWaitingOrder_ s)); [cbn; lia|by eapply w_queue].
Qed.

(** An element leaves the list; its identifier may stay among the running. *)
Lemma wlist_remove bs R R' e W active active' locs c z :
  wlist_ok bs R (e :: W) active locs c z -> NoDup ((eid <$> W) ++ R') ->
  active' = list_to_set ((eid <$> W) ++ R') ->
  wlist_ok bs R' W active' (delete (eid e) locs) (c - 1) (z - Z.b2z (zeroReq (request e))).
Proof.
  intros [H1 H2 _ -> -> ->] HR Ha. rewrite fmap_cons in H1. apply NoDup_cons in H1 as [_ H1].
  split; [done..| | |].
  - rewrite fmap_cons. unfold location at 1. rewrite list_to_map_cons, delete_insert_id; [done|].
    apply not_elem_of_list_to_map_1. rewrite location_fst. rewrite fmap_cons, <- app_comm_cons in H2.
    apply NoDup_cons in H2 as [H2 _]. set_solver.
  - cbn [length]. lia.
  - rewrite filter_cons. case_decide as E; [rewrite E|apply not_true_is_false in E; rewrite E]; cbn [length Z.b2z]; lia.
Qed.

Lemma ids_remove e W R : NoDup ((eid <$> e :: W) ++ R) ->
  NoDup ((eid <$> W) ++ R) /\
  (list_to_set ((eid <$> e :: W) ++ R) : gset Z) ∖ {[eid e]} = list_to_set ((eid <$> W) ++ R).
Proof.
  rewrite fmap_cons, <- app_comm_cons. intros [H1 H2]%NoDup_cons. split; [done|].
  apply set_eq. intros x. rewrite elem_of_difference, !elem_of_list_to_set, elem_of_cons, elem_of_singleton.
  split; [tauto|]. intros Hx. split; [by right|]. by intros ->.
Qed.

Lemma filter_all {A} (P : A -> Prop) `{!forall x, Decision (P x)} l : Forall P l -> filter P l = l.
Proof.
  induction 1 as [|x l Hx _ IH]; [done|]. by rewrite filter_cons_True, IH.
Qed.

Lemma filter_key_app {A} (f : A -> Z) q1 q2 e : NoDup (f <$> q1 ++ e :: q2) ->
  filter (fun x => f x <> f e) (q1 ++ e :: q2) = q1 ++ q2.
Proof.
  rewrite fmap_app, fmap_cons. intros (_ & H1 & [H2 _]%NoDup_cons)%NoDup_app.
  assert (forall q : list A, f e ∉ f <$> q -> filter (fun x => f x <> f e) q = q) as Hf.
  { intros q Hq. apply filter_all, Forall_forall. intros x Hx E. apply Hq, list_elem_of_fmap. by exists x. }
  rewrite filter_app, filter_cons, (Hf q2 H2), (Hf q1); [|intros Hq; apply (H1 _ Hq); left].
  case_decide; [done|done].
Qed.

Lemma queue_ok_remove bs next b q1 e q2 : queue_ok bs next b (Some (q1 ++ e :: q2)) ->
  queue_ok bs next b (dropEmpty (Some (q1 ++ q2))).
Proof.
  intros (_ & Hs & Hf). rewrite Forall_app, Forall_cons in Hf. destruct Hf as (Hf1 & _ & Hf2).
  apply StronglySorted_app in Hs as (Hc & Hs1 & Hs2). inversion Hs2; subst.
  assert (StronglySorted before (q1 ++ q2)) as Hs.
  { apply StronglySorted_app. split_and!; [|done..]. intros x1 x2 Hx1 Hx2. apply Hc; [done|by right]. }
  destruct (q1 ++ q2) as [|e' q] eqn:E; [done|]. split_and!; [done..|]. rewrite <- E. by apply Forall_app.
Qed.

(** The request at a given position of its queue is taken out. *)
Lemma remove_winv {K} bs R R' (s : t K) b q1 e q2 f ids :
  winv bs R s -> waitingByBlocks_ s !! b = Some (Some (q1 ++ e :: q2)) -> f (q1 ++ e :: q2) = q1 ++ q2 ->
  (forall W, NoDup ((eid <$> e :: W) ++ R) -> activeRequestIds_ s = list_to_set ((eid <$> e :: W) ++ R) ->
    NoDup ((eid <$> W) ++ R') /\ ids = list_to_set ((eid <$> W) ++ R')) ->
  let s' := updateWaitingBucket (set_waiting s (alter (fmap f) b (waitingByBlocks_ s))
     (delete (eid e) (waitingLocations_ s)) (waitingCount_ s - 1)
     (zeroTokenWaitingCount_ s - Z.b2z (zeroReq (request e))) (nextWaitingOrder_ s) ids) b in
  winv bs R' s' /\ length (waitingByBlocks_ s') = length (waitingByBlocks_ s) /\
  queued (waitingByBlocks_ s) ≡ₚ e :: queued (waitingByBlocks_ s').
Proof.
  intros H Hb Hf Hids s'.
  destruct (winv_change bs R s b _ (fmap f) (delete (eid e) (waitingLocations_ s)) (waitingCount_ s - 1)
    (zeroTokenWaitingCount_ s - Z.b2z (zeroReq (request e))) (nextWaitingOrder_ s) ids R' H Hb)
    as (Hw & HB & rest & Hp & Hp').
  - simpl. rewrite Hf. eapply queue_ok_remove. by eapply w_queue.
  - pose proof (w_next _ _ _ H). lia.
  - intros rest Hl _. simpl in *. rewrite Hf.
    assert ((q1 ++ e :: q2) ++ rest ≡ₚ e :: ((q1 ++ q2) ++ rest)) as Hp by solve_Permutation.
    apply (wlist_ok_perm _ _ _ _ _ _ _ _ Hp) in Hl. destruct (Hids _ (l_ids _ _ _ _ _ _ _ Hl)) as [Hn Ha].
    + by apply l_active in Hl.
    + by eapply wlist_remove.
  - split_and!; [exact Hw|unfold s'; by rewrite HB, length_alter|]. 
    assert (queued (waitingByBlocks_ s') ≡ₚ (q1 ++ q2) ++ rest) as Hp2 by (rewrite <- Hf; exact Hp').
    rewrite Hp, Hp2. simpl. solve_Permutation.
Qed.

(** The frame of what the executor can do by calling back. *)
Record extends {K} (s s' : t K) : Prop := mkExt {
  e_max : maxBatch_ s' = maxBatch_ s;
  e_exec : tokenExecutor_ s' = tokenExecutor_ s;
  e_running : running_ s' = running_ s;
  e_instep : inStep_ s' = inStep_ s;
  e_fin : finished_ s' = finished_ s;
  e_canc : cancelled_ s' = cancelled_ s;
  e_len : length (waitingByBlocks_ s') = length (waitingByBlocks_ s);
  e_next : nextWaitingOrder_ s <= nextWaitingOrder_ s';
  e_queue : forall b q, waitingByBlocks_ s !! b = Some (Some q) ->
    exists q', waitingByBlocks_ s' !! b = Some (Some (q ++ q'));
}.

#[export] Instance extends_preorder {K} : PreOrder (@extends K).
Proof.
  split.
  - intros s. split; try done. intros b q Hb. exists []. by rewrite app_nil_r.
  - intros s1 s2 s3 [] []. split; try congruence; [lia|]. intros b q Hb.
    destruct (e_queue0 b q Hb) as [q1 H1]. destruct (e_queue1 b _ H1) as [q2 H2].
    exists (q1 ++ q2). by rewrite app_assoc.
Qed.

Lemma extends_set_error {K} (s : t K) e : extends s (set_error s e).
Proof. split; try done. intros b q Hb. exists []. by rewrite app_nil_r. Qed.

Lemma extends_set_kv {K} (s : t K) k : extends s (set_kv s k).
Proof. split; try done. intros b q Hb. exists []. by rewrite app_nil_r. Qed.

(** Errors of the cache. *)
Definition cache_error (e : SchedulerError) : Prop :=
  e = CACHE_APPEND_FAILURE \/ e = CACHE_RESERVATION_FAILURE.

(** ** The operations and the waiting side *)

Lemma blocksOf_nonneg bs n : 0 < bs -> 0 <= n -> 0 <= blocksOf bs n.
Proof. intros. unfold blocksOf. pose proof (Z.div_pos n bs). case_match; lia. Qed.

Lemma blocksOf_capacity bs n : 0 < bs -> 0 <= n -> n <= blocksOf bs n * bs.
Proof.
  intros. unfold blocksOf. pose proof (Z.div_mod n bs). pose proof (Z.mod_pos_bound n bs).
  destruct (Z.eqb_spec (n mod bs) 0); nia.
Qed.

Lemma needs_nonneg bs r : 0 < bs -> req_ok r -> 0 <= needs bs r.
Proof. intros Hb (? & ? & _). apply blocksOf_nonneg; lia. Qed.

(** The geometry of the cache behind a scheduler. *)
Record kcfg {K} `{KvApi K} (bs total : Z) (s : t K) : Prop := mkKcfg {
  c_bs : kvBlockSize (kv_ s) = bs;
  c_total : kvTotalBlocks (kv_ s) = total;
  c_pos : 0 < bs /\ 0 <= total;
  c_len : length (waitingByBlocks_ s) = S (Z.to_nat total);
}.

Section Operations.
Context {K : Type} `{KvApi K}.
Implicit Types (s : t K).

Lemma addRequest_Ok bs total R s rid p m s' :
  winv bs R s -> kcfg bs total s -> addRequest s rid p m = Ok s' ->
  let e := mkQueued (mkReq rid p m 0 WAITING) (nextWaitingOrder_ s) in
  winv bs R s' /\ extends s s' /\ kv_ s' = kv_ s /\ lastError_ s' = lastError_ s /\
  queued (waitingByBlocks_ s') ≡ₚ e :: queued (waitingByBlocks_ s) /\
  nextWaitingOrder_ s' = nextWaitingOrder_ s + 1 /\ req_ok (request e) /\ needs bs (request e) <= total.
Proof.
  intros Hw [<- <- [Hbs Htot] Hlen] Ha e. unfold addRequest, blocksFor in Ha. cbv zeta in Ha.
  set (bs := kvBlockSize (kv_ s)) in *. set (total := kvTotalBlocks (kv_ s)) in *.
  do 8 (case_match; [done|]). injection Ha as <-. b2p.
  change ((p =? 0) && (m =? 0)) with (zeroReq (request e)) in *.
  change (blocksOf bs (p + m)) with (needs bs (request e)) in *.
  change (mkQueued _ (nextWaitingOrder_ s)) with e.
  assert (req_ok (request e)) as Hreq by (repeat split; simpl; lia).
  pose proof (needs_nonneg bs (request e) Hbs Hreq) as Hn0.
  set (b := Z.to_nat (needs bs (request e))) in *.
  destruct (lookup_lt_is_Some_2 (waitingByBlocks_ s) b) as [o Ho]; [rewrite Hlen; unfold b; lia|].
  assert (forall q, o = Some q -> StronglySorted before (q ++ [e]) /\
    Forall (queued_ok bs (nextWaitingOrder_ s + 1) b) (q ++ [e])) as Hq.
  { intros q ->. destruct (w_queue _ _ _ Hw _ _ Ho) as (_ & Hs & Hf). split.
    - apply StronglySorted_app. split_and!; [|done|by repeat constructor].
      intros x1 x2 Hx1 ->%list_elem_of_singleton. rewrite Forall_forall in Hf.
      destruct (Hf x1 Hx1) as [? _]. unfold before. simpl. lia.
    - apply Forall_app. split; [|apply Forall_singleton]; [|by repeat split; simpl in *; try lia; apply (w_next _ _ _ Hw)].
      eapply Forall_impl; [exact Hf|]. intros x (? & ?). split; [lia|done]. }
  destruct (winv_change bs R s b o (fun q => Some (default [] q ++ [e]))
    (<[rid := mkLoc b (zeroReq (request e))]> (waitingLocations_ s)) (waitingCount_ s + 1)
    (zeroTokenWaitingCount_ s + Z.b2z (zeroReq (request e))) (nextWaitingOrder_ s + 1)
    ({[rid]} ∪ activeRequestIds_ s) R Hw Ho) as (Hw' & HB & rest & Hp & Hp').
  - assert (Some (default [] o ++ [e]) = dropEmpty (Some (default [] o ++ [e]))) as <- by (by destruct (default [] o)).
    split; [by destruct (default [] o)|]. destruct o as [q|]; [by apply Hq|]. simpl.
    split; [by repeat constructor|]. apply Forall_singleton.
    repeat split; simpl in *; try lia. apply (w_next _ _ _ Hw).
  - pose proof (w_next _ _ _ Hw). lia.
  - intros rest [L1 L2 L3 -> -> ->] Hp. set (W := default [] o ++ rest) in *.
    apply (wlist_ok_perm _ _ (e :: W)); [unfold W; simpl; solve_Permutation|].
    rewrite L3 in *. split.
    + rewrite fmap_cons. apply NoDup_cons. split; [|done]. rewrite list_elem_of_fmap. intros (x & E & Hx).
      rewrite <- Hp in Hx. destruct (winv_elem _ _ _ _ Hw Hx) as ((? & _) & _). simpl in E. lia.
    + rewrite fmap_cons, <- app_comm_cons. apply NoDup_cons. split; [|done].
      match goal with Hi : rid ∉ _ |- _ => by rewrite elem_of_list_to_set in Hi end.
    + by rewrite fmap_cons, <- app_comm_cons, list_to_set_cons.
    + done.
    + simpl. lia.
    + rewrite filter_cons. case_decide as E; [rewrite E|apply not_true_is_false in E; rewrite E]; simpl; lia.
  - split_and!; [exact Hw'| |done|done| |done|exact Hreq|lia].
    + split; try done; [|cbn; lia|]. 1: { rewrite HB. apply length_alter. } intros b' q' Hb'.
      destruct (decide (b' = b)) as [->|Hne].
      * rewrite Ho in Hb'. injection Hb' as ->. exists [e].
        rewrite HB, (list_lookup_alter_eq _ _ b), Ho. simpl. by destruct q'.
      * exists []. by rewrite HB, app_nil_r, list_lookup_alter_ne by done.
    + etrans; [exact Hp'|]. rewrite Hp. simpl. solve_Permutation.
Qed.

Lemma waiting_location bs R s rid loc : winv bs R s -> waitingLocations_ s !! rid = Some loc ->
  exists e q1 q2, eid e = rid /\ loc = mkLoc (Z.to_nat (needs bs (request e))) (zeroReq (request e)) /\
    waitingByBlocks_ s !! bucket loc = Some (Some (q1 ++ e :: q2)) /\ NoDup (eid <$> q1 ++ e :: q2).
Proof.
  intros Hw Hl. rewrite (w_locs _ _ _ Hw) in Hl. apply elem_of_list_to_map_2 in Hl.
  apply list_elem_of_fmap in Hl as (e & [= -> ->] & He).
  destruct (winv_elem _ _ _ _ Hw He) as (_ & _ & q & Hb & Hq). apply list_elem_of_split in Hq as (q1 & q2 & ->).
  exists e, q1, q2. split_and!; [done..|]. destruct (queued_alter _ _ _ Hb) as (rest & Hp & _).
  pose proof (w_ids _ _ _ Hw) as Hn. apply NoDup_app in Hn as [Hn _]. rewrite Hp, fmap_app in Hn. by apply NoDup_app in Hn as [Hn _].
Qed.

Lemma removeWaiting_winv bs R s rid loc : winv bs R s -> waitingLocations_ s !! rid = Some loc ->
  let s' := removeWaiting s rid loc (activeRequestIds_ s ∖ {[rid]}) in
  winv bs R s' /\ length (waitingByBlocks_ s') = length (waitingByBlocks_ s) /\
  exists e, eid e = rid /\ queued (waitingByBlocks_ s) ≡ₚ e :: queued (waitingByBlocks_ s').
Proof.
  intros Hw Hl. destruct (waiting_location _ _ _ _ _ Hw Hl) as (e & q1 & q2 & <- & -> & Hb & Hn). cbn [bucket] in Hb.
  destruct (remove_winv bs R R s _ q1 e q2 (filter (fun x => id (request x) <> eid e))
    (activeRequestIds_ s ∖ {[eid e]}) Hw Hb) as (Hw' & Hlen & Hp).
  - by apply (filter_key_app eid).
  - intros W HW ->. apply ids_remove in HW as [? <-]. done.
  - split_and!; [exact Hw'|exact Hlen|]. by exists e.
Qed.

Lemma popFront_winv bs R s b e q : winv bs R s -> waitingByBlocks_ s !! b = Some (Some (e :: q)) ->
  let s' := popFront s b (request e) in
  winv bs (R ++ [eid e]) s' /\ length (waitingByBlocks_ s') = length (waitingByBlocks_ s) /\
  queued (waitingByBlocks_ s) ≡ₚ e :: queued (waitingByBlocks_ s').
Proof.
  intros Hw Hb s'.
  destruct (remove_winv bs R (R ++ [eid e]) s b [] e q tail (activeRequestIds_ s) Hw Hb eq_refl) as (Hw' & Hlen & Hp).
  - intros W HW ->. assert ((eid <$> e :: W) ++ R ≡ₚ (eid <$> W) ++ R ++ [eid e]) as Hp
      by (rewrite fmap_cons; solve_Permutation).
    split; [by rewrite <- Hp|]. apply leibniz_equiv. by rewrite Hp.
  - destruct Hw' as []. split_and!; [by split|exact Hlen|exact Hp].
Qed.

(** What a call from the executor leaves alone. *)
Lemma reenter_spec bs total R s c : winv bs R s -> kcfg bs total s -> inStep_ s = true ->
  let s' := reenter s c in
  winv bs R s' /\ extends s s' /\ kv_ s' = kv_ s /\
  (cache_error (lastError_ s') -> cache_error (lastError_ s)).
Proof.
  intros Hw Hc Hin. destruct c as [rid p m|rid|]; simpl.
  - destruct (addRequest s rid p m) as [s'|] eqn:E; [|done].
    destruct (addRequest_Ok bs total R s rid p m s' Hw Hc E) as (? & ? & ? & Her & _). by rewrite Her.
  - unfold cancelRequest. by rewrite Hin.
  - split_and!; [by destruct Hw|etrans; apply extends_set_error|done|]. by intros [|].
Qed.

Lemma kcfg_extends bs total s s' : kcfg bs total s -> length (waitingByBlocks_ s') = length (waitingByBlocks_ s) ->
  kvBlockSize (kv_ s') = kvBlockSize (kv_ s) -> kvTotalBlocks (kv_ s') = kvTotalBlocks (kv_ s) -> kcfg bs total s'.
Proof. intros [] HB H1 H2. split; congruence. Qed.

Lemma reenter_all bs total R s cs : winv bs R s -> kcfg bs total s -> inStep_ s = true ->
  let s' := foldl reenter s cs in
  winv bs R s' /\ extends s s' /\ kv_ s' = kv_ s /\ (cache_error (lastError_ s') -> cache_error (lastError_ s)).
Proof.
  revert s. induction cs as [|c cs IH]; intros s Hw Hc Hin; simpl; [done|].
  destruct (reenter_spec bs total R s c Hw Hc Hin) as (Hw1 & He1 & Hk1 & Hx1).
  destruct (IH (reenter s c) Hw1) as (? & ? & Hk & ?).
  - apply (kcfg_extends _ _ s); [done|by apply e_len|by rewrite Hk1..].
  - by rewrite (e_instep _ _ He1).
  - split_and!; [done|by etrans|by rewrite Hk|auto].
Qed.

End Operations.

(** ** Steps *)

(** Blocks of the sequences in a list of (identifier, (length, blocks)). *)
Definition blocksHeld (held : list (Z * (Z * Z))) : Z := foldr (fun h a => h.2.2 + a) 0 held.

Lemma blocksHeld_perm l1 l2 : l1 ≡ₚ l2 -> blocksHeld l1 = blocksHeld l2.
Proof. induction 1; simpl; lia. Qed.

Lemma blocksHeld_app l1 l2 : blocksHeld (l1 ++ l2) = blocksHeld l1 + blocksHeld l2.
Proof. induction l1; simpl; lia. Qed.

Definition slotOf (bs : Z) (r : Request) : Z * (Z * Z) := (id r, (promptLen r + generated r, needs bs r)).

Lemma slotOf_fst bs l : (slotOf bs <$> l).*1 = id <$> l.
Proof. rewrite <- list_fmap_compose. done. Qed.

Section Steps.
Context {K : Type} `{L : KvLaws K}.
Implicit Types (s : t K).

(** The cache holds exactly the sequences [held]. *)
Record kinv (bs total stride : Z) (held : list (Z * (Z * Z))) (k : K) : Prop := mkKinv {
  k_ok : kvOk k;
  k_bs : kvBlockSize k = bs;
  k_total : kvTotalBlocks k = total;
  k_stride : kvStride k = stride;
  k_nodup : NoDup held.*1;
  k_slots : kvSlots k = list_to_map held;
  k_free : kvFreeBlocks k + blocksHeld held = total;
}.

Lemma kinv_perm bs total stride h1 h2 k : h1 ≡ₚ h2 -> kinv bs total stride h1 k -> kinv bs total stride h2 k.
Proof.
  intros Hp []. split; try done; [by rewrite <- Hp| |by rewrite <- (blocksHeld_perm _ _ Hp)].
  rewrite k_slots0. by apply list_to_map_proper.
Qed.

Lemma kinv_append bs total stride held k sid len n ks vs : kinv bs total stride ((sid, (len, n)) :: held) k ->
  0 <= len < INT_MAX -> len < n * bs -> Z.of_nat (length ks) = stride -> Z.of_nat (length vs) = stride ->
  exists k', kvAppend k sid ks vs = (k', true) /\ kinv bs total stride ((sid, (len + 1, n)) :: held) k'.
Proof.
  intros [Hok <- <- <- Hn Hs Hf] Hl Hc Hk Hv.
  destruct (kv_append k sid ks vs len n Hok) as (k' & E & Hok' & Hs' & Hf' & Ht' & Hb' & Hd'); [|done..|].
  - rewrite Hs. apply lookup_insert_eq.
  - exists k'. split; [exact E|]. split; try done.
    + rewrite Hs', Hs. simpl. by rewrite insert_insert_eq.
    + by rewrite Hf'.
Qed.

Lemma kinv_free bs total stride held k sid len n : kinv bs total stride ((sid, (len, n)) :: held) k ->
  kinv bs total stride held (kvFreeSequence k sid).
Proof.
  intros [Hok <- <- <- Hn Hs Hf]. destruct (kv_free k sid Hok) as (Hok' & Hs' & Hf' & Ht' & Hb' & Hd').
  rewrite fmap_cons in Hn. apply NoDup_cons in Hn as [Hn1 Hn2]. split; try done.
  - rewrite Hs', Hs. simpl. rewrite delete_insert_id; [done|]. by apply not_elem_of_list_to_map_1.
  - rewrite Hf', Hs. simpl in *. rewrite lookup_insert_eq. simpl. lia.
Qed.

Lemma kinv_reserve bs total stride held k sid cap : kinv bs total stride held k -> sid ∉ held.*1 ->
  0 <= cap <= INT_MAX -> blocksOf bs cap <= kvFreeBlocks k ->
  kvHasSequence k sid = false /\
  exists k', kvReserve k sid cap = (k', true) /\ kinv bs total stride ((sid, (0, blocksOf bs cap)) :: held) k'.
Proof.
  intros [Hok <- <- <- Hn Hs Hf] Hid Hc Hb.
  assert (kvSlots k !! sid = None) as Hnone by (rewrite Hs; by apply not_elem_of_list_to_map_1).
  split; [rewrite kv_has, Hnone by done; by apply bool_decide_eq_false_2, is_Some_None|].
  destruct (kv_reserve k sid cap Hok Hnone Hc Hb) as (k' & E & Hok' & Hs' & Hf' & Ht' & Hb' & Hd').
  exists k'. split; [exact E|]. split; try done.
  - rewrite fmap_cons. by apply NoDup_cons.
  - rewrite Hs', Hs. done.
  - rewrite Hf'. simpl. lia.
Qed.

Context {X : Type}.
Context (executor : X -> Request -> ScheduledTokenPhase -> Z -> X * list Reentrant * Outcome).

(** The executor always produces K and V of the right shape, and leaves the
    scheduler alone. *)
Definition valid_executor (stride : Z) : Prop := forall x r phase position, exists x' ks vs,
  executor x r phase position = (x', [], Output ks vs) /\
  Z.of_nat (length ks) = stride /\ Z.of_nat (length vs) = stride /\
  forallb isFinite ks = true /\ forallb isFinite vs = true.

(** The waiting side is the same. *)
Definition same_waiting s s' : Prop :=
  waitingByBlocks_ s' = waitingByBlocks_ s /\ nextWaitingOrder_ s' = nextWaitingOrder_ s /\
  lastError_ s' = lastError_ s.

Lemma executeAndAppend_spec bs total stride R held s x r phase pos len n s' x' ok :
  winv bs R s -> kcfg bs total s -> inStep_ s = true ->
  kinv bs total stride ((id r, (len, n)) :: held) (kv_ s) -> 0 <= len < INT_MAX -> len < n * bs ->
  executeAndAppend executor s x r phase pos = (s', x', ok) ->
  winv bs R s' /\ kcfg bs total s' /\ extends s s' /\
  kinv bs total stride ((id r, ((if ok then len + 1 else len), n)) :: held) (kv_ s') /\
  (cache_error (lastError_ s') -> cache_error (lastError_ s)) /\
  (tokenExecutor_ s = true -> valid_executor stride -> ok = true /\ same_waiting s s').
Proof.
  intros Hw Hc Hin Hk Hl Hn. unfold executeAndAppend. destruct (tokenExecutor_ s) eqn:Hex; cbn [negb].
  2: { intros [= <- <- <-]. split_and!; [by destruct Hw|by destruct Hc|apply extends_set_error|done|by intros [|]|done]. }
  cbv zeta.
  rewrite (k_stride _ _ _ _ _ Hk).
  destruct (executor x r phase pos) as [[x1 calls] outcome] eqn:E.
  destruct (reenter_all bs total R s calls Hw Hc Hin) as (Hw1 & He1 & Hk1 & Hx1).
  set (s1 := foldl reenter s calls) in *.
  assert (forall s2, extends s1 s2 -> winv bs R s2 -> kinv bs total stride ((id r, (len, n)) :: held) (kv_ s2) ->
    winv bs R s2 /\ kcfg bs total s2 /\ extends s s2 /\ kinv bs total stride ((id r, (len, n)) :: held) (kv_ s2)) as Hfail.
  { intros s2 He2 Hw2 Hk2. assert (extends s s2) as He by (by etrans). split_and!; [done| |done..].
    destruct Hk2, Hc. split; try done. by rewrite (e_len _ _ He). }
  assert (kinv bs total stride ((id r, (len, n)) :: held) (kv_ s1)) as Hks1 by (by rewrite Hk1).
  assert (forall e, ~ cache_error e -> let s2 := set_error s1 e in
    winv bs R s2 /\ kcfg bs total s2 /\ extends s s2 /\ kinv bs total stride ((id r, (len, n)) :: held) (kv_ s2) /\
    (cache_error (lastError_ s2) -> cache_error (lastError_ s))) as Herr.
  { intros e Hne s2. destruct (Hfail s2) as (? & ? & ? & ?); [apply extends_set_error|by destruct Hw1|done|].
    by split_and!. }
  destruct outcome as [|ks vs].
  { intros [= <- <- <-]. destruct (Herr EXECUTOR_FAILURE ltac:(by intros [|])) as (? & ? & ? & ? & ?).
    split_and!; [done..|]. intros _ Hv. destruct (Hv x r phase pos) as (? & ? & ? & E' & _). congruence. }
  destruct (negb ((Z.of_nat (length ks) =? stride) && (Z.of_nat (length vs) =? stride))) eqn:Esz.
  { intros [= <- <- <-]. destruct (Herr INVALID_KV_OUTPUT ltac:(by intros [|])) as (? & ? & ? & ? & ?).
    split_and!; [done..|]. intros _ Hv. destruct (Hv x r phase pos) as (? & ? & ? & E' & <- & E2 & _).
    rewrite E in E'. simplify_eq. rewrite E2, Z.eqb_refl in Esz. done. }
  destruct (negb (forallb isFinite ks && forallb isFinite vs)) eqn:Efin.
  { intros [= <- <- <-]. destruct (Herr INVALID_KV_OUTPUT ltac:(by intros [|])) as (? & ? & ? & ? & ?).
    split_and!; [done..|]. intros _ Hv. destruct (Hv x r phase pos) as (? & ? & ? & E' & _ & _ & F1 & F2).
    rewrite E in E'. simplify_eq. by rewrite F1, F2 in Efin. }
  b2p. destruct (kinv_append bs total stride held (kv_ s1) (id r) len n ks vs Hks1 Hl Hn) as (k' & Ea & Hk'); [done..|].
  rewrite Ea. intros [= <- <- <-].
  assert (extends s (set_kv s1 k')) as He by (etrans; [exact He1|apply extends_set_kv]).
  split_and!; [by destruct Hw1| |exact He|exact Hk'|exact Hx1|].
  - destruct Hk', Hc. split; try done. by rewrite (e_len _ _ He).
  - intros _ Hv. split; [done|]. destruct (Hv x r phase pos) as (? & ? & ? & E' & _).
    rewrite E in E'. simplify_eq. done.
Qed.

Lemma prefill_spec bs total stride R held r n m : forall i s x s' x' ok,
  winv bs R s -> kcfg bs total s -> inStep_ s = true ->
  kinv bs total stride ((id r, (i, m)) :: held) (kv_ s) -> 0 <= i -> i + Z.of_nat n <= INT_MAX ->
  i + Z.of_nat n <= m * bs ->
  prefill executor n i s x r = (s', x', ok) ->
  winv bs R s' /\ kcfg bs total s' /\ extends s s' /\
  (exists len, kinv bs total stride ((id r, (len, m)) :: held) (kv_ s') /\ (ok = true -> len = i + Z.of_nat n)) /\
  (cache_error (lastError_ s') -> cache_error (lastError_ s)) /\
  (tokenExecutor_ s = true -> valid_executor stride -> ok = true /\ same_waiting s s').
Proof.
  induction n as [|n IH]; intros i s x s' x' ok Hw Hc Hin Hk Hi Hmax Hcap; simpl.
  { intros [= <- <- <-]. split_and!; [done..| |done|done]. exists i. split; [done|lia]. }
  destruct (executeAndAppend executor s x r PREFILL i) as [[s1 x1] ok1] eqn:E.
  destruct (executeAndAppend_spec bs total stride R held s x r PREFILL i i m s1 x1 ok1 Hw Hc Hin Hk)
    as (Hw1 & Hc1 & He1 & Hk1 & Hx1 & Hv1); [lia|lia|exact E|].
  destruct ok1.
  - intros Hp. destruct (IH (i + 1) s1 x1 s' x' ok) as (Hw2 & Hc2 & He2 & (len & Hk2 & Hlen) & Hx2 & Hv2);
      [exact Hw1|exact Hc1|by rewrite (e_instep _ _ He1)|exact Hk1|lia|lia|lia|exact Hp|].
    split_and!; [done|done|by etrans| |auto|].
    + exists len. split; [done|]. intros ->. rewrite Hlen by done. lia.
    + intros Hex Hv. rewrite <- (e_exec _ _ He1) in Hex.
      destruct (Hv1 ltac:(by rewrite <- (e_exec _ _ He1)) Hv) as (_ & ? & ? & ?), (Hv2 Hex Hv) as (-> & ? & ? & ?).
      split; [done|]. unfold same_waiting. split_and!; congruence.
  - intros [= <- <- <-]. split_and!; [done..| |done|].
    + exists i. done.
    + intros Hex Hv. by destruct (Hv1 Hex Hv) as [? _].
Qed.

End Steps.

(** ** Admission picks the oldest waiting request that fits *)

Lemma query_spec {K} bs R (s : t K) avail limit : winv bs R s -> 0 < bs -> (0 < length (waitingByBlocks_ s))%nat ->
  let B := waitingByBlocks_ s in let b := oldestEligibleWaitingBucket s avail limit in
  (b = length B /\ forall e, e ∈ queued B -> needs bs (request e) <= avail -> limit <= order e) \/
  (exists e q, B !! b = Some (Some (e :: q)) /\ needs bs (request e) <= avail /\ order e < limit /\
     forall e', e' ∈ queued B -> needs bs (request e') <= avail -> order e <= order e').
Proof.
  intros Hw Hbs HN B b. subst b. unfold oldestEligibleWaitingBucket. fold B. cbv zeta.
  destruct (Z.eqb_spec (waitingCount_ s) 0) as [H0|H0]; cbn [orb].
  { left. split; [done|]. rewrite (w_count _ _ _ Hw) in H0. fold B in H0. intros e He.
    destruct (queued B); [by apply not_elem_of_nil in He|done]. }
  destruct (Z.ltb_spec avail 0) as [Ha|Ha].
  { left. split; [done|]. intros e He Hne. destruct (winv_elem _ _ _ _ Hw He) as ((_ & Hr & _) & _).
    pose proof (needs_nonneg bs _ Hbs Hr). lia. }
  destruct (w_tree _ _ _ Hw) as (p & Hbase & HlB & HlT & Hok). fold B in HlB, Hok.
  set (last := Nat.min (Z.to_nat avail) (length B - 1)).
  rewrite Hbase. pose proof (query_ok p B (waitingTree_ s) last Hok ltac:(unfold B in *; lia)) as Hbest.
  set (b := queryLoop _ _ _ _ _ _ _) in *.
  assert (forall e, e ∈ queued B -> needs bs (request e) <= avail ->
    exists o, frontOrder B (Z.to_nat (needs bs (request e))) = Some o /\ o <= order e /\
      (Z.to_nat (needs bs (request e)) <= last)%nat) as Hfront.
  { intros e He Hne. destruct (winv_elem _ _ _ _ Hw He) as ((_ & Hr & _) & Hlt & q & Hq & Hin).
    pose proof (needs_nonneg bs _ Hbs Hr). fold B in Hlt, Hq. unfold frontOrder. rewrite Hq.
    destruct q as [|e0 q]; [by apply not_elem_of_nil in Hin|]. exists (order e0). split_and!; [done| |lia].
    destruct (w_queue _ _ _ Hw _ _ Hq) as (_ & Hs & _). apply elem_of_cons in Hin as [->|Hin]; [lia|].
    inversion Hs as [|? ? _ Hf]; subst. rewrite Forall_forall in Hf. specialize (Hf e Hin). unfold before in Hf. lia. }
  destruct Hbest as [(o & Hb & Ho & Hlt & Hmin)|[Hb Hnone]].
  - apply frontOrder_Some in Ho as Hq. destruct Hq as (e & q & Hq & ->).
    assert (e ∈ queued B) as He by (apply elem_of_queued; exists b, (e :: q); split; [done|left]).
    assert (needs bs (request e) <= avail) as Hne.
    { destruct (w_queue _ _ _ Hw _ _ Hq) as (_ & _ & Hf). apply Forall_cons in Hf as [(_ & Hr & _ & _ & Hbb) _].
      pose proof (needs_nonneg bs _ Hbs Hr). lia. }
    assert (forall e', e' ∈ queued B -> needs bs (request e') <= avail -> order e <= order e') as Hold.
    { intros e' He' Hne'. destruct (Hfront e' He' Hne') as (o' & Hf' & Hle & Hlast).
      specialize (Hmin _ _ Hlast Hf'). lia. }
    rewrite (proj2 (Nat.ltb_lt _ _) Hlt), Ho. cbn [andb]. change (default 0 (Some (order e))) with (order e).
    destruct (Z.leb_spec limit (order e)).
    + left. split; [done|]. intros e' He' Hne'. specialize (Hold e' He' Hne'). lia.
    + right. exists e, q. done.
  - left. rewrite Hb, Nat.ltb_irrefl. cbn [andb]. split; [done|]. intros e He Hne.
    destruct (Hfront e He Hne) as (o & Ho & _ & Hlast). rewrite (Hnone _ Hlast) in Ho. done.
Qed.

(** ** The scheduling policy

    First come, first served, but a request that does not fit is skipped. *)

Fixpoint takeFit (bs free : Z) (W : list Request) : option (Request * list Request) :=
  match W with
  | [] => None
  | r :: W => if needs bs r <=? free then Some (r, W) else
      match takeFit bs free W with Some (r', W') => Some (r', r :: W') | None => None end
  end.

Fixpoint spec_admit (bs : Z) (n : nat) (free : Z) (W R : list Request) : list Request * list Request :=
  match n with
  | O => (W, R)
  | S n => match takeFit bs free W with
      | Some (r, W) => spec_admit bs n (free - needs bs r) W (R ++ [with_state r RUNNING])
      | None => (W, R)
      end
  end.

Definition spec_decode (r : Request) : Request :=
  if is_done r then r else mkReq (id r) (promptLen r) (maxNewTokens r) (generated r + 1) (state r).

Definition blocksUsed (bs : Z) (R : list Request) : Z := blocksHeld (slotOf bs <$> R).

Definition spec_step (bs total maxBatch : Z) (W R : list Request) : list Request * list Request :=
  let R := filter (fun r => is_done r = false) R in
  let '(W, R) := spec_admit bs (Z.to_nat (maxBatch - Z.of_nat (length R))) (total - blocksUsed bs R) W R in
  (W, spec_decode <$> R).

(** Adding and cancelling, on the lists of waiting and running requests. *)
Definition spec_add (bs total rid p m : Z) (W R : list Request) : list Request :=
  let r := mkReq rid p m 0 WAITING in
  if bool_decide (req_ok r /\ needs bs r <= total /\ Z.of_nat (length W) < INT_MAX /\ rid ∉ (id <$> W) ++ (id <$> R))
  then W ++ [r] else W.

Definition spec_cancel (rid : Z) (W R : list Request) : list Request * list Request :=
  if bool_decide (rid ∈ id <$> W) then (filter (fun r => id r <> rid) W, R) else
  match list_find (fun r => id r = rid) R with
  | Some (_, r) => if is_done r then (W, R) else (W, filter (fun r => id r <> rid) R)
  | None => (W, R)
  end.

(** The waiting requests in the order they arrived. *)
Definition arrival {K} (s : t K) (W : list Request) : Prop :=
  exists A, StronglySorted before A /\ A ≡ₚ queued (waitingByBlocks_ s) /\ W = request <$> A.

Lemma takeFit_Some bs free W r W' : takeFit bs free W = Some (r, W') ->
  exists W1 W2, W = W1 ++ r :: W2 /\ W' = W1 ++ W2 /\ needs bs r <= free /\ Forall (fun r => free < needs bs r) W1.
Proof.
  revert r W'. induction W as [|r0 W IH]; intros r W'; simpl; [done|].
  destruct (Z.leb_spec (needs bs r0) free) as [Hle|Hgt].
  - intros [= <- <-]. by exists [], W.
  - destruct (takeFit bs free W) as [[r1 W1]|]; [|done]. intros [= <- <-].
    destruct (IH r1 W1 eq_refl) as (V1 & V2 & -> & -> & Hn & Hf). exists (r0 :: V1), V2.
    split_and!; [done..|]. by constructor.
Qed.

Lemma takeFit_None bs free W : takeFit bs free W = None -> Forall (fun r => free < needs bs r) W.
Proof.
  induction W as [|r W IH]; simpl; [by constructor|].
  destruct (Z.leb_spec (needs bs r) free); [done|]. destruct (takeFit bs free W) as [[??]|]; [done|].
  intros _. constructor; [done|by apply IH].
Qed.

(** The query and the policy agree. *)
Lemma query_takeFit {K} bs R (s : t K) A avail limit : winv bs R s -> 0 < bs -> (0 < length (waitingByBlocks_ s))%nat ->
  StronglySorted before A -> A ≡ₚ queued (waitingByBlocks_ s) -> nextWaitingOrder_ s <= limit ->
  let b := oldestEligibleWaitingBucket s avail limit in
  match takeFit bs avail (request <$> A) with
  | None => b = length (waitingByBlocks_ s)
  | Some (r, W') => exists e q A1 A2, waitingByBlocks_ s !! b = Some (Some (e :: q)) /\ r = request e /\
      A = A1 ++ e :: A2 /\ W' = request <$> A1 ++ A2
  end.
Proof.
  intros Hw Hbs HN Hs Hp Hlim b.
  assert (forall e, e ∈ A -> order e < limit) as Hall.
  { intros e He. rewrite Hp in He. destruct (winv_elem _ _ _ _ Hw He) as ((? & _) & _). lia. }
  destruct (query_spec bs R s avail limit Hw Hbs HN) as [[Hb Hno]|(e & q & Hb & Hne & _ & Hold)]; fold b in Hb.
  - destruct (takeFit bs avail (request <$> A)) as [[r W']|] eqn:E; [|done].
    apply takeFit_Some in E as (W1 & W2 & HA & -> & Hne & _).
    apply fmap_app_inv in HA as (A1 & A2' & -> & HA2 & ->). symmetry in HA2.
    apply fmap_cons_inv in HA2 as (e & A2 & -> & -> & ->).
    assert (e ∈ A1 ++ e :: A2) as He by set_solver. pose proof (Hall e He). rewrite Hp in He.
    specialize (Hno e He Hne). lia.
  - assert (e ∈ A) as HeA by (rewrite Hp; apply elem_of_queued; exists b, (e :: q); split; [done|left]).
    destruct (takeFit bs avail (request <$> A)) as [[r W']|] eqn:E.
    + apply takeFit_Some in E as (W1 & W2 & HA & -> & Hr & Hf).
      apply fmap_app_inv in HA as (A1 & A2' & -> & HA2 & ->). symmetry in HA2.
      apply fmap_cons_inv in HA2 as (e' & A2 & -> & -> & ->).
      assert (e' = e) as ->; [|exists e, q, A1, A2; by rewrite fmap_app].
      apply StronglySorted_app in Hs as (_ & _ & Hs2). inversion Hs2 as [|? ? _ Hf2]; subst.
      apply elem_of_app in HeA as [He|[->|He]%elem_of_cons]; [|done|].
      * rewrite Forall_fmap, Forall_forall in Hf. specialize (Hf e He). simpl in Hf. lia.
      * rewrite Forall_forall in Hf2. specialize (Hf2 e He). unfold before in Hf2.
        specialize (Hold e'). rewrite <- Hp in Hold. specialize (Hold ltac:(set_solver) Hr). lia.
    + apply takeFit_None in E. rewrite Forall_fmap, Forall_forall in E. specialize (E e HeA). simpl in E. lia.
Qed.

(** ** The invariant, and the phases of a step *)

Definition running_ok (r : Request) : Prop :=
  req_ok r /\ 0 <= generated r <= maxNewTokens r /\ state r = RUNNING.

Section Phases.
Context {K : Type} `{L : KvLaws K}.
Context {X : Type}.
Context (executor : X -> Request -> ScheduledTokenPhase -> Z -> X * list Reentrant * Outcome).
Implicit Types (s : t K).

Record sinv (bs total stride : Z) s : Prop := mkSinv {
  s_w : winv bs (id <$> running_ s) s;
  s_c : kcfg bs total s;
  s_k : kinv bs total stride (slotOf bs <$> running_ s) (kv_ s);
  s_run : Forall running_ok (running_ s);
}.

Lemma sinv_free bs total stride s : sinv bs total stride s ->
  kvFreeBlocks (kv_ s) = total - blocksUsed bs (running_ s).
Proof. intros Hs. pose proof (k_free _ _ _ _ _ (s_k _ _ _ _ Hs)). unfold blocksUsed. lia. Qed.

(** What a phase keeps. *)
Record phase_frame s s' : Prop := mkFrame {
  f_max : maxBatch_ s' = maxBatch_ s;
  f_exec : tokenExecutor_ s' = tokenExecutor_ s;
  f_instep : inStep_ s' = inStep_ s;
  f_canc : cancelled_ s' = cancelled_ s;
  f_error : cache_error (lastError_ s') -> cache_error (lastError_ s);
}.

#[local] Instance phase_frame_preorder : PreOrder phase_frame.
Proof. split; [by split|]. intros s1 s2 s3 [] []. split; [congruence..|auto]. Qed.

(** A waiting request that fits is admitted. *)
Lemma admit1_spec bs total stride s x b e q s' x' ok :
  sinv bs total stride s -> inStep_ s = true ->
  waitingByBlocks_ s !! b = Some (Some (e :: q)) -> needs bs (request e) <= kvFreeBlocks (kv_ s) ->
  let r := request e in
  kvHasSequence (kv_ s) (id r) = false /\
  exists k, kvReserve (kv_ s) (id r) (promptLen r + maxNewTokens r) = (k, true) /\
  (prefill executor (Z.to_nat (promptLen r)) 0 (set_kv s k) x r = (s', x', ok) ->
   phase_frame s s' /\ finished_ s' = finished_ s /\ running_ s' = running_ s /\
   (if ok then let s2 := popFront s' b r in
      sinv bs total stride s2 /\ queued (waitingByBlocks_ s') ≡ₚ e :: queued (waitingByBlocks_ s2)
    else sinv bs total stride (set_kv s' (kvFreeSequence (kv_ s') (id r)))) /\
   (tokenExecutor_ s = true -> valid_executor executor stride -> ok = true /\ same_waiting s s')).
Proof.
  intros [Hw Hc Hk Hr] Hin Hb Hne r.
  assert (e ∈ queued (waitingByBlocks_ s)) as He by (apply elem_of_queued; exists b, (e :: q); split; [done|left]).
  destruct (winv_elem _ _ _ _ Hw He) as ((_ & Hreq & Hgen & _) & _). pose proof Hreq as (Hp0 & Hm0 & Hmax). fold r in Hp0, Hm0, Hmax, Hgen.
  destruct (c_pos _ _ _ Hc) as [Hbs _].
  assert (id r ∉ (slotOf bs <$> running_ s).*1) as Hid.
  { rewrite slotOf_fst. pose proof (w_ids _ _ _ Hw) as Hn. apply NoDup_app in Hn as (_ & Hn & _). apply Hn.
    apply list_elem_of_fmap. by exists e. }
  destruct (kinv_reserve bs total stride _ (kv_ s) (id r) (promptLen r + maxNewTokens r) Hk Hid) as (Hhas & k & Hres & Hk1); [lia|done|].
  split; [done|]. exists k. split; [exact Hres|]. intros Hpre. change (blocksOf bs _) with (needs bs r) in Hk1.
  assert (0 + Z.of_nat (Z.to_nat (promptLen r)) <= needs bs r * bs) as Hcap.
  { pose proof (blocksOf_capacity bs (promptLen r + maxNewTokens r) Hbs). unfold needs. lia. }
  destruct (prefill_spec executor bs total stride (id <$> running_ s) (slotOf bs <$> running_ s) r
    (Z.to_nat (promptLen r)) (needs bs r) 0 (set_kv s k) x s' x' ok) as (Hw2 & Hc2 & He2 & (len & Hk2 & Hlen) & Hx2 & Hv2);
    [by destruct Hw|by destruct Hk1, Hc; split|done|exact Hk1|lia|lia|exact Hcap|exact Hpre|].
  pose proof (e_running _ _ He2) as Erun. cbn [running_ set_kv] in Erun.
  split; [destruct He2; split; [done..|exact Hx2]|]. split; [by apply (e_fin _ _ He2)|]. split; [done|].
  split; [|done]. destruct ok.
  - destruct (e_queue _ _ He2 b (e :: q) Hb) as (q' & Hb').
    destruct (popFront_winv bs _ s' b e (q ++ q') Hw2 Hb') as (Hw3 & Hl3 & Hp3).
    split; [|exact Hp3].
    assert (running_ (popFront s' b r) = running_ s ++ [with_state r RUNNING]) as Er2 by (rewrite <- Erun; done).
    split; rewrite ?Er2.
    + rewrite fmap_app. exact Hw3.
    + apply (kcfg_extends _ _ s'); done.
    + change (kv_ (popFront s' b r)) with (kv_ s'). rewrite fmap_app.
      eapply kinv_perm; [|exact Hk2]. rewrite Hlen by done. simpl. unfold slotOf at 3. simpl. rewrite Hgen.
      replace (0 + Z.of_nat (Z.to_nat (promptLen r))) with (promptLen r + 0) by lia. solve_Permutation.
    + apply Forall_app. split; [done|]. apply Forall_singleton.
      repeat split; simpl; lia.
  - split; cbn [set_kv running_ kv_]; rewrite ?Erun; [by destruct Hw2| |by eapply kinv_free|done].
    pose proof (kinv_free _ _ _ _ _ _ _ _ Hk2) as [? Hb1 Ht1 _ _ _ _]. by destruct Hc2; split.
Qed.

Lemma admit_spec bs total stride n limit : forall s x s' x' ok,
  sinv bs total stride s -> inStep_ s = true -> admitLoop executor n limit s x = (s', x', ok) ->
  sinv bs total stride s' /\ phase_frame s s' /\ finished_ s' = finished_ s /\
  (length (running_ s') <= length (running_ s) + n)%nat /\
  (tokenExecutor_ s = true -> valid_executor executor stride -> nextWaitingOrder_ s <= limit ->
   ok = true /\ nextWaitingOrder_ s' = nextWaitingOrder_ s /\ lastError_ s' = lastError_ s /\
   forall W, arrival s W -> let '(W', R') := spec_admit bs n (total - blocksUsed bs (running_ s)) W (running_ s) in
     arrival s' W' /\ running_ s' = R').
Proof.
  induction n as [|n IH]; intros s x s' x' ok Hs Hin; simpl.
  { intros [= <- <- <-]. by split_and!; [|reflexivity|..|lia|]. }
  pose proof (sinv_free _ _ _ _ Hs) as Hfree. destruct (s_c _ _ _ _ Hs) as [_ _ [Hbs _] Hlen].
  set (b := oldestEligibleWaitingBucket s (kvFreeBlocks (kv_ s)) limit).
  assert (forall W, arrival s W -> nextWaitingOrder_ s <= limit ->
    match takeFit bs (total - blocksUsed bs (running_ s)) W with
    | None => b = length (waitingByBlocks_ s)
    | Some (r, W') => exists e q A1 A2, waitingByBlocks_ s !! b = Some (Some (e :: q)) /\ r = request e /\
        StronglySorted before (A1 ++ e :: A2) /\ A1 ++ e :: A2 ≡ₚ queued (waitingByBlocks_ s) /\
        W' = request <$> A1 ++ A2
    end) as Hspec.
  { intros W (A & HA & Hp & ->) Hlim. rewrite <- Hfree.
    pose proof (query_takeFit bs _ s A (kvFreeBlocks (kv_ s)) limit (s_w _ _ _ _ Hs) Hbs ltac:(lia) HA Hp Hlim) as Hq.
    fold b in Hq. case_match; [|done]. destruct p as [r W']. destruct Hq as (e & q & A1 & A2 & ? & ? & -> & ?).
    by exists e, q, A1, A2. }
  destruct (query_spec bs _ s (kvFreeBlocks (kv_ s)) limit (s_w _ _ _ _ Hs) Hbs ltac:(lia))
    as [[Hb Hno]|(e & q & Hb & Hne & _)]; fold b in Hb.
  - rewrite Hb, Nat.eqb_refl. intros [= <- <- <-]. split_and!; [done|reflexivity|done|lia|].
    intros Hex Hv Hlim. split_and!; [done..|]. intros W HW. specialize (Hspec W HW Hlim).
    destruct (takeFit _ _ W) as [[r W']|]; [|done]. destruct Hspec as (e & q & _ & _ & Hb' & _).
    apply lookup_lt_Some in Hb'. lia.
  - pose proof (lookup_lt_Some _ _ _ Hb) as Hlt. rewrite (proj2 (Nat.eqb_neq b _)), Hb by lia.
    destruct (admit1_spec bs total stride s x b e q s x true Hs Hin Hb Hne) as (Hhas & k & Hres & _).
    rewrite Hhas, Hres. cbn [negb].
    destruct (prefill executor (Z.to_nat (promptLen (request e))) 0 (set_kv s k) x (request e)) as [[s1 x1] ok1] eqn:Hpre.
    destruct (admit1_spec bs total stride s x b e q s1 x1 ok1 Hs Hin Hb Hne) as (_ & k' & Hres' & Hpost).
    rewrite Hres in Hres'. injection Hres' as <-. destruct (Hpost Hpre) as (Hf1 & Hfin1 & Hrun1 & Hs1 & Hv1).
    destruct ok1.
    + destruct Hs1 as [Hs1 Hp1]. intros Hadm. set (s2 := popFront s1 b (request e)) in *.
      assert (phase_frame s1 s2) as Hf2 by (by split).
      destruct (IH s2 x1 s' x' ok Hs1) as (Hs3 & Hf3 & Hfin3 & Hlen3 & Hv3); [by rewrite (f_instep _ _ Hf2), (f_instep _ _ Hf1)|done|].
      assert (running_ s2 = running_ s ++ [with_state (request e) RUNNING]) as Er2 by (unfold s2; cbn; by rewrite Hrun1).
      split_and!; [done|by repeat (etrans; [eassumption|])|by rewrite Hfin3| |].
      { rewrite Er2, length_app in Hlen3. simpl in Hlen3. lia. }
      intros Hex Hv Hlim. destruct (Hv1 Hex Hv) as (_ & HB & Hnx & Herr).
      destruct Hv3 as (-> & Hnx3 & Herr3 & Hsim); [by rewrite (f_exec _ _ Hf2), (f_exec _ _ Hf1)|done|by cbn; rewrite Hnx|].
      split_and!; [done|by rewrite Hnx3|by rewrite Herr3|]. intros W HW. specialize (Hspec W HW Hlim).
      destruct (takeFit _ _ W) as [[r W']|]; [|lia].
      destruct Hspec as (e' & q' & A1 & A2 & Hb' & -> & HA & Hp & ->). rewrite Hb in Hb'. injection Hb' as <- <-.
      specialize (Hsim (request <$> A1 ++ A2)). rewrite Er2 in Hsim.
      replace (total - blocksUsed bs (running_ s ++ [with_state (request e) RUNNING]))
        with (total - blocksUsed bs (running_ s) - needs bs (request e)) in Hsim
        by (unfold blocksUsed; rewrite fmap_app, blocksHeld_app; simpl; unfold needs; simpl; lia).
      apply Hsim. exists (A1 ++ A2). split_and!; [| |done].
      * apply StronglySorted_app in HA as (HA1 & HA2 & HA3). inversion HA3; subst. apply StronglySorted_app.
        split_and!; [|done..]. intros y1 y2 Hy1 Hy2. apply HA1; [done|by right].
      * apply (Permutation_cons_inv (a := e)). rewrite <- Hp1, HB, <- Hp. solve_Permutation.
    + intros [= <- <- <-]. split_and!; [done|by etrans; [exact Hf1|split]|done|cbn; rewrite Hrun1; lia|].
      intros Hex Hv _. by destruct (Hv1 Hex Hv).
Qed.

(** One running request decodes. *)
Lemma decode1_spec bs total stride s x i r s' x' ok : sinv bs total stride s -> inStep_ s = true ->
  running_ s !! i = Some r -> is_done r = false ->
  executeAndAppend executor s x r DECODE (promptLen r + generated r) = (s', x', ok) ->
  phase_frame s s' /\ finished_ s' = finished_ s /\ running_ s' = running_ s /\
  (let s2 := if ok then set_running s' (<[i := spec_decode r]> (running_ s')) else s' in sinv bs total stride s2) /\
  (tokenExecutor_ s = true -> valid_executor executor stride -> ok = true /\ same_waiting s s').
Proof.
  intros [Hw Hc Hk Hr] Hin Hi Hdone Hex. pose proof (take_drop_middle _ _ _ Hi) as Hsplit.
  set (l1 := take i (running_ s)) in *. set (l2 := drop (S i) (running_ s)) in *.
  pose proof Hr as Hr'. rewrite Forall_lookup in Hr'. destruct (Hr' i r Hi) as ((Hp0 & Hm0 & Hmax) & Hg & Hst).
  unfold is_done in Hdone. apply Z.leb_gt in Hdone. destruct (c_pos _ _ _ Hc) as [Hbs _].
  pose proof (blocksOf_capacity bs (promptLen r + maxNewTokens r) Hbs ltac:(lia)) as Hcap. fold (needs bs r) in Hcap.
  assert (forall r', id r' = id r -> needs bs r' = needs bs r ->
    slotOf bs <$> l1 ++ r' :: l2 ≡ₚ (id r, (promptLen r' + generated r', needs bs r)) :: (slotOf bs <$> l1 ++ l2)) as Hperm.
  { intros r' Hid Hn. rewrite !fmap_app, fmap_cons. unfold slotOf at 2. rewrite Hid, Hn. solve_Permutation. }
  destruct (executeAndAppend_spec executor bs total stride (id <$> running_ s) (slotOf bs <$> l1 ++ l2) s x r DECODE
    (promptLen r + generated r) (promptLen r + generated r) (needs bs r) s' x' ok Hw Hc Hin) as (Hw1 & Hc1 & He1 & Hk1 & Hx1 & Hv1);
    [|lia|lia|exact Hex|].
  { eapply kinv_perm; [|exact Hk]. rewrite <- Hsplit at 1. by apply Hperm. }
  pose proof (e_running _ _ He1) as Erun.
  split; [destruct He1; by split|]. split; [by apply (e_fin _ _ He1)|]. split; [done|]. split; [|done].
  destruct ok; cbv zeta.
  - assert (<[i := spec_decode r]> (running_ s') = l1 ++ spec_decode r :: l2) as Eins.
    { rewrite Erun. apply insert_take_drop. by eapply lookup_lt_Some. }
    assert (id (spec_decode r) = id r /\ needs bs (spec_decode r) = needs bs r /\
      promptLen (spec_decode r) + generated (spec_decode r) = promptLen r + generated r + 1 /\ running_ok (spec_decode r))
      as (Hid & Hn & Hpg & Hrok).
    { unfold spec_decode, is_done. rewrite (proj2 (Z.leb_gt _ _)) by lia. split_and!; [done|done|simpl; lia|].
      repeat split; simpl; try lia. done. }
    rewrite Eins. split; cbn [set_running running_ kv_].
    + assert (id <$> l1 ++ spec_decode r :: l2 = id <$> running_ s) as ->
        by (rewrite <- Hsplit, !fmap_app, !fmap_cons, Hid; done).
      by destruct Hw1.
    + by destruct Hc1.
    + eapply kinv_perm; [|exact Hk1]. rewrite (Hperm (spec_decode r)) by done. by rewrite Hpg.
    + rewrite <- Hsplit in Hr. apply Forall_app in Hr as [? [_ ?]%Forall_cons]. apply Forall_app. split; [done|]. by constructor.
  - split; rewrite ?Erun; [done..| |done]. eapply kinv_perm; [|exact Hk1]. rewrite <- Hsplit. symmetry. by apply Hperm.
Qed.

Lemma arrival_same s s' W : waitingByBlocks_ s' = waitingByBlocks_ s -> arrival s W -> arrival s' W.
Proof. intros E (A & ? & ? & ?). exists A. by rewrite E. Qed.

Lemma decode_spec bs total stride n : forall i s x s' x' ok, sinv bs total stride s -> inStep_ s = true ->
  (i + n = length (running_ s))%nat -> decode executor n i s x = (s', x', ok) ->
  sinv bs total stride s' /\ phase_frame s s' /\ finished_ s' = finished_ s /\
  length (running_ s') = length (running_ s) /\
  (tokenExecutor_ s = true -> valid_executor executor stride -> ok = true /\ same_waiting s s' /\
     running_ s' = take i (running_ s) ++ (spec_decode <$> drop i (running_ s))).
Proof.
  induction n as [|n IH]; intros i s x s' x' ok Hs Hin Hi; simpl.
  { intros [= <- <- <-]. split_and!; [done|reflexivity|done..|]. intros _ _.
    split_and!; [done..|]. by rewrite drop_ge, app_nil_r, take_ge by lia. }
  destruct (lookup_lt_is_Some_2 (running_ s) i) as [r Hr]; [lia|]. rewrite Hr.
  rewrite (drop_S _ _ _ Hr), fmap_cons.
  destruct (is_done r) eqn:Hd.
  - intros Hdec. destruct (IH (S i) s x s' x' ok Hs Hin ltac:(lia) Hdec) as (? & ? & ? & ? & Hv).
    split_and!; [done..|]. intros Hex Hvx. destruct (Hv Hex Hvx) as (? & ? & ->). split_and!; [done..|].
    rewrite (take_S_r _ _ _ Hr), <- app_assoc. unfold spec_decode at 2. by rewrite Hd.
  - destruct (executeAndAppend executor s x r DECODE (promptLen r + generated r)) as [[s1 x1] ok1] eqn:E.
    destruct (decode1_spec bs total stride s x i r s1 x1 ok1 Hs Hin Hr Hd E) as (Hf1 & Hfin1 & Hrun1 & Hs1 & Hv1).
    assert (mkReq (id r) (promptLen r) (maxNewTokens r) (generated r + 1) (state r) = spec_decode r) as ->
      by (unfold spec_decode; by rewrite Hd).
    destruct ok1.
    + set (s2 := set_running s1 (<[i:=spec_decode r]> (running_ s1))) in *. intros Hdec.
      assert (phase_frame s1 s2) as Hf2 by (by split).
      assert (running_ s2 = <[i:=spec_decode r]> (running_ s)) as Er by (unfold s2; cbn; by rewrite Hrun1).
      destruct (IH (S i) s2 x1 s' x' ok Hs1) as (Hs3 & Hf3 & Hfin3 & Hlen3 & Hv3);
        [by rewrite (f_instep _ _ Hf2), (f_instep _ _ Hf1)|rewrite Er, length_insert; lia|exact Hdec|].
      split_and!; [done|by repeat (etrans; [eassumption|])|by rewrite Hfin3|by rewrite Hlen3, Er, length_insert|].
      intros Hex Hvx. destruct (Hv1 Hex Hvx) as (_ & HB & Hn & Herr).
      destruct Hv3 as (-> & (HB3 & Hn3 & Herr3) & ->); [by rewrite (f_exec _ _ Hf2), (f_exec _ _ Hf1)|done|].
      split_and!; [done|split_and!; [by rewrite HB3|by rewrite Hn3|by rewrite Herr3]|]. rewrite Er.
      pose proof (lookup_lt_Some _ _ _ Hr) as Hlt.
      rewrite (insert_take_drop _ _ _ Hlt), take_app, drop_app, length_take, !Nat.min_l by lia.
      replace (S i - i)%nat with 1%nat by lia. rewrite take_take, Nat.min_r by lia. simpl.
      rewrite (drop_ge (take i _)) by (rewrite length_take; lia). simpl. by rewrite drop_0, <- app_assoc.
    + intros [= <- <- <-]. split_and!; [done..|by rewrite Hrun1|]. intros Hex Hvx. by destruct (Hv1 Hex Hvx).
Qed.

(** A running identifier leaves the scheduler. *)
Lemma winv_drop bs R rid R' s s' : winv bs R s -> R ≡ₚ rid :: R' ->
  activeRequestIds_ s' = activeRequestIds_ s ∖ {[rid]} ->
  waitingByBlocks_ s' = waitingByBlocks_ s -> waitingLocations_ s' = waitingLocations_ s ->
  waitingTree_ s' = waitingTree_ s -> waitingTreeBase_ s' = waitingTreeBase_ s ->
  waitingCount_ s' = waitingCount_ s -> zeroTokenWaitingCount_ s' = zeroTokenWaitingCount_ s ->
  nextWaitingOrder_ s' = nextWaitingOrder_ s -> winv bs R' s'.
Proof.
  intros [] Hp Ha HB Hl Ht Htb Hc Hz Hn. set (W := queued (waitingByBlocks_ s)) in *.
  assert ((eid <$> W) ++ R ≡ₚ rid :: ((eid <$> W) ++ R')) as Hp' by (rewrite Hp; solve_Permutation).
  rewrite Hp' in w_ids0. apply NoDup_cons in w_ids0 as [Hni Hnd].
  split; rewrite ?HB, ?Hl, ?Ht, ?Htb, ?Hc, ?Hz, ?Hn; try done.
  rewrite Ha, w_active0. apply set_eq. intros y. fold W.
  rewrite elem_of_difference, !elem_of_list_to_set, Hp', elem_of_cons, elem_of_singleton.
  split; [tauto|]. intros Hy. split; [by right|]. by intros ->.
Qed.

(** Retiring: the waiting side and the other running requests stay. *)
Lemma retire_spec bs total stride l : forall kept s, winv bs (id <$> kept ++ l) s -> kcfg bs total s ->
  kinv bs total stride (slotOf bs <$> kept ++ l) (kv_ s) ->
  let s' := foldl retire1 s l in let l' := filter (fun r => is_done r = false) l in
  winv bs (id <$> kept ++ l') s' /\ kcfg bs total s' /\ kinv bs total stride (slotOf bs <$> kept ++ l') (kv_ s') /\
  phase_frame s s' /\ same_waiting s s' /\
  finished_ s' = finished_ s + Z.of_nat (length (filter (fun r => is_done r = true) l)).
Proof.
  induction l as [|r l IH]; intros kept s Hw Hc Hk; simpl.
  { split_and!; [done..|reflexivity|done|lia]. }
  rewrite !filter_cons. unfold retire1 at 2 4 6 8 10 12. destruct (is_done r) eqn:Hd; cbn [decide].
  - set (s1 := set_done _ _ _ _).
    assert (kinv bs total stride (slotOf bs <$> kept ++ l) (kv_ s1)) as Hk1.
    { apply (kinv_free _ _ _ _ _ (id r) (promptLen r + generated r) (needs bs r)). eapply kinv_perm; [|exact Hk].
      rewrite !fmap_app, fmap_cons. fold (slotOf bs r). solve_Permutation. }
    destruct (IH kept s1) as (? & ? & ? & Hf & Hsw & Hfin).
    + eapply (winv_drop bs _ (id r)); [exact Hw| |done..]. rewrite !fmap_app, fmap_cons. solve_Permutation.
    + destruct Hk1, Hc. by split.
    + done.
    + rewrite decide_False, decide_True by done. cbn [length].
      split_and!; [done..|etrans; [|exact Hf]; by split|exact Hsw|rewrite Hfin; unfold s1; cbn; lia].
  - rewrite decide_True, decide_False by done.
    destruct (IH (kept ++ [r]) s) as (Hw' & ? & Hk' & ?); [by rewrite <- app_assoc|done|by rewrite <- app_assoc|].
    rewrite <- app_assoc in Hw', Hk'. done.
Qed.

(** ** Whole operations *)

(** The invariant between operations. *)
Record rinv (bs total stride : Z) s : Prop := mkRinv {
  r_s : sinv bs total stride s;
  r_instep : inStep_ s = false;
  r_max : 1 <= maxBatch_ s;
  r_len : Z.of_nat (length (running_ s)) <= maxBatch_ s;
  r_error : ~ cache_error (lastError_ s);
}.

Lemma winv_same bs R s s' : winv bs R s ->
  waitingByBlocks_ s' = waitingByBlocks_ s -> waitingLocations_ s' = waitingLocations_ s ->
  waitingTree_ s' = waitingTree_ s -> waitingTreeBase_ s' = waitingTreeBase_ s ->
  waitingCount_ s' = waitingCount_ s -> zeroTokenWaitingCount_ s' = zeroTokenWaitingCount_ s ->
  nextWaitingOrder_ s' = nextWaitingOrder_ s -> activeRequestIds_ s' = activeRequestIds_ s -> winv bs R s'.
Proof. intros [] HB Hl Ht Htb Hc Hz Hn Ha. split; rewrite ?HB, ?Hl, ?Ht, ?Htb, ?Hc, ?Hz, ?Hn, ?Ha; done. Qed.

(** Changes outside the queues, the running requests and the cache. *)
Lemma sinv_set_inStep bs total stride s b : sinv bs total stride s -> sinv bs total stride (set_inStep s b).
Proof. intros [Hw Hc Hk Hr]. split; [by eapply winv_same|by destruct Hc; split|done|done]. Qed.

Lemma sinv_set_error bs total stride s e : sinv bs total stride s -> sinv bs total stride (set_error s e).
Proof. intros [Hw Hc Hk Hr]. split; [by eapply winv_same|by destruct Hc; split|done|done]. Qed.

Lemma sinv_retire bs total stride s : sinv bs total stride s ->
  let s' := retire s in
  sinv bs total stride s' /\ phase_frame s s' /\ same_waiting s s' /\
  running_ s' = filter (fun r => is_done r = false) (running_ s) /\
  finished_ s' = finished_ s + Z.of_nat (length (filter (fun r => is_done r = true) (running_ s))).
Proof.
  intros [Hw Hc Hk Hr] s'. destruct (retire_spec bs total stride (running_ s) [] s Hw Hc Hk) as (Hw1 & Hc1 & Hk1 & Hf & Hsw & Hfin).
  cbn [app] in Hw1, Hk1. split_and!; [|destruct Hf; by split|exact Hsw|done|exact Hfin].
  split; [by eapply winv_same|by destruct Hc1; split|exact Hk1|]. cbn. rewrite Forall_forall in *.
  intros r [_ ?]%list_elem_of_filter. by apply Hr.
Qed.

Lemma step_spec bs total stride s x s' x' c : rinv bs total stride s -> step executor s x = (s', x', c) ->
  rinv bs total stride s' /\ maxBatch_ s' = maxBatch_ s /\ tokenExecutor_ s' = tokenExecutor_ s /\
  (tokenExecutor_ s = true -> valid_executor executor stride ->
   lastError_ s' = NONE /\ c = Z.of_nat (length (running_ s')) /\ nextWaitingOrder_ s' = nextWaitingOrder_ s /\
   finished_ s' = finished_ s + Z.of_nat (length (filter (fun r => is_done r = true) (running_ s))) /\
   forall W, arrival s W -> let '(W', R') := spec_step bs total (maxBatch_ s) W (running_ s) in
     arrival s' W' /\ running_ s' = R').
Proof.
  intros [Hs Hin Hmax Hlen Herr] Hstep. unfold step in Hstep. cbv zeta in Hstep.
  cbn [set_error inStep_ nextWaitingOrder_ tokenExecutor_ running_ zeroTokenWaitingCount_ waitingCount_] in Hstep.
  rewrite Hin in Hstep.
  destruct (negb (tokenExecutor_ s) && _) eqn:Emiss.
  { injection Hstep as <- <- <-. split; [split; [by do 2 apply sinv_set_error|done..|by intros [|]]|].
    split_and!; [done..|]. intros Hex. by rewrite Hex in Emiss. }
  set (s0 := set_inStep (set_error s NONE) true) in *.
  destruct (sinv_retire bs total stride s0) as (Hs1 & Hf1 & (HB1 & Hn1 & He1) & Hr1 & Hfin1);
    [by apply sinv_set_inStep, sinv_set_error|].
  set (s1 := retire s0) in *. change (running_ s0) with (running_ s) in *.
  assert (inStep_ s1 = true) as Hin1 by (by rewrite (f_instep _ _ Hf1)).
  destruct (admitLoop executor _ _ s1 x) as [[s2 x2] ok2] eqn:Eadm.
  destruct (admit_spec bs total stride _ _ _ _ _ _ _ Hs1 Hin1 Eadm) as (Hs2 & Hf2 & Hfin2 & Hlen2 & Hv2).
  assert (forall s3, sinv bs total stride s3 -> phase_frame s2 s3 -> length (running_ s3) = length (running_ s2) ->
    rinv bs total stride (set_inStep s3 false)) as Hend.
  { intros s3 Hs3 Hf3 Hl3. pose proof (f_max _ _ Hf1) as M1. pose proof (f_max _ _ Hf2) as M2. pose proof (f_max _ _ Hf3) as M3.
    split; [by apply sinv_set_inStep|done|cbn; rewrite M3, M2, M1; done| |].
    - cbn. rewrite Hl3, M3, M2, M1. pose proof (length_filter (fun r => is_done r = false) (running_ s)) as Hfl.
      rewrite <- Hr1 in Hfl. rewrite M1 in Hlen2. cbn in *. lia.
    - intros Hc. apply (f_error _ _ Hf3), (f_error _ _ Hf2), (f_error _ _ Hf1) in Hc. by destruct Hc. }
  assert (forall s3, phase_frame s2 s3 -> maxBatch_ (set_inStep s3 false) = maxBatch_ s /\
    tokenExecutor_ (set_inStep s3 false) = tokenExecutor_ s) as Hfr.
  { intros s3 []. destruct Hf1, Hf2. cbn in *. split; congruence. }
  destruct ok2; cbn [negb] in Hstep.
  2: { injection Hstep as <- <- <-. destruct (Hfr s2 (reflexivity _)) as [? ?].
       split; [apply Hend; [done|reflexivity|done]|]. split_and!; [done..|]. intros Hex Hv.
       destruct Hv2 as (? & _); [by rewrite (f_exec _ _ Hf1)|done|cbn in *; lia|done]. }
  destruct (decode executor _ _ s2 x2) as [[s3 x3] ok3] eqn:Edec.
  destruct (decode_spec bs total stride (length (running_ s2)) 0 _ _ _ _ _ Hs2 (eq_trans (f_instep _ _ Hf2) Hin1) eq_refl Edec)
    as (Hs3 & Hf3 & Hfin3 & Hlen3 & Hv3).
  injection Hstep as <- <- <-. destruct (Hfr s3 Hf3) as [? ?]. split; [by apply Hend|]. split_and!; [done..|].
  intros Hex Hv. destruct Hv2 as (_ & Hn2 & He2 & Hsim); [by rewrite (f_exec _ _ Hf1)|done|cbn in *; lia|].
  destruct Hv3 as (-> & (HB3 & Hn3 & He3) & Hr3); [by rewrite (f_exec _ _ Hf2), (f_exec _ _ Hf1)|done|].
  split_and!; [cbn; by rewrite He3, He2, He1|done|cbn; by rewrite Hn3, Hn2, Hn1|cbn; by rewrite Hfin3, Hfin2, Hfin1|].
  intros W HW. unfold spec_step. rewrite <- Hr1. specialize (Hsim W (arrival_same _ _ _ HB1 HW)).
  rewrite (f_max _ _ Hf1) in Hsim. change (maxBatch_ s0) with (maxBatch_ s) in Hsim.
  destruct (spec_admit _ _ _ _ _) as [W' R']. destruct Hsim as [HW' HR']. split.
  - by eapply arrival_same.
  - cbn. rewrite Hr3, HR'. simpl. by rewrite drop_0.
Qed.

Lemma addRequest_spec bs total stride s rid p m : rinv bs total stride s ->
  let s' := match addRequest s rid p m with Ok s' => s' | Err _ => s end in
  rinv bs total stride s' /\ maxBatch_ s' = maxBatch_ s /\ tokenExecutor_ s' = tokenExecutor_ s /\
  nextWaitingOrder_ s <= nextWaitingOrder_ s' <= nextWaitingOrder_ s + 1 /\
  (nextWaitingOrder_ s < U64_MAX -> forall W, arrival s W -> arrival s' (spec_add bs total rid p m W (running_ s)) /\
     running_ s' = running_ s).
Proof.
  intros [[Hw Hc Hk Hr] Hin Hmax Hlen Herr] s'. destruct (addRequest s rid p m) as [s1|] eqn:E; subst s'.
  - destruct (addRequest_Ok bs total _ s rid p m s1 Hw Hc E) as (Hw1 & He1 & Hk1 & Her1 & Hp1 & Hn1 & Hreq & Hneed).
    pose proof (e_running _ _ He1) as Hrun.
    assert (sinv bs total stride s1) as Hs1.
    { split; rewrite ?Hrun, ?Hk1; [done| |done..].
      apply (kcfg_extends _ _ s); [done|by apply e_len|by rewrite Hk1..]. }
    split_and!; [|by apply e_max|by apply e_exec|lia|lia|].
    { split; [done|by rewrite (e_instep _ _ He1)|by rewrite (e_max _ _ He1)|by rewrite Hrun, (e_max _ _ He1)|by rewrite Her1]. }
    intros Hlt W (A & HA & Hp & ->). split; [|done].
    set (e := mkQueued _ _) in *. exists (A ++ [e]). split_and!.
    + apply StronglySorted_app. split_and!; [|done|by repeat constructor].
      intros e1 e2 H1 ->%list_elem_of_singleton. rewrite Hp in H1.
      destruct (winv_elem _ _ _ _ Hw H1) as ((? & _) & _). unfold before. simpl. lia.
    + rewrite Hp, Hp1. solve_Permutation.
    + unfold spec_add. rewrite fmap_app. simpl. rewrite bool_decide_eq_true_2; [done|].
      clear -E Hw Hc Hp Hreq Hneed Hlt. split_and!; [done|done| |].
      * rewrite length_fmap, Hp, <- (w_count _ _ _ Hw). revert E. unfold addRequest.
        repeat (case_match; [done|]). intros _. b2p. done.
      * intros Hin. assert (rid ∈ activeRequestIds_ s) as Ha.
        { rewrite (w_active _ _ _ Hw), elem_of_list_to_set, <- Hp, <- list_fmap_compose in *. exact Hin. }
        revert E. unfold addRequest. repeat (case_match; [done|]). intros _. b2p. done.
  - split_and!; [by split; [split|..]|done|done|lia|lia|]. intros Hlt W HW. split; [|done].
    assert (spec_add bs total rid p m W (running_ s) = W) as ->; [|done].
    unfold spec_add. rewrite bool_decide_eq_false_2; [done|]. intros ((Hp0 & Hm0 & Hsum) & Hneed & Hcnt & Hni).
    cbn [promptLen maxNewTokens] in Hp0, Hm0, Hsum. destruct HW as (A & _ & HpA & ->).
    rewrite length_fmap, HpA, <- (w_count _ _ _ Hw) in Hcnt.
    destruct Hc as [<- <- [Hbs _] _].
    assert (rid ∉ activeRequestIds_ s) as Hna.
    { rewrite (w_active _ _ _ Hw), elem_of_list_to_set, <- HpA. by rewrite <- list_fmap_compose in Hni. }
    assert (forall loc, waitingLocations_ s !! rid <> Some loc) as Hnl.
    { intros loc Hl. destruct (waiting_location _ _ _ _ _ Hw Hl) as (e0 & q1 & q2 & <- & _ & Hb & _).
      apply Hna. rewrite (w_active _ _ _ Hw), elem_of_list_to_set, elem_of_app. left. apply list_elem_of_fmap.
      exists e0. split; [done|]. apply elem_of_queued. eexists _, _. split; [exact Hb|set_solver]. }
    assert (kvHasSequence (kv_ s) rid = false) as Hhas.
    { rewrite kv_has by apply (k_ok _ _ _ _ _ Hk). apply bool_decide_eq_false_2. rewrite (k_slots _ _ _ _ _ Hk).
      intros [? Hl]. apply elem_of_list_to_map_2 in Hl. apply Hna. rewrite (w_active _ _ _ Hw), elem_of_list_to_set, elem_of_app.
      right. rewrite <- (slotOf_fst (kvBlockSize (kv_ s))). apply list_elem_of_fmap. by eexists (_, _). }
    revert E. unfold addRequest, blocksFor. cbv zeta. unfold needs in Hneed. cbn [promptLen maxNewTokens] in Hneed.
    rewrite (proj2 (Z.ltb_ge p 0)), (proj2 (Z.ltb_ge m 0)), (proj2 (Z.ltb_ge (INT_MAX - p) m)),
      (proj2 (Z.ltb_ge (kvTotalBlocks (kv_ s)) _)), (proj2 (Z.leb_gt INT_MAX (waitingCount_ s))), Hhas,
      bool_decide_eq_false_2, (proj2 (Z.eqb_neq (nextWaitingOrder_ s) U64_MAX)), bool_decide_eq_false_2; try done; try lia.
    intros [? ?]. by eapply Hnl.
Qed.

Lemma StronglySorted_filter {A} (R : relation A) (P : A -> Prop) `{!forall x, Decision (P x)} l :
  StronglySorted R l -> StronglySorted R (filter P l).
Proof.
  induction 1 as [|x l Hs IH Hf]; [constructor|]. rewrite filter_cons. case_decide; [|done].
  constructor; [done|]. rewrite Forall_forall in *. intros y [_ ?]%list_elem_of_filter. by apply Hf.
Qed.

Lemma filter_fmap_request rid (A : list QueuedRequest) : request <$> filter (fun e => eid e <> rid) A = filter (fun r => id r <> rid) (request <$> A).
Proof.
  induction A as [|e A IH]; [done|]. rewrite fmap_cons, !filter_cons. change (eid e) with (id (request e)).
  destruct (decide (id (request e) <> rid)); [|done]. by rewrite fmap_cons, IH.
Qed.

Lemma cancelRequest_spec bs total stride s rid : rinv bs total stride s ->
  let s' := (cancelRequest s rid).1 in
  rinv bs total stride s' /\ maxBatch_ s' = maxBatch_ s /\ tokenExecutor_ s' = tokenExecutor_ s /\
  nextWaitingOrder_ s' = nextWaitingOrder_ s /\
  (forall W, arrival s W -> let '(W', R') := spec_cancel rid W (running_ s) in arrival s' W' /\ running_ s' = R').
Proof.
  intros Hinv. pose proof Hinv as [[Hw Hc Hk Hr] Hin Hmax Hlen Herr]. unfold cancelRequest. rewrite Hin.
  assert (forall W, arrival s W -> rid ∈ id <$> W <-> is_Some (waitingLocations_ s !! rid)) as Hloc.
  { intros W (A & _ & Hp & ->). rewrite (w_locs _ _ _ Hw), <- list_fmap_compose, Hp. split.
    - intros (e & -> & He)%list_elem_of_fmap. eexists. apply elem_of_list_to_map_1.
      + rewrite location_fst. pose proof (w_ids _ _ _ Hw) as Hn. by apply NoDup_app in Hn as [? _].
      + apply list_elem_of_fmap. by exists e.
    - intros [loc Hl]. apply elem_of_list_to_map_2, list_elem_of_fmap in Hl as (e & [= -> _] & He).
      apply list_elem_of_fmap. by exists e. }
  destruct (waitingLocations_ s !! rid) as [loc|] eqn:El.
  - destruct (removeWaiting_winv bs _ s rid loc Hw El) as (Hw' & Hl' & e & He & Hp'). cbv zeta.
    set (s1 := removeWaiting s rid loc _) in *. cbn [fst]. split_and!; [|done..|].
    + split; [|done..]. split; [by eapply winv_same|by apply (kcfg_extends _ _ s)|done..].
    + intros W HW. unfold spec_cancel. rewrite bool_decide_eq_true_2 by (by apply Hloc).
      destruct HW as (A & HA & Hp & ->). split; [|done]. exists (filter (fun e => eid e <> rid) A).
      split_and!; [by apply StronglySorted_filter| |by rewrite filter_fmap_request].
      change (waitingByBlocks_ (set_done s1 _ _ _)) with (waitingByBlocks_ s1).
      rewrite Hp, Hp', filter_cons_False by (by rewrite He; intros []). rewrite filter_all; [done|].
      pose proof (w_ids _ _ _ Hw) as Hn. apply NoDup_app in Hn as [Hn _]. rewrite Hp', fmap_cons in Hn.
      apply NoDup_cons in Hn as [Hn _]. apply Forall_forall. intros x Hx E. apply Hn, list_elem_of_fmap. exists x. by rewrite He, E.
  - assert (forall W, arrival s W -> bool_decide (rid ∈ id <$> W) = false) as Hnw.
    { intros W HW. apply bool_decide_eq_false_2. rewrite (Hloc W HW). apply is_Some_None. }
    destruct (list_find (fun r => id r = rid) (running_ s)) as [[i r]|] eqn:Ef.
    + apply list_find_Some in Ef as (Hi & <- & _). pose proof (take_drop_middle _ _ _ Hi) as Hsplit.
      set (l1 := take i (running_ s)) in *. set (l2 := drop (S i) (running_ s)) in *.
      pose proof (w_ids _ _ _ Hw) as Hn. apply NoDup_app in Hn as (_ & _ & Hn).
      assert (delete i (running_ s) = l1 ++ l2 /\ filter (fun x => id x <> id r) (running_ s) = l1 ++ l2) as [Hdel Hfil].
      { split; [apply delete_take_drop|]. rewrite <- Hsplit. apply filter_key_app. by rewrite Hsplit. }
      assert (list_find (fun x => id x = id r) (running_ s) = Some (i, r)) as Hfind.
      { apply list_find_Some. split_and!; [done..|]. intros j y Hy Hlt E.
        assert (j = i); [|lia]. eapply (NoDup_lookup (id <$> running_ s)); [done|rewrite list_lookup_fmap, Hy; simpl; by rewrite E|by rewrite list_lookup_fmap, Hi]. }
      fold (is_done r). destruct (is_done r) eqn:Hd.
      { split_and!; [done..|]. intros W HW. unfold spec_cancel. by rewrite Hnw, Hfind, Hd. }
      cbv zeta. cbn [fst]. set (s1 := set_done _ _ _ _).
      assert (running_ s1 = l1 ++ l2) as Hr1 by (unfold s1; cbn; by rewrite Hdel).
      assert (kinv bs total stride (slotOf bs <$> l1 ++ l2) (kv_ s1)) as Hk1.
      { apply (kinv_free _ _ _ _ _ (id r) (promptLen r + generated r) (needs bs r)). eapply kinv_perm; [|exact Hk].
        rewrite <- Hsplit, !fmap_app, fmap_cons. fold (slotOf bs r). solve_Permutation. }
      split_and!; [|done..|].
      * split; [|done..| |done].
        -- split; rewrite ?Hr1.
           ++ eapply (winv_drop bs _ (id r)); [exact Hw| |done..]. rewrite <- Hsplit, !fmap_app, fmap_cons. solve_Permutation.
           ++ destruct Hk1, Hc. by split.
           ++ done.
           ++ rewrite <- Hsplit in Hr. apply Forall_app in Hr as [? [_ ?]%Forall_cons]. by apply Forall_app.
        -- change (Z.of_nat (length (running_ s1)) <= maxBatch_ s). rewrite Hr1. rewrite <- Hsplit, !length_app in *. simpl in *. lia.
      * intros W HW. unfold spec_cancel. rewrite Hnw, Hfind, Hd by done. split; [|by rewrite Hr1, Hfil]. by eapply arrival_same.
    + split_and!; [done..|]. intros W HW. unfold spec_cancel. by rewrite Hnw, Ef.
Qed.

End Phases.

End ContinuousBatchScheduler.
