(* ===== verification/BatchServing.v ===== *)
(** * Serving requests

    The scheduler on the paged cache: the cache satisfies the scheduler's
    interface, traces of [addRequest], [cancelRequest], [setTokenExecutor] and
    [step] keep the invariant, refine the admission policy, and finish every
    request.  The traces are those of a scheduler that is the only user of its
    cache; what a step does on a cache that somebody else has changed is
    [step_conflict]. *)

From stdpp Require Import sorting.
From S2P Require Import Prelude KvQuant KvCache WaitingIndex BatchScheduler.
Import KvQuant WaitingIndex ContinuousBatchScheduler.

Module BatchServing.

(** ** The paged cache behind the scheduler *)

#[export] Instance kvcache_api : KvApi KVCacheManager.t := {
  kvTotalBlocks := KVCacheManager.totalBlocks;
  kvFreeBlocks := KVCacheManager.freeBlocks;
  kvBlockSize := KVCacheManager.blockSize_;
  kvStride k := KVCacheManager.numHeads_ k * KVCacheManager.headDim_ k;
  kvHasSequence := KVCacheManager.hasSequence;
  kvReserve := KVCacheManager.reserveSequenceCapacity;
  kvAppend k s ks vs := default (k, false) (KVCacheManager.appendToken k s (Some ks) (Some vs));
  kvFreeSequence := KVCacheManager.freeSequence;
}.

Module PagedCache.
Import KVCacheManager.

(** Length and number of blocks of a sequence. *)
Definition usage (sq : Seq) : Z * Z := (length_ sq, Z.of_nat (length (blockTable sq))).

(** An operation on sequence [s] keeps the other sequences and the pool. *)
Definition touches (s : Z) (k k' : t) : Prop :=
  (forall s', s' <> s -> seqs_ k' !! s' = seqs_ k !! s') /\ totalBlocks k' = totalBlocks k.

Lemma moveBlocks_states n fl tab states : length (moveBlocks n fl tab states).2 = length states.
Proof.
  revert fl tab states. induction n as [|n IH]; intros [|b fl] tab states; simpl; try done.
  by rewrite IH, length_insert.
Qed.

Lemma reserve_touches k s cap k' r : reserveSequenceCapacity k s cap = (k', r) -> touches s k k'.
Proof.
  unfold reserveSequenceCapacity, touches, totalBlocks. intros H. cbv zeta in H.
  assert (forall sq s', s' <> s -> <[s := sq]> (seqs_ k) !! s' = seqs_ k !! s') as Hins
    by (intros; by apply lookup_insert_ne).
  repeat (case_match; [simplify_eq; split; cbn [set_blocks seqs_ blockState_]; by auto|]).
  case_match eqn:E. destruct p as [fl tab]. simplify_eq. cbn [set_blocks seqs_ blockState_] in *. split.
  - intros s' Hne. by rewrite insert_insert_eq, lookup_insert_ne.
  - match type of E with moveBlocks ?n ?f ?t ?b = _ => pose proof (moveBlocks_states n f t b) as Hl end.
    rewrite E in Hl. simpl in Hl. by rewrite Hl.
Qed.

Lemma append_touches k s ks vs k' r : appendToken k s ks vs = Some (k', r) ->
  touches s k k' /\ (seqLen k s / blockSize_ k < Z.of_nat (length (blockTableOf k s)) ->
    length (blockTableOf k' s) = length (blockTableOf k s)).
Proof.
  unfold appendToken, allocateBlock, touches, totalBlocks. intros H.
  destruct ks as [ks|], vs as [vs|]; simplify_eq; try done. cbv zeta in H.
  rewrite seqLen_default, blockTableOf_default. set (s0 := default (mkSeq [] 0) (seqs_ k !! s)) in *. clearbody s0.
  assert (forall k', seqs_ k' = <[s := s0]> (seqs_ k) -> length (blockState_ k') = length (blockState_ k) ->
    ((forall s', s' <> s -> seqs_ k' !! s' = seqs_ k !! s') /\ Z.of_nat (length (blockState_ k')) = Z.of_nat (length (blockState_ k))) /\
    (length_ s0 / blockSize_ k < Z.of_nat (length (blockTable s0)) -> length (blockTableOf k' s) = length (blockTable s0))) as Hsame.
  { intros k1 Hk1 Hl. split; [split; [|by rewrite Hl]|].
    - intros s' Hne. by rewrite Hk1, lookup_insert_ne.
    - intros _. unfold blockTableOf. by rewrite Hk1, lookup_insert_eq. }
  cbn [freeList_ blockState_ set_blocks seqs_ blockSize_] in H.
  case_match; [simplify_eq; by apply Hsame|].
  case_match eqn:E. destruct p as [k1 s1].
  assert (exists sq, seqs_ k1 = <[s := sq]> (seqs_ k) /\ length (blockState_ k1) = length (blockState_ k) /\
    (length_ s0 / blockSize_ k < Z.of_nat (length (blockTable s0)) -> sq = s0 /\ s1 = s0)) as (sq & Hk1 & Hl1 & Hsq).
  { clear H. case_match eqn:El.
    - destruct (freeList_ k) as [|b0 fl]; cbn in E; [injection E as <- <- <-; exists s0; split_and!; [done|done|by intros _]|].
      case_match; [injection E as <- <- <-; exists s0; split_and!; [done|cbn; by rewrite length_insert|by intros _]|].
      injection E as <- <- <-. eexists. cbn [set_blocks seqs_ blockState_].
      rewrite !length_insert, insert_insert_eq. split_and!; [done..|]. apply Z.leb_le in El. lia.
    - injection E as <- <- <-. exists s0. by split_and!; [..|intros _]. }
  assert (forall sq2, (sq = s0 -> s1 = s0 -> length (blockTable sq2) = length (blockTable s0)) ->
    ((forall s', s' <> s -> <[s := sq2]> (seqs_ k) !! s' = seqs_ k !! s') /\
      Z.of_nat (length (blockState_ k1)) = Z.of_nat (length (blockState_ k))) /\
    (length_ s0 / blockSize_ k < Z.of_nat (length (blockTable s0)) -> length (blockTable sq2) = length (blockTable s0))) as Hfin.
  { intros sq2 H2. rewrite Hl1. split; [split; [|done]|].
    - intros s' Hne. by rewrite lookup_insert_ne.
    - intros Hlt. destruct (Hsq Hlt). by apply H2. }
  case_match.
  - simplify_eq. unfold blockTableOf. rewrite Hk1, lookup_insert_eq.
    apply Hfin. by intros ->.
  - apply bind_Some in H as (phys & _ & H). apply bind_Some in H as (k2 & Hw & H).
    unfold writeToken in Hw. apply bind_Some in Hw as (? & _ & Hw). apply bind_Some in Hw as (? & _ & Hw). simplify_eq.
    unfold blockTableOf. cbn [set_blocks set_stores seqs_ blockState_]. rewrite Hk1, insert_insert_eq, lookup_insert_eq.
    apply Hfin. by intros _ ->.
Qed.

Lemma usage_insert k k' s sq : touches s k k' -> seqs_ k' !! s = Some sq ->
  usage <$> seqs_ k' = <[s := usage sq]> (usage <$> seqs_ k).
Proof.
  intros [Ht _] Hs. apply map_eq. intros s'. rewrite lookup_fmap. destruct (decide (s' = s)) as [->|Hne].
  - by rewrite Hs, lookup_insert_eq.
  - by rewrite lookup_insert_ne, lookup_fmap, Ht.
Qed.

Lemma repr_usage k c s : repr k c -> is_Some (c !! s) -> exists sq, seqs_ k !! s = Some sq /\
  usage sq = (seqLen k s, Z.of_nat (length (blockTableOf k s))).
Proof.
  intros H [toks Hc]. pose proof (repr_seq _ _ H s) as Hr. rewrite Hc in Hr. inversion Hr as [sq ? ? E|]; subst.
  exists sq. split; [done|]. unfold usage, seqLen, blockTableOf. by rewrite <- E.
Qed.

Lemma dims_cfg k k' : dims k' = dims k ->
  blockSize_ k' = blockSize_ k /\ numHeads_ k' * headDim_ k' = numHeads_ k * headDim_ k.
Proof. unfold dims. by intros [= -> -> -> _ _]. Qed.

Lemma reserve_law k s cap : (exists c, repr k c) -> seqs_ k !! s = None -> 0 <= cap <= INT_MAX ->
  let n := blocksOf (blockSize_ k) cap in n <= freeBlocks k ->
  exists k', reserveSequenceCapacity k s cap = (k', true) /\ (exists c, repr k' c) /\
    usage <$> seqs_ k' = <[s := (0, n)]> (usage <$> seqs_ k) /\ freeBlocks k' = freeBlocks k - n /\
    totalBlocks k' = totalBlocks k /\ dims k' = dims k.
Proof.
  intros [c H] Hs Hcap n Hreq. destruct (reserve_spec k c s cap H) as (k' & E & Hr); [lia|].
  assert (blockTableOf k s = [] /\ seqLen k s = 0) as [Ht Hl] by (unfold blockTableOf, seqLen; by rewrite Hs).
  assert (requiredBlocks k cap = n) as Hn by (unfold requiredBlocks, n, blocksOf; by destruct (_ =? 0)).
  pose proof (blocksOf_nonneg (blockSize_ k) cap (cfg_bs _ (inv_cfg _ (repr_inv _ _ H))) ltac:(lia)) as Hpos. fold n in Hpos.
  assert (can_reserve k s cap = true) as Hcan.
  { unfold can_reserve. rewrite Ht, Hl, Hn. simpl. apply andb_true_iff. split; apply Z.leb_le; lia. }
  rewrite Hcan, Ht, Hn, Z.sub_0_r in Hr. rewrite Hcan in E. destruct Hr as (Hr & Ht' & Hf'). exists k'.
  assert (c !! s = None) as Hc by (pose proof (repr_seq _ _ H s) as Hq; rewrite Hs in Hq; by inversion Hq).
  destruct (repr_usage _ _ s Hr) as (sq & Hsq & Hu); [rewrite lookup_insert_eq; by eexists|].
  split_and!; [exact E|by eexists| | |by apply reserve_touches in E as [_ ?]|].
  - rewrite (usage_insert k k' s sq (reserve_touches _ _ _ _ _ E) Hsq), Hu.
    rewrite (proj1 (seqLen_repr _ _ s Hr)), lookup_insert_eq, Hc, Ht'. simpl. rewrite length_take.
    unfold freeBlocks in Hreq. do 2 f_equal. lia.
  - unfold freeBlocks in *. rewrite Hf', length_drop. lia.
  - apply (step_dims (ReserveSequenceCapacity s cap) _ _ true). cbn [step]. by rewrite E.
Qed.

Lemma append_law k s ks vs len n : (exists c, repr k c) -> usage <$> seqs_ k !! s = Some (len, n) ->
  Z.of_nat (length ks) = numHeads_ k * headDim_ k -> Z.of_nat (length vs) = numHeads_ k * headDim_ k ->
  0 <= len < INT_MAX -> len < n * blockSize_ k ->
  exists k', appendToken k s (Some ks) (Some vs) = Some (k', true) /\ (exists c, repr k' c) /\
    usage <$> seqs_ k' = <[s := (len + 1, n)]> (usage <$> seqs_ k) /\ freeBlocks k' = freeBlocks k /\
    totalBlocks k' = totalBlocks k /\ dims k' = dims k.
Proof.
  intros [c H] Hs Hks Hvs Hlen Hroom. apply fmap_Some in Hs as (sq & Hs & Hu). injection Hu as -> ->.
  pose proof (inv_cfg _ (repr_inv _ _ H)) as Hcfg. pose proof (cfg_bs _ Hcfg) as Hbs.
  destruct (append_spec k c s (ks, vs) H) as (k' & E & Hr & Hf); [split; simpl; by rewrite (cfg_ts _ Hcfg)|].
  assert (seqLen k s = length_ sq /\ blockTableOf k s = blockTable sq) as [Hl Ht]
    by (unfold seqLen, blockTableOf; by rewrite Hs).
  assert (length_ sq / blockSize_ k < Z.of_nat (length (blockTable sq))) as Hdiv by (apply Z.div_lt_upper_bound; lia).
  assert (can_append k s = true) as Hcan.
  { unfold can_append. rewrite Hl, Ht, (proj2 (Z.ltb_lt _ _) Hdiv), (proj2 (Z.eqb_neq _ _)) by lia. done. }
  rewrite Hcan, Hl, Ht, (proj2 (Z.leb_gt _ _) Hdiv) in *. cbn [andb] in Hf. exists k'. cbn [fst snd] in E.
  destruct (append_touches _ _ _ _ _ _ E) as [Hto Htab]. rewrite Hl, Ht in Htab. specialize (Htab Hdiv).
  destruct (repr_usage _ _ s Hr) as (sq' & Hsq' & Hu'); [rewrite lookup_insert_eq; by eexists|].
  split_and!; [exact E|by eexists| |exact Hf|by apply Hto|by eapply appendToken_dims].
  rewrite (usage_insert k k' s sq' Hto Hsq'), Hu', Htab.
  rewrite <- Hl, (proj1 (seqLen_repr _ _ s Hr)), (proj1 (seqLen_repr _ _ s H)), lookup_insert_eq. simpl.
  rewrite length_app. simpl. do 2 f_equal. lia.
Qed.

Lemma releaseBlock_total k b r : totalBlocks (releaseBlock k b r) = totalBlocks k.
Proof. unfold releaseBlock, totalBlocks. repeat case_match; cbn; by rewrite ?length_insert. Qed.

Lemma freeSequence_total k s : totalBlocks (freeSequence k s) = totalBlocks k.
Proof.
  unfold freeSequence. destruct (seqs_ k !! s) as [sq|]; [|done].
  change (totalBlocks (foldl (fun k b => releaseBlock k b true) k (blockTable sq)) = totalBlocks k).
  apply (foldl_inv (fun k' => totalBlocks k' = totalBlocks k)); [done|]. intros. by rewrite releaseBlock_total.
Qed.

(** The paged cache keeps the scheduler's laws. *)
#[export] Program Instance kvcache_laws : KvLaws t := {
  kvOk k := exists c, repr k c;
  kvSlots k := usage <$> seqs_ k;
}.
Next Obligation.
  intros k [c H]. cbn. split; [apply (cfg_bs _ (inv_cfg _ (repr_inv _ _ H)))|]. unfold freeBlocks, totalBlocks. lia.
Qed.
Next Obligation.
  intros k s _. cbn. unfold hasSequence. apply bool_decide_ext. by rewrite lookup_fmap, fmap_is_Some.
Qed.
Next Obligation.
  intros k s cap Hk Hs Hcap n Hn. cbn in *. rewrite lookup_fmap in Hs. apply fmap_None in Hs.
  destruct (reserve_law k s cap Hk Hs Hcap Hn) as (k' & ? & ? & ? & ? & ? & [? ?]%dims_cfg). exists k'. done.
Qed.
Next Obligation.
  intros k s ks vs len n Hk Hs Hks Hvs Hl Hr. cbn in *. rewrite lookup_fmap in Hs.
  destruct (append_law k s ks vs len n Hk Hs Hks Hvs Hl Hr) as (k' & E & ? & ? & ? & ? & [? ?]%dims_cfg).
  exists k'. split; [exact (f_equal (default (k, false)) E)|done].
Qed.
Next Obligation.
  intros k s [c H]. cbn. destruct (freeSequence_spec k c s H) as [Hr Hf].
  destruct (dims_cfg _ _ (freeSequence_dims k s)) as [? ?]. split_and!.
  - by eexists.
  - by rewrite freeSequence_seqs, fmap_delete.
  - unfold freeBlocks. rewrite Hf, length_app, length_rev, lookup_fmap. unfold blockTableOf.
    destruct (seqs_ k !! s); simpl; lia.
  - apply freeSequence_total.
  - done.
  - done.
Qed.

(** A new cache is empty. *)
Lemma create_empty nb bs nh hd dt k : create nb bs nh hd dt = Ok k ->
  kvOk k /\ kvSlots k = ∅ /\ kvFreeBlocks k = kvTotalBlocks k.
Proof.
  intros Hc. destruct (create_spec _ _ _ _ _ _ Hc) as (H & Ht & _ & _ & _ & Hf). cbn. split_and!; [by eexists| |lia].
  apply map_eq. intros s. rewrite lookup_fmap, lookup_empty. pose proof (repr_seq _ _ H s) as Hr.
  rewrite lookup_empty in Hr. by inversion Hr.
Qed.
End PagedCache.

#[export] Existing Instance PagedCache.kvcache_laws.

(** Sorting the queued requests by arrival. *)
Definition order_le (e1 e2 : QueuedRequest) : Prop := order e1 <= order e2.

#[local] Instance order_le_dec e1 e2 : Decision (order_le e1 e2).
Proof. unfold order_le. apply _. Defined.
#[local] Instance order_le_trans : Transitive order_le.
Proof. unfold order_le. intros ???. lia. Qed.
#[local] Instance order_le_total : Total order_le.
Proof. unfold order_le. intros ??. lia. Qed.

(** ** Traces of operations *)

Inductive op :=
| AddRequest (rid promptLen maxNewTokens : Z)
| CancelRequest (rid : Z)
| SetTokenExecutor (present : bool)
| Step.

Section Traces.
Context {K : Type} {KA : KvApi K} {L : KvLaws K}.
Context {X : Type}.
Context (executor : X -> Request -> ScheduledTokenPhase -> Z -> X * list Reentrant * Outcome).
Implicit Types (s : t K).

Definition run_op (sx : t K * X) (o : op) : t K * X :=
  let '(s, x) := sx in
  match o with
  | AddRequest rid p m => (match addRequest s rid p m with Ok s => s | Err _ => s end, x)
  | CancelRequest rid => ((cancelRequest s rid).1, x)
  | SetTokenExecutor b => (setTokenExecutor s b, x)
  | Step => let '(s, x, _) := step executor s x in (s, x)
  end.

Definition run (sx : t K * X) (ops : list op) : t K * X := foldl run_op sx ops.

(** The policy, on the lists of waiting and running requests. *)
Definition spec_op (bs total maxBatch : Z) (WR : list Request * list Request) (o : op) : list Request * list Request :=
  let '(W, R) := WR in
  match o with
  | AddRequest rid p m => (spec_add bs total rid p m W R, R)
  | CancelRequest rid => spec_cancel rid W R
  | SetTokenExecutor _ => (W, R)
  | Step => spec_step bs total maxBatch W R
  end.

Lemma queued_empty n : queued (replicate n None) = [].
Proof. induction n as [|n IH]; [done|]. unfold queued in *. simpl. exact IH. Qed.

Lemma create_rinv (k : K) maxBatch : kvOk k -> kvSlots k = ∅ -> kvFreeBlocks k = kvTotalBlocks k ->
  rinv (kvBlockSize k) (kvTotalBlocks k) (kvStride k) (create k maxBatch) /\
  maxBatch_ (create k maxBatch) = Z.max 1 maxBatch.
Proof.
  intros Hok Hs Hf. destruct (kv_config k Hok) as (Hb & Hf0 & Ht).
  assert (maxBatch_ (create k maxBatch) = Z.max 1 maxBatch) as Hm by (unfold create; cbn [maxBatch_]; destruct (Z.ltb_spec maxBatch 1); lia).
  split; [|exact Hm]. split; [|done|rewrite Hm; lia|rewrite Hm; cbn [create running_ length]; lia|by intros [|]].
  unfold create. set (n := S (Z.to_nat (kvTotalBlocks k))). set (mb := if _ <? 1 then _ else _). cbv zeta.
  set (s := mk _ _ _ _ _ _ _ _ _ _ _ _ _ _ _ _).
  assert (queued (waitingByBlocks_ s) = []) as Hq by apply queued_empty.
  split; [|split; try done; cbn; by rewrite length_replicate| |by constructor].
  2: { split; try done; cbn; [constructor|lia]. }
  split; rewrite ?Hq; try done; try apply NoDup_nil_2.
  - destruct (leafCount_ok n) as (p & Hp & Hn). exists p. cbn [s waitingTreeBase_ waitingByBlocks_ waitingTree_].
    rewrite Hp, !length_replicate. split_and!; [done|done|lia|apply tree_ok_init].
  - intros b o Hbo. apply (lookup_replicate n) in Hbo as [-> _]. done.
Qed.

Lemma setTokenExecutor_rinv bs total stride s b : rinv bs total stride s -> rinv bs total stride (setTokenExecutor s b).
Proof.
  intros [[Hw Hc Hk Hr] Hin Hmax Hlen Herr]. split; try done.
  split; [by eapply winv_same|by destruct Hc; split|done|done].
Qed.

Lemma run_op_rinv bs total stride s x o : rinv bs total stride s ->
  rinv bs total stride (run_op (s, x) o).1 /\ maxBatch_ (run_op (s, x) o).1 = maxBatch_ s.
Proof.
  intros H. destruct o as [rid p m|rid|b|]; simpl.
  - by destruct (addRequest_spec bs total stride s rid p m H) as (? & ? & _).
  - by destruct (cancelRequest_spec bs total stride s rid H) as (? & ? & _).
  - by split; [apply setTokenExecutor_rinv|].
  - destruct (step executor s x) as [[s' x'] c] eqn:E.
    by destruct (step_spec executor bs total stride s x s' x' c H E) as (? & ? & _).
Qed.

Lemma run_rinv bs total stride ops : forall s x, rinv bs total stride s ->
  rinv bs total stride (run (s, x) ops).1 /\ maxBatch_ (run (s, x) ops).1 = maxBatch_ s.
Proof.
  induction ops as [|o ops IH]; intros s x H; [done|].
  change (run (s, x) (o :: ops)) with (run (run_op (s, x) o) ops).
  destruct (run_op_rinv bs total stride s x o H) as [H1 H2]. destruct (run_op (s, x) o) as [s1 x1].
  cbn [fst] in *. rewrite <- H2. by apply IH.
Qed.

(** From a new scheduler with the executor set, a trace follows the policy. *)
Lemma run_spec bs total stride ops : forall s x W, rinv bs total stride s -> valid_executor executor stride ->
  tokenExecutor_ s = true -> Forall (fun o => o <> SetTokenExecutor false) ops ->
  nextWaitingOrder_ s + Z.of_nat (length ops) <= U64_MAX -> arrival s W ->
  let s' := (run (s, x) ops).1 in
  let '(W', R') := foldl (spec_op bs total (maxBatch_ s)) (W, running_ s) ops in
  arrival s' W' /\ running_ s' = R' /\ tokenExecutor_ s' = true /\
  nextWaitingOrder_ s' <= nextWaitingOrder_ s + Z.of_nat (length ops).
Proof.
  induction ops as [|o ops IH]; intros s x W H Hv Hex Hops Hlen HW.
  { cbn. split_and!; [done..|lia]. }
  apply Forall_cons in Hops as [Ho Hops]. cbn [run foldl length] in *.
  assert (exists s1 x1 W1 R1, run_op (s, x) o = (s1, x1) /\ spec_op bs total (maxBatch_ s) (W, running_ s) o = (W1, R1) /\
    rinv bs total stride s1 /\ maxBatch_ s1 = maxBatch_ s /\ tokenExecutor_ s1 = true /\ arrival s1 W1 /\ running_ s1 = R1 /\
    nextWaitingOrder_ s1 <= nextWaitingOrder_ s + 1) as (s1 & x1 & W1 & R1 & E1 & E2 & H1 & Hm & Hex1 & HW1 & <- & Hn).
  { destruct o as [rid p m|rid|b|]; cbn [run_op spec_op].
    - destruct (addRequest_spec bs total stride s rid p m H) as (? & ? & He & ? & Ha).
      destruct (Ha ltac:(lia) W HW). eexists _, _, _, _. split_and!; [done..|by rewrite He|done|done|lia].
    - destruct (cancelRequest_spec bs total stride s rid H) as (? & ? & He & Hn & Ha). specialize (Ha W HW).
      destruct (spec_cancel rid W (running_ s)) as [W1 R1]. destruct Ha. eexists _, _, _, _.
      split_and!; [done..|by rewrite He|done|done|lia].
    - destruct b; [|done]. eexists _, _, _, _. split_and!; [done|done|by apply setTokenExecutor_rinv|done|done|done|done|cbn; lia].
    - destruct (step executor s x) as [[s1 x1] c] eqn:E.
      destruct (step_spec executor bs total stride s x s1 x1 c H E) as (? & ? & He & Hs).
      destruct (Hs Hex Hv) as (_ & _ & Hn & _ & Ha). specialize (Ha W HW).
      destruct (spec_step _ _ _ _ _) as [W1 R1]. destruct Ha. eexists _, _, _, _.
      split_and!; [done..|by rewrite He|done|done|lia]. }
  rewrite E1, E2, <- Hm. specialize (IH s1 x1 W1 H1 Hv Hex1 Hops ltac:(lia) HW1). unfold run in *.
  destruct (foldl _ (W1, running_ s1) ops) as [W' R']. destruct IH as (? & ? & ? & ?). split_and!; [done..|lia].
Qed.

(** ** Every request finishes *)

(** What is left to do: a decode per missing token, and the steps that accept
    and retire. *)
Definition weight (r : Request) : Z := maxNewTokens r - generated r.

Definition work (W R : list Request) : Z :=
  foldr (fun r a => weight r + 2 + a) 0 W + foldr (fun r a => weight r + 1 + a) 0 R.

Definition weight_ok (r : Request) : Prop := 0 <= weight r.

Lemma work_R_app R1 R2 : foldr (fun r a => weight r + 1 + a) 0 (R1 ++ R2) =
  foldr (fun r a => weight r + 1 + a) 0 R1 + foldr (fun r a => weight r + 1 + a) 0 R2.
Proof. induction R1; simpl; lia. Qed.

Lemma work_W_app W1 W2 : foldr (fun r a => weight r + 2 + a) 0 (W1 ++ W2) =
  foldr (fun r a => weight r + 2 + a) 0 W1 + foldr (fun r a => weight r + 2 + a) 0 W2.
Proof. induction W1; simpl; lia. Qed.

Lemma work_W_nonneg W : Forall weight_ok W -> 0 <= foldr (fun r a => weight r + 2 + a) 0 W.
Proof. induction 1 as [|r W Hr _ IH]; simpl; [lia|]. unfold weight_ok in Hr. lia. Qed.

Lemma work_R_nonneg R : Forall weight_ok R -> Z.of_nat (length R) <= foldr (fun r a => weight r + 1 + a) 0 R.
Proof. induction 1 as [|r R Hr _ IH]; simpl; [lia|]. unfold weight_ok in Hr. lia. Qed.

Lemma admit_work bs n : forall free W R, let '(W', R') := spec_admit bs n free W R in
  exists R2, R' = R ++ R2 /\ work W' R' = work W R - Z.of_nat (length R2) /\
    Z.of_nat (length W') = Z.of_nat (length W) - Z.of_nat (length R2) /\
    (takeFit bs free W <> None -> n <> O -> R2 <> []) /\
    (Forall weight_ok W -> Forall weight_ok W' /\ Forall weight_ok R2).
Proof.
  induction n as [|n IH]; intros free W R; simpl.
  { exists []. rewrite app_nil_r. simpl. split_and!; [done|lia|lia|done|by auto]. }
  destruct (takeFit bs free W) as [[r W1]|] eqn:E.
  2: { exists []. rewrite app_nil_r. simpl. split_and!; [done|lia|lia|done|by auto]. }
  apply takeFit_Some in E as (V1 & V2 & -> & -> & _).
  specialize (IH (free - needs bs r) (V1 ++ V2) (R ++ [with_state r RUNNING])).
  destruct (spec_admit _ _ _ _ _) as [W' R']. destruct IH as (R2 & -> & Hw & Hl & _ & Hok).
  exists (with_state r RUNNING :: R2). split_and!; [by rewrite <- app_assoc| | |done|].
  - unfold work in *. rewrite Hw, work_R_app, !work_W_app. unfold with_state, weight. simpl. lia.
  - rewrite Hl, !length_app. simpl. lia.
  - intros [H1 [H2 H3]%Forall_cons]%Forall_app. destruct Hok as [? ?]; [by apply Forall_app|].
    split; [done|]. by constructor.
Qed.

Lemma decode_work R : Forall weight_ok R ->
  foldr (fun r a => weight r + 1 + a) 0 (spec_decode <$> R) =
  foldr (fun r a => weight r + 1 + a) 0 R - Z.of_nat (length (filter (fun r => is_done r = false) R)).
Proof.
  induction 1 as [|r R Hr _ IH]; [done|]. rewrite fmap_cons, filter_cons. cbn [foldr]. rewrite IH. unfold spec_decode at 1.
  destruct (is_done r); [rewrite decide_False by done|rewrite decide_True by done; unfold weight; cbn [length maxNewTokens generated]]; lia.
Qed.

Lemma filter_done_work R : Forall weight_ok R ->
  foldr (fun r a => weight r + 1 + a) 0 (filter (fun r => is_done r = false) R) <=
    foldr (fun r a => weight r + 1 + a) 0 R - Z.of_nat (length (filter (fun r => is_done r = true) R)) /\
  (length (filter (fun r => is_done r = false) R) + length (filter (fun r => is_done r = true) R) = length R)%nat.
Proof.
  induction 1 as [|r R Hr _ [IH1 IH2]]; simpl; [lia|]. rewrite !filter_cons. unfold weight_ok in Hr.
  destruct (is_done r); [rewrite decide_False, decide_True by done|rewrite decide_True, decide_False by done]; cbn [length foldr]; lia.
Qed.

(** A step of the policy does some of the work, unless nothing is left. *)
Lemma spec_step_work bs total maxBatch W R : 1 <= maxBatch -> Forall weight_ok W -> Forall weight_ok R ->
  Forall (fun r => needs bs r <= total) W -> (W, R) <> ([], []) ->
  let '(W', R') := spec_step bs total maxBatch W R in work W' R' < work W R.
Proof.
  intros Hmax HW HR Hfit Hne. unfold spec_step. set (R1 := filter (fun r => is_done r = false) R).
  destruct (filter_done_work R HR) as [Hfw Hfl]. fold R1 in Hfw, Hfl.
  pose proof (admit_work bs (Z.to_nat (maxBatch - Z.of_nat (length R1))) (total - blocksUsed bs R1) W R1) as Hadm.
  destruct (spec_admit _ _ _ _ _) as [W' R2]. destruct Hadm as (R3 & -> & Hw & _ & Hsome & Hok).
  destruct (Hok HW) as [_ HR3].
  assert (Forall weight_ok R1) as HR1.
  { unfold R1. rewrite Forall_forall in *. intros r [_ ?]%list_elem_of_filter. by apply HR. }
  assert (filter (fun r => is_done r = false) R1 = R1) as Hidem.
  { apply filter_all, Forall_forall. intros r [? _]%list_elem_of_filter. done. }
  unfold work in *. rewrite decode_work, filter_app, length_app, Hidem by (by apply Forall_app).
  destruct R1 as [|r1 R1'] eqn:E1; [|simpl in *; lia].
  destruct (decide (filter (fun r => is_done r = true) R = [])) as [Ed|Ed].
  - rewrite Ed in Hfl. destruct R as [|? ?]; [|done]. destruct W as [|r W]; [done|].
    apply Forall_cons in Hfit as [Hr _]. destruct R3 as [|? ?]; [|simpl in *; lia].
    exfalso. apply Hsome; [|simpl; lia|done]. simpl. unfold blocksUsed. simpl. rewrite Z.sub_0_r.
    by rewrite (proj2 (Z.leb_le _ _) Hr).
  - destruct (filter (fun r => is_done r = true) R); [done|]. simpl in *. lia.
Qed.

Lemma arrival_ok bs total stride s W : rinv bs total stride s -> arrival s W ->
  Forall weight_ok W /\ Forall weight_ok (running_ s) /\ Forall (fun r => needs bs r <= total) W /\
  waitingCount_ s = Z.of_nat (length W).
Proof.
  intros [[Hw Hc Hk Hr] _ _ _ _] (A & _ & Hp & ->). rewrite !Forall_fmap. split_and!.
  - apply Forall_forall. intros e He. rewrite Hp in He. destruct (winv_elem _ _ _ _ Hw He) as ((_ & Hq & Hg & _) & _).
    destruct Hq as (? & ? & _). unfold weight_ok, weight. simpl. lia.
  - eapply Forall_impl; [exact Hr|]. intros r (_ & ? & _). unfold weight_ok, weight. lia.
  - apply Forall_forall. intros e He. rewrite Hp in He. destruct (winv_elem _ _ _ _ Hw He) as ((_ & Hq & _) & Hlt & _).
    destruct Hc as [_ _ [Hb Ht] Hl]. simpl. lia.
  - rewrite (w_count _ _ _ Hw), <- Hp. by rewrite length_fmap.
Qed.

Lemma arrival_exists bs R s : winv bs R s -> exists W, arrival s W.
Proof.
  intros Hw. set (A := merge_sort order_le (queued (waitingByBlocks_ s))).
  assert (A ≡ₚ queued (waitingByBlocks_ s)) as Hp by apply merge_sort_Permutation.
  exists (request <$> A), A. split_and!; [|done|done].
  assert (NoDup (order <$> A)) as Hn by (rewrite Hp; apply Hw).
  assert (StronglySorted order_le A) as Hs by apply (StronglySorted_merge_sort order_le).
  clear Hp. revert Hn. induction Hs as [|e l Hs IH Hf]; intros Hn; [constructor|].
  rewrite fmap_cons in Hn. apply NoDup_cons in Hn as [Hni Hn]. constructor; [by apply IH|].
  rewrite Forall_forall in *. intros e' He'. specialize (Hf e' He'). unfold order_le in Hf. unfold before.
  assert (order e <> order e'); [|lia]. intros E. apply Hni, list_elem_of_fmap. by exists e'.
Qed.

(** Enough steps finish everything. *)
Lemma steps_finish bs total stride n : forall s x W, rinv bs total stride s -> valid_executor executor stride ->
  tokenExecutor_ s = true -> arrival s W -> work W (running_ s) <= Z.of_nat n ->
  exists k, (k <= n)%nat /\ let s' := (run (s, x) (replicate k Step)).1 in
    allDone s' = true /\ finished_ s' = finished_ s + Z.of_nat (length W + length (running_ s)) /\
    rinv bs total stride s'.
Proof.
  induction n as [|n IH]; intros s x W H Hv Hex HW Hle;
    destruct (arrival_ok bs total stride s W H HW) as (HW0 & HR0 & Hfit & Hcnt);
    (destruct (decide ((W, running_ s) = ([], []))) as [E|E];
     [injection E as -> E; exists O; split; [lia|]; cbn [run replicate foldl fst]; unfold allDone; rewrite Hcnt, E;
      split_and!; [done|simpl; lia|done]|]).
  - pose proof (work_W_nonneg W HW0). pose proof (work_R_nonneg _ HR0). unfold work in Hle.
    destruct W as [|r W]; [|apply Forall_cons in HW0 as [? ?%work_W_nonneg]; unfold weight_ok in *; simpl in *; lia].
    destruct (running_ s) as [|r R]; [done|]. simpl in *. lia.
  - destruct (step executor s x) as [[s1 x1] c] eqn:Est.
    destruct (step_spec executor bs total stride s x s1 x1 c H Est) as (H1 & Hm1 & Hex1 & Hs1).
    destruct (Hs1 Hex Hv) as (_ & _ & _ & Hfin & Hsim). specialize (Hsim W HW).
    pose proof (spec_step_work bs total (maxBatch_ s) W (running_ s) (r_max _ _ _ _ H) HW0 HR0 Hfit E) as Hdec.
    assert (let '(W', R') := spec_step bs total (maxBatch_ s) W (running_ s) in
      (length W' + length R' + length (filter (fun r => is_done r = true) (running_ s)) = length W + length (running_ s))%nat) as Hcons.
    { unfold spec_step. destruct (filter_done_work _ HR0) as [_ Hfl]. set (R1 := filter (fun r => is_done r = false) (running_ s)) in *.
      pose proof (admit_work bs (Z.to_nat (maxBatch_ s - Z.of_nat (length R1))) (total - blocksUsed bs R1) W R1) as Hadm.
      destruct (spec_admit _ _ _ _ _) as [W' R2]. destruct Hadm as (R3 & -> & _ & Hl & _).
      cbv beta iota zeta. rewrite length_fmap, length_app. lia. }
    destruct (spec_step _ _ _ _ _) as [W1 R1]. destruct Hsim as [HW1 HR1]. rewrite <- HR1 in Hdec, Hcons.
    destruct (IH s1 x1 W1 H1 Hv ltac:(by rewrite Hex1) HW1 ltac:(lia)) as (k & Hk & Hdone & Hfin' & Hinv).
    exists (S k). split; [lia|].
    assert (run (s, x) (replicate (S k) Step) = run (s1, x1) (replicate k Step)) as -> by (cbn; by rewrite Est).
    split_and!; [done|rewrite Hfin', Hfin; lia|done].
Qed.

End Traces.

(** ** The serving system: the scheduler on a paged cache *)

Section Serving.
Context {X : Type}.
Context (executor : X -> Request -> ScheduledTokenPhase -> Z -> X * list Reentrant * Outcome).

(** The state after some operations on a new scheduler over cache [k]. *)
Definition serve (k : KVCacheManager.t) (maxBatch : Z) (x : X) (ops : list op) : t KVCacheManager.t :=
  (run executor (create k maxBatch, x) ops).1.

Lemma serve_rinv nb bs nh hd dt k maxBatch x ops : KVCacheManager.create nb bs nh hd dt = Ok k ->
  rinv bs nb (nh * hd) (serve k maxBatch x ops) /\ maxBatch_ (serve k maxBatch x ops) = Z.max 1 maxBatch.
Proof.
  intros Hc. destruct (KVCacheManager.create_spec _ _ _ _ _ _ Hc) as (H & Ht & Hb & Hnh & Hhd & Hf).
  destruct (PagedCache.create_empty _ _ _ _ _ _ Hc) as (Hok & Hs & Hf').
  destruct (create_rinv k maxBatch Hok Hs Hf') as [Hr Hm]. cbn in Hr. rewrite Ht, Hb, Hnh, Hhd in Hr.
  destruct (run_rinv executor bs nb (nh * hd) ops _ x Hr) as [? E]. split; [done|]. unfold serve. by rewrite E.
Qed.

End Serving.

(** The identifiers that wait. *)
Definition waitingIds {K} (s : t K) : list Z := eid <$> queued (waitingByBlocks_ s).

(** C19: a scheduler whose cache nothing else uses (neither another component
    nor the executor directly) stays consistent with it whatever the executor returns or throws and however it calls
    [addRequest], [cancelRequest] and [step] meanwhile.  In every state such a
    scheduler can reach, no identifier is waiting or running twice; the cache holds exactly
    the sequences of the running requests, each with its prompt and generated
    tokens and with the blocks of its full length reserved; the free blocks
    are all the others; and the batch limit holds. *)
Theorem serving_invariant {X} (executor : X -> Request -> ScheduledTokenPhase -> Z -> X * list Reentrant * Outcome)
    nb bs nh hd dt k maxBatch x ops :
  KVCacheManager.create nb bs nh hd dt = Ok k ->
  let s := serve executor k maxBatch x ops in
  NoDup (waitingIds s ++ (id <$> running_ s)) /\
  waitingCount_ s = Z.of_nat (length (waitingIds s)) /\
  activeRequestIds_ s = list_to_set (waitingIds s ++ (id <$> running_ s)) /\
  PagedCache.usage <$> KVCacheManager.seqs_ (kv_ s) =
    list_to_map ((fun r => (id r, (promptLen r + generated r, blocksFor s (promptLen r + maxNewTokens r)))) <$> running_ s) /\
  KVCacheManager.freeBlocks (kv_ s) + foldr (fun r a => blocksFor s (promptLen r + maxNewTokens r) + a) 0 (running_ s) = nb /\
  Forall (fun r => 0 <= generated r <= maxNewTokens r) (running_ s) /\
  Z.of_nat (length (running_ s)) <= Z.max 1 maxBatch.
Proof.
  intros Hc s. destruct (serve_rinv executor nb bs nh hd dt k maxBatch x ops Hc) as [[[Hw Hkc Hk Hr] _ _ Hl _] Hm].
  fold s in Hw, Hkc, Hk, Hr, Hl, Hm. rewrite Hm in Hl.
  assert (forall n, blocksFor s n = blocksOf bs n) as Hbf by (intros n; unfold blocksFor; by rewrite (c_bs _ _ _ Hkc)).
  split_and!; [apply Hw| |apply Hw| | | |done].
  - unfold waitingIds. rewrite length_fmap. apply Hw.
  - etransitivity; [exact (k_slots _ _ _ _ _ Hk)|]. f_equal. apply list_fmap_ext. intros i r _. by rewrite Hbf.
  - pose proof (k_free _ _ _ _ _ Hk) as Hf. cbn in Hf. rewrite <- Hf. f_equal. clear -Hbf.
    induction (running_ s) as [|r l IH]; [done|]. cbn [foldr fmap list_fmap blocksHeld]. rewrite Hbf.
    unfold blocksHeld in IH. cbn [slotOf snd]. by rewrite IH.
  - eapply Forall_impl; [exact Hr|]. by intros r (_ & ? & _).
Qed.

(** A model whose K and V are constant. *)
Definition constModel (x : unit) (r : Request) (ph : ScheduledTokenPhase) (pos : Z) : unit * list Reentrant * Outcome :=
  (tt, [], Output (replicate 2 (f32_of_Z 1)) (replicate 2 (f32_of_Z 2))).

(** A model that adds a request from inside a step and then fails. *)
Definition badModel (x : unit) (r : Request) (ph : ScheduledTokenPhase) (pos : Z) : unit * list Reentrant * Outcome :=
  (tt, [CallAdd 9 1 1; CallStep], if pos =? 2 then Threw else Output (replicate 2 (f32_of_Z 1)) (replicate 2 (f32_of_Z 2))).

Lemma serving_invariant_witness :
  exists k, KVCacheManager.create 4 2 1 2 KVCacheManager.F32 = Ok k /\
  let s := serve badModel k 2 tt [SetTokenExecutor true; AddRequest 1 1 1; AddRequest 2 3 1; Step; Step] in
  KVCacheManager.freeBlocks (kv_ s) + foldr (fun r a => blocksFor s (promptLen r + maxNewTokens r) + a) 0 (running_ s) = 4.
Proof.
  destruct (KVCacheManager.create 4 2 1 2 KVCacheManager.F32) as [k|] eqn:E; [|vm_compute in E; discriminate E].
  exists k. split; [reflexivity|].
  apply (serving_invariant badModel 4 2 1 2 KVCacheManager.F32 k 2 tt _ E).
Defined.

(** A step that finds the sequence of the request it would admit held by
    somebody else fails, and changes nothing but the error. *)
Lemma step_conflict {K X} `{KvApi K} (executor : X -> Request -> ScheduledTokenPhase -> Z -> X * list Reentrant * Outcome)
    (s : t K) x b e q :
  inStep_ s = false -> tokenExecutor_ s = true ->
  Forall (fun r => is_done r = false) (running_ s) -> Z.of_nat (length (running_ s)) < maxBatch_ s ->
  oldestEligibleWaitingBucket s (kvFreeBlocks (kv_ s)) (nextWaitingOrder_ s) = b ->
  waitingByBlocks_ s !! b = Some (Some (e :: q)) -> kvHasSequence (kv_ s) (eid e) = true ->
  step executor s x = (set_error s CACHE_RESERVATION_FAILURE, x, -1).
Proof.
  intros Hin Hex Hrun Hlen Hb He Hhas.
  assert (forall l s0, Forall (fun r => is_done r = false) l -> foldl retire1 s0 l = s0) as Hret.
  { intros l s0 HF. revert s0. induction HF as [|r l Hr _ IH]; intros s0; [done|]. cbn [foldl].
    replace (retire1 s0 r) with s0 by (unfold retire1; by rewrite Hr). apply IH. }
  unfold step. cbn [set_error inStep_ tokenExecutor_ nextWaitingOrder_]. rewrite Hin, Hex. cbn [negb andb].
  unfold retire. rewrite Hret by done. cbn [running_ set_inStep set_error].
  rewrite filter_all by done. cbn [set_running maxBatch_ running_ set_inStep set_error].
  destruct (Z.to_nat (maxBatch_ s - Z.of_nat (length (running_ s)))) as [|n] eqn:En; [lia|].
  apply lookup_lt_Some in He as Hlt.
  unfold oldestEligibleWaitingBucket in Hb. destruct s; cbn in *. unfold oldestEligibleWaitingBucket; cbn. rewrite Hb, (proj2 (Nat.eqb_neq _ _)) by lia. rewrite He. unfold eid in Hhas.
  rewrite Hhas. cbn. by subst.
Qed.

(** C21: a request is admitted only with its whole capacity reserved.  So long
    as the scheduler is the only user of its cache, no step fails inside the
    cache: the errors [CACHE_RESERVATION_FAILURE] and [CACHE_APPEND_FAILURE]
    are never reported.  On a cache [k'] that another component has changed,
    where it holds the sequence of the request to be admitted, the step
    returns -1 with [CACHE_RESERVATION_FAILURE], and the cache, the waiting
    and the running requests stay as they are, for a later step to retry. *)
Theorem serving_no_cache_failure {X} (executor : X -> Request -> ScheduledTokenPhase -> Z -> X * list Reentrant * Outcome)
    nb bs nh hd dt k maxBatch x ops :
  KVCacheManager.create nb bs nh hd dt = Ok k ->
  let s := serve executor k maxBatch x ops in
  lastError_ s <> CACHE_RESERVATION_FAILURE /\ lastError_ s <> CACHE_APPEND_FAILURE /\
  forall k' y e q, let s' := set_kv s k' in
    tokenExecutor_ s = true -> Forall (fun r => is_done r = false) (running_ s) ->
    Z.of_nat (length (running_ s)) < Z.max 1 maxBatch ->
    waitingByBlocks_ s !! oldestEligibleWaitingBucket s' (KVCacheManager.freeBlocks k') (nextWaitingOrder_ s) = Some (Some (e :: q)) ->
    KVCacheManager.hasSequence k' (eid e) = true ->
    step executor s' y = (set_error s' CACHE_RESERVATION_FAILURE, y, -1).
Proof.
  intros Hc s. destruct (serve_rinv executor nb bs nh hd dt k maxBatch x ops Hc) as [[_ Hin _ _ He] Hm].
  split_and!; [intros E; apply He; by right|intros E; apply He; by left|].
  intros k' y e q s' Hex Hrun Hlen Hq Hhas. eapply step_conflict; [exact Hin|exact Hex|exact Hrun| |reflexivity|exact Hq|exact Hhas].
  change (maxBatch_ s') with (maxBatch_ s). unfold s. rewrite Hm. exact Hlen.
Qed.

(** First a model that fails; then the conflict the repository's test makes:
    request 88 waits, somebody else reserves sequence 88, and one block of the
    two stays free. *)
Lemma serving_no_cache_failure_witness :
  (exists k, KVCacheManager.create 4 2 1 2 KVCacheManager.F32 = Ok k /\
   let s := serve badModel k 2 tt [SetTokenExecutor true; AddRequest 1 1 1; AddRequest 2 3 1; Step] in
   lastError_ s = EXECUTOR_FAILURE /\ lastError_ s <> CACHE_RESERVATION_FAILURE) /\
  (exists k, KVCacheManager.create 2 1 1 1 KVCacheManager.F32 = Ok k /\
   let s := serve constModel k 1 tt [SetTokenExecutor true; AddRequest 88 1 0] in
   let s' := set_kv s (KVCacheManager.reserveSequenceCapacity (kv_ s) 88 1).1 in
   step constModel s' tt = (set_error s' CACHE_RESERVATION_FAILURE, tt, -1) /\
   waitingCount_ s' = 1 /\ KVCacheManager.freeBlocks (kv_ s') = 1).
Proof.
  split.
  - destruct (KVCacheManager.create 4 2 1 2 KVCacheManager.F32) as [k|] eqn:E; [|vm_compute in E; discriminate E].
    exists k. split; [reflexivity|]. split.
    + vm_compute in E. injection E as <-. vm_compute. reflexivity.
    + apply (serving_no_cache_failure badModel 4 2 1 2 KVCacheManager.F32 k 2 tt _ E).
  - destruct (KVCacheManager.create 2 1 1 1 KVCacheManager.F32) as [k|] eqn:E; [|vm_compute in E; discriminate E].
    exists k. split; [reflexivity|].
    destruct (serving_no_cache_failure constModel 2 1 1 1 KVCacheManager.F32 k 1 tt
      [SetTokenExecutor true; AddRequest 88 1 0] E) as (_ & _ & Hshared).
    vm_compute in E. injection E as <-. split.
    + eapply Hshared; vm_compute; try reflexivity. constructor.
    + split; vm_compute; reflexivity.
Defined.

(** The segment tree finds what a scan of all waiting requests would.  In
    every reachable state the query returns the queue whose front is the oldest
    waiting request that needs at most [available] blocks, if it arrived
    before [limit]; and no queue exactly if there is no such request. *)
Theorem oldest_eligible_exact {X} (executor : X -> Request -> ScheduledTokenPhase -> Z -> X * list Reentrant * Outcome)
    nb bs nh hd dt k maxBatch x ops available limit :
  KVCacheManager.create nb bs nh hd dt = Ok k ->
  let s := serve executor k maxBatch x ops in
  let b := oldestEligibleWaitingBucket s available limit in
  (b = length (waitingByBlocks_ s) /\
   forall e, e ∈ queued (waitingByBlocks_ s) -> needs bs (request e) <= available -> limit <= order e) \/
  (exists e q, waitingByBlocks_ s !! b = Some (Some (e :: q)) /\ needs bs (request e) <= available /\ order e < limit /\
     forall e', e' ∈ queued (waitingByBlocks_ s) -> needs bs (request e') <= available -> order e <= order e').
Proof.
  intros Hc s b. destruct (serve_rinv executor nb bs nh hd dt k maxBatch x ops Hc) as [[[Hw Hkc _ _] _ _ _ _] _].
  fold s in Hw, Hkc. apply (query_spec bs _ s available limit Hw); [apply Hkc|]. rewrite (c_len _ _ _ Hkc). lia.
Qed.

Lemma oldest_eligible_exact_witness :
  exists k, KVCacheManager.create 4 2 1 2 KVCacheManager.F32 = Ok k /\
  let s := serve badModel k 2 tt [AddRequest 1 5 3; AddRequest 2 3 1; AddRequest 3 1 1] in
  let b := oldestEligibleWaitingBucket s 3 3 in
  b = 2%nat /\
  ((b = length (waitingByBlocks_ s) /\
   forall e, e ∈ queued (waitingByBlocks_ s) -> needs 2 (request e) <= 3 -> 3 <= order e) \/
  (exists e q, waitingByBlocks_ s !! b = Some (Some (e :: q)) /\ needs 2 (request e) <= 3 /\ order e < 3 /\
     forall e', e' ∈ queued (waitingByBlocks_ s) -> needs 2 (request e') <= 3 -> order e <= order e')).
Proof.
  destruct (KVCacheManager.create 4 2 1 2 KVCacheManager.F32) as [k|] eqn:E; [|vm_compute in E; discriminate E].
  exists k. split; [reflexivity|]. split.
  - vm_compute in E. injection E as <-. vm_compute. reflexivity.
  - apply (oldest_eligible_exact badModel 4 2 1 2 KVCacheManager.F32 k 2 tt _ 3 3 E).
Defined.


Lemma constModel_valid : valid_executor constModel 2.
Proof. intros [] r ph pos. exists tt. eexists _, _. repeat split. Qed.




(** A step that succeeds still reports [REENTRANT_STEP] when the model called
    [step] from inside it. *)
Example reentrant_error_survives :
  exists k, KVCacheManager.create 4 2 1 2 KVCacheManager.F32 = Ok k /\
  exists s x, step badModel (serve badModel k 2 tt [SetTokenExecutor true; AddRequest 1 1 1]) tt = (s, x, 1) /\
    lastError_ s = REENTRANT_STEP.
Proof.
  destruct (KVCacheManager.create 4 2 1 2 KVCacheManager.F32) as [k|] eqn:E; [|vm_compute in E; discriminate E].
  exists k. split; [reflexivity|]. vm_compute in E. injection E as <-. eexists _, _. vm_compute. split; reflexivity.
Qed.

End BatchServing.
