(* ===== verification/TopoSort.v ===== *)
(** * Topological sorting of dependency graphs

    Model of the breadth-first (Kahn) sort that [GraphManager::instantiate]
    (src/core/graph/graph_manager_nodes.cpp) uses to detect cycles and
    [topoSortNodes] (src/core/runtime_engine_graph.cpp) to order a dispatch.
    Nodes are positions of a vector; [preds] lists, for every node, the
    positions of its dependencies with repetitions. *)

From S2P Require Import Prelude.

Module TopoSort.

(** [adj[p].push_back(i); indegree[i]++] for the dependencies of node [i]. *)
Definition addEdges (st : list (list nat) * list Z) (ip : nat * list nat) : list (list nat) * list Z :=
  foldl (fun '(adj, indeg) p =>
    (alter (fun l => l ++ [ip.1]) p adj, alter (fun d => d + 1) ip.1 indeg)) st ip.2.

Definition buildEdges (preds : list (list nat)) : list (list nat) * list Z :=
  foldl addEdges (replicate (length preds) [], replicate (length preds) 0) (imap pair preds).

(** [if (--indegree[nxt] == 0) ready.push(nxt)]. *)
Definition relax (st : list Z * list nat) (nxt : nat) : list Z * list nat :=
  let d := st.1 !!! nxt - 1 in
  (<[nxt := d]> st.1, if d =? 0 then st.2 ++ [nxt] else st.2).

(** The queue loop; [None] if the fuel runs out. *)
Fixpoint kahn (fuel : nat) (adj : list (list nat)) (indeg : list Z) (ready out : list nat) : option (list nat) :=
  match ready with
  | [] => Some out
  | cur :: ready =>
      match fuel with
      | O => None
      | S fuel =>
          let '(indeg, ready) := foldl relax (indeg, ready) (adj !!! cur) in
          kahn fuel adj indeg ready (out ++ [cur])
      end
  end.

(** The order in which the nodes leave the queue.  [start] is the order in
    which the nodes without dependencies enter it. *)
Definition kahnOrder (start : list nat -> list nat) (preds : list (list nat)) : option (list nat) :=
  let '(adj, indeg) := buildEdges preds in
  kahn (length preds) adj indeg (start (filter (fun i => indeg !!! i = 0) (seq 0 (length preds)))) [].

(** ** Counting edges *)

Abbreviation cnt := (count_occ Nat.eq_dec).

Lemma cnt_snoc l x i : cnt (l ++ [x]) i = (cnt l i + if decide (x = i) then 1 else 0)%nat.
Proof. rewrite count_occ_app. simpl. destruct (Nat.eq_dec x i); case_decide; lia. Qed.

Section LookupTotal.
Context {A : Type} `{!Inhabited A}.

Lemma alter_eq (f : A -> A) (l : list A) i : (i < length l)%nat -> alter f i l !!! i = f (l !!! i).
Proof. intros. by rewrite list_lookup_total_alter, decide_True. Qed.

Lemma alter_ne (f : A -> A) (l : list A) i j : i <> j -> alter f i l !!! j = l !!! j.
Proof. intros. rewrite list_lookup_total_alter, decide_False; [done|]. tauto. Qed.

Lemma lookup_total_ge (l : list A) i : (length l <= i)%nat -> l !!! i = inhabitant.
Proof. intros. by rewrite list_lookup_total_alt, lookup_ge_None_2. Qed.

Lemma lookup_total_snoc (l : list A) x k : (l ++ [x]) !!! k =
  if decide (k = length l) then x else l !!! k.
Proof.
  case_decide as E; [subst k; by apply list_lookup_total_middle|].
  destruct (decide (k < length l)%nat); [by apply lookup_total_app_l|].
  rewrite !lookup_total_ge; rewrite ?length_app; simpl; try lia. done.
Qed.
End LookupTotal.

Lemma addEdges_spec adj indeg i ps adj' indeg' :
  addEdges (adj, indeg) (i, ps) = (adj', indeg') ->
  Forall (fun p => (p < length adj)%nat) ps -> (i < length indeg)%nat ->
  length adj' = length adj /\ length indeg' = length indeg /\
  (forall p k, (p < length adj)%nat ->
     cnt (adj' !!! p) k = (cnt (adj !!! p) k + if decide (k = i) then cnt ps p else 0)%nat) /\
  (forall k, indeg' !!! k = indeg !!! k + if decide (k = i) then Z.of_nat (length ps) else 0).
Proof.
  unfold addEdges. cbn [fst snd]. revert adj' indeg'.
  induction ps as [|p ps IH] using rev_ind; intros adj' indeg' H Hps Hi.
  { simplify_eq/=. split_and!; try done; intros; case_decide; lia. }
  rewrite foldl_snoc in H. apply Forall_app in Hps as [Hps [Hp _]%Forall_cons].
  destruct (foldl _ _ ps) as [adj1 indeg1] eqn:E. destruct (IH _ _ eq_refl Hps Hi) as (H1 & H2 & H3 & H4).
  simplify_eq. rewrite !length_alter. split_and!; [done|done| |].
  - intros q k Hq. specialize (H3 q k Hq). rewrite cnt_snoc.
    destruct (decide (p = q)) as [->|Hne].
    + rewrite alter_eq by lia. rewrite cnt_snoc, H3. repeat case_decide; subst; try done; lia.
    + rewrite alter_ne by done. rewrite H3. case_decide; lia.
  - intros k. specialize (H4 k). rewrite length_app. simpl. destruct (decide (k = i)) as [->|Hne].
    + rewrite alter_eq by lia. lia.
    + rewrite alter_ne by done. lia.
Qed.

Definition preds_ok (preds : list (list nat)) : Prop :=
  Forall (Forall (fun p => (p < length preds)%nat)) preds.

Lemma buildEdges_spec preds adj indeg : buildEdges preds = (adj, indeg) -> preds_ok preds ->
  length adj = length preds /\ length indeg = length preds /\
  (forall p k, (p < length preds)%nat -> (k < length preds)%nat -> cnt (adj !!! p) k = cnt (preds !!! k) p) /\
  (forall k, (k < length preds)%nat -> indeg !!! k = Z.of_nat (length (preds !!! k))).
Proof.
  unfold buildEdges, preds_ok. intros H Hok. set (n := length preds) in *.
  assert (forall l, (exists l2, preds = l ++ l2) -> forall adj indeg,
    foldl addEdges (replicate n [], replicate n 0) (imap pair l) = (adj, indeg) ->
    length adj = n /\ length indeg = n /\
    (forall p k, (p < n)%nat -> cnt (adj !!! p) k = cnt (l !!! k) p) /\
    (forall k, (k < n)%nat -> indeg !!! k = Z.of_nat (length (l !!! k)))) as Hgen.
  { clear H adj indeg. induction l as [|ps l IH] using rev_ind; intros [l2 Hl2] adj indeg H.
    - simplify_eq/=. rewrite !length_replicate. split_and!; [done|done| |].
      + intros p k Hp. by rewrite lookup_total_replicate_2 by done.
      + intros k Hk. by rewrite lookup_total_replicate_2.
    - rewrite imap_app in H. simpl in H. rewrite foldl_snoc in H. rewrite <- app_assoc in Hl2.
      destruct (foldl addEdges _ (imap pair l)) as [adj1 indeg1] eqn:E.
      destruct (IH ltac:(by eexists) _ _ eq_refl) as (H1 & H2 & H3 & H4).
      rewrite Hl2 in Hok. apply Forall_app in Hok as [_ [Hps _]%Forall_cons].
      assert (length l < n)%nat as Hln by (unfold n; rewrite Hl2, length_app; simpl; lia).
      rewrite Nat.add_0_r in H.
      destruct (addEdges_spec _ _ _ _ _ _ H) as (G1 & G2 & G3 & G4);
        [by rewrite H1|by rewrite H2|].
      split_and!; [congruence|congruence| |].
      + intros p k Hp. rewrite G3, H3, lookup_total_snoc by lia. case_decide as Hk; [|lia].
        subst k. by rewrite lookup_total_ge by lia.
      + intros k Hk'. rewrite G4, H4, lookup_total_snoc by done. case_decide as Hk; [|lia].
        subst k. rewrite lookup_total_ge by lia. simpl. lia. }
  destruct (Hgen preds ltac:(exists []; by rewrite app_nil_r) adj indeg H) as (H1 & H2 & H3 & H4).
  split_and!; auto.
Qed.

(** ** The queue loop *)

Lemma insert_total (l : list Z) i x k : (i < length l)%nat -> <[i := x]> l !!! k = if decide (k = i) then x else l !!! k.
Proof.
  intros Hi. rewrite !list_lookup_total_alt. case_decide as E.
  - subst k. by rewrite list_lookup_insert_eq.
  - by rewrite list_lookup_insert_ne.
Qed.

(** Decrementing the successors of a node: they lose one edge per occurrence,
    and exactly those whose last edge this was are queued, once each. *)
Lemma fold_relax l indeg q :
  Forall (fun k => (k < length indeg)%nat) l -> (forall k, Z.of_nat (cnt l k) <= indeg !!! k \/ cnt l k = O) ->
  exists indeg' ex, foldl relax (indeg, q) l = (indeg', q ++ ex) /\ length indeg' = length indeg /\
    (forall k, indeg' !!! k = indeg !!! k - Z.of_nat (cnt l k)) /\ NoDup ex /\
    (forall k, k ∈ ex <-> k ∈ l /\ indeg !!! k = Z.of_nat (cnt l k)).
Proof.
  revert indeg q. induction l as [|x l IH]; intros indeg q Hl Hc.
  { exists indeg, []. rewrite app_nil_r. simpl. split_and!; try done; [intros; lia|constructor|].
    intros k. rewrite elem_of_nil. tauto. }
  apply Forall_cons in Hl as [Hx Hl]. cbn [foldl]. set (d := indeg !!! x - 1).
  change (relax (indeg, q) x) with (<[x := d]> indeg, if d =? 0 then q ++ [x] else q).
  assert (forall k, <[x := d]> indeg !!! k = indeg !!! k - if decide (k = x) then 1 else 0) as Hins.
  { intros k. rewrite insert_total by done. case_decide; subst; lia. }
  assert (forall k, cnt (x :: l) k = (cnt l k + if decide (k = x) then 1 else 0)%nat) as Hcnt.
  { intros k. simpl. destruct (Nat.eq_dec x k); case_decide; subst; try done; lia. }
  destruct (IH (<[x := d]> indeg) (if d =? 0 then q ++ [x] else q)) as (indeg' & ex & He & Hlen & Hi & Hn & Hex).
  { by rewrite length_insert. }
  { intros k. specialize (Hc k). rewrite Hins, Hcnt in *. case_decide; lia. }
  assert (forall k, indeg' !!! k = indeg !!! k - Z.of_nat (cnt (x :: l) k)) as Hi'.
  { intros k. rewrite Hi, Hins, Hcnt. case_decide; lia. }
  pose proof (Hc x) as Hcx. rewrite Hcnt, decide_True in Hcx by done.
  assert (forall k, k ∈ l <-> (0 < cnt l k)%nat) as Hin.
  { intros k. rewrite list_elem_of_In. apply count_occ_In. }
  rewrite length_insert in Hlen. destruct (Z.eqb_spec d 0) as [Hd|Hd].
  - exists indeg', (x :: ex). rewrite He, <- app_assoc. split_and!; [done|done|done| |].
    + apply NoDup_cons. split; [|done]. rewrite Hex, Hin. lia.
    + intros k. rewrite !elem_of_cons, Hex, Hins, Hcnt, Hin. case_decide; [subst k|]; lia.
  - exists indeg', ex. rewrite He. split_and!; [done|done|done|done|].
    intros k. rewrite elem_of_cons, Hex, Hins, Hcnt, Hin. case_decide; [subst k|]; lia.
Qed.

(** Dependencies that have not left the queue. *)
Definition rem (out ps : list nat) : nat := length (filter (fun p => p ∉ out) ps).

Lemma rem_snoc out ps cur : cur ∉ out -> (rem (out ++ [cur]) ps + cnt ps cur = rem out ps)%nat.
Proof.
  intros Hc. unfold rem. induction ps as [|p ps IH]; simpl; [done|]. rewrite !filter_cons.
  destruct (Nat.eq_dec p cur) as [->|Hne].
  - rewrite decide_False, decide_True; [simpl; lia|done|]. intros H. apply H, elem_of_app. right. by constructor.
  - destruct (decide (p ∈ out)) as [Hp|Hp].
    + rewrite !decide_False; [done|tauto|]. intros H. apply H, elem_of_app. by left.
    + rewrite !decide_True; [simpl; lia|done|].
      intros [H|H]%elem_of_app; [done|]. by apply list_elem_of_singleton in H.
Qed.

Lemma rem_0 out ps : rem out ps = O <-> forall p, p ∈ ps -> p ∈ out.
Proof.
  unfold rem. rewrite length_zero_iff_nil. split.
  - intros H p Hp. destruct (decide (p ∈ out)) as [|Hn]; [done|].
    exfalso. apply (not_elem_of_nil p). rewrite <- H. by apply list_elem_of_filter.
  - intros H. apply elem_of_nil_inv. intros p [Hp Hin]%list_elem_of_filter. by apply Hp, H.
Qed.

Lemma rem_nil ps : rem [] ps = length ps.
Proof.
  unfold rem. induction ps as [|p ps IH]; [done|]. rewrite filter_cons, decide_True by apply not_elem_of_nil.
  cbn [length]. by f_equal.
Qed.

(** Every node comes after its dependencies. *)
Definition ordered (preds : list (list nat)) (out : list nat) : Prop :=
  forall i k p, out !! i = Some k -> p ∈ preds !!! k -> p ∈ take i out.

Record inv (preds : list (list nat)) (indeg : list Z) (ready out : list nat) : Prop := mkInv {
  inv_nodup : NoDup (out ++ ready);
  inv_range : forall k, k ∈ out ++ ready -> (k < length preds)%nat;
  inv_len : length indeg = length preds;
  inv_indeg : forall k, (k < length preds)%nat -> indeg !!! k = Z.of_nat (rem out (preds !!! k));
  inv_ready : forall k, (k < length preds)%nat -> k ∈ out ++ ready <-> indeg !!! k = 0;
  inv_ordered : ordered preds out;
}.

Lemma ordered_snoc preds out cur : ordered preds out -> (forall p, p ∈ preds !!! cur -> p ∈ out) ->
  ordered preds (out ++ [cur]).
Proof.
  intros Ho Hc i k p Hi Hp. apply lookup_snoc_Some in Hi as [[Hi Hk]|[-> <-]].
  - rewrite take_app_le by lia. by eapply Ho.
  - rewrite take_app_length. by apply Hc.
Qed.

Lemma kahn_step preds (adj : list (list nat)) indeg cur ready out : preds_ok preds ->
  (forall p k, (p < length preds)%nat -> (k < length preds)%nat -> cnt (adj !!! p) k = cnt (preds !!! k) p) ->
  (forall p k, k ∈ adj !!! p -> (k < length preds)%nat) ->
  inv preds indeg (cur :: ready) out ->
  exists indeg' ready', foldl relax (indeg, ready) (adj !!! cur) = (indeg', ready') /\
    inv preds indeg' ready' (out ++ [cur]).
Proof.
  intros Hok Hadj Hrange [Hnd Hr Hlen Hi Hq Ho].
  assert (cur < length preds)%nat as Hcur by (apply Hr, elem_of_app; right; by constructor).
  assert (cur ∉ out) as Hco.
  { apply NoDup_app in Hnd as (_ & Hd & _). intros H. apply (Hd cur H). by constructor. }
  assert (forall k, (k < length preds)%nat ->
    Z.of_nat (rem (out ++ [cur]) (preds !!! k)) + Z.of_nat (cnt (adj !!! cur) k) = indeg !!! k) as Hrem.
  { intros k Hk. rewrite Hadj, Hi by done. pose proof (rem_snoc out (preds !!! k) cur Hco). lia. }
  destruct (fold_relax (adj !!! cur) indeg ready) as (indeg' & ex & He & Hl' & Hi' & Hn & Hex).
  { rewrite Forall_forall, Hlen. intros k. apply Hrange. }
  { intros k. destruct (decide (k < length preds)%nat) as [Hk|Hk].
    - left. specialize (Hrem k Hk). lia.
    - right. apply count_occ_not_In. rewrite <- list_elem_of_In. intros H. by apply Hrange in H. }
  exists indeg', (ready ++ ex). split; [done|].
  assert (forall k, k ∈ (out ++ [cur]) ++ ready ++ ex <-> k ∈ out ++ cur :: ready \/ k ∈ ex) as Hmem.
  { intros k. rewrite !elem_of_app, !elem_of_cons, elem_of_nil. tauto. }
  assert (forall k, k ∈ adj !!! cur <-> (0 < cnt (adj !!! cur) k)%nat) as Hin.
  { intros k. rewrite list_elem_of_In. apply count_occ_In. }
  assert (forall k, k ∈ ex -> k ∉ out ++ cur :: ready) as Hfresh.
  { intros k [Hk Hz]%Hex Ho'. pose proof (Hrange _ _ Hk) as Hkr. apply (Hq k Hkr) in Ho'.
    apply Hin in Hk. lia. }
  split.
  - rewrite app_assoc, <- (app_assoc out). simpl. apply NoDup_app. split_and!; [done| |done].
    intros k Hk Hk'. by apply (Hfresh k).
  - intros k [Hk|[Hk _]%Hex]%Hmem; [by apply Hr|by eapply Hrange].
  - congruence.
  - intros k Hk. rewrite Hi', <- (Hrem k Hk). lia.
  - intros k Hk. rewrite Hmem, Hex, (Hq k Hk), Hi', Hin. specialize (Hrem k Hk). lia.
  - apply ordered_snoc; [done|]. apply rem_0.
    assert (indeg !!! cur = 0) as Hz by (apply Hq; [done|]; apply elem_of_app; right; by constructor).
    specialize (Hi cur Hcur). lia.
Qed.

Lemma NoDup_bound (l : list nat) n : NoDup l -> (forall k, k ∈ l -> (k < n)%nat) -> (length l <= n)%nat.
Proof.
  intros Hn Hl. rewrite <- (length_seq n 0). apply submseteq_length, NoDup_submseteq; [done|].
  intros k Hk. apply elem_of_seq. specialize (Hl k Hk). lia.
Qed.

Lemma kahn_total preds (adj : list (list nat)) fuel indeg ready out : preds_ok preds ->
  (forall p k, (p < length preds)%nat -> (k < length preds)%nat -> cnt (adj !!! p) k = cnt (preds !!! k) p) ->
  (forall p k, k ∈ adj !!! p -> (k < length preds)%nat) ->
  inv preds indeg ready out -> (length preds <= fuel + length out)%nat ->
  exists indeg' out', kahn fuel adj indeg ready out = Some out' /\ inv preds indeg' [] out'.
Proof.
  intros Hok Hadj Hrange. revert indeg ready out. induction fuel as [|fuel IH]; intros indeg [|cur ready] out Hinv Hf.
  - eauto.
  - exfalso. pose proof (NoDup_bound _ _ (inv_nodup _ _ _ _ Hinv) (inv_range _ _ _ _ Hinv)) as Hl.
    rewrite length_app in Hl. simpl in *. lia.
  - eauto.
  - destruct (kahn_step preds adj indeg cur ready out) as (indeg' & ready' & He & Hinv'); [done..|].
    simpl. rewrite He. apply IH; [done|]. rewrite length_app. simpl. lia.
Qed.

(** Adjacency lists hold positions of nodes. *)
Lemma addEdges_range n l (st : list (list nat) * list Z) :
  (forall p k, k ∈ st.1 !!! p -> (k < n)%nat) -> (forall x, x ∈ l -> (x.1 < n)%nat) ->
  forall p k, k ∈ (foldl addEdges st l).1 !!! p -> (k < n)%nat.
Proof.
  intros Hst Hl. apply (foldl_inv (fun st => forall p k, k ∈ st.1 !!! p -> (k < n)%nat)); [done|].
  intros [adj indeg] [i ps] Hi Hadj. apply Hl in Hi. unfold addEdges. cbn [fst snd] in *.
  apply (foldl_inv (fun st : list (list nat) * list Z => forall p k, k ∈ st.1 !!! p -> (k < n)%nat)); [done|].
  intros [a d] q _ Ha p k. cbn [fst]. rewrite list_lookup_total_alter. case_decide as Ed; [|apply Ha].
  intros [H|H]%elem_of_app; [destruct Ed as [-> _]; by eapply Ha|].
  by apply list_elem_of_singleton in H as ->.
Qed.

(** What the sort computes: some nodes, each after all its dependencies; every
    other node has a dependency that is not among them. *)
Lemma kahnOrder_spec start preds : (forall l, start l ≡ₚ l) -> preds_ok preds ->
  exists out, kahnOrder start preds = Some out /\ NoDup out /\ (forall k, k ∈ out -> (k < length preds)%nat) /\
    ordered preds out /\
    forall k, (k < length preds)%nat -> k ∉ out -> exists p, p ∈ preds !!! k /\ p ∉ out.
Proof.
  intros Hst Hok. unfold kahnOrder. destruct (buildEdges preds) as [adj indeg] eqn:E.
  destruct (buildEdges_spec _ _ _ E Hok) as (H1 & H2 & H3 & H4).
  destruct (kahn_total preds adj (length preds) indeg
    (start (filter (fun i => indeg !!! i = 0) (seq 0 (length preds)))) []) as (indeg' & out & Hk & Hinv); try done.
  - intros p k Hk.
    apply (addEdges_range (length preds) (imap pair preds) (replicate (length preds) [], replicate (length preds) 0)) with p.
    + intros p' k'. cbn [fst]. rewrite list_lookup_total_alt.
      destruct (replicate _ _ !! p') as [l|] eqn:El; [apply lookup_replicate in El as [-> _]|]; simpl;
        by intros ?%elem_of_nil.
    + intros [i ps] Hx. apply list_elem_of_lookup in Hx as [j Hj]. rewrite list_lookup_imap in Hj.
      apply fmap_Some in Hj as (? & Hj & ?). simplify_eq/=. by eapply lookup_lt_Some.
    + unfold buildEdges in E. by rewrite E.
  - split; simpl.
    + rewrite Hst. apply NoDup_filter, NoDup_seq.
    + intros k. rewrite Hst. intros [_ Hk]%list_elem_of_filter. apply elem_of_seq in Hk. lia.
    + done.
    + intros k Hk. by rewrite H4, rem_nil.
    + intros k Hk. rewrite Hst, list_elem_of_filter, elem_of_seq. split; [tauto|]. intros. split; [done|lia].
    + intros i k p Hi. done.
  - simpl. lia.
  - exists out. destruct Hinv as [Hnd Hr Hl Hi Hq Ho]. rewrite app_nil_r in *. split_and!; try done.
    intros k Hkl Hn. rewrite Hq, Hi in Hn by done.
    destruct (decide (Forall (fun p => p ∈ out) (preds !!! k))) as [Hall|Hall].
    + exfalso. apply Hn. rewrite Forall_forall in Hall. by rewrite (proj2 (rem_0 _ _)).
    + apply not_Forall_Exists in Hall; [|apply _]. apply Exists_exists in Hall as (p & ? & ?). eauto.
Qed.

(** A rank that increases along every dependency: the graph has no cycle. *)
Definition acyclic (preds : list (list nat)) : Prop :=
  exists rank : nat -> nat, forall k p, (k < length preds)%nat -> p ∈ preds !!! k -> (rank p < rank k)%nat.

Lemma index_of (l : list nat) k : NoDup l -> k ∈ l -> exists i, l !! i = Some k.
Proof. intros _. apply list_elem_of_lookup_1. Qed.

Lemma kahnOrder_complete start preds : (forall l, start l ≡ₚ l) -> preds_ok preds ->
  exists out, kahnOrder start preds = Some out /\ ordered preds out /\ NoDup out /\
    (length out = length preds <-> acyclic preds) /\
    (length out = length preds -> out ≡ₚ seq 0 (length preds)).
Proof.
  intros Hst Hok. destruct (kahnOrder_spec start preds Hst Hok) as (out & Hk & Hnd & Hr & Ho & Hun).
  exists out. split_and!; try done.
  - split.
    + intros Hlen.
      assert (forall k, (k < length preds)%nat -> k ∈ out) as Hall.
      { intros k Hkl. destruct (decide (k ∈ out)) as [|Hn]; [done|].
        assert (length (k :: out) <= length preds)%nat; [|simpl in *; lia].
        apply NoDup_bound; [by constructor|]. intros x [->|?]%elem_of_cons; auto. }
      exists (fun k => default O (list_find (eq k) out ≫= fun '(i, _) => Some i)).
      assert (forall k i, out !! i = Some k -> list_find (eq k) out = Some (i, k)) as Hf.
      { intros k i Hi. apply list_find_Some. split_and!; [done|done|].
        intros j y Hy Hj <-. pose proof (NoDup_lookup _ _ _ _ Hnd Hi Hy). lia. }
      intros k p Hkl Hp. destruct (list_elem_of_lookup_1 _ _ (Hall k Hkl)) as [i Hi].
      pose proof (Ho i k p Hi Hp) as Ht. apply list_elem_of_lookup_1 in Ht as [j Hj].
      apply lookup_take_Some in Hj as [Hj Hji]. by rewrite (Hf _ _ Hi), (Hf _ _ Hj).
    + intros [rank Hrank]. destruct (decide (length out = length preds)) as [|Hne]; [done|]. exfalso.
      assert (exists k, (k < length preds)%nat /\ k ∉ out) as (k & Hkl & Hkn).
      { destruct (decide (Forall (fun k => k ∈ out) (seq 0 (length preds)))) as [Hall|Hall].
        - exfalso. apply Hne, Nat.le_antisymm; [by apply NoDup_bound|].
          rewrite <- (length_seq (length preds) 0) at 1. rewrite Forall_forall in Hall.
          by apply submseteq_length, NoDup_submseteq; [apply NoDup_seq|].
        - apply not_Forall_Exists in Hall; [|apply _]. apply Exists_exists in Hall as (k & Hk' & Hn).
          apply elem_of_seq in Hk'. exists k. split; [lia|done]. }
      remember (rank k) as r eqn:Er. revert k Er Hkl Hkn. induction r as [r IH] using lt_wf_ind.
      intros k -> Hkl Hkn. destruct (Hun k Hkl Hkn) as (p & Hp & Hpn).
      eapply (IH (rank p)); [by apply Hrank|done| |done].
      unfold preds_ok in Hok. rewrite Forall_forall in Hok.
      assert (preds !!! k ∈ preds) as Hin by (apply list_elem_of_lookup_total; eauto).
      specialize (Hok _ Hin). rewrite Forall_forall in Hok. by apply Hok.
  - intros Hlen. apply NoDup_Permutation; [done|apply NoDup_seq|]. intros k. rewrite elem_of_seq.
    split; [intros Hk'; apply Hr in Hk'; lia|]. intros Hkl.
    destruct (decide (k ∈ out)) as [|Hn]; [done|].
    assert (length (k :: out) <= length preds)%nat; [|simpl in *; lia].
    apply NoDup_bound; [by constructor|]. intros x [->|?]%elem_of_cons; [lia|auto].
Qed.

End TopoSort.
