(* ===== verification/Graph.v ===== *)
(** * Task graphs

    The data of CUDA graphs (include/vgre/core/graph_manager.h): nodes, graphs
    and executables, the node index, the graph-level checks of
    [GraphManager::validateGraph] and [GraphManager::instantiate], and
    [topoSortNodes] of the dispatcher (src/core/runtime_engine_graph.cpp).
    Pointers are integers, 0 the null pointer.  The fields of [GraphNode] are
    grouped as the header's comments group them; its cost weights, which only
    feed the optimizer's cost estimate, are left out. *)

From stdpp Require Export strings.
From S2P Require Import Prelude TopoSort.
Open Scope Z_scope.

Module Graph.
Import TopoSort.

Inductive GraphNodeType :=
| KERNEL | MEMCPY | CONDITIONAL | MEMSET | HOST | CHILD | EMPTY
| EVENT_RECORD | EVENT_WAIT | MEMALLOC | MEMFREE.

#[export] Instance GraphNodeType_eq_dec : EqDecision GraphNodeType.
Proof. solve_decision. Defined.

Inductive GraphCondType := IF | WHILE | SWITCH.

Inductive ArgType :=
| POINTER | INT32 | INT64 | FLOAT32 | FLOAT64 | UINT32 | UINT64 | STRUCT | FLOAT16 | BFLOAT16.

#[export] Instance ArgType_eq_dec : EqDecision ArgType.
Proof. solve_decision. Defined.

Record dim3 := mkDim3 { x : Z; y : Z; z : Z }.

#[export] Instance dim3_eq_dec : EqDecision dim3.
Proof. solve_decision. Defined.

(** The part of [KernelIR] graphs use. *)
Record KernelIR := mkIR {
  source : string;
  argTypes : list ArgType;
  argSizes : list Z;
  sharedMemSize : Z;
  name : string;
  usesSyncthreads : bool;
  estimatedInstructionCount : Z;
  staticFlopCount : Z;
}.

(** A default-constructed entry. *)
Definition noIR : KernelIR := mkIR "" [] [] 0 "" false 0 0.

Definition VGRE_MEMCPY_HOST_TO_DEVICE : Z := 0.
Definition VGRE_MEMCPY_DEVICE_TO_HOST : Z := 1.
Definition VGRE_MEMCPY_DEVICE_TO_DEVICE : Z := 2.

Record KernelData := mkKernel {
  kernelId : Z;
  kernelName : string;
  gridDim : dim3;
  blockDim : dim3;
  capturedArgs : list (list Z);
  capturedWritePtrs : list Z;
  capturedReadPtrs : list Z;
}.

Record MemcpyData := mkMemcpy { dst : Z; src : Z; count : Z; kind : Z }.

Record CondData := mkCond {
  condFn : Z; condCtx : Z; bodyGraphId : Z; condType : GraphCondType; maxIterations : Z;
}.

Record MemsetData := mkMemset {
  memsetValue : Z; memsetPitch : Z; memsetWidth : Z; memsetHeight : Z; memsetDepth : Z;
}.

Record HostData := mkHost { hostFn : Z; hostUserData : Z }.

Record MemAllocData := mkMemAlloc { memAllocSize : Z; memAllocPtr : Z; memAllocOutPtr : Z }.

Record GraphNode := mkNode {
  type : GraphNodeType;
  nodeId : Z;
  deps : list Z;
  streamId : Z;
  kernel : KernelData;
  copy : MemcpyData;
  cond : CondData;
  memset : MemsetData;
  host : HostData;
  eventHandle : Z;
  memAlloc : MemAllocData;
}.

(** The member initializers of a new node. *)
Definition newNode (ty : GraphNodeType) (id : Z) (ds : list Z) : GraphNode :=
  mkNode ty id ds 0
    (mkKernel 0 "" (mkDim3 1 1 1) (mkDim3 1 1 1) [] [] [])
    (mkMemcpy 0 0 0 VGRE_MEMCPY_HOST_TO_DEVICE)
    (mkCond 0 0 0 IF 65536)
    (mkMemset 0 0 0 0 1)
    (mkHost 0 0) 0 (mkMemAlloc 0 0 0).

(** Assignment to a group of fields. *)
Definition with_deps (n : GraphNode) ds := mkNode (type n) (nodeId n) ds (streamId n) (kernel n) (copy n) (cond n) (memset n) (host n) (eventHandle n) (memAlloc n).
Definition with_stream (n : GraphNode) s := mkNode (type n) (nodeId n) (deps n) s (kernel n) (copy n) (cond n) (memset n) (host n) (eventHandle n) (memAlloc n).
Definition with_kernel (n : GraphNode) k := mkNode (type n) (nodeId n) (deps n) (streamId n) k (copy n) (cond n) (memset n) (host n) (eventHandle n) (memAlloc n).
Definition with_copy (n : GraphNode) c := mkNode (type n) (nodeId n) (deps n) (streamId n) (kernel n) c (cond n) (memset n) (host n) (eventHandle n) (memAlloc n).
Definition with_cond (n : GraphNode) c := mkNode (type n) (nodeId n) (deps n) (streamId n) (kernel n) (copy n) c (memset n) (host n) (eventHandle n) (memAlloc n).
Definition with_memset (n : GraphNode) m := mkNode (type n) (nodeId n) (deps n) (streamId n) (kernel n) (copy n) (cond n) m (host n) (eventHandle n) (memAlloc n).
Definition with_host (n : GraphNode) h := mkNode (type n) (nodeId n) (deps n) (streamId n) (kernel n) (copy n) (cond n) (memset n) h (eventHandle n) (memAlloc n).
Definition with_event (n : GraphNode) e := mkNode (type n) (nodeId n) (deps n) (streamId n) (kernel n) (copy n) (cond n) (memset n) (host n) e (memAlloc n).
Definition with_memAlloc (n : GraphNode) m := mkNode (type n) (nodeId n) (deps n) (streamId n) (kernel n) (copy n) (cond n) (memset n) (host n) (eventHandle n) m.
Definition with_dst (n : GraphNode) d := with_copy n (mkMemcpy d (src (copy n)) (count (copy n)) (kind (copy n))).

Record t := mkGraph {
  id : Z;
  nextNodeId : Z;
  nodes : list GraphNode;
  nodeIndex : gmap Z nat;
}.

(** Writing one node in place. *)
Definition set_node (g : t) (i : nat) (n : GraphNode) : t :=
  mkGraph (id g) (nextNodeId g) (<[i := n]> (nodes g)) (nodeIndex g).

(** Appending a node, with its index entry. *)
Definition push_node (g : t) (n : GraphNode) : t :=
  mkGraph (id g) (nextNodeId g + 1) (nodes g ++ [n]) (<[nodeId n := length (nodes g)]> (nodeIndex g)).

(** The index rebuilt from the nodes: later nodes win. *)
Definition buildIndex (ns : list GraphNode) : gmap Z nat :=
  foldl (fun m '(i, n) => <[nodeId n := i]> m) ∅ (imap pair ns).

Definition find_node (g : t) (nid : Z) : option (nat * GraphNode) :=
  i ← nodeIndex g !! nid; n ← nodes g !! i; Some (i, n).

(** ** Checks *)

(** The dependency positions of every node; [None] on a dangling one. *)
Definition resolveDeps (ns : list GraphNode) : option (list (list nat)) :=
  let idx := buildIndex ns in
  mapM (fun n => mapM (fun d => idx !! d) (deps n)) ns.

(** Both queues are filled in the order of the node vector. *)
Definition id_start (l : list nat) : list nat := l.

(** The cycle check of [instantiate]: every dependency exists and the sort
    reaches every node. *)
Definition checkAcyclic (ns : list GraphNode) : bool :=
  match resolveDeps ns with
  | None => false
  | Some preds => match kahnOrder id_start preds with Some out => bool_decide (length out = length ns) | None => false end
  end.

(** [topoSortNodes]: [None] for [false]. *)
Definition topoSortNodes (ns : list GraphNode) : option (list nat) :=
  if bool_decide (Exists (fun n => nodeId n = 0) ns) then None else
  preds ← resolveDeps ns;
  out ← kahnOrder id_start preds;
  if bool_decide (length out = length ns) then Some out else None.

Definition dims_nonzero (d : dim3) : bool := negb ((x d =? 0) || (y d =? 0) || (z d =? 0)).

Definition validateNode (idx : gmap Z nat) (n : GraphNode) : bool :=
  forallb (fun d => bool_decide (is_Some (idx !! d))) (deps n) &&
  match type n with
  | KERNEL => dims_nonzero (gridDim (kernel n)) && dims_nonzero (blockDim (kernel n))
  | MEMCPY => negb (count (copy n) =? 0) && negb ((dst (copy n) =? 0) || (src (copy n) =? 0))
  | _ => true
  end.

(** [validateGraph] on an existing graph. *)
Definition validate (ns : list GraphNode) : VGREResult :=
  if bool_decide (ns = []) then ERR_INVALID_VALUE
  else if forallb (validateNode (buildIndex ns)) ns then SUCCESS else ERR_INVALID_VALUE.

(** ** The node index *)

Definition ids (ns : list GraphNode) : list Z := nodeId <$> ns.

(** The index maps exactly the identifiers of the nodes to their positions;
    identifiers are positive and below the next one. *)
Record wf (g : t) : Prop := mkWf {
  wf_index : forall nid i, nodeIndex g !! nid = Some i <-> exists n, nodes g !! i = Some n /\ nodeId n = nid;
  wf_ids : forall i n, nodes g !! i = Some n -> 0 < nodeId n < nextNodeId g;
}.

Lemma wf_empty gid : wf (mkGraph gid 1 [] ∅).
Proof. split; simpl; [intros; rewrite lookup_empty; naive_solver|done]. Qed.

Lemma wf_push g n : wf g -> 0 < nextNodeId g -> nodeId n = nextNodeId g -> wf (push_node g n).
Proof.
  intros [Hi Hb] Hp Hn. split; simpl.
  - intros nid i. destruct (decide (nid = nodeId n)) as [->|Hne].
    + rewrite lookup_insert_eq. split.
      * intros [= <-]. exists n. by rewrite list_lookup_middle.
      * intros (n' & Hl & He). apply lookup_snoc_Some in Hl as [[_ Hl]|[-> _]]; [|done].
        apply Hb in Hl. lia.
    + rewrite lookup_insert_ne, Hi by done. split; intros (n' & Hl & He); exists n'; (split; [|done]).
      * by apply lookup_app_l_Some.
      * apply lookup_snoc_Some in Hl as [[_ Hl]|[_ ->]]; [done|congruence].
  - intros i n' [[_ Hl]|[_ <-]]%lookup_snoc_Some; [apply Hb in Hl; lia|lia].
Qed.

Lemma wf_set g i n n' : wf g -> nodes g !! i = Some n -> nodeId n' = nodeId n -> wf (set_node g i n').
Proof.
  intros [Hi Hb] Hl Hn. split; simpl.
  - intros nid j. rewrite Hi. destruct (decide (j = i)) as [->|Hne].
    + rewrite list_lookup_insert_eq by (by eapply lookup_lt_Some). naive_solver.
    + by rewrite list_lookup_insert_ne by done.
  - intros j n0. destruct (decide (j = i)) as [->|Hne].
    + rewrite list_lookup_insert_eq by (by eapply lookup_lt_Some). intros [= <-]. rewrite Hn. by eapply Hb.
    + rewrite list_lookup_insert_ne by done. apply Hb.
Qed.

Lemma find_node_Some g nid i n : wf g -> find_node g nid = Some (i, n) <-> nodes g !! i = Some n /\ nodeId n = nid.
Proof.
  intros H. unfold find_node. split.
  - intros Hf. destruct (nodeIndex g !! nid) as [j|] eqn:E; simplify_eq/=.
    apply (wf_index _ H) in E as (n' & Hl & He). by rewrite Hl in Hf; simplify_eq/=.
  - intros [Hl He]. rewrite (proj2 (wf_index _ H nid i)) by eauto. simpl. by rewrite Hl.
Qed.

Lemma find_node_None g nid : wf g -> find_node g nid = None <-> nid ∉ ids (nodes g).
Proof.
  intros H. unfold ids. split.
  - intros Hf (n & -> & Hn)%list_elem_of_fmap. apply list_elem_of_lookup in Hn as [i Hi].
    rewrite (proj2 (find_node_Some g (nodeId n) i n H)) in Hf by done. done.
  - intros Hn. destruct (find_node g nid) as [[i n]|] eqn:E; [|done].
    apply find_node_Some in E as [Hl He]; [|done]. destruct Hn. apply list_elem_of_fmap.
    exists n. split; [done|]. by eapply list_elem_of_lookup_2.
Qed.

Lemma wf_NoDup g : wf g -> NoDup (ids (nodes g)).
Proof.
  intros H. apply NoDup_alt. intros i j nid Hi Hj. unfold ids in *.
  rewrite list_lookup_fmap in Hi, Hj.
  apply fmap_Some in Hi as (n & Hn & ->), Hj as (n' & Hn' & He).
  assert (nodeIndex g !! nodeId n = Some i) as E by (apply (wf_index _ H); eauto).
  assert (nodeIndex g !! nodeId n = Some j) as E' by (apply (wf_index _ H); eauto). congruence.
Qed.

Lemma buildIndex_snoc ns n : buildIndex (ns ++ [n]) = <[nodeId n := length ns]> (buildIndex ns).
Proof. unfold buildIndex. rewrite imap_app, foldl_app. simpl. by rewrite Nat.add_0_r. Qed.

Lemma buildIndex_spec ns nid i : NoDup (ids ns) ->
  buildIndex ns !! nid = Some i <-> exists n, ns !! i = Some n /\ nodeId n = nid.
Proof.
  revert i. induction ns as [|n ns IH] using rev_ind; intros i Hnd.
  { change (buildIndex []) with (∅ : gmap Z nat). rewrite lookup_empty. naive_solver. }
  unfold ids in *. rewrite fmap_app in Hnd. apply NoDup_app in Hnd as (Hnd & Hd & _).
  rewrite buildIndex_snoc. destruct (decide (nodeId n = nid)) as [<-|Hne].
  - rewrite lookup_insert_eq. split.
    + intros [= <-]. exists n. by rewrite list_lookup_middle.
    + intros (n' & Hl & He). apply lookup_snoc_Some in Hl as [[_ Hl]|[-> _]]; [|done].
      exfalso. apply (Hd (nodeId n)); [|by left]. rewrite <- He. apply list_elem_of_fmap.
      exists n'. split; [done|]. by eapply list_elem_of_lookup_2.
  - rewrite lookup_insert_ne, IH by done. split; intros (n' & Hl & He); exists n'; (split; [|done]).
    + by apply lookup_app_l_Some.
    + apply lookup_snoc_Some in Hl as [[_ Hl]|[_ ->]]; [done|congruence].
Qed.

Lemma buildIndex_dom ns nid : is_Some (buildIndex ns !! nid) <-> nid ∈ ids ns.
Proof.
  unfold ids. induction ns as [|n ns IH] using rev_ind.
  { change (buildIndex []) with (∅ : gmap Z nat). rewrite lookup_empty. split; [by intros [? ?]|by intros ?%elem_of_nil]. }
  rewrite buildIndex_snoc, fmap_app, elem_of_app. cbn [fmap list_fmap]. rewrite list_elem_of_singleton, <- IH.
  destruct (decide (nodeId n = nid)) as [<-|Hne].
  - rewrite lookup_insert_eq. split; [by right|by eexists].
  - rewrite lookup_insert_ne by done. naive_solver.
Qed.

Lemma wf_unique g n n' : wf g -> n ∈ nodes g -> n' ∈ nodes g -> nodeId n = nodeId n' -> n = n'.
Proof.
  intros H [i Hi]%list_elem_of_lookup [j Hj]%list_elem_of_lookup He.
  assert (nodeIndex g !! nodeId n = Some i) as E by (apply (wf_index _ H); eauto).
  assert (nodeIndex g !! nodeId n = Some j) as E' by (apply (wf_index _ H); eauto). congruence.
Qed.

Lemma wf_build g : NoDup (ids (nodes g)) -> nodeIndex g = buildIndex (nodes g) ->
  (forall n, n ∈ nodes g -> 0 < nodeId n < nextNodeId g) -> wf g.
Proof.
  intros Hnd Hix Hb. split; [intros nid i; rewrite Hix; by apply buildIndex_spec|].
  intros i n Hi. apply Hb. by eapply list_elem_of_lookup_2.
Qed.

(** ** Acyclic node lists *)

(** Dependencies name nodes of the list. *)
Definition closed (ns : list GraphNode) : Prop :=
  forall n d, n ∈ ns -> d ∈ deps n -> d ∈ ids ns.

(** No dependency cycle: identifiers can be ranked. *)
Definition dag (ns : list GraphNode) : Prop :=
  exists rank : Z -> nat, forall n d, n ∈ ns -> d ∈ deps n -> (rank d < rank (nodeId n))%nat.

Lemma resolveDeps_closed ns : is_Some (resolveDeps ns) <-> closed ns.
Proof.
  unfold resolveDeps, closed. rewrite mapM_is_Some, Forall_forall. split; intros H n.
  - intros d Hn Hd. specialize (H n Hn). apply mapM_is_Some in H. rewrite Forall_forall in H.
    by apply buildIndex_dom, H.
  - intros Hn. apply mapM_is_Some, Forall_forall. intros d Hd. by apply buildIndex_dom, (H n).
Qed.

Lemma resolveDeps_lookup ns preds : resolveDeps ns = Some preds ->
  length preds = length ns /\
  forall k n, ns !! k = Some n -> Forall2 (fun d p => buildIndex ns !! d = Some p) (deps n) (preds !!! k).
Proof.
  unfold resolveDeps. intros H. apply mapM_Some_1 in H.
  split; [symmetry; by eapply Forall2_length|]. intros k n Hk. destruct (Forall2_lookup_l _ _ _ _ _ H Hk) as (ps & Hps & Hm).
  rewrite (list_lookup_total_correct _ _ _ Hps). by apply mapM_Some_1.
Qed.

Lemma resolveDeps_ok ns preds : NoDup (ids ns) -> resolveDeps ns = Some preds -> preds_ok preds.
Proof.
  intros Hnd H. destruct (resolveDeps_lookup _ _ H) as [Hl Hp]. unfold preds_ok. apply Forall_lookup.
  intros k ps Hk. destruct (lookup_lt_is_Some_2 ns k) as [n Hn]; [rewrite <- Hl; by eapply lookup_lt_Some|].
  specialize (Hp k n Hn). rewrite (list_lookup_total_correct _ _ _ Hk) in Hp. apply Forall_lookup. intros j p Hj.
  destruct (Forall2_lookup_r _ _ _ _ _ Hp Hj) as (d & _ & Hd).
  apply buildIndex_spec in Hd as (n' & Hn' & _); [|done]. rewrite Hl. by eapply lookup_lt_Some.
Qed.

Lemma acyclic_dag ns preds : NoDup (ids ns) -> resolveDeps ns = Some preds -> acyclic preds <-> dag ns.
Proof.
  intros Hnd H. destruct (resolveDeps_lookup _ _ H) as [Hl Hp]. split; intros [rank Hr].
  - exists (fun nid => default O (rank <$> buildIndex ns !! nid)). intros n d Hn Hd.
    apply list_elem_of_lookup in Hn as [k Hk]. specialize (Hp k n Hk).
    apply list_elem_of_lookup in Hd as [j Hj]. destruct (Forall2_lookup_l _ _ _ _ _ Hp Hj) as (p & Hpj & Hpd).
    rewrite Hpd. rewrite (proj2 (buildIndex_spec ns (nodeId n) k Hnd)) by eauto. simpl.
    apply Hr; [rewrite Hl; by eapply lookup_lt_Some|by eapply list_elem_of_lookup_2].
  - exists (fun k => default O (rank ∘ nodeId <$> ns !! k)). intros k p Hk Hpk. rewrite Hl in Hk.
    destruct (lookup_lt_is_Some_2 ns k Hk) as [n Hn]. specialize (Hp k n Hn).
    apply list_elem_of_lookup in Hpk as [j Hj]. destruct (Forall2_lookup_r _ _ _ _ _ Hp Hj) as (d & Hdj & Hd).
    apply buildIndex_spec in Hd as (n' & Hn' & He); [|done]. rewrite Hn, Hn'. simpl. rewrite He.
    apply Hr; by eapply list_elem_of_lookup_2.
Qed.

Lemma checkAcyclic_spec ns : NoDup (ids ns) -> checkAcyclic ns = true <-> closed ns /\ dag ns.
Proof.
  intros Hnd. unfold checkAcyclic. rewrite <- resolveDeps_closed.
  destruct (resolveDeps ns) as [preds|] eqn:E; [|split; [done|intros [[? ?] _]; done]].
  rewrite <- (acyclic_dag _ _ Hnd E).
  destruct (kahnOrder_complete id_start preds (fun l => reflexivity l) (resolveDeps_ok _ _ Hnd E)) as (out & -> & _ & _ & Hiff & _).
  rewrite bool_decide_eq_true, <- Hiff, (proj1 (resolveDeps_lookup _ _ E)). naive_solver.
Qed.

Lemma topo_spec ns :
  NoDup (ids ns) -> Forall (fun n => nodeId n <> 0) ns ->
  (is_Some (topoSortNodes ns) <-> closed ns /\ dag ns) /\
  forall order, topoSortNodes ns = Some order ->
    order ≡ₚ seq 0 (length ns) /\
    forall i k n d, order !! i = Some k -> ns !! k = Some n -> d ∈ deps n ->
      exists j p n', (j < i)%nat /\ order !! j = Some p /\ ns !! p = Some n' /\ nodeId n' = d.
Proof.
  intros Hnd Hnz. unfold topoSortNodes. rewrite bool_decide_eq_false_2.
  2:{ intros (n & Hn & Hz)%Exists_exists. rewrite Forall_forall in Hnz. by apply (Hnz n). }
  rewrite <- checkAcyclic_spec by done. unfold checkAcyclic.
  destruct (resolveDeps ns) as [preds|] eqn:E; simpl; [|split; [split; [by intros [? ?]|done]|done]].
  destruct (kahnOrder_complete id_start preds (fun l => reflexivity l) (resolveDeps_ok _ _ Hnd E)) as (out & -> & Ho & Hnd' & _ & Hperm).
  destruct (resolveDeps_lookup _ _ E) as [Hl Hp]. simpl. case_bool_decide as Hlen.
  2:{ split; [|done]. split; [by intros [? ?]|done]. }
  split; [split; [done|by eexists]|]. intros order [= <-]. rewrite Hl in Hperm. split; [by apply Hperm|].
  intros i k n d Hi Hk Hd. specialize (Hp k n Hk).
  apply list_elem_of_lookup in Hd as [j Hj]. destruct (Forall2_lookup_l _ _ _ _ _ Hp Hj) as (p & Hpj & Hpd).
  apply buildIndex_spec in Hpd as (n' & Hn' & He); [|done].
  assert (p ∈ take i out) as Ht by (eapply Ho; [done|by eapply list_elem_of_lookup_2]).
  apply list_elem_of_lookup_1 in Ht as [m Hm]. apply lookup_take_Some in Hm as [Hm Hmi].
  by exists m, p, n'.
Qed.

(** C35: [topoSortNodes] is a complete topological sort.  On nodes with distinct
    nonzero identifiers it succeeds exactly when every dependency exists and
    there is no cycle; its order then lists every node once, each after all
    of its dependencies. *)
Theorem topoSortNodes_correct ns :
  NoDup (ids ns) -> Forall (fun n => nodeId n <> 0) ns ->
  (is_Some (topoSortNodes ns) <-> closed ns /\ dag ns) /\
  forall order, topoSortNodes ns = Some order ->
    order ≡ₚ seq 0 (length ns) /\
    forall i k n d, order !! i = Some k -> ns !! k = Some n -> d ∈ deps n ->
      exists j p n', (j < i)%nat /\ order !! j = Some p /\ ns !! p = Some n' /\ nodeId n' = d.
Proof. apply topo_spec. Qed.

Lemma topoSortNodes_correct_witness :
  let ns := [newNode EMPTY 2 [1]; newNode EMPTY 1 []] in
  topoSortNodes ns = Some [1; 0]%nat /\ [1; 0]%nat ≡ₚ seq 0 2.
Proof.
  cbv zeta. split; [vm_compute; reflexivity|].
  apply (topoSortNodes_correct [newNode EMPTY 2 [1]; newNode EMPTY 1 []]).
  - refine (bool_decide_eq_true_1 _ _). vm_compute. reflexivity.
  - repeat constructor; discriminate.
  - vm_compute. reflexivity.
Defined.

End Graph.
