(* ===== verification/GraphOptimizer.v ===== *)
(** * The graph optimizer

    Model of [GraphOptimizer] (src/core/graph_optimizer.cpp), which merges
    chains of kernel nodes before a graph is instantiated: the fusion test
    with its stream, geometry, hazard, shared-memory and register checks, the
    fusion of two nodes, the fixpoint loop and the topological re-sort.  The
    kernel registry of the runtime engine, the result of [fuseKernels] and the
    measured cost-benefit test are parameters. *)

From Stdlib Require Import Ascii.
From stdpp Require Import sorting.
From S2P Require Import Prelude TopoSort Graph.
Open Scope Z_scope.
Import TopoSort Graph.

Module GraphOptimizer.

Section GraphOptimizer.
Context (getKernelIR : Z -> option KernelIR).
Context (sharedMemPerBlock kRegLimit : Z).
Context (worthFusing : GraphNode -> GraphNode -> bool).
Context (fuseKernels : list Z -> result VGREResult (Z * string)).
(** The iteration order of the [inDegree] hash map. *)
Context (hashOrder : list nat -> list nat).

(** ** The fusion test *)

(** Occurrences of [t] in [src] that a space follows. *)
Fixpoint countSpaced (t src : list ascii) : Z :=
  match src with
  | [] => 0
  | _ :: rest =>
      (if bool_decide (t ++ [" "%char] `prefix_of` src) then 1 else 0) + countSpaced t rest
  end.

Definition countDecls (typeName : string) (weight : Z) (src : string) : Z :=
  countSpaced (String.list_ascii_of_string typeName) (String.list_ascii_of_string src) * weight.

Definition countChar (op : ascii) (src : string) : Z :=
  Z.of_nat (length (filter (fun c => c = op) (String.list_ascii_of_string src))).

Definition estimateRegs (ir : KernelIR) : Z :=
  let src := source ir in
  (Z.of_nat (length (argTypes ir)) +
   countDecls "float " 1 src + countDecls "double " 2 src + countDecls "int " 1 src +
   countDecls "uint32_t" 1 src +
   countChar "+" src + countChar "-" src + countChar "*" src + countChar "/" src) / 3.

Definition threads (k : KernelData) : Z :=
  u64 (x (gridDim k) * y (gridDim k) * z (gridDim k) * x (blockDim k) * y (blockDim k) * z (blockDim k)).

(** Non-null pointers both lists hold. *)
Definition shares (ps qs : list Z) : bool :=
  bool_decide (Exists (fun p => p <> 0 /\ p ∈ qs) ps).

Definition areFusible (a b : GraphNode) : bool :=
  let ka := kernel a in
  let kb := kernel b in
  (streamId a =? streamId b) &&
  (bool_decide (gridDim ka = gridDim kb /\ blockDim ka = blockDim kb) ||
   negb ((threads ka =? 0) || negb (threads ka =? threads kb))) &&
  match getKernelIR (kernelId ka), getKernelIR (kernelId kb) with
  | Some irA, Some irB =>
      negb (shares (capturedWritePtrs kb) (capturedWritePtrs ka)) &&
      negb (shares (capturedWritePtrs kb) (capturedReadPtrs ka)) &&
      (u64 (sharedMemSize irA + sharedMemSize irB) <=? sharedMemPerBlock) &&
      (estimateRegs irA + estimateRegs irB <=? kRegLimit) &&
      worthFusing a b
  | _, _ => false
  end.

(** ** Fusing two nodes *)

(** [std::unique] on a sorted vector. *)
Fixpoint unique (l : list Z) : list Z :=
  match l with
  | d :: (d' :: _) as rest => if d =? d' then unique rest else d :: unique rest
  | _ => l
  end.

(** Redirecting a node's dependencies on [idA] and [idB] to the fused node. *)
Definition rewire (idA idB idF : Z) (n : GraphNode) : GraphNode :=
  if (nodeId n =? idA) || (nodeId n =? idB) then n else
  if bool_decide (idA ∈ deps n \/ idB ∈ deps n) then
    let ds := (fun d => if (d =? idA) || (d =? idB) then idF else d) <$> deps n in
    with_deps n (filter (fun d => d <> nodeId n) (unique (merge_sort Z.le ds)))
  else n.

(** A's dependencies, then those of B that are neither A nor listed. *)
Definition mergeDeps (idA : Z) (depsA depsB : list Z) : list Z :=
  foldl (fun ds d => if (d =? idA) || bool_decide (d ∈ ds) then ds else ds ++ [d]) depsA depsB.

Definition fusedNode (a b : GraphNode) (idF fusedId : Z) (fusedName : string) : GraphNode :=
  with_kernel (newNode KERNEL idF (mergeDeps (nodeId a) (deps a) (deps b)))
    (mkKernel fusedId fusedName (gridDim (kernel a)) (blockDim (kernel a))
       (capturedArgs (kernel a) ++ capturedArgs (kernel b)) [] []).

Definition fuseNodes (g : Graph.t) (idxA idxB : nat) : result VGREResult Graph.t :=
  match nodes g !! idxA, nodes g !! idxB with
  | Some a, Some b =>
      '(fusedId, fusedName) ← fuseKernels [kernelId (kernel a); kernelId (kernel b)];
      let idF := nextNodeId g in
      let fused := fusedNode a b idF fusedId fusedName in
      let ns := rewire (nodeId a) (nodeId b) idF <$> nodes g in
      let ns := delete (Nat.min idxA idxB) (delete (Nat.max idxA idxB) (ns ++ [fused])) in
      Ok (mkGraph (id g) (idF + 1) ns (buildIndex ns))
  | _, _ => Err ERR_UNKNOWN
  end.

(** ** The passes *)

(** Positions of the nodes that depend on [nid], with repetitions. *)
Definition successors (ns : list GraphNode) (nid : Z) : list nat :=
  concat (imap (fun i n => (fun _ => i) <$> filter (fun d => d = nid) (deps n)) ns).

(** One attempt at position [i]. *)
Definition tryFuse (g : Graph.t) (i : nat) : option Graph.t :=
  a ← nodes g !! i;
  if bool_decide (type a <> KERNEL) then None else
  match successors (nodes g) (nodeId a) with
  | [next] =>
      b ← nodes g !! next;
      if bool_decide (type b = KERNEL) && areFusible a b then
        match fuseNodes g i next with Ok g' => Some g' | Err _ => None end
      else None
  | _ => None
  end.

(** The first position where a fusion succeeds. *)
Definition fusePass (g : Graph.t) : option Graph.t :=
  foldr (fun i rest => match tryFuse g i with Some g' => Some g' | None => rest end) None
    (seq 0 (length (nodes g))).

(** The [while (changed)] loop, counting fusions; [None] when the fuel runs
    out before a pass changes nothing. *)
Fixpoint fuseLoop (fuel : nat) (g : Graph.t) (fusionCount : Z) : option (Graph.t * Z) :=
  match fusePass g with
  | None => Some (g, fusionCount)
  | Some g' => match fuel with O => None | S fuel => fuseLoop fuel g' (fusionCount + 1) end
  end.

(** [sortTopologically]; the hash maps keyed by identifier are arrays over
    positions, as identifiers are distinct. *)
Definition sortTopologically (g : Graph.t) : VGREResult * Graph.t :=
  if bool_decide (nodes g = []) then (SUCCESS, g) else
  match resolveDeps (nodes g) with
  | None => (ERR_INVALID_VALUE, g)
  | Some preds =>
      match kahnOrder hashOrder preds with
      | Some order =>
          if bool_decide (length order = length (nodes g)) then
            let ns := omap (fun i => nodes g !! i) order in
            (SUCCESS, mkGraph (id g) (nextNodeId g) ns (buildIndex ns))
          else (ERR_INVALID_VALUE, g)
      | None => (ERR_INVALID_VALUE, g)
      end
  end.

(** Every fusion shrinks the graph by a node, so its size is enough fuel. *)
Definition optimize (g : Graph.t) : option (VGREResult * Graph.t) :=
  if bool_decide (nodes g = []) then Some (SUCCESS, g) else
  '(g, fusionCount) ← fuseLoop (length (nodes g)) g 0;
  Some (if 0 <? fusionCount then sortTopologically g else (SUCCESS, g)).

(** ** Edges and their contraction *)

(** Node [m] depends on node [d]. *)
Definition edge (ns : list GraphNode) (d m : Z) : Prop := exists n, n ∈ ns /\ nodeId n = m /\ d ∈ deps n.

Lemma edge_dag ns rank d m : (forall n d, n ∈ ns -> d ∈ deps n -> (rank d < rank (nodeId n))%nat) ->
  edge ns d m -> (rank d < rank m)%nat.
Proof. intros H (n & Hn & <- & Hd). by apply H. Qed.

Lemma elem_unique l d : d ∈ unique l <-> d ∈ l.
Proof.
  induction l as [|d1 l IH]; [done|]. destruct l as [|d2 l]; [done|].
  cbn [unique] in *. destruct (Z.eqb_spec d1 d2) as [->|].
  - rewrite IH, !elem_of_cons. tauto.
  - rewrite elem_of_cons, IH. by rewrite (elem_of_cons (d2 :: l)).
Qed.

Lemma elem_mergeDeps idA da db d : d ∈ mergeDeps idA da db <-> d ∈ da \/ (d ∈ db /\ d <> idA).
Proof.
  unfold mergeDeps. revert da. induction db as [|d' db IH]; intros da; simpl.
  { rewrite elem_of_nil. tauto. }
  rewrite IH, elem_of_cons. destruct (Z.eqb_spec d' idA) as [->|Hne]; simpl; [tauto|].
  case_bool_decide; [|rewrite elem_of_app, list_elem_of_singleton]; naive_solver.
Qed.

(** Where the fusion of [idA] and [idB] into [idF] sends an identifier. *)
Definition fuseId (idA idB idF d : Z) : Z := if (d =? idA) || (d =? idB) then idF else d.

Lemma fuseId_spec idA idB idF d :
  fuseId idA idB idF d = if decide (d = idA \/ d = idB) then idF else d.
Proof. unfold fuseId. destruct (Z.eqb_spec d idA), (Z.eqb_spec d idB); simpl; case_decide; tauto. Qed.

Lemma rewire_deps idA idB idF n d : nodeId n <> idA -> nodeId n <> idB -> nodeId n ∉ deps n -> idF <> nodeId n ->
  d ∈ deps (rewire idA idB idF n) <-> exists d', d' ∈ deps n /\ fuseId idA idB idF d' = d.
Proof.
  intros HA HB Hself HF. unfold rewire.
  rewrite (proj2 (Z.eqb_neq _ _) HA), (proj2 (Z.eqb_neq _ _) HB). simpl. case_bool_decide as Ht; simpl.
  - rewrite list_elem_of_filter, elem_unique, (merge_sort_Permutation Z.le), list_elem_of_fmap.
    split; [intros (_ & d' & -> & Hd'); by exists d'|]. intros (d' & Hd' & <-). split; [|by exists d'].
    rewrite fuseId_spec. case_decide; [done|]. intros ->. done.
  - split; [|intros (d' & Hd' & <-)]; [intros Hd; exists d; split; [done|]|];
      rewrite fuseId_spec, decide_False; try done; intros [-> | ->]; tauto.
Qed.

Lemma rewire_id idA idB idF n : nodeId (rewire idA idB idF n) = nodeId n.
Proof. unfold rewire. repeat case_match; done. Qed.

(** Everything but the dependencies survives. *)
Lemma rewire_with_deps idA idB idF n : with_deps (rewire idA idB idF n) [] = with_deps n [].
Proof. unfold rewire. repeat case_match; done. Qed.

Lemma elem_delete {A B} (f : A -> B) (l : list A) i y v : NoDup (f <$> l) -> l !! i = Some y ->
  v ∈ delete i l <-> v ∈ l /\ f v <> f y.
Proof.
  intros Hnd Hi. rewrite delete_take_drop. rewrite <- (take_drop_middle l i y Hi) in Hnd.
  rewrite <- (take_drop_middle l i y Hi) at 3. rewrite fmap_app, fmap_cons in Hnd.
  apply NoDup_app in Hnd as (_ & Hd & [Hn _]%NoDup_cons). rewrite !elem_of_app, elem_of_cons. split.
  - intros [Hv|Hv]; (split; [tauto|]); intros E.
    + apply (Hd (f v)); [by apply list_elem_of_fmap_2|]. rewrite E. by left.
    + apply Hn. rewrite <- E. by apply list_elem_of_fmap_2.
  - intros [[Hv|[-> |Hv]] Hne]; tauto.
Qed.

Lemma NoDup_delete {A B} (f : A -> B) (l : list A) i : NoDup (f <$> l) -> NoDup (f <$> delete i l).
Proof.
  intros H. rewrite list_fmap_delete.
  eapply sublist_NoDup; [exact H|apply sublist_delete].
Qed.

(** ** Fusing two nodes *)

Section Fuse.
Context (g : Graph.t) (ia ib : nat) (a b : GraphNode) (fid : Z) (fname : string).
Context (Hwf : wf g) (Ha : nodes g !! ia = Some a) (Hb : nodes g !! ib = Some b) (Hab : nodeId a <> nodeId b).
Context (Hfuse : fuseKernels [kernelId (kernel a); kernelId (kernel b)] = Ok (fid, fname)).

Local Abbreviation A := (nodeId a).
Local Abbreviation B := (nodeId b).
Local Abbreviation F := (nextNodeId g).
Local Abbreviation fused := (fusedNode a b F fid fname).

Lemma fresh_F n : n ∈ nodes g -> F <> nodeId n.
Proof. intros [i Hi]%list_elem_of_lookup. pose proof (wf_ids _ Hwf _ _ Hi). lia. Qed.

Lemma fuseNodes_elem : exists g', fuseNodes g ia ib = Ok g' /\ nextNodeId g' = F + 1 /\
  NoDup (ids (nodes g')) /\ nodeIndex g' = buildIndex (nodes g') /\ S (length (nodes g')) = length (nodes g) /\
  forall v, v ∈ nodes g' <-> v = fused \/ exists n, n ∈ nodes g /\ nodeId n <> A /\ nodeId n <> B /\ v = rewire A B F n.
Proof.
  unfold fuseNodes. rewrite Ha, Hb, Hfuse. cbv zeta. simpl.
  set (ns := (rewire A B F <$> nodes g) ++ [fused]). eexists. split; [reflexivity|]. simpl.
  assert (Hids : ids (rewire A B F <$> nodes g) = ids (nodes g)).
  { unfold ids. rewrite <- list_fmap_compose. apply list_fmap_ext. intros ? n _. apply rewire_id. }
  assert (Hnd : NoDup (nodeId <$> ns)).
  { unfold ns. rewrite fmap_app. change (nodeId <$> _) with (ids (rewire A B F <$> nodes g)) at 1.
    rewrite Hids. apply NoDup_app. split_and!; [by apply wf_NoDup| |by apply NoDup_singleton].
    intros nid (n & -> & Hn)%list_elem_of_fmap Hf. apply list_elem_of_singleton in Hf.
    by apply (fresh_F n Hn). }
  assert (Hna : ns !! ia = Some (rewire A B F a)).
  { apply lookup_app_l_Some. by rewrite list_lookup_fmap, Ha. }
  assert (Hnb : ns !! ib = Some (rewire A B F b)).
  { apply lookup_app_l_Some. by rewrite list_lookup_fmap, Hb. }
  assert (Hne : ia <> ib) by (intros ->; congruence).
  pose proof (lookup_lt_Some _ _ _ Ha) as Hla. pose proof (lookup_lt_Some _ _ _ Hb) as Hlb.
  assert (Hlen : length ns = S (length (nodes g))) by (unfold ns; rewrite length_app, length_fmap; simpl; lia).
  assert (Hmem : forall v, v ∈ delete (Nat.min ia ib) (delete (Nat.max ia ib) ns) <->
    v ∈ ns /\ nodeId v <> A /\ nodeId v <> B).
  { intros v. destruct (decide (ia < ib)%nat).
    - rewrite Nat.min_l, Nat.max_r by lia. rewrite (elem_delete nodeId _ ia (rewire A B F a)).
      + rewrite (elem_delete nodeId ns ib _ v Hnd Hnb), !rewire_id. tauto.
      + by apply NoDup_delete.
      + by rewrite list_lookup_delete_lt.
    - rewrite Nat.min_r, Nat.max_l by lia. rewrite (elem_delete nodeId _ ib (rewire A B F b)).
      + rewrite (elem_delete nodeId ns ia _ v Hnd Hna), !rewire_id. tauto.
      + by apply NoDup_delete.
      + rewrite list_lookup_delete_lt; [done|lia]. }
  split_and!; [done|by do 2 apply NoDup_delete|done| |].
  - rewrite !length_delete; [lia|apply lookup_lt_is_Some; lia|apply lookup_lt_is_Some].
    rewrite length_delete by (apply lookup_lt_is_Some; lia). lia.
  - intros v. rewrite Hmem. unfold ns. rewrite elem_of_app, list_elem_of_singleton, list_elem_of_fmap. split.
    + intros [[(n & -> & Hn)|Hv] [HA HB]]; [|by left]. rewrite rewire_id in *. right. eauto.
    + intros [-> |(n & Hn & HA & HB & ->)].
      * split; [by right|]. split; apply (fresh_F); by eapply list_elem_of_lookup_2.
      * rewrite rewire_id. split; [left; eauto|done].
Qed.

Context (Hcl : closed (nodes g)).
Context (rank : Z -> nat) (Hrank : forall n d, n ∈ nodes g -> d ∈ deps n -> (rank d < rank (nodeId n))%nat).
Context (HAB : A ∈ deps b) (Hsingle : forall n, n ∈ nodes g -> A ∈ deps n -> nodeId n = B).

Local Abbreviation phi := (fuseId A B F).

Lemma a_in : a ∈ nodes g. Proof. by eapply list_elem_of_lookup_2. Qed.
Lemma b_in : b ∈ nodes g. Proof. by eapply list_elem_of_lookup_2. Qed.

Lemma no_self n : n ∈ nodes g -> nodeId n ∉ deps n.
Proof. intros Hn Hd. pose proof (Hrank n _ Hn Hd). lia. Qed.

Lemma dep_not_F n d : n ∈ nodes g -> d ∈ deps n -> d <> F.
Proof.
  intros Hn Hd ->. destruct (list_elem_of_fmap_1 _ _ _ (Hcl n F Hn Hd)) as (n' & HF & Hn').
  by apply (fresh_F n' Hn').
Qed.

Lemma phi_other d : d <> A -> d <> B -> phi d = d.
Proof. intros. rewrite fuseId_spec, decide_False; tauto. Qed.

Lemma phi_pair d : d = A \/ d = B -> phi d = F.
Proof. intros. by rewrite fuseId_spec, decide_True. Qed.

Lemma elem_fused d : d ∈ deps fused <-> d ∈ deps a \/ d ∈ deps b /\ d <> A.
Proof. apply elem_mergeDeps. Qed.

(** A dependency of [a], and one of [b] other than [a], is outside the pair. *)
Lemma fused_dep_outside d : d ∈ deps fused -> d <> A /\ d <> B /\ d <> F.
Proof.
  rewrite elem_fused. pose proof (Hrank b A b_in HAB). intros [Hd|[Hd Hne]].
  - pose proof (Hrank a d a_in Hd). split_and!; [intros ->; lia..|by apply (dep_not_F a d a_in)].
  - pose proof (Hrank b d b_in Hd). split_and!; [done|intros ->; lia|by apply (dep_not_F b d b_in)].
Qed.

Lemma fuse_edges g' u v : fuseNodes g ia ib = Ok g' ->
  edge (nodes g') u v <-> u <> v /\ exists d m, edge (nodes g) d m /\ phi d = u /\ phi m = v.
Proof.
  intros Hg. destruct fuseNodes_elem as (g1 & Hg1 & _ & _ & _ & _ & Hel). rewrite Hg in Hg1. injection Hg1 as <-.
  split.
  - intros (n' & Hn' & <- & Hu). apply Hel in Hn' as [-> |(n & Hn & HA & HB & ->)].
    + destruct (fused_dep_outside u Hu) as (HuA & HuB & HuF). split; [exact HuF|]. apply elem_fused in Hu.
      destruct Hu as [Hu|[Hu _]]; exists u; [exists A|exists B];
        (split; [eexists; split; [|split; [reflexivity|exact Hu]]|split; [by apply phi_other|apply phi_pair; tauto]]);
        [apply a_in|apply b_in].
    + rewrite rewire_id. apply rewire_deps in Hu as (d & Hd & <-); [|done|done|by apply no_self|by apply fresh_F].
      split.
      * destruct (decide (d = A \/ d = B)) as [Hp|Hp]; [rewrite phi_pair by done; by apply fresh_F|].
        rewrite phi_other by tauto. intros ->. by apply (no_self n Hn).
      * exists d, (nodeId n). split; [by exists n|]. split; [done|by apply phi_other].
  - intros [Hne (d & m & (n & Hn & <- & Hd) & <- & <-)].
    destruct (decide (nodeId n = A \/ nodeId n = B)) as [Hp|Hp].
    + rewrite (phi_pair (nodeId n)) in * by done. exists fused. split; [apply Hel; by left|]. split; [done|].
      destruct (decide (d = A \/ d = B)) as [Hd'|Hd']; [by rewrite phi_pair in Hne|].
      rewrite phi_other by tauto. apply elem_fused. destruct Hp as [Hp|Hp].
      * rewrite (wf_unique g n a Hwf Hn a_in Hp) in Hd. by left.
      * rewrite (wf_unique g n b Hwf Hn b_in Hp) in Hd. right. tauto.
    + rewrite (phi_other (nodeId n)) in * by tauto. exists (rewire A B F n).
      split; [apply Hel; right; exists n; tauto|]. split; [apply rewire_id|].
      apply rewire_deps; [tauto|tauto|by apply no_self|by apply fresh_F|by exists d].
Qed.

Lemma fuse_ids g' u : fuseNodes g ia ib = Ok g' ->
  u ∈ ids (nodes g') <-> exists d, d ∈ ids (nodes g) /\ phi d = u.
Proof.
  intros Hg. destruct fuseNodes_elem as (g1 & Hg1 & _ & _ & _ & _ & Hel). rewrite Hg in Hg1. injection Hg1 as <-.
  unfold ids. rewrite list_elem_of_fmap. split.
  - intros (n' & -> & Hn'). apply Hel in Hn' as [-> |(n & Hn & HA & HB & ->)].
    + exists A. split; [apply list_elem_of_fmap_2, a_in|apply phi_pair; tauto].
    + exists (nodeId n). rewrite rewire_id. split; [by apply list_elem_of_fmap_2|by apply phi_other].
  - intros (d & (n & -> & Hn)%list_elem_of_fmap & <-). destruct (decide (nodeId n = A \/ nodeId n = B)) as [Hp|Hp].
    + exists fused. rewrite phi_pair by done. split; [done|]. apply Hel. by left.
    + exists (rewire A B F n). rewrite phi_other, rewire_id by tauto. split; [done|].
      apply Hel. right. exists n. tauto.
Qed.

(** The fused graph is closed and acyclic. *)
Lemma fuse_ok g' : fuseNodes g ia ib = Ok g' -> 0 < F -> wf g' /\ closed (nodes g') /\ dag (nodes g').
Proof.
  intros Hg HF. destruct fuseNodes_elem as (g1 & Hg1 & Hnx & Hnd & Hix & _ & Hel).
  rewrite Hg in Hg1. injection Hg1 as <-. split_and!.
  - apply wf_build; [done|done|]. intros n' Hn'. rewrite Hnx. apply Hel in Hn' as [-> |(n & Hn & _ & _ & ->)].
    + cbn [fusedNode with_kernel newNode nodeId]. lia.
    + rewrite rewire_id. apply list_elem_of_lookup in Hn as [i Hi]. pose proof (wf_ids _ Hwf _ _ Hi). lia.
  - intros n' u Hn' Hu. apply (fuse_ids g' u Hg).
    assert (edge (nodes g') u (nodeId n')) as He by (exists n'; done).
    apply (fuse_edges g' u _ Hg) in He as (_ & d & m & (n & Hn & _ & Hd) & <- & _). exists d. split; [|done].
    by apply (Hcl n).
  - exists (fun u => if decide (u = F) then rank B else rank u). intros n' u Hn' Hu.
    assert (edge (nodes g') u (nodeId n')) as He by (exists n'; done).
    apply (fuse_edges g' u _ Hg) in He as (Hne & d & m & (n & Hn & <- & Hd) & Hpu & Hpm).
    rewrite <- Hpu, <- Hpm in *.
    pose proof (Hrank n d Hn Hd) as Hr. pose proof (Hrank b A b_in HAB) as HrAB.
    pose proof (dep_not_F n d Hn Hd). pose proof (fresh_F n Hn).
    destruct (decide (d = A \/ d = B)) as [Hp|Hp]; [rewrite (phi_pair d Hp) in *|rewrite (phi_other d) in * by tauto];
    (destruct (decide (nodeId n = A \/ nodeId n = B)) as [Hq|Hq];
      [rewrite (phi_pair (nodeId n) Hq) in *|rewrite (phi_other (nodeId n)) in * by tauto]); [done|..].
    + rewrite decide_True, decide_False by done. destruct Hp as [-> | ->]; [|done].
      pose proof (Hsingle n Hn Hd). tauto.
    + rewrite decide_False, decide_True by done. destruct Hq as [Hq|Hq]; rewrite Hq in Hr; lia.
    + by rewrite !decide_False by done.
Qed.

End Fuse.

(** ** The loop *)

Definition graph_ok (g : Graph.t) : Prop := wf g /\ 0 < nextNodeId g /\ closed (nodes g) /\ dag (nodes g).

(** [ns'] is [ns] with nodes identified by [phi]: its edges are exactly the
    images of the edges between nodes that stay distinct, and nodes other than
    kernels are kept. *)
Record contracts (ns ns' : list GraphNode) (phi : Z -> Z) : Prop := mkContracts {
  c_ids : forall u, u ∈ ids ns' <-> exists d, d ∈ ids ns /\ phi d = u;
  c_edge : forall u v, edge ns' u v <-> u <> v /\ exists d m, edge ns d m /\ phi d = u /\ phi m = v;
  c_keep : forall n, n ∈ ns -> type n <> KERNEL -> phi (nodeId n) = nodeId n /\
    exists n', n' ∈ ns' /\ with_deps n' [] = with_deps n [];
}.

Lemma dag_no_loop ns u v : dag ns -> edge ns u v -> u <> v.
Proof. intros [rank Hr] He ->. pose proof (edge_dag ns rank v v Hr He). lia. Qed.

Lemma contracts_same ns ns' : dag ns -> (forall n, n ∈ ns' <-> n ∈ ns) -> contracts ns ns' (fun d => d).
Proof.
  intros Hd Hmem.
  assert (forall u v, edge ns' u v <-> edge ns u v) as He.
  { intros u v. unfold edge. split; intros (n & Hn & Hr); exists n; (split; [by apply Hmem|done]). }
  split.
  - intros u. unfold ids. rewrite list_elem_of_fmap. split.
    + intros (n & -> & Hn%Hmem). exists (nodeId n). split; [by apply list_elem_of_fmap_2|done].
    + intros (d & (n & -> & Hn)%list_elem_of_fmap & <-). exists n. split; [done|by apply Hmem].
  - intros u v. rewrite He. split; [|by intros (_ & d & m & Hdm & <- & <-)].
    intros Huv. split; [by eapply dag_no_loop|by exists u, v].
  - intros n Hn _. split; [done|]. exists n. split; [by apply Hmem|done].
Qed.

Lemma contracts_trans ns1 ns2 ns3 p q : contracts ns1 ns2 p -> contracts ns2 ns3 q ->
  contracts ns1 ns3 (fun d => q (p d)).
Proof.
  intros [I1 E1 K1] [I2 E2 K2]. split.
  - intros u. rewrite I2. setoid_rewrite I1. naive_solver.
  - intros u v. rewrite E2. setoid_rewrite E1. split.
    + intros (Hne & d & m & (_ & d' & m' & He & <- & <-) & <- & <-). split; [done|]. by exists d', m'.
    + intros (Hne & d & m & He & <- & <-). split; [done|]. exists (p d), (p m). split; [|done].
      split; [congruence|]. by exists d, m.
  - intros n Hn Ht. destruct (K1 n Hn Ht) as (Hp & n' & Hn' & He).
    assert (nodeId n' = nodeId n /\ type n' = type n) as [Hid Hty].
    { split; [exact (f_equal nodeId He)|exact (f_equal type He)]. }
    destruct (K2 n' Hn') as (Hq & n'' & Hn'' & He'); [by rewrite Hty|].
    split; [rewrite Hp; congruence|]. exists n''. split; [done|congruence].
Qed.

Lemma elem_successors ns nid k : k ∈ successors ns nid <-> exists n, ns !! k = Some n /\ nid ∈ deps n.
Proof.
  unfold successors. rewrite list_elem_of_In, in_concat. split.
  - intros (l & Hl & Hk). apply list_elem_of_In, list_elem_of_lookup in Hl as [i Hi].
    rewrite list_lookup_imap in Hi. apply fmap_Some in Hi as (n & Hn & ->).
    apply list_elem_of_In, list_elem_of_fmap in Hk as (d & -> & Hd).
    apply list_elem_of_filter in Hd as [-> Hd]. eauto.
  - intros (n & Hn & Hd). eexists. split.
    + apply list_elem_of_In, list_elem_of_lookup. exists k. rewrite list_lookup_imap, Hn. done.
    + apply list_elem_of_In, list_elem_of_fmap. exists nid. split; [done|]. by apply list_elem_of_filter.
Qed.

Lemma tryFuse_ok g i g' : graph_ok g -> tryFuse g i = Some g' ->
  graph_ok g' /\ S (length (nodes g')) = length (nodes g) /\
  exists k a b fid fname, nodes g !! i = Some a /\ nodes g !! k = Some b /\ nodeId a <> nodeId b /\
    type a = KERNEL /\ type b = KERNEL /\ nodeId a ∈ deps b /\
    fuseKernels [kernelId (kernel a); kernelId (kernel b)] = Ok (fid, fname) /\ fuseNodes g i k = Ok g' /\
    contracts (nodes g) (nodes g') (fuseId (nodeId a) (nodeId b) (nextNodeId g)).
Proof.
  intros (Hwf & Hnx & Hcl & rank & Hrank) H. unfold tryFuse in H.
  destruct (nodes g !! i) as [a|] eqn:Ha; simpl in H; [|done].
  case_bool_decide as Hta; [done|].
  destruct (successors (nodes g) (nodeId a)) as [|next [|]] eqn:Es; try done.
  destruct (nodes g !! next) as [b|] eqn:Hb; simpl in H; [|done].
  destruct (bool_decide (type b = KERNEL) && areFusible a b) eqn:Ef; [|done].
  destruct (fuseNodes g i next) as [g1|] eqn:Hg; [|done]. injection H as <-.
  apply andb_true_iff in Ef as [Htb _]. apply bool_decide_eq_true in Htb.
  assert (forall k n, nodes g !! k = Some n -> nodeId a ∈ deps n -> k = next) as Honly.
  { intros k n Hk Hd. apply list_elem_of_singleton. rewrite <- Es. apply elem_successors. eauto. }
  assert (nodeId a ∈ deps b) as HAB.
  { assert (next ∈ successors (nodes g) (nodeId a)) as Hin by (rewrite Es; by left).
    apply elem_successors in Hin as (n & Hn & Hd). congruence. }
  assert (b ∈ nodes g) as Hbin by (by eapply list_elem_of_lookup_2).
  assert (nodeId a <> nodeId b) as Hne.
  { intros E. pose proof (Hrank b _ Hbin HAB) as Hr. rewrite E in Hr. lia. }
  assert (forall n, n ∈ nodes g -> nodeId a ∈ deps n -> nodeId n = nodeId b) as Hsingle.
  { intros n [k Hk]%list_elem_of_lookup Hd. pose proof (Honly k n Hk Hd) as ->. congruence. }
  destruct (fuseKernels [kernelId (kernel a); kernelId (kernel b)]) as [[fid fname]|e] eqn:Hf.
  2:{ unfold fuseNodes in Hg. rewrite Ha, Hb, Hf in Hg. done. }
  destruct (fuseNodes_elem g i next a b fid fname Hwf Ha Hb Hne Hf) as (g2 & Hg2 & Hn2 & _ & _ & Hlen & Hel).
  rewrite Hg in Hg2. injection Hg2 as <-.
  destruct (fuse_ok g i next a b fid fname Hwf Ha Hb Hne Hf Hcl rank Hrank HAB Hsingle g1 Hg Hnx) as (W & C & D).
  split_and!; [split_and!; [done|lia|done|done]|done|]. exists next, a, b, fid, fname.
  assert (type a = KERNEL) as Hta' by (destruct (decide (type a = KERNEL)); tauto).
  do 8 (split; [done|]). split.
  - intros u. by eapply fuse_ids.
  - intros u v. by eapply fuse_edges.
  - intros n Hn Ht. assert (nodeId n <> nodeId a /\ nodeId n <> nodeId b) as [HA HB].
    { split; intros E; [rewrite (wf_unique g n a Hwf Hn (list_elem_of_lookup_2 _ _ _ Ha) E) in Ht
                       |rewrite (wf_unique g n b Hwf Hn Hbin E) in Ht]; done. }
    split; [rewrite fuseId_spec, decide_False; tauto|].
    exists (rewire (nodeId a) (nodeId b) (nextNodeId g) n). split; [apply Hel; right; by exists n|].
    apply rewire_with_deps.
Qed.

Lemma fusePass_try g g' : fusePass g = Some g' -> exists i, tryFuse g i = Some g'.
Proof.
  unfold fusePass. induction (seq 0 (length (nodes g))) as [|i l IH]; simpl; [done|].
  destruct (tryFuse g i) eqn:E; [intros [= <-]; eauto|exact IH].
Qed.

(** What is left when a pass changes nothing: no kernel whose only dependent,
    listed once, is a kernel it can be fused with, unless the back end refuses
    the pair. *)
Definition dependents (ns : list GraphNode) (nid : Z) : list Z := filter (fun d => d = nid) (ns ≫= deps).

Definition stable (ns : list GraphNode) : Prop :=
  forall a b, a ∈ ns -> b ∈ ns -> type a = KERNEL -> type b = KERNEL ->
    length (dependents ns (nodeId a)) = 1%nat -> nodeId a ∈ deps b -> areFusible a b = true ->
    exists e, fuseKernels [kernelId (kernel a); kernelId (kernel b)] = Err e.

Lemma length_successors ns nid : length (successors ns nid) = length (dependents ns nid).
Proof.
  unfold successors, dependents. change (fun i n => (fun _ => i) <$> filter (fun d => d = nid) (deps n))
    with (fun i n => (fun _ : Z => (fun j : nat => j) i) <$> filter (fun d => d = nid) (deps n)).
  generalize (fun j : nat => j).
  induction ns as [|n ns IH]; intros h; [done|]. cbn [mbind list_bind]. rewrite imap_cons. cbn [concat].
  rewrite length_app, filter_app, length_app, length_fmap. f_equal. apply (IH (h ∘ S)).
Qed.

Lemma fusePass_none g i : fusePass g = None -> (i < length (nodes g))%nat -> tryFuse g i = None.
Proof.
  unfold fusePass. intros H Hi. assert (i ∈ seq 0 (length (nodes g))) as Hin by (apply elem_of_seq; lia). clear Hi.
  induction (seq 0 (length (nodes g))) as [|k l IH]; [by apply not_elem_of_nil in Hin|]. simpl in H.
  destruct (tryFuse g k) eqn:E; [done|]. apply elem_of_cons in Hin as [-> |Hin]; [done|by apply IH].
Qed.

Lemma fusePass_stable g : fusePass g = None -> stable (nodes g).
Proof.
  intros H a b Ha Hb Hta Htb Hone Hdep Hfus. apply list_elem_of_lookup in Ha as [i Hi].
  apply list_elem_of_lookup in Hb as [k Hk].
  pose proof (fusePass_none g i H (lookup_lt_Some _ _ _ Hi)) as Ht. unfold tryFuse in Ht. rewrite Hi in Ht. simpl in Ht.
  rewrite bool_decide_eq_false_2 in Ht by tauto. rewrite <- length_successors in Hone.
  assert (k ∈ successors (nodes g) (nodeId a)) as Hks by (apply elem_successors; eauto).
  destruct (successors (nodes g) (nodeId a)) as [|next [|]] eqn:Es; try done. apply list_elem_of_singleton in Hks as ->.
  rewrite Hk in Ht. simpl in Ht. rewrite bool_decide_eq_true_2, Hfus in Ht by done. simpl in Ht.
  unfold fuseNodes in Ht. rewrite Hi, Hk in Ht. destruct (fuseKernels _) as [[fid fname]|e]; [done|by exists e].
Qed.

Lemma stable_perm ns ns' : ns ≡ₚ ns' -> stable ns -> stable ns'.
Proof.
  intros Hp H a b Ha Hb Hta Htb Hone. apply H; [by rewrite Hp|by rewrite Hp|done|done|].
  unfold dependents in *. by rewrite Hp.
Qed.

(** Nodes kept or fused: [n'] stands for the nodes [l] of the original, in an
    order that respects their edges. *)
Inductive fusion : list GraphNode -> KernelData -> Prop :=
| fusion_one n : fusion [n] (kernel n)
| fusion_two la lb ka kb fid fname : fusion la ka -> fusion lb kb ->
    fuseKernels [kernelId ka; kernelId kb] = Ok (fid, fname) ->
    fusion (la ++ lb) (mkKernel fid fname (gridDim ka) (blockDim ka) (capturedArgs ka ++ capturedArgs kb) [] []).

Record origin (ns : list GraphNode) (phi : Z -> Z) (n' : GraphNode) (l : list GraphNode) : Prop := mkOrigin {
  o_mem : forall n, n ∈ l <-> n ∈ ns /\ phi (nodeId n) = nodeId n';
  o_once : NoDup l;
  o_order : forall i j x m, l !! i = Some x -> l !! j = Some m -> nodeId x ∈ deps m -> (i < j)%nat;
  o_what : (exists n, l = [n] /\ with_deps n' [] = with_deps n []) \/
    ((1 < length l)%nat /\ with_deps n' [] = with_kernel (newNode KERNEL (nodeId n') []) (kernel n') /\
     Forall (fun n => type n = KERNEL) l /\ fusion l (kernel n'));
}.

Definition built (ns ns' : list GraphNode) (phi : Z -> Z) : Prop :=
  forall n', n' ∈ ns' -> exists l, origin ns phi n' l.

Lemma built_same ns : dag ns -> NoDup (ids ns) -> built ns ns (fun d => d).
Proof.
  intros [rank Hr] Hnd n' Hn'. exists [n']. split.
  - intros n. rewrite list_elem_of_singleton. split; [by intros ->|]. intros [Hn E].
    apply list_elem_of_lookup in Hn as [i Hi], Hn' as [j Hj]. assert (i = j) as ->; [|congruence].
    eapply (NoDup_lookup (ids ns)); [done|unfold ids; by rewrite list_lookup_fmap, Hi|unfold ids; rewrite list_lookup_fmap, Hj; simpl; by rewrite E].
  - apply NoDup_singleton.
  - intros i j x m Hi Hj Hd. apply list_elem_of_lookup_2, list_elem_of_singleton in Hi as ->.
    apply list_elem_of_lookup_2, list_elem_of_singleton in Hj as ->. pose proof (Hr n' _ Hn' Hd). lia.
  - left. by exists n'.
Qed.

Lemma built_perm ns ns1 ns2 phi : ns1 ≡ₚ ns2 -> built ns ns1 phi -> built ns ns2 phi.
Proof. intros Hp H n' Hn'. apply H. by rewrite Hp. Qed.

(** What a kernel that stands for [l] fuses further. *)
Lemma origin_fusion ns phi n' l : origin ns phi n' l -> type n' = KERNEL ->
  (0 < length l)%nat /\ Forall (fun n => type n = KERNEL) l /\ fusion l (kernel n').
Proof.
  intros [_ _ _ [(n & -> & E)|(Hl & _ & Hf & Hk)]] Ht; [|split; [lia|done]]. split; [simpl; lia|].
  pose proof (f_equal type E) as Et. pose proof (f_equal kernel E) as Ek. simpl in Et, Ek.
  split; [apply Forall_singleton; congruence|]. rewrite Ek. apply fusion_one.
Qed.

Section Step.
Context (ns0 : list GraphNode) (g : Graph.t) (p : Z -> Z) (ia ib : nat) (a b : GraphNode) (fid : Z) (fname : string).
Context (Hwf : wf g) (Ha : nodes g !! ia = Some a) (Hb : nodes g !! ib = Some b) (Hab : nodeId a <> nodeId b).
Context (Hfuse : fuseKernels [kernelId (kernel a); kernelId (kernel b)] = Ok (fid, fname)).
Context (Hta : type a = KERNEL) (Htb : type b = KERNEL) (HAB : nodeId a ∈ deps b) (Hdag : dag (nodes g)).
Context (Hc : contracts ns0 (nodes g) p) (Hbuilt : built ns0 (nodes g) p).

Local Abbreviation A := (nodeId a).
Local Abbreviation B := (nodeId b).
Local Abbreviation F := (nextNodeId g).

Lemma image_id n : n ∈ ns0 -> exists m, m ∈ nodes g /\ p (nodeId n) = nodeId m.
Proof.
  intros Hn. assert (p (nodeId n) ∈ ids (nodes g)) as H.
  { apply (c_ids _ _ _ Hc). exists (nodeId n). split; [by apply list_elem_of_fmap_2|done]. }
  apply list_elem_of_fmap in H as (m & -> & Hm). by exists m.
Qed.

Lemma fused_origin la lb : origin ns0 p a la -> origin ns0 p b lb ->
  origin ns0 (fun d => fuseId A B F (p d)) (fusedNode a b F fid fname) (la ++ lb).
Proof.
  intros Oa Ob. destruct (origin_fusion _ _ _ _ Oa Hta) as (La & Ka & Fa). destruct (origin_fusion _ _ _ _ Ob Htb) as (Lb & Kb & Fb).
  destruct Oa as [Ma Na Ra _], Ob as [Mb Nb Rb _]. split.
  - intros n. rewrite elem_of_app, Ma, Mb. cbn [fusedNode with_kernel newNode nodeId]. rewrite fuseId_spec. split.
    + intros [[Hn E]|[Hn E]]; (split; [done|]); rewrite decide_True by tauto; done.
    + intros [Hn E]. case_decide as Hd; [tauto|]. destruct (image_id n Hn) as (m & Hm & Em).
      exfalso. apply (fresh_F g Hwf m Hm). congruence.
  - apply NoDup_app. split; [done|]. split; [|done]. intros n [Hn E]%Ma [_ E']%Mb. congruence.
  - intros i j x m Hi Hj Hd. apply lookup_app_Some in Hi as [Hi|[Hli Hi]], Hj as [Hj|[Hlj Hj]].
    + by eapply Ra.
    + apply lookup_lt_Some in Hi. lia.
    + exfalso. apply list_elem_of_lookup_2 in Hi as [Hx Ex]%Mb. apply list_elem_of_lookup_2 in Hj as [Hm Em]%Ma.
      assert (edge (nodes g) B A) as He.
      { apply (c_edge _ _ _ Hc). split; [done|]. exists (nodeId x), (nodeId m). split; [|done]. by exists m. }
      destruct Hdag as [rank Hr]. pose proof (edge_dag _ rank _ _ Hr He).
      pose proof (Hr b A (list_elem_of_lookup_2 _ _ _ Hb) HAB). lia.
    + pose proof (Rb _ _ _ _ Hi Hj Hd). lia.
  - right. split; [rewrite length_app; lia|]. split; [done|]. split; [by apply Forall_app|]. by apply fusion_two.
Qed.

Lemma built_step g' : fuseNodes g ia ib = Ok g' -> built ns0 (nodes g') (fun d => fuseId A B F (p d)).
Proof.
  intros Hg n' Hn'. destruct (fuseNodes_elem g ia ib a b fid fname Hwf Ha Hb Hab Hfuse) as (g1 & Hg1 & _ & _ & _ & _ & Hel).
  rewrite Hg in Hg1. injection Hg1 as <-. apply Hel in Hn' as [-> |(n1 & Hn1 & HA & HB & ->)].
  - destruct (Hbuilt a (list_elem_of_lookup_2 _ _ _ Ha)) as [la Oa]. destruct (Hbuilt b (list_elem_of_lookup_2 _ _ _ Hb)) as [lb Ob].
    exists (la ++ lb). by apply fused_origin.
  - destruct (Hbuilt n1 Hn1) as [l [M N R W]]. exists l. split; [|done|done|].
    + intros n. rewrite M, rewire_id, fuseId_spec. split; intros [Hn E]; (split; [done|]).
      * rewrite decide_False; [done|]. rewrite E. tauto.
      * case_decide; [|done]. exfalso. by apply (fresh_F g Hwf n1 Hn1).
    + destruct W as [(n & -> & E)|(Hl & Ht & Hk & Hf)].
      * left. exists n. split; [done|]. by rewrite rewire_with_deps.
      * right. assert (with_deps (rewire A B F n1) [] = with_deps n1 []) as E by apply rewire_with_deps.
        pose proof (f_equal kernel E) as Ek. simpl in Ek. split; [done|]. by rewrite E, rewire_id, Ek.
Qed.
End Step.

(** Enough fuel for one pass per node: the loop ends, at a graph another pass
    would leave alone. *)
Lemma fuseLoop_ok ns0 fuel g k p : graph_ok g -> contracts ns0 (nodes g) p -> built ns0 (nodes g) p ->
  (length (nodes g) <= fuel)%nat ->
  exists g' k' phi, fuseLoop fuel g k = Some (g', k') /\ graph_ok g' /\ stable (nodes g') /\
    contracts ns0 (nodes g') phi /\ built ns0 (nodes g') phi.
Proof.
  revert g k p. induction fuel as [|fuel IH]; intros g k p Hok Hc Hb Hf; simpl;
    (destruct (fusePass g) as [g1|] eqn:E; [|exists g, k, p; split_and!; try apply Hok; by eauto using fusePass_stable]).
  all: destruct (fusePass_try g g1 E) as [i Hi].
  all: destruct (tryFuse_ok g i g1 Hok Hi) as (Hok1 & Hl & j & a & b & fid & fname & Ha & Hbj & Hne & Hta & Htb & Hd & Hfk & Hg & Hp).
  - lia.
  - apply (IH g1 (k + 1) (fun d => fuseId (nodeId a) (nodeId b) (nextNodeId g) (p d)) Hok1); [|by eapply built_step; try apply Hok|lia].
    by eapply (contracts_trans _ _ _ p).
Qed.

(** ** The re-sort *)

Context (Hhash : forall l, hashOrder l ≡ₚ l).

Lemma sortTopologically_ok g : graph_ok g ->
  exists g', sortTopologically g = (SUCCESS, g') /\ graph_ok g' /\ nodes g' ≡ₚ nodes g.
Proof.
  intros (Hwf & Hnx & Hcl & Hdag). unfold sortTopologically.
  case_bool_decide as E; [exists g; by split_and!|].
  destruct (proj2 (resolveDeps_closed _) Hcl) as [preds Hpr]. rewrite Hpr.
  pose proof (wf_NoDup _ Hwf) as Hnd. destruct (resolveDeps_lookup _ _ Hpr) as [Hl _].
  destruct (kahnOrder_complete hashOrder preds Hhash (resolveDeps_ok _ _ Hnd Hpr)) as (order & -> & _ & _ & Hiff & Hperm).
  apply (acyclic_dag _ _ Hnd Hpr) in Hdag as Hac. apply Hiff in Hac. rewrite Hl in *.
  rewrite bool_decide_eq_true_2 by done. eexists. split; [done|]. simpl.
  assert (omap (fun i => nodes g !! i) order ≡ₚ nodes g) as Hp.
  { rewrite (Hperm Hac). apply reflexive_eq, (omap_lookup_seq []). }
  assert (forall n, n ∈ omap (fun i => nodes g !! i) order <-> n ∈ nodes g) as Hmem by (intros n; by rewrite Hp).
  assert (ids (omap (fun i => nodes g !! i) order) ≡ₚ ids (nodes g)) as Hi by (unfold ids; by rewrite Hp).
  split; [|exact Hp]. split_and!.
  - apply wf_build; simpl; [by rewrite Hi|done|]. intros n Hn%Hmem.
    apply list_elem_of_lookup in Hn as [i Hl']. by apply (wf_ids _ Hwf i).
  - done.
  - intros n d Hn%Hmem Hd. cbn [nodes]. rewrite Hi. by apply (Hcl n).
  - destruct Hdag as [rank Hr]. exists rank. intros n d Hn%Hmem. by apply Hr.
Qed.

Lemma optimize_ok g : graph_ok g ->
  exists g' phi, optimize g = Some (SUCCESS, g') /\ graph_ok g' /\ contracts (nodes g) (nodes g') phi /\
    built (nodes g) (nodes g') phi /\ stable (nodes g').
Proof.
  intros Hok. assert (contracts (nodes g) (nodes g) (fun d => d)) as Hc by (by apply contracts_same; [apply Hok|]).
  assert (built (nodes g) (nodes g) (fun d => d)) as Hb by (apply built_same; [apply Hok|apply wf_NoDup, Hok]).
  unfold optimize. case_bool_decide as E.
  { exists g, (fun d => d). split; [done|]. split; [done|]. split; [done|]. split; [done|]. rewrite E.
    intros a b Ha. by apply not_elem_of_nil in Ha. }
  destruct (fuseLoop_ok (nodes g) (length (nodes g)) g 0 _ Hok Hc Hb (le_n _)) as (g1 & k & p & -> & Hok1 & Hst & Hp & Hbp).
  simpl. destruct (0 <? k); [|by exists g1, p].
  destruct (sortTopologically_ok g1 Hok1) as (g2 & -> & Hok2 & Hperm).
  exists g2, p. split; [done|]. split; [done|]. split; [|split].
  - apply (contracts_trans _ _ _ p (fun d => d) Hp), contracts_same; [apply Hok1|]. intros n. by rewrite Hperm.
  - by eapply built_perm.
  - by eapply stable_perm.
Qed.

(** C36: optimizing a well-formed acyclic graph ends, at a fixpoint, and
    preserves its meaning.  The loop reaches a pass that changes nothing within
    one pass per node, and no fusible pair is then left ([stable]: a kernel
    whose only dependent is a fusible kernel stays only if the back end refuses
    to fuse the two).  The result is well-indexed, closed and acyclic; up to
    one identification [phi] of nodes its edges are exactly the edges of the
    original between nodes that were not merged, so no ordering is lost or
    invented.  Every node of the result stands for a list of original nodes,
    each original node for exactly one: either a single node of any type, kept
    with its identifier and every field but its dependencies, or kernels
    merged in an order that respects their dependencies, launched as the back
    end's fusion of them with the first one's geometry and their arguments
    concatenated. *)
Theorem optimize_sound g : graph_ok g ->
  exists g' phi, optimize g = Some (SUCCESS, g') /\ graph_ok g' /\ contracts (nodes g) (nodes g') phi /\
    built (nodes g) (nodes g') phi /\ stable (nodes g').
Proof. apply optimize_ok. Qed.

(** ** Any graph stays well-indexed *)

Lemma fuseNodes_wf g ia ib g' : wf g -> 0 < nextNodeId g -> fuseNodes g ia ib = Ok g' ->
  wf g' /\ nextNodeId g' = nextNodeId g + 1.
Proof.
  intros Hwf Hnx H. unfold fuseNodes in H.
  destruct (nodes g !! ia) as [a|], (nodes g !! ib) as [b|]; try done.
  destruct (fuseKernels _) as [[fid fname]|]; [|done]. simplify_eq/=. split; [|done].
  set (ns := (rewire (nodeId a) (nodeId b) (nextNodeId g) <$> nodes g) ++ [fusedNode a b (nextNodeId g) fid fname]).
  assert (forall n, n ∈ ns -> 0 < nodeId n < nextNodeId g + 1 /\ (nodeId n < nextNodeId g \/ n = fusedNode a b (nextNodeId g) fid fname)) as Hb.
  { intros n [(n0 & -> & [i Hi]%list_elem_of_lookup)%list_elem_of_fmap|Hn]%elem_of_app.
    - pose proof (wf_ids _ Hwf _ _ Hi). rewrite rewire_id. lia.
    - apply list_elem_of_singleton in Hn as ->. cbn [fusedNode with_kernel newNode nodeId]. split; [lia|by right]. }
  apply wf_build; simpl; [|done|].
  - do 2 apply NoDup_delete. unfold ns. rewrite fmap_app. apply NoDup_app. split_and!.
    + rewrite <- list_fmap_compose. erewrite list_fmap_ext; [by apply wf_NoDup|].
      intros i n Hn. apply rewire_id.
    + intros nid (n & -> & (n0 & -> & [i Hi]%list_elem_of_lookup)%list_elem_of_fmap)%list_elem_of_fmap Hf.
      apply list_elem_of_singleton in Hf. rewrite rewire_id in Hf. pose proof (wf_ids _ Hwf _ _ Hi).
      cbn [fusedNode with_kernel newNode nodeId] in Hf. lia.
    + apply NoDup_singleton.
  - intros n Hn. eapply sublist_subseteq in Hn; [|apply sublist_delete].
    eapply sublist_subseteq in Hn; [|apply sublist_delete]. by apply Hb.
Qed.

(** One pass that changes an arbitrary graph. *)
Lemma fusePass_some g g' : fusePass g = Some g' -> exists i j, fuseNodes g i j = Ok g'.
Proof.
  intros [i Hi]%fusePass_try. unfold tryFuse in Hi. destruct (nodes g !! i) as [a|]; simpl in Hi; [|done].
  case_bool_decide; [done|]. destruct (successors _ _) as [|nx [|]]; try done.
  destruct (nodes g !! nx) as [b|]; simpl in Hi; [|done]. destruct (_ && _); [|done].
  destruct (fuseNodes g i nx) as [g2|] eqn:Ef; [|done]. simplify_eq. eauto.
Qed.

(** Fusing always removes a node, even one that depends on itself. *)
Lemma fuseNodes_length g i j g' : fuseNodes g i j = Ok g' -> S (length (nodes g')) = length (nodes g).
Proof.
  unfold fuseNodes. destruct (nodes g !! i) as [a|] eqn:Ha, (nodes g !! j) as [b|] eqn:Hb; try done.
  destruct (fuseKernels _) as [[fid fname]|]; [|done]. intros [= <-]. cbn [nodes].
  apply lookup_lt_Some in Ha, Hb.
  assert (length ((rewire (nodeId a) (nodeId b) (nextNodeId g) <$> nodes g) ++ [fusedNode a b (nextNodeId g) fid fname]) =
    S (length (nodes g))) as Hl by (rewrite length_app, length_fmap; simpl; lia).
  rewrite !length_delete; [lia|apply lookup_lt_is_Some; lia|apply lookup_lt_is_Some].
  rewrite length_delete by (apply lookup_lt_is_Some; lia). lia.
Qed.

Lemma fuseLoop_total fuel g k : wf g -> 0 < nextNodeId g -> (length (nodes g) <= fuel)%nat ->
  exists g' k', fuseLoop fuel g k = Some (g', k') /\ wf g' /\ 0 < nextNodeId g'.
Proof.
  revert g k. induction fuel as [|fuel IH]; intros g k Hwf Hnx Hf; simpl;
    (destruct (fusePass g) as [g1|] eqn:E; [|by exists g, k]); destruct (fusePass_some _ _ E) as (i & j & Hij);
    pose proof (fuseNodes_length _ _ _ _ Hij); [lia|].
  destruct (fuseNodes_wf _ _ _ _ Hwf Hnx Hij). apply IH; [done|lia|lia].
Qed.

Lemma sortTopologically_wf g : wf g -> 0 < nextNodeId g ->
  wf (sortTopologically g).2 /\ 0 < nextNodeId (sortTopologically g).2.
Proof.
  intros Hwf Hnx. unfold sortTopologically. case_bool_decide; [done|].
  destruct (resolveDeps (nodes g)) as [preds|] eqn:Hpr; [|done].
  pose proof (wf_NoDup _ Hwf) as Hnd. destruct (resolveDeps_lookup _ _ Hpr) as [Hl _].
  destruct (kahnOrder_complete hashOrder preds Hhash (resolveDeps_ok _ _ Hnd Hpr)) as (order & -> & _ & _ & _ & Hperm).
  rewrite Hl in Hperm. case_bool_decide as Hlen; [|done]. simpl. split; [|done].
  assert (omap (fun i => nodes g !! i) order ≡ₚ nodes g) as Hp.
  { rewrite (Hperm Hlen). apply reflexive_eq, (omap_lookup_seq []). }
  apply wf_build; simpl; [unfold ids; rewrite Hp; apply Hnd|done|].
  intros n Hn. rewrite Hp in Hn. apply list_elem_of_lookup in Hn as [i Hi]. by apply (wf_ids _ Hwf i).
Qed.

(** The pass ends on any well-indexed graph, cyclic and dangling ones included. *)
Lemma optimize_wf g : wf g -> 0 < nextNodeId g ->
  exists r g', optimize g = Some (r, g') /\ wf g' /\ 0 < nextNodeId g'.
Proof.
  intros Hwf Hnx. unfold optimize. case_bool_decide; [by exists SUCCESS, g|].
  destruct (fuseLoop_total (length (nodes g)) g 0 Hwf Hnx (le_n _)) as (g1 & k & -> & W1 & N1). simpl.
  destruct (0 <? k); [|by exists SUCCESS, g1].
  destruct (sortTopologically_wf g1 W1 N1). destruct (sortTopologically g1) as [r g2]. by exists r, g2.
Qed.

(** The pass as a function on graphs: it always ends, by [optimize_wf]. *)
Definition optimizePass (g : Graph.t) : VGREResult * Graph.t :=
  match optimize g with Some r => r | None => (SUCCESS, g) end.

(** A producer and a consumer that communicate through a pointer argument
    are never fused.  [areFusible] means to allow, as beneficial, fusing a
    kernel that reads a buffer its predecessor writes; but where every pointer
    argument is recorded as both read and written, as argument capture does,
    such a pair is a write-after-write hazard. *)
Theorem shared_pointer_blocks_fusion a b p :
  p <> 0 -> p ∈ capturedWritePtrs (kernel a) -> p ∈ capturedWritePtrs (kernel b) -> areFusible a b = false.
Proof.
  intros Hp Ha Hb. unfold areFusible.
  assert (shares (capturedWritePtrs (kernel b)) (capturedWritePtrs (kernel a)) = true) as ->.
  { unfold shares. apply bool_decide_eq_true, Exists_exists. by exists p. }
  destruct (getKernelIR (kernelId (kernel a))), (getKernelIR (kernelId (kernel b))); by rewrite ?andb_false_r.
Qed.

End GraphOptimizer.

(** What the graph manager relies on in a pass that rewrites a template. *)
Class GraphPass (pass : Graph.t -> VGREResult * Graph.t) : Prop := {
  pass_wf : forall g, wf g -> 0 < nextNodeId g -> wf (pass g).2 /\ 0 < nextNodeId (pass g).2;
  pass_ok : forall g, graph_ok g -> graph_ok (pass g).2 /\ exists phi, contracts (nodes g) (nodes (pass g).2) phi;
}.

#[export] Instance optimize_pass getKernelIR sharedMem regLimit worth fuse hashOrder
  (Hhash : forall l, hashOrder l ≡ₚ l) : GraphPass (optimizePass getKernelIR sharedMem regLimit worth fuse hashOrder).
Proof.
  split; intros g Hg; unfold optimizePass.
  - intros Hnx. by destruct (optimize_wf getKernelIR sharedMem regLimit worth fuse hashOrder Hhash g Hg Hnx) as (r & g' & -> & ?).
  - destruct (optimize_ok getKernelIR sharedMem regLimit worth fuse hashOrder Hhash g Hg) as (g' & phi & -> & ? & ? & _).
    split; [done|]. by exists phi.
Qed.

#[export] Instance id_pass : GraphPass (fun g => (SUCCESS, g)).
Proof.
  split; [done|]. intros g Hg. split; [done|]. exists (fun d => d). by apply contracts_same; [apply Hg|].
Qed.

Lemma optimize_sound_witness :
  let ir := noIR in
  let k i ds := with_kernel (newNode KERNEL i ds) (mkKernel 7 "k" (mkDim3 1 1 1) (mkDim3 1 1 1) [] [] []) in
  let ns := [k 1 []; k 2 [1]; newNode EMPTY 3 [2]] in
  exists g' phi, optimize (fun _ => Some ir) 1024 200 (fun _ _ => true) (fun _ => Ok (9, "f"%string)) (fun l => l)
      (mkGraph 1 4 ns (buildIndex ns)) = Some (SUCCESS, g') /\ contracts ns (nodes g') phi /\
    built (fun _ => Ok (9, "f"%string)) ns (nodes g') phi.
Proof.
  cbv zeta.
  match goal with |- exists g' phi, optimize ?a ?b ?c ?d ?e ?f ?g = _ /\ _ =>
    destruct (optimize_sound a b c d e f (fun l => reflexivity l) g) as (g' & phi & Ho & _ & Hc & Hb & _) end.
  - split_and!.
    + apply wf_build; [refine (bool_decide_eq_true_1 _ _); vm_compute; reflexivity|reflexivity|].
      intros n Hn. simpl in Hn. rewrite !elem_of_cons, elem_of_nil in Hn.
      destruct Hn as [-> |[-> |[-> |[]]]]; simpl; lia.
    + simpl. lia.
    + intros n d Hn Hd. simpl in Hn. rewrite !elem_of_cons, elem_of_nil in Hn.
      destruct Hn as [-> |[-> |[-> |[]]]]; simpl in Hd; rewrite ?elem_of_cons, elem_of_nil in Hd;
        destruct Hd as [-> |[]] || destruct Hd; refine (bool_decide_eq_true_1 _ _); vm_compute; reflexivity.
    + exists Z.to_nat. intros n d Hn Hd. simpl in Hn. rewrite !elem_of_cons, elem_of_nil in Hn.
      destruct Hn as [-> |[-> |[-> |[]]]]; simpl in Hd; rewrite ?elem_of_cons, elem_of_nil in Hd;
        (destruct Hd as [-> |[]] || destruct Hd); simpl; lia.
  - exists g', phi. split; [exact Ho|split; [exact Hc|exact Hb]].
Defined.

Lemma shared_pointer_blocks_fusion_witness :
  let n := with_kernel (newNode KERNEL 1 []) (mkKernel 7 "k" (mkDim3 1 1 1) (mkDim3 1 1 1) [] [4096] [4096]) in
  areFusible (fun _ => Some noIR) 1024 200 (fun _ _ => true) n n = false.
Proof.
  apply (shared_pointer_blocks_fusion _ _ _ _ _ _ 4096); [lia|by left|by left].
Defined.

(** A fused node records no buffers, so the hazard checks of a later pass no
    longer see what its parts write: here [c] writes the buffer of [a], the two
    may not be fused, and [c] is fused with the fusion of [a] and [b]. *)
Lemma fused_node_forgets_hazards :
  let k i ds p := with_kernel (newNode KERNEL i ds) (mkKernel 7 "k" (mkDim3 1 1 1) (mkDim3 1 1 1) [] p p) in
  let fusible := areFusible (fun _ => Some noIR) 1024 200 (fun _ _ => true) in
  let a := k 1 [] [4096] in let b := k 2 [1] [8192] in let c := k 3 [2] [4096] in
  fusible a c = false /\ fusible a b = true /\ fusible (fusedNode a b 4 9 "f") c = true.
Proof. vm_compute. done. Qed.

(** The register estimate does not see local declarations.  [countDecls]
    searches for a type name that already ends in a space and then requires
    another space, so a source with ordinary declarations counts none. *)
Theorem declarations_not_counted :
  countDecls "float " 1 "{ float x; float y; }" = 0 /\ countDecls "int " 1 "{ int i; }" = 0 /\
  countDecls "uint32_t" 1 "{ uint32_t i; }" = 1.
Proof. vm_compute. done. Qed.

End GraphOptimizer.
