(* ===== verification/GraphManager.v ===== *)
(** * The graph manager

    Model of [GraphManager] (src/core/graph/graph_manager*.cpp): the tables of
    graphs and executables, node creation, template and executable updates,
    dependency editing, introspection, cloning and instantiation.  Graph
    objects live in a heap, as the code shares them through
    [std::shared_ptr]; an operation is a state-and-error computation that
    keeps the changes made before an error.  The recursive mutex makes each
    call atomic. *)

From S2P Require Import Prelude KvQuant TopoSort Graph GraphOptimizer.
Open Scope Z_scope.

Module GraphManager.
Import Graph GraphOptimizer.

Record GraphExecProfile := mkProfile {
  last_exec_ms : spec_float;
  total_exec_ms : spec_float;
  launch_count : Z;
}.

Record GraphExec := mkExec {
  sourceGraph : Z;
  profile : GraphExecProfile;
  flags : Z;
  nodeEnabled : gmap Z bool;
  fusionApplied : bool;
  optimizedNodes : list GraphNode;
}.

(** [graphs_] and [sourceGraph] hold addresses of graph objects in [heap]. *)
Record t := mk {
  heap : gmap Z Graph.t;
  nextObj : Z;
  graphs_ : gmap Z Z;
  executables_ : gmap Z GraphExec;
  nextGraphId_ : Z;
  nextExecId_ : Z;
  cloneNodeMap_ : gmap Z (gmap Z Z);
  cloneOriginMap_ : gmap Z Z;
  memAllocRegistry_ : gmap Z Z;
}.

Definition init : t := mk ∅ 1 ∅ ∅ 1 1 ∅ ∅ ∅.

(** ** Computations *)

Definition M (A : Type) : Type := t -> t * result VGREResult A.

#[export] Instance M_ret : MRet M := fun A v s => (s, Ok v).
#[export] Instance M_bind : MBind M := fun A B f m s =>
  match m s with (s, Ok v) => f v s | (s, Err e) => (s, Err e) end.

Definition fail {A} (e : VGREResult) : M A := fun s => (s, Err e).
Definition reject {A} : M A := fail ERR_INVALID_VALUE.
Definition reject_if (b : bool) : M unit := if b then reject else mret ().
Definition gets {A} (f : t -> A) : M A := fun s => (s, Ok (f s)).
Definition modify (f : t -> t) : M unit := fun s => (f s, Ok ()).

Definition set_heap (s : t) h := mk h (nextObj s) (graphs_ s) (executables_ s) (nextGraphId_ s) (nextExecId_ s) (cloneNodeMap_ s) (cloneOriginMap_ s) (memAllocRegistry_ s).
Definition set_executables (s : t) e := mk (heap s) (nextObj s) (graphs_ s) e (nextGraphId_ s) (nextExecId_ s) (cloneNodeMap_ s) (cloneOriginMap_ s) (memAllocRegistry_ s).

(** [std::make_shared] of a graph entered in [graphs_] under the next id. *)
Definition new_graph (s : t) (g : Graph.t) : t :=
  mk (<[nextObj s := g]> (heap s)) (nextObj s + 1) (<[nextGraphId_ s := nextObj s]> (graphs_ s))
     (executables_ s) (nextGraphId_ s + 1) (nextExecId_ s) (cloneNodeMap_ s) (cloneOriginMap_ s) (memAllocRegistry_ s).

(** The object at an address; addresses the manager holds are always live. *)
Definition deref (a : Z) : M Graph.t := fun s =>
  (s, match heap s !! a with Some g => Ok g | None => Err ERR_UNKNOWN end).
Definition store (a : Z) (g : Graph.t) : M unit := modify (fun s => set_heap s (<[a := g]> (heap s))).

(** [graphs_.find(id)]. *)
Definition findGraph (gid : Z) : M (Z * Graph.t) :=
  o ← gets (fun s => graphs_ s !! gid);
  match o with None => reject | Some a => g ← deref a; mret (a, g) end.

Definition findExec (eid : Z) : M GraphExec :=
  o ← gets (fun s => executables_ s !! eid);
  match o with None => reject | Some e => mret e end.

Definition storeExec (eid : Z) (e : GraphExec) : M unit :=
  modify (fun s => set_executables s (<[eid := e]> (executables_ s))).

(** [nodeIndex.find(nodeId)] and the node it leads to. *)
Definition findNode (g : Graph.t) (nid : Z) : M (nat * GraphNode) :=
  match find_node g nid with None => reject | Some r => mret r end.

(** ** Graphs *)

Definition createGraph : M Z := fun s =>
  (new_graph s (mkGraph (nextGraphId_ s) 1 [] ∅), Ok (nextGraphId_ s)).

Definition graphExists (gid : Z) : M bool := gets (fun s => bool_decide (is_Some (graphs_ s !! gid))).

Definition destroyGraph (gid : Z) : M unit := modify (fun s =>
  mk (heap s) (nextObj s) (delete gid (graphs_ s)) (executables_ s) (nextGraphId_ s) (nextExecId_ s)
     (cloneNodeMap_ s) (cloneOriginMap_ s) (memAllocRegistry_ s)).

Definition cloneGraph (srcId : Z) : M Z :=
  '(_, g) ← findGraph srcId;
  cid ← gets nextGraphId_;
  let clone := mkGraph cid (nextNodeId g) (nodes g) (buildIndex (nodes g)) in
  modify (fun s => new_graph s clone);;
  modify (fun s =>
    mk (heap s) (nextObj s) (graphs_ s) (executables_ s) (nextGraphId_ s) (nextExecId_ s)
       (<[srcId := list_to_map ((fun n => (nodeId n, nodeId n)) <$> nodes clone)]> (cloneNodeMap_ s))
       (<[cid := srcId]> (cloneOriginMap_ s)) (memAllocRegistry_ s));;
  mret cid.

Definition validateGraph (gid : Z) : M unit :=
  '(_, g) ← findGraph gid;
  match validate (nodes g) with SUCCESS => mret () | e => fail e end.

(** ** Argument capture *)

Section Capture.
Context (getKernelIR : Z -> option KernelIR).
(** Host memory, and the caller's [void **args] with null as [None]. *)
Context (mem : Z -> Z).

Definition readBytes (p size : Z) : list Z := (fun k => mem (p + k)) <$> seqZ 0 size.

Definition structSize (kid : Z) (i : nat) : Z :=
  match getKernelIR kid with Some ir => default 0 (argSizes ir !! i) | None => 0 end.

Definition argSize (kid : Z) (i : nat) (ty : ArgType) : Z :=
  match ty with
  | POINTER | INT64 | UINT64 | FLOAT64 => 8
  | INT32 | UINT32 | FLOAT32 => 4
  | FLOAT16 | BFLOAT16 => 2
  | STRUCT => structSize kid i
  end.

(** Copying one argument; [None] is the error exit. *)
Definition captureArg (args : option (nat -> Z)) (i : nat) (size : Z) : option (list Z) :=
  if 0 <? size then
    match args with
    | Some f => if f i =? 0 then None else Some (readBytes (f i) size)
    | None => None
    end
  else Some [].

Definition kMaxArgSize : Z := 64 * 1024.

Fixpoint le_decode (bs : list Z) : Z :=
  match bs with [] => 0 | b :: bs => b + 256 * le_decode bs end.

Definition slot (buf : list Z) (off : nat) : Z := le_decode (take 8 (drop off buf)).

(** The embedded pointers of a struct: its 8-byte slots in user space. *)
Definition structPtrs (buf : list Z) : list Z :=
  filter (fun a => 4096 <= a <= 2 ^ 47 - 1)
    ((fun k => slot buf (8 * k)) <$> seq 0 (length buf / 8)).

(** Write and read pointers of a captured argument. *)
Definition argPtrs (ty : ArgType) (buf : list Z) : list Z * list Z :=
  if bool_decide (ty = POINTER) && (8 <=? length buf)%nat then
    if slot buf 0 =? 0 then ([], []) else ([slot buf 0], [slot buf 0])
  else if bool_decide (ty = STRUCT) && (8 <=? length buf)%nat then ([], structPtrs buf)
  else ([], []).

Definition add_arg (k : KernelData) (buf : list Z) (ps : list Z * list Z) : KernelData :=
  mkKernel (kernelId k) (kernelName k) (gridDim k) (blockDim k) (capturedArgs k ++ [buf])
    (capturedWritePtrs k ++ ps.1) (capturedReadPtrs k ++ ps.2).

(** The capture loop of [addKernelNodeWithDepsOut]. *)
Fixpoint captureArgs (args : option (nat -> Z)) (i : nat) (tys : list ArgType) (k : KernelData) : option KernelData :=
  match tys with
  | [] => Some k
  | ty :: tys =>
      let size := argSize (kernelId k) i ty in
      if kMaxArgSize <? size then None else
      buf ← captureArg args i size;
      captureArgs args (S i) tys (add_arg k buf (argPtrs ty buf))
  end.

(** The loop of [updateKernelNodeArgs]: the node keeps what was captured
    before an error; pointer sets are not touched. *)
Fixpoint recaptureArgs (args : option (nat -> Z)) (i : nat) (tys : list ArgType) (k : KernelData) : KernelData * bool :=
  match tys with
  | [] => (k, true)
  | ty :: tys =>
      match captureArg args i (argSize (kernelId k) i ty) with
      | None => (k, false)
      | Some buf => recaptureArgs args (S i) tys (add_arg k buf ([], []))
      end
  end.

(** [execKernelNodeSetParams]: sizes and the zero-filled copy. *)
Definition execArgSize (kid : Z) (i : nat) (ty : ArgType) : Z :=
  match ty with
  | INT32 | UINT32 | FLOAT32 => 4
  | STRUCT => let sz := structSize kid i in if 0 <? sz then sz else 8
  | _ => 8
  end.

Definition execCaptureArg (args : option (nat -> Z)) (i : nat) (size : Z) : list Z :=
  match args with
  | Some f => if (f i =? 0) || (size <=? 0) then replicate (Z.to_nat size) 0 else readBytes (f i) size
  | None => replicate (Z.to_nat size) 0
  end.

Fixpoint execCaptureArgs (args : option (nat -> Z)) (i : nat) (tys : list ArgType) (k : KernelData) : KernelData :=
  match tys with
  | [] => k
  | ty :: tys =>
      let buf := execCaptureArg args i (execArgSize (kernelId k) i ty) in
      let ps := if bool_decide (ty = POINTER) then argPtrs ty buf else ([], []) in
      execCaptureArgs args (S i) tys (add_arg k buf ps)
  end.

(** ** Adding nodes *)

(** [nextNodeId++] alone, as an add that fails later leaves it. *)
Definition bump (g : Graph.t) : Graph.t := mkGraph (id g) (nextNodeId g + 1) (nodes g) (nodeIndex g).

(** The end of every add: the node takes the next identifier. *)
Definition addNode (a : Z) (g : Graph.t) (n : GraphNode) : M Z :=
  store a (push_node g n);; mret (nodeId n).

Definition addKernelNodeWithDepsOut (gid kid : Z) (name : string) (grid block : dim3)
    (args : option (nat -> Z)) (tys : list ArgType) (ds : list Z) (captureStream : Z) : M Z :=
  reject_if ((x grid =? 0) || (x block =? 0));;
  '(a, g) ← findGraph gid;
  match captureArgs args 0 tys (mkKernel kid name grid block [] [] []) with
  | None => store a (bump g);; reject
  | Some k => addNode a g (with_stream (with_kernel (newNode KERNEL (nextNodeId g) ds) k) captureStream)
  end.

Definition validKind (k : Z) : bool :=
  (k =? VGRE_MEMCPY_HOST_TO_DEVICE) || (k =? VGRE_MEMCPY_DEVICE_TO_HOST) || (k =? VGRE_MEMCPY_DEVICE_TO_DEVICE).

Definition addMemcpyNodeWithDepsOut (gid dst src count kind : Z) (ds : list Z) : M Z :=
  '(a, g) ← findGraph gid;
  reject_if ((dst =? 0) || (src =? 0) || (count =? 0));;
  reject_if (negb (validKind kind));;
  addNode a g (with_copy (newNode MEMCPY (nextNodeId g) ds) (mkMemcpy dst src count kind)).

Definition addConditionalNodeWithDepsOut (gid condFn condCtx bodyGraphId : Z) (ct : GraphCondType)
    (maxIterations : Z) (ds : list Z) : M Z :=
  '(a, g) ← findGraph gid;
  bodyExists ← graphExists bodyGraphId;
  reject_if (negb (bodyGraphId =? 0) && negb bodyExists);;
  reject_if (condFn =? 0);;
  addNode a g (with_cond (newNode CONDITIONAL (nextNodeId g) ds) (mkCond condFn condCtx bodyGraphId ct maxIterations)).

Definition validMemset (dst pitch width height depth : Z) : bool :=
  negb ((dst =? 0) || (width =? 0) || (height =? 0) || (depth =? 0)) && (width <=? pitch).

Definition addMemsetNode (gid dst value pitch width height depth : Z) (ds : list Z) : M Z :=
  '(a, g) ← findGraph gid;
  reject_if (negb (validMemset dst pitch width height depth));;
  addNode a g (with_memset (with_dst (newNode MEMSET (nextNodeId g) ds) dst) (mkMemset value pitch width height depth)).

Definition addHostNode (gid fn userData : Z) (ds : list Z) : M Z :=
  '(a, g) ← findGraph gid;
  reject_if (fn =? 0);;
  addNode a g (with_host (newNode HOST (nextNodeId g) ds) (mkHost fn userData)).

Definition with_body (n : GraphNode) (b : Z) : GraphNode :=
  with_cond n (mkCond (condFn (cond n)) (condCtx (cond n)) b (condType (cond n)) (maxIterations (cond n))).

Definition addChildGraphNode (gid childGraphId : Z) (ds : list Z) : M Z :=
  '(a, g) ← findGraph gid;
  childExists ← graphExists childGraphId;
  reject_if ((childGraphId =? 0) || negb childExists);;
  reject_if (childGraphId =? gid);;
  addNode a g (with_body (newNode CHILD (nextNodeId g) ds) childGraphId).

Definition addEmptyNode (gid : Z) (ds : list Z) : M Z :=
  '(a, g) ← findGraph gid;
  addNode a g (newNode EMPTY (nextNodeId g) ds).

Definition addEventRecordNode (gid event : Z) (ds : list Z) : M Z :=
  '(a, g) ← findGraph gid;
  reject_if (event =? 0);;
  addNode a g (with_event (newNode EVENT_RECORD (nextNodeId g) ds) event).

Definition addEventWaitNode (gid event : Z) (ds : list Z) : M Z :=
  '(a, g) ← findGraph gid;
  reject_if (event =? 0);;
  addNode a g (with_event (newNode EVENT_WAIT (nextNodeId g) ds) event).

(** [MemoryManager::allocate] answers with a result code and a handle. *)
Definition addMemAllocNode (allocate : Z -> VGREResult * Z) (gid bytesize outDevPtr : Z) (ds : list Z) : M Z :=
  '(a, g) ← findGraph gid;
  reject_if ((bytesize =? 0) || (outDevPtr =? 0));;
  match allocate bytesize with
  | (SUCCESS, h) =>
      modify (fun s => mk (heap s) (nextObj s) (graphs_ s) (executables_ s) (nextGraphId_ s) (nextExecId_ s)
                 (cloneNodeMap_ s) (cloneOriginMap_ s) (<[h := bytesize]> (memAllocRegistry_ s)));;
      addNode a g (with_memAlloc (newNode MEMALLOC (nextNodeId g) ds) (mkMemAlloc bytesize h outDevPtr))
  | (r, _) => fail r
  end.

Definition addMemFreeNode (gid devPtr : Z) (ds : list Z) : M Z :=
  '(a, g) ← findGraph gid;
  reject_if (devPtr =? 0);;
  known ← gets (fun s => bool_decide (is_Some (memAllocRegistry_ s !! devPtr)));
  reject_if (negb known);;
  addNode a g (with_dst (newNode MEMFREE (nextNodeId g) ds) devPtr).

(** ** Template updates *)

(** Replacing node [nid] of a graph after checking its type. *)
Definition updateNode (gid nid : Z) (ty : GraphNodeType) (f : GraphNode -> M GraphNode) : M unit :=
  '(a, g) ← findGraph gid;
  '(i, n) ← findNode g nid;
  reject_if (bool_decide (type n <> ty));;
  n' ← f n;
  store a (set_node g i n').

Definition updateKernelNodeArgs (gid nid : Z) (args : option (nat -> Z)) (tys : list ArgType) : M unit :=
  '(a, g) ← findGraph gid;
  '(i, n) ← findNode g nid;
  reject_if (bool_decide (type n <> KERNEL));;
  let k := kernel n in
  let '(k', ok) := recaptureArgs args 0 tys
    (mkKernel (kernelId k) (kernelName k) (gridDim k) (blockDim k) [] (capturedWritePtrs k) (capturedReadPtrs k)) in
  store a (set_node g i (with_kernel n k'));;
  reject_if (negb ok).

Definition updateMemcpyNode (gid nid dst src count kind : Z) : M unit :=
  updateNode gid nid MEMCPY (fun n =>
    reject_if ((dst =? 0) || (src =? 0) || (count =? 0));;
    reject_if (negb (validKind kind));;
    mret (with_copy n (mkMemcpy dst src count kind))).

Definition updateMemsetNodeInGraph (gid nid dst value pitch width height depth : Z) : M unit :=
  updateNode gid nid MEMSET (fun n =>
    reject_if (negb (validMemset dst pitch width height depth));;
    mret (with_memset (with_dst n dst) (mkMemset value pitch width height depth))).

Definition updateHostNodeInGraph (gid nid fn userData : Z) : M unit :=
  updateNode gid nid HOST (fun n =>
    reject_if (fn =? 0);;
    mret (with_host n (mkHost fn userData))).

(** ** Dependency editing *)

Definition addDependency (gid nid dependsOn : Z) : M unit :=
  '(a, g) ← findGraph gid;
  '(i, n) ← findNode g nid;
  _ ← findNode g dependsOn;
  if bool_decide (dependsOn ∈ deps n) then mret ()
  else store a (set_node g i (with_deps n (deps n ++ [dependsOn]))).

(** [deps.erase(std::find(...))]: the first occurrence. *)
Fixpoint eraseFirst (d : Z) (ds : list Z) : list Z :=
  match ds with [] => [] | d' :: ds => if d' =? d then ds else d' :: eraseFirst d ds end.

Definition removeDependency (gid nid dependsOn : Z) : M unit :=
  '(a, g) ← findGraph gid;
  '(i, n) ← findNode g nid;
  reject_if (bool_decide (dependsOn ∉ deps n));;
  store a (set_node g i (with_deps n (eraseFirst dependsOn (deps n)))).

(** One edge of a bulk edit, on the graph in place. *)
Definition commitAdd (g : Graph.t) (e : Z * Z) : Graph.t :=
  match find_node g e.2 with
  | Some (i, n) => if bool_decide (e.1 ∈ deps n) then g else set_node g i (with_deps n (deps n ++ [e.1]))
  | None => g
  end.

Definition commitRemove (g : Graph.t) (e : Z * Z) : Graph.t :=
  match find_node g e.2 with
  | Some (i, n) => set_node g i (with_deps n (filter (fun d => d <> e.1) (deps n)))
  | None => g
  end.

(** The edges [(fromNodes[i], toNodes[i])]; [None] for a null array. *)
Definition addDependencies (gid : Z) (edges : option (list (Z * Z))) : M unit :=
  '(a, g) ← findGraph gid;
  match edges with
  | None | Some [] => reject
  | Some es =>
      reject_if (negb (forallb (fun '(from, to) =>
        bool_decide (is_Some (nodeIndex g !! from)) && bool_decide (is_Some (nodeIndex g !! to)) &&
        negb (from =? to)) es));;
      store a (foldl commitAdd g es)
  end.

Definition removeDependencies (gid : Z) (edges : option (list (Z * Z))) : M unit :=
  '(a, g) ← findGraph gid;
  match edges with
  | None | Some [] => reject
  | Some es =>
      reject_if (negb (forallb (fun '(from, to) =>
        match find_node g to with
        | Some (_, n) => bool_decide (is_Some (nodeIndex g !! from)) && bool_decide (from ∈ deps n)
        | None => false
        end) es));;
      store a (foldl commitRemove g es)
  end.

(** ** Executables *)

(** [GraphOptimizer::optimize] on the template, whose result is ignored. *)
Context (optimize : Graph.t -> VGREResult * Graph.t).

Definition new_exec (s : t) (working : Graph.t) : t :=
  mk (<[nextObj s := working]> (heap s)) (nextObj s + 1) (graphs_ s)
     (<[nextExecId_ s := mkExec (nextObj s) (mkProfile (S754_zero false) (S754_zero false) 0) 0 ∅ false []]> (executables_ s))
     (nextGraphId_ s) (nextExecId_ s + 1) (cloneNodeMap_ s) (cloneOriginMap_ s) (memAllocRegistry_ s).

Definition instantiate (gid : Z) : M Z :=
  '(a, g) ← findGraph gid;
  reject_if (bool_decide (nodes g = []));;
  let g' := (optimize g).2 in
  store a g';;
  reject_if (negb (checkAcyclic (nodes g')));;
  eid ← gets nextExecId_;
  modify (fun s => new_exec s (mkGraph (id g') (nextNodeId g') (nodes g') (nodeIndex g')));;
  mret eid.

(** The topology test of [updateExec]. *)
Definition sameTopology (old new : list GraphNode) : bool :=
  (length old =? length new)%nat &&
  forallb (fun '(o, n) => bool_decide (type o = type n) && (length (deps o) =? length (deps n))%nat) (zip old new).

Definition with_source (e : GraphExec) (a : Z) : GraphExec :=
  mkExec a (profile e) (flags e) (nodeEnabled e) (fusionApplied e) (optimizedNodes e).
Definition with_fusion (e : GraphExec) (b : bool) (ns : list GraphNode) : GraphExec :=
  mkExec (sourceGraph e) (profile e) (flags e) (nodeEnabled e) b ns.

Definition updateExec (eid newGraphId : Z) : M unit :=
  e ← findExec eid;
  '(a, g) ← findGraph newGraphId;
  old ← deref (sourceGraph e);
  reject_if (negb (sameTopology (nodes old) (nodes g)));;
  storeExec eid (with_source e a).

(** The loop of [updateExecV2]: one node at a time, in place. *)
Fixpoint updateNodes (aOld aNew : Z) (nids : list Z) : M unit :=
  match nids with
  | [] => mret ()
  | nid :: nids =>
      old ← deref aOld;
      new ← deref aNew;
      '(i, o) ← findNode old nid;
      '(_, n) ← findNode new nid;
      reject_if (bool_decide (type o <> type n));;
      reject_if (negb (length (deps o) =? length (deps n))%nat);;
      store aOld (set_node old i n);;
      updateNodes aOld aNew nids
  end.

Definition updateExecV2 (eid newGraphId : Z) (nids : list Z) : M unit :=
  e ← findExec eid;
  '(a, _) ← findGraph newGraphId;
  updateNodes (sourceGraph e) a nids;;
  if fusionApplied e then storeExec eid (with_fusion e false []) else mret ().

Definition destroyGraphExec (eid : Z) : M unit :=
  modify (fun s => set_executables s (delete eid (executables_ s))).

(** [findExecNode] and a change of the node it finds. *)
Definition findExecNode (eid nid : Z) : M (Z * Graph.t * nat * GraphNode) :=
  e ← findExec eid;
  g ← deref (sourceGraph e);
  '(i, n) ← findNode g nid;
  mret (sourceGraph e, g, i, n).

Definition updateExecNode (eid nid : Z) (ty : GraphNodeType) (f : GraphNode -> M GraphNode) : M unit :=
  '(a, g, i, n) ← findExecNode eid nid;
  reject_if (bool_decide (type n <> ty));;
  n' ← f n;
  store a (set_node g i n').

Definition execKernelNodeSetParams (eid nid : Z) (args : option (nat -> Z)) (tys : list ArgType) : M unit :=
  updateExecNode eid nid KERNEL (fun n =>
    let k := kernel n in
    mret (with_kernel n (execCaptureArgs args 0 tys
      (mkKernel (kernelId k) (kernelName k) (gridDim k) (blockDim k) [] [] [])))).

Definition execMemcpyNodeSetParams (eid nid dst src count kind : Z) : M unit :=
  updateExecNode eid nid MEMCPY (fun n =>
    reject_if ((dst =? 0) || (src =? 0) || (count =? 0));;
    mret (with_copy n (mkMemcpy dst src count kind))).

Definition execMemsetNodeSetParams (eid nid dst value pitch width height depth : Z) : M unit :=
  updateExecNode eid nid MEMSET (fun n =>
    reject_if (negb (validMemset dst pitch width height depth));;
    mret (with_memset (with_dst n dst) (mkMemset value pitch width height depth))).

Definition execHostNodeSetParams (eid nid fn userData : Z) : M unit :=
  updateExecNode eid nid HOST (fun n =>
    reject_if (fn =? 0);;
    mret (with_host n (mkHost fn userData))).

Definition execChildGraphNodeSetParams (eid nid newChildGraph : Z) : M unit :=
  updateExecNode eid nid CHILD (fun n =>
    known ← graphExists newChildGraph;
    reject_if (negb known);;
    mret (with_body n newChildGraph)).

Definition execEventRecordNodeSetEvent (eid nid event : Z) : M unit :=
  updateExecNode eid nid EVENT_RECORD (fun n => reject_if (event =? 0);; mret (with_event n event)).

Definition execEventWaitNodeSetEvent (eid nid event : Z) : M unit :=
  updateExecNode eid nid EVENT_WAIT (fun n => reject_if (event =? 0);; mret (with_event n event)).

Definition nodeSetEnabled (eid nid : Z) (enabled : bool) : M unit :=
  e ← findExec eid;
  g ← deref (sourceGraph e);
  reject_if (bool_decide (nodeIndex g !! nid = None));;
  storeExec eid (mkExec (sourceGraph e) (profile e) (flags e) (<[nid := enabled]> (nodeEnabled e))
                   (fusionApplied e) (optimizedNodes e)).

Definition nodeGetEnabled (eid nid : Z) : M bool :=
  e ← findExec eid; mret (default true (nodeEnabled e !! nid)).

Definition getExecFlags (eid : Z) : M Z := e ← findExec eid; mret (flags e).

Definition setExecFlags (eid f : Z) : M unit :=
  e ← findExec eid;
  storeExec eid (mkExec (sourceGraph e) (profile e) f (nodeEnabled e) (fusionApplied e) (optimizedNodes e)).

Definition getExecNodeType (eid nid : Z) : M GraphNodeType :=
  e ← findExec eid;
  g ← deref (sourceGraph e);
  '(_, n) ← findNode g nid;
  mret (type n).

(** ** Introspection *)

Definition getGraphNodes (gid : Z) : M (list GraphNode) := '(_, g) ← findGraph gid; mret (nodes g).
Definition getGraphNodeCount (gid : Z) : M Z := '(_, g) ← findGraph gid; mret (Z.of_nat (length (nodes g))).

Definition getGraphRootNodes (gid : Z) : M (list Z) :=
  '(_, g) ← findGraph gid;
  let hasPredecessor := concat (deps <$> nodes g) in
  mret (filter (fun nid => nid ∉ hasPredecessor) (nodeId <$> nodes g)).

Definition getGraphEdges (gid : Z) : M (list (Z * Z)) :=
  '(_, g) ← findGraph gid;
  mret (concat ((fun n => (fun d => (d, nodeId n)) <$> deps n) <$> nodes g)).

Definition getNode (gid nid : Z) : M GraphNode :=
  '(_, g) ← findGraph gid;
  '(_, n) ← findNode g nid;
  mret n.

Definition getNodeType (gid nid : Z) : M GraphNodeType := n ← getNode gid nid; mret (type n).
Definition getNodeDependencies (gid nid : Z) : M (list Z) := n ← getNode gid nid; mret (deps n).

Definition getNodeDependentNodes (gid nid : Z) : M (list Z) :=
  '(_, g) ← findGraph gid;
  reject_if (bool_decide (nodeIndex g !! nid = None));;
  mret (nodeId <$> filter (fun n => nid ∈ deps n) (nodes g)).

Definition findNodeInClone (originalGraph originalNodeId clonedGraph : Z) : M Z :=
  known ← graphExists clonedGraph;
  reject_if (negb known);;
  origin ← gets (fun s => cloneOriginMap_ s !! clonedGraph);
  match origin with
  | None => reject
  | Some o =>
      reject_if (negb (originalGraph =? 0) && negb (o =? originalGraph));;
      let original := if originalGraph =? 0 then o else originalGraph in
      known ← graphExists original;
      reject_if (negb known);;
      m ← gets (fun s => m ← cloneNodeMap_ s !! original; m !! originalNodeId);
      match m with None => reject | Some nid => mret nid end
  end.

(** A node of a given type, for the parameter accessors. *)
Definition getNodeOf (gid nid : Z) (ty : GraphNodeType) : M GraphNode :=
  n ← getNode gid nid;
  reject_if (bool_decide (type n <> ty));;
  mret n.

Definition getKernelNodeParams (gid nid : Z) : M KernelData := n ← getNodeOf gid nid KERNEL; mret (kernel n).
Definition getMemcpyNodeParams (gid nid : Z) : M MemcpyData := n ← getNodeOf gid nid MEMCPY; mret (copy n).
Definition getMemsetNodeParams (gid nid : Z) : M (Z * MemsetData) :=
  n ← getNodeOf gid nid MEMSET; mret (dst (copy n), memset n).
Definition getHostNodeParams (gid nid : Z) : M HostData := n ← getNodeOf gid nid HOST; mret (host n).

(** ** Reachable managers *)

(** Every handle names a live, well-indexed graph object, and no two handles
    share a template. *)
Record mgr_ok (s : t) : Prop := mkOk {
  ok_heap : forall a g, heap s !! a = Some g -> wf g /\ 0 < nextNodeId g /\ a < nextObj s;
  ok_graphs : forall gid a, graphs_ s !! gid = Some a -> is_Some (heap s !! a) /\ 0 < gid < nextGraphId_ s;
  ok_inj : forall gid gid' a, graphs_ s !! gid = Some a -> graphs_ s !! gid' = Some a -> gid = gid';
  ok_execs : forall eid e, executables_ s !! eid = Some e -> is_Some (heap s !! sourceGraph e) /\ 0 < eid < nextExecId_ s;
  ok_next : 0 < nextGraphId_ s /\ 0 < nextExecId_ s;
}.

(** The state an API call leaves. *)
Definition run {A} (m : M A) : t -> t := fun s => (m s).1.

(** The calls that work on templates. *)
Inductive template_call : (t -> t) -> Prop :=
| tc_create : template_call (run createGraph)
| tc_destroy gid : template_call (run (destroyGraph gid))
| tc_clone gid : template_call (run (cloneGraph gid))
| tc_validate gid : template_call (run (validateGraph gid))
| tc_kernel gid kid name grid block args tys ds st :
    template_call (run (addKernelNodeWithDepsOut gid kid name grid block args tys ds st))
| tc_memcpy gid d sr c k ds : template_call (run (addMemcpyNodeWithDepsOut gid d sr c k ds))
| tc_cond gid f c b ct mi ds : template_call (run (addConditionalNodeWithDepsOut gid f c b ct mi ds))
| tc_memset gid d v p w h dp ds : template_call (run (addMemsetNode gid d v p w h dp ds))
| tc_host gid f u ds : template_call (run (addHostNode gid f u ds))
| tc_child gid c ds : template_call (run (addChildGraphNode gid c ds))
| tc_empty gid ds : template_call (run (addEmptyNode gid ds))
| tc_record gid e ds : template_call (run (addEventRecordNode gid e ds))
| tc_wait gid e ds : template_call (run (addEventWaitNode gid e ds))
| tc_memalloc allocate gid sz out ds : template_call (run (addMemAllocNode allocate gid sz out ds))
| tc_memfree gid p ds : template_call (run (addMemFreeNode gid p ds))
| tc_updateKernel gid nid args tys : template_call (run (updateKernelNodeArgs gid nid args tys))
| tc_updateMemcpy gid nid d sr c k : template_call (run (updateMemcpyNode gid nid d sr c k))
| tc_updateMemset gid nid d v p w h dp : template_call (run (updateMemsetNodeInGraph gid nid d v p w h dp))
| tc_updateHost gid nid f u : template_call (run (updateHostNodeInGraph gid nid f u))
| tc_addDep gid n d : template_call (run (addDependency gid n d))
| tc_removeDep gid n d : template_call (run (removeDependency gid n d))
| tc_addDeps gid es : template_call (run (addDependencies gid es))
| tc_removeDeps gid es : template_call (run (removeDependencies gid es)).

(** The calls that work on an executable's own graph. *)
Inductive exec_call : (t -> t) -> Prop :=
| ec_updateV2 eid gid nids : exec_call (run (updateExecV2 eid gid nids))
| ec_destroy eid : exec_call (run (destroyGraphExec eid))
| ec_kernel eid nid args tys : exec_call (run (execKernelNodeSetParams eid nid args tys))
| ec_memcpy eid nid d sr c k : exec_call (run (execMemcpyNodeSetParams eid nid d sr c k))
| ec_memset eid nid d v p w h dp : exec_call (run (execMemsetNodeSetParams eid nid d v p w h dp))
| ec_host eid nid f u : exec_call (run (execHostNodeSetParams eid nid f u))
| ec_child eid nid c : exec_call (run (execChildGraphNodeSetParams eid nid c))
| ec_record eid nid e : exec_call (run (execEventRecordNodeSetEvent eid nid e))
| ec_wait eid nid e : exec_call (run (execEventWaitNodeSetEvent eid nid e))
| ec_enable eid nid b : exec_call (run (nodeSetEnabled eid nid b))
| ec_flags eid f : exec_call (run (setExecFlags eid f)).

(** Everything a client can do to the tables, but for launching. *)
Inductive call : (t -> t) -> Prop :=
| call_template f : template_call f -> call f
| call_exec f : exec_call f -> call f
| call_instantiate gid : call (run (instantiate gid))
| call_update eid gid : call (run (updateExec eid gid)).

Definition step (s s' : t) : Prop := exists f, call f /\ s' = f s.

(** The same without [updateExec]. *)
Definition step_isolated (s s' : t) : Prop :=
  exists f, (template_call f \/ exec_call f \/ exists gid, f = run (instantiate gid)) /\ s' = f s.

(** *** Computations that only read *)

Class Reader {A} (m : M A) : Prop := reader_state : forall s, (m s).1 = s.

#[local] Instance reader_ret {A} (v : A) : Reader (mret v).
Proof. done. Qed.
#[local] Instance reader_fail {A} e : Reader (@fail A e).
Proof. done. Qed.
#[local] Instance reader_reject_if b : Reader (reject_if b).
Proof. by destruct b. Qed.
#[local] Instance reader_gets {A} (f : t -> A) : Reader (gets f).
Proof. done. Qed.
#[local] Instance reader_deref a : Reader (deref a).
Proof. done. Qed.
#[local] Instance reader_findNode g nid : Reader (findNode g nid).
Proof. intros s. unfold findNode. by destruct (find_node g nid). Qed.
#[local] Instance reader_bind {A B} (m : M A) (f : A -> M B) : Reader m -> (forall v, Reader (f v)) -> Reader (m ≫= f).
Proof.
  intros Hm Hf s. unfold mbind, M_bind. specialize (Hm s). destruct (m s) as [s' [v|e]]; simpl in *; subst; [apply Hf|done].
Qed.
#[local] Instance reader_findGraph gid : Reader (findGraph gid).
Proof. unfold findGraph. apply reader_bind; [apply _|]. intros [a|]; apply _. Qed.
#[local] Instance reader_findExec eid : Reader (findExec eid).
Proof. unfold findExec. apply reader_bind; [apply _|]. intros [a|]; apply _. Qed.
#[local] Instance reader_graphExists gid : Reader (graphExists gid).
Proof. apply _. Qed.

(** Reading first changes nothing: the rest runs in the same state, knowing
    what was read. *)
Lemma after_read {A B} (m : M A) (f : A -> M B) (P : t -> Prop) s `{!Reader m} :
  P s -> (forall v, (m s).2 = Ok v -> P (f v s).1) -> P ((m ≫= f) s).1.
Proof.
  intros Hs Hf. unfold mbind, M_bind. pose proof (reader_state (m := m) s).
  destruct (m s) as [s' [v|e]]; simpl in *; subst; auto.
Qed.

Lemma findGraph_Ok gid s a g : (findGraph gid s).2 = Ok (a, g) -> graphs_ s !! gid = Some a /\ heap s !! a = Some g.
Proof.
  unfold findGraph, mbind, M_bind, gets, deref. simpl. destruct (graphs_ s !! gid) as [a'|]; [|done].
  simpl. destruct (heap s !! a') eqn:E; [|done]. simpl. intros [= -> ->]. done.
Qed.

Lemma findExec_Ok eid s e : (findExec eid s).2 = Ok e -> executables_ s !! eid = Some e.
Proof.
  unfold findExec, mbind, M_bind, gets. simpl. destruct (executables_ s !! eid); [|done]. by intros [= ->].
Qed.

Lemma deref_Ok a s g : (deref a s).2 = Ok g -> heap s !! a = Some g.
Proof. unfold deref. simpl. destruct (heap s !! a); [|done]. by intros [= ->]. Qed.

Lemma findNode_Ok g nid s i n : (findNode g nid s).2 = Ok (i, n) -> find_node g nid = Some (i, n).
Proof. unfold findNode. destruct (find_node g nid); [|done]. by intros [= ->]. Qed.

(** *** The effect of a call *)

Definition is_template (s : t) (a : Z) : Prop := exists gid, graphs_ s !! gid = Some a.
Definition is_working (s : t) (a : Z) : Prop := exists eid e, executables_ s !! eid = Some e /\ sourceGraph e = a.

Record template_effect (s s' : t) : Prop := mkTE {
  te_ok : mgr_ok s';
  te_execs : executables_ s' = executables_ s;
  te_next : nextObj s <= nextObj s';
  te_heap : forall a, a < nextObj s -> ~ is_template s a -> heap s' !! a = heap s !! a;
  te_graphs : forall gid a, graphs_ s' !! gid = Some a -> graphs_ s !! gid = Some a \/ nextObj s <= a;
}.

Record exec_effect (s s' : t) : Prop := mkEE {
  ee_ok : mgr_ok s';
  ee_graphs : graphs_ s' = graphs_ s;
  ee_next : nextObj s' = nextObj s;
  ee_heap : forall a, ~ is_working s a -> heap s' !! a = heap s !! a;
  ee_execs : forall eid e, executables_ s' !! eid = Some e ->
    exists e0, executables_ s !! eid = Some e0 /\ sourceGraph e = sourceGraph e0;
}.

Lemma template_effect_refl s : mgr_ok s -> template_effect s s.
Proof. intros H. split; try done. by left. Qed.

Lemma exec_effect_refl s : mgr_ok s -> exec_effect s s.
Proof. intros H. split; eauto. Qed.

Lemma exec_effect_trans s1 s2 s3 : exec_effect s1 s2 -> exec_effect s2 s3 -> exec_effect s1 s3.
Proof.
  intros [O1 G1 N1 H1 E1] [O2 G2 N2 H2 E2]. split; [done|congruence|congruence| |].
  - intros a Ha. rewrite H2, H1; [done|done|]. intros (eid & e & He & <-). apply Ha.
    destruct (E1 eid e He) as (e0 & ? & ->). by exists eid, e0.
  - intros eid e He. destruct (E2 eid e He) as (e1 & He1 & ->). by apply (E1 eid e1).
Qed.

Lemma mgr_ok_store s a g g0 : mgr_ok s -> heap s !! a = Some g0 -> wf g -> 0 < nextNodeId g ->
  mgr_ok (set_heap s (<[a := g]> (heap s))).
Proof.
  intros [Hh Hg Hi He Hn] Ha Hwf Hnx.
  assert (forall a', is_Some (heap s !! a') -> is_Some (<[a := g]> (heap s) !! a')) as Hlive.
  { intros a' ?. apply lookup_insert_is_Some. destruct (decide (a = a')); auto. }
  split; simpl; [|intros gid b Hb|done|intros eid e Hb|done].
  - intros b gb. destruct (decide (a = b)) as [<-|Hne].
    + rewrite lookup_insert_eq. intros [= <-]. split_and!; [done|done|by eapply Hh].
    + rewrite lookup_insert_ne by done. apply Hh.
  - destruct (Hg gid b Hb). split; [by apply Hlive|done].
  - destruct (He eid e Hb). split; [by apply Hlive|done].
Qed.

Lemma template_store s gid a g0 g : mgr_ok s -> graphs_ s !! gid = Some a -> heap s !! a = Some g0 ->
  wf g -> 0 < nextNodeId g -> template_effect s (set_heap s (<[a := g]> (heap s))).
Proof.
  intros Hok Hgid Ha Hwf Hnx. split; [by eapply mgr_ok_store|done|done| |by left].
  intros b _ Hb. simpl. rewrite lookup_insert_ne; [done|]. intros <-. apply Hb. by exists gid.
Qed.

Lemma exec_store s eid e g0 g : mgr_ok s -> executables_ s !! eid = Some e -> heap s !! sourceGraph e = Some g0 ->
  wf g -> 0 < nextNodeId g -> exec_effect s (set_heap s (<[sourceGraph e := g]> (heap s))).
Proof.
  intros Hok He Ha Hwf Hnx. split; [by eapply mgr_ok_store|done|done| |by eauto].
  intros b Hb. simpl. rewrite lookup_insert_ne; [done|]. intros <-. apply Hb. by exists eid, e.
Qed.

Lemma storeExec_effect s eid e e' : mgr_ok s -> executables_ s !! eid = Some e -> sourceGraph e' = sourceGraph e ->
  exec_effect s (storeExec eid e' s).1.
Proof.
  intros [Hh Hg Hi He Hn] Hl Hs. split; simpl; [|done|done|done|].
  - split; simpl; [done|done|done| |done]. intros eid' e0.
    destruct (decide (eid = eid')) as [<-|Hne].
    + rewrite lookup_insert_eq. intros [= <-]. rewrite Hs. by apply He.
    + rewrite lookup_insert_ne by done. apply He.
  - intros eid' e0. destruct (decide (eid = eid')) as [<-|Hne].
    + rewrite lookup_insert_eq. intros [= <-]. eauto.
    + rewrite lookup_insert_ne by done. eauto.
Qed.

Lemma new_graph_effect s g : mgr_ok s -> wf g -> 0 < nextNodeId g -> template_effect s (new_graph s g).
Proof.
  intros [Hh Hg Hi He Hn] Hwf Hnx.
  assert (forall a, is_Some (heap s !! a) -> a < nextObj s) as Hlt by (intros a [g0 ?]; by eapply Hh).
  assert (forall a, is_Some (heap s !! a) -> is_Some (<[nextObj s := g]> (heap s) !! a)) as Hlive.
  { intros a ?. apply lookup_insert_is_Some. destruct (decide (nextObj s = a)); auto. }
  split; simpl; [|done|lia| |].
  - split; simpl.
    + intros a g0. destruct (decide (nextObj s = a)) as [<-|Hne].
      * rewrite lookup_insert_eq. intros [= <-]. split_and!; [done|done|lia].
      * rewrite lookup_insert_ne by done. intros (? & ? & ?)%Hh. split_and!; [done|done|lia].
    + intros gid a. destruct (decide (nextGraphId_ s = gid)) as [<-|Hne].
      * rewrite lookup_insert_eq. intros [= <-]. rewrite lookup_insert_eq. split; [by eexists|lia].
      * rewrite lookup_insert_ne by done. intros [? ?]%Hg. split; [by apply Hlive|lia].
    + intros gid gid' a.
      destruct (decide (nextGraphId_ s = gid)) as [<-|Hne], (decide (nextGraphId_ s = gid')) as [<-|Hne'];
        rewrite ?lookup_insert_eq, ?lookup_insert_ne by done; [done| | |apply Hi].
      * intros [= <-] [Hl _]%Hg. apply Hlt in Hl. lia.
      * intros [Hl _]%Hg [= <-]. apply Hlt in Hl. lia.
    + intros eid e [? ?]%He. split; [by apply Hlive|done].
    + lia.
  - intros a Ha _. rewrite lookup_insert_ne by lia. done.
  - intros gid a. destruct (decide (nextGraphId_ s = gid)) as [<-|Hne].
    + rewrite lookup_insert_eq. intros [= <-]. by right.
    + rewrite lookup_insert_ne by done. by left.
Qed.

(** The clone maps and the allocation registry play no part. *)
Lemma template_effect_maps s s' : template_effect s s' -> forall cm co reg,
  template_effect s (mk (heap s') (nextObj s') (graphs_ s') (executables_ s') (nextGraphId_ s') (nextExecId_ s') cm co reg).
Proof. intros [[Hh Hg Hi He Hn] E N H G] cm co reg. split; [split|..]; simpl; done. Qed.

Lemma mgr_ok_maps s : mgr_ok s -> forall cm co reg,
  mgr_ok (mk (heap s) (nextObj s) (graphs_ s) (executables_ s) (nextGraphId_ s) (nextExecId_ s) cm co reg).
Proof. intros [Hh Hg Hi He Hn] cm co reg. split; simpl; done. Qed.

(** *** Graph edits keep graphs well-indexed *)

Definition good (g : Graph.t) : Prop := wf g /\ 0 < nextNodeId g.

Lemma good_bump g : good g -> good (bump g).
Proof.
  intros [[Hi Hb] Hn]. split; [|simpl; lia]. split; simpl; [done|]. intros i n H. specialize (Hb i n H). lia.
Qed.

Lemma good_push g n : good g -> nodeId n = nextNodeId g -> good (push_node g n).
Proof. intros [? ?] ?. split; [by apply wf_push|simpl; lia]. Qed.

Lemma good_set g i n n' : good g -> find_node g (nodeId n) = Some (i, n) -> nodeId n' = nodeId n -> good (set_node g i n').
Proof. intros [Hwf Hn] Hf Hid. apply find_node_Some in Hf as [Hf _]; [|done]. split; [by eapply wf_set|done]. Qed.

Lemma find_node_id g nid i n : good g -> find_node g nid = Some (i, n) -> nodeId n = nid.
Proof. intros [? _] Hf. by apply find_node_Some in Hf as [_ ?]. Qed.

Lemma good_find g nid i n n' : good g -> find_node g nid = Some (i, n) -> nodeId n' = nid -> good (set_node g i n').
Proof. intros Hg Hf <-. pose proof (find_node_id _ _ _ _ Hg Hf) as E. eapply good_set; rewrite ?E; eauto. Qed.

Lemma good_commitAdd g e : good g -> good (commitAdd g e).
Proof.
  intros Hg. unfold commitAdd. destruct (find_node g e.2) as [[i n]|] eqn:E; [|done]. case_bool_decide; [done|].
  eapply good_find; [done..|]. simpl. by eapply find_node_id.
Qed.

Lemma good_commitRemove g e : good g -> good (commitRemove g e).
Proof.
  intros Hg. unfold commitRemove. destruct (find_node g e.2) as [[i n]|] eqn:E; [|done].
  eapply good_find; [done..|]. simpl. by eapply find_node_id.
Qed.

Lemma good_foldl {E} (f : Graph.t -> E -> Graph.t) es g : (forall g e, good g -> good (f g e)) -> good g -> good (foldl f g es).
Proof. intros Hf Hg. apply foldl_inv; [done|]. auto. Qed.

Lemma good_clone gid g : good g -> good (mkGraph gid (nextNodeId g) (nodes g) (buildIndex (nodes g))).
Proof.
  intros [Hwf Hn]. split; [|done]. apply wf_build; simpl; [by apply wf_NoDup|done|].
  intros n [i Hi]%list_elem_of_lookup. by eapply wf_ids.
Qed.

Lemma ok_good s a g : mgr_ok s -> heap s !! a = Some g -> good g.
Proof. intros H Ha. destruct (ok_heap _ H a g Ha) as (? & ? & _). done. Qed.

(** *** Every call has its effect *)

(** Step over the reads of a call, keeping what they found. *)
Ltac peel :=
  match goal with
  | |- ?R ?s (run ?m ?s) => unfold run
  | |- ?R ?s ((?m ≫= ?f) ?s).1 =>
      apply (after_read m f (R s) s);
      [first [by apply template_effect_refl|by apply exec_effect_refl]
      |let v := fresh "v" in let Hv := fresh "Hv" in intros v Hv;
       first [apply findGraph_Ok in Hv|apply findExec_Ok in Hv|apply findNode_Ok in Hv|apply deref_Ok in Hv|idtac]]
  | H : (findGraph _ _).2 = Ok (_, _) |- _ => apply findGraph_Ok in H as [? ?]
  | H : (findNode _ _ _).2 = Ok (_, _) |- _ => apply findNode_Ok in H
  | v : (_ * _)%type |- _ => destruct v
  end.

Lemma addNode_effect s gid a g n : mgr_ok s -> graphs_ s !! gid = Some a -> heap s !! a = Some g ->
  nodeId n = nextNodeId g -> template_effect s (addNode a g n s).1.
Proof.
  intros Hok Hgid Ha Hn. pose proof (good_push g n (ok_good _ _ _ Hok Ha) Hn) as [? ?].
  by eapply (template_store s gid a g).
Qed.

#[local] Hint Resolve template_effect_refl exec_effect_refl : core.

(** Replacing a template by one that is as good. *)
Lemma template_put s gid a g0 g : mgr_ok s -> graphs_ s !! gid = Some a -> heap s !! a = Some g0 ->
  (good g0 -> good g) -> template_effect s (set_heap s (<[a := g]> (heap s))).
Proof. intros Hok Hgid Ha Hg. destruct (Hg (ok_good _ _ _ Hok Ha)). by eapply template_store. Qed.

Lemma exec_put s eid e g0 g : mgr_ok s -> executables_ s !! eid = Some e -> heap s !! sourceGraph e = Some g0 ->
  (good g0 -> good g) -> exec_effect s (set_heap s (<[sourceGraph e := g]> (heap s))).
Proof. intros Hok He Ha Hg. destruct (Hg (ok_good _ _ _ Hok Ha)). by eapply exec_store. Qed.

(** Finish a call that replaces the node it found. *)
Ltac put_node := let Hg := fresh "Hg" in
  intros Hg; eapply good_find; [exact Hg|eassumption|]; simpl;
  first [by eapply find_node_id|by erewrite find_node_id by eassumption].

Lemma updateNode_effect gid nid ty f s : mgr_ok s -> (forall n, Reader (f n)) ->
  (forall n s n', (f n s).2 = Ok n' -> nodeId n' = nodeId n) -> template_effect s (updateNode gid nid ty f s).1.
Proof.
  intros Hok Hr Hf. unfold updateNode. repeat peel.
  match goal with H : (f _ _).2 = Ok _ |- _ => apply Hf in H; rename H into Hid end.
  eapply template_put; [done..|]. intros Hg. eapply good_find; [exact Hg|eassumption|].
  rewrite Hid. by eapply find_node_id.
Qed.

Ltac add_node := repeat peel; by eapply addNode_effect.


Lemma destroyGraph_effect gid s : mgr_ok s -> template_effect s (run (destroyGraph gid) s).
Proof.
  intros [Hh Hg Hi He Hn]. unfold run, destroyGraph, modify. simpl. split; simpl; [|done|done|done|].
  - split; simpl; [done| | |done|done].
    + intros gid' a. destruct (decide (gid = gid')) as [<-|]; [by rewrite lookup_delete_eq|].
      rewrite lookup_delete_ne by done. apply Hg.
    + intros g1 g2 a H1%lookup_delete_Some H2%lookup_delete_Some. apply (Hi g1 g2 a); tauto.
  - intros gid' a H%lookup_delete_Some. left. tauto.
Qed.

Lemma template_call_effect f s : template_call f -> mgr_ok s -> template_effect s (f s).
Proof.
  intros Hf Hok. destruct Hf.
  - apply new_graph_effect; [done|apply wf_empty|done].
  - by apply destroyGraph_effect.
  - unfold cloneGraph. repeat peel. simpl. eapply (template_effect_maps s (new_graph s _)).
    match goal with H : heap s !! _ = Some ?g |- _ =>
      apply ok_good in H; [|done]; edestruct (good_clone (nextGraphId_ s) g H) end.
    match goal with H : _ = Ok _ |- _ => simpl in H; injection H as <- end. by apply new_graph_effect.
  - unfold validateGraph. repeat peel. destruct (validate _); auto.
  - unfold addKernelNodeWithDepsOut. repeat peel. destruct (captureArgs _ _ _ _); [by eapply addNode_effect|].
    eapply template_put; [done..|]. apply good_bump.
  - unfold addMemcpyNodeWithDepsOut. add_node.
  - unfold addConditionalNodeWithDepsOut. add_node.
  - unfold addMemsetNode. add_node.
  - unfold addHostNode. add_node.
  - unfold addChildGraphNode. add_node.
  - unfold addEmptyNode. add_node.
  - unfold addEventRecordNode. add_node.
  - unfold addEventWaitNode. add_node.
  - unfold addMemAllocNode. repeat peel. destruct (allocate sz) as [[] h]; try by auto.
    eapply (template_effect_maps s (addNode _ _ _ s).1). by eapply addNode_effect.
  - unfold addMemFreeNode. add_node.
  - unfold updateKernelNodeArgs. repeat peel. destruct (recaptureArgs _ _ _ _) as [k' ok].
    destruct ok; simpl; (eapply template_put; [done..|put_node]).
  - apply updateNode_effect; [done|apply _|]. intros n s' n'. by destruct (_ || _), (negb _); intros [= <-].
  - apply updateNode_effect; [done|apply _|]. intros n s' n'. by destruct (negb _); intros [= <-].
  - apply updateNode_effect; [done|apply _|]. intros n s' n'. by destruct (_ =? 0); intros [= <-].
  - unfold addDependency. repeat peel. case_bool_decide; [by auto|]. eapply template_put; [done..|put_node].
  - unfold removeDependency. repeat peel. eapply template_put; [done..|put_node].
  - unfold addDependencies. repeat peel. destruct es as [[|e es]|]; try by auto. repeat peel.
    eapply template_put; [done..|]. intros Hg. apply good_foldl; [apply good_commitAdd|done].
  - unfold removeDependencies. repeat peel. destruct es as [[|e es]|]; try by auto. repeat peel.
    eapply template_put; [done..|]. intros Hg. apply good_foldl; [apply good_commitRemove|done].
Qed.

#[local] Hint Extern 1 (Reader (match ?x with _ => _ end)) => destruct x : typeclass_instances.

Lemma after_effect {A B} (m : M A) (f : A -> M B) s : exec_effect s (m s).1 ->
  (forall v s', m s = (s', Ok v) -> exec_effect s' (f v s').1) -> exec_effect s ((m ≫= f) s).1.
Proof.
  intros Hm Hf. unfold mbind, M_bind. destruct (m s) as [s' [v|err]] eqn:E; [|done].
  eapply exec_effect_trans; [done|]. by apply Hf.
Qed.

Lemma updateExecNode_effect eid nid ty f s : mgr_ok s -> (forall n, Reader (f n)) ->
  (forall n s n', (f n s).2 = Ok n' -> nodeId n' = nodeId n) -> exec_effect s (updateExecNode eid nid ty f s).1.
Proof.
  intros Hok Hr Hf. unfold updateExecNode, findExecNode.
  apply (after_read _ _ (exec_effect s) s); [by auto|]. intros [[[a g] i] n] Hfind.
  assert (exists e, executables_ s !! eid = Some e /\ a = sourceGraph e /\ heap s !! a = Some g /\ find_node g nid = Some (i, n))
    as (e & He & -> & Hg & Hn).
  { unfold mbind, M_bind in Hfind. pose proof (findExec_Ok eid s) as Hx.
    pose proof (reader_state (m := findExec eid) s). destruct (findExec eid s) as [s1 [e|]]; [|done]. simpl in *. subst s1.
    unfold deref in Hfind. destruct (heap s !! sourceGraph e) eqn:Eg; [|done]. unfold findNode in Hfind.
    destruct (find_node _ _) as [[]|] eqn:En; [|done]. simplify_eq/=. eauto 10. }
  repeat peel. match goal with H : (f _ _).2 = Ok _ |- _ => apply Hf in H; rename H into Hid end.
  eapply exec_put; [done..|]. intros Hgd. eapply good_find; [exact Hgd|eassumption|]. rewrite Hid. by eapply find_node_id.
Qed.

Lemma updateNodes_execs aOld aNew nids s : executables_ (updateNodes aOld aNew nids s).1 = executables_ s.
Proof.
  revert s. induction nids as [|nid nids IH]; intros s; [done|]. cbn [updateNodes].
  repeat (apply (after_read _ _ (fun s' => executables_ s' = executables_ s) s); [done|]; intros []; intros).
  exact (IH _).
Qed.

Lemma updateNodes_effect e eid aNew nids s : mgr_ok s -> executables_ s !! eid = Some e ->
  exec_effect s (updateNodes (sourceGraph e) aNew nids s).1.
Proof.
  revert s. induction nids as [|nid nids IH]; intros s Hok He; [by apply exec_effect_refl|]. cbn [updateNodes]. repeat peel.
  assert (forall g i n n0, find_node g nid = Some (i, n) -> nodeId n0 = nid -> good g -> good (set_node g i n0)) as Hset.
  { clear. intros g i n n0 Hf Hid Hg. by eapply good_find. }
  assert (exec_effect s (store (sourceGraph e) (set_node v n g0) s).1) as Hput.
  { eapply exec_put; [done..|]. eapply Hset; [done|]. eapply find_node_id; [|eassumption]. by eapply ok_good. }
  apply after_effect; [done|]. intros ? s' Hs. rewrite Hs in Hput. apply IH; [by apply ee_ok in Hput|]. by injection Hs as <-.
Qed.

Lemma exec_call_effect f s : exec_call f -> mgr_ok s -> exec_effect s (f s).
Proof.
  intros Hf Hok. destruct Hf.
  - unfold updateExecV2. repeat peel. apply after_effect; [by eapply updateNodes_effect|]. intros u s' Hs.
    match goal with He : executables_ s !! eid = Some ?e, H : updateNodes _ ?a _ _ = _ |- _ =>
      pose proof (updateNodes_effect e eid a nids s Hok He) as Hu;
      pose proof (updateNodes_execs (sourceGraph e) a nids s) as Hx end.
    rewrite Hs in Hu, Hx. simpl in *. apply ee_ok in Hu. case_match; [|by auto].
    eapply storeExec_effect; [done|by rewrite Hx|done].
  - destruct Hok as [Hh Hg Hi He Hn]. unfold run, destroyGraphExec, modify. simpl. split; simpl; [|done|done|done|].
    + split; simpl; [done|done|done| |done]. intros eid' e H%lookup_delete_Some. apply He. tauto.
    + intros eid' e H%lookup_delete_Some. exists e. tauto.
  - apply updateExecNode_effect; [done|apply _|]. intros n s' n'. by intros [= <-].
  - apply updateExecNode_effect; [done|apply _|]. intros n s' n'. by destruct (_ || _); intros [= <-].
  - apply updateExecNode_effect; [done|apply _|]. intros n s' n'. by destruct (negb _); intros [= <-].
  - apply updateExecNode_effect; [done|apply _|]. intros n s' n'. by destruct (_ =? 0); intros [= <-].
  - apply updateExecNode_effect; [done|apply _|]. intros n s' n'.
    unfold graphExists, mbind, M_bind, gets. simpl. case_bool_decide; simpl; by intros [= <-].
  - apply updateExecNode_effect; [done|apply _|]. intros n s' n'. by destruct (_ =? 0); intros [= <-].
  - apply updateExecNode_effect; [done|apply _|]. intros n s' n'. by destruct (_ =? 0); intros [= <-].
  - unfold nodeSetEnabled. repeat peel. by eapply storeExec_effect.
  - unfold setExecFlags. repeat peel. by eapply storeExec_effect.
Qed.

(** *** Instantiation *)

Context {Hpass : GraphPass optimize}.

Lemma new_exec_ok s g : mgr_ok s -> good g -> mgr_ok (new_exec s g).
Proof.
  intros [Hh Hg Hi He Hn] [Hwf Hnx].
  assert (forall a, is_Some (heap s !! a) -> is_Some (<[nextObj s := g]> (heap s) !! a)) as Hlive.
  { intros a ?. apply lookup_insert_is_Some. destruct (decide (nextObj s = a)); auto. }
  split; simpl; [| |done| |lia].
  - intros a g0. destruct (decide (nextObj s = a)) as [<-|Hne].
    + rewrite lookup_insert_eq. intros [= <-]. split_and!; [done|done|lia].
    + rewrite lookup_insert_ne by done. intros (? & ? & ?)%Hh. split_and!; [done|done|lia].
  - intros gid a [? ?]%Hg. split; [by apply Hlive|done].
  - intros eid e. destruct (decide (nextExecId_ s = eid)) as [<-|Hne].
    + rewrite lookup_insert_eq. intros [= <-]. simpl. rewrite lookup_insert_eq. split; [by eexists|lia].
    + rewrite lookup_insert_ne by done. intros [? ?]%He. split; [by apply Hlive|lia].
Qed.

(** The graph behind a template handle and behind an executable. *)
Definition template_of (s : t) (gid : Z) : option Graph.t := a ← graphs_ s !! gid; heap s !! a.
Definition working_of (s : t) (eid : Z) : option Graph.t := e ← executables_ s !! eid; heap s !! sourceGraph e.

Lemma reject_if_Ok b s u : (reject_if b s).2 = Ok u -> b = false.
Proof. by destruct b. Qed.

(** What [instantiate] can answer. *)
Lemma instantiate_cases gid s : mgr_ok s ->
  (run (instantiate gid) s = s /\ (instantiate gid s).2 = Err ERR_INVALID_VALUE) \/
  exists a g, graphs_ s !! gid = Some a /\ heap s !! a = Some g /\ nodes g <> [] /\
    let g' := (optimize g).2 in let s1 := set_heap s (<[a := g']> (heap s)) in good g' /\
    if checkAcyclic (nodes g') then instantiate gid s = (new_exec s1 g', Ok (nextExecId_ s))
    else instantiate gid s = (s1, Err ERR_INVALID_VALUE).
Proof.
  intros Hok. unfold instantiate, run, findGraph. cbv [mbind M_bind gets reject_if reject fail mret M_ret].
  destruct (graphs_ s !! gid) as [a|] eqn:Ha; [|by left].
  destruct (ok_graphs _ Hok gid a Ha) as [[g Hg] _]. unfold deref. rewrite Hg. simpl.
  case_bool_decide as En; [by left|]. right. exists a, g. do 3 (split; [done|]).
  pose proof (ok_good _ _ _ Hok Hg) as [? ?]. split; [by apply pass_wf|].
  simpl. destruct (checkAcyclic _); simpl; [|done]. by destruct (optimize g).2.
Qed.

Lemma instantiate_ok gid s : mgr_ok s -> mgr_ok (run (instantiate gid) s).
Proof.
  intros Hok. destruct (instantiate_cases gid s Hok) as [[-> _]|(a & g & Ha & Hg & _ & Hgd & Hc)]; [done|].
  unfold run. pose proof (te_ok _ _ (template_put s gid a g _ Hok Ha Hg (fun _ => Hgd))) as Hok1.
  destruct (checkAcyclic _); rewrite Hc; [by apply new_exec_ok|done].
Qed.

Lemma updateExec_ok eid gid s : mgr_ok s -> mgr_ok (run (updateExec eid gid) s).
Proof.
  intros Hok. unfold run, updateExec.
  do 4 (apply (after_read _ _ mgr_ok s); [done|]; intros ? ?%findExec_Ok || intros [? ?] [? ?]%findGraph_Ok || intros ? ?).
  destruct Hok as [Hh Hg Hi He Hn]. unfold storeExec, modify. split; simpl; [done|done|done| |done].
  intros eid' e'. destruct (decide (eid = eid')) as [<-|Hne].
  - rewrite lookup_insert_eq. intros [= <-]. split; [eauto|by eapply He].
  - rewrite lookup_insert_ne by done. apply He.
Qed.

Lemma mgr_ok_init : mgr_ok init.
Proof. split; simpl; done. Qed.

(** C37: the tables stay consistent.  After any sequence of API calls every
    graph and executable handle names a live graph object, every graph's index
    maps exactly the identifiers of its nodes to their positions, identifiers
    and handles are below the next ones to be given out, and no two graph
    handles share an object. *)
Theorem manager_invariant s : rtc step init s -> mgr_ok s.
Proof.
  revert s. apply (rtc_ind_r mgr_ok); [apply mgr_ok_init|]. intros s s' _ (f & Hf & ->) Hok.
  destruct Hf as [f Hf|f Hf| |]; [by apply template_call_effect|by apply exec_call_effect| |].
  - by apply instantiate_ok.
  - by apply updateExec_ok.
Qed.

(** No executable works on a template. *)
Definition isolated (s : t) : Prop := mgr_ok s /\ forall a, is_template s a -> is_working s a -> False.

Lemma template_call_isolated s s' : isolated s -> template_effect s s' -> isolated s'.
Proof.
  intros [Hok Hi] [Ok' E N H G]. split; [done|]. intros a [gid Ha] (eid & e & He & Hs). rewrite E in He.
  destruct (G gid a Ha); [by eapply Hi; [eexists|eexists _, _]|].
  destruct (ok_execs _ Hok eid e He) as [[g Hg] _]. rewrite Hs in Hg.
  destruct (ok_heap _ Hok a g Hg) as (_ & _ & ?). lia.
Qed.

Lemma exec_call_isolated s s' : isolated s -> exec_effect s s' -> isolated s'.
Proof.
  intros [Hok Hi] [Ok' G N H E]. split; [done|]. intros a [gid Ha] (eid & e & He & Hs). rewrite G in Ha.
  destruct (E eid e He) as (e0 & He0 & Hs0). eapply Hi; [by eexists|]. exists eid, e0. split; [done|congruence].
Qed.

Lemma instantiate_isolated gid s : isolated s -> isolated (run (instantiate gid) s).
Proof.
  intros [Hok Hi]. split; [by apply instantiate_ok|].
  destruct (instantiate_cases gid s Hok) as [[-> _]|(a & g & Ha & Hg & _ & Hgd & Hc)]; [done|].
  unfold run. destruct (checkAcyclic _); rewrite Hc; [|done]. intros b [gid' Hb] (eid & e & He & Hs). simpl in *.
  destruct (decide (nextExecId_ s = eid)) as [<-|Hne].
  - rewrite lookup_insert_eq in He. injection He as <-. simpl in Hs. subst b.
    destruct (ok_graphs _ Hok _ _ Hb) as [[g0 Hg0] _]. destruct (ok_heap _ Hok _ _ Hg0) as (_ & _ & ?). lia.
  - rewrite lookup_insert_ne in He by done. eapply Hi; [by eexists|by eexists _, _].
Qed.

Lemma isolated_reachable s : rtc step_isolated init s -> isolated s.
Proof.
  revert s. apply (rtc_ind_r isolated).
  - split; [apply mgr_ok_init|]. intros a [gid Ha]. simpl in Ha. done.
  - intros s s' _ (f & Hf & ->) Hi. pose proof (proj1 Hi) as Hok.
    destruct Hf as [Hf|[Hf|[gid ->]]].
    + by eapply template_call_isolated, template_call_effect.
    + by eapply exec_call_isolated, exec_call_effect.
    + by apply instantiate_isolated.
Qed.

(** C38: an executable is a private snapshot.  As long as [updateExec] is not
    used, no call on an executable changes a template, no call on templates
    changes the graph an executable runs, and instantiating one template
    changes no other template and no existing executable. *)
Theorem executables_isolated s : rtc step_isolated init s ->
  (forall f gid, exec_call f -> template_of (f s) gid = template_of s gid) /\
  (forall f eid, template_call f -> working_of (f s) eid = working_of s eid) /\
  (forall gid gid', gid' <> gid -> template_of (run (instantiate gid) s) gid' = template_of s gid') /\
  (forall gid eid, is_Some (executables_ s !! eid) -> working_of (run (instantiate gid) s) eid = working_of s eid).
Proof.
  intros [Hok Hi]%isolated_reachable. unfold template_of, working_of. split_and!.
  - intros f gid Hf. destruct (exec_call_effect f s Hf Hok) as [_ -> _ Hh _].
    destruct (graphs_ s !! gid) as [a|] eqn:Ha; [|done]. simpl. apply Hh. intros Hw. by eapply Hi; [eexists|].
  - intros f eid Hf. destruct (template_call_effect f s Hf Hok) as [_ -> _ Hh _].
    destruct (executables_ s !! eid) as [e|] eqn:He; [|done]. simpl.
    destruct (ok_execs _ Hok eid e He) as [[g Hg] _]. apply Hh; [by eapply ok_heap|].
    intros Ht. eapply Hi; [done|by eexists _, _].
  - intros gid gid' Hne.
    destruct (instantiate_cases gid s Hok) as [[-> _]|(a & g & Ha & Hg & _ & Hgd & Hc)]; [done|].
    assert (forall a', graphs_ s !! gid' = Some a' -> a' <> a /\ a' < nextObj s) as Ha'.
    { intros a' Hl. split; [intros ->; by destruct (Hne (ok_inj _ Hok _ _ _ Hl Ha))|].
      destruct (ok_graphs _ Hok _ _ Hl) as [[g' Hg'] _]. by eapply ok_heap. }
    unfold run. destruct (checkAcyclic _); rewrite Hc; simpl; (destruct (graphs_ s !! gid') as [a'|]; [|done]);
      destruct (Ha' a' eq_refl); simpl; rewrite ?lookup_insert_ne by lia; done.
  - intros gid eid [e He].
    destruct (instantiate_cases gid s Hok) as [[-> _]|(a & g & Ha & Hg & _ & Hgd & Hc)]; [done|].
    destruct (ok_execs _ Hok eid e He) as [[g' Hg'] ?].
    assert (sourceGraph e <> a) by (intros Hea; eapply (Hi a); [by exists gid|by exists eid, e]).
    assert (sourceGraph e < nextObj s) by (by eapply ok_heap).
    unfold run. destruct (checkAcyclic _); rewrite Hc; simpl; rewrite ?lookup_insert_ne by lia; rewrite He; simpl;
      rewrite ?lookup_insert_ne by lia; done.
Qed.

(** Instantiation.  A well-formed non-empty template gets a fresh
    executable whose private graph is the template after optimization, closed,
    acyclic and with the template's ordering; and whatever the template,
    success means that the executable's nodes can be put in launch order. *)
Theorem instantiate_correct gid s g : mgr_ok s -> template_of s gid = Some g ->
  (nodes g <> [] -> closed (nodes g) -> dag (nodes g) -> exists s' eid g' phi,
    instantiate gid s = (s', Ok eid) /\ executables_ s !! eid = None /\
    template_of s' gid = Some g' /\ working_of s' eid = Some g' /\ graph_ok g' /\ contracts (nodes g) (nodes g') phi) /\
  (forall s' eid, instantiate gid s = (s', Ok eid) -> exists g',
    working_of s' eid = Some g' /\ closed (nodes g') /\ dag (nodes g') /\ is_Some (topoSortNodes (nodes g'))).
Proof.
  intros Hok Ht. unfold template_of in *.
  destruct (graphs_ s !! gid) as [a|] eqn:Ha; [|done]. simpl in Ht.
  pose proof (ok_good _ _ _ Hok Ht) as [Hwf Hnx].
  assert (executables_ s !! nextExecId_ s = None) as Hfresh.
  { destruct (executables_ s !! nextExecId_ s) as [e|] eqn:E; [|done]. apply (ok_execs _ Hok) in E. lia. }
  assert (forall s1 g', a < nextObj s -> heap s1 = <[a := g']> (heap s) -> nextObj s1 = nextObj s -> graphs_ s1 = graphs_ s ->
    (nextExecId_ s1 = nextExecId_ s) ->
    template_of (new_exec s1 g') gid = Some g' /\ working_of (new_exec s1 g') (nextExecId_ s) = Some g') as Hnew.
  { intros s1 g' Hlt E1 E2 E3 E4. unfold template_of, working_of. simpl. rewrite E1, E2, E3, E4, Ha, lookup_insert_eq. simpl.
    by rewrite lookup_insert_eq, lookup_insert_ne, lookup_insert_eq by lia. }
  assert (a < nextObj s) as Hlt by (by eapply ok_heap).
  destruct (instantiate_cases gid s Hok) as [[_ Hr]|(a0 & g0 & Ha0 & Hg0 & Hne & [Hwf' Hnx'] & Hc)].
  - split; [|intros s' eid Hs; by rewrite Hs in Hr]. intros Hne Hcl Hdag. exfalso. revert Hr.
    unfold instantiate, findGraph. cbv [mbind M_bind gets reject_if reject fail mret M_ret deref store modify].
    rewrite Ha. simpl. rewrite Ht. simpl. rewrite bool_decide_eq_false_2 by done. simpl.
    destruct (pass_ok g) as [(? & ? & ? & ?) _]; [by split_and!|].
    by rewrite (proj2 (checkAcyclic_spec _ (wf_NoDup _ H))).
  - simplify_eq. pose proof (checkAcyclic_spec _ (wf_NoDup _ Hwf')) as Hchk. split.
    + intros _ Hcl Hdag. destruct (pass_ok g) as [Hok' [phi Hphi]]; [by split_and!|].
      pose proof Hok' as (? & ? & ? & ?). rewrite (proj2 Hchk) in Hc by done. rewrite Hc.
      eexists _, _, _, phi. split_and!; [done|done|by apply Hnew|by apply Hnew|by apply Hok'..|done].
    + intros s' eid Hs. rewrite Hs in Hc. destruct (checkAcyclic _) eqn:E; [|done]. simplify_eq.
      destruct (proj1 Hchk eq_refl) as [Hcl Hdag]. eexists. split_and!; [by apply Hnew|done|done|].
      apply topo_spec; [by apply wf_NoDup| |done].
      apply Forall_forall. intros n [i Hi]%list_elem_of_lookup. apply (wf_ids _ Hwf') in Hi. lia.
Qed.

(** *** Dependency edits as changes of the edge relation *)

(** The nodes without their dependencies. *)
Definition strip (ns : list GraphNode) : list GraphNode := (fun n => with_deps n []) <$> ns.

Lemma ids_strip ns : ids ns = nodeId <$> strip ns.
Proof. unfold ids, strip. rewrite <- list_fmap_compose. by apply list_fmap_ext. Qed.

Lemma strip_set g i n ds : nodes g !! i = Some n -> strip (nodes (set_node g i (with_deps n ds))) = strip (nodes g).
Proof.
  intros Hi. unfold strip. simpl. rewrite list_fmap_insert. apply list_insert_id.
  by rewrite list_lookup_fmap, Hi.
Qed.

Lemma edge_find g m i n d : wf g -> find_node g m = Some (i, n) -> edge (nodes g) d m <-> d ∈ deps n.
Proof.
  intros Hwf [Hi Hm]%find_node_Some; [|done]. split.
  - intros (n' & Hn' & Hid & Hd). replace n with n'; [done|]. eapply wf_unique; [done|done| |congruence].
    by eapply list_elem_of_lookup_2.
  - intros Hd. exists n. split_and!; [by eapply list_elem_of_lookup_2|done..].
Qed.

Lemma edge_set g m i n ds d m' : wf g -> find_node g m = Some (i, n) ->
  edge (nodes (set_node g i (with_deps n ds))) d m' <-> if decide (m' = m) then d ∈ ds else edge (nodes g) d m'.
Proof.
  intros Hwf Hf. pose proof Hf as [Hi Hm]%find_node_Some; [|done].
  assert (wf (set_node g i (with_deps n ds))) as Hwf' by (by eapply wf_set).
  case_decide as E.
  - subst m'. apply (edge_find _ _ i (with_deps n ds)); [done|]. apply find_node_Some; [done|]. simpl.
    rewrite list_lookup_insert_eq by (by eapply lookup_lt_Some). done.
  - unfold edge. simpl. split; intros (n' & [j Hj]%list_elem_of_lookup & Hid & Hd); exists n'; (split; [|done]).
    + destruct (decide (i = j)) as [<-|Hne].
      * rewrite list_lookup_insert_eq in Hj by (by eapply lookup_lt_Some). simplify_eq/=.
      * rewrite list_lookup_insert_ne in Hj by done. by eapply list_elem_of_lookup_2.
    + apply list_elem_of_lookup. exists j. rewrite list_lookup_insert_ne; [done|]. intros <-. simplify_eq/=.
Qed.

Lemma find_node_is_Some g nid : wf g -> nid ∈ ids (nodes g) -> exists i n, find_node g nid = Some (i, n).
Proof.
  intros Hwf Hin. destruct (find_node g nid) as [[i n]|] eqn:E; [by exists i, n|].
  by apply find_node_None in E.
Qed.

Lemma index_is_Some g nid : wf g -> is_Some (nodeIndex g !! nid) <-> nid ∈ ids (nodes g).
Proof.
  intros Hwf. split.
  - intros [i (n & Hn & <-)%(wf_index _ Hwf)]. unfold ids. apply list_elem_of_fmap_2. by eapply list_elem_of_lookup_2.
  - intros (i & n & [? ?]%find_node_Some)%(find_node_is_Some _ _ Hwf); [|done]. exists i. apply (wf_index _ Hwf). eauto.
Qed.

Lemma commitAdd_spec g e : good g -> e.2 ∈ ids (nodes g) ->
  strip (nodes (commitAdd g e)) = strip (nodes g) /\
  forall d m, edge (nodes (commitAdd g e)) d m <-> edge (nodes g) d m \/ (d, m) = e.
Proof.
  clear Hpass optimize mem getKernelIR.
  intros [Hwf _] Hin. destruct (find_node_is_Some g e.2 Hwf Hin) as (i & n & Hf). unfold commitAdd. rewrite Hf.
  pose proof Hf as [Hi Hm]%find_node_Some; [|done]. destruct e as [a b]. cbn [fst snd] in *. case_bool_decide as Hd.
  - split; [done|]. intros d m. split; [by left|]. intros [?|[= -> ->]]; [done|]. by apply (edge_find g b i n).
  - split; [by apply strip_set|]. intros d m. rewrite (edge_set g b i n) by done. case_decide as E.
    + subst m. rewrite elem_of_app, list_elem_of_singleton, <- (edge_find g b i n d Hwf Hf). naive_solver.
    + naive_solver.
Qed.

Lemma commitRemove_spec g e : good g -> e.2 ∈ ids (nodes g) ->
  strip (nodes (commitRemove g e)) = strip (nodes g) /\
  forall d m, edge (nodes (commitRemove g e)) d m <-> edge (nodes g) d m /\ (d, m) <> e.
Proof.
  clear Hpass optimize mem getKernelIR.
  intros [Hwf _] Hin. destruct (find_node_is_Some g e.2 Hwf Hin) as (i & n & Hf). unfold commitRemove. rewrite Hf.
  pose proof Hf as [Hi Hm]%find_node_Some; [|done]. destruct e as [a b]. cbn [fst snd] in *.
  split; [by apply strip_set|]. intros d m. rewrite (edge_set g b i n) by done. case_decide as E.
  - subst m. rewrite list_elem_of_filter, <- (edge_find g b i n d Hwf Hf). naive_solver.
  - naive_solver.
Qed.

Lemma commitAdd_fold es g : good g -> (forall e, e ∈ es -> e.2 ∈ ids (nodes g)) ->
  strip (nodes (foldl commitAdd g es)) = strip (nodes g) /\
  forall d m, edge (nodes (foldl commitAdd g es)) d m <-> edge (nodes g) d m \/ (d, m) ∈ es.
Proof.
  clear Hpass optimize mem getKernelIR.
  revert g. induction es as [|e es IH]; intros g Hg Hin; simpl.
  { split; [done|]. intros d m. rewrite elem_of_nil. tauto. }
  destruct (commitAdd_spec g e Hg) as [Hs He]; [apply Hin; by left|].
  destruct (IH (commitAdd g e)) as [-> IHe].
  { by apply good_commitAdd. }
  { intros e' He'. rewrite ids_strip, Hs, <- ids_strip. apply Hin. by right. }
  split; [done|]. intros d m. rewrite IHe, He, elem_of_cons. tauto.
Qed.

Lemma commitRemove_fold es g : good g -> (forall e, e ∈ es -> e.2 ∈ ids (nodes g)) ->
  strip (nodes (foldl commitRemove g es)) = strip (nodes g) /\
  forall d m, edge (nodes (foldl commitRemove g es)) d m <-> edge (nodes g) d m /\ (d, m) ∉ es.
Proof.
  clear Hpass optimize mem getKernelIR.
  revert g. induction es as [|e es IH]; intros g Hg Hin; simpl.
  { split; [done|]. intros d m. rewrite elem_of_nil. tauto. }
  destruct (commitRemove_spec g e Hg) as [Hs He]; [apply Hin; by left|].
  destruct (IH (commitRemove g e)) as [-> IHe].
  { by apply good_commitRemove. }
  { intros e' He'. rewrite ids_strip, Hs, <- ids_strip. apply Hin. by right. }
  split; [done|]. intros d m. rewrite IHe, He, elem_of_cons. tauto.
Qed.

(** The edges [addDependencies] accepts. *)
Definition addable (g : Graph.t) (e : Z * Z) : Prop :=
  e.1 ∈ ids (nodes g) /\ e.2 ∈ ids (nodes g) /\ e.1 <> e.2.

Lemma Forall_forallb {E} (P : E -> Prop) f (l : list E) : (forall x, f x = true <-> P x) ->
  forallb f l = true <-> forall x, x ∈ l -> P x.
Proof.
  intros Hf. rewrite forallb_forall. setoid_rewrite list_elem_of_In. setoid_rewrite Hf. done.
Qed.

(** A bulk dependency edit is all or nothing and exact.  If every named
    edge is between two distinct existing nodes, [addDependencies] adds
    exactly those edges and changes nothing else in the graph; if every named
    edge exists, [removeDependencies] removes exactly those; otherwise the
    call is an error and nothing changes. *)
Theorem dependencies_exact gid s a g es : mgr_ok s -> graphs_ s !! gid = Some a -> heap s !! a = Some g -> es <> [] ->
  ((forall e, e ∈ es -> addable g e) -> exists g',
     addDependencies gid (Some es) s = (set_heap s (<[a := g']> (heap s)), Ok ()) /\
     strip (nodes g') = strip (nodes g) /\
     forall d m, edge (nodes g') d m <-> edge (nodes g) d m \/ (d, m) ∈ es) /\
  (~ (forall e, e ∈ es -> addable g e) -> addDependencies gid (Some es) s = (s, Err ERR_INVALID_VALUE)) /\
  ((forall e, e ∈ es -> e.1 ∈ ids (nodes g) /\ edge (nodes g) e.1 e.2) -> exists g',
     removeDependencies gid (Some es) s = (set_heap s (<[a := g']> (heap s)), Ok ()) /\
     strip (nodes g') = strip (nodes g) /\
     forall d m, edge (nodes g') d m <-> edge (nodes g) d m /\ (d, m) ∉ es) /\
  (~ (forall e, e ∈ es -> e.1 ∈ ids (nodes g) /\ edge (nodes g) e.1 e.2) ->
     removeDependencies gid (Some es) s = (s, Err ERR_INVALID_VALUE)).
Proof.
  clear Hpass optimize mem getKernelIR.
  intros Hok Ha Hg Hne. pose proof (ok_good _ _ _ Hok Hg) as Hgd. pose proof (proj1 Hgd) as Hwf.
  unfold addDependencies, removeDependencies, findGraph.
  cbv [mbind M_bind gets reject_if reject fail mret M_ret deref store modify]. rewrite Ha. simpl. rewrite Hg. simpl.
  destruct es as [|e0 es0]; [done|]. cbv beta iota. revert Hne. generalize (e0 :: es0). clear e0 es0. intros es _.
  match goal with |- context [forallb ?f es] => set (fa := f) end.
  assert (forallb fa es = true <-> forall e, e ∈ es -> addable g e) as Hfa.
  { apply Forall_forallb. intros [x y]. unfold fa, addable. simpl.
    rewrite !andb_true_iff, negb_true_iff, Z.eqb_neq, !bool_decide_eq_true, !index_is_Some by done. tauto. }
  match goal with |- context [forallb ?f es] => match f with fa => fail 1 | _ => set (fr := f) end end.
  assert (forallb fr es = true <-> forall e, e ∈ es -> e.1 ∈ ids (nodes g) /\ edge (nodes g) e.1 e.2) as Hfr.
  { apply Forall_forallb. intros [x y]. unfold fr. simpl. destruct (find_node g y) as [[i n]|] eqn:E.
    - rewrite andb_true_iff, !bool_decide_eq_true, index_is_Some, (edge_find g y i n) by done. done.
    - apply find_node_None in E; [|done]. split; [done|]. intros (_ & n & Hn & <- & _). destruct E.
      unfold ids. by apply list_elem_of_fmap_2. }
  split_and!.
  - intros Hall. rewrite (proj2 Hfa Hall). simpl. eexists. split; [done|]. apply commitAdd_fold; [done|].
    intros e He. by apply Hall.
  - rewrite <- Hfa, not_true_iff_false. intros ->. done.
  - intros Hall. rewrite (proj2 Hfr Hall). simpl. eexists. split; [done|]. apply commitRemove_fold; [done|].
    intros e He. destruct (Hall e He) as (_ & n & Hn & <- & _). unfold ids. by apply list_elem_of_fmap_2.
  - rewrite <- Hfr, not_true_iff_false. intros ->. done.
Qed.

(** *** Argument capture *)

Lemma captureArgs_spec args i tys k k' : captureArgs args i tys k = Some k' ->
  exists bufs, length bufs = length tys /\
    k' = mkKernel (kernelId k) (kernelName k) (gridDim k) (blockDim k) (capturedArgs k ++ bufs)
      (capturedWritePtrs k ++ concat (zip_with (fun ty buf => (argPtrs ty buf).1) tys bufs))
      (capturedReadPtrs k ++ concat (zip_with (fun ty buf => (argPtrs ty buf).2) tys bufs)) /\
    forall j ty, tys !! j = Some ty -> argSize (kernelId k) (i + j) ty <= kMaxArgSize /\
      bufs !! j = captureArg args (i + j) (argSize (kernelId k) (i + j) ty).
Proof.
  revert i k. induction tys as [|ty tys IH]; intros i k; cbn [captureArgs].
  { intros [= <-]. exists []. rewrite !app_nil_r. split_and!; [done|by destruct k|done]. }
  destruct (kMaxArgSize <? _) eqn:Hs; [done|]. destruct (captureArg _ _ _) as [buf|] eqn:Hb; [|done].
  intros (bufs & Hl & -> & Hj)%IH. exists (buf :: bufs). simpl. rewrite Hl, <- !app_assoc. split_and!; [done|done|].
  intros [|j] ty' Hty; simpl in Hty; [injection Hty as <-|].
  - rewrite Nat.add_0_r. b2p. done.
  - rewrite <- Nat.add_succ_comm. by apply Hj.
Qed.

Lemma captureArgs_None args i tys k : captureArgs args i tys k = None ->
  exists j ty, tys !! j = Some ty /\ (kMaxArgSize < argSize (kernelId k) (i + j) ty \/
    captureArg args (i + j) (argSize (kernelId k) (i + j) ty) = None).
Proof.
  revert i k. induction tys as [|ty tys IH]; intros i k; cbn [captureArgs]; [done|].
  destruct (kMaxArgSize <? _) eqn:Hs.
  { intros _. exists O, ty. rewrite Nat.add_0_r. b2p. auto. }
  destruct (captureArg _ _ _) as [buf|] eqn:Hb.
  - intros (j & ty' & ? & ?)%IH. exists (S j), ty'. by rewrite <- Nat.add_succ_comm.
  - intros _. exists O, ty. rewrite Nat.add_0_r. auto.
Qed.

(** Argument [i] can be copied: within the size limit, and present if it has
    bytes. *)
Definition arg_ok (args : option (nat -> Z)) (i : nat) (size : Z) : Prop :=
  size <= kMaxArgSize /\ (0 < size -> exists f, args = Some f /\ f i <> 0).

Lemma captureArg_spec args i size : 
  match captureArg args i size with
  | Some buf => (0 < size -> exists f, args = Some f /\ f i <> 0 /\ buf = readBytes (f i) size) /\ (size <= 0 -> buf = [])
  | None => 0 < size /\ ~ exists f, args = Some f /\ f i <> 0
  end.
Proof.
  unfold captureArg. destruct (Z.ltb_spec 0 size); [|split; [lia|done]].
  destruct args as [f|]; [|split; [done|naive_solver]]. destruct (Z.eqb_spec (f i) 0).
  - split; [done|]. intros (f' & [= <-] & ?). done.
  - split; [eauto|lia].
Qed.

Lemma length_readBytes p size : 0 <= size -> Z.of_nat (length (readBytes p size)) = size.
Proof. intros. unfold readBytes. rewrite length_fmap, length_seqZ. lia. Qed.

Lemma elem_of_concat_zip {B C D} (f : B -> C -> list D) (l : list B) (k : list C) p : length l = length k ->
  p ∈ concat (zip_with f l k) <-> exists i b c, l !! i = Some b /\ k !! i = Some c /\ p ∈ f b c.
Proof.
  revert k. induction l as [|b l IH]; intros [|c k] Hl; simpl in *; try done.
  { rewrite elem_of_nil. split; [done|]. intros (i & ? & ? & ? & _). done. }
  rewrite elem_of_app, IH by lia. split.
  - intros [H|(i & b' & c' & ? & ? & ?)]; [by exists O, b, c|by exists (S i), b', c'].
  - intros ([|i] & b' & c' & ? & ? & ?); simplify_eq/=; [by left|right; by exists i, b', c'].
Qed.

(** The pointers of one captured argument. *)
Lemma argPtrs_captured f i ty size kid : size = argSize kid i ty ->
  forall p, p ∈ (argPtrs ty (if 0 <? size then readBytes (f i) size else [])).1 <->
    ty = POINTER /\ p <> 0 /\ p = le_decode (readBytes (f i) 8).
Proof.
  intros -> p. unfold argPtrs. destruct (decide (ty = POINTER)) as [->|Hne].
  - cbn [argSize]. rewrite bool_decide_eq_true_2 by done. simpl.
    assert (slot (readBytes (f i) 8) 0 = le_decode (readBytes (f i) 8)) as -> by done.
    change (8 <=? length (readBytes (f i) 8))%nat with true. cbv iota.
    destruct (Z.eqb_spec (le_decode (readBytes (f i) 8)) 0) as [E|E]; simpl.
    + rewrite elem_of_nil. split; [done|]. naive_solver congruence.
    + rewrite list_elem_of_singleton. naive_solver congruence.
  - rewrite (bool_decide_eq_false_2 (ty = POINTER)) by done. simpl. destruct (_ && _); simpl; rewrite elem_of_nil; naive_solver.
Qed.

(** A kernel node captures its arguments by value.  Adding a kernel node
    succeeds exactly when the launch dimensions are nonzero and every argument
    has at most 64 KiB and, if it has any bytes, a non-null source; the node
    then holds, per argument, a copy of exactly the declared number of bytes,
    and its write set lists exactly the non-null pointers passed. *)
Theorem addKernelNode_captures gid kid name grid block args tys ds st s a g :
  graphs_ s !! gid = Some a -> heap s !! a = Some g ->
  let accepted := x grid <> 0 /\ x block <> 0 /\ forall i ty, tys !! i = Some ty -> arg_ok args i (argSize kid i ty) in
  match addKernelNodeWithDepsOut gid kid name grid block args tys ds st s with
  | (s', Ok nid) => accepted /\ exists n, s' = set_heap s (<[a := push_node g n]> (heap s)) /\
      type n = KERNEL /\ nodeId n = nid /\ nid = nextNodeId g /\ deps n = ds /\ streamId n = st /\
      kernelId (kernel n) = kid /\ gridDim (kernel n) = grid /\ blockDim (kernel n) = block /\
      length (capturedArgs (kernel n)) = length tys /\
      (forall i ty f, tys !! i = Some ty -> args = Some f -> 
         capturedArgs (kernel n) !! i = Some (readBytes (f i) (argSize kid i ty))) /\
      (forall p f, args = Some f -> p ∈ capturedWritePtrs (kernel n) <->
         p <> 0 /\ exists i, tys !! i = Some POINTER /\ p = le_decode (readBytes (f i) 8))
  | (s', Err e) => e = ERR_INVALID_VALUE /\ ~ accepted /\ nodes <$> template_of s' gid = Some (nodes g)
  end.
Proof.
  intros Ha Hg accepted.
  assert (nodes <$> template_of s gid = Some (nodes g)) as Hsame by (unfold template_of; rewrite Ha; simpl; by rewrite Hg).
  unfold addKernelNodeWithDepsOut, addNode, findGraph.
  cbv [mbind M_bind gets reject_if reject fail mret M_ret deref store modify].
  destruct (_ || _) eqn:Hx.
  { split_and!; [done| |done]. intros (? & ? & _). b2p. by destruct Hx; b2p. }
  rewrite Ha. simpl. rewrite Hg. simpl. b2p. destruct (captureArgs _ _ _ _) as [k|] eqn:Hk.
  - apply captureArgs_spec in Hk as (bufs & Hl & -> & Hj). cbn [kernelId] in Hj.
    assert accepted as Hgood.
    { split_and!; [done|done|]. intros i ty Hty. destruct (Hj i ty Hty) as [? Hb]. split; [done|]. intros Hsz.
      destruct (lookup_lt_is_Some_2 bufs i) as [buf Hbuf]; [rewrite Hl; by eapply lookup_lt_Some|].
      pose proof (captureArg_spec args (0 + i) (argSize kid (0 + i) ty)) as Hs. rewrite <- Hb, Hbuf in Hs.
      destruct Hs as [(f & ? & ? & _) _]; [done|]. by exists f. }
    assert (forall i ty f, tys !! i = Some ty -> args = Some f ->
      bufs !! i = Some (if 0 <? argSize kid i ty then readBytes (f i) (argSize kid i ty) else [])) as Hbuf.
    { intros i ty f Hty ->. destruct (Hj i ty Hty) as [_ ->]. change (0 + i)%nat with i.
      destruct Hgood as (_ & _ & Hall). destruct (Hall i ty Hty) as [_ Hnz]. unfold captureArg.
      destruct (Z.ltb_spec 0 (argSize kid i ty)) as [Hpos|]; [|done].
      destruct (Hnz Hpos) as (f' & [= <-] & Hz). by destruct (Z.eqb_spec (f i) 0). }
    split; [done|]. eexists. split; [done|]. simpl. split_and!; try done.
    + intros i ty f Hty Hf. rewrite (Hbuf i ty f Hty Hf). destruct (Z.ltb_spec 0 (argSize kid i ty)); [done|].
      unfold readBytes. rewrite seqZ_nil by lia. done.
    + intros p f Hf. rewrite elem_of_concat_zip by done. split.
      * intros (i & ty & buf & Hty & Hb & Hp). rewrite (Hbuf i ty f Hty Hf) in Hb. injection Hb as <-.
        apply (argPtrs_captured f i ty _ kid eq_refl) in Hp as (-> & ? & ?). eauto.
      * intros (Hp & i & Hty & Hpe). eexists i, POINTER, _. split_and!; [done|by apply Hbuf|].
        by apply (argPtrs_captured f i POINTER _ kid eq_refl).
  - apply captureArgs_None in Hk as (j & ty & Hty & Hbad). split_and!; [done| |].
    + intros (_ & _ & Hall). destruct (Hall j ty Hty) as [? Hf]. cbn [kernelId] in Hbad.
      change (0 + j)%nat with j in Hbad. destruct Hbad as [?|Hn]; [lia|]. pose proof (captureArg_spec args j (argSize kid j ty)) as Hs. simpl in Hn.
      rewrite Hn in Hs. by destruct Hs as [?%Hf ?].
    + unfold template_of. simpl. rewrite Ha. simpl. by rewrite lookup_insert_eq.
Qed.

End Capture.

(** ** Concrete runs *)

Section Runs.

(** No registered kernels, zero memory, no optimization. *)
Abbreviation ir0 := (fun _ : Z => @None KernelIR).
Abbreviation mem0 := (fun _ : Z => 0).
Abbreviation noopt := (fun g : Graph.t => (SUCCESS, g)).

Lemma manager_invariant_witness :
  let s := run (addEmptyNode 1 []) (run createGraph init) in
  template_of s 1 <> None /\ mgr_ok s.
Proof.
  cbv zeta. split; [vm_compute; discriminate|]. apply (manager_invariant ir0 mem0 noopt).
  apply (rtc_l _ _ (run createGraph init)); [eexists; split; [apply call_template, tc_create|reflexivity]|].
  apply rtc_once. eexists. split; [apply call_template, tc_empty|reflexivity].
Defined.

Lemma executables_isolated_witness :
  let s := run (instantiate noopt 1) (run (addHostNode 1 7 0 []) (run createGraph init)) in
  working_of s 1 <> None /\
  template_of (run (execHostNodeSetParams 1 1 8 0) s) 1 = template_of s 1 /\
  working_of (run (addEmptyNode 1 []) s) 1 = working_of s 1.
Proof.
  cbv zeta. split; [vm_compute; discriminate|].
  match goal with |- template_of (run _ ?s) _ = _ /\ _ => assert (rtc (step_isolated ir0 mem0 noopt) init s) as Hs end.
  { eapply rtc_l; [eexists; split; [left; apply tc_create|reflexivity]|].
    eapply rtc_l; [eexists; split; [left; apply (tc_host _ _ 1 7 0 [])|reflexivity]|].
    eapply rtc_once. eexists. split; [right; right; by exists 1|reflexivity]. }
  destruct (executables_isolated ir0 mem0 noopt _ Hs) as (H1 & H2 & _).
  split; [apply H1, ec_host|apply H2, (tc_empty _ _ 1 [])].
Defined.

Lemma instantiate_correct_witness :
  let s := run (addEmptyNode 1 []) (run createGraph init) in
  exists s' eid, instantiate noopt 1 s = (s', Ok eid) /\ executables_ s !! eid = None.
Proof.
  cbv zeta.
  match goal with |- exists s' eid, instantiate _ _ ?s = _ /\ _ =>
    assert (mgr_ok s) as Hok; [|destruct (instantiate_correct noopt 1 s
      (push_node (mkGraph 1 1 [] ∅) (newNode EMPTY 1 [])) Hok eq_refl) as [H _]] end.
  { apply te_ok with (run createGraph init), (template_call_effect ir0 mem0); [apply tc_empty|].
    apply te_ok with init, (template_call_effect ir0 mem0); [apply tc_create|apply mgr_ok_init]. }
  destruct H as (s' & eid & _ & _ & H1 & H2 & _); [done| | |by exists s', eid].
  - intros n d Hn Hd. apply list_elem_of_singleton in Hn as ->. by apply elem_of_nil in Hd.
  - exists (fun _ => O). intros n d Hn Hd. apply list_elem_of_singleton in Hn as ->. by apply elem_of_nil in Hd.
Defined.

Lemma addKernelNode_captures_witness :
  let mem := fun a => if a =? 4096 then 9 else 0 in
  match addKernelNodeWithDepsOut ir0 mem 1 7 "k" (mkDim3 1 1 1) (mkDim3 1 1 1) (Some (fun _ => 4096)) [POINTER] [] 0
          (run createGraph init) with
  | (s', Ok nid) => nid = 1 /\ exists n, nodes <$> template_of s' 1 = Some [n] /\ 9 ∈ capturedWritePtrs (kernel n)
  | (_, Err _) => False
  end.
Proof.
  cbv zeta.
  pose proof (addKernelNode_captures ir0 (fun a => if a =? 4096 then 9 else 0) 1 7 "k" (mkDim3 1 1 1) (mkDim3 1 1 1)
    (Some (fun _ => 4096)) [POINTER] [] 0 (run createGraph init) 1 (mkGraph 1 1 [] ∅) eq_refl eq_refl) as H.
  cbv zeta in H. destruct (addKernelNodeWithDepsOut _ _ _ _ _ _ _ _ _ _ _ _) as [s' [nid|e]].
  - destruct H as (_ & n & -> & _ & _ & -> & _ & _ & _ & _ & _ & _ & _ & Hw). split; [done|]. exists n. split; [done|].
    apply (Hw 9 (fun _ => 4096) eq_refl). split; [done|]. exists O. split; [done|]. vm_compute. reflexivity.
  - destruct H as (_ & H & _). apply H. split_and!; [done|done|]. intros i ty Hty.
    destruct i as [|i]; [|done]. injection Hty as <-. split; [vm_compute; discriminate|]. intros _. by exists (fun _ => 4096).
Defined.

Lemma dependencies_exact_witness :
  let s := run (addEmptyNode 1 []) (run (addEmptyNode 1 []) (run createGraph init)) in
  exists g', addDependencies 1 (Some [(1, 2)]) s = (set_heap s (<[1 := g']> (heap s)), Ok ()) /\ edge (nodes g') 1 2.
Proof.
  cbv zeta.
  match goal with |- exists g', addDependencies _ _ ?s = _ /\ _ => assert (mgr_ok s) as Hok end.
  { apply te_ok with (run (addEmptyNode 1 []) (run createGraph init)), (template_call_effect ir0 mem0); [apply tc_empty|].
    apply te_ok with (run createGraph init), (template_call_effect ir0 mem0); [apply tc_empty|].
    apply te_ok with init, (template_call_effect ir0 mem0); [apply tc_create|apply mgr_ok_init]. }
  destruct (dependencies_exact 1 _ 1 (push_node (push_node (mkGraph 1 1 [] ∅) (newNode EMPTY 1 [])) (newNode EMPTY 2 []))
    [(1, 2)] Hok eq_refl eq_refl ltac:(discriminate)) as [H _].
  destruct H as (g' & H1 & _ & H2).
  - intros e ->%list_elem_of_singleton. split_and!; [|..|done]; refine (bool_decide_eq_true_1 _ _); vm_compute; reflexivity.
  - exists g'. split; [exact H1|]. apply H2. right. by left.
Defined.

(** After [updateExec] the executable runs the template itself, so changing
    the executable's node changes the template. *)
Definition alias_run : M Z :=
  gid ← createGraph; nid ← addHostNode gid 7 0 []; eid ← instantiate noopt gid;
  updateExec eid gid;; execHostNodeSetParams eid nid 8 0;;
  n ← getNode gid nid; mret (hostFn (host n)).

Lemma updateExec_aliases_template : (alias_run init).2 = Ok 8.
Proof. vm_compute. reflexivity. Qed.

(** [updateExecV2] stops at the first node it cannot update; the nodes before
    it stay updated. *)
Definition attempt {A} (m : M A) : M (result VGREResult A) := fun s => let (s', r) := m s in (s', Ok r).

Definition partial_update_run : M (result VGREResult () * Z) :=
  gid ← createGraph; n1 ← addHostNode gid 7 0 []; _ ← addEmptyNode gid [];
  eid ← instantiate noopt gid;
  gid2 ← createGraph; _ ← addHostNode gid2 8 0 [];
  r ← attempt (updateExecV2 eid gid2 [1; 2]);
  '(_, _, _, n) ← findExecNode eid n1; mret (r, hostFn (host n)).

Lemma updateExecV2_partial : (partial_update_run init).2 = Ok (Err ERR_INVALID_VALUE, 8).
Proof. vm_compute. reflexivity. Qed.

(** The "root nodes" reported are the nodes nothing depends on. *)
Lemma getGraphRootNodes_are_sinks :
  ((gid ← createGraph; a ← addEmptyNode gid []; _ ← addEmptyNode gid [a]; getGraphRootNodes gid) init).2 = Ok [2].
Proof. vm_compute. reflexivity. Qed.

(** The clone map is kept per original only: after the original grew and was
    cloned again, [findNodeInClone] names a node the first clone lacks. *)
Definition stale_clone_run : M (Z * bool) :=
  gid ← createGraph; _ ← addEmptyNode gid []; c1 ← cloneGraph gid;
  n2 ← addEmptyNode gid []; _ ← cloneGraph gid;
  m ← findNodeInClone gid n2 c1; ns ← getGraphNodes c1; mret (m, bool_decide (m ∈ ids ns)).

Lemma findNodeInClone_stale : (stale_clone_run init).2 = Ok (2, false).
Proof. vm_compute. reflexivity. Qed.

(** [execKernelNodeSetParams] copies eight bytes of a half-precision argument,
    of which the caller provides two. *)
Lemma half_precision_sizes kid i :
  argSize ir0 kid i FLOAT16 = 2 /\ execArgSize ir0 kid i FLOAT16 = 8 /\
  argSize ir0 kid i BFLOAT16 = 2 /\ execArgSize ir0 kid i BFLOAT16 = 8.
Proof. done. Qed.

End Runs.
End GraphManager.
