(* ===== verification/GraphDispatch.v ===== *)
(** * Graph dispatch

    Model of [RuntimeEngine::dispatchGraphNodes] and [executeOpsInline]
    (src/core/runtime_engine_graph.cpp): body graphs are collected, the nodes
    sorted and compiled to operations, and the operations run in order by one
    stream task.  Kernels, host and condition functions, copies, events and
    frees act on an abstract world; logging and profiling are left out.
    Compilation recurses through body graphs without a guard, so it takes
    fuel, [None] standing for a recursion that has not ended.  The contract
    ([implements], [runs_body]) says what operation each node asks for in terms
    of the node's fields and the engine's tables alone. *)

From S2P Require Import Prelude TopoSort Graph.
Open Scope Z_scope.

#[local] Set Warnings "-register-all".

Module GraphDispatch.
Import TopoSort Graph.

(** The tables of the engine that dispatch reads; a function is its address,
    0 for none, and a pending compilation is its eventual result. *)
Record JITResult := mkJIT {
  jitFn : Z;
  jitArgSizes : list Z;
  jitSharedMemSize : Z;
  jitInstructionCount : Z;
  jitFlopCount : Z;
}.

Record Engine := mkEngine {
  initialized_ : bool;
  kernelNames_ : gmap string Z;
  kernelCache_ : gmap Z Z;
  kernelFnAddrMap_ : gmap Z Z;
  pendingKernels_ : gmap Z JITResult;
  kernelIRCache_ : gmap Z KernelIR;
  backendKernels_ : gset Z;
}.

(** [OwnedFusedLaunchArgs] with the launch dimensions. *)
Record LaunchArgs := mkLaunch {
  fn : Z;
  kernelLabel : string;
  argValues : list (list Z);
  flops : Z;
  memBytes : Z;
  sharedMemBytes : Z;
  op_gridDim : dim3;
  op_blockDim : dim3;
  op_usesSyncthreads : bool;
}.

Definition noLaunch : LaunchArgs := mkLaunch 0 "" [] 0 0 0 (mkDim3 1 1 1) (mkDim3 1 1 1) false.

(** [NativeGraphOperation]; a compiled body is its list of operations. *)
Inductive NativeGraphOperation := mkOp {
  op_type : GraphNodeType;
  kernelArgs : LaunchArgs;
  op_copy : MemcpyData;
  op_cond : CondData;
  op_memset : MemsetData;
  op_host : HostData;
  op_event : Z;
  bodyExec : option (list NativeGraphOperation);
  bodyExecs : list (option (list NativeGraphOperation));
}.

(** ** Compilation *)

Section Compile.
Context (VGRE_ENABLE_JIT : bool).
(** Size of the allocation at a handle, [None] for no valid handle. *)
Context (allocationSize : Z -> option Z).

Definition actualKernelId (E : Engine) (k : KernelData) : Z :=
  if kernelId k =? 0 then default 0 (kernelNames_ E !! kernelName k) else kernelId k.

Definition isBackendKernel (E : Engine) (kid : Z) : bool :=
  negb VGRE_ENABLE_JIT && bool_decide (kid ∈ backendKernels_ E).

(** Waiting for a pending compilation. *)
Definition finishPending (E : Engine) (kid : Z) (j : JITResult) : Engine :=
  let ir := default noIR (kernelIRCache_ E !! kid) in
  mkEngine (initialized_ E) (kernelNames_ E) (<[kid := jitFn j]> (kernelCache_ E)) (<[jitFn j := kid]> (kernelFnAddrMap_ E))
    (delete kid (pendingKernels_ E))
    (if jitFn j =? 0 then kernelIRCache_ E
     else <[kid := mkIR (source ir) (argTypes ir) (jitArgSizes j) (jitSharedMemSize j) (name ir) (usesSyncthreads ir)
                     (jitInstructionCount j) (jitFlopCount j)]> (kernelIRCache_ E))
    (backendKernels_ E).

(** The function to launch. *)
Definition resolveKernel (E : Engine) (kid : Z) : Engine * result VGREResult Z :=
  if isBackendKernel E kid then (E, Ok 0) else
  match kernelCache_ E !! kid with
  | Some f => (E, Ok f)
  | None =>
      match pendingKernels_ E !! kid with
      | Some j => (finishPending E kid j, Ok (jitFn j))
      | None => (E, Err ERR_INVALID_KERNEL)
      end
  end.

(** [dim3::total], in 32 bits. *)
Definition total (d : dim3) : Z := u32 (x d * y d * z d).

Fixpoint le_bytes (bs : list Z) : Z :=
  match bs with [] => 0 | b :: bs => b + 256 * le_bytes bs end.

(** The bytes a launch touches, for the statistics. *)
Fixpoint argBytes (totalThreads : Z) (ir : KernelIR) (ai : nat) (tys : list ArgType) (bufs : list (list Z)) : Z :=
  match tys, bufs with
  | ty :: tys, buf :: bufs =>
      u64 (match ty with
           | POINTER => default 0 (allocationSize (le_bytes (take 8 buf)))
           | STRUCT => default 0 (argSizes ir !! ai) * totalThreads
           | _ => 0
           end + argBytes totalThreads ir (S ai) tys bufs)
  | _, _ => 0
  end.

(** The size one argument is passed with. *)
Definition passSize (ir : option KernelIR) (ai : nat) (buf : list Z) : Z :=
  match ir with
  | None => Z.of_nat (length buf)
  | Some ir =>
      match argTypes ir !! ai with
      | None => Z.of_nat (length buf)
      | Some ty =>
          if 0 <? default 0 (argSizes ir !! ai) then default 0 (argSizes ir !! ai)
          else match ty with INT32 | UINT32 | FLOAT32 => 4 | _ => 8 end
      end
  end.

(** A zero-filled buffer that receives what fits. *)
Definition passArg (size : Z) (buf : list Z) : list Z :=
  take (Z.to_nat size) buf ++ replicate (Z.to_nat size - length buf) 0.

Definition passArgs (ir : option KernelIR) (bufs : list (list Z)) : list (list Z) :=
  imap (fun ai buf => passArg (passSize ir ai buf) buf) bufs.

Definition compileKernel (E : Engine) (k : KernelData) : Engine * result VGREResult LaunchArgs :=
  let kid := actualKernelId E k in
  match resolveKernel E kid with
  | (E, Err e) => (E, Err e)
  | (E, Ok f) =>
      let ir := kernelIRCache_ E !! kid in
      let totalThreads := u32 (total (gridDim k) * total (blockDim k)) in
      (E, Ok (mkLaunch f
        (match ir with Some ir => name ir | None => "unknown" end)
        (passArgs ir (capturedArgs k))
        (u64 (totalThreads * match ir with Some ir => estimatedInstructionCount ir | None => 1 end))
        (match ir with Some ir => argBytes totalThreads ir 0 (argTypes ir) (capturedArgs k) | None => 0 end)
        (match ir with Some ir => sharedMemSize ir | None => 0 end)
        (gridDim k) (blockDim k)
        (match ir with Some ir => usesSyncthreads ir | None => false end)))
  end.

Definition noCopy : MemcpyData := mkMemcpy 0 0 0 0.
Definition noCond : CondData := mkCond 0 0 0 IF 65536.
Definition noMemset : MemsetData := mkMemset 0 0 0 0 1.

(** The operation of a node other than a kernel, given its compiled body. *)
Definition plainOp (n : GraphNode) (body : option (list NativeGraphOperation)) : NativeGraphOperation :=
  let dstOnly d := mkMemcpy d 0 0 0 in
  match type n with
  | KERNEL | EMPTY => mkOp (type n) noLaunch noCopy noCond noMemset (mkHost 0 0) 0 None []
  | MEMCPY => mkOp MEMCPY noLaunch (copy n) noCond noMemset (mkHost 0 0) 0 None []
  | CONDITIONAL => mkOp CONDITIONAL noLaunch noCopy
      (mkCond (condFn (cond n)) (condCtx (cond n)) 0 (condType (cond n)) (maxIterations (cond n)))
      noMemset (mkHost 0 0) 0 body []
  | MEMSET => mkOp MEMSET noLaunch (dstOnly (dst (copy n))) noCond (memset n) (mkHost 0 0) 0 None []
  | HOST => mkOp HOST noLaunch noCopy noCond noMemset (host n) 0 None []
  | CHILD => mkOp CHILD noLaunch noCopy noCond noMemset (mkHost 0 0) 0 body []
  | EVENT_RECORD | EVENT_WAIT => mkOp (type n) noLaunch noCopy noCond noMemset (mkHost 0 0) (eventHandle n) None []
  | MEMALLOC => mkOp MEMALLOC noLaunch (dstOnly (memAllocPtr (memAlloc n))) noCond noMemset (mkHost 0 0) 0 None []
  | MEMFREE => mkOp MEMFREE noLaunch (dstOnly (dst (copy n))) noCond noMemset (mkHost 0 0) 0 None []
  end.

Definition kernelOp (l : LaunchArgs) : NativeGraphOperation :=
  mkOp KERNEL l noCopy noCond noMemset (mkHost 0 0) 0 None [].

(** The nodes in the order [topoSortNodes] gives. *)
Definition permute (ns : list GraphNode) (order : list nat) : list GraphNode := omap (fun i => ns !! i) order.

Abbreviation compiled := (option (Engine * result VGREResult (list NativeGraphOperation))).

Section Body.
Context (bodyCache : gmap Z (list GraphNode)).
(** The recursive call. *)
Context (compileBody : Engine -> list GraphNode -> compiled).

(** A conditional or child node: its body, if it has nodes, sorted and
    compiled.  A conditional passes on an error, a child drops it. *)
Definition compileBodyOf (E : Engine) (n : GraphNode) : option (Engine * result VGREResult (option (list NativeGraphOperation))) :=
  let err E e := Some (E, if bool_decide (type n = CHILD) then Ok None else Err e) in
  match bodyCache !! bodyGraphId (cond n) with
  | Some (n0 :: ns) =>
      if bodyGraphId (cond n) =? 0 then Some (E, Ok None) else
      match topoSortNodes (n0 :: ns) with
      | None => err E ERR_INVALID_VALUE
      | Some order =>
          '(E, r) ← compileBody E (permute (n0 :: ns) order);
          match r with Ok ops => Some (E, Ok (Some ops)) | Err e => err E e end
      end
  | _ => Some (E, Ok None)
  end.

Definition compileNode (E : Engine) (n : GraphNode) : option (Engine * result VGREResult NativeGraphOperation) :=
  match type n with
  | KERNEL => let (E, r) := compileKernel E (kernel n) in Some (E, l ← r; Ok (kernelOp l))
  | CONDITIONAL | CHILD => '(E, r) ← compileBodyOf E n; Some (E, body ← r; Ok (plainOp n body))
  | _ => Some (E, Ok (plainOp n None))
  end.

Fixpoint compileLoop (E : Engine) (ns : list GraphNode) : compiled :=
  match ns with
  | [] => Some (E, Ok [])
  | n :: ns =>
      '(E, r) ← compileNode E n;
      match r with
      | Err e => Some (E, Err e)
      | Ok op => '(E, r) ← compileLoop E ns; Some (E, ops ← r; Ok (op :: ops))
      end
  end.
End Body.

Fixpoint compileNodes (fuel : nat) (bodyCache : gmap Z (list GraphNode)) (E : Engine) (ns : list GraphNode) : compiled :=
  match fuel with
  | O => None
  | S fuel => compileLoop bodyCache (compileNodes fuel bodyCache) E ns
  end.

(** ** Body graphs *)

(** [GraphManager::getGraphNodes]. *)
Context (getGraphNodes : Z -> option (list GraphNode)).

Definition needsFetch (n : GraphNode) : bool :=
  bool_decide (type n = CONDITIONAL) || bool_decide (type n = CHILD).

Section Prefetch.
Context (recurse : list GraphNode -> gmap Z (list GraphNode) -> option (gmap Z (list GraphNode))).

Fixpoint prefetchLoop (ns : list GraphNode) (cache : gmap Z (list GraphNode)) : option (gmap Z (list GraphNode)) :=
  match ns with
  | [] => Some cache
  | n :: ns =>
      let b := bodyGraphId (cond n) in
      if needsFetch n && negb (b =? 0) && bool_decide (cache !! b = None) then
        match getGraphNodes b with
        | Some body => cache ← recurse body (<[b := body]> cache); prefetchLoop ns cache
        | None => prefetchLoop ns cache
        end
      else prefetchLoop ns cache
  end.
End Prefetch.

Fixpoint prefetchBodyGraphs (fuel : nat) (ns : list GraphNode) (cache : gmap Z (list GraphNode)) : option (gmap Z (list GraphNode)) :=
  match fuel with
  | O => None
  | S fuel => prefetchLoop (prefetchBodyGraphs fuel) ns cache
  end.

(** [dispatchGraphNodes]: the engine, the result and the task submitted to the
    stream. *)
Definition dispatchGraphNodes (fuel : nat) (E : Engine) (ns : list GraphNode) :
    option (Engine * VGREResult * option (list NativeGraphOperation)) :=
  if bool_decide (ns = []) then Some (E, SUCCESS, None) else
  match topoSortNodes ns with
  | None => Some (E, ERR_INVALID_VALUE, None)
  | Some order =>
      let sorted := permute ns order in
      bodyCache ← prefetchBodyGraphs fuel sorted ∅;
      if negb (initialized_ E) then Some (E, ERR_NOT_INITIALIZED, None) else
      '(E, r) ← compileNodes fuel bodyCache E sorted;
      Some (match r with Ok ops => (E, SUCCESS, Some ops) | Err e => (E, e, None) end)
  end.
End Compile.

(** ** Execution *)

Section Execute.
Context {W : Type}.
(** Kernels (the whole grid), condition and host functions with their
    argument, copies, one row of a fill, events and frees. *)
Context (launchKernel : LaunchArgs -> W -> W).
Context (callCond : Z -> Z -> W -> Z * W).
Context (callHost : Z -> Z -> W -> W).
Context (memcpy : MemcpyData -> W -> W).
Context (memsetRow : Z -> Z -> Z -> W -> W).
Context (recordEvent waitEvent freeMem : Z -> W -> W).

(** The WHILE loop: [k] iterations are left. *)
Fixpoint whileLoop (c : W -> Z * W) (body : W -> W) (k : nat) (w : W) : W :=
  match k with
  | O => w
  | S k => let (v, w) := c w in if v =? 0 then w else whileLoop c body k (body w)
  end.

(** The pitched fill, slice by slice and row by row. *)
Definition fillRow (base : Z) (m : MemsetData) (d h : Z) : W -> W :=
  memsetRow (u64 (base + u64 (u64 (d * memsetPitch m * memsetHeight m) + h * memsetPitch m)))
    (memsetValue m) (memsetWidth m).

Definition fill (base : Z) (m : MemsetData) (w : W) : W :=
  if (base =? 0) || (memsetWidth m =? 0) || (memsetHeight m =? 0) then w else
  let depth := if memsetDepth m =? 0 then 1 else memsetDepth m in
  foldl (fun w d => foldl (fun w h => fillRow base m d h w) w (seqZ 0 (memsetHeight m))) w (seqZ 0 depth).

(** The branches of a conditional, its bodies already turned into functions. *)
Definition execCond (c : CondData) (body : option (W -> W)) (bodies : list (option (W -> W))) (w : W) : W :=
  if condFn c =? 0 then w else
  let call := callCond (condFn c) (condCtx c) in
  let run b w := match b with Some f => f w | None => w end in
  match condType c with
  | IF => let (v, w) := call w in if v =? 0 then w else run body w
  | WHILE => whileLoop call (run body) (Z.to_nat (maxIterations c)) w
  | SWITCH =>
      let (branch, w) := call w in
      let nBranches := Z.of_nat (length bodies) in
      if 0 <? nBranches then
        let target := if (0 <=? branch) && (branch <? nBranches - 1) then branch + 1 else 0 in
        run (default None (bodies !! Z.to_nat target)) w
      else if branch =? 0 then w else run body w
  end.

Fixpoint executeOp (op : NativeGraphOperation) (w : W) : W :=
  let runAll := fix runAll ops w := match ops with [] => w | op :: ops => runAll ops (executeOp op w) end in
  match op with
  | mkOp ty k cp c ms h ev body bodies =>
      match ty with
      | KERNEL => launchKernel k w
      | MEMCPY =>
          if (kind cp =? VGRE_MEMCPY_HOST_TO_DEVICE) || (kind cp =? VGRE_MEMCPY_DEVICE_TO_HOST) ||
             (kind cp =? VGRE_MEMCPY_DEVICE_TO_DEVICE) then memcpy cp w else w
      | CONDITIONAL => execCond c (option_map runAll body) (map (option_map runAll) bodies) w
      | MEMSET => fill (dst cp) ms w
      | HOST => if hostFn h =? 0 then w else callHost (hostFn h) (hostUserData h) w
      | CHILD => match body with Some ops => runAll ops w | None => w end
      | EMPTY | MEMALLOC => w
      | EVENT_RECORD => if ev =? 0 then w else recordEvent ev w
      | EVENT_WAIT => if ev =? 0 then w else waitEvent ev w
      | MEMFREE => if dst cp =? 0 then w else freeMem (dst cp) w
      end
  end.

Definition executeOpsInline (ops : list NativeGraphOperation) (w : W) : W := foldl (fun w op => executeOp op w) w ops.
End Execute.

(** ** What a dispatch is meant to submit *)

(** The contract of a dispatch, in terms of the engine it starts from. *)
Section Contract.
Context (VGRE_ENABLE_JIT : bool) (allocationSize : Z -> option Z) (getGraphNodes : Z -> option (list GraphNode)).
Context (E : Engine).

(** The kernel a node names, by identifier or, without one, by name. *)
Definition names_kernel (k : KernelData) (kid : Z) : Prop :=
  (kernelId k <> 0 /\ kid = kernelId k) \/
  (kernelId k = 0 /\ kernelNames_ E !! kernelName k = Some kid) \/
  (kernelId k = 0 /\ kernelNames_ E !! kernelName k = None /\ kid = 0).

Definition on_backend (kid : Z) : Prop := VGRE_ENABLE_JIT = false /\ kid ∈ backendKernels_ E.

(** Launching kernel [kid] calls [f], described by [ir]: nothing for a kernel
    of an accelerator back end, the cached function, or the result of the
    compilation under way, which also corrects the description. *)
Inductive launched (kid : Z) : Z -> option KernelIR -> Prop :=
| launched_backend : on_backend kid -> launched kid 0 (kernelIRCache_ E !! kid)
| launched_cached f : ~ on_backend kid -> kernelCache_ E !! kid = Some f -> launched kid f (kernelIRCache_ E !! kid)
| launched_failed j : ~ on_backend kid -> kernelCache_ E !! kid = None -> pendingKernels_ E !! kid = Some j ->
    jitFn j = 0 -> launched kid 0 (kernelIRCache_ E !! kid)
| launched_compiled j ir : ~ on_backend kid -> kernelCache_ E !! kid = None -> pendingKernels_ E !! kid = Some j ->
    jitFn j <> 0 -> default noIR (kernelIRCache_ E !! kid) = ir ->
    launched kid (jitFn j) (Some (mkIR (source ir) (argTypes ir) (jitArgSizes j) (jitSharedMemSize j) (name ir)
      (usesSyncthreads ir) (jitInstructionCount j) (jitFlopCount j))).

(** The size argument [i] is passed with, from [len] captured bytes. *)
Inductive passed_size (ir : option KernelIR) (i : nat) (len : Z) : Z -> Prop :=
| size_captured : (ir ≫= fun r => argTypes r !! i) = None -> passed_size ir i len len
| size_declared r ty sz : ir = Some r -> argTypes r !! i = Some ty -> argSizes r !! i = Some sz -> 0 < sz ->
    passed_size ir i len sz
| size_of_type r ty : ir = Some r -> argTypes r !! i = Some ty -> (forall sz, argSizes r !! i = Some sz -> sz <= 0) ->
    passed_size ir i len (if bool_decide (ty ∈ [INT32; UINT32; FLOAT32]) then 4 else 8).

(** Each argument is its captured bytes, cut or filled with zeros to its size. *)
Definition passed (ir : option KernelIR) (bufs vals : list (list Z)) : Prop :=
  length vals = length bufs /\
  forall i buf, bufs !! i = Some buf -> exists v sz, vals !! i = Some v /\ passed_size ir i (Z.of_nat (length buf)) sz /\
    length v = Z.to_nat sz /\ forall p, (p < length v)%nat -> v !! p = Some (default 0 (buf !! p)).

Definition volume (d : dim3) : Z := x d * y d * z d.

(** Bytes argument [i] stands for. *)
Definition touched (ir : KernelIR) (threads : Z) (i : nat) (arg : ArgType * list Z) : Z :=
  match arg.1 with
  | POINTER => default 0 (allocationSize (le_bytes (take 8 arg.2)))
  | STRUCT => default 0 (argSizes ir !! i) * threads
  | _ => 0
  end.

(** The launch of kernel node data [k]. *)
Record launches (k : KernelData) (l : LaunchArgs) : Prop := mkLaunches {
  la_kernel : exists kid ir, names_kernel k kid /\ launched kid (fn l) ir /\ passed ir (capturedArgs k) (argValues l) /\
    let threads := u32 (volume (gridDim k) * volume (blockDim k)) in
    match ir with
    | None => kernelLabel l = "unknown"%string /\ sharedMemBytes l = 0 /\ op_usesSyncthreads l = false /\
        flops l = threads /\ memBytes l = 0
    | Some r => kernelLabel l = name r /\ sharedMemBytes l = sharedMemSize r /\
        op_usesSyncthreads l = usesSyncthreads r /\ flops l = u64 (threads * estimatedInstructionCount r) /\
        memBytes l = u64 (foldr Z.add 0 (imap (touched r threads) (zip (argTypes r) (capturedArgs k))))
    end;
  la_grid : op_gridDim l = gridDim k;
  la_block : op_blockDim l = blockDim k;
}.

(** [ns'] is [ns] in an order where each node follows its dependencies. *)
Definition ordered (ns ns' : list GraphNode) : Prop :=
  ns' ≡ₚ ns /\ forall i n d, ns' !! i = Some n -> d ∈ deps n ->
    exists j n', (j < i)%nat /\ ns' !! j = Some n' /\ nodeId n' = d.

(** The body graph of a node. *)
Definition body_graph (n : GraphNode) (body : list GraphNode) : Prop :=
  bodyGraphId (cond n) <> 0 /\ getGraphNodes (bodyGraphId (cond n)) = Some body.

(** Graphs that cannot run: a missing or cyclic dependency, a kernel that was
    never compiled, or a conditional whose body cannot run. *)
Inductive broken (ns : list GraphNode) : Prop :=
| broken_order : ~ (closed ns /\ dag ns) -> broken ns
| broken_kernel n kid : n ∈ ns -> type n = KERNEL -> names_kernel (kernel n) kid -> (forall f ir, ~ launched kid f ir) ->
    broken ns
| broken_cond n body : n ∈ ns -> type n = CONDITIONAL -> body_graph n body -> broken body -> broken ns.

(** What the operation carries of its node. *)
Definition payload (n : GraphNode) (op : NativeGraphOperation) : Prop :=
  match type n with
  | KERNEL => launches (kernel n) (kernelArgs op)
  | MEMCPY => op_copy op = copy n
  | CONDITIONAL => condFn (op_cond op) = condFn (cond n) /\ condCtx (op_cond op) = condCtx (cond n) /\
      condType (op_cond op) = condType (cond n) /\ maxIterations (op_cond op) = maxIterations (cond n) /\ bodyExecs op = []
  | MEMSET => dst (op_copy op) = dst (copy n) /\ op_memset op = memset n
  | HOST => op_host op = host n
  | EVENT_RECORD | EVENT_WAIT => op_event op = eventHandle n
  | MEMALLOC => dst (op_copy op) = memAllocPtr (memAlloc n)
  | MEMFREE => dst (op_copy op) = dst (copy n)
  | CHILD | EMPTY => True
  end.

(** The operations a conditional or child node runs: those of its body graph
    in dependency order.  A child drops a body that cannot run. *)
Inductive runs_body (R : GraphNode -> NativeGraphOperation -> Prop) (n : GraphNode) :
    option (list NativeGraphOperation) -> Prop :=
| body_other : type n <> CONDITIONAL -> type n <> CHILD -> runs_body R n None
| body_empty : (forall body, body_graph n body -> body = []) -> runs_body R n None
| body_runs body sorted ops : (type n = CONDITIONAL \/ type n = CHILD) -> body_graph n body -> body <> [] ->
    ordered body sorted -> Forall2 R sorted ops -> runs_body R n (Some ops)
| body_dropped body : type n = CHILD -> body_graph n body -> broken body -> runs_body R n None.

Inductive implements (n : GraphNode) (op : NativeGraphOperation) : Prop :=
| implements_intro : op_type op = type n -> payload n op -> runs_body implements n (bodyExec op) -> implements n op.

End Contract.

(** ** Compiling against the contract *)

Section Correct.
Context (VGRE_ENABLE_JIT : bool) (allocationSize : Z -> option Z) (getGraphNodes : Z -> option (list GraphNode)).
#[local] Abbreviation dispatch := (dispatchGraphNodes VGRE_ENABLE_JIT allocationSize getGraphNodes).
#[local] Abbreviation compile := (compileNodes VGRE_ENABLE_JIT allocationSize).
#[local] Abbreviation launched := (launched VGRE_ENABLE_JIT).
#[local] Abbreviation implements := (implements VGRE_ENABLE_JIT allocationSize getGraphNodes).
#[local] Abbreviation broken := (broken VGRE_ENABLE_JIT getGraphNodes).

(** Two engines that name and launch kernels alike. *)
Definition alike (E E' : Engine) : Prop :=
  kernelNames_ E' = kernelNames_ E /\ forall kid f ir, launched E' kid f ir <-> launched E kid f ir.

#[local] Instance alike_equivalence : Equivalence alike.
Proof.
  split; [done|intros E E' [? H]; split; [done|intros; by rewrite H]|].
  intros E1 E2 E3 [N1 H1] [N2 H2]. split; [congruence|]. intros. by rewrite H2.
Qed.

Lemma actualKernelId_names E k : names_kernel E k (actualKernelId E k).
Proof.
  unfold actualKernelId, names_kernel. destruct (Z.eqb_spec (kernelId k) 0); [|by left].
  right. destruct (kernelNames_ E !! kernelName k); [by left|by right].
Qed.

Lemma isBackendKernel_iff E kid : isBackendKernel VGRE_ENABLE_JIT E kid = true <-> on_backend VGRE_ENABLE_JIT E kid.
Proof. unfold isBackendKernel, on_backend. rewrite andb_true_iff, negb_true_iff, bool_decide_eq_true. done. Qed.

Lemma launched_other E E' kid : backendKernels_ E' = backendKernels_ E -> kernelCache_ E' !! kid = kernelCache_ E !! kid ->
  pendingKernels_ E' !! kid = pendingKernels_ E !! kid -> kernelIRCache_ E' !! kid = kernelIRCache_ E !! kid ->
  forall f ir, launched E' kid f ir <-> launched E kid f ir.
Proof.
  intros HB HC HP HI. assert (forall E1 E2 f ir, backendKernels_ E1 = backendKernels_ E2 ->
    kernelCache_ E1 !! kid = kernelCache_ E2 !! kid -> pendingKernels_ E1 !! kid = pendingKernels_ E2 !! kid ->
    kernelIRCache_ E1 !! kid = kernelIRCache_ E2 !! kid -> launched E1 kid f ir -> launched E2 kid f ir) as Hone;
    [|intros f ir; split; by apply Hone].
  clear. intros E1 E2 f ir HB HC HP HI H.
  assert (on_backend VGRE_ENABLE_JIT E1 kid <-> on_backend VGRE_ENABLE_JIT E2 kid) as Hb by (unfold on_backend; by rewrite HB).
  destruct H as [H|f H H1|j H H1 H2 H3|j ir H H1 H2 H3 H4]; rewrite ?HI; apply Hb in H || (rewrite Hb in H).
  - by apply launched_backend.
  - apply launched_cached; [done|congruence].
  - eapply (launched_failed _ _ _ j); [done|congruence..].
  - eapply (launched_compiled _ _ _ j); [done|congruence..].
Qed.

(** Waiting for a compilation changes nothing a launch can see. *)
Lemma finishPending_alike E kid j : kernelCache_ E !! kid = None -> pendingKernels_ E !! kid = Some j ->
  ~ on_backend VGRE_ENABLE_JIT E kid -> alike E (finishPending E kid j).
Proof.
  intros HC HP HB. split; [done|]. intros kid'. destruct (decide (kid' = kid)) as [->|Hne].
  2:{ apply launched_other; cbn; [done|by rewrite lookup_insert_ne|by rewrite lookup_delete_ne|].
      destruct (jitFn j =? 0); [done|by rewrite lookup_insert_ne]. }
  assert (kernelCache_ (finishPending E kid j) !! kid = Some (jitFn j)) as HC' by apply lookup_insert_eq.
  intros f ir. destruct (Z.eq_dec (jitFn j) 0) as [Hz|Hz].
  - assert (kernelIRCache_ (finishPending E kid j) !! kid = kernelIRCache_ E !! kid) as HI by (cbn; by rewrite Hz).
    split; intros H; inversion H; subst; try done; simplify_eq.
    + rewrite HI, Hz. by eapply launched_failed.
    + rewrite <- HI, <- Hz. by apply launched_cached.
  - assert (kernelIRCache_ (finishPending E kid j) !! kid = Some (let ir := default noIR (kernelIRCache_ E !! kid) in
      mkIR (source ir) (argTypes ir) (jitArgSizes j) (jitSharedMemSize j) (name ir) (usesSyncthreads ir)
        (jitInstructionCount j) (jitFlopCount j))) as HI.
    { cbn. rewrite (proj2 (Z.eqb_neq _ _) Hz). apply lookup_insert_eq. }
    cbv zeta in HI. split; intros H; inversion H; subst; try done; simplify_eq.
    + rewrite HI. by eapply launched_compiled.
    + rewrite <- HI. by apply launched_cached.
Qed.

Lemma resolveKernel_spec E kid E' r : resolveKernel VGRE_ENABLE_JIT E kid = (E', r) -> alike E E' /\
  match r with
  | Ok f => launched E kid f (kernelIRCache_ E' !! kid)
  | Err e => e = ERR_INVALID_KERNEL /\ forall f ir, ~ launched E kid f ir
  end.
Proof.
  unfold resolveKernel. pose proof (isBackendKernel_iff E kid) as Hb.
  destruct (isBackendKernel _ E kid); [intros [= <- <-]; split; [done|]; by apply launched_backend, Hb|].
  assert (~ on_backend VGRE_ENABLE_JIT E kid) as HB by (rewrite <- Hb; done).
  destruct (kernelCache_ E !! kid) as [f|] eqn:HC; [intros [= <- <-]; split; [done|]; by apply launched_cached|].
  destruct (pendingKernels_ E !! kid) as [j|] eqn:HP; intros [= <- <-].
  - pose proof (finishPending_alike E kid j HC HP HB) as HA. split; [done|]. apply HA. apply launched_cached; [done|].
    apply lookup_insert_eq.
  - split; [done|]. split; [done|]. intros f ir H. inversion H; congruence.
Qed.

(** *** Arguments *)

Lemma passSize_spec ir i buf : passed_size ir i (Z.of_nat (length buf)) (passSize ir i buf).
Proof.
  unfold passSize. destruct ir as [r|]; [|by apply size_captured].
  destruct (argTypes r !! i) as [ty|] eqn:Ht; [|by apply size_captured].
  destruct (argSizes r !! i) as [sz|] eqn:Es; simpl.
  - destruct (Z.ltb_spec 0 sz); [by eapply size_declared|].
    assert ((match ty with INT32 | UINT32 | FLOAT32 => 4 | _ => 8 end) = (if bool_decide (ty ∈ [INT32; UINT32; FLOAT32]) then 4 else 8)) as -> by (by destruct ty).
    eapply size_of_type; [done|done|]. intros sz' [= <-]%(eq_trans (eq_sym Es)). done.
  - assert ((match ty with INT32 | UINT32 | FLOAT32 => 4 | _ => 8 end) = (if bool_decide (ty ∈ [INT32; UINT32; FLOAT32]) then 4 else 8)) as -> by (by destruct ty).
    eapply size_of_type; [done|done|]. intros sz'. congruence.
Qed.

Lemma length_passArg size buf : length (passArg size buf) = Z.to_nat size.
Proof. unfold passArg. rewrite length_app, length_take, length_replicate. lia. Qed.

Lemma passArg_lookup size buf p : (p < Z.to_nat size)%nat -> passArg size buf !! p = Some (default 0 (buf !! p)).
Proof.
  intros Hp. unfold passArg. destruct (buf !! p) as [v|] eqn:Hv.
  - rewrite lookup_app_l by (rewrite length_take; apply lookup_lt_Some in Hv; lia). by rewrite lookup_take_lt.
  - apply lookup_ge_None in Hv. rewrite lookup_app_r; rewrite length_take; [|lia]. apply lookup_replicate_2. lia.
Qed.

Lemma passArgs_spec ir bufs : passed ir bufs (passArgs ir bufs).
Proof.
  unfold passArgs. split; [by rewrite length_imap|]. intros i buf Hi.
  exists (passArg (passSize ir i buf) buf), (passSize ir i buf). rewrite list_lookup_imap, Hi. split; [done|].
  split; [apply passSize_spec|]. split; [apply length_passArg|]. intros p. rewrite length_passArg. apply passArg_lookup.
Qed.

Lemma argBytes_sum threads ir i tys bufs :
  argBytes allocationSize threads ir i tys bufs =
  u64 (foldr Z.add 0 (imap (fun k => touched allocationSize ir threads (i + k)) (zip tys bufs))).
Proof.
  revert i bufs. induction tys as [|ty tys IH]; intros i [|buf bufs]; try done. cbn [argBytes zip imap foldr].
  rewrite IH. unfold touched at 2. cbn [fst snd]. rewrite Nat.add_0_r, u64_add_r. do 2 f_equal. f_equal.
  apply imap_ext. intros k [t b] _. unfold compose. by rewrite Nat.add_succ_r.
Qed.

Lemma total_volume g b : u32 (total g * total b) = u32 (volume g * volume b).
Proof. unfold total, volume. by rewrite u32_mul. Qed.

Lemma compileKernel_spec E k E' r : compileKernel VGRE_ENABLE_JIT allocationSize E k = (E', r) -> alike E E' /\
  match r with
  | Ok l => launches VGRE_ENABLE_JIT allocationSize E k l
  | Err e => e = ERR_INVALID_KERNEL /\ exists kid, names_kernel E k kid /\ forall f ir, ~ launched E kid f ir
  end.
Proof.
  unfold compileKernel. destruct (resolveKernel _ _ _) as [E1 r1] eqn:Hr.
  apply resolveKernel_spec in Hr as [HA Hr]. pose proof (actualKernelId_names E k) as Hk.
  destruct r1 as [f|e]; intros [= <- <-]; (split; [done|]); [|destruct Hr; eauto].
  split; [|done|done]. exists (actualKernelId E k), (kernelIRCache_ E1 !! actualKernelId E k). split; [done|]. split; [done|].
  split; [apply passArgs_spec|]. rewrite <- total_volume. cbn [kernelLabel sharedMemBytes op_usesSyncthreads flops memBytes].
  destruct (kernelIRCache_ E1 !! _) as [ir|]; [by rewrite argBytes_sum|]. split_and!; try done.
  rewrite Z.mul_1_r. rewrite u64_small; [done|]. pose proof (u32_bound (total (gridDim k) * total (blockDim k))). lia.
Qed.

(** *** Orders *)

Lemma elem_of_permute ns order n : n ∈ permute ns order -> n ∈ ns.
Proof. unfold permute. intros (i & _ & Hi)%list_elem_of_omap. by eapply list_elem_of_lookup_2. Qed.

Lemma permute_all ns : permute ns (seq 0 (length ns)) = ns.
Proof. apply (omap_lookup_seq []). Qed.

Lemma permute_perm ns order : order ≡ₚ seq 0 (length ns) -> permute ns order ≡ₚ ns.
Proof. intros Hp. rewrite <- (permute_all ns) at 2. unfold permute. by rewrite Hp. Qed.

Lemma permute_lookup ns order i : order ≡ₚ seq 0 (length ns) -> permute ns order !! i = order !! i ≫= (ns !!.).
Proof.
  intros Hp. assert (forall k, k ∈ order -> (k < length ns)%nat) as Hlt.
  { intros k Hk. rewrite Hp in Hk. apply elem_of_seq in Hk. lia. }
  clear Hp. unfold permute. revert i. induction order as [|k order IH]; intros i; [done|]. cbn [omap list_omap].
  destruct (lookup_lt_is_Some_2 ns k) as [n Hn]; [apply Hlt; by left|]. rewrite Hn.
  destruct i as [|i]; [by simpl; rewrite Hn|]. apply IH. intros j Hj. apply Hlt. by right.
Qed.

(** Identifiers are distinct and none is zero. *)
Definition proper (ns : list GraphNode) : Prop := NoDup (ids ns) /\ Forall (fun n => nodeId n <> 0) ns.

Lemma topo_ordered ns : proper ns ->
  match topoSortNodes ns with
  | Some order => closed ns /\ dag ns /\ ordered ns (permute ns order)
  | None => ~ (closed ns /\ dag ns)
  end.
Proof.
  intros [Hnd Hnz]. destruct (topo_spec ns Hnd Hnz) as [Hiff Hord]. destruct (topoSortNodes ns) as [order|].
  2:{ rewrite <- Hiff. by intros [? ?]. }
  destruct (proj1 Hiff ltac:(eauto)) as [Hc Hd]. destruct (Hord order eq_refl) as [Hp Ho]. split; [done|]. split; [done|].
  split; [by apply permute_perm|]. intros i n d Hi Hdep. rewrite permute_lookup in Hi by done.
  apply bind_Some in Hi as (k & Hk & Hn). destruct (Ho i k n d Hk Hn Hdep) as (j & p & n' & Hj & Hp' & Hn' & Hid).
  exists j, n'. split; [done|]. rewrite permute_lookup, Hp' by done. done.
Qed.

(** *** Collected bodies *)

(** Nodes that refer to a body graph. *)
Definition refers (ns : list GraphNode) (b : Z) : Prop :=
  exists n, n ∈ ns /\ needsFetch n = true /\ bodyGraphId (cond n) = b /\ b <> 0.

Definition covered (ns : list GraphNode) (cache : gmap Z (list GraphNode)) : Prop :=
  forall b, refers ns b -> is_Some (getGraphNodes b) -> is_Some (cache !! b).

Lemma refers_cons n ns b : refers (n :: ns) b <->
  (needsFetch n = true /\ bodyGraphId (cond n) = b /\ b <> 0) \/ refers ns b.
Proof.
  unfold refers. split.
  - intros (n' & [->|Hn]%elem_of_cons & H); [by left|right; eauto].
  - intros [H|(n' & Hn & H)]; [exists n|exists n']; (split; [|done]); [by left|by right].
Qed.

Lemma covered_mono ns (c c' : gmap Z (list GraphNode)) : c ⊆ c' -> covered ns c -> covered ns c'.
Proof. intros Hc H b Hb Hg. destruct (H b Hb Hg) as [body Hl]. exists body. by eapply lookup_weaken. Qed.

(** What a finished collection has found. *)
Record fetched (ns : list GraphNode) (c c' : gmap Z (list GraphNode)) : Prop := mkFetched {
  f_mono : c ⊆ c';
  f_covered : covered ns c';
  f_new : forall b body, c' !! b = Some body -> c !! b = None -> getGraphNodes b = Some body /\ covered body c';
}.

Lemma fetched_cons n ns c c' : fetched ns c c' ->
  (is_Some (c' !! bodyGraphId (cond n)) \/ getGraphNodes (bodyGraphId (cond n)) = None \/ needsFetch n = false \/
   bodyGraphId (cond n) = 0) -> fetched (n :: ns) c c'.
Proof.
  intros [H1 H2 H3] Hor. split; [done| |done]. intros b' [(? & <- & ?)|?]%refers_cons Hg; [|by apply H2].
  destruct Hor as [|[Hn|[|]]]; [done| |congruence|done]. rewrite Hn in Hg. by destruct Hg.
Qed.

(** Collecting one new body, then the rest. *)
Lemma fetched_body ns b body c c1 c2 : c !! b = None -> getGraphNodes b = Some body ->
  fetched body (<[b := body]> c) c1 -> fetched ns c1 c2 -> fetched ns c c2.
Proof.
  intros Hcb Hg [M1 C1 N1] [M2 C2 N2].
  assert (c ⊆ c1) as Hcc1 by (etrans; [by apply insert_subseteq|done]).
  split; [by etrans|done|]. intros b' body' Hb' Hc. destruct (c1 !! b') as [body1|] eqn:E1; [|by apply N2].
  assert (body1 = body') as -> by (eapply lookup_weaken in E1; [|exact M2]; congruence).
  destruct (decide (b = b')) as [<-|Hne].
  - assert (c1 !! b = Some body) as E2 by (eapply lookup_weaken; [apply lookup_insert_eq|done]).
    rewrite E1 in E2. injection E2 as ->. split; [done|]. by eapply covered_mono.
  - destruct (N1 b' body' E1) as [? ?]; [by rewrite lookup_insert_ne|]. split; [done|by eapply covered_mono].
Qed.

Lemma prefetch_fetched fuel ns c c' : prefetchBodyGraphs getGraphNodes fuel ns c = Some c' -> fetched ns c c'.
Proof.
  revert ns c c'. induction fuel as [|fuel IH]; [done|]. intros ns c c'. cbn [prefetchBodyGraphs].
  revert c. induction ns as [|n ns IHns]; intros c; cbn [prefetchLoop].
  { intros [= <-]. split; [done|by intros b (n & Hn%not_elem_of_nil & _)|congruence]. }
  destruct (needsFetch n) eqn:Hnf, (Z.eqb_spec (bodyGraphId (cond n)) 0) as [Hz|Hz]; simpl;
    try (intros H%IHns; apply fetched_cons; by auto).
  case_bool_decide as Hcb.
  2:{ intros H%IHns. apply fetched_cons; [done|]. left. destruct (c !! _) as [body|] eqn:Ec; [|done].
      exists body. eapply lookup_weaken; [done|apply H]. }
  destruct (getGraphNodes _) as [body|] eqn:Hg; [|intros H%IHns; apply fetched_cons; by auto].
  destruct (prefetchBodyGraphs _ fuel body _) as [c1|] eqn:E1; simpl; [|done].
  intros H%IHns. apply IH in E1. apply fetched_cons; [by eapply fetched_body|]. left. exists body.
  eapply lookup_weaken; [|apply H]. eapply lookup_weaken; [apply lookup_insert_eq|apply E1].
Qed.

(** Bodies below collected nodes are looked up right. *)
Definition complete (cache : gmap Z (list GraphNode)) (ns : list GraphNode) : Prop :=
  covered ns cache /\ forall b body, cache !! b = Some body -> getGraphNodes b = Some body /\ covered body cache.

Lemma complete_lookup cache ns n b : complete cache ns -> n ∈ ns -> needsFetch n = true -> bodyGraphId (cond n) = b ->
  b <> 0 -> cache !! b = getGraphNodes b.
Proof.
  intros [Hc Hb] Hn Hf Hid Hz. destruct (cache !! b) as [body|] eqn:E; [by destruct (Hb b body E)|].
  destruct (getGraphNodes b) as [body|] eqn:G; [|done]. destruct (Hc b) as [? ?]; [by exists n|by eauto|congruence].
Qed.

Lemma complete_body cache ns b body ns' : complete cache ns -> cache !! b = Some body -> (forall n, n ∈ ns' -> n ∈ body) ->
  complete cache ns'.
Proof.
  intros [_ Hb] E Hsub. split; [|done]. destruct (Hb b body E) as [_ Hcov].
  intros b' (n & Hn & H) Hg. apply Hcov; [|done]. exists n. split; [by apply Hsub|done].
Qed.

(** *** Compilation *)

(** A node that stops the compilation. *)
Definition bad (E : Engine) (n : GraphNode) : Prop :=
  (type n = KERNEL /\ exists kid, names_kernel E (kernel n) kid /\ forall f ir, ~ launched E kid f ir) \/
  (type n = CONDITIONAL /\ exists body, body_graph getGraphNodes n body /\ broken E body).

Lemma broken_iff E ns : broken E ns <-> ~ (closed ns /\ dag ns) \/ Exists (bad E) ns.
Proof.
  rewrite Exists_exists. split.
  - intros [H|n kid Hn Ht Hk Hl|n body Hn Ht Hb Hbr]; [by left|right..]; exists n; (split; [done|]); unfold bad; eauto 6.
  - intros [H|(n & Hn & [(Ht & kid & Hk & Hl)|(Ht & body & Hb & Hbr)])].
    + by apply broken_order.
    + by eapply broken_kernel.
    + by eapply broken_cond.
Qed.

Definition refusal (e : VGREResult) : Prop := e = ERR_INVALID_VALUE \/ e = ERR_INVALID_KERNEL.

(** The contract for compiling [ns] from an engine [E] like [E0]. *)
Definition compiles (E0 E : Engine) (ns : list GraphNode) (res : Engine * result VGREResult (list NativeGraphOperation)) : Prop :=
  alike E0 res.1 /\
  match res.2 with
  | Ok ops => Forall (fun n => ~ bad E0 n) ns /\ Forall2 (implements E0) ns ops
  | Err e => refusal e /\ Exists (bad E0) ns
  end.

Lemma names_kernel_alike E E' k kid : alike E E' -> names_kernel E' k kid <-> names_kernel E k kid.
Proof. intros [H _]. unfold names_kernel. by rewrite H. Qed.

Lemma names_kernel_unique E k kid kid' : names_kernel E k kid -> names_kernel E k kid' -> kid = kid'.
Proof. unfold names_kernel. intuition congruence. Qed.

Lemma launches_alike E E' k l : alike E E' -> launches VGRE_ENABLE_JIT allocationSize E' k l ->
  launches VGRE_ENABLE_JIT allocationSize E k l.
Proof.
  intros HA [(kid & ir & Hk & Hl & H) Hg Hb]. split; [|done|done]. exists kid, ir.
  split; [by apply (names_kernel_alike E E')|]. split; [by apply HA|done].
Qed.

Section Step.
Context (cache : gmap Z (list GraphNode)) (rec : Engine -> list GraphNode -> option (Engine * result VGREResult (list NativeGraphOperation))) (E0 : Engine).
Context (Hproper : forall b body, getGraphNodes b = Some body -> proper body).
Context (Hrec : forall E ns res, alike E0 E -> complete cache ns -> rec E ns = Some res -> compiles E0 E ns res).

Lemma compileBodyOf_spec E ns n E' r : alike E0 E -> complete cache ns -> n ∈ ns -> type n = CONDITIONAL \/ type n = CHILD ->
  compileBodyOf cache rec E n = Some (E', r) -> alike E0 E' /\
  match r with
  | Ok body => ~ bad E0 n /\ runs_body VGRE_ENABLE_JIT getGraphNodes E0 (implements E0) n body
  | Err e => refusal e /\ bad E0 n
  end.
Proof.
  intros HA Hc Hn Ht.
  assert (needsFetch n = true) as Hf.
  { unfold needsFetch. rewrite orb_true_iff, !bool_decide_eq_true. done. }
  assert (type n = CONDITIONAL <-> type n <> CHILD) as Hor by (destruct Ht as [-> | ->]; done).
  pose proof (complete_lookup cache ns n _ Hc Hn Hf eq_refl) as Hl.
  assert ((forall body, body_graph getGraphNodes n body -> body = []) ->
    ~ bad E0 n /\ runs_body VGRE_ENABLE_JIT getGraphNodes E0 (implements E0) n None) as Hnone.
  { intros He. split; [|by apply body_empty]. intros [[Hk _]|(_ & body & Hb & Hbr)]; [destruct Ht; congruence|].
    rewrite (He body Hb) in Hbr. apply broken_iff in Hbr as [[]|Hx]; [|by apply Exists_nil in Hx].
    split; [by intros m d Hm%not_elem_of_nil|]. exists (fun _ => 0%nat). by intros m d Hm%not_elem_of_nil. }
  assert (forall E1 e body, alike E0 E1 -> refusal e -> body_graph getGraphNodes n body -> broken E0 body ->
    alike E0 E1 /\ match (if bool_decide (type n = CHILD) then Ok None else Err e) with
      | Ok body => ~ bad E0 n /\ runs_body VGRE_ENABLE_JIT getGraphNodes E0 (implements E0) n body
      | Err e => refusal e /\ bad E0 n end) as Herr.
  { intros E1 e body HA1 He Hb Hbr. split; [done|]. case_bool_decide as Hch.
    - split; [|by eapply body_dropped]. intros [[Hk _]|[Hk _]]; congruence.
    - split; [done|]. right. split; [by apply Hor|by exists body]. }
  unfold compileBodyOf. destruct (Z.eq_dec (bodyGraphId (cond n)) 0) as [Hz|Hz].
  { assert (forall body, body_graph getGraphNodes n body -> body = []) as He by (by intros body [? _]).
    rewrite (proj2 (Z.eqb_eq _ 0) Hz). destruct (cache !! _) as [[|n0 ns0]|]; intros [= <- <-]; (split; [done|auto]). }
  rewrite (proj2 (Z.eqb_neq _ 0) Hz). specialize (Hl Hz). destruct (cache !! _) as [body|] eqn:Ec.
  2:{ intros [= <- <-]. split; [done|]. apply Hnone. intros body [_ Hb]. congruence. }
  assert (body_graph getGraphNodes n body) as Hbg by done.
  destruct body as [|n0 ns0]; [intros [= <- <-]; split; [done|]; apply Hnone; intros body [_ Hb]; congruence|].
  pose proof (topo_ordered _ (Hproper _ _ (eq_sym Hl))) as Htopo. destruct (topoSortNodes (n0 :: ns0)) as [order|].
  2:{ intros [= <- <-]. eapply Herr; [done|by left|done|]. apply broken_iff. by left. }
  destruct Htopo as (Hcl & Hdag & Hord).
  destruct (rec E _) as [[E1 r1]|] eqn:Er; simpl; [|done].
  apply Hrec in Er as [HA1 Hr]; [|done|by eapply complete_body; [..|by apply elem_of_permute]]. simpl in HA1, Hr.
  destruct Hord as [Hp Hord]. destruct r1 as [ops|e]; intros [= <- <-].
  - destruct Hr as [Hgood Hf2]. split; [done|]. split; [|by eapply body_runs].
    intros [[Hk _]|(_ & body & [_ Hb] & Hbr)]; [destruct Ht; congruence|]. rewrite <- Hl in Hb. injection Hb as <-.
    apply broken_iff in Hbr as [[]|Hx]; [done|]. rewrite <- Hp in Hx.
    apply Exists_exists in Hx as (m & Hm & Hbad). rewrite Forall_forall in Hgood. by apply (Hgood m).
  - destruct Hr as [He Hx]. eapply Herr; [done|done|done|]. apply broken_iff. right. by rewrite <- Hp.
Qed.

Lemma compileNode_spec E ns n E' r : alike E0 E -> complete cache ns -> n ∈ ns ->
  compileNode VGRE_ENABLE_JIT allocationSize cache rec E n = Some (E', r) -> alike E0 E' /\
  match r with Ok op => ~ bad E0 n /\ implements E0 n op | Err e => refusal e /\ bad E0 n end.
Proof.
  intros HA Hc Hn. unfold compileNode. destruct (type n) eqn:Ht.
  all: try (intros [= <- <-]; split; [done|]; split; [intros [[Hk _]|[Hk _]]; congruence|];
    split; [unfold plainOp; by rewrite Ht|unfold payload, plainOp; rewrite Ht; try done; by split_and!|
      unfold plainOp; rewrite Ht; apply body_other; congruence]).
  - destruct (compileKernel _ _ E (kernel n)) as [E1 r1] eqn:Hk. intros [= <- <-].
    apply compileKernel_spec in Hk as [HA1 Hk]. assert (alike E0 E1) by (by etrans). split; [done|].
    destruct r1 as [l|e]; simpl.
    + split.
      * intros [(_ & kid & Hkid & Hno)|[Hk' _]]; [|congruence]. destruct Hk as [(kid' & ir & Hk1 & Hk2 & _) _ _].
        apply (names_kernel_alike E0 E) in Hk1; [|done]. rewrite (names_kernel_unique _ _ _ _ Hkid Hk1) in Hno.
        apply (Hno (fn l) ir). by apply HA.
      * split; [done|unfold payload; rewrite Ht; exact (launches_alike _ _ _ _ HA Hk)|apply body_other; congruence].
    + destruct Hk as (-> & kid & Hkid & Hno). split; [by right|]. left. split; [done|]. exists kid.
      split; [by apply (names_kernel_alike E0 E)|]. intros f ir Hl. by apply (Hno f ir), HA.
  - destruct (compileBodyOf _ _ _ _) as [[E1 r1]|] eqn:Hb; simpl; [|done]. intros [= <- <-].
    eapply compileBodyOf_spec in Hb as [HA1 Hb]; [|done|done|done|by left]. split; [done|].
    destruct r1 as [body|e]; simpl; [|done]. destruct Hb as [Hg Hb]. split; [done|].
    split; [unfold plainOp; by rewrite Ht|unfold payload, plainOp; rewrite Ht; by split_and!|unfold plainOp; by rewrite Ht].
  - destruct (compileBodyOf _ _ _ _) as [[E1 r1]|] eqn:Hb; simpl; [|done]. intros [= <- <-].
    eapply compileBodyOf_spec in Hb as [HA1 Hb]; [|done|done|done|by right]. split; [done|].
    destruct r1 as [body|e]; simpl; [|done]. destruct Hb as [Hg Hb]. split; [done|].
    split; [unfold plainOp; by rewrite Ht|unfold payload, plainOp; by rewrite Ht|unfold plainOp; by rewrite Ht].
Qed.

Lemma compileLoop_spec E ns l res : alike E0 E -> complete cache ns -> (forall n, n ∈ l -> n ∈ ns) ->
  compileLoop VGRE_ENABLE_JIT allocationSize cache rec E l = Some res -> compiles E0 E l res.
Proof.
  intros HA Hc. revert E res HA. induction l as [|n l IH]; intros E res HA Hsub; cbn [compileLoop].
  { intros [= <-]. split; [done|]. split; constructor. }
  destruct (compileNode _ _ _ _ _ _) as [[E1 r1]|] eqn:En; simpl; [|done].
  eapply compileNode_spec in En as [HA1 Hr]; [|done|exact Hc|apply Hsub; by left].
  destruct r1 as [op|e]; [|intros [= <-]; destruct Hr; split; [done|]; split; [done|by left]].
  destruct (compileLoop _ _ _ _ _ _) as [[E2 r2]|] eqn:El; simpl; [|done]. intros [= <-].
  apply IH in El as [HA2 Hr2]; [|done|intros; apply Hsub; by right]. simpl in *. split; [done|]. simpl.
  destruct r2 as [ops|e]; simpl; [|destruct Hr2; split; [done|by right]].
  destruct Hr, Hr2. split; by constructor.
Qed.
End Step.

Lemma compileNodes_spec fuel cache E0 E ns res : (forall b body, getGraphNodes b = Some body -> proper body) ->
  alike E0 E -> complete cache ns -> compile fuel cache E ns = Some res -> compiles E0 E ns res.
Proof.
  intros Hproper. revert E ns res. induction fuel as [|fuel IH]; [done|]. intros E ns res HA Hc. cbn [compileNodes].
  by apply (compileLoop_spec cache _ E0 Hproper IH E ns).
Qed.

(** ** Termination *)

Section Terminates.
Context (known : gset Z) (Hknown : forall b, is_Some (getGraphNodes b) -> b ∈ known).

Lemma missing_insert (c : gmap Z (list GraphNode)) b body : c !! b = None -> b ∈ known ->
  (size (known ∖ dom (<[b := body]> c)) < size (known ∖ dom c))%nat.
Proof.
  intros Hb Hk. apply subset_size. rewrite dom_insert_L. split; [set_solver|].
  intros H. apply not_elem_of_dom in Hb. specialize (H b). set_solver.
Qed.

Lemma missing_mono (c c' : gmap Z (list GraphNode)) : c ⊆ c' -> (size (known ∖ dom c') <= size (known ∖ dom c))%nat.
Proof. intros H. apply subseteq_size. apply subseteq_dom in H. set_solver. Qed.

Lemma prefetchBodyGraphs_total fuel ns c : (size (known ∖ dom c) < fuel)%nat ->
  is_Some (prefetchBodyGraphs getGraphNodes fuel ns c).
Proof.
  revert ns c. induction fuel as [|fuel IH]; intros ns c Hf; [lia|]. cbn [prefetchBodyGraphs].
  revert c Hf. induction ns as [|n ns IHns]; intros c Hf; cbn [prefetchLoop]; [by eexists|].
  destruct (needsFetch n && _ && _) eqn:E; [|by apply IHns]. apply andb_true_iff in E as [_ Hcb%bool_decide_eq_true].
  destruct (getGraphNodes _) as [body|] eqn:Hg; [|by apply IHns].
  pose proof (missing_insert c (bodyGraphId (cond n)) body Hcb (Hknown _ ltac:(eauto))) as Hlt.
  destruct (IH body (<[bodyGraphId (cond n) := body]> c)) as [c1 Hc1]; [lia|]. rewrite Hc1. simpl. apply IHns.
  apply prefetch_fetched in Hc1 as [Hm _ _]. apply missing_mono in Hm. lia.
Qed.

(** Compiling a list of nodes ends if compiling the bodies it refers to does. *)
Lemma compileLoop_total (cache : gmap Z (list GraphNode)) rec ns :
  (forall E b body order, refers ns b -> cache !! b = Some body -> rec E (permute body order) <> None) ->
  forall E, compileLoop VGRE_ENABLE_JIT allocationSize cache rec E ns <> None.
Proof.
  induction ns as [|n ns IHns]; intros Hrec E; cbn [compileLoop]; [done|].
  assert (compileNode VGRE_ENABLE_JIT allocationSize cache rec E n <> None) as Hn.
  { unfold compileNode. destruct (type n) eqn:Ht; try done; [by destruct (compileKernel _ _ _ _)| |].
    all: enough (compileBodyOf cache rec E n <> None) by (by destruct (compileBodyOf _ _ _ _) as [[]|]).
    all: unfold compileBodyOf; rewrite Ht; destruct (cache !! _) as [[|n0 ns0]|] eqn:Ec; try done.
    all: destruct (Z.eqb_spec (bodyGraphId (cond n)) 0); [done|].
    all: destruct (topoSortNodes (n0 :: ns0)) as [order|]; [|done].
    all: destruct (rec E _) as [[E1 [ops|e]]|] eqn:Er; simpl; [done..|].
    all: exfalso; eapply Hrec; [|exact Ec|exact Er]; apply refers_cons; left; unfold needsFetch; by rewrite Ht. }
  destruct (compileNode _ _ _ _ _ _) as [[E1 [op|e]]|]; simpl; [|done|done].
  assert (compileLoop VGRE_ENABLE_JIT allocationSize cache rec E1 ns <> None) as Hl.
  { apply IHns. intros E2 b body order Hb. apply Hrec, refers_cons. by right. }
  by destruct (compileLoop _ _ _ _ _ _) as [[? []]|].
Qed.

(** Compilation ends when body graphs can be ranked. *)
Lemma compileNodes_total fuel (cache : gmap Z (list GraphNode)) (rank : Z -> nat) :
  (forall b body b', cache !! b = Some body -> refers body b' -> (rank b' < rank b)%nat) ->
  forall E ns, (forall b, refers ns b -> (rank b < fuel)%nat) -> compile (S fuel) cache E ns <> None.
Proof.
  intros Hrank. induction fuel as [|fuel IH]; intros E ns Hns; apply compileLoop_total; intros E' b body order Hb Hc;
    apply Hns in Hb; [lia|]. apply IH. intros b' (m & Hm%elem_of_permute & Hb').
  enough (rank b' < rank b)%nat by lia. eapply Hrank; [done|by exists m].
Qed.

(** Launching terminates when body graphs do not contain themselves.  If
    the body graphs reachable through conditional and child nodes can be
    ranked, collecting and compiling them needs no more nesting than there are
    graphs and ranks, whatever the graphs contain. *)
Theorem dispatch_terminates (rank : Z -> nat) (R : nat) fuel E ns :
  (forall b body b', getGraphNodes b = Some body -> refers body b' -> (rank b' < rank b)%nat) ->
  (forall b, (rank b < R)%nat) -> (size known < fuel)%nat -> (R < fuel)%nat ->
  is_Some (dispatch fuel E ns).
Proof.
  intros Hrank HR Hk Hf. unfold dispatchGraphNodes. case_bool_decide; [by eexists|].
  destruct (topoSortNodes ns) as [order|]; [|by eexists].
  destruct (prefetchBodyGraphs_total fuel (permute ns order) ∅) as [cache Hcache].
  { rewrite dom_empty_L, difference_empty_L. lia. }
  rewrite Hcache. apply prefetch_fetched in Hcache as [_ _ Hnew]. simpl. destruct (negb _); [by eexists|]. destruct fuel as [|fuel]; [lia|].
  destruct (compile (S fuel) cache E (permute ns order)) as [[E1 r]|] eqn:Ec; [by eexists|].
  exfalso. eapply (compileNodes_total fuel cache rank); [|intros b _; specialize (HR b); lia|exact Ec].
  intros b body b' Hb Hr. destruct (Hnew b body Hb (lookup_empty b)) as [Hg _]. by eapply Hrank.
Qed.

End Terminates.

(** ** The dispatch *)


End Correct.

(** ** What the operations do *)

Section Semantics.
Context {W : Type} (launchKernel : LaunchArgs -> W -> W) (callCond : Z -> Z -> W -> Z * W) (callHost : Z -> Z -> W -> W)
  (memcpy : MemcpyData -> W -> W) (memsetRow : Z -> Z -> Z -> W -> W) (recordEvent waitEvent freeMem : Z -> W -> W).
#[local] Abbreviation exec := (executeOp launchKernel callCond callHost memcpy memsetRow recordEvent waitEvent freeMem).
#[local] Abbreviation execAll := (executeOpsInline launchKernel callCond callHost memcpy memsetRow recordEvent waitEvent freeMem).

(** Running a body inside a conditional is running its operations in order. *)
Lemma runAll_eq ops w :
  (fix runAll ops w := match ops with [] => w | op :: ops => runAll ops (exec op w) end) ops w = execAll ops w.
Proof. unfold executeOpsInline. revert w. induction ops as [|op ops IH]; intros w; simpl; [done|apply IH]. Qed.

(** The state after [k] full iterations: condition, then body. *)
Definition iterate (c : W -> Z * W) (body : W -> W) (k : nat) (w : W) : W := Nat.iter k (fun w => body (c w).2) w.

Lemma whileLoop_spec c body k w : exists n, (n <= k)%nat /\
  (forall i, (i < n)%nat -> (c (iterate c body i w)).1 <> 0) /\
  (n = k /\ whileLoop c body k w = iterate c body n w \/
   (n < k)%nat /\ (c (iterate c body n w)).1 = 0 /\ whileLoop c body k w = (c (iterate c body n w)).2).
Proof.
  revert w. induction k as [|k IH]; intros w; cbn [whileLoop].
  { exists O. split_and!; [lia|lia|by left]. }
  destruct (c w) as [v w'] eqn:Ec. destruct (Z.eqb_spec v 0) as [->|Hv].
  { exists O. split_and!; [lia|lia|]. right. unfold iterate. simpl. rewrite Ec. split_and!; [lia|done|done]. }
  destruct (IH (body w')) as (n & Hn & Hall & Hor).
  assert (forall i, iterate c body (S i) w = iterate c body i (body w')) as Hit.
  { intros i. unfold iterate. rewrite Nat.iter_succ_r. by rewrite Ec. }
  exists (S n). split_and!; [lia| |].
  - intros [|i] Hi; [unfold iterate; simpl; by rewrite Ec|]. rewrite Hit. apply Hall. lia.
  - rewrite Hit. destruct Hor as [[-> ->]|(? & ? & ->)]; [by left|right; split_and!; [lia|done|done]].
Qed.

(** A WHILE node runs its body once for each time its condition holds, at
    most [maxIterations] times: there is a count [n] within the limit such that
    the condition held before each of the first [n] runs of the body and the
    node stopped either because the limit was reached, without consulting the
    condition again, or because the condition then failed. *)
Theorem while_runs_body op ops w :
  op_type op = CONDITIONAL -> condType (op_cond op) = WHILE -> condFn (op_cond op) <> 0 -> bodyExec op = Some ops ->
  let c := callCond (condFn (op_cond op)) (condCtx (op_cond op)) in
  let limit := Z.to_nat (maxIterations (op_cond op)) in
  exists n, (n <= limit)%nat /\
    (forall i, (i < n)%nat -> (c (iterate c (execAll ops) i w)).1 <> 0) /\
    (n = limit /\ exec op w = iterate c (execAll ops) n w \/
     (n < limit)%nat /\ (c (iterate c (execAll ops) n w)).1 = 0 /\ exec op w = (c (iterate c (execAll ops) n w)).2).
Proof.
  destruct op as [ty k cp cd ms h ev body bodies]. cbn [op_type op_cond bodyExec]. intros -> Hc Hf ->. cbv zeta.
  set (c := callCond (condFn cd) (condCtx cd)). set (limit := Z.to_nat (maxIterations cd)).
  destruct (whileLoop_spec c (execAll ops) limit w) as (n & Hn & Hall & Hor). exists n. split_and!; [done|done|].
  assert (exec (mkOp CONDITIONAL k cp cd ms h ev (Some ops) bodies) w = whileLoop c (execAll ops) limit w) as ->; [|done].
  cbn [executeOp]. unfold execCond. destruct (Z.eqb_spec (condFn cd) 0); [done|]. rewrite Hc. fold c. cbv zeta.
  fold limit. clear. generalize limit. intros k. revert w. induction k as [|k IH]; intros w; simpl; [done|].
  destruct (c w) as [v w']. destruct (v =? 0); [done|]. by rewrite runAll_eq, IH.
Qed.

(** A SWITCH node as compiled, without a list of branches, runs its one body
    whenever the condition is nonzero: it is an IF. *)
Lemma switch_is_if n body w :
  type n = CONDITIONAL -> condType (cond n) = SWITCH ->
  let n_if := with_cond n (mkCond (condFn (cond n)) (condCtx (cond n)) (bodyGraphId (cond n)) IF (maxIterations (cond n))) in
  exec (plainOp n body) w = exec (plainOp n_if body) w.
Proof.
  intros Ht Hc n_if. unfold plainOp, n_if. simpl. rewrite Ht. simpl. unfold execCond. simpl. rewrite Hc. done.
Qed.
End Semantics.

(** ** The pitched fill, on byte memory *)

Definition setBytes (a v n : Z) (m : Z -> Z) : Z -> Z := fun p => if (a <=? p) && (p <? a + n) then u8 v else m p.

(** Byte [p] belongs to row [h] of slice [d]. *)
Definition in_row (base : Z) (m : MemsetData) (d h p : Z) : Prop :=
  let a := base + (d * memsetHeight m + h) * memsetPitch m in a <= p < a + memsetWidth m.

Lemma foldl_bytes (l : list Z) (f : Z -> (Z -> Z) -> Z -> Z) (P : Z -> Prop) (v p : Z) (m : Z -> Z) :
  (forall x m, x ∈ l -> (P x -> f x m p = v) /\ (~ P x -> f x m p = m p)) -> (forall x, Decision (P x)) ->
  ((exists x, x ∈ l /\ P x) -> foldl (fun m x => f x m) m l p = v) /\
  (~ (exists x, x ∈ l /\ P x) -> foldl (fun m x => f x m) m l p = m p).
Proof.
  intros Hf Hdec. induction l as [|x l IH] using rev_ind; simpl; [split; [by intros (? & ?%not_elem_of_nil & _)|done]|].
  rewrite foldl_app. simpl. destruct IH as [IH1 IH2]; [intros y m' Hy; apply Hf, elem_of_app; by left|].
  destruct (Hf x (foldl (fun m x => f x m) m l)) as [H1 H2]; [apply elem_of_app; right; by left|].
  destruct (Hdec x) as [Hx|Hx]; (split; [intros (y & Hy & HP)|intros Hn]).
  - by apply H1.
  - destruct Hn. exists x. split; [|done]. apply elem_of_app. right. by left.
  - rewrite H2 by done. apply IH1. exists y. split; [|done].
    apply elem_of_app in Hy as [?|Hy%list_elem_of_singleton]; [done|congruence].
  - rewrite H2 by done. apply IH2. intros (y & Hy & HP). apply Hn. exists y. split; [|done]. apply elem_of_app. by left.
Qed.

(** A pitched fill writes exactly its rectangle.  If the region fits the
    address space, after a MEMSET node every byte of the first [width] of
    every row of every slice holds the value and every other byte of memory is
    unchanged. *)
Theorem fill_exact base ms m p :
  0 < base -> 0 < memsetWidth ms -> 0 < memsetHeight ms -> 0 < memsetDepth ms -> 0 <= memsetPitch ms ->
  base + memsetDepth ms * memsetHeight ms * memsetPitch ms < 2 ^ 64 ->
  ((exists d h, 0 <= d < memsetDepth ms /\ 0 <= h < memsetHeight ms /\ in_row base ms d h p) ->
     fill setBytes base ms m p = u8 (memsetValue ms)) /\
  (~ (exists d h, 0 <= d < memsetDepth ms /\ 0 <= h < memsetHeight ms /\ in_row base ms d h p) ->
     fill setBytes base ms m p = m p).
Proof.
  intros Hb Hw Hh Hd Hp Hfit. unfold fill.
  destruct (Z.eqb_spec base 0), (Z.eqb_spec (memsetWidth ms) 0), (Z.eqb_spec (memsetHeight ms) 0); try lia. simpl.
  destruct (Z.eqb_spec (memsetDepth ms) 0); [lia|].
  assert (forall d h m', 0 <= d < memsetDepth ms -> 0 <= h < memsetHeight ms ->
    (in_row base ms d h p -> fillRow setBytes base ms d h m' p = u8 (memsetValue ms)) /\
    (~ in_row base ms d h p -> fillRow setBytes base ms d h m' p = m' p)) as Hrow.
  { intros d h m' Hd' Hh'. unfold fillRow, in_row.
    assert ((d * memsetHeight ms + h) * memsetPitch ms <= memsetDepth ms * memsetHeight ms * memsetPitch ms) as Hle
      by (apply Z.mul_le_mono_nonneg_r; nia).
    assert (0 <= d * memsetPitch ms * memsetHeight ms <= (d * memsetHeight ms + h) * memsetPitch ms) by nia.
    rewrite (u64_small (d * _ * _)) by lia.
    replace (d * memsetPitch ms * memsetHeight ms + h * memsetPitch ms) with ((d * memsetHeight ms + h) * memsetPitch ms) by ring.
    rewrite (u64_small ((d * memsetHeight ms + h) * memsetPitch ms)), u64_small by lia. unfold setBytes.
    destruct (Z.leb_spec (base + (d * memsetHeight ms + h) * memsetPitch ms) p),
      (Z.ltb_spec p (base + (d * memsetHeight ms + h) * memsetPitch ms + memsetWidth ms)); simpl; split; intros; try done; lia. }
  destruct (foldl_bytes (seqZ 0 (memsetDepth ms))
    (fun d m' => foldl (fun m' h => fillRow setBytes base ms d h m') m' (seqZ 0 (memsetHeight ms)))
    (fun d => Exists (fun h => in_row base ms d h p) (seqZ 0 (memsetHeight ms))) (u8 (memsetValue ms)) p m) as [H1 H2].
  - intros d m' Hd'%elem_of_seqZ. rewrite Exists_exists.
    apply (foldl_bytes _ (fun h => fillRow setBytes base ms d h) (fun h => in_row base ms d h p)).
    + intros h m'' Hh'%elem_of_seqZ. apply Hrow; lia.
    + intros h. unfold in_row. apply _.
  - intros d. apply Exists_dec. intros h. unfold in_row. apply _.
  - split; intros Hx.
    + destruct Hx as (d & h & ? & ? & ?). apply H1. exists d. split; [apply elem_of_seqZ; lia|].
      apply Exists_exists. exists h. split; [apply elem_of_seqZ; lia|done].
    + apply H2. intros (d & Hd'%elem_of_seqZ & (h & Hh'%elem_of_seqZ & ?)%Exists_exists). apply Hx. exists d, h. split_and!; lia || done.
Qed.

(** ** Concrete dispatches *)

Definition engine0 : Engine := mkEngine true ∅ ∅ ∅ ∅ ∅ ∅.

(** A conditional node whose body graph holds that very node. *)
Definition selfNode : GraphNode := with_cond (newNode CONDITIONAL 1 []) (mkCond 9 0 1 IF 65536).

(** A graph whose conditional body is the graph itself, which
    [addConditionalNodeWithDepsOut] accepts, is never done compiling. *)
Lemma self_body_never_compiles jit asz fuel :
  dispatchGraphNodes jit asz (fun b => if b =? 1 then Some [selfNode] else None) fuel engine0 [selfNode] = None.
Proof.
  unfold dispatchGraphNodes. cbn [bool_decide]. rewrite bool_decide_eq_false_2 by done.
  assert (topoSortNodes [selfNode] = Some [0%nat]) as Ht by (vm_compute; reflexivity). rewrite Ht.
  change (permute [selfNode] [0%nat]) with [selfNode].
  destruct (prefetchBodyGraphs _ fuel _ _) as [cache|] eqn:Hc; [|done]. simpl.
  assert (cache !! 1 = Some [selfNode]) as H1.
  { destruct fuel as [|[|fuel]]; [done|done|]. cbn [prefetchBodyGraphs prefetchLoop] in Hc.
    rewrite (bool_decide_eq_true_2 (_ !! _ = None)) in Hc by done. simpl in Hc.
    rewrite (bool_decide_eq_false_2 (_ !! _ = None)) in Hc by (by rewrite lookup_insert_eq).
    simpl in Hc. injection Hc as <-. by rewrite lookup_insert_eq. }
  enough (forall E, compileNodes jit asz fuel cache E [selfNode] = None) as -> by done. clear Hc.
  induction fuel as [|fuel IH]; intros E; [done|]. cbn [compileNodes compileLoop]. unfold compileNode, compileBodyOf.
  change (type selfNode) with CONDITIONAL. change (bodyGraphId (cond selfNode)) with 1. rewrite H1. cbv iota.
  change (1 =? 0) with false. cbv iota. rewrite Ht. change (permute [selfNode] [0%nat]) with [selfNode]. by rewrite IH.
Qed.

(** The thread count of a launch is computed in 32 bits: a grid of 2^22 blocks
    of 1024 threads counts as no threads in the statistics. *)
Lemma thread_count_wraps : u32 (total (mkDim3 (2 ^ 22) 1 1) * total (mkDim3 1024 1 1)) = 0.
Proof. vm_compute. reflexivity. Qed.

(** A kernel being compiled, found by name, and a conditional whose body is
    graph 5. *)
Definition engine1 : Engine := mkEngine true {["k"%string := 7]} ∅ ∅ {[7 := mkJIT 4096 [4] 64 12 3]}
  {[7 := mkIR "" [INT32; POINTER] [4] 0 "k" true 0 0]} ∅.

Definition graph1 : list GraphNode :=
  [with_host (newNode HOST 3 [2]) (mkHost 9 0);
   with_kernel (newNode KERNEL 1 []) (mkKernel 0 "k" (mkDim3 2 1 1) (mkDim3 32 1 1) [[1; 2]; [16; 0; 0; 0; 0; 0; 0; 0]] [] []);
   with_cond (newNode CONDITIONAL 2 [1]) (mkCond 11 5 5 WHILE 10)].

Definition bodies1 (b : Z) : option (list GraphNode) := if b =? 5 then Some [newNode EMPTY 1 []] else None.


Lemma dispatch_terminates_witness :
  let n b := with_cond (newNode CONDITIONAL 1 []) (mkCond 9 0 b IF 65536) in
  let bodies b := if b =? 5 then Some [newNode EMPTY 1 []] else None in
  is_Some (dispatchGraphNodes true (fun _ => None) bodies 2 engine0 [n 5]).
Proof.
  cbv zeta.
  assert (forall b, is_Some (if b =? 5 then Some [newNode EMPTY 1 []] else None) -> b ∈ ({[5]} : gset Z)) as Hk.
  { intros b. destruct (Z.eqb_spec b 5) as [->|]; [by intros _; apply elem_of_singleton|by intros [? ?]]. }
  apply (dispatch_terminates true (fun _ => None) _ {[5]} Hk (fun _ => O) 1).
  - intros b body b' Hb (n & Hn & Hf & _). destruct (b =? 5); [|done]. injection Hb as <-.
    apply list_elem_of_singleton in Hn as ->. done.
  - lia.
  - vm_compute. lia.
  - lia.
Defined.

Lemma while_runs_body_witness :
  let op body := mkOp CONDITIONAL noLaunch noCopy (mkCond 9 0 0 WHILE 100) noMemset (mkHost 0 0) 0 (Some body) [] in
  let host := mkOp HOST noLaunch noCopy noCond noMemset (mkHost 7 0) 0 None [] in
  let run := executeOp (fun _ w => w) (fun _ _ w => (Z.b2z (w <? 3), w)) (fun _ _ w => w + 1) (fun _ w => w)
    (fun _ _ _ w => w) (fun _ w => w) (fun _ w => w) (fun _ w => w) (op [host]) in
  run 0 = 3 /\ exists n, (n <= 100)%nat.
Proof.
  cbv zeta. split; [vm_compute; reflexivity|].
  edestruct (while_runs_body (fun _ w => w) (fun _ _ w => (Z.b2z (w <? 3), w)) (fun _ _ w => w + 1) (fun _ w => w)
    (fun _ _ _ w => w) (fun _ w => w) (fun _ w => w) (fun _ w => w)
    (mkOp CONDITIONAL noLaunch noCopy (mkCond 9 0 0 WHILE 100) noMemset (mkHost 0 0) 0
      (Some [mkOp HOST noLaunch noCopy noCond noMemset (mkHost 7 0) 0 None []]) [])
    [mkOp HOST noLaunch noCopy noCond noMemset (mkHost 7 0) 0 None []] 0) as (n & Hn & _);
    [reflexivity|reflexivity|discriminate|reflexivity|].
  exists n. exact Hn.
Defined.

Lemma fill_exact_witness :
  let ms := mkMemset 7 16 8 2 2 in
  fill setBytes 4096 ms (fun _ => 0) 4112 = 7 /\ fill setBytes 4096 ms (fun _ => 0) 4104 = 0.
Proof.
  cbv zeta. split.
  - refine (proj1 (fill_exact 4096 (mkMemset 7 16 8 2 2) (fun _ => 0) 4112 _ _ _ _ _ _) _); simpl; try lia.
    exists 0, 1. unfold in_row. simpl. lia.
  - refine (proj2 (fill_exact 4096 (mkMemset 7 16 8 2 2) (fun _ => 0) 4104 _ _ _ _ _ _) _); simpl; try lia.
    intros (d & h & ? & ? & Hr). unfold in_row in Hr. simpl in *. lia.
Defined.

End GraphDispatch.
