(* ===== verification/GraphLaunch.v ===== *)
(** * Launching executables

    Model of [GraphManager::launch], [fuse_graph_nodes] and [getExecProfile]
    (src/core/graph/graph_manager.cpp) on top of the manager's tables and the
    dispatcher.  The elapsed time of a dispatch is an argument.  The fusion
    loop marks only the node after the one it looks at, so it is a recursion
    on the list that consumes one or two nodes. *)

From S2P Require Import Prelude KvQuant TopoSort Graph GraphOptimizer GraphManager GraphDispatch.
Open Scope Z_scope.

Module GraphLaunch.
Import TopoSort Graph GraphOptimizer GraphManager GraphDispatch.

(** ** Fusion of adjacent nodes *)

(** [build_dependents]. *)
Definition build_dependents (ns : list GraphNode) : gmap Z (gset Z) :=
  foldl (fun m n => foldl (fun m d => <[d := {[nodeId n]} ∪ default ∅ (m !! d)]> m) m (deps n)) ∅ ns.

Section Fusion.
(** Registering a kernel source under a name, and the host function and
    context that perform two copies. *)
Context (registerKernel : Engine -> string -> string -> Engine * result VGREResult Z).
Context (copyPairFn : Z) (newCopyPair : MemcpyData -> MemcpyData -> Z).

Definition isH2D (n : GraphNode) : bool :=
  bool_decide (type n = MEMCPY) && (kind (copy n) =? VGRE_MEMCPY_HOST_TO_DEVICE).

(** Pattern 1: two adjacent uploads, the first with no dependent but the
    second, which does not depend on it. *)
Definition fusesCopies (dependents : gmap Z (gset Z)) (a b : GraphNode) : bool :=
  isH2D a && isH2D b && bool_decide (nodeId a ∉ deps b) &&
  bool_decide (set_Forall (fun d => d = nodeId b) (default ∅ (dependents !! nodeId a))).

Definition copyNode (a b : GraphNode) : GraphNode :=
  with_host (with_stream (newNode HOST (nodeId a) (deps a ++ filter (fun d => d <> nodeId a) (deps b))) (streamId a))
    (mkHost copyPairFn (newCopyPair (copy a) (copy b))).

(** Pattern 2: two adjacent kernels of one shape on one stream. *)
Definition noHazard (a b : GraphNode) : bool :=
  forallb (fun wp => forallb (fun rp => negb (wp =? rp)) (capturedReadPtrs (kernel b))) (capturedWritePtrs (kernel a)).

Definition linearDep (a b : GraphNode) : bool :=
  match deps b with [] => true | [d] => d =? nodeId a | _ => false end.

Definition fusesKernels (a b : GraphNode) : bool :=
  bool_decide (type a = KERNEL) && bool_decide (type b = KERNEL) && (streamId b =? streamId a) &&
  bool_decide (gridDim (kernel b) = gridDim (kernel a)) && bool_decide (blockDim (kernel b) = blockDim (kernel a)) &&
  noHazard a b && linearDep a b.

Definition nl : string := String (Ascii.ascii_of_nat 10) "".
Definition dquote : string := String (Ascii.ascii_of_nat 34) "".

Definition fusedName (a b : GraphNode) : string :=
  "__vgre_fused_" +:+ kernelName (kernel a) +:+ "_" +:+ kernelName (kernel b).

Definition fusedSrc (a b : GraphNode) (irA irB : KernelIR) : string :=
  source irA +:+ nl +:+ source irB +:+ nl +:+ "extern " +:+ dquote +:+ "C" +:+ dquote +:+ " __global__ void " +:+
  fusedName a b +:+ "(void** argsA, void** argsB) {" +:+ nl +:+
  "    " +:+ kernelName (kernel a) +:+ "<<<gridDim,blockDim>>>(argsA);" +:+ nl +:+
  "    " +:+ kernelName (kernel b) +:+ "<<<gridDim,blockDim>>>(argsB);" +:+ nl +:+ "}" +:+ nl.

Definition fusedKernelNode (a b : GraphNode) (fid : Z) : GraphNode :=
  with_kernel a (mkKernel fid (fusedName a b) (gridDim (kernel a)) (blockDim (kernel a))
    (capturedArgs (kernel a) ++ capturedArgs (kernel b))
    (capturedWritePtrs (kernel a) ++ capturedWritePtrs (kernel b))
    (capturedReadPtrs (kernel a) ++ capturedReadPtrs (kernel b))).

(** The merged node of an adjacent pair, if the pair is fused. *)
Definition fusePair (dependents : gmap Z (gset Z)) (E : Engine) (a b : GraphNode) : Engine * option GraphNode :=
  if fusesCopies dependents a b then (E, Some (copyNode a b)) else
  if fusesKernels a b then
    match kernelIRCache_ E !! kernelId (kernel a), kernelIRCache_ E !! kernelId (kernel b) with
    | Some irA, Some irB =>
        match registerKernel E (fusedName a b) (fusedSrc a b irA irB) with
        | (E, Ok fid) => (E, Some (fusedKernelNode a b fid))
        | (E, Err _) => (E, None)
        end
    | _, _ => (E, None)
    end
  else (E, None).

Fixpoint fuseFrom (dependents : gmap Z (gset Z)) (E : Engine) (ns : list GraphNode) : Engine * list GraphNode :=
  match ns with
  | a :: (b :: rest) as tl =>
      match fusePair dependents E a b with
      | (E, Some f) => let (E, out) := fuseFrom dependents E rest in (E, f :: out)
      | (E, None) => let (E, out) := fuseFrom dependents E tl in (E, a :: out)
      end
  | _ => (E, ns)
  end.

Definition fuse_graph_nodes (E : Engine) (ns : list GraphNode) : Engine * list GraphNode :=
  fuseFrom (build_dependents ns) E ns.

(** ** Fusion and the dependency order *)

Lemma dependents_spec ns d m :
  m ∈ default ∅ (build_dependents ns !! d) <-> edge ns d m.
Proof.
  assert (forall n ds (dm : gmap Z (gset Z)),
    m ∈ default ∅ (foldl (fun m d => <[d := {[nodeId n]} ∪ default ∅ (m !! d)]> m) dm ds !! d) <->
    m ∈ default ∅ (dm !! d) \/ (d ∈ ds /\ nodeId n = m)) as Hin.
  { intros n ds. induction ds as [|d' ds IH]; intros dm; simpl; [rewrite elem_of_nil; tauto|].
    rewrite IH, elem_of_cons. destruct (decide (d' = d)) as [->|Hne].
    - rewrite lookup_insert_eq. simpl. rewrite elem_of_union, elem_of_singleton. naive_solver.
    - rewrite lookup_insert_ne by done. naive_solver. }
  assert (forall (dm : gmap Z (gset Z)), m ∈ default ∅ (foldl (fun m n => foldl (fun m d =>
      <[d := {[nodeId n]} ∪ default ∅ (m !! d)]> m) m (deps n)) dm ns !! d) <->
    m ∈ default ∅ (dm !! d) \/ edge ns d m) as Hall.
  { induction ns as [|n ns IH]; intros dm; cbn [foldl].
    - unfold edge. setoid_rewrite elem_of_nil. naive_solver.
    - rewrite IH, Hin. unfold edge. setoid_rewrite elem_of_cons. naive_solver. }
  unfold build_dependents. rewrite Hall, lookup_empty. simpl. set_solver.
Qed.

(** What every node of the fused list is. *)
Definition fused_from (ns : list GraphNode) (n : GraphNode) : Prop :=
  n ∈ ns \/
  (exists a b, a ∈ ns /\ b ∈ ns /\ n = copyNode a b /\ (nodeId a ∉ deps b) /\ forall m, edge ns (nodeId a) m -> m = nodeId b) \/
  (exists a b fid, a ∈ ns /\ b ∈ ns /\ n = fusedKernelNode a b fid /\ (forall d, d ∈ deps b -> d = nodeId a)).

Lemma fusePair_from ns E a b E' f : a ∈ ns -> b ∈ ns ->
  fusePair (build_dependents ns) E a b = (E', Some f) -> fused_from ns f /\ nodeId f = nodeId a.
Proof.
  intros Ha Hb. unfold fusePair. destruct (fusesCopies _ a b) eqn:Hc.
  - intros [= <- <-]. split; [|done]. right. left. exists a, b. unfold fusesCopies in Hc. b2p. split_and!; try done.
    intros m Hm%dependents_spec. match goal with H : set_Forall _ _ |- _ => by apply H end.
  - destruct (fusesKernels a b) eqn:Hk; [|done].
    destruct (kernelIRCache_ E !! kernelId (kernel a)), (kernelIRCache_ E !! kernelId (kernel b)); try done.
    destruct (registerKernel _ _ _) as [E1 [fid|e]]; [|done]. intros [= <- <-]. split; [|done].
    right. right. exists a, b, fid. split_and!; try done. intros d Hd.
    unfold fusesKernels in Hk. apply andb_true_iff in Hk as [_ Hl]. unfold linearDep in Hl.
    destruct (deps b) as [|d0 [|]]; [by apply elem_of_nil in Hd| |done].
    apply list_elem_of_singleton in Hd as ->. by apply Z.eqb_eq in Hl.
Qed.

Lemma fuseFrom_cons dependents E a b rest : fuseFrom dependents E (a :: b :: rest) =
  match fusePair dependents E a b with
  | (E, Some f) => let (E, out) := fuseFrom dependents E rest in (E, f :: out)
  | (E, None) => let (E, out) := fuseFrom dependents E (b :: rest) in (E, a :: out)
  end.
Proof. done. Qed.

Lemma fuseFrom_spec all ns E E' out : (forall n, n ∈ ns -> n ∈ all) ->
  fuseFrom (build_dependents all) E ns = (E', out) ->
  (forall n, n ∈ out -> fused_from all n) /\ sublist (ids out) (ids ns) /\ (ns <> [] -> out <> []).
Proof.
  remember (length ns) as len eqn:Hlen. revert ns E E' out Hlen.
  induction len as [len IH] using lt_wf_ind. intros ns E E' out -> Hns.
  destruct ns as [|a [|b rest]]; [..|rewrite fuseFrom_cons].
  - intros [= <- <-]. split_and!; [by intros n ?%not_elem_of_nil|done|done].
  - intros [= <- <-]. split_and!; [|done|done]. intros n Hn. left. by apply Hns.
  - destruct (fusePair _ E a b) as [E1 [f|]] eqn:Hp.
    + destruct (fuseFrom (build_dependents all) E1 rest) as [E2 out'] eqn:Hr. intros [= <- <-].
      destruct (fusePair_from all _ _ _ _ _ (Hns a ltac:(by left)) (Hns b ltac:(right; by left)) Hp) as [Hf Hid].
      destruct (IH (length rest) ltac:(simpl; lia) rest E1 E2 out' eq_refl) as (H1 & H2 & _); [|done|].
      { intros n Hn. apply Hns. right. by right. }
      split_and!; [|simpl; rewrite Hid; by apply sublist_skip, sublist_cons|done].
      intros n [->|Hn]%elem_of_cons; [done|by apply H1].
    + destruct (fuseFrom (build_dependents all) E1 (b :: rest)) as [E2 out'] eqn:Hr. intros [= <- <-].
      destruct (IH (length (b :: rest)) ltac:(simpl; lia) (b :: rest) E1 E2 out' eq_refl) as (H1 & H2 & _); [|done|].
      { intros n Hn. apply Hns. by right. }
      split_and!; [|simpl; by apply sublist_skip|done].
      intros n [->|Hn]%elem_of_cons; [left; apply Hns; by left|by apply H1].
Qed.

Definition lmax (l : list nat) : nat := foldr Nat.max O l.

Lemma lmax_ge l k : k ∈ l -> (k <= lmax l)%nat.
Proof. induction l as [|k' l IH]; [by intros ?%not_elem_of_nil|]. intros [->|?%IH]%elem_of_cons; simpl; lia. Qed.

Lemma lmax_le l r : (forall k, k ∈ l -> (k <= r)%nat) -> (lmax l <= r)%nat.
Proof.
  induction l as [|k l IH]; simpl; intros H; [lia|].
  apply Nat.max_lub; [apply H; by left|apply IH; intros k' Hk; apply H; by right].
Qed.

(** Merging keeps the dependencies acyclic. *)
Lemma fused_dag ns out : NoDup (ids ns) -> dag ns -> (forall n, n ∈ out -> fused_from ns n) -> dag out.
Proof.
  intros Hnd [rank Hrank] Hfrom.
  (* nodes keep their rank, but for merged uploads, on which nothing depends *)
  set (deg n := lmax ((fun d => S (rank d)) <$> deps n)).
  set (rank' nid := Nat.max (rank nid) (lmax (deg <$> filter (fun n => nodeId n = nid) out))).
  assert (forall n d, d ∈ deps n -> (rank d < deg n)%nat) as Hdeg.
  { intros n d Hd. apply (lmax_ge _ (S (rank d))). by apply (list_elem_of_fmap_2 (fun d => S (rank d))). }
  assert (forall n, n ∈ ns -> (deg n <= rank (nodeId n))%nat) as Hin.
  { intros n Hn. apply lmax_le. intros k (d & -> & Hd)%list_elem_of_fmap. by apply Hrank. }
  assert (forall n n', n ∈ ns -> n' ∈ ns -> nodeId n = nodeId n' -> n = n') as Huniq.
  { intros n n' [i Hi]%list_elem_of_lookup [j Hj]%list_elem_of_lookup He.
    assert (i = j) as -> by (eapply (NoDup_lookup (ids ns)); [done|unfold ids; by rewrite list_lookup_fmap, Hi|
      unfold ids; by rewrite list_lookup_fmap, Hj, He]). congruence. }
  assert (forall n d, n ∈ out -> d ∈ deps n -> exists m, m ∈ ns /\ d ∈ deps m) as Hsrc.
  { intros n d Hn Hd. destruct (Hfrom n Hn) as [?|[(a & b & Ha & Hb & -> & _)|(a & b & fid & Ha & _ & -> & _)]].
    - by exists n.
    - cbn [copyNode with_host with_stream newNode deps] in Hd.
      apply elem_of_app in Hd as [?|[_ ?]%list_elem_of_filter]; [by exists a|by exists b].
    - by exists a. }
  exists rank'. intros n d Hn Hd. apply Nat.lt_le_trans with (deg n).
  - (* the rank of a dependency has not changed *)
    apply Nat.le_lt_trans with (rank d); [|by apply Hdeg]. unfold rank'. apply Nat.max_lub; [done|]. apply lmax_le.
    intros k (m & -> & [Hid Hm]%list_elem_of_filter)%list_elem_of_fmap. cbv beta in Hid. subst d.
    destruct (Hfrom m Hm) as [Hns|[(a & b & Ha & Hb & -> & Hnb & Honly)|(a & b & fid & Ha & _ & -> & _)]].
    + by apply Hin.
    + exfalso. destruct (Hsrc n _ Hn Hd) as (m & Hmn & Hdm). cbn [copyNode with_host with_stream newNode nodeId] in Hdm.
      assert (m = b) as ->; [|done]. apply Huniq; [done|done|]. apply Honly. by exists m.
    + exact (Hin a Ha).
  - unfold rank'. apply Nat.le_trans with (lmax (deg <$> filter (fun n' => nodeId n' = nodeId n) out)); [|lia].
    apply lmax_ge, list_elem_of_fmap_2. by apply list_elem_of_filter.
Qed.

(** Adjacent-node fusion yields a launchable graph exactly when no node
    that is left depends on a node that was merged away.  The fused nodes have
    distinct identifiers from the original ones and never form a cycle, so a
    launch after fusion fails its topological sort precisely if some remaining
    dependency names a merged node. *)
Theorem fusion_launchable_iff E ns E' out :
  NoDup (ids ns) -> Forall (fun n => nodeId n <> 0) ns -> closed ns -> dag ns ->
  fuse_graph_nodes E ns = (E', out) ->
  sublist (ids out) (ids ns) /\
  (is_Some (topoSortNodes out) <->
   forall n d, n ∈ out -> d ∈ deps n -> ~ (d ∈ ids ns /\ d ∉ ids out)).
Proof.
  intros Hnd Hnz Hcl Hdag Hf. destruct (fuseFrom_spec ns ns E E' out (fun n Hn => Hn) Hf) as (Hfrom & Hsub & _).
  split; [done|].
  assert (NoDup (ids out)) as Hnd' by (by eapply sublist_NoDup).
  assert (Forall (fun n => nodeId n <> 0) out) as Hnz'.
  { apply Forall_forall. intros n Hn Hz. assert (nodeId n ∈ ids ns) as Hi.
    { eapply sublist_subseteq; [done|]. unfold ids. by apply list_elem_of_fmap_2. }
    apply list_elem_of_fmap in Hi as (n' & He & Hn'). rewrite Forall_forall in Hnz. apply (Hnz n'); [done|congruence]. }
  rewrite (proj1 (topo_spec out Hnd' Hnz')). split.
  - intros [Hc _] n d Hn Hd [_ Hno]. by apply Hno, (Hc n).
  - intros Hno. split; [|by apply (fused_dag ns)]. intros n d Hn Hd.
    destruct (decide (d ∈ ids out)) as [|Hout]; [done|]. exfalso. apply (Hno n d Hn Hd). split; [|done].
    destruct (Hfrom n Hn) as [?|[(a & b & Ha & Hb & -> & _)|(a & b & fid & Ha & _ & -> & _)]].
    + by apply (Hcl n).
    + cbn [copyNode with_host with_stream newNode deps] in Hd.
      apply elem_of_app in Hd as [?|[_ ?]%list_elem_of_filter]; [by apply (Hcl a)|by apply (Hcl b)].
    + exact (Hcl a d Ha Hd).
Qed.

(** ** Launch *)

Context (VGRE_ENABLE_JIT : bool) (allocationSize : Z -> option Z).
(** [graph_fusion_threshold()]. *)
Context (threshold : Z).

Definition disabled (e : GraphExec) (nid : Z) : bool := bool_decide (nodeEnabled e !! nid = Some false).

(** The enabled nodes, without edges from disabled ones. *)
Definition activeNodes (e : GraphExec) (ns : list GraphNode) : list GraphNode :=
  if bool_decide (map_Forall (fun _ b => b = true) (nodeEnabled e)) then ns else
  (fun n => with_deps n (filter (fun d => disabled e d = false) (deps n))) <$>
    filter (fun n => disabled e (nodeId n) = false) ns.

(** The fusion analysis, run once. *)
Definition applyFusion (E : Engine) (e : GraphExec) (active : list GraphNode) : Engine * GraphExec :=
  if negb (fusionApplied e) && (threshold <=? launch_count (profile e)) then
    let (E, ns) := fuse_graph_nodes E active in (E, with_fusion e true ns)
  else (E, e).

Definition launchNodes (e : GraphExec) (active : list GraphNode) : list GraphNode :=
  if fusionApplied e then optimizedNodes e else active.

Definition f64_add : spec_float -> spec_float -> spec_float := SFadd 53 1024.
Definition f64_div : spec_float -> spec_float -> spec_float := SFdiv 53 1024.

Definition record_launch (elapsedMs : spec_float) (e : GraphExec) : GraphExec :=
  let p := profile e in
  mkExec (sourceGraph e) (mkProfile elapsedMs (f64_add (total_exec_ms p) elapsedMs) (u64 (launch_count p + 1)))
    (flags e) (nodeEnabled e) (fusionApplied e) (optimizedNodes e).

(** A launch: the manager, the engine, the result and the submitted task. *)
Definition launch (fuel : nat) (elapsedMs : spec_float) (eid : Z) (s : t) (E : Engine) :
    option (t * Engine * VGREResult * option (list NativeGraphOperation)) :=
  match executables_ s !! eid with
  | None => Some (s, E, ERR_INVALID_VALUE, None)
  | Some e =>
      match heap s !! sourceGraph e with
      | None => Some (s, E, ERR_UNKNOWN, None)
      | Some g =>
          let active := activeNodes e (nodes g) in
          let (E, e) := applyFusion E e active in
          '(E, r, task) ← dispatchGraphNodes VGRE_ENABLE_JIT allocationSize
            (fun b => nodes <$> template_of s b) fuel E (launchNodes e active);
          Some (set_executables s (<[eid := record_launch elapsedMs e]> (executables_ s)), E, r, task)
      end
  end.

Definition avg_exec_ms (p : GraphExecProfile) : spec_float :=
  if 0 <? launch_count p then f64_div (total_exec_ms p) (binary_normalize 53 1024 (launch_count p) 0 false)
  else S754_zero false.

Definition getExecProfile (eid : Z) : M (spec_float * spec_float * Z) :=
  e ← findExec eid;
  let p := profile e in mret (last_exec_ms p, avg_exec_ms p, launch_count p).

(** ** Launching *)

Lemma activeNodes_spec e ns : NoDup (ids ns) -> closed ns -> dag ns ->
  NoDup (ids (activeNodes e ns)) /\ closed (activeNodes e ns) /\ dag (activeNodes e ns) /\
  (forall nid, nid ∈ ids (activeNodes e ns) <-> nid ∈ ids ns /\ disabled e nid = false) /\
  (forall d m, edge (activeNodes e ns) d m <-> edge ns d m /\ disabled e d = false /\ disabled e m = false).
Proof.
  intros Hnd Hcl [rank Hrank]. unfold activeNodes. case_bool_decide as Hall.
  { assert (forall nid, disabled e nid = false) as Hno.
    { intros nid. unfold disabled. case_bool_decide as Hd; [|done]. by apply Hall in Hd. }
    split_and!; [done|done|by exists rank| |]; intros; rewrite !Hno; tauto. }
  set (act := (fun n => with_deps n (filter (fun d => disabled e d = false) (deps n))) <$> filter (fun n => disabled e (nodeId n) = false) ns).
  assert (ids act = nodeId <$> filter (fun n => disabled e (nodeId n) = false) ns) as Hids.
  { unfold ids, act. rewrite <- list_fmap_compose. by apply list_fmap_ext. }
  assert (forall nid, nid ∈ ids act <-> nid ∈ ids ns /\ disabled e nid = false) as Hmem.
  { intros nid. rewrite Hids. unfold ids. rewrite !list_elem_of_fmap. setoid_rewrite list_elem_of_filter. naive_solver. }
  assert (forall n d, n ∈ act -> d ∈ deps n -> exists n0, n0 ∈ ns /\ nodeId n = nodeId n0 /\ d ∈ deps n0 /\
    disabled e d = false /\ disabled e (nodeId n0) = false) as Hsrc.
  { intros n d (n0 & -> & [Hn0 Hin]%list_elem_of_filter)%list_elem_of_fmap [Hd Hdin]%list_elem_of_filter. by exists n0. }
  split_and!; [| | |done|].
  - rewrite Hids. eapply sublist_NoDup; [exact Hnd|]. unfold ids. apply fmap_sublist, sublist_filter.
  - intros n d Hn Hd. destruct (Hsrc n d Hn Hd) as (n0 & ? & _ & ? & ? & _). apply Hmem. split; [by apply (Hcl n0)|done].
  - exists rank. intros n d Hn Hd. destruct (Hsrc n d Hn Hd) as (n0 & ? & -> & ? & _). by apply Hrank.
  - intros d m. split.
    + intros (n & Hn & <- & Hd). destruct (Hsrc n d Hn Hd) as (n0 & ? & -> & ? & ? & ?). split; [by exists n0|done].
    + intros ((n & Hn & <- & Hd) & Hed & Hem). eexists. split_and!; [apply list_elem_of_fmap_2, list_elem_of_filter; done|done|].
      simpl. by apply list_elem_of_filter.
Qed.

(** Until the fusion threshold a launch runs the enabled part of the
    executable's graph.  The nodes handed to the dispatcher are exactly the
    enabled ones, ordered by exactly the edges between enabled nodes, and they
    can always be put in launch order; the launch counts itself and changes
    nothing else in the manager. *)
Theorem early_launch fuel ms eid s E e g s' E' r task :
  mgr_ok s -> executables_ s !! eid = Some e -> heap s !! sourceGraph e = Some g -> closed (nodes g) -> dag (nodes g) ->
  fusionApplied e = false -> launch_count (profile e) < threshold ->
  launch fuel ms eid s E = Some (s', E', r, task) ->
  exists active,
    dispatchGraphNodes VGRE_ENABLE_JIT allocationSize (fun b => nodes <$> template_of s b) fuel E active = Some (E', r, task) /\
    (forall nid, nid ∈ ids active <-> nid ∈ ids (nodes g) /\ disabled e nid = false) /\
    (forall d m, edge active d m <-> edge (nodes g) d m /\ disabled e d = false /\ disabled e m = false) /\
    is_Some (topoSortNodes active) /\
    s' = set_executables s (<[eid := record_launch ms e]> (executables_ s)).
Proof.
  intros Hok He Hg Hcl Hdag Hf Hc. unfold launch. rewrite He, Hg. unfold applyFusion. rewrite Hf. simpl.
  rewrite (proj2 (Z.leb_gt _ _)) by done. unfold launchNodes. rewrite Hf.
  pose proof (ok_good _ _ _ Hok Hg) as [Hwf _]. pose proof (wf_NoDup _ Hwf) as Hnd.
  destruct (activeNodes_spec e (nodes g) Hnd Hcl Hdag) as (Hnda & Hcla & Hdaga & Hids & Hedge).
  destruct (dispatchGraphNodes _ _ _ _ _ _) as [[[E1 r1] task1]|] eqn:Ed; simpl; [|done]. intros [= <- <- <- <-].
  exists (activeNodes e (nodes g)). split_and!; [done|done|done| |done].
  apply topo_spec; [done| |done]. apply Forall_forall. intros n Hn.
  assert (nodeId n ∈ ids (nodes g)) as Hi by (apply (Hids (nodeId n)); unfold ids; by apply list_elem_of_fmap_2).
  apply list_elem_of_fmap in Hi as (n0 & -> & [i Hi]%list_elem_of_lookup). apply (wf_ids _ Hwf) in Hi. lia.
Qed.

(** Once fusion has been applied a launch dispatches the cached nodes. *)
Lemma late_launch fuel ms eid s E e g : executables_ s !! eid = Some e -> heap s !! sourceGraph e = Some g ->
  fusionApplied e = true -> launch fuel ms eid s E =
    '(E', r, task) ← dispatchGraphNodes VGRE_ENABLE_JIT allocationSize (fun b => nodes <$> template_of s b) fuel E (optimizedNodes e);
    Some (set_executables s (<[eid := record_launch ms e]> (executables_ s)), E', r, task).
Proof.
  intros He Hg Hf. unfold launch. rewrite He, Hg. unfold applyFusion. rewrite Hf. simpl. unfold launchNodes. by rewrite Hf.
Qed.

(** The calls that change what an executable's nodes do. *)
Inductive node_change (eid : Z) : (t -> t) -> Prop :=
| nc_kernel ir mem nid args tys : node_change eid (run (execKernelNodeSetParams ir mem eid nid args tys))
| nc_memcpy nid d sr c k : node_change eid (run (execMemcpyNodeSetParams eid nid d sr c k))
| nc_memset nid d v p w h dp : node_change eid (run (execMemsetNodeSetParams eid nid d v p w h dp))
| nc_host nid f u : node_change eid (run (execHostNodeSetParams eid nid f u))
| nc_child nid c : node_change eid (run (execChildGraphNodeSetParams eid nid c))
| nc_record nid ev : node_change eid (run (execEventRecordNodeSetEvent eid nid ev))
| nc_wait nid ev : node_change eid (run (execEventWaitNodeSetEvent eid nid ev))
| nc_enable nid b : node_change eid (run (nodeSetEnabled eid nid b)).

Lemma updateExecNode_execs eid nid ty f s : (forall n s, (f n s).1 = s) ->
  executables_ (updateExecNode eid nid ty f s).1 = executables_ s.
Proof.
  intros Hf. unfold updateExecNode, mbind, M_bind.
  assert (Reader (findExecNode eid nid)) as Hrd.
  { intros s0. unfold findExecNode, findExec, findNode, deref, gets, mbind, M_bind. simpl.
    destruct (executables_ s0 !! eid) as [e|]; simpl; [|done].
    destruct (heap s0 !! sourceGraph e) as [g|]; simpl; [|done]. by destruct (find_node g nid) as [[]|]. }
  destruct (findExecNode eid nid s) as [s1 [[[[a g] i] n]|e]] eqn:E.
  - assert (s1 = s) as ->.
    { pose proof (reader_state (m := findExecNode eid nid) s) as Hr. by rewrite E in Hr. }
    destruct (bool_decide _); simpl; [done|]. specialize (Hf n s). destruct (f n s) as [s2 [n'|e]]; simpl in *; by subst.
  - simpl. pose proof (reader_state (m := findExecNode eid nid) s) as Hr. rewrite E in Hr. simpl in Hr. by subst.
Qed.

(** Once an executable has been fused, changing its nodes has no effect.
    Whatever [exec...SetParams] or [nodeSetEnabled] call is made on it, the
    following launches dispatch the node list cached when fusion was applied. *)
Theorem changes_after_fusion_ignored eid f s e E : executables_ s !! eid = Some e -> fusionApplied e = true ->
  node_change eid f -> exists e', executables_ (f s) !! eid = Some e' /\
    forall active, applyFusion E e' active = (E, e') /\ launchNodes e' active = optimizedNodes e.
Proof.
  intros He Hf Hc.
  assert (forall e', fusionApplied e' = true -> optimizedNodes e' = optimizedNodes e ->
    forall active, applyFusion E e' active = (E, e') /\ launchNodes e' active = optimizedNodes e) as Hcache.
  { intros e' Hf' Ho active. unfold applyFusion, launchNodes. rewrite Hf'. done. }
  assert (forall nid ty h, (forall n s, (h n s).1 = s) -> exists e', executables_ (run (updateExecNode eid nid ty h) s) !! eid = Some e' /\
    forall active, applyFusion E e' active = (E, e') /\ launchNodes e' active = optimizedNodes e) as Hset.
  { intros nid ty h Hh. exists e. unfold run. rewrite updateExecNode_execs by done. split; [done|by apply Hcache]. }
  destruct Hc; try (apply Hset; intros n0 s0; simpl; repeat (case_match; simpl); done).
  - apply Hset. intros n0 s0. by destruct (_ || _).
  - apply Hset. intros n0 s0. by destruct (negb _).
  - apply Hset. intros n0 s0. by destruct (_ =? 0).
  - apply Hset. intros n0 s0. unfold graphExists, mbind, M_bind, gets. simpl. by destruct (negb _).
  - apply Hset. intros n0 s0. by destruct (_ =? 0).
  - apply Hset. intros n0 s0. by destruct (_ =? 0).
  - unfold run, nodeSetEnabled, findExec, mbind, M_bind, gets. simpl. rewrite He. simpl.
    destruct (heap s !! sourceGraph e); simpl; [|by eauto]. case_bool_decide; simpl; [by eauto|].
    rewrite lookup_insert_eq. eexists. split; [done|]. by apply Hcache.
Qed.

End Fusion.

(** ** Concrete launches *)

Section Runs.
Abbreviation noopt := (fun g : Graph.t => (SUCCESS, g)).
Abbreviation noreg := (fun (E : Engine) (_ _ : string) => (E, @Err VGREResult Z ERR_COMPILATION)).
#[local] Abbreviation go := (launch noreg 99 (fun _ _ => 77) true (fun _ => None) 3 2 (S754_zero false)).

(** Two independent uploads and a node that waits for the second. *)
Definition upload_graph : t :=
  run (instantiate noopt 1)
    (run (addEmptyNode 1 [2])
      (run (addMemcpyNodeWithDepsOut 1 12288 16384 64 0 [])
        (run (addMemcpyNodeWithDepsOut 1 4096 8192 64 0 [])
          (run createGraph init)))).

Fixpoint launches (k : nat) (s : t) : list (option VGREResult) :=
  match k with
  | O => []
  | S k => match go 1 s engine0 with
           | Some (s, _, r, _) => Some r :: launches k s
           | None => [None]
           end
  end.

(** An executable can stop working once it has been launched three times.
    Fusing two adjacent uploads drops the second one's identifier, so a node
    that depends on it is left with a dangling dependency: the graph launches
    three times and every later launch is refused. *)
Theorem fourth_launch_fails :
  launches 6 upload_graph =
    [Some SUCCESS; Some SUCCESS; Some SUCCESS; Some ERR_INVALID_VALUE; Some ERR_INVALID_VALUE; Some ERR_INVALID_VALUE].
Proof. vm_compute. reflexivity. Qed.

Lemma fusion_launchable_iff_witness :
  let m i := with_copy (newNode MEMCPY i []) (mkMemcpy 4096 8192 64 0) in
  let ns := [m 1; m 2; newNode EMPTY 3 [2]] in
  exists out, fuse_graph_nodes noreg 99 (fun _ _ => 77) engine0 ns = (engine0, out) /\ ~ is_Some (topoSortNodes out).
Proof.
  cbv zeta. eexists. split; [vm_compute; reflexivity|].
  edestruct (fusion_launchable_iff noreg 99 (fun _ _ => 77) engine0
    [with_copy (newNode MEMCPY 1 []) (mkMemcpy 4096 8192 64 0); with_copy (newNode MEMCPY 2 []) (mkMemcpy 4096 8192 64 0);
     newNode EMPTY 3 [2]]) as [_ H].
  - refine (bool_decide_eq_true_1 _ _). vm_compute. reflexivity.
  - repeat constructor; discriminate.
  - intros n d Hn Hd. rewrite !elem_of_cons, elem_of_nil in Hn. destruct Hn as [-> |[-> |[-> |[]]]]; simpl in Hd;
      rewrite ?elem_of_cons, elem_of_nil in Hd; (destruct Hd as [-> |[]] || destruct Hd);
      refine (bool_decide_eq_true_1 _ _); vm_compute; reflexivity.
  - exists Z.to_nat. intros n d Hn Hd. rewrite !elem_of_cons, elem_of_nil in Hn.
    destruct Hn as [-> |[-> |[-> |[]]]]; simpl in Hd;
      rewrite ?elem_of_cons, elem_of_nil in Hd; (destruct Hd as [-> |[]] || destruct Hd); simpl; lia.
  - vm_compute. reflexivity.
  - intros Ht. apply (proj1 H Ht (newNode EMPTY 3 [2]) 2).
    + right. by left.
    + by left.
    + split; [refine (bool_decide_eq_true_1 _ _); vm_compute; reflexivity|].
      refine (bool_decide_eq_true_1 (_ ∉ _) _). vm_compute. reflexivity.
Defined.

Lemma upload_graph_ok : mgr_ok upload_graph.
Proof.
  unfold upload_graph. apply instantiate_ok; [apply _|].
  assert (forall f s, template_call (fun _ => None) (fun _ => 0) f -> mgr_ok s -> mgr_ok (f s)) as Hcall.
  { intros f s Hf Hs. by apply te_ok with s, (template_call_effect (fun _ => None) (fun _ => 0)). }
  repeat (apply Hcall; [constructor|]). apply mgr_ok_init.
Qed.

Lemma early_launch_witness :
  exists s' E' r task, go 1 upload_graph engine0 = Some (s', E', r, task) /\ r = SUCCESS /\
    exists active, is_Some (topoSortNodes active).
Proof.
  do 4 eexists. split; [vm_compute; reflexivity|]. split; [reflexivity|].
  edestruct (early_launch noreg 99 (fun _ _ => 77) true (fun _ => None) 3 2 (S754_zero false) 1 upload_graph engine0)
    as (active & _ & _ & _ & Ht & _).
  - exact upload_graph_ok.
  - vm_compute. reflexivity.
  - vm_compute. reflexivity.
  - intros n d Hn Hd. cbn [nodes] in Hn. rewrite !elem_of_cons, elem_of_nil in Hn.
    destruct Hn as [-> |[-> |[-> |[]]]]; cbn [deps] in Hd;
      rewrite ?elem_of_cons, elem_of_nil in Hd; (destruct Hd as [-> |[]] || destruct Hd);
      refine (bool_decide_eq_true_1 _ _); vm_compute; reflexivity.
  - exists Z.to_nat. intros n d Hn Hd. cbn [nodes] in Hn. rewrite !elem_of_cons, elem_of_nil in Hn.
    destruct Hn as [-> |[-> |[-> |[]]]]; cbn [deps] in Hd;
      rewrite ?elem_of_cons, elem_of_nil in Hd; (destruct Hd as [-> |[]] || destruct Hd); simpl; lia.
  - reflexivity.
  - vm_compute. reflexivity.
  - vm_compute. reflexivity.
  - exists active. exact Ht.
Defined.

Lemma changes_after_fusion_ignored_witness :
  let e := with_fusion (mkExec 1 (mkProfile (S754_zero false) (S754_zero false) 3) 0 ∅ false []) true [newNode EMPTY 1 []] in
  let s := set_executables init (<[1 := e]> ∅) in
  exists e', executables_ (run (nodeSetEnabled 1 1 false) s) !! 1 = Some e' /\ launchNodes e' [] = [newNode EMPTY 1 []].
Proof.
  cbv zeta.
  destruct (changes_after_fusion_ignored noreg 99 (fun _ _ => 77) 3 1 (run (nodeSetEnabled 1 1 false))
    (set_executables init (<[1 := with_fusion (mkExec 1 (mkProfile (S754_zero false) (S754_zero false) 3) 0 ∅ false []) true
      [newNode EMPTY 1 []]]> ∅)) (with_fusion (mkExec 1 (mkProfile (S754_zero false) (S754_zero false) 3) 0 ∅ false []) true
      [newNode EMPTY 1 []]) engine0) as (e' & He & Hl).
  - reflexivity.
  - reflexivity.
  - apply nc_enable.
  - exists e'. split; [exact He|apply (Hl [])].
Defined.

End Runs.
End GraphLaunch.
