(* ===== verification/RobinHood.v ===== *)
(** * Robin Hood hash table

    Model of [RobinHoodHashTable] (include/vgre/core/robin_hood_hash_table.h),
    the open-addressing table behind [KernelNameTable].  The template's hash
    function is an argument.  References into the table are slot positions.
    [size_t] and [uint32_t] arithmetic wraps; capacities are at most 2^31. *)

From S2P Require Import Prelude.

Module RobinHood.

Section Table.
Context {K V : Type} `{Countable K}.
Context (hash_ : K -> Z) (default_key : K) (default_value : V).

Definition kInitialCap : Z := 16.

Record Slot := mkSlot { first : K; second : V; probe_len : Z; occupied : bool }.

Record t := mk { slots_ : list Slot; size_ : Z; mask_ : Z }.

Definition emptySlot : Slot := mkSlot default_key default_value 0 false.

Definition slotAt (s : t) (pos : Z) : Slot := default emptySlot (slots_ s !! Z.to_nat pos).
Definition setSlot (s : t) (pos : Z) (sl : Slot) : t := mk (<[Z.to_nat pos := sl]> (slots_ s)) (size_ s) (mask_ s).
Definition capacity (s : t) : Z := Z.of_nat (length (slots_ s)).

Definition vacate (sl : Slot) : Slot := mkSlot (first sl) (second sl) (probe_len sl) false.

(** ** Lookup *)

(** The position of [key]; [None] is [end()].  [n] iterations are left. *)
Fixpoint findLoop (n : nat) (s : t) (key : K) (ideal probe : Z) : option Z :=
  match n with
  | O => None
  | S n =>
      let pos := Z.land (u64 (ideal + probe)) (mask_ s) in
      let slot := slotAt s pos in
      if negb (occupied slot) then None else
      if probe_len slot <? u32 probe then None else
      if decide (first slot = key) then Some pos else
      findLoop n s key ideal (probe + 1)
  end.

Definition find (s : t) (key : K) : option Z :=
  if size_ s =? 0 then None else
  findLoop (length (slots_ s)) s key (Z.land (hash_ key) (mask_ s)) 0.

Definition count (s : t) (key : K) : Z := match find s key with Some _ => 1 | None => 0 end.

(** ** Insertion *)

(** The table and the position of the returned reference.  [fuel] bounds the
    [for (;;)] loop; [None] when it runs out, or if the reference would be to
    the entry of [end()]. *)
Fixpoint insertLoop (fuel : nat) (s : t) (key : K) (update_existing : bool)
    (cur_key : K) (cur_val : V) (cur_ideal probe : Z) : option (t * Z) :=
  match fuel with
  | O => None
  | S fuel =>
      let pos := Z.land (u64 (cur_ideal + probe)) (mask_ s) in
      let slot := slotAt s pos in
      if negb (occupied slot) then
        let s := setSlot s pos (mkSlot cur_key cur_val probe true) in
        let s := mk (slots_ s) (size_ s + 1) (mask_ s) in
        p ← find s key; Some (s, p)
      else if decide (first slot = cur_key) then
        Some (if update_existing then setSlot s pos (mkSlot (first slot) cur_val (probe_len slot) true) else s, pos)
      else if probe_len slot <? probe then
        let old_probe := probe_len slot in
        let s := setSlot s pos (mkSlot cur_key cur_val probe true) in
        insertLoop fuel s key update_existing (first slot) (second slot)
          (Z.land (u64 (pos - old_probe + capacity s)) (mask_ s)) (u32 (old_probe + 1))
      else insertLoop fuel s key update_existing cur_key cur_val cur_ideal (u32 (probe + 1))
  end.

Definition insert_or_assign (s : t) (key : K) (val : V) (update_existing : bool) : option (t * Z) :=
  insertLoop (length (slots_ s)) s key update_existing key val (Z.land (hash_ key) (mask_ s)) 0.

(** Moving the entries of [old] into a table. *)
Fixpoint reinsert (old : list Slot) (s : t) : option t :=
  match old with
  | [] => Some s
  | sl :: old =>
      if occupied sl then '(s, _) ← insert_or_assign s (first sl) (second sl) true; reinsert old s
      else reinsert old s
  end.

Definition resize (s : t) (new_cap : Z) : option t :=
  reinsert (slots_ s) (mk (replicate (Z.to_nat new_cap) emptySlot) 0 (new_cap - 1)).

(** The constructor. *)
Definition create : t := mk (replicate (Z.to_nat kInitialCap) emptySlot) 0 (kInitialCap - 1).

(** [static_cast<size_t>(static_cast<double>(cap) * 0.75)] is exact below 2^53. *)
Definition maybe_rehash (s : t) : option t :=
  if capacity s * 3 / 4 <? size_ s + 1 then resize s (capacity s * 2) else Some s.

(** [operator[]]. *)
Definition index (s : t) (key : K) : option (t * Z) :=
  s ← maybe_rehash s; insert_or_assign s key default_value false.

(** [table[key] = value]. *)
Definition assign (s : t) (key : K) (value : V) : option t :=
  '(s, pos) ← index s key;
  let sl := slotAt s pos in
  Some (setSlot s pos (mkSlot (first sl) value (probe_len sl) (occupied sl))).

(** ** Deletion *)

(** The back-shift; [fuel] bounds [for (size_t i = 1; ; ++i)]. *)
Fixpoint backShift (fuel : nat) (s : t) (del_pos i : Z) : option t :=
  match fuel with
  | O => None
  | S fuel =>
      let cur := Z.land (u64 (del_pos + i)) (mask_ s) in
      let prev := Z.land (u64 (del_pos + i - 1)) (mask_ s) in
      let next := slotAt s cur in
      if negb (occupied next) || (probe_len next =? 0) then Some (setSlot s prev (vacate (slotAt s prev)))
      else
        let s := setSlot s prev (mkSlot (first next) (second next) (u32 (probe_len next - 1)) (occupied next)) in
        let s := setSlot s cur (vacate (slotAt s cur)) in
        backShift fuel s del_pos (i + 1)
  end.

Definition erase (s : t) (key : K) : option (t * bool) :=
  if size_ s =? 0 then Some (s, false) else
  match findLoop (length (slots_ s)) s key (Z.land (hash_ key) (mask_ s)) 0 with
  | None => Some (s, false)
  | Some del_pos =>
      s ← backShift (length (slots_ s)) s del_pos 1;
      Some (mk (slots_ s) (size_ s - 1) (mask_ s), true)
  end.

Definition clear (s : t) : t := mk (vacate <$> slots_ s) 0 (mask_ s).

Definition empty (s : t) : bool := size_ s =? 0.

Definition max_probe_length (s : t) : Z :=
  foldl (fun mx sl => if occupied sl then (if mx <? probe_len sl + 1 then probe_len sl + 1 else mx) else mx) 0 (slots_ s).

(** ** Programs over a table *)

Inductive op :=
  | Assign (k : K) (v : V)
  | Index (k : K)
  | Find (k : K)
  | Count (k : K)
  | Erase (k : K)
  | Clear.

Inductive out := Done | Value (v : option V) | Number (n : Z) | Flag (b : bool).

Definition exec (s : t) (o : op) : option (t * out) :=
  match o with
  | Assign k v => s ← assign s k v; Some (s, Done)
  | Index k => '(s, pos) ← index s k; Some (s, Value (Some (second (slotAt s pos))))
  | Find k => Some (s, Value (pos ← find s k; Some (second (slotAt s pos))))
  | Count k => Some (s, Number (count s k))
  | Erase k => '(s, b) ← erase s k; Some (s, Flag b)
  | Clear => Some (clear s, Done)
  end.

Fixpoint run (s : t) (l : list op) : option (t * list out) :=
  match l with
  | [] => Some (s, [])
  | o :: l => '(s, r) ← exec s o; '(s, rs) ← run s l; Some (s, r :: rs)
  end.

(** The same program over a finite map. *)
Definition spec (m : gmap K V) (o : op) : gmap K V * out :=
  match o with
  | Assign k v => (<[k := v]> m, Done)
  | Index k => match m !! k with Some v => (m, Value (Some v)) | None => (<[k := default_value]> m, Value (Some default_value)) end
  | Find k => (m, Value (m !! k))
  | Count k => (m, Number (if m !! k is Some _ then 1 else 0))
  | Erase k => (delete k m, Flag (bool_decide (is_Some (m !! k))))
  | Clear => (∅, Done)
  end.

Fixpoint spec_run (m : gmap K V) (l : list op) : gmap K V * list out :=
  match l with
  | [] => (m, [])
  | o :: l => let (m, r) := spec m o in let (m, rs) := spec_run m l in (m, r :: rs)
  end.

(** ** The table as a function of positions *)

(** What slot [i mod capacity] holds: key, value, probe length. *)
Definition view (s : t) (i : Z) : option (K * V * Z) :=
  let sl := slotAt s (i mod capacity s) in
  if occupied sl then Some (first sl, second sl, probe_len sl) else None.

Definition entry (sl : Slot) : option (K * V * Z) :=
  if occupied sl then Some (first sl, second sl, probe_len sl) else None.

(** The capacity is a power of two, at most 2^31. *)
Definition shape (s : t) : Prop := exists k, 0 <= k <= 31 /\ capacity s = 2 ^ k /\ mask_ s = 2 ^ k - 1.

(** The Robin Hood invariant: every entry is [probe_len] slots behind its home,
    keys are unique, and an entry away from home follows one that is at most
    one step nearer to its own. *)
Record rh (s : t) : Prop := mkRh {
  rh_shape : shape s;
  rh_probe : forall i k v p, view s i = Some (k, v, p) -> 0 <= p < capacity s /\ (hash_ k + p) mod capacity s = i mod capacity s;
  rh_uniq : forall i j k v v' p p', view s i = Some (k, v, p) -> view s j = Some (k, v', p') -> i mod capacity s = j mod capacity s;
  rh_chain : forall i k v p, view s i = Some (k, v, p) -> 0 < p ->
    exists k' v' p', view s (i - 1) = Some (k', v', p') /\ p - 1 <= p';
}.

(** The entries. *)
Definition holds (s : t) (k : K) (v : V) : Prop := exists i p, view s i = Some (k, v, p).

(** The table represents [m]. *)
Record models (s : t) (m : gmap K V) : Prop := mkModels {
  md_rh : rh s;
  md_size : size_ s = Z.of_nat (size m);
  md_map : forall k v, m !! k = Some v <-> holds s k v;
}.

Lemma shape_pos s : shape s -> 0 < capacity s <= 2 ^ 31.
Proof. intros (k & Hk & -> & _). split; [lia|]. apply Z.pow_le_mono_r; lia. Qed.

Lemma land_mask s x : shape s -> Z.land (u64 x) (mask_ s) = x mod capacity s.
Proof.
  intros (k & Hk & Ec & Em). rewrite Em, Ec. replace (2 ^ k - 1) with (Z.ones k) by (rewrite Z.ones_equiv; lia).
  rewrite Z.land_ones by lia. unfold u64. replace (2 ^ 64) with (2 ^ k * 2 ^ (64 - k)) by (rewrite <- Z.pow_add_r by lia; f_equal; lia).
  rewrite Z.rem_mul_r by lia. rewrite Z.mul_comm, Z.mod_add by lia. by rewrite Z.mod_mod by lia.
Qed.

Lemma land_hash s x : shape s -> Z.land x (mask_ s) = x mod capacity s.
Proof.
  intros (k & Hk & Ec & Em). rewrite Em, Ec. replace (2 ^ k - 1) with (Z.ones k) by (rewrite Z.ones_equiv; lia).
  by rewrite Z.land_ones by lia.
Qed.

Lemma view_mod s i j : i mod capacity s = j mod capacity s -> view s i = view s j.
Proof. intros E. unfold view. by rewrite E. Qed.

Lemma view_mod_id s i : view s (i mod capacity s) = view s i.
Proof. apply view_mod. by rewrite Zmod_mod. Qed.

Lemma capacity_setSlot s pos sl : capacity (setSlot s pos sl) = capacity s.
Proof. unfold capacity. cbn [setSlot slots_]. by rewrite length_insert. Qed.

Lemma shape_setSlot s pos sl : shape s -> shape (setSlot s pos sl).
Proof. intros (k & Hk & Ec & Em). exists k. by rewrite capacity_setSlot. Qed.

Lemma slotAt_setSlot s q sl j : shape s ->
  slotAt (setSlot s (q mod capacity s) sl) (j mod capacity s) = if decide (j mod capacity s = q mod capacity s) then sl else slotAt s (j mod capacity s).
Proof.
  intros Hs. pose proof (shape_pos s Hs) as Hp. unfold slotAt. cbn [setSlot slots_].
  pose proof (Z.mod_pos_bound q (capacity s)). pose proof (Z.mod_pos_bound j (capacity s)).
  case_decide as E.
  - rewrite E, list_lookup_insert_eq; [done|]. unfold capacity in *. lia.
  - rewrite list_lookup_insert_ne by lia. done.
Qed.

Lemma view_setSlot s q sl j : shape s ->
  view (setSlot s (q mod capacity s) sl) j = if decide (j mod capacity s = q mod capacity s) then entry sl else view s j.
Proof.
  intros Hs. unfold view. rewrite capacity_setSlot, slotAt_setSlot by done. unfold entry. by case_decide.
Qed.

Lemma view_size s n j : view (mk (slots_ s) n (mask_ s)) j = view s j.
Proof. done. Qed.

(** Entries carry on back to their home. *)
Lemma chain_back s i k v p n : rh s -> view s i = Some (k, v, p) -> 0 <= n <= p ->
  exists k' v' p', view s (i - n) = Some (k', v', p') /\ p - n <= p'.
Proof.
  intros Hr Hv Hn. pose proof Hn as [Hn0 _]. revert Hn. pattern n. apply natlike_ind; [| |exact Hn0].
  - intros _. exists k, v, p. rewrite Z.sub_0_r. split; [done|lia].
  - intros m Hm IH Hle. destruct IH as (k1 & v1 & p1 & H1 & Hp1); [lia|].
    destruct (rh_chain s Hr (i - m) k1 v1 p1 H1) as (k2 & v2 & p2 & H2 & Hp2); [lia|].
    exists k2, v2, p2. replace (i - Z.succ m) with (i - m - 1) by lia. split; [done|lia].
Qed.

(** ** Lookup *)

Lemma view_Some s i k v p : view s (i mod capacity s) = Some (k, v, p) -> let sl := slotAt s (i mod capacity s) in
  occupied sl = true /\ first sl = k /\ second sl = v /\ probe_len sl = p.
Proof.
  rewrite view_mod_id. unfold view. destruct (occupied (slotAt s (i mod capacity s))) eqn:E; [|done].
  by intros [= <- <- <-].
Qed.

Lemma findLoop_sound n s key ideal probe pos : shape s -> findLoop n s key ideal probe = Some pos ->
  0 <= pos < capacity s /\ exists v p, view s pos = Some (key, v, p).
Proof.
  intros Hs. pose proof (shape_pos s Hs) as Hp. revert probe. induction n as [|n IH]; intros probe; [done|]. cbn [findLoop].
  rewrite land_mask by done. set (sl := slotAt s ((ideal + probe) mod capacity s)).
  destruct (occupied sl) eqn:Eo; cbn [negb]; [|done]. destruct (_ <? _); [done|]. case_decide as E; [|apply IH].
  intros [= <-]. split; [apply Z.mod_pos_bound; lia|]. exists (second sl), (probe_len sl).
  unfold view. rewrite Zmod_mod. fold sl. by rewrite Eo, E.
Qed.

Lemma findLoop_complete n s key v p i : rh s -> view s i = Some (key, v, p) ->
  forall probe, 0 <= probe <= p -> p - probe < Z.of_nat n ->
  findLoop n s key (hash_ key mod capacity s) probe = Some (i mod capacity s).
Proof.
  intros Hr Hv. pose proof (rh_shape s Hr) as Hs. pose proof (shape_pos s Hs) as Hc.
  destruct (rh_probe s Hr _ _ _ _ Hv) as [Hp Hi].
  induction n as [|n IH]; intros probe Hpr Hn; [lia|]. cbn [findLoop]. rewrite land_mask by done.
  rewrite Zplus_mod_idemp_l.
  assert ((hash_ key + probe) mod capacity s = (i - (p - probe)) mod capacity s) as Epos.
  { replace (hash_ key + probe) with (hash_ key + p - (p - probe)) by lia.
    rewrite Zminus_mod, Hi, <- Zminus_mod. done. }
  destruct (chain_back s i key v p (p - probe) Hr Hv) as (k' & v' & p' & Hv' & Hp'); [lia|].
  rewrite Epos. rewrite <- view_mod_id in Hv'. destruct (view_Some s _ _ _ _ Hv') as (Eo & Ef & _ & Ep).
  rewrite Eo, Ep. cbn [negb]. rewrite u32_small by lia. rewrite (proj2 (Z.ltb_ge _ _)) by lia.
  case_decide as E.
  - f_equal. rewrite view_mod_id in Hv'. assert (k' = key) as -> by congruence. by apply (rh_uniq s Hr _ _ _ _ _ _ _ Hv' Hv).
  - destruct (decide (p = probe)) as [->|Hne].
    + exfalso. apply E. rewrite Ef. replace (i - (probe - probe)) with i in Hv' by lia. rewrite view_mod_id, Hv in Hv'. congruence.
    + apply IH; lia.
Qed.

(** Lookup finds exactly the entries. *)
Lemma findLoop_spec s key : rh s ->
  match findLoop (length (slots_ s)) s key (hash_ key mod capacity s) 0 with
  | Some pos => 0 <= pos < capacity s /\ exists v p, view s pos = Some (key, v, p)
  | None => forall v, ~ holds s key v
  end.
Proof.
  intros Hr. destruct (findLoop _ _ _ _ _) as [pos|] eqn:E.
  - by eapply findLoop_sound; [apply Hr|].
  - intros v (i & p & Hv). destruct (rh_probe s Hr _ _ _ _ Hv) as [Hp _].
    rewrite (findLoop_complete (length (slots_ s)) s key v p i Hr Hv 0) in E; [done|lia|]. fold (capacity s). lia.
Qed.

(** ** Insertion *)

Lemma mod_pred_ne c i j : 1 < c -> i mod c = j mod c -> (i - 1) mod c <> j mod c.
Proof.
  intros Hc E E'. rewrite <- E in E'. assert ((i - (i - 1)) mod c = 0) as E1 by (rewrite Zminus_mod, E', Z.sub_diag; apply Z.mod_0_l; lia).
  replace (i - (i - 1)) with 1 in E1 by lia. rewrite Z.mod_small in E1; lia.
Qed.

(** What an entry carried to slot [q] with probe length [p] needs. *)
Definition carried (s : t) (q : Z) (ck : K) (p : Z) : Prop :=
  0 <= p < capacity s /\ (hash_ ck + p) mod capacity s = q mod capacity s /\
  (0 < p -> exists k v p', view s (q - 1) = Some (k, v, p') /\ p - 1 <= p').

Lemma view_put s q ck cv p j : shape s -> view (setSlot s (q mod capacity s) (mkSlot ck cv p true)) j =
  if decide (j mod capacity s = q mod capacity s) then Some (ck, cv, p) else view s j.
Proof. intros Hs. by rewrite view_setSlot. Qed.

(** The entry at [q] is replaced. *)
Lemma holds_put s q ck cv p k v : rh s ->
  holds (setSlot s (q mod capacity s) (mkSlot ck cv p true)) k v <->
  k = ck /\ v = cv \/ holds s k v /\ forall v' r, view s q <> Some (k, v', r).
Proof.
  intros Hr. pose proof (rh_shape s Hr) as Hs. split.
  - intros (j & r & Hj). rewrite view_put in Hj by done. case_decide as E; [injection Hj as -> -> ->; by left|].
    right. split; [by exists j, r|]. intros v' r' Hq. apply E. by apply (rh_uniq s Hr _ _ _ _ _ _ _ Hj Hq).
  - intros [[-> ->]|[(j & r & Hj) Hne]]; [exists q, p; by rewrite view_put, decide_True|]. exists j, r.
    rewrite view_put, decide_False; [done| |done]. intros E. rewrite (view_mod _ _ _ E) in Hj. by apply (Hne v r).
Qed.

Lemma rh_put s q ck cv p : rh s -> carried s q ck p -> (forall v, ~ holds s ck v) ->
  (forall k v r, view s q = Some (k, v, r) -> r < p) ->
  rh (setSlot s (q mod capacity s) (mkSlot ck cv p true)).
Proof.
  intros Hr (Hp & Hh & Hc) Hnew Hq. pose proof (rh_shape s Hr) as Hs. set (s' := setSlot _ _ _).
  assert (capacity s' = capacity s) as Ec by apply capacity_setSlot.
  assert (forall j, view s' j = if decide (j mod capacity s = q mod capacity s) then Some (ck, cv, p) else view s j) as Hv
    by (intros j; by apply view_setSlot).
  split; rewrite ?Ec.
  - by apply shape_setSlot.
  - intros i k v p'. rewrite Hv. case_decide as E; [|by apply (rh_probe s Hr)]. intros [= <- <- <-]. by rewrite E.
  - intros i j k v v' p1 p2. rewrite !Hv. case_decide as E1; case_decide as E2; [congruence|..|by apply (rh_uniq s Hr)].
    + intros [= <- <- <-] Hj. exfalso. apply (Hnew v'). by exists j, p2.
    + intros Hi [= <- <- <-]. exfalso. apply (Hnew v). by exists i, p1.
  - intros j k v r. rewrite Hv. case_decide as E.
    + intros [= <- <- <-] H0. destruct (Hc H0) as (k1 & v1 & p1 & H1 & Hle).
      exists k1, v1, p1. rewrite Hv, decide_False by (apply mod_pred_ne; [lia|done]). split; [|done].
      rewrite <- H1. apply view_mod. by rewrite Zminus_mod, E, <- Zminus_mod.
    + intros Hj H0. destruct (rh_chain s Hr _ _ _ _ Hj H0) as (k1 & v1 & p1 & H1 & Hle). rewrite Hv. case_decide as E'.
      * exists ck, cv, p. split; [done|]. rewrite (view_mod _ _ q E') in H1. specialize (Hq _ _ _ H1). lia.
      * by exists k1, v1, p1.
Qed.

(** Carried entries are nearer to their home than any empty slot ahead. *)
Lemma carried_bound s q p d : rh s -> 0 <= p -> (0 < p -> exists k v p', view s (q - 1) = Some (k, v, p') /\ p - 1 <= p') ->
  view s (q + d) = None -> 0 <= d < capacity s -> p + d < capacity s.
Proof.
  intros Hr Hp Hc He Hd. destruct (decide (p + d < capacity s)) as [|Hn]; [done|exfalso].
  destruct Hc as (k & v & p' & Hv & Hle); [lia|]. set (C := capacity s) in *.
  assert (1 <= C - d <= p) as Hr1 by lia.
  destruct (chain_back s (q - 1) k v p' (C - d - 1) Hr Hv) as (k1 & v1 & p1 & Hv1 & _); [lia|].
  assert (view s (q - 1 - (C - d - 1)) = view s (q + d)) as E; [|congruence].
  apply view_mod. fold C. replace (q - 1 - (C - d - 1)) with (q + d + (-1) * C) by lia. by rewrite Z.mod_add by lia.
Qed.

(** Where a held key is found. *)
Lemma find_holds s key : rh s -> 0 < size_ s -> (exists v, holds s key v) ->
  exists pos v p, find s key = Some pos /\ 0 <= pos < capacity s /\ view s pos = Some (key, v, p).
Proof.
  intros Hr Hsz [v Hh]. unfold find. rewrite (proj2 (Z.eqb_neq _ _)) by lia. rewrite land_hash by apply Hr.
  pose proof (findLoop_spec s key Hr) as Hf. destruct (findLoop _ _ _ _ _) as [pos|]; [|by apply Hf in Hh].
  destruct Hf as (Hp & v' & p & Hv). by exists pos, v', p.
Qed.

Lemma insertLoop_absent n s key upd ck cv q p d : rh s -> carried s q ck p -> (forall v, ~ holds s ck v) ->
  0 <= size_ s -> (key = ck \/ exists v, holds s key v) ->
  view s (q + d) = None -> 0 <= d -> p + d < capacity s -> d < Z.of_nat n ->
  exists s' pos v p', insertLoop n s key upd ck cv ((q - p) mod capacity s) p = Some (s', pos) /\
    rh s' /\ capacity s' = capacity s /\ size_ s' = size_ s + 1 /\
    (forall k v, holds s' k v <-> k = ck /\ v = cv \/ holds s k v) /\
    0 <= pos < capacity s' /\ view s' pos = Some (key, v, p').
Proof.
  revert s ck cv q p d. induction n as [|n IH]; intros s ck cv q p d Hr Hcar Hnew Hsz Hkey He Hd0 Hpd Hn; [lia|].
  pose proof (rh_shape s Hr) as Hs. pose proof (shape_pos s Hs) as Hcap. pose proof Hcar as (Hp & Hh & Hch).
  cbn [insertLoop]. rewrite land_mask by done.
  assert (((q - p) mod capacity s + p) mod capacity s = q mod capacity s) as -> by (rewrite Zplus_mod_idemp_l; f_equal; lia).
  set (pos := q mod capacity s). set (sl := slotAt s pos).
  assert (view s q = entry sl) as Hvq by done.
  destruct (occupied sl) eqn:Eo; cbn [negb]; unfold entry in Hvq; rewrite Eo in Hvq.
  - assert (0 < d) as Hd1 by (destruct (decide (d = 0)) as [->|]; [rewrite Z.add_0_r in He; congruence|lia]).
    rewrite decide_False by (intros E; apply (Hnew (second sl)); exists q, (probe_len sl); by rewrite Hvq, E).
    destruct (Z.ltb_spec (probe_len sl) p) as [Hlt|Hge].
    + set (s1 := setSlot s pos (mkSlot ck cv p true)).
      assert (rh s1) as Hr1 by (apply rh_put; [done..|]; intros k v r; rewrite Hvq; by intros [= <- <- <-]).
      assert (capacity s1 = capacity s) as Ec1 by apply capacity_setSlot.
      destruct (rh_probe s Hr _ _ _ _ Hvq) as [Hpr Hhr].
      assert (forall k v, holds s1 k v <-> k = ck /\ v = cv \/ holds s k v /\ k <> first sl) as Hho.
      { intros k v. unfold s1, pos. rewrite holds_put by done. rewrite Hvq. split; (intros [?|[? Hne]]; [by left|right; split; [done|]]).
        - intros ->. by apply (Hne (second sl) (probe_len sl)).
        - intros v' r [= E _ _]. congruence. }
      assert (first sl <> ck) as Hfc by (intros E; apply (Hnew (second sl)); exists q, (probe_len sl); by rewrite Hvq, E).
      rewrite (land_mask s1) by apply Hr1. rewrite Ec1.
      replace ((pos - probe_len sl + capacity s) mod capacity s) with ((q + 1 - (probe_len sl + 1)) mod capacity s1).
      2: { rewrite Ec1. unfold pos. replace (q mod capacity s - probe_len sl + capacity s) with (q mod capacity s - probe_len sl + 1 * capacity s) by lia.
        rewrite Z.mod_add by lia. rewrite Zminus_mod_idemp_l. f_equal. lia. }
      rewrite u32_small by lia.
      destruct (IH s1 (first sl) (second sl) (q + 1) (probe_len sl + 1) (d - 1)) as (s2 & pos2 & v2 & p2 & E2 & Hr2 & Ec2 & Hsz2 & Hho2 & Hpos2 & Hv2).
      * done.
      * split_and!; [lia|rewrite Ec1; lia| |].
        -- rewrite Ec1. rewrite Z.add_assoc. by rewrite Zplus_mod, Hhr, <- Zplus_mod.
        -- intros _. exists ck, cv, p. unfold s1, pos. rewrite view_put by done. replace (q + 1 - 1) with q by lia.
           rewrite decide_True by done. split; [done|lia].
      * intros v Hx. apply Hho in Hx as [[? _]|[_ ?]]; done.
      * done.
      * destruct Hkey as [->|[v Hv]]; [right; exists cv; apply Hho; by left|].
        destruct (decide (key = first sl)) as [->|Hne]; [by left|right]. exists v. apply Hho. by right.
      * unfold s1, pos. rewrite view_put by done. replace (q + 1 + (d - 1)) with (q + d) by lia. rewrite decide_False; [done|]. intros E.
        rewrite (view_mod _ _ _ E) in He. congruence.
      * lia.
      * lia.
      * lia.
      * exists s2, pos2, v2, p2. split; [exact E2|]. split_and!; [done|by rewrite Ec2|by rewrite Hsz2| |lia|lia|done].
        intros k v. rewrite Hho2, Hho. split; [|].
        -- intros [[-> ->]|[[-> ->]|[? _]]]; [right; by exists q, (probe_len sl)|by left|by right].
        -- intros [[-> ->]|Hx]; [right; by left|]. destruct (decide (k = first sl)) as [->|Hne]; [|right; by right].
           left. split; [done|]. destruct Hx as (j & r & Hj). pose proof (rh_uniq s Hr _ _ _ _ _ _ _ Hj Hvq) as E.
           rewrite (view_mod _ _ _ E), Hvq in Hj. congruence.
    + rewrite u32_small by lia. replace ((q - p) mod capacity s) with ((q + 1 - (p + 1)) mod capacity s) by (f_equal; lia).
      apply (IH s ck cv (q + 1) (p + 1) (d - 1)); try done; try lia.
      * split_and!; [lia|lia| |].
        -- rewrite Z.add_assoc. by rewrite Zplus_mod, Hh, <- Zplus_mod.
        -- intros _. exists (first sl), (second sl), (probe_len sl). replace (q + 1 - 1) with q by lia. split; [done|lia].
      * by replace (q + 1 + (d - 1)) with (q + d) by lia.
  - set (s1 := setSlot s pos (mkSlot ck cv p true)).
    assert (rh s1) as Hr1 by (apply rh_put; [done..|]; intros k v r; by rewrite Hvq).
    assert (capacity s1 = capacity s) as Ec1 by apply capacity_setSlot.
    assert (forall k v, holds s1 k v <-> k = ck /\ v = cv \/ holds s k v) as Hho.
    { intros k v. unfold s1, pos. rewrite holds_put by done. rewrite Hvq. naive_solver. }
    set (s2 := mk (slots_ s1) (size_ s1 + 1) (mask_ s1)). assert (rh s2) as Hr2 by (by destruct Hr1; split).
    destruct (find_holds s2 key Hr2) as (pos2 & v2 & p2 & Ef & Hpos2 & Hv2).
    { cbn. lia. }
    { destruct Hkey as [->|[v Hv]]; [exists cv|exists v]; apply Hho; [by left|by right]. }
    rewrite Ef. cbn [mbind option_bind]. by exists s2, pos2, v2, p2.
Qed.

(** Overwriting the value of an entry. *)
Lemma rh_value s q k v p cv : rh s -> view s q = Some (k, v, p) ->
  rh (setSlot s (q mod capacity s) (mkSlot k cv p true)) /\
  (forall k' v', holds (setSlot s (q mod capacity s) (mkSlot k cv p true)) k' v' <-> if decide (k' = k) then v' = cv else holds s k' v').
Proof.
  intros Hr Hq. pose proof (rh_shape s Hr) as Hs. set (s' := setSlot _ _ _).
  assert (capacity s' = capacity s) as Ec by apply capacity_setSlot.
  assert (forall j, view s' j = if decide (j mod capacity s = q mod capacity s) then Some (k, cv, p) else view s j) as Hv
    by (intros j; by apply view_put).
  assert (forall j k' p', (exists v', view s' j = Some (k', v', p')) <-> (exists v', view s j = Some (k', v', p'))) as Hkp.
  { intros j k' p'. rewrite Hv. case_decide as E; [|done]. rewrite (view_mod _ _ _ E), Hq. split; intros [v' [= -> _ ->]]; by eexists. }
  split.
  - split; rewrite ?Ec.
    + by apply shape_setSlot.
    + intros j k' v' p' Hj. destruct (proj1 (Hkp j k' p')) as [v1 H1]; [by eexists|]. by eapply (rh_probe s Hr).
    + intros j1 j2 k' v1 v2 p1 p2 H1 H2. destruct (proj1 (Hkp j1 k' p1)) as [v3 H3]; [by eexists|].
      destruct (proj1 (Hkp j2 k' p2)) as [v4 H4]; [by eexists|]. by apply (rh_uniq s Hr _ _ _ _ _ _ _ H3 H4).
    + intros j k' v' p' Hj H0. destruct (proj1 (Hkp j k' p')) as [v1 H1]; [by eexists|].
      destruct (rh_chain s Hr _ _ _ _ H1 H0) as (k2 & v2 & p2 & H2 & Hle). destruct (proj2 (Hkp (j - 1) k2 p2)) as [v3 H3]; [by eexists|].
      by exists k2, v3, p2.
  - intros k' v'. unfold holds. case_decide as E.
    + subst k'. split.
      * intros (j & r & Hj). rewrite Hv in Hj. case_decide as E; [congruence|]. exfalso. apply E. by apply (rh_uniq s Hr _ _ _ _ _ _ _ Hj Hq).
      * intros ->. exists q, p. by rewrite Hv, decide_True.
    + split; intros (j & r & Hj); exists j, r; [rewrite Hv in Hj; case_decide; congruence|].
      rewrite Hv, decide_False; [done|]. intros E'. rewrite (view_mod _ _ _ E'), Hq in Hj. congruence.
Qed.

Lemma insertLoop_present n s key upd cv i v p : rh s -> view s i = Some (key, v, p) ->
  forall probe, 0 <= probe <= p -> p - probe < Z.of_nat n ->
  insertLoop n s key upd key cv (hash_ key mod capacity s) probe =
  Some (if upd then setSlot s (i mod capacity s) (mkSlot key cv p true) else s, i mod capacity s).
Proof.
  intros Hr Hv. pose proof (rh_shape s Hr) as Hs. pose proof (shape_pos s Hs) as Hc.
  destruct (rh_probe s Hr _ _ _ _ Hv) as [Hp Hi].
  induction n as [|n IH]; intros probe Hpr Hn; [lia|]. cbn [insertLoop]. rewrite land_mask by done. rewrite Zplus_mod_idemp_l.
  assert ((hash_ key + probe) mod capacity s = (i - (p - probe)) mod capacity s) as ->.
  { replace (hash_ key + probe) with (hash_ key + p - (p - probe)) by lia. by rewrite Zminus_mod, Hi, <- Zminus_mod. }
  destruct (chain_back s i key v p (p - probe) Hr Hv) as (k' & v' & p' & Hv' & Hp'); [lia|].
  rewrite <- view_mod_id in Hv'. destruct (view_Some s _ _ _ _ Hv') as (Eo & Ef & _ & Ep).
  rewrite Eo, Ep. cbn [negb]. rewrite view_mod_id in Hv'. case_decide as E.
  - assert (k' = key) as -> by congruence. pose proof (rh_uniq s Hr _ _ _ _ _ _ _ Hv' Hv) as Epos. rewrite Epos in *.
    rewrite (view_mod _ _ _ Epos), Hv in Hv'. injection Hv' as <- <-. by rewrite E.
  - rewrite (proj2 (Z.ltb_ge _ _)) by lia. rewrite u32_small by lia. destruct (decide (p = probe)) as [->|Hne].
    + exfalso. apply E. rewrite Ef. replace (i - (probe - probe)) with i in Hv' by lia. congruence.
    + apply IH; lia.
Qed.

(** ** The table as a map *)

Lemma has_empty s m : models s m -> Z.of_nat (size m) < capacity s -> exists i, 0 <= i < capacity s /\ view s i = None.
Proof.
  intros Hm Hlt. pose proof (md_rh s m Hm) as Hr.
  destruct (decide (Forall (fun i => is_Some (view s i)) (seqZ 0 (capacity s)))) as [Hall|Hex].
  2: { apply not_Forall_Exists in Hex; [|apply _]. apply Exists_exists in Hex as (i & Hi%elem_of_seqZ & Hn).
    exists i. split; [lia|]. by apply eq_None_not_Some. }
  exfalso. rewrite Forall_forall in Hall.
  set (key := fun i => (default (default_key, default_value, 0) (view s i)).1.1).
  assert (forall i, 0 <= i < capacity s -> exists v p, view s i = Some (key i, v, p)) as Hk.
  { intros i Hi. destruct (Hall i) as [[[k v] p] E]; [apply elem_of_seqZ; lia|]. unfold key. rewrite E. by exists v, p. }
  assert (NoDup (key <$> seqZ 0 (capacity s))) as Hn.
  { apply NoDup_fmap_2_strong; [|apply NoDup_seqZ]. intros i j Hi%elem_of_seqZ Hj%elem_of_seqZ E.
    destruct (Hk i) as (v & p & H1); [lia|]. destruct (Hk j) as (v' & p' & H2); [lia|]. rewrite E in H1.
    pose proof (rh_uniq s Hr _ _ _ _ _ _ _ H1 H2) as Em. by rewrite !Z.mod_small in Em by lia. }
  assert ((list_to_set (key <$> seqZ 0 (capacity s)) : gset K) ⊆ dom m) as Hsub.
  { intros k (i & -> & Hi%elem_of_seqZ)%elem_of_list_to_set%list_elem_of_fmap. destruct (Hk i) as (v & p & Hv); [lia|].
    apply elem_of_dom. exists v. apply (md_map s m Hm). by exists i, p. }
  apply subseteq_size in Hsub. rewrite size_list_to_set, length_fmap, length_seqZ, size_dom in Hsub by done. lia.
Qed.

Lemma holds_absent s m k : models s m -> m !! k = None -> forall v, ~ holds s k v.
Proof. intros Hm Hk v Hv. apply (md_map s m Hm) in Hv. congruence. Qed.

(** [insert_or_assign] inserts absent keys, and updates present ones if asked
    to; the reference is to the key's entry. *)
Lemma insert_or_assign_spec s m key val upd : models s m -> Z.of_nat (size m) < capacity s ->
  exists s' pos p v, insert_or_assign s key val upd = Some (s', pos) /\ capacity s' = capacity s /\
    models s' (match m !! key with Some _ => if upd then <[key := val]> m else m | None => <[key := val]> m end) /\
    0 <= pos < capacity s' /\ view s' pos = Some (key, v, p).
Proof.
  intros Hm Hlt. pose proof (md_rh s m Hm) as Hr. pose proof (rh_shape s Hr) as Hs. pose proof (shape_pos s Hs) as Hc.
  unfold insert_or_assign. rewrite land_hash by done. destruct (m !! key) as [v|] eqn:Ek.
  - apply (md_map s m Hm) in Ek as Hh. destruct Hh as (i & p & Hv). destruct (rh_probe s Hr _ _ _ _ Hv) as [Hp _].
    rewrite (insertLoop_present _ s key upd val i v p Hr Hv 0) by (unfold capacity in *; lia).
    assert (0 <= i mod capacity s < capacity s) as Hpos by (apply Z.mod_pos_bound; lia).
    destruct upd; eexists _, _, p, _; (split; [done|]).
    + destruct (rh_value s i key v p val Hr Hv) as [Hr' Hh']. rewrite capacity_setSlot. split_and!; [done| |lia|lia|].
      * split; [done| |].
        -- cbn [setSlot size_]. rewrite (md_size s m Hm). by rewrite map_size_insert_Some by (by exists v).
        -- intros k' v'. rewrite Hh'. case_decide as E; [subst k'; rewrite lookup_insert_eq; naive_solver|].
           rewrite lookup_insert_ne by done. apply (md_map s m Hm).
      * rewrite view_put by done. by rewrite decide_True by (by rewrite Zmod_mod).
    + split_and!; [done|done|lia|lia|by rewrite view_mod_id].
  - pose proof (holds_absent s m key Hm Ek) as Habs. destruct (has_empty s m Hm Hlt) as (i & Hi & He).
    set (d := (i - hash_ key) mod capacity s). assert (0 <= d < capacity s) as Hd by (apply Z.mod_pos_bound; lia).
    destruct (insertLoop_absent (length (slots_ s)) s key upd key val (hash_ key) 0 d Hr) as (s' & pos & v & p & E & Hr' & Ec & Esz & Hh & Hpos & Hv).
    + split_and!; [lia|lia|by rewrite Z.add_0_r|lia].
    + done.
    + rewrite (md_size s m Hm). lia.
    + by left.
    + rewrite <- He. apply view_mod. unfold d. rewrite Zplus_mod_idemp_r. f_equal. lia.
    + lia.
    + lia.
    + fold (capacity s). lia.
    + rewrite Z.sub_0_r in E. exists s', pos, p, v. split_and!; [done|done| |lia|lia|done]. split; [done| |].
      * rewrite Esz, (md_size s m Hm). rewrite map_size_insert_None by done. lia.
      * intros k' v'. rewrite Hh. destruct (decide (k' = key)) as [->|Hne].
        -- rewrite lookup_insert_eq. split; [intros [= ->]; by left|]. intros [[_ ->]|Hx]; [done|]. by apply Habs in Hx.
        -- rewrite lookup_insert_ne by done. rewrite (md_map s m Hm). naive_solver.
Qed.


(** ** Deletion *)

(** The table without the slot before [q]. *)
Definition without (s : t) (q j : Z) : option (K * V * Z) :=
  if decide (j mod capacity s = (q - 1) mod capacity s) then None else view s j.

(** During the back-shift the slot before [q] is a hole; the entry at [q] may
    move into it. *)
Record holed (s : t) (q : Z) : Prop := mkHoled {
  ho_shape : shape s;
  ho_probe : forall i k v p, without s q i = Some (k, v, p) -> 0 <= p < capacity s /\ (hash_ k + p) mod capacity s = i mod capacity s;
  ho_uniq : forall i j k v v' p p', without s q i = Some (k, v, p) -> without s q j = Some (k, v', p') -> i mod capacity s = j mod capacity s;
  ho_chain : forall i k v p, without s q i = Some (k, v, p) -> 0 < p -> i mod capacity s <> q mod capacity s ->
    exists k' v' p', without s q (i - 1) = Some (k', v', p') /\ p - 1 <= p';
  ho_next : forall k v p, without s q q = Some (k, v, p) -> 1 < p ->
    exists k' v' p', without s q (q - 2) = Some (k', v', p') /\ p - 2 <= p';
}.

Lemma mod_shift c i j n : i mod c = j mod c <-> (i + n) mod c = (j + n) mod c.
Proof.
  split; intros E; [by rewrite Zplus_mod, E, <- Zplus_mod|].
  replace i with (i + n - n) by lia. replace j with (j + n - n) by lia. by rewrite Zminus_mod, E, <- Zminus_mod.
Qed.

Lemma mod_near c i n : 0 < n < c -> (i + n) mod c <> i mod c.
Proof.
  intros Hn E. assert ((i + n - i) mod c = 0) as E1 by (rewrite Zminus_mod, E, Z.sub_diag; apply Z.mod_0_l; lia).
  replace (i + n - i) with n in E1 by lia. rewrite Z.mod_small in E1; lia.
Qed.

Lemma without_succ s q j : without s (q + 1) j = if decide (j mod capacity s = q mod capacity s) then None else view s j.
Proof. unfold without. by replace (q + 1 - 1) with q by lia. Qed.

Lemma rh_holed s q k v p : rh s -> view s q = Some (k, v, p) -> holed s (q + 1) /\
  forall k' v', (exists i p', without s (q + 1) i = Some (k', v', p')) <-> holds s k' v' /\ k' <> k.
Proof.
  intros Hr Hq. pose proof (rh_shape s Hr) as Hs. split; [split|].
  - done.
  - intros i k' v' p'. rewrite without_succ. case_decide; [done|]. apply (rh_probe s Hr).
  - intros i j k' v1 v2 p1 p2. rewrite !without_succ. case_decide; [done|]. case_decide; [done|]. apply (rh_uniq s Hr).
  - intros i k' v' p'. rewrite !without_succ. case_decide as E; [done|]. intros Hi H0 Hne.
    destruct (rh_chain s Hr _ _ _ _ Hi H0) as (k1 & v1 & p1 & H1 & Hle). exists k1, v1, p1. rewrite decide_False; [done|].
    intros E'. apply Hne. replace i with (i - 1 + 1) by lia. by apply mod_shift.
  - intros k' v' p'. rewrite !without_succ. case_decide as E; [done|]. intros Hi H1.
    destruct (rh_probe s Hr _ _ _ _ Hi) as [Hp' _].
    destruct (chain_back s (q + 1) k' v' p' 2 Hr Hi) as (k1 & v1 & p1 & Hv1 & Hle); [lia|]. exists k1, v1, p1.
    split; [|lia]. rewrite decide_False; [done|]. replace (q + 1 - 2) with (q - 1) by lia. intros E'.
    apply (mod_near (capacity s) (q - 1) 1); [lia|]. by replace (q - 1 + 1) with q by lia.
  - intros k' v'. split.
    + intros (i & p' & Hi). rewrite without_succ in Hi. case_decide as E; [done|]. split; [by exists i, p'|]. intros ->. apply E.
      by apply (rh_uniq s Hr _ _ _ _ _ _ _ Hi Hq).
    + intros [(i & p' & Hi) Hne]. exists i, p'. rewrite without_succ, decide_False; [done|].
      intros E. rewrite (view_mod _ _ _ E), Hq in Hi. congruence.
Qed.

Lemma entry_vacate sl : entry (vacate sl) = None.
Proof. done. Qed.

(** One step of the back-shift. *)
Definition shifted (s : t) (q : Z) (k : K) (v : V) (p : Z) : t :=
  let s1 := setSlot s ((q - 1) mod capacity s) (mkSlot k v p true) in
  setSlot s1 (q mod capacity s) (vacate (slotAt s1 (q mod capacity s))).

Lemma view_shifted s q k v p j : shape s -> view (shifted s q k v p) j =
  if decide (j mod capacity s = q mod capacity s) then None
  else if decide (j mod capacity s = (q - 1) mod capacity s) then Some (k, v, p) else view s j.
Proof.
  intros Hs. unfold shifted. set (s1 := setSlot s _ _). assert (capacity s1 = capacity s) as Ec by apply capacity_setSlot.
  rewrite <- Ec at 1. rewrite view_setSlot by (by apply shape_setSlot). rewrite Ec, entry_vacate. case_decide; [done|].
  unfold s1. by apply view_put.
Qed.

Lemma capacity_shifted s q k v p : capacity (shifted s q k v p) = capacity s.
Proof. unfold shifted. by rewrite !capacity_setSlot. Qed.

Lemma holed_shift s q k v p : holed s q -> view s q = Some (k, v, p) -> 0 < p -> 1 < capacity s ->
  holed (shifted s q k v (p - 1)) (q + 1) /\
  forall k' v', (exists i p', without (shifted s q k v (p - 1)) (q + 1) i = Some (k', v', p')) <->
    (exists i p', without s q i = Some (k', v', p')).
Proof.
  intros Hh Hq Hp Hc1. pose proof (ho_shape s q Hh) as Hs. set (s2 := shifted s q k v (p - 1)). set (C := capacity s) in *.
  assert (capacity s2 = C) as Ec by apply capacity_shifted.
  assert (forall j, without s2 (q + 1) j = if decide (j mod C = q mod C) then None
    else if decide (j mod C = (q - 1) mod C) then Some (k, v, p - 1) else without s q j) as Hw.
  { intros j. rewrite without_succ, Ec. case_decide as E; [done|].
    unfold s2. rewrite view_shifted by done. fold C. rewrite decide_False by done. case_decide as E2; [done|].
    unfold without. fold C. by rewrite decide_False. }
  assert (q mod C <> (q - 1) mod C) as Hqq by (intros E; apply (mod_near C (q - 1) 1); [lia|]; by replace (q - 1 + 1) with q by lia).
  assert (without s q q = Some (k, v, p)) as Hwq by (unfold without; fold C; by rewrite decide_False).
  destruct (ho_probe s q Hh _ _ _ _ Hwq) as [Hpc Hpm]. fold C in Hpc, Hpm. split; [split|].
  - unfold s2, shifted. by repeat apply shape_setSlot.
  - intros i k' v' p'. rewrite Hw, Ec. case_decide; [done|]. case_decide as E; [|apply (ho_probe s q Hh)].
    intros [= <- <- <-]. split; [lia|]. rewrite E. replace (hash_ k + (p - 1)) with (hash_ k + p - 1) by lia.
    by rewrite Zminus_mod, Hpm, <- Zminus_mod.
  - intros i j k' v1 v2 p1 p2. rewrite !Hw, Ec. case_decide; [done|]. case_decide as Ei; (case_decide as Ej0; [done|]); case_decide as Ej.
    + congruence.
    + intros [= <- <- <-] Hj. exfalso. apply Ej0. apply (ho_uniq s q Hh _ _ _ _ _ _ _ Hj Hwq).
    + intros Hi [= <- <- <-]. exfalso. pose proof (ho_uniq s q Hh _ _ _ _ _ _ _ Hi Hwq). done.
    + apply (ho_uniq s q Hh).
  - intros i k' v' p'. rewrite Ec, !Hw. case_decide as E1; [done|]. intros Hi H0 Hne.
    rewrite (decide_False (P := (i - 1) mod C = q mod C)).
    2: { intros E. apply Hne. replace i with (i - 1 + 1) by lia. by apply mod_shift. }
    case_decide as E2.
    + injection Hi as <- <- <-. destruct (ho_next s q Hh k v p Hwq) as (k1 & v1 & p1 & H1 & Hle); [lia|].
      assert ((i - 1) mod C = (q - 2) mod C) as E3 by (replace (q - 2) with (q - 1 + -1) by lia; by apply (mod_shift C i (q - 1) (-1))).
      rewrite decide_False.
      2: { rewrite E3. intros E. apply (mod_near C (q - 2) 1); [lia|]. by replace (q - 2 + 1) with (q - 1) by lia. }
      exists k1, v1, p1. split; [|lia]. rewrite <- H1. unfold without. fold C. rewrite E3. by rewrite (view_mod _ _ _ E3).
    + destruct (ho_chain s q Hh _ _ _ _ Hi H0 E1) as (k1 & v1 & p1 & H1 & Hle). exists k1, v1, p1. split; [|done].
      rewrite decide_False; [done|]. intros E. apply E1. by apply (mod_shift C i q (-1)).
  - intros k' v' p'. rewrite Hw. rewrite decide_False by (apply mod_near; lia). replace (q + 1 - 2) with (q - 1) by lia.
    rewrite Hw. rewrite (decide_False (P := (q - 1) mod C = q mod C)) by congruence. rewrite (decide_True (P := (q - 1) mod C = (q - 1) mod C)) by done.
    case_decide as E.
    + intros [= <- <- <-] H1. exfalso. apply (mod_near C (q - 1) 2); [lia|]. by replace (q - 1 + 2) with (q + 1) by lia.
    + intros Hi H1. assert ((q + 1) mod C <> q mod C) as Hn by (apply mod_near; lia).
      destruct (ho_chain s q Hh _ _ _ _ Hi ltac:(lia) Hn) as (k1 & v1 & p1 & Hc & Hle).
      replace (q + 1 - 1) with q in Hc by lia. rewrite Hwq in Hc. injection Hc as <- <- <-. exists k, v, (p - 1). split; [done|lia].
  - intros k' v'. split; intros (i & p' & Hi).
    + rewrite Hw in Hi. case_decide; [done|]. case_decide; [|by exists i, p']. injection Hi as <- <- <-. by exists q, p.
    + destruct (decide (i mod C = q mod C)) as [E|E].
      * assert (without s q i = without s q q) as Ew by (unfold without; fold C; rewrite E; by rewrite (view_mod _ _ _ E)).
        rewrite Ew, Hwq in Hi. injection Hi as <- <- <-. exists (q - 1), (p - 1). rewrite Hw, decide_False by congruence. by rewrite decide_True.
      * exists i, p'. rewrite Hw, decide_False by done. rewrite decide_False; [done|]. intros E'. unfold without in Hi. fold C in Hi.
        by rewrite decide_True in Hi.
Qed.

(** Closing the hole. *)
Lemma holed_close s q : holed s q -> (forall k v p, view s q = Some (k, v, p) -> p = 0) ->
  let s' := setSlot s ((q - 1) mod capacity s) (vacate (slotAt s ((q - 1) mod capacity s))) in
  rh s' /\ forall k v, holds s' k v <-> exists i p, without s q i = Some (k, v, p).
Proof.
  intros Hh Hq s'. pose proof (ho_shape s q Hh) as Hs. assert (capacity s' = capacity s) as Ec by apply capacity_setSlot.
  assert (forall j, view s' j = without s q j) as Hw.
  { intros j. unfold s', without. rewrite view_setSlot by done. done. }
  split; [|intros k v; unfold holds; by setoid_rewrite Hw]. split; rewrite ?Ec.
  - by apply shape_setSlot.
  - intros i k v p. rewrite Hw. apply (ho_probe s q Hh).
  - intros i j k v v' p p'. rewrite !Hw. apply (ho_uniq s q Hh).
  - intros i k v p. rewrite !Hw. intros Hi H0. destruct (decide (i mod capacity s = q mod capacity s)) as [E|E].
    + exfalso. unfold without in Hi. case_decide; [done|]. rewrite (view_mod _ _ _ E) in Hi. apply Hq in Hi. lia.
    + by apply (ho_chain s q Hh i k v p).
Qed.

(** The back-shift ends before an empty slot [d] ahead. *)
Lemma backShift_spec n s del i d : holed s (del + i) -> 0 <= d < Z.of_nat n -> view s (del + i + d) = None ->
  (del + i + d) mod capacity s <> (del + i - 1) mod capacity s ->
  exists s', backShift n s del i = Some s' /\ rh s' /\ capacity s' = capacity s /\ size_ s' = size_ s /\
    forall k v, holds s' k v <-> exists j p, without s (del + i) j = Some (k, v, p).
Proof.
  revert s i d. induction n as [|n IH]; intros s i d Hh Hd He Hne; [lia|].
  pose proof (ho_shape s _ Hh) as Hs. pose proof (shape_pos s Hs) as Hc. cbn [backShift]. rewrite !land_mask by done.
  set (q := del + i) in *. replace (del + (i + 1)) with (q + 1) by lia. set (sl := slotAt s (q mod capacity s)).
  assert (view s q = entry sl) as Hv by done. unfold entry in Hv.
  assert (1 < capacity s) as Hc1.
  { destruct (decide (1 < capacity s)) as [|]; [done|]. exfalso. apply Hne. assert (capacity s = 1) as -> by lia. by rewrite !Z.mod_1_r. }
  destruct (occupied sl) eqn:Eo; cbn [negb orb].
  2: { destruct (holed_close s q Hh) as [Hr Hho]; [intros k v p; by rewrite Hv|]. eexists. split; [done|].
       split_and!; [exact Hr|apply capacity_setSlot|done|exact Hho]. }
  destruct (Z.eqb_spec (probe_len sl) 0) as [Ez|Ez].
  { destruct (holed_close s q Hh) as [Hr Hho]; [intros k v p; rewrite Hv; by intros [= _ _ <-]|]. eexists. split; [done|].
    split_and!; [exact Hr|apply capacity_setSlot|done|exact Hho]. }
  assert (without s q q = view s q) as Hwq.
  { unfold without. rewrite decide_False; [done|]. intros E. apply (mod_near (capacity s) (q - 1) 1); [lia|]. by replace (q - 1 + 1) with q by lia. }
  pose proof Hwq as Hwq'. rewrite Hv in Hwq'. destruct (ho_probe s q Hh _ _ _ _ Hwq') as [Hp _].
  rewrite u32_small by lia. cbn [setSlot mask_]. fold (setSlot s ((q - 1) mod capacity s) (mkSlot (first sl) (second sl) (probe_len sl - 1) true)).
  destruct (holed_shift s q (first sl) (second sl) (probe_len sl) Hh Hv ltac:(lia) Hc1) as [Hh2 Hho2].
  fold (shifted s q (first sl) (second sl) (probe_len sl - 1)). set (s2 := shifted s q (first sl) (second sl) (probe_len sl - 1)) in *.
  assert (capacity s2 = capacity s) as Ec by apply capacity_shifted.
  assert ((q + d) mod capacity s <> q mod capacity s) as Hqd.
  { intros E. rewrite (view_mod _ _ _ E), Hv in He. done. }
  assert (0 < d) as Hd0 by (destruct (decide (d = 0)) as [->|]; [by rewrite Z.add_0_r in Hqd|lia]).
  destruct (IH s2 (i + 1) (d - 1)) as (s' & E & Hr & Ec' & Esz & Hho).
  - by replace (del + (i + 1)) with (q + 1) by lia.
  - lia.
  - replace (del + (i + 1) + (d - 1)) with (q + d) by lia. unfold s2. rewrite view_shifted by done.
    by rewrite !decide_False.
  - replace (del + (i + 1) + (d - 1)) with (q + d) by lia. replace (del + (i + 1) - 1) with q by lia. by rewrite Ec.
  - exists s'. replace (del + (i + 1)) with (q + 1) in Hho by lia. split; [|split_and!; [done|by rewrite Ec'|by rewrite Esz|]].
    + rewrite <- E. done.
    + intros k v. rewrite Hho. apply Hho2.
Qed.

Lemma erase_spec s m key : models s m -> Z.of_nat (size m) < capacity s ->
  exists s', erase s key = Some (s', bool_decide (is_Some (m !! key))) /\ models s' (delete key m) /\ capacity s' = capacity s.
Proof.
  intros Hm Hlt. pose proof (md_rh s m Hm) as Hr. pose proof (rh_shape s Hr) as Hs. pose proof (shape_pos s Hs) as Hc. unfold erase.
  assert (forall k, m !! k = None -> models s (delete k m)) as Hdel by (intros k Hk; by rewrite delete_id).
  rewrite (md_size s m Hm). destruct (Z.eqb_spec (Z.of_nat (size m)) 0) as [E|E].
  { assert (m = ∅) as -> by (apply map_size_empty_inv; lia). rewrite lookup_empty. exists s. by rewrite delete_empty. }
  rewrite land_hash by done. pose proof (findLoop_spec s key Hr) as Hf. destruct (findLoop _ _ _ _ _) as [pos|].
  2: { destruct (m !! key) as [v|] eqn:Ek; [apply (md_map s m Hm) in Ek; by apply Hf in Ek|]. exists s. by rewrite delete_id. }
  destruct Hf as (Hpos & v & p & Hv). assert (m !! key = Some v) as Ek by (apply (md_map s m Hm); by exists pos, p).
  destruct (rh_holed s pos key v p Hr Hv) as [Hh Hho]. destruct (has_empty s m Hm Hlt) as (e & He & Hve).
  set (d := (e - (pos + 1)) mod capacity s). assert (0 <= d < capacity s) as Hd by (apply Z.mod_pos_bound; lia).
  assert ((pos + 1 + d) mod capacity s = e mod capacity s) as Ee by (unfold d; rewrite Zplus_mod_idemp_r; f_equal; lia).
  destruct (backShift_spec (length (slots_ s)) s pos 1 d Hh) as (s' & E' & Hr' & Ec' & Esz' & Hho').
  - fold (capacity s). lia.
  - rewrite <- Hve. by apply view_mod.
  - rewrite Ee. replace (pos + 1 - 1) with pos by lia. intros Em. rewrite (view_mod _ _ _ Em), Hv in Hve. done.
  - rewrite E'. cbn [mbind option_bind]. rewrite Ek. eexists. split; [done|]. split; [|done]. split.
    + by destruct Hr'; split.
    + cbn. rewrite Esz', (md_size s m Hm). rewrite map_size_delete_Some by (by exists v). lia.
    + intros k' v'. change (delete key m !! k' = Some v' <-> holds s' k' v'). rewrite Hho', Hho, <- (md_map s m Hm), lookup_delete_Some. naive_solver.
Qed.

(** ** Growth *)

Lemma slotAt_index s n sl : slots_ s !! n = Some sl -> view s (Z.of_nat n) = entry sl.
Proof.
  intros Hn. pose proof (lookup_lt_Some _ _ _ Hn). unfold view. rewrite Z.mod_small by (unfold capacity; lia).
  unfold slotAt. by rewrite Nat2Z.id, Hn.
Qed.

Definition entries (l : list Slot) (m : gmap K V) : gmap K V :=
  foldl (fun m sl => if occupied sl then <[first sl := second sl]> m else m) m l.

Lemma entries_lookup l m k v :
  (forall i j a b, l !! i = Some a -> l !! j = Some b -> occupied a = true -> occupied b = true -> first a = first b -> i = j) ->
  (forall sl, sl ∈ l -> occupied sl = true -> m !! first sl = None) ->
  entries l m !! k = Some v <-> m !! k = Some v \/ exists sl, sl ∈ l /\ occupied sl = true /\ first sl = k /\ second sl = v.
Proof.
  unfold entries. revert m. induction l as [|sl l IH]; intros m Hu Hm; cbn [foldl].
  { split; [by left|]. intros [?|(sl & Hsl & _)]; [done|by apply not_elem_of_nil in Hsl]. }
  assert (forall i j a b, l !! i = Some a -> l !! j = Some b -> occupied a = true -> occupied b = true -> first a = first b -> i = j) as Hu'.
  { intros i j a b Hi Hj Ha Hb E. assert (S i = S j); [|lia]. by apply (Hu (S i) (S j) a b). }
  destruct (occupied sl) eqn:Eo.
  - rewrite IH; [|done|].
    + split.
      * intros [Hk|(sl' & Hsl & ?)]; [|right; exists sl'; split; [by right|done]].
        apply lookup_insert_Some in Hk as [[<- <-]|[_ Hk]]; [|by left]. right. exists sl. split; [left|done].
      * intros [Hk|(sl' & [->|Hsl]%elem_of_cons & Ho & Ef & Es)]; [|left; by rewrite Ef, Es, lookup_insert_eq|right; by exists sl'].
        left. rewrite lookup_insert_ne; [done|]. intros E. rewrite <- E, Hm in Hk; [done|left|done].
    + intros sl' Hsl Ho. rewrite lookup_insert_ne; [apply Hm; [by right|done]|]. intros E.
      apply list_elem_of_lookup in Hsl as [j Hj]. by pose proof (Hu O (S j) sl sl' eq_refl Hj Eo Ho E).
  - rewrite IH; [|done|intros sl' Hsl Ho; apply Hm; [by right|done]]. split.
    + intros [?|(sl' & Hsl & ?)]; [by left|right]. exists sl'. split; [by right|done].
    + intros [?|(sl' & [->|Hsl]%elem_of_cons & Ho & ?)]; [by left|congruence|right; by exists sl'].
Qed.

Lemma entries_models s m : models s m -> entries (slots_ s) ∅ = m.
Proof.
  intros Hm. pose proof (md_rh s m Hm) as Hr. apply map_eq. intros k. apply option_eq. intros v.
  rewrite entries_lookup; [|..|by intros; apply lookup_empty].
  - rewrite lookup_empty, (md_map s m Hm). split.
    + intros [?|(sl & Hsl & Ho & Ef & Es)]; [done|]. apply list_elem_of_lookup in Hsl as [n Hn].
      exists (Z.of_nat n), (probe_len sl). rewrite (slotAt_index s n sl Hn). unfold entry. by rewrite Ho, Ef, Es.
    + intros (i & p & Hv). right. rewrite <- view_mod_id in Hv. destruct (view_Some s _ _ _ _ Hv) as (Ho & Ef & Es & _).
      exists (slotAt s (i mod capacity s)). split_and!; [|done..]. pose proof (shape_pos s (rh_shape s Hr)) as Hc.
      pose proof (Z.mod_pos_bound i (capacity s)) as Hb. unfold slotAt.
      destruct (slots_ s !! Z.to_nat (i mod capacity s)) as [sl|] eqn:E; [by eapply list_elem_of_lookup_2|].
      apply lookup_ge_None in E. unfold capacity in *. lia.
  - intros i j a b Hi Hj Ha Hb E. apply slotAt_index in Hi as Vi, Hj as Vj. unfold entry in Vi, Vj. rewrite Ha in Vi. rewrite Hb in Vj.
    rewrite E in Vi. pose proof (rh_uniq s Hr _ _ _ _ _ _ _ Vi Vj) as Em. apply lookup_lt_Some in Hi, Hj.
    rewrite !Z.mod_small in Em by (unfold capacity; lia). lia.
Qed.

Lemma view_fresh n i : view (mk (replicate n emptySlot) 0 (Z.of_nat n - 1)) i = None.
Proof.
  unfold view, slotAt. cbn [slots_]. destruct (replicate n emptySlot !! _) as [sl|] eqn:E; [|done].
  apply lookup_replicate in E as [-> _]. done.
Qed.

Lemma fresh_models n k : 0 <= k <= 31 -> Z.of_nat n = 2 ^ k -> models (mk (replicate n emptySlot) 0 (Z.of_nat n - 1)) ∅.
Proof.
  intros Hk Hn. set (s := mk _ _ _). split; [split|done|].
  - exists k. unfold capacity. cbn. rewrite length_replicate. by rewrite Hn.
  - intros i k' v p. unfold s. by rewrite view_fresh.
  - intros i j k' v v' p p'. unfold s. by rewrite view_fresh.
  - intros i k' v p. unfold s. by rewrite view_fresh.
  - intros k' v. rewrite lookup_empty. split; [done|]. intros (i & p & Hv). unfold s in Hv. by rewrite view_fresh in Hv.
Qed.

Lemma reinsert_spec old s m : models s m -> Z.of_nat (size m) + Z.of_nat (length old) <= capacity s ->
  exists s', reinsert old s = Some s' /\ models s' (entries old m) /\ capacity s' = capacity s.
Proof.
  revert s m. induction old as [|sl old IH]; intros s m Hm Hsz; cbn [reinsert]; [by exists s|]. cbn [length] in Hsz.
  unfold entries. cbn [foldl]. fold (entries old). destruct (occupied sl); [|apply IH; [done|lia]].
  destruct (insert_or_assign_spec s m (first sl) (second sl) true Hm) as (s1 & pos & p & v & E & Ec & Hm1 & _); [lia|].
  rewrite E. cbn [mbind option_bind]. destruct (IH s1 (<[first sl := second sl]> m)) as (s' & E' & Hm' & Ec').
  - by destruct (m !! first sl).
  - rewrite Ec. destruct (m !! first sl) as [w|] eqn:Ef.
    + rewrite map_size_insert_Some by (by exists w). lia.
    + rewrite map_size_insert_None by done. lia.
  - exists s'. by rewrite Ec', Ec.
Qed.

Lemma resize_spec s m : models s m -> capacity s <= 2 ^ 30 ->
  exists s', resize s (capacity s * 2) = Some s' /\ models s' m /\ capacity s' = capacity s * 2.
Proof.
  intros Hm Hc. pose proof (rh_shape s (md_rh s m Hm)) as Hs. pose proof (shape_pos s Hs) as Hp. unfold resize.
  destruct Hs as (k & Hk & Ec & _). set (n := Z.to_nat (capacity s * 2)).
  assert (Z.of_nat n = capacity s * 2) as Hn by (unfold n; lia).
  assert (Z.of_nat n = 2 ^ (k + 1)) as Hn2 by (rewrite Z.pow_add_r by lia; lia).
  assert (k <= 30) as Hk30.
  { destruct (decide (k <= 30)); [done|]. assert (2 ^ 31 <= 2 ^ k) by (apply Z.pow_le_mono_r; lia). lia. }
  rewrite <- Hn. destruct (reinsert_spec (slots_ s) _ ∅ (fresh_models n (k + 1) ltac:(lia) Hn2)) as (s' & E & Hm' & Ec').
  - unfold capacity in *. cbn [slots_]. rewrite length_replicate, map_size_empty. lia.
  - exists s'. rewrite (entries_models s m Hm) in Hm'. split; [done|]. split; [done|]. rewrite Ec'. unfold capacity at 1. cbn [slots_].
    by rewrite length_replicate.
Qed.

(** [operator[]] on any table that can still grow. *)
Lemma index_spec s m key : models s m -> 4 <= capacity s -> 4 * Z.of_nat (size m) <= 3 * capacity s ->
  (capacity s <= 2 ^ 30 \/ Z.of_nat (size m) + 1 <= capacity s * 3 / 4) ->
  let m' := match m !! key with Some _ => m | None => <[key := default_value]> m end in
  exists s' pos p v, index s key = Some (s', pos) /\ models s' m' /\ 4 * Z.of_nat (size m') <= 3 * capacity s' /\
    (capacity s' = capacity s \/ capacity s' = 2 * capacity s /\ 3 * capacity s < 4 * (Z.of_nat (size m) + 1)) /\
    0 <= pos < capacity s' /\ view s' pos = Some (key, v, p).
Proof.
  intros Hm Hc4 Hload Hcap m'. unfold index.
  assert (exists s1, maybe_rehash s = Some s1 /\ models s1 m /\ 4 * (Z.of_nat (size m) + 1) <= 3 * capacity s1 /\
    (capacity s1 = capacity s \/ capacity s1 = 2 * capacity s /\ 3 * capacity s < 4 * (Z.of_nat (size m) + 1))) as (s1 & E1 & Hm1 & Hl1 & Hc1).
  { pose proof (Z.div_mod (capacity s * 3) 4 ltac:(lia)). pose proof (Z.mod_pos_bound (capacity s * 3) 4 ltac:(lia)).
    unfold maybe_rehash. rewrite (md_size s m Hm). destruct (Z.ltb_spec (capacity s * 3 / 4) (Z.of_nat (size m) + 1)) as [Hlt|Hge].
    - destruct (resize_spec s m Hm) as (s1 & E & Hm1 & Ec); [lia|]. exists s1. split_and!; [done|done|lia|]. right. lia.
    - exists s. split_and!; [done|done|lia|by left]. }
  rewrite E1. cbn [mbind option_bind].
  destruct (insert_or_assign_spec s1 m key default_value false Hm1) as (s' & pos & p & v & E & Ec & Hm' & Hpos & Hv); [lia|].
  exists s', pos, p, v. split_and!; [done|by unfold m'; destruct (m !! key)| |by rewrite Ec|lia|lia|done].
  rewrite Ec. unfold m'. destruct (m !! key) as [w|] eqn:Ek; [lia|]. rewrite map_size_insert_None by done. lia.
Qed.

(** ** Runs *)

Lemma clear_models s m : models s m -> models (clear s) ∅ /\ capacity (clear s) = capacity s.
Proof.
  intros Hm. pose proof (md_rh s m Hm) as Hr. assert (capacity (clear s) = capacity s) as Ec by (unfold capacity; cbn; by rewrite length_fmap).
  assert (forall i, view (clear s) i = None) as Hv.
  { intros i. unfold view, slotAt. cbn [clear slots_]. rewrite list_lookup_fmap. by destruct (slots_ s !! _). }
  split; [|done]. split; [split|done|].
  - destruct (rh_shape s Hr) as (k & ? & ? & ?). exists k. by rewrite Ec.
  - intros i k v p. by rewrite Hv.
  - intros i j k v v' p p'. by rewrite Hv.
  - intros i k v p. by rewrite Hv.
  - intros k v. rewrite lookup_empty. split; [done|]. intros (i & p & Hi). by rewrite Hv in Hi.
Qed.

Lemma find_spec s m key : models s m -> (pos ← find s key; Some (second (slotAt s pos))) = m !! key /\
  count s key = if m !! key is Some _ then 1 else 0.
Proof.
  intros Hm. pose proof (md_rh s m Hm) as Hr. pose proof (shape_pos s (rh_shape s Hr)) as Hc.
  unfold count, find. rewrite (md_size s m Hm). destruct (Z.eqb_spec (Z.of_nat (size m)) 0) as [E|E].
  { assert (m = ∅) as -> by (apply map_size_empty_inv; lia). by rewrite lookup_empty. }
  rewrite land_hash by apply Hr. pose proof (findLoop_spec s key Hr) as Hf. destruct (findLoop _ _ _ _ _) as [pos|].
  - destruct Hf as (Hpos & v & p & Hv). assert (m !! key = Some v) as -> by (apply (md_map s m Hm); by exists pos, p).
    split; [|done]. rewrite <- view_mod_id in Hv. destruct (view_Some s _ _ _ _ Hv) as (_ & _ & Es & _).
    rewrite Z.mod_small in Es by lia. cbn. by rewrite Es.
  - destruct (m !! key) as [v|] eqn:Ek; [|done]. apply (md_map s m Hm) in Ek. by apply Hf in Ek.
Qed.

(** States after [n] operations. *)
Record good (n : Z) (s : t) (m : gmap K V) : Prop := mkGood {
  gd_models : models s m;
  gd_load : 4 * Z.of_nat (size m) <= 3 * capacity s;
  gd_size : Z.of_nat (size m) <= n;
  gd_cap : kInitialCap <= capacity s /\ (capacity s = kInitialCap \/ 3 * capacity s < 8 * (n + 1));
}.

Lemma create_good : good 0 create ∅.
Proof.
  split; [|done|done|].
  - apply (fresh_models 16 4); [lia|done].
  - unfold create, capacity. cbn [slots_]. rewrite length_replicate. unfold kInitialCap. lia.
Qed.

Lemma index_good n s m key : good n s m -> 0 <= n < 2 ^ 28 ->
  let m' := match m !! key with Some _ => m | None => <[key := default_value]> m end in
  exists s' pos p v, index s key = Some (s', pos) /\ good (n + 1) s' m' /\ 0 <= pos < capacity s' /\ view s' pos = Some (key, v, p) /\
    m' !! key = Some v.
Proof.
  intros [Hm Hl Hsz [Hc1 Hc2]] Hn m'. unfold kInitialCap in *.
  destruct (index_spec s m key Hm ltac:(lia) Hl ltac:(lia)) as (s' & pos & p & v & E & Hm' & Hl' & Hc' & Hpos & Hv). fold m' in Hm', Hl'.
  exists s', pos, p, v. split; [done|]. split; [|split; [done|split; [done|apply (md_map s' m' Hm'); by exists pos, p]]].
  split; [done|done| |].
  - unfold m'. destruct (m !! key) eqn:Ek; [lia|]. rewrite map_size_insert_None by done. lia.
  - unfold kInitialCap. destruct Hc' as [->|[-> Hc']]; lia.
Qed.

Lemma good_step n s m : good n s m -> good (n + 1) s m.
Proof. intros [Hm Hl Hsz [Hc1 Hc2]]. split; [done|done|lia|lia]. Qed.

Lemma exec_spec n s m o : good n s m -> 0 <= n < 2 ^ 28 ->
  exists s', exec s o = Some (s', (spec m o).2) /\ good (n + 1) s' (spec m o).1.
Proof.
  intros Hg Hn. pose proof Hg as [Hm Hl Hsz Hcap]. destruct o as [k v|k|k|k|k|]; cbn [exec spec].
  - destruct (index_good n s m k Hg Hn) as (s1 & pos & p & w & E & [Hm1 Hl1 Hsz1 Hc1] & Hpos & Hv & Ew). unfold assign. rewrite E.
    cbn [mbind option_bind fst snd]. set (m1 := match m !! k with Some _ => m | None => <[k := default_value]> m end) in *.
    pose proof (md_rh s1 _ Hm1) as Hr1. destruct (rh_value s1 pos k w p v Hr1 Hv) as [Hr2 Hh2]. rewrite Z.mod_small in Hr2, Hh2 by lia.
    rewrite <- view_mod_id in Hv. destruct (view_Some s1 _ _ _ _ Hv) as (Eo & Ef & _ & Ep). rewrite Z.mod_small in Eo, Ef, Ep by lia.
    rewrite Eo, Ef, Ep. set (s2 := setSlot s1 pos (mkSlot k v p true)) in *. exists s2. split; [done|].
    assert (<[k := v]> m1 = <[k := v]> m) as Em by (unfold m1; destruct (m !! k); [done|apply insert_insert_eq]).
    assert (size (<[k := v]> m) = size m1) as Esz by (rewrite <- Em, map_size_insert_Some; [done|by exists w]).
    assert (capacity s2 = capacity s1) as Ec by apply capacity_setSlot.
    split; rewrite ?Esz, ?Ec; try done. rewrite <- Em. split; [done| |].
    + unfold s2. cbn [setSlot size_]. rewrite (md_size s1 _ Hm1). by rewrite Em, Esz.
    + intros k' v'. rewrite Hh2. case_decide as Ek; [subst k'; rewrite lookup_insert_eq; naive_solver|].
      rewrite lookup_insert_ne by done. apply (md_map s1 m1 Hm1).
  - destruct (index_good n s m k Hg Hn) as (s1 & pos & p & w & E & Hg1 & Hpos & Hv & Ew). rewrite E. cbn [mbind option_bind].
    rewrite <- view_mod_id in Hv. destruct (view_Some s1 _ _ _ _ Hv) as (_ & _ & Es & _). rewrite Z.mod_small in Es by lia.
    rewrite Es. exists s1. destruct (m !! k) as [u|] eqn:Ek; cbn [fst snd] in *.
    + rewrite Ek in Ew. by injection Ew as ->.
    + rewrite lookup_insert_eq in Ew. by injection Ew as ->.
  - exists s. destruct (find_spec s m k Hm) as [-> _]. split; [done|by apply good_step].
  - exists s. destruct (find_spec s m k Hm) as [_ ->]. split; [done|by apply good_step].
  - assert (Z.of_nat (size m) < capacity s) as Hlt by (unfold kInitialCap in *; lia).
    destruct (erase_spec s m k Hm Hlt) as (s' & E & Hm' & Ec). rewrite E. exists s'. split; [done|]. cbn [fst].
    assert (size (delete k m) <= size m)%nat as Hle by (rewrite map_size_delete; destruct (m !! k); simpl; lia).
    split; rewrite ?Ec; [done|lia|lia|lia].
  - exists (clear s). destruct (clear_models s m Hm) as [Hm' Ec]. split; [done|]. cbn [fst].
    split; rewrite ?Ec, ?map_size_empty; [done|unfold kInitialCap in *; lia..|]. lia.
Qed.

Lemma run_refines l : forall n s m, good n s m -> 0 <= n -> n + Z.of_nat (length l) <= 2 ^ 28 ->
  exists s', run s l = Some (s', (spec_run m l).2) /\ good (n + Z.of_nat (length l)) s' (spec_run m l).1.
Proof.
  induction l as [|o l IH]; intros n s m Hg Hn Hl; cbn [run spec_run length] in *.
  { exists s. split; [done|]. by replace (n + Z.of_nat 0) with n by lia. }
  destruct (exec_spec n s m o Hg ltac:(lia)) as (s1 & E & Hg1). rewrite E. cbn [mbind option_bind].
  destruct (spec m o) as [m1 r]. cbn [fst snd] in *. destruct (IH (n + 1) s1 m1 Hg1) as (s2 & E2 & Hg2); [lia..|].
  rewrite E2. destruct (spec_run m1 l) as [m2 rs]. cbn [mbind option_bind fst snd] in *. exists s2. split; [done|].
  by replace (n + Z.of_nat (S (length l))) with (n + 1 + Z.of_nat (length l)) by lia.
Qed.

(** ** Properties *)

(** C24: for every hash function, any program of up to 2^28 operations on a new
    table terminates and answers as it would on a finite map; the table then
    holds exactly the map's entries. *)
Theorem table_refines_map l : Z.of_nat (length l) <= 2 ^ 28 ->
  exists s, run create l = Some (s, (spec_run ∅ l).2) /\
    size_ s = Z.of_nat (size (spec_run ∅ l).1) /\
    forall k, (pos ← find s k; Some (second (slotAt s pos))) = (spec_run ∅ l).1 !! k.
Proof.
  intros Hl. destruct (run_refines l 0 create ∅ create_good) as (s & E & [Hm _ _ _]); [lia..|].
  exists s. split; [done|]. split; [apply Hm|]. intros k. by apply find_spec.
Qed.

(** C25: every table that a program reaches is well formed: the capacity is a
    power of two, at most three quarters of the slots are occupied, keys are
    unique, every entry is [probe_len] slots behind its home, all slots from
    its home on are occupied, and the one [d] slots behind the home has a probe
    length of at least [d]. *)
Theorem table_well_formed l s rs : Z.of_nat (length l) <= 2 ^ 28 -> run create l = Some (s, rs) ->
  (exists e, 4 <= e <= 31 /\ Z.of_nat (length (slots_ s)) = 2 ^ e /\ mask_ s = 2 ^ e - 1) /\
  4 * size_ s <= 3 * Z.of_nat (length (slots_ s)) /\
  (forall i j a b, slots_ s !! i = Some a -> slots_ s !! j = Some b -> occupied a = true -> occupied b = true ->
    first a = first b -> i = j) /\
  (forall i a, slots_ s !! i = Some a -> occupied a = true ->
    0 <= probe_len a < capacity s /\ (hash_ (first a) + probe_len a) mod capacity s = Z.of_nat i /\
    forall d, 0 <= d <= probe_len a -> let b := slotAt s ((hash_ (first a) + d) mod capacity s) in
      occupied b = true /\ d <= probe_len b).
Proof.
  intros Hl Hrun. destruct (run_refines l 0 create ∅ create_good) as (s' & E & [Hm Hload _ [Hc _]]); [lia..|].
  rewrite E in Hrun. injection Hrun as -> _. pose proof (md_rh s _ Hm) as Hr. fold (capacity s). split_and!.
  - destruct (rh_shape s Hr) as (e & He & Ec & Em). exists e. split_and!; [|lia|done|done].
    destruct (decide (4 <= e)) as [|Hlt]; [done|]. assert (2 ^ e <= 2 ^ 3) by (apply Z.pow_le_mono_r; lia). unfold kInitialCap in Hc. lia.
  - rewrite (md_size s _ Hm). lia.
  - intros i j a b Hi Hj Ha Hb Ef. apply slotAt_index in Hi as Vi, Hj as Vj. unfold entry in Vi, Vj. rewrite Ha in Vi. rewrite Hb, <- Ef in Vj.
    pose proof (rh_uniq s Hr _ _ _ _ _ _ _ Vi Vj) as Em. apply lookup_lt_Some in Hi, Hj.
    rewrite !Z.mod_small in Em by (unfold capacity; lia). lia.
  - intros i a Hi Ha. apply slotAt_index in Hi as Vi. unfold entry in Vi. rewrite Ha in Vi.
    destruct (rh_probe s Hr _ _ _ _ Vi) as [Hp Hpos]. apply lookup_lt_Some in Hi. split; [done|]. split.
    + rewrite Hpos, Z.mod_small; [done|unfold capacity; lia].
    + intros d Hd b. destruct (chain_back s _ _ _ _ (probe_len a - d) Hr Vi) as (k' & v' & p' & Hv & Hle); [lia|].
      rewrite <- view_mod_id in Hv. destruct (view_Some s _ _ _ _ Hv) as (Ho & _ & _ & Ep).
      assert ((Z.of_nat i - (probe_len a - d)) mod capacity s = (hash_ (first a) + d) mod capacity s) as Em.
      { rewrite Zminus_mod, <- Hpos, <- Zminus_mod. f_equal. lia. }
      rewrite Em in Ho, Ep. unfold b. split; [done|]. rewrite Ep. lia.
Qed.

End Table.

(** ** Witnesses: keys that all collide *)

Definition collide (k : Z) : Z := k * 16.
Definition demo : list (op (K := Z) (V := Z)) := [Assign 1 101; Assign 2 102; Index 3; Erase 1; Find 2; Erase 7; Count 3; Clear; Find 2].

Lemma table_refines_map_witness : exists s, run collide 0 0 (create 0 0) demo =
  Some (s, [Done; Done; Value (Some 0); Flag true; Value (Some 102); Flag false; Number 1; Done; Value None]) /\ size_ s = 0.
Proof.
  destruct (table_refines_map (K := Z) (V := Z) collide 0 0 demo) as (s & E & Hs & _); [vm_compute; discriminate|].
  exists s. split; [exact E|exact Hs].
Defined.

Lemma table_well_formed_witness : exists s rs, run collide 0 0 (create 0 0) [Assign 1 1; Assign 2 2; Assign 3 3] = Some (s, rs) /\
  4 * size_ s <= 3 * Z.of_nat (length (slots_ s)) /\ size_ s = 3.
Proof.
  destruct (run collide 0 0 (create 0 0) [Assign 1 1; Assign 2 2; Assign 3 3]) as [[s rs]|] eqn:E; [|vm_compute in E; discriminate].
  destruct (table_well_formed (K := Z) (V := Z) collide 0 0 [Assign 1 1; Assign 2 2; Assign 3 3] s rs ltac:(vm_compute; discriminate) E) as (_ & Hl & _).
  exists s, rs. split; [reflexivity|]. split; [exact Hl|]. vm_compute in E. injection E as <- _. reflexivity.
Defined.

(** The load factor can reach 0.75: twelve of sixteen slots. *)
Lemma load_factor_reaches_limit :
  (size_ ∘ fst) <$> run (K := Z) (V := Z) id 0 0 (create 0 0) ((fun k => Assign k k) <$> seqZ 0 12) = Some 12 /\
  (capacity ∘ fst) <$> run (K := Z) (V := Z) id 0 0 (create 0 0) ((fun k => Assign k k) <$> seqZ 0 12) = Some 16.
Proof. split; vm_compute; reflexivity. Qed.

End RobinHood.
