(* ===== verification/SipHash.v ===== *)
(** * SipHash-2-4

    Model of [SipHash24] (src/common/siphash.cpp), the keyed hash of the kernel
    name table ([KernelNameTable] of
    include/vgre/core/robin_hood_hash_table.h).  Bytes are integers in
    [0, 256); reads are option-valued lookups, so that a result also shows
    that no byte outside the input is read. *)

From stdpp Require Import strings.
From S2P Require Import Prelude RobinHood.
Open Scope Z_scope.

Module SipHash.

Record state := mkState { v0 : Z; v1 : Z; v2 : Z; v3 : Z }.

Definition rotl64 (x s : Z) : Z := u64 (Z.lor (Z.shiftl x s) (Z.shiftr x (64 - s))).

(** The little-endian word at [off]. *)
Definition load_u64_le (data : list Z) (off : nat) : option Z :=
  b0 ← data !! off; b1 ← data !! (off + 1)%nat; b2 ← data !! (off + 2)%nat; b3 ← data !! (off + 3)%nat;
  b4 ← data !! (off + 4)%nat; b5 ← data !! (off + 5)%nat; b6 ← data !! (off + 6)%nat; b7 ← data !! (off + 7)%nat;
  Some (b0 + Z.shiftl b1 8 + Z.shiftl b2 16 + Z.shiftl b3 24 + Z.shiftl b4 32 + Z.shiftl b5 40 + Z.shiftl b6 48 + Z.shiftl b7 56).

Definition sip_round (s : state) : state :=
  let '(mkState v0 v1 v2 v3) := s in
  let v0 := u64 (v0 + v1) in let v1 := rotl64 v1 13 in let v1 := Z.lxor v1 v0 in let v0 := rotl64 v0 32 in
  let v2 := u64 (v2 + v3) in let v3 := rotl64 v3 16 in let v3 := Z.lxor v3 v2 in
  let v0 := u64 (v0 + v3) in let v3 := rotl64 v3 21 in let v3 := Z.lxor v3 v0 in
  let v2 := u64 (v2 + v1) in let v1 := rotl64 v1 17 in let v1 := Z.lxor v1 v2 in let v2 := rotl64 v2 32 in
  mkState v0 v1 v2 v3.

Definition init (k0 k1 : Z) : state :=
  mkState (Z.lxor k0 0x736f6d6570736575) (Z.lxor k1 0x646f72616e646f6d) (Z.lxor k0 0x6c7967656e657261) (Z.lxor k1 0x7465646279746573).

(** [v3 ^= m; sip_round; sip_round; v0 ^= m]. *)
Definition absorb (s : state) (m : Z) : state :=
  let s := mkState (v0 s) (v1 s) (v2 s) (Z.lxor (v3 s) m) in
  let s := sip_round (sip_round s) in
  mkState (Z.lxor (v0 s) m) (v1 s) (v2 s) (v3 s).

(** The block loop from block [i], with [n] blocks left. *)
Fixpoint blockLoop (n i : nat) (data : list Z) (s : state) : option state :=
  match n with
  | O => Some s
  | S n => m ← load_u64_le data (i * 8); blockLoop n (S i) data (absorb s m)
  end.

(** The [switch] over the remaining bytes, with its fallthroughs. *)
Definition lastBlock (data : list Z) (blocks left : nat) : option Z :=
  let tail j := data !! (blocks * 8 + j)%nat in
  let last := Z.shiftl (Z.land (Z.of_nat (length data)) 255) 56 in
  last ← (if (7 <=? left)%nat then b ← tail 6%nat; Some (Z.lor last (Z.shiftl b 48)) else Some last);
  last ← (if (6 <=? left)%nat then b ← tail 5%nat; Some (Z.lor last (Z.shiftl b 40)) else Some last);
  last ← (if (5 <=? left)%nat then b ← tail 4%nat; Some (Z.lor last (Z.shiftl b 32)) else Some last);
  last ← (if (4 <=? left)%nat then b ← tail 3%nat; Some (Z.lor last (Z.shiftl b 24)) else Some last);
  last ← (if (3 <=? left)%nat then b ← tail 2%nat; Some (Z.lor last (Z.shiftl b 16)) else Some last);
  last ← (if (2 <=? left)%nat then b ← tail 1%nat; Some (Z.lor last (Z.shiftl b 8)) else Some last);
  if (1 <=? left)%nat then b ← tail 0%nat; Some (Z.lor last b) else Some last.

Definition finish (s : state) : Z :=
  let s := mkState (v0 s) (v1 s) (Z.lxor (v2 s) 0xff) (v3 s) in
  let s := sip_round (sip_round (sip_round (sip_round s))) in
  Z.lxor (Z.lxor (Z.lxor (v0 s) (v1 s)) (v2 s)) (v3 s).

Definition hash (k0 k1 : Z) (data : list Z) : option Z :=
  let blocks := (length data / 8)%nat in
  s ← blockLoop blocks 0 data (init k0 k1);
  let left := (length data mod 8)%nat in
  last ← lastBlock data blocks left;
  Some (finish (absorb s last)).

(** ** The specification: the input is padded with zeros and its length (modulo
    256) to whole little-endian words, which are absorbed in order *)

Definition word (l : list Z) : Z := foldr (fun b w => b + 256 * w) 0 l.

Fixpoint words (n : nat) (l : list Z) : list Z :=
  match n with O => [] | S n => word (take 8 l) :: words n (drop 8 l) end.

Definition padded (data : list Z) : list Z :=
  data ++ replicate (7 - length data mod 8)%nat 0 ++ [Z.of_nat (length data) mod 256].

(** SipHash-c-d in general, on four words: rotations as arithmetic, the round
    as one half-round on (v0, v1, v2, v3) and one on (v2, v1, v0, v3), and
    constants that spell a phrase. *)
Definition rot (n x : Z) : Z := 2 ^ n * x mod 2 ^ 64 + x / 2 ^ (64 - n).

Definition halfRound (s t : Z) (w : Z * Z * Z * Z) : Z * Z * Z * Z :=
  let '(a, b, c, d) := w in
  let a' := (a + b) mod 2 ^ 64 in
  let c' := (c + d) mod 2 ^ 64 in
  (rot 32 a', Z.lxor (rot s b) a', c', Z.lxor (rot t d) c').

Definition sipRound (w : Z * Z * Z * Z) : Z * Z * Z * Z :=
  let '(w0, w1, w2, w3) := halfRound 13 16 w in
  let '(w2, w1, w0, w3) := halfRound 17 21 (w2, w1, w0, w3) in
  (w0, w1, w2, w3).

(** The eight characters from position [i], the first most significant. *)
Definition phrase (i : nat) : Z :=
  foldl (fun v c => 256 * v + Z.of_nat (Ascii.nat_of_ascii c)) 0
    (take 8 (drop (8 * i) (String.list_ascii_of_string "somepseudorandomlygeneratedbytes"%string))).

Definition compress (c : nat) (w : Z * Z * Z * Z) (m : Z) : Z * Z * Z * Z :=
  let '(w0, w1, w2, w3) := w in
  let '(w0, w1, w2, w3) := Nat.iter c sipRound (w0, w1, w2, Z.lxor w3 m) in
  (Z.lxor w0 m, w1, w2, w3).

Definition siphash (c d : nat) (k0 k1 : Z) (ms : list Z) : Z :=
  let w := (Z.lxor k0 (phrase 0), Z.lxor k1 (phrase 1), Z.lxor k0 (phrase 2), Z.lxor k1 (phrase 3)) in
  let '(w0, w1, w2, w3) := foldl (compress c) w ms in
  let '(w0, w1, w2, w3) := Nat.iter d sipRound (w0, w1, Z.lxor w2 255, w3) in
  Z.lxor w0 (Z.lxor w1 (Z.lxor w2 w3)).

(** The model's own rounds over the words. *)
Definition absorbed (k0 k1 : Z) (data : list Z) : Z :=
  finish (foldl absorb (init k0 k1) (words (S (length data / 8)) (padded data))).

Definition byte (b : Z) : Prop := 0 <= b < 256.

(** ** Words *)

Lemma word_cons b l : word (b :: l) = b + 256 * word l.
Proof. done. Qed.

Lemma word_bound l : Forall byte l -> 0 <= word l < 256 ^ Z.of_nat (length l).
Proof.
  induction 1 as [|b l Hb _ IH]; [done|]. rewrite word_cons. unfold byte in Hb. cbn [length].
  rewrite Nat2Z.inj_succ, Z.pow_succ_r by lia. nia.
Qed.

Lemma word_app l l' : word (l ++ l') = word l + 256 ^ Z.of_nat (length l) * word l'.
Proof.
  induction l as [|b l IH]; cbn [app length]; [change (word []) with 0; lia|]. rewrite !word_cons, IH.
  rewrite Nat2Z.inj_succ, Z.pow_succ_r by lia. lia.
Qed.

Lemma word_zeros n : word (replicate n 0) = 0.
Proof. induction n as [|n IH]; [done|]. cbn [replicate]. rewrite word_cons. lia. Qed.

Lemma load_word data off : (off + 8 <= length data)%nat -> load_u64_le data off = Some (word (take 8 (drop off data))).
Proof.
  intros Hl. unfold load_u64_le. replace (data !! off) with (data !! (off + 0)%nat) by (f_equal; lia).
  rewrite <- !lookup_drop. pose proof (length_drop data off) as Hd. assert (8 <= length data - off)%nat as Hl0 by lia. rewrite <- Hd in Hl0. clear Hd Hl. revert Hl0. generalize (drop off data). intros l Hl0.
  destruct l as [|b0 [|b1 [|b2 [|b3 [|b4 [|b5 [|b6 [|b7 l]]]]]]]]; cbn [length] in Hl0; try lia.
  cbn -[Z.shiftl Z.mul Z.add word]. f_equal. rewrite !Z.shiftl_mul_pow2 by lia. rewrite !word_cons. change (word (take 0 l)) with 0. change (word []) with 0. lia.
Qed.

Lemma blockLoop_words n : forall i data s l, ((i + n) * 8 <= length data)%nat -> l = drop (i * 8) data ->
  forall l', blockLoop n i data s = Some (foldl absorb s (words n (l ++ l'))).
Proof.
  induction n as [|n IH]; intros i data s l Hl -> l'; [done|]. cbn [blockLoop words foldl].
  rewrite load_word by lia. cbn [mbind option_bind].
  assert (8 <= length (drop (i * 8) data))%nat as Hd by (rewrite length_drop; lia).
  rewrite take_app_le by done. rewrite drop_app_le by done. rewrite drop_drop.
  apply (IH (S i)); [lia|]. f_equal. lia.
Qed.

(** The words of a list are those of its whole blocks and one more. *)
Lemma words_snoc n l : words (S n) l = words n l ++ [word (take 8 (drop (n * 8) l))].
Proof.
  revert l. induction n as [|n IH]; intros l; [done|]. change (words (S (S n)) l) with (word (take 8 l) :: words (S n) (drop 8 l)).
  rewrite IH, drop_drop. done.
Qed.

Lemma lor_shifts a b m n : 0 <= n -> n + 8 <= m -> byte b -> Z.lor (Z.shiftl a m) (Z.shiftl b n) = Z.shiftl (b + 2 ^ (m - n) * a) n.
Proof.
  intros Hn Hm Hb. replace (Z.shiftl a m) with (Z.shiftl (Z.shiftl a (m - n)) n) by (rewrite Z.shiftl_shiftl by lia; f_equal; lia).
  rewrite <- Z.shiftl_lor. f_equal. apply lor_shift; [lia|]. unfold byte in Hb. change 256 with (2 ^ 8) in Hb.
  pose proof (Z.pow_le_mono_r 2 8 (m - n)). lia.
Qed.

(** The last word. *)
Lemma lastBlock_word data : Forall byte data ->
  lastBlock data (length data / 8) (length data mod 8) = Some (word (take 8 (drop (length data / 8 * 8) (padded data)))).
Proof.
  intros Hb. set (n := (length data / 8)%nat). set (left := (length data mod 8)%nat).
  assert (length data = n * 8 + left /\ left < 8)%nat as [Hn Hl].
  { pose proof (Nat.div_mod_eq (length data) 8). pose proof (Nat.mod_upper_bound (length data) 8). unfold n, left. lia. }
  assert (drop (n * 8) (padded data) = drop (n * 8) data ++ replicate (7 - left) 0 ++ [Z.of_nat (length data) mod 256]) as ->.
  { unfold padded. fold left. by rewrite drop_app_le by lia. }
  unfold lastBlock. change 255 with (Z.ones 8). rewrite Z.land_ones by lia. change (2 ^ 8) with 256. set (L := Z.of_nat (length data) mod 256).
  rewrite <- !lookup_drop. pose proof (length_drop data (n * 8)) as Hd. replace (length data - n * 8)%nat with left in Hd by lia.
  assert (Forall byte (drop (n * 8) data)) as Hbt by (by apply Forall_drop). revert Hd Hbt. generalize (drop (n * 8) data). clearbody left L.
  clear -Hl. intros l <- Hbt.
  destruct l as [|b0 [|b1 [|b2 [|b3 [|b4 [|b5 [|b6 [|b7 l]]]]]]]]; cbn [length] in Hl; try lia;
    repeat (apply Forall_cons in Hbt as [? Hbt]);
    cbn -[Z.shiftl Z.mul Z.add Z.lor word]; f_equal; rewrite ?lor_shifts by (assumption || lia);
    rewrite ?lor_shift by (unfold byte in *; lia); rewrite ?word_cons, ?Z.shiftl_mul_pow2 by lia; change (word []) with 0; lia.
Qed.

Lemma hash_absorbed k0 k1 data : Forall byte data -> hash k0 k1 data = Some (absorbed k0 k1 data).
Proof.
  intros Hb. unfold hash, absorbed.
  rewrite (blockLoop_words _ 0 data (init k0 k1) data) with (l' := replicate (7 - length data mod 8) 0 ++ [Z.of_nat (length data) mod 256]).
  - cbn [mbind option_bind]. rewrite lastBlock_word by done. cbn [mbind option_bind]. fold (padded data).
    by rewrite words_snoc, foldl_snoc.
  - pose proof (Nat.Div0.mul_div_le (length data) 8). lia.
  - done.
Qed.

(** The result is a 64-bit word. *)
Definition word64 (x : Z) : Prop := 0 <= x < 2 ^ 64.

Lemma lxor_word64 x y : word64 x -> word64 y -> word64 (Z.lxor x y).
Proof. apply (lxor_bound 64). lia. Qed.

Definition state64 (s : state) : Prop := word64 (v0 s) /\ word64 (v1 s) /\ word64 (v2 s) /\ word64 (v3 s).

Lemma u64_word64 x : word64 (u64 x).
Proof. unfold word64, u64. by apply Z.mod_pos_bound. Qed.

Lemma sip_round_word64 s : state64 s -> state64 (sip_round s).
Proof.
  intros _. destruct s. unfold sip_round, rotl64, state64. cbn [v0 v1 v2 v3].
  split_and!; repeat apply lxor_word64; apply u64_word64.
Qed.

Lemma absorb_word64 s m : state64 s -> word64 m -> state64 (absorb s m).
Proof.
  intros Hs Hm. unfold absorb. cbv zeta. set (s1 := mkState (v0 s) (v1 s) (v2 s) (Z.lxor (v3 s) m)).
  assert (state64 (sip_round (sip_round s1))) as Hr.
  { apply sip_round_word64, sip_round_word64. destruct Hs as (H0 & H1 & H2 & H3). split; [exact H0|]. split; [exact H1|].
    split; [exact H2|by apply lxor_word64]. }
  revert Hr. generalize (sip_round (sip_round s1)). intros s2 (H0 & H1 & H2 & H3).
  split; [by apply lxor_word64|]. by split.
Qed.

Lemma words_word64 n l : Forall byte l -> (n * 8 <= length l)%nat -> Forall word64 (words n l).
Proof.
  revert l. induction n as [|n IH]; intros l Hl Hn; [by constructor|]. cbn [words]. constructor.
  - pose proof (word_bound (take 8 l)) as Hw. rewrite length_take in Hw. replace (Nat.min 8 (length l)) with 8%nat in Hw by lia.
    unfold word64. apply Hw. by apply Forall_take.
  - apply IH; [by apply Forall_drop|]. rewrite length_drop. lia.
Qed.

Lemma foldl_absorb_word64 s l : state64 s -> Forall word64 l -> state64 (foldl absorb s l).
Proof. intros Hs Hl. revert s Hs. induction Hl as [|m l Hm _ IH]; intros s Hs; [done|]. cbn. by apply IH, absorb_word64. Qed.

Lemma padded_bytes data : Forall byte data -> Forall byte (padded data) /\ length (padded data) = (S (length data / 8) * 8)%nat.
Proof.
  intros Hb. unfold padded. split.
  - apply Forall_app. split; [done|]. apply Forall_app. split; [by apply Forall_replicate; unfold byte; lia|].
    apply Forall_singleton. by apply Z.mod_pos_bound.
  - rewrite !length_app, length_replicate. pose proof (Nat.div_mod_eq (length data) 8).
    pose proof (Nat.mod_upper_bound (length data) 8). cbn [length]. lia.
Qed.

(** ** The rounds compute the reference *)

Definition tuple (s : state) : Z * Z * Z * Z := (v0 s, v1 s, v2 s, v3 s).

Lemma rotl64_rot x n : word64 x -> 0 < n < 64 -> rotl64 x n = rot n x.
Proof.
  intros Hx Hn. unfold rotl64, rot, u64. unfold word64 in Hx.
  assert (2 ^ 64 = 2 ^ n * 2 ^ (64 - n)) as E by (rewrite <- Z.pow_add_r by lia; f_equal; lia).
  assert (0 < 2 ^ n) by lia. assert (0 < 2 ^ (64 - n)) by lia.
  rewrite Z.shiftr_div_pow2 by lia.
  assert (0 <= x / 2 ^ (64 - n) < 2 ^ n) as Hq by (split; [apply Z.div_pos; lia|apply Z.div_lt_upper_bound; lia]).
  rewrite lor_shift by lia. rewrite (Z.add_comm (x / _)). rewrite Z.add_mod by lia.
  rewrite (Z.mod_small (x / _)) by nia. apply Z.mod_small.
  rewrite E. rewrite Z.mul_mod_distr_l by lia.
  pose proof (Z.mod_pos_bound x (2 ^ (64 - n))). nia.
Qed.

Lemma rotl64_word64 x n : word64 (rotl64 x n).
Proof. apply u64_word64. Qed.

Lemma sip_round_spec s : state64 s -> tuple (sip_round s) = sipRound (tuple s).
Proof.
  destruct s as [a b c d]. intros (Ha & Hb & Hc & Hd). cbn [v0 v1 v2 v3] in *. unfold tuple, sip_round, sipRound, halfRound. cbn [v0 v1 v2 v3].
  assert (forall x n, word64 x -> 0 < n < 64 -> rot n x = rotl64 x n) as Hr by (intros; symmetry; by apply rotl64_rot).
  fold (u64 (a + b)) (u64 (c + d)).
  rewrite (Hr (u64 (a + b)) 32), (Hr b 13), (Hr d 16) by (done || apply u64_word64).
  set (b1 := Z.lxor (rotl64 b 13) (u64 (a + b))). set (d1 := Z.lxor (rotl64 d 16) (u64 (c + d))).
  assert (word64 b1) by (apply lxor_word64; [apply rotl64_word64|apply u64_word64]).
  assert (word64 d1) by (apply lxor_word64; [apply rotl64_word64|apply u64_word64]).
  fold (u64 (u64 (c + d) + b1)) (u64 (rotl64 (u64 (a + b)) 32 + d1)).
  rewrite (Hr (u64 (u64 (c + d) + b1)) 32), (Hr b1 17), (Hr d1 21) by (done || apply u64_word64). reflexivity.
Qed.

#[local] Opaque sip_round sipRound.

Lemma sip_rounds_spec n s : state64 s -> tuple (Nat.iter n sip_round s) = Nat.iter n sipRound (tuple s) /\ state64 (Nat.iter n sip_round s).
Proof.
  intros Hs. induction n as [|n [IH Hn]]; [done|]. rewrite !Nat.iter_succ, <- IH.
  split; [by apply sip_round_spec|by apply sip_round_word64].
Qed.

Lemma iter_two {A} (f : A -> A) x : Nat.iter 2 f x = f (f x).
Proof. done. Qed.

Lemma iter_four {A} (f : A -> A) x : Nat.iter 4 f x = f (f (f (f x))).
Proof. done. Qed.

Lemma absorb_spec s m : state64 s -> word64 m -> tuple (absorb s m) = compress 2 (tuple s) m.
Proof.
  destruct s as [a b c d]. intros (H0 & H1 & H2 & H3) Hm. unfold absorb, compress, tuple at 2. cbn [v0 v1 v2 v3] in *. cbv zeta.
  assert (state64 (mkState a b c (Z.lxor d m))) as Hs by (split_and!; try done; by apply lxor_word64).
  destruct (sip_rounds_spec 2 _ Hs) as [E _]. rewrite (iter_two sip_round) in E. unfold tuple at 2 in E. cbn [v0 v1 v2 v3] in E.
  rewrite <- E. clear. generalize (sip_round (sip_round (mkState a b c (Z.lxor d m)))). intros [? ? ? ?]. reflexivity.
Qed.

Lemma foldl_absorb_spec s l : state64 s -> Forall word64 l -> tuple (foldl absorb s l) = foldl (compress 2) (tuple s) l.
Proof.
  intros Hs Hl. revert s Hs. induction Hl as [|m l Hm _ IH]; intros s Hs; [done|]. cbn [foldl].
  rewrite IH by (by apply absorb_word64). by rewrite absorb_spec.
Qed.

Lemma init_word64 k0 k1 : word64 k0 -> word64 k1 -> state64 (init k0 k1).
Proof. intros. unfold state64, init. cbn [v0 v1 v2 v3]. split_and!; by apply lxor_word64. Qed.

Lemma finish_spec s : state64 s ->
  finish s = (let '(w0, w1, w2, w3) := tuple s in
              let '(w0, w1, w2, w3) := Nat.iter 4 sipRound (w0, w1, Z.lxor w2 255, w3) in Z.lxor w0 (Z.lxor w1 (Z.lxor w2 w3))) /\
  word64 (finish s).
Proof.
  destruct s as [a b c d]. intros (H0 & H1 & H2 & H3). unfold finish, tuple. cbn [v0 v1 v2 v3] in *. cbv zeta.
  assert (state64 (mkState a b (Z.lxor c 255) d)) as Hs by (split_and!; try done; by apply lxor_word64).
  destruct (sip_rounds_spec 4 _ Hs) as [E Hr]. rewrite (iter_four sip_round) in E, Hr. unfold tuple at 2 in E. cbn [v0 v1 v2 v3] in E.
  rewrite <- E. revert Hr. clear. generalize (sip_round (sip_round (sip_round (sip_round (mkState a b (Z.lxor c 255) d))))).
  intros [? ? ? ?] (? & ? & ? & ?). unfold tuple. cbn [v0 v1 v2 v3] in *. split; [by rewrite !Z.lxor_assoc|]. by repeat apply lxor_word64.
Qed.

Lemma absorbed_spec k0 k1 data : Forall byte data -> word64 k0 -> word64 k1 ->
  absorbed k0 k1 data = siphash 2 4 k0 k1 (words (S (length data / 8)) (padded data)) /\ word64 (absorbed k0 k1 data).
Proof.
  intros Hb H0 H1. unfold absorbed, siphash. cbv zeta. destruct (padded_bytes data Hb) as [Hp Hl].
  set (ms := words _ _). assert (Forall word64 ms) as Hms by (apply words_word64; [done|lia]). clearbody ms.
  pose proof (foldl_absorb_spec (init k0 k1) ms (init_word64 k0 k1 H0 H1) Hms) as E.
  pose proof (foldl_absorb_word64 (init k0 k1) ms (init_word64 k0 k1 H0 H1) Hms) as Hs.
  assert (tuple (init k0 k1) = (Z.lxor k0 (phrase 0), Z.lxor k1 (phrase 1), Z.lxor k0 (phrase 2), Z.lxor k1 (phrase 3))) as <-.
  { unfold tuple, init. cbn [v0 v1 v2 v3]. assert (phrase 0 = 0x736f6d6570736575 /\ phrase 1 = 0x646f72616e646f6d /\
      phrase 2 = 0x6c7967656e657261 /\ phrase 3 = 0x7465646279746573) as (-> & -> & -> & ->) by (vm_compute; done). done. }
  rewrite <- E. by apply finish_spec.
Qed.

(** C26: for any input and keys, [hash] reads only the input's bytes and
    computes SipHash-2-4 as the paper defines it: the input, padded with zeros
    and tagged with its length modulo 256, goes word by word through two rounds
    each, four rounds finalise, and the result is a 64-bit word.  The reference
    has its own rounds, rotations and constants. *)
Theorem hash_is_siphash k0 k1 data : Forall byte data -> word64 k0 -> word64 k1 ->
  hash k0 k1 data = Some (siphash 2 4 k0 k1 (words (S (length data / 8)) (padded data))) /\
  word64 (siphash 2 4 k0 k1 (words (S (length data / 8)) (padded data))).
Proof.
  intros Hb H0 H1. destruct (absorbed_spec k0 k1 data Hb H0 H1) as [<- Hw]. split; [by apply hash_absorbed|done].
Qed.

#[local] Transparent sip_round sipRound.

(** The test vector of the SipHash paper: key 00 .. 0f, input 00 .. 0e. *)
Lemma hash_is_siphash_witness : hash 0x0706050403020100 0x0f0e0d0c0b0a0908 (seqZ 0 15) = Some 0xa129ca6149be45e5.
Proof.
  destruct (hash_is_siphash 0x0706050403020100 0x0f0e0d0c0b0a0908 (seqZ 0 15)) as [E _].
  - apply Forall_forall. intros b Hb%elem_of_seqZ. unfold byte. lia.
  - unfold word64. lia.
  - unfold word64. lia.
  - rewrite E. vm_compute. reflexivity.
Defined.

(** ** The kernel name table *)

Definition kernelNameHash (k0 k1 : Z) (name : list Z) : Z := default 0 (hash k0 k1 name).

(** With any keys it maps names to identifiers. *)
Lemma kernel_name_table k0 k1 l : Z.of_nat (length l) <= 2 ^ 28 ->
  exists s, RobinHood.run (kernelNameHash k0 k1) [] 0 (RobinHood.create [] 0) l = Some (s, (RobinHood.spec_run 0 ∅ l).2).
Proof.
  intros Hl. destruct (RobinHood.run_refines (kernelNameHash k0 k1) [] 0 l 0 _ ∅ (RobinHood.create_good _ _ _)) as (s & E & _); [lia..|].
  by exists s.
Qed.

End SipHash.
