(* ===== verification/Bytes.v ===== *)
(** * Arrays of bytes and words

    What the cryptographic components share: reading an array at an index,
    arrays written in chunks, splitting a message into blocks, and shifts and
    masks as arithmetic. *)

From S2P Require Import Prelude.

Module Bytes.

(** ** Arrays *)

(** [r[i]]; the loops stay inside the array. *)
Definition coef (r : list Z) (i : nat) : Z := default 0 (r !! i).

Lemma coef_insert r i j x : coef (<[i := x]> r) j = if decide (i = j /\ (i < length r)%nat) then x else coef r j.
Proof.
  unfold coef. destruct (decide _) as [[<- Hl]|Hn]; [by rewrite list_lookup_insert_eq|].
  destruct (decide (i = j)) as [<-|Hij].
  - rewrite list_insert_ge by (apply Nat.nlt_ge; naive_solver). done.
  - by rewrite list_lookup_insert_ne.
Qed.

Lemma coef_lookup r i : (i < length r)%nat -> r !! i = Some (coef r i).
Proof. intros [x E]%lookup_lt_is_Some. unfold coef. by rewrite E. Qed.

Lemma coef_elem r i : (i < length r)%nat -> coef r i ∈ r.
Proof. intros H. eapply list_elem_of_lookup_2. by apply coef_lookup. Qed.

Lemma foldl_ext_in {A B} (f g : A -> B -> A) (I : A -> Prop) l a :
  I a -> (forall a x, I a -> x ∈ l -> f a x = g a x /\ I (f a x)) -> foldl f a l = foldl g a l /\ I (foldl f a l).
Proof.
  revert a. induction l as [|x l IH]; intros a Ha H; simpl; [done|].
  destruct (H a x Ha) as [<- Hx]; [left|]. apply IH; [done|]. intros. apply H; [done|by right].
Qed.

Lemma coef_fmap_seq (c : nat -> Z) n i : (i < n)%nat -> coef (c <$> seq 0 n) i = c i.
Proof. intros Hi. unfold coef. by rewrite list_lookup_fmap, lookup_seq_lt. Qed.

Lemma coef_fmap (m : Z -> Z) r i : (i < length r)%nat -> coef (m <$> r) i = m (coef r i).
Proof. intros Hi. unfold coef. rewrite list_lookup_fmap. by destruct (lookup_lt_is_Some_2 _ _ Hi) as [x ->]. Qed.

Lemma coef_zip (m : Z -> Z -> Z) a b i : (i < length a)%nat -> length a = length b ->
  coef (zip_with m a b) i = m (coef a i) (coef b i).
Proof.
  intros Hi Hl. unfold coef. rewrite lookup_zip_with.
  destruct (lookup_lt_is_Some_2 _ _ Hi) as [x ->]. rewrite Hl in Hi. by destruct (lookup_lt_is_Some_2 _ _ Hi) as [y ->].
Qed.

(** ** Chunks *)

Lemma length_chunks (f : nat -> list Z) w n : (forall i, length (f i) = w) -> length (seq 0 n ≫= f) = (w * n)%nat.
Proof.
  intros Hf. induction n as [|n IH]; [simpl; lia|]. rewrite seq_S, bind_app, length_app, IH.
  cbn [mbind list_bind]. rewrite length_app, Hf. simpl. lia.
Qed.

Lemma coef_app_l l1 l2 i : (i < length l1)%nat -> coef (l1 ++ l2) i = coef l1 i.
Proof. intros. unfold coef. by rewrite lookup_app_l. Qed.

Lemma coef_app_r l1 l2 i : coef (l1 ++ l2) (length l1 + i) = coef l2 i.
Proof. unfold coef. rewrite lookup_app_r by lia. by replace (length l1 + i - length l1)%nat with i by lia. Qed.

Lemma coef_drop l o i : coef (drop o l) i = coef l (o + i).
Proof. unfold coef. by rewrite lookup_drop. Qed.

Lemma coef_take l n i : (i < n)%nat -> coef (take n l) i = coef l i.
Proof. intros. unfold coef. by rewrite lookup_take_lt. Qed.

Lemma coef_chunks (f : nat -> list Z) w n i j : (forall i, length (f i) = w) -> (i < n)%nat -> (j < w)%nat ->
  coef (seq 0 n ≫= f) (w * i + j) = coef (f i) j.
Proof.
  intros Hf. induction n as [|n IH]; intros Hi Hj; [lia|]. rewrite seq_S, bind_app. cbn [mbind list_bind].
  pose proof (length_chunks f w n Hf) as Hl. destruct (decide (i = n)) as [->|].
  - rewrite <- Hl, coef_app_r, app_nil_r. done.
  - rewrite coef_app_l by (rewrite Hl; nia). apply IH; lia.
Qed.

(** Arrays of one size are equal when their entries are. *)
Lemma coef_ext (l1 l2 : list Z) : length l1 = length l2 -> (forall i, (i < length l1)%nat -> coef l1 i = coef l2 i) -> l1 = l2.
Proof.
  intros Hl H. apply list_eq. intros i. destruct (decide (i < length l1)%nat).
  - rewrite !coef_lookup by lia. f_equal. by apply H.
  - by rewrite !lookup_ge_None_2 by lia.
Qed.

(** Indexes by chunk. *)
Lemma chunk_cases w n (P : nat -> Prop) : (0 < w)%nat ->
  (forall i j, (i < n)%nat -> (j < w)%nat -> P (w * i + j)%nat) -> forall k, (k < w * n)%nat -> P k.
Proof.
  intros Hw H k Hk. rewrite (Nat.div_mod k w) by lia. apply H; [apply Nat.Div0.div_lt_upper_bound; lia|].
  apply Nat.mod_upper_bound. lia.
Qed.

(** The chunk at a position, with what follows. *)
Lemma drop_chunks (f : nat -> list Z) w n i l : (forall i, length (f i) = w) -> (i < n)%nat ->
  exists l', drop (i * w) ((seq 0 n ≫= f) ++ l) = f i ++ l'.
Proof.
  intros Hf Hi. exists ((seq (S i) (n - S i) ≫= f) ++ l).
  replace n with (i + S (n - S i))%nat at 1 by lia. rewrite seq_app, bind_app. cbn [seq mbind list_bind].
  rewrite <- !app_assoc. rewrite drop_app_length'; [done|]. rewrite length_chunks with (w := w) by done. lia.
Qed.

Lemma drop_app_exact {X} (l1 l2 : list X) n : length l1 = n -> drop n (l1 ++ l2) = l2.
Proof. intros <-. apply drop_app_length. Qed.

Lemma take_app_exact {X} (l1 l2 : list X) n : length l1 = n -> take n (l1 ++ l2) = l1.
Proof. intros <-. apply take_app_length. Qed.

Lemma bind_shift {X} (f : nat -> list X) n : seq 1 n ≫= f = seq 0 n ≫= fun i => f (S i).
Proof. rewrite <- seq_shift. induction (seq 0 n) as [|i l IH]; [done|]. cbn [map mbind list_bind]. f_equal. exact IH. Qed.

Definition blocks (rate : nat) (l : list Z) : list (list Z) :=
  (fun i => take rate (drop (i * rate) l)) <$> seq 0 (length l / rate).

Lemma blocks_cons rate l : (0 < rate)%nat -> (rate <= length l)%nat -> blocks rate l = take rate l :: blocks rate (drop rate l).
Proof.
  intros Hr Hl. unfold blocks. rewrite length_drop.
  assert (length l / rate = S ((length l - rate) / rate))%nat as ->.
  { replace (length l) with (1 * rate + (length l - rate))%nat at 1 by lia. rewrite Nat.div_add_l by lia. lia. }
  cbn [seq fmap list_fmap]. f_equal. rewrite <- seq_shift, <- list_fmap_compose. apply list_fmap_ext. intros ? i _. simpl.
  by rewrite drop_drop.
Qed.

(** ** Bytes *)

Definition byte (b : Z) : Prop := 0 <= b < 256.

Lemma coef_byte l i : Forall byte l -> byte (coef l i).
Proof.
  intros Hl. unfold coef. destruct (l !! i) eqn:E; simpl; [by eapply Forall_lookup_1|unfold byte; lia].
Qed.

Lemma u8_byte z : byte (u8 z).
Proof. unfold byte, u8. pose proof (Z.mod_pos_bound z (2 ^ 8)). lia. Qed.

Lemma lor_add x y k : 0 <= k -> 0 <= x < 2 ^ k -> Z.lor x (Z.shiftl y k) = x + 2 ^ k * y.
Proof. intros. rewrite Z.lor_comm. by apply lor_shift. Qed.

(** A number has no bits above its size. *)
Lemma testbit_above m z i : 0 <= m -> 0 <= z < 2 ^ m -> m <= i -> Z.testbit z i = false.
Proof.
  intros Hm Hz Hi. destruct (decide (z = 0)) as [->|]; [apply Z.testbit_0_l|].
  apply Z.bits_above_log2; [lia|]. apply Z.lt_le_trans with m; [apply Z.log2_lt_pow2; lia|done].
Qed.

Lemma shiftr_div x k : 0 <= k -> Z.shiftr x k = x / 2 ^ k.
Proof. apply Z.shiftr_div_pow2. Qed.

Lemma land_mod x k : 0 <= k -> Z.land x (Z.ones k) = x mod 2 ^ k.
Proof. apply Z.land_ones. Qed.

Lemma chunks_bytes (f : nat -> list Z) n : (forall i, Forall byte (f i)) -> Forall byte (seq 0 n ≫= f).
Proof.
  intros Hf. generalize 0%nat. induction n as [|n IH]; intros s; [constructor|].
  cbn [seq mbind list_bind]. apply Forall_app. split; [apply Hf|apply IH].
Qed.

End Bytes.
