(* ===== verification/Keccak.v ===== *)
(** * Keccak, SHA-3 and SHAKE

    Model of src/pqc/keccak.cpp (FIPS 202): the permutation on 25 lanes of 64
    bits, the sponge, and the incremental SHAKE128 used to sample the ML-KEM
    matrix.  Lanes are integers in [0, 2^64), bytes integers in [0, 256);
    the byte view of the state is little-endian. *)

From S2P Require Import Prelude Bytes.

Module Keccak.
Import Bytes.

Definition kRC : list Z := [
  0x0000000000000001; 0x0000000000008082; 0x800000000000808a; 0x8000000080008000; 0x000000000000808b; 0x0000000080000001;
  0x8000000080008081; 0x8000000000008009; 0x000000000000008a; 0x0000000000000088; 0x0000000080008009; 0x000000008000000a;
  0x000000008000808b; 0x800000000000008b; 0x8000000000008089; 0x8000000000008003; 0x8000000000008002; 0x8000000000000080;
  0x000000000000800a; 0x800000008000000a; 0x8000000080008081; 0x8000000000008080; 0x0000000080000001; 0x8000000080008008].

(** Truncation to 64 bits, and [~x] on 64 bits. *)
Definition trunc64 (x : Z) : Z := Z.land x 0xffffffffffffffff.
Definition not64 (x : Z) : Z := Z.lxor x 0xffffffffffffffff.

Definition rol (x n : Z) : Z := Z.lor (trunc64 (Z.shiftl x n)) (Z.shiftr x (64 - n)).

Definition lane (s : list Z) (i : nat) : Z := default 0 (s !! i).

Definition xorAt (s : list Z) (i : nat) (x : Z) : list Z := <[i := Z.lxor (lane s i) x]> s.

Definition theta (s : list Z) : list Z :=
  let bc := (fun i => Z.lxor (Z.lxor (Z.lxor (Z.lxor (lane s i) (lane s (i + 5))) (lane s (i + 10))) (lane s (i + 15))) (lane s (i + 20))) <$> seq 0 5 in
  foldl (fun s i =>
    let t := Z.lxor (lane bc ((i + 4) mod 5)) (rol (lane bc ((i + 1) mod 5)) 1) in
    foldl (fun s j => xorAt s (j + i) t) s [0; 5; 10; 15; 20]%nat) s (seq 0 5).

Definition piln : list nat := [10; 7; 11; 17; 18; 3; 5; 16; 8; 21; 24; 4; 15; 23; 19; 13; 12; 2; 20; 14; 22; 9; 6; 1]%nat.
Definition rotc : list Z := [1; 3; 6; 10; 15; 21; 28; 36; 45; 55; 2; 14; 27; 41; 56; 8; 25; 43; 62; 18; 39; 61; 20; 44].

(** The cycle of lane moves, with [t] the lane in flight. *)
Fixpoint rhoPi (l : list (nat * Z)) (s : list Z) (t : Z) : list Z :=
  match l with
  | [] => s
  | (j, n) :: l => let b := lane s j in rhoPi l (<[j := rol t n]> s) b
  end.

Definition chi (s : list Z) : list Z :=
  foldl (fun s j =>
    let bc := (fun i => lane s (j + i)) <$> seq 0 5 in
    foldl (fun s i => xorAt s (j + i) (Z.land (not64 (lane bc ((i + 1) mod 5))) (lane bc ((i + 2) mod 5)))) s (seq 0 5))
    s [0; 5; 10; 15; 20]%nat.

Definition roundF (s : list Z) (rc : Z) : list Z :=
  let s := theta s in
  let s := rhoPi (combine piln rotc) s (lane s 1) in
  xorAt (chi s) 0 rc.

Definition keccakF1600 (s : list Z) : list Z := foldl roundF s kRC.

(** ** The sponge *)

(** [sb[i] ^= b] on the bytes of the lanes. *)
Definition xorByte (s : list Z) (i : nat) (b : Z) : list Z := xorAt s (i / 8) (Z.shiftl b (8 * Z.of_nat (i mod 8))).
Definition xorBytes (s : list Z) (bs : list Z) : list Z :=
  foldl (fun s ib => xorByte s ib.1 ib.2) s (combine (seq 0 (length bs)) bs).
Definition byteOf (s : list Z) (i : nat) : Z := Z.land (Z.shiftr (lane s (i / 8)) (8 * Z.of_nat (i mod 8))) 255.
Definition bytesOf (s : list Z) (n : nat) : list Z := byteOf s <$> seq 0 n.

Definition zeroState : list Z := replicate 25 0.

(** Full blocks, then what is left; [fuel] bounds the blocks. *)
Fixpoint absorbLoop (fuel rate : nat) (s inp : list Z) : list Z * list Z :=
  match fuel with
  | O => (s, inp)
  | S fuel => if (rate <=? length inp)%nat then absorbLoop fuel rate (keccakF1600 (xorBytes s (take rate inp))) (drop rate inp) else (s, inp)
  end.

(** The padded last block. *)
Definition lastBlock (rate : nat) (pad : Z) (inp : list Z) : list Z :=
  let block := inp ++ replicate (rate - length inp) 0 in
  let block := <[length inp := pad]> block in
  <[(rate - 1)%nat := Z.lxor (lane block (rate - 1)) 0x80]> block.

Definition absorbAll (rate : nat) (pad : Z) (inp : list Z) : list Z :=
  let '(s, rest) := absorbLoop (S (length inp)) rate zeroState inp in xorBytes s (lastBlock rate pad rest).

(** [fuel] bounds the blocks squeezed. *)
Fixpoint squeezeLoop (fuel rate outlen : nat) (s : list Z) : list Z :=
  match fuel with
  | O => []
  | S fuel =>
      if (outlen =? 0)%nat then [] else
      let s := keccakF1600 s in
      let n := Nat.min outlen rate in
      bytesOf s n ++ squeezeLoop fuel rate (outlen - n) s
  end.

Definition keccak (outlen : nat) (inp : list Z) (rate : nat) (pad : Z) : list Z :=
  squeezeLoop outlen rate outlen (absorbAll rate pad inp).

Definition sha3_256 (inp : list Z) : list Z := keccak 32 inp 136 0x06.
Definition sha3_512 (inp : list Z) : list Z := keccak 64 inp 72 0x06.
Definition shake128 (outlen : nat) (inp : list Z) : list Z := keccak outlen inp 168 0x1f.
Definition shake256 (outlen : nat) (inp : list Z) : list Z := keccak outlen inp 136 0x1f.

(** ** Incremental SHAKE128 *)

Definition shake128_absorb (inp : list Z) : list Z := absorbAll 168 0x1f inp.

Fixpoint shake128_squeezeblocks (nblocks : nat) (ctx : list Z) : list Z * list Z :=
  match nblocks with
  | O => ([], ctx)
  | S n => let ctx := keccakF1600 ctx in let '(out, ctx') := shake128_squeezeblocks n ctx in (bytesOf ctx 168 ++ out, ctx')
  end.

(** ** Output *)

Lemma length_bytesOf s n : length (bytesOf s n) = n.
Proof. unfold bytesOf. by rewrite length_fmap, length_seq. Qed.

Lemma byteOf_range s i : 0 <= byteOf s i < 256.
Proof. unfold byteOf. change 255 with (Z.ones 8). rewrite Z.land_ones by lia. apply Z.mod_pos_bound. lia. Qed.

Lemma bytesOf_range s n : Forall (fun b => 0 <= b < 256) (bytesOf s n).
Proof. unfold bytesOf. apply Forall_fmap, Forall_forall. intros i _. apply byteOf_range. Qed.

Lemma squeezeLoop_bytes fuel rate outlen s : Forall (fun b => 0 <= b < 256) (squeezeLoop fuel rate outlen s).
Proof.
  revert outlen s. induction fuel as [|fuel IH]; intros outlen s; cbn [squeezeLoop]; [constructor|].
  destruct (outlen =? 0)%nat; [constructor|]. apply Forall_app. split; [apply bytesOf_range|apply IH].
Qed.

Lemma length_squeezeLoop fuel rate outlen s : (0 < rate)%nat -> (outlen <= fuel)%nat -> length (squeezeLoop fuel rate outlen s) = outlen.
Proof.
  intros Hr. revert outlen s. induction fuel as [|fuel IH]; intros outlen s Hf; cbn [squeezeLoop]; [simpl; lia|].
  destruct (outlen =? 0)%nat eqn:E; [apply Nat.eqb_eq in E; simpl; lia|]. apply Nat.eqb_neq in E.
  rewrite length_app, length_bytesOf, IH by lia. lia.
Qed.

(** Every call returns exactly the bytes asked for. *)
Lemma length_keccak outlen inp rate pad : (0 < rate)%nat -> length (keccak outlen inp rate pad) = outlen.
Proof. intros Hr. by apply length_squeezeLoop. Qed.

Lemma keccak_bytes outlen inp rate pad : Forall (fun b => 0 <= b < 256) (keccak outlen inp rate pad).
Proof. apply squeezeLoop_bytes. Qed.

(** ** The definition of FIPS 202 *)

(** Lanes by coordinates: A[x, y] is lane 5 y + x. *)
Definition A (s : list Z) (x y : nat) : Z := lane s (5 * (y mod 5) + x mod 5).
Definition lanes (f : nat -> nat -> Z) : list Z := (fun i => f (i mod 5)%nat (i / 5)%nat) <$> seq 0 25.

Definition fips_theta (s : list Z) : list Z :=
  let C x := Z.lxor (Z.lxor (Z.lxor (Z.lxor (A s x 0) (A s x 1)) (A s x 2)) (A s x 3)) (A s x 4) in
  let D x := Z.lxor (C (x + 4)%nat) (rol (C (x + 1)%nat) 1) in
  lanes (fun x y => Z.lxor (A s x y) (D x)).

(** The rotation of lane (x, y): (t + 1) (t + 2) / 2 when (x, y) is the t-th
    point of the orbit of (1, 0) under (x, y) -> (y, 2 x + 3 y). *)
Fixpoint orbit (n : nat) (t x y : nat) : list (nat * nat * nat) :=
  match n with O => [] | S n => (x, y, t) :: orbit n (S t) y ((2 * x + 3 * y) mod 5) end.
Definition rho_offset (x y : nat) : Z :=
  match list_find (fun p => p.1 = (x, y)) (orbit 24 0 1 0) with
  | Some (_, (_, _, t)) => Z.of_nat ((t + 1) * (t + 2) / 2 mod 64)
  | None => 0
  end.
Definition fips_rho (s : list Z) : list Z :=
  lanes (fun x y => let n := rho_offset x y in if n =? 0 then A s x y else rol (A s x y) n).
Definition fips_pi (s : list Z) : list Z := lanes (fun x y => A s (x + 3 * y) x).
Definition fips_chi (s : list Z) : list Z :=
  lanes (fun x y => Z.lxor (A s x y) (Z.land (not64 (A s (x + 1) y)) (A s (x + 2) y))).

(** The round constants: bit 2^j - 1 of constant [ir] is bit j + 7 ir of the
    feedback register. *)
Fixpoint lfsr (n : nat) (r : Z) : Z :=
  match n with
  | O => r
  | S n => let r := Z.shiftl r 1 in lfsr n (if Z.testbit r 8 then Z.lxor r 0x171 else r)
  end.
Definition rc_bit (t : nat) : bool := Z.testbit (lfsr (t mod 255) 1) 0.
Definition round_constant (ir : nat) : Z :=
  foldr Z.lor 0 ((fun j : nat => if rc_bit (j + 7 * ir) then Z.shiftl 1 (2 ^ Z.of_nat j - 1) else 0) <$> seq 0 7).
Definition fips_iota (ir : nat) (s : list Z) : list Z := xorAt s 0 (round_constant ir).

Definition fips_f (s : list Z) : list Z :=
  foldl (fun s ir => fips_iota ir (fips_chi (fips_pi (fips_rho (fips_theta s))))) s (seq 0 24).

(** The message with its domain bits and pad10*1, in blocks of [rate] bytes. *)
Definition fips_pad (rate : nat) (pad : Z) (inp : list Z) : list Z :=
  let q := (rate - length inp mod rate)%nat in
  inp ++ (if (q =? 1)%nat then [Z.lxor pad 0x80] else pad :: replicate (q - 2) 0 ++ [0x80]).
Definition fips_sponge (outlen : nat) (inp : list Z) (rate : nat) (pad : Z) : list Z :=
  let s := foldl (fun s b => fips_f (xorBytes s b)) zeroState (blocks rate (fips_pad rate pad inp)) in
  take outlen (seq 0 outlen ≫= fun i => bytesOf (Nat.iter i fips_f s) rate).

(** ** The permutation *)

Lemma destruct25 (P : list Z -> Prop) :
  (forall a b c d e f g h i j k l m n o p q r s t u v w x y, P [a; b; c; d; e; f; g; h; i; j; k; l; m; n; o; p; q; r; s; t; u; v; w; x; y]) ->
  forall s, length s = 25%nat -> P s.
Proof.
  intros H s Hs. do 25 (destruct s as [|? s]; [discriminate Hs|]). destruct s; [apply H|discriminate Hs].
Qed.

Lemma length_xorAt s i x : length (xorAt s i x) = length s.
Proof. apply length_insert. Qed.

Lemma rounds_tables : kRC = round_constant <$> seq 0 24.
Proof. vm_compute. reflexivity. Qed.

(** Each step is the one of the standard, lane by lane. *)
Lemma theta_reference s : length s = 25%nat -> theta s = fips_theta s.
Proof. revert s. apply destruct25. intros. cbv -[Z.lxor rol]. reflexivity. Qed.

Lemma rhoPi_reference s : length s = 25%nat -> rhoPi (combine piln rotc) s (lane s 1) = fips_pi (fips_rho s).
Proof. revert s. apply destruct25. intros. cbv -[Z.lxor rol]. reflexivity. Qed.

Lemma chi_reference s : length s = 25%nat -> chi s = fips_chi s.
Proof. revert s. apply destruct25. intros. cbv -[Z.lxor Z.land not64]. reflexivity. Qed.

Lemma round_reference s ir : length s = 25%nat -> (ir < 24)%nat ->
  roundF s (default 0 (kRC !! ir)) = fips_iota ir (fips_chi (fips_pi (fips_rho (fips_theta s)))).
Proof.
  intros Hs Hir. unfold roundF, fips_iota. rewrite theta_reference, rhoPi_reference, chi_reference by done.
  rewrite rounds_tables, list_lookup_fmap, lookup_seq_lt by done. done.
Qed.

Lemma length_round s ir : length (fips_iota ir s) = length s.
Proof. apply length_insert. Qed.

Lemma f_reference s : length s = 25%nat -> keccakF1600 s = fips_f s /\ length (fips_f s) = 25%nat.
Proof.
  intros Hs. unfold keccakF1600, fips_f.
  replace kRC with ((fun ir => default 0 (kRC !! ir)) <$> seq 0 24) by reflexivity.
  rewrite foldl_fmap.
  assert (forall l s, (forall i, i ∈ l -> (i < 24)%nat) -> length s = 25%nat ->
    foldl (fun x y => roundF x (default 0 (kRC !! y))) s l = foldl (fun s ir => fips_iota ir (fips_chi (fips_pi (fips_rho (fips_theta s))))) s l /\
    length (foldl (fun s ir => fips_iota ir (fips_chi (fips_pi (fips_rho (fips_theta s))))) s l) = 25%nat) as H.
  { clear. induction l as [|ir l IH]; intros s Hl Hs; cbn [foldl]; [done|].
    rewrite round_reference by (done || apply Hl; left). apply IH; [intros; apply Hl; by right|by rewrite length_round]. }
  apply H; [|done]. intros i Hi. apply elem_of_seq in Hi. lia.
Qed.

(** ** The sponge *)

Lemma length_xorBytes s bs : length (xorBytes s bs) = length s.
Proof.
  unfold xorBytes. generalize (combine (seq 0 (length bs)) bs). intros l. revert s.
  induction l as [|p l IH]; intros s; cbn [foldl]; [done|]. rewrite IH. apply length_insert.
Qed.

Lemma fips_pad_drop rate pad inp : (0 < rate)%nat -> (rate <= length inp)%nat ->
  drop rate (fips_pad rate pad inp) = fips_pad rate pad (drop rate inp) /\ take rate (fips_pad rate pad inp) = take rate inp.
Proof.
  intros Hr Hl. unfold fips_pad. rewrite length_drop.
  replace ((length inp - rate) mod rate)%nat with (length inp mod rate)%nat.
  - rewrite drop_app_le, take_app_le by lia. done.
  - replace (length inp) with (length inp - rate + 1 * rate)%nat at 1 by lia. by rewrite Nat.Div0.mod_add.
Qed.

Lemma lastBlock_pad rate pad inp : (0 < rate)%nat -> (length inp < rate)%nat -> lastBlock rate pad inp = fips_pad rate pad inp.
Proof.
  intros Hr Hl. unfold lastBlock, fips_pad. rewrite Nat.mod_small by done.
  assert (exists k, rate = length inp + S k)%nat as [k ->] by (exists (rate - length inp - 1)%nat; lia).
  replace (length inp + S k - length inp)%nat with (S k) by lia. cbn [replicate].
  rewrite insert_app_r_alt, Nat.sub_diag by lia. cbn [insert list_insert].
  replace (length inp + S k - 1)%nat with (length inp + k)%nat by lia.
  rewrite insert_app_r. f_equal. unfold lane. rewrite lookup_app_r by lia. replace (length inp + k - length inp)%nat with k by lia.
  destruct k as [|k]; [done|]. replace (S (S k) =? 1)%nat with false by done. replace (S (S k) - 2)%nat with k by lia.
  replace ((pad :: replicate (S k) 0) !! S k) with (Some 0) by (symmetry; apply (lookup_replicate_2 (S k) 0 k); lia).
  rewrite replicate_S_end. transitivity (pad :: <[k := 128]> (replicate k 0 ++ [0])); [reflexivity|]. f_equal.
  rewrite insert_app_r_alt, length_replicate, Nat.sub_diag by (rewrite length_replicate; lia). reflexivity.
Qed.

Lemma length_fips_pad_small rate pad inp : (0 < rate)%nat -> (length inp < rate)%nat -> length (fips_pad rate pad inp) = rate.
Proof.
  intros Hr Hl. rewrite <- lastBlock_pad by done. unfold lastBlock. rewrite !length_insert, length_app, length_replicate. lia.
Qed.

(** Absorbing: the state before the permutation of the last block. *)
Lemma absorb_reference rate pad fuel : (0 < rate)%nat -> forall inp s, (length inp < fuel)%nat -> length s = 25%nat ->
  let '(s', rest) := absorbLoop fuel rate s inp in
  keccakF1600 (xorBytes s' (lastBlock rate pad rest)) = foldl (fun s b => fips_f (xorBytes s b)) s (blocks rate (fips_pad rate pad inp)) /\
  length (xorBytes s' (lastBlock rate pad rest)) = 25%nat.
Proof.
  intros Hr. induction fuel as [|fuel IH]; intros inp s Hf Hs; [lia|]. cbn [absorbLoop].
  destruct (rate <=? length inp)%nat eqn:E.
  - apply Nat.leb_le in E. destruct (fips_pad_drop rate pad inp Hr E) as [Ed Et].
    assert (rate <= length (fips_pad rate pad inp))%nat by (unfold fips_pad; rewrite length_app; lia).
    rewrite (blocks_cons rate (fips_pad rate pad inp)) by done. cbn [foldl]. rewrite Ed, Et.
    destruct (f_reference (xorBytes s (take rate inp))) as [Ef Lf]; [by rewrite length_xorBytes|]. rewrite <- Ef.
    apply IH; [rewrite length_drop; lia|by rewrite Ef].
  - apply Nat.leb_gt in E. rewrite (blocks_cons rate (fips_pad rate pad inp)) by (rewrite ?length_fips_pad_small; lia).
    cbn [foldl]. rewrite take_ge, drop_ge by (rewrite length_fips_pad_small; lia).
    unfold blocks at 1. simpl length. rewrite Nat.Div0.div_0_l. cbn [seq fmap list_fmap foldl].
    rewrite lastBlock_pad by done. split; [|by rewrite length_xorBytes]. apply f_reference. by rewrite length_xorBytes.
Qed.

Lemma bytesOf_take s n rate : (n <= rate)%nat -> bytesOf s n = take n (bytesOf s rate).
Proof. intros H. unfold bytesOf. rewrite <- fmap_take. f_equal. rewrite take_seq. f_equal. lia. Qed.

(** Squeezing after the permutation of the last block. *)
Lemma squeeze_reference rate : (0 < rate)%nat -> forall fuel outlen s, (outlen <= fuel)%nat -> length s = 25%nat ->
  squeezeLoop fuel rate outlen s = take outlen (seq 0 fuel ≫= fun i => bytesOf (Nat.iter i fips_f (keccakF1600 s)) rate).
Proof.
  intros Hr. induction fuel as [|fuel IH]; intros outlen s Hf Hs; cbn [squeezeLoop]; [by destruct outlen|].
  destruct (outlen =? 0)%nat eqn:E; [apply Nat.eqb_eq in E; subst; done|]. apply Nat.eqb_neq in E.
  destruct (f_reference s Hs) as [Ef Lf]. rewrite IH by (rewrite ?Ef; lia || done).
  cbn [seq mbind list_bind]. simpl (Nat.iter 0 _ _). rewrite bind_shift.
  rewrite take_app, length_bytesOf. rewrite bytesOf_take with (rate := rate) by lia.
  destruct (f_reference (keccakF1600 s)) as [Ef2 _]; [by rewrite Ef|].
  assert (forall i, Nat.iter i fips_f (keccakF1600 (keccakF1600 s)) = Nat.iter (S i) fips_f (keccakF1600 s)) as Ei.
  { intros i. rewrite Ef2. by rewrite Nat.iter_succ_r. }
  destruct (decide (outlen <= rate)%nat).
  - rewrite Nat.min_l by done. replace (outlen - rate)%nat with O by lia. replace (outlen - outlen)%nat with O by lia. done.
  - rewrite Nat.min_r by lia. rewrite (take_ge (bytesOf _ rate) rate), (take_ge (bytesOf _ rate) outlen) by (rewrite length_bytesOf; lia).
    f_equal. f_equal. apply list_bind_ext; [|done]. intros i. simpl. by rewrite Ei.
Qed.

Lemma squeezeblocks_loop n : forall fuel s, (n <= fuel)%nat -> (shake128_squeezeblocks n s).1 = squeezeLoop fuel 168 (n * 168) s.
Proof.
  induction n as [|n IH]; intros fuel s Hf; [by destruct fuel|]. destruct fuel as [|fuel]; [lia|].
  cbn [shake128_squeezeblocks squeezeLoop]. specialize (IH fuel (keccakF1600 s) ltac:(lia)).
  destruct (shake128_squeezeblocks n (keccakF1600 s)) as [out ctx']. cbn [fst] in *. rewrite IH.
  replace (S n * 168 =? 0)%nat with false by done. replace (Nat.min (S n * 168) 168) with 168%nat by lia.
  by replace (S n * 168 - 168)%nat with (n * 168)%nat by lia.
Qed.

(** C27: the sponge is the one of FIPS 202.  For every rate and suffix byte the
    code's absorb and squeeze loops, with its in-place permutation and its
    tables, compute the standard's sponge: the padded message absorbed block by
    block through the permutation defined by coordinates (rotation offsets and
    round constants generated, not tabulated), then as many rate-sized parts as
    needed cut to the length; and squeezing SHAKE128 block by block gives the
    same bytes as one call. *)
Theorem keccak_is_fips rate pad outlen inp n : (0 < rate)%nat ->
  keccak outlen inp rate pad = fips_sponge outlen inp rate pad /\
  (shake128_squeezeblocks n (shake128_absorb inp)).1 = shake128 (n * 168) inp.
Proof.
  intros Hr. split.
  - pose proof (absorb_reference rate pad (S (length inp)) Hr inp zeroState ltac:(lia) eq_refl) as H.
    unfold keccak, absorbAll, fips_sponge. destruct (absorbLoop _ _ _ _) as [s rest]. destruct H as [E L].
    by rewrite squeeze_reference, E.
  - unfold shake128_absorb, shake128, keccak. apply squeezeblocks_loop. lia.
Qed.

(** The message "abc" under SHA3-256: the sponge of rate 136 and suffix 6. *)
Lemma keccak_is_fips_witness :
  sha3_256 [97; 98; 99] = fips_sponge 32 [97; 98; 99] 136 6 /\
  take 8 (sha3_256 [97; 98; 99]) = [0x3a; 0x98; 0x5d; 0xa7; 0x4f; 0xe2; 0x25; 0xb2].
Proof.
  split; [exact (proj1 (keccak_is_fips 136 6 32 [97; 98; 99] 0 ltac:(lia)))|vm_compute; reflexivity].
Defined.

End Keccak.
