(* ===== verification/MlKemField.v ===== *)
(** * Arithmetic modulo q for ML-KEM

    Model of the scalar routines of src/pqc/mlkem.cpp (Montgomery and Barrett
    reduction on 16-bit integers), the field of integers modulo q = 3329 they
    compute in, and finite sums and powers over that field. *)

From Stdlib Require Import Zmod.
From S2P Require Import Prelude.

Module MlKemField.

Create HintDb mlkem.
Create Rewrite HintDb toF.

Definition N : nat := 256.
Definition Q : Z := 3329.
Definition QINV : Z := -3327.

(** [(int16_t) z]. *)
Definition i16 (z : Z) : Z := Z.land (z + 32768) 0xffff - 32768.

(** [a] is an [int32_t]. *)
Definition montgomery_reduce (a : Z) : Z :=
  let t := i16 (i16 a * QINV) in
  i16 (Z.shiftr (a - t * Q) 16).

Definition barrett_reduce (a : Z) : Z :=
  let v := i16 ((2 ^ 26 + Q / 2) / Q) in
  let t := i16 (Z.shiftr (v * a + 2 ^ 25) 26) in
  let t := i16 (t * Q) in
  i16 (a - t).

Definition fqmul (a b : Z) : Z := montgomery_reduce (a * b).

(** ** The field *)

Abbreviation F := (Zmod 3329).

Declare Scope fq_scope.
Delimit Scope fq_scope with F.
Bind Scope fq_scope with Zmod.Zmod.
Infix "+" := (@Zmod.add 3329) : fq_scope.
Infix "-" := (@Zmod.sub 3329) : fq_scope.
Infix "*" := (@Zmod.mul 3329) : fq_scope.
Notation "- x" := (@Zmod.opp 3329 x) : fq_scope.
Notation "0" := (@Zmod.zero 3329) : fq_scope.
Notation "1" := (@Zmod.one 3329) : fq_scope.

(** The class of an integer. *)
Definition toF (z : Z) : F := Zmod.of_Z 3329 z.

(** The inverse of the Montgomery factor 2^16, and the factor. *)
Definition Rinv : F := toF 169.
Definition Rmont : F := toF 65536.

Fixpoint powF (x : F) (n : nat) : F :=
  match n with O => 1%F | S n => (x * powF x n)%F end.

Fixpoint sumF (n : nat) (f : nat -> F) : F :=
  match n with O => 0%F | S n => (sumF n f + f n)%F end.

Add Ring F_ring : (Zmod.ring_theory 3329).

Lemma toF_eq a b : toF a = toF b <-> a mod Q = b mod Q.
Proof. apply Zmod.of_Z_inj. Qed.

Lemma toF_cong a b k : a = b + k * Q -> toF a = toF b.
Proof. intros ->. apply toF_eq. by rewrite Z.mod_add. Qed.

Lemma toF_add a b : toF (a + b) = (toF a + toF b)%F.
Proof. apply Zmod.of_Z_add. Qed.
Lemma toF_sub a b : toF (a - b) = (toF a - toF b)%F.
Proof. apply Zmod.of_Z_sub. Qed.
Lemma toF_mul a b : toF (a * b) = (toF a * toF b)%F.
Proof. apply Zmod.of_Z_mul. Qed.
Lemma toF_opp a : toF (- a) = (- toF a)%F.
Proof. apply Zmod.of_Z_opp. Qed.
Lemma toF_0 : toF 0 = 0%F.
Proof. apply Zmod.of_Z_0. Qed.
Lemma toF_mod a : toF (a mod Q) = toF a.
Proof. apply Zmod.of_Z_mod. Qed.

Lemma toF_to_Z (x : F) : toF (Zmod.unsigned x) = x.
Proof. apply Zmod.of_Z_unsigned. Qed.

Lemma Rmont_inv : (Rmont * Rinv)%F = 1%F.
Proof. apply Zmod.to_Z_inj. vm_compute. reflexivity. Qed.

#[export] Hint Rewrite toF_add toF_sub toF_mul toF_opp toF_0 toF_mod : toF.

(** ** Sixteen-bit reductions *)

Definition int16 (z : Z) : Prop := -32768 <= z < 32768.

(** [bnd b z]: [z] is less than [b] in absolute value. *)
Definition bnd (b z : Z) : Prop := - b < z < b.

Lemma i16_mod z : i16 z = (z + 32768) mod 65536 - 32768.
Proof. unfold i16. change 0xffff with (Z.ones 16). by rewrite Z.land_ones by lia. Qed.

Lemma i16_small z : int16 z -> i16 z = z.
Proof. rewrite i16_mod. unfold int16. intros. rewrite Z.mod_small; lia. Qed.

Lemma i16_int16 z : int16 (i16 z).
Proof. rewrite i16_mod. unfold int16. pose proof (Z.mod_pos_bound (z + 32768) 65536). lia. Qed.

Lemma i16_div z : exists k, i16 z = z + k * 65536.
Proof.
  rewrite i16_mod. exists (- ((z + 32768) / 65536)). rewrite Z.mod_eq by lia. lia.
Qed.

(** The difference reduced is a multiple of 2^16. *)
Lemma montgomery_divides a : exists k, a - i16 (i16 a * QINV) * Q = k * 65536.
Proof.
  destruct (i16_div a) as [k1 E1]. destruct (i16_div (i16 a * QINV)) as [k2 E2].
  rewrite E2, E1. unfold QINV, Q. exists (a * 169 + (3327 * 3329) * k1 - k2 * 3329). lia.
Qed.

Lemma montgomery_spec a : - 2 ^ 30 <= a <= 2 ^ 30 ->
  toF (montgomery_reduce a) = (toF a * Rinv)%F /\
  exists t, int16 t /\ montgomery_reduce a * 65536 = a - t * Q.
Proof.
  intros Ha. unfold montgomery_reduce. set (t := i16 (i16 a * QINV)).
  destruct (montgomery_divides a) as [k Ek]. fold t in Ek.
  pose proof (i16_int16 (i16 a * QINV)) as Ht. fold t in Ht. unfold int16 in Ht.
  rewrite Z.shiftr_div_pow2 by lia. rewrite Ek. change (2 ^ 16) with 65536. rewrite Z.div_mul by lia.
  assert (int16 k) by (unfold int16, Q in *; lia). rewrite i16_small by done. split.
  - transitivity (toF (k * 65536) * Rinv)%F.
    + rewrite toF_mul. fold Rmont. transitivity (toF k * (Rmont * Rinv))%F; [rewrite Rmont_inv|]; ring.
    + f_equal. apply (toF_cong _ _ (- t)). lia.
  - exists t. split; [exact Ht|lia].
Qed.

(** Products of 16-bit integers, and the bound of the result. *)
Lemma fqmul_F a b : int16 a -> int16 b -> toF (fqmul a b) = (toF a * toF b * Rinv)%F.
Proof.
  unfold fqmul, int16. intros. rewrite <- toF_mul. apply montgomery_spec. nia.
Qed.

Lemma fqmul_bnd a b : int16 a -> bnd Q b -> bnd Q (fqmul a b).
Proof.
  unfold fqmul, int16, bnd. intros Ha Hb.
  assert (- (32768 * (Q - 1)) <= a * b <= 32768 * (Q - 1)) by (unfold Q in *; nia).
  destruct (montgomery_spec (a * b)) as [_ (t & Ht & E)]; [unfold Q in *; nia|].
  unfold Q, int16 in *. lia.
Qed.

Lemma fqmul_comm a b : fqmul a b = fqmul b a.
Proof. unfold fqmul. by rewrite Z.mul_comm. Qed.

Lemma bnd_int16 b z : b <= 32768 -> bnd b z -> int16 z.
Proof. unfold bnd, int16. lia. Qed.

Lemma bnd_mono b b' z : b <= b' -> bnd b z -> bnd b' z.
Proof. unfold bnd. lia. Qed.

(** Barrett reduction yields the representative of least absolute value. *)
Lemma barrett_spec a : int16 a ->
  toF (barrett_reduce a) = toF a /\ bnd 1665 (barrett_reduce a).
Proof.
  unfold int16. intros Ha. unfold barrett_reduce. change (i16 ((2 ^ 26 + Q / 2) / Q)) with 20159.
  rewrite Z.shiftr_div_pow2 by lia.
  pose proof (Z.div_mod (20159 * a + 2 ^ 25) (2 ^ 26) ltac:(lia)) as E.
  pose proof (Z.mod_pos_bound (20159 * a + 2 ^ 25) (2 ^ 26) ltac:(lia)) as B.
  set (t := (20159 * a + 2 ^ 25) / 2 ^ 26) in *. set (m := (20159 * a + 2 ^ 25) mod 2 ^ 26) in *.
  assert (int16 t) by (unfold int16; lia). rewrite (i16_small t) by done.
  assert (-1665 < a - t * Q < 1665) by (unfold Q; lia).
  destruct (i16_div (t * Q)) as [k Ek].
  assert (k = 0 \/ k = -1 \/ k = 1) by (pose proof (i16_int16 (t * Q)); unfold int16, Q in *; lia).
  assert (i16 (a - i16 (t * Q)) = a - t * Q) as ->.
  { rewrite Ek. destruct (i16_div (a - (t * Q + k * 65536))) as [k' Ek'].
    pose proof (i16_int16 (a - (t * Q + k * 65536))). unfold int16 in *. lia. }
  split; [|done]. apply (toF_cong _ _ (- t)). lia.
Qed.

Lemma barrett_F a : int16 a -> toF (barrett_reduce a) = toF a.
Proof. apply barrett_spec. Qed.
Lemma barrett_bnd a : int16 a -> bnd 1665 (barrett_reduce a).
Proof. apply barrett_spec. Qed.

(** ** Powers and sums *)

Lemma powF_add x n m : powF x (n + m) = (powF x n * powF x m)%F.
Proof. induction n as [|n IH]; simpl; [ring|rewrite IH; ring]. Qed.

Lemma powF_sqr x n : powF (x * x)%F n = powF x (2 * n).
Proof.
  induction n as [|n IH]; [done|]. replace (2 * S n)%nat with (S (S (2 * n)))%nat by lia.
  cbn [powF]. rewrite IH. ring.
Qed.

Lemma sumF_ext n f g : (forall i, (i < n)%nat -> f i = g i) -> sumF n f = sumF n g.
Proof.
  induction n as [|n IH]; intros H; simpl; [done|]. rewrite IH by (intros; apply H; lia). by rewrite H by lia.
Qed.

Lemma sumF_add n f g : sumF n (fun i => f i + g i)%F = (sumF n f + sumF n g)%F.
Proof. induction n as [|n IH]; simpl; [ring|rewrite IH; ring]. Qed.

Lemma sumF_sub n f g : sumF n (fun i => f i - g i)%F = (sumF n f - sumF n g)%F.
Proof. induction n as [|n IH]; simpl; [ring|rewrite IH; ring]. Qed.

Lemma sumF_mul_l n c f : sumF n (fun i => c * f i)%F = (c * sumF n f)%F.
Proof. induction n as [|n IH]; simpl; [ring|rewrite IH; ring]. Qed.

Lemma sumF_mul_r n c f : sumF n (fun i => f i * c)%F = (sumF n f * c)%F.
Proof. induction n as [|n IH]; simpl; [ring|rewrite IH; ring]. Qed.

Lemma sumF_0 n : sumF n (fun _ => 0%F) = 0%F.
Proof. induction n as [|n IH]; simpl; [done|rewrite IH; ring]. Qed.

Lemma sumF_split n m f : sumF (n + m) f = (sumF n f + sumF m (fun i => f (n + i)%nat))%F.
Proof.
  induction m as [|m IH]; simpl.
  - rewrite Nat.add_0_r. ring.
  - rewrite Nat.add_succ_r. simpl. rewrite IH. ring.
Qed.

Lemma sumF_swap n m (f : nat -> nat -> F) :
  sumF n (fun i => sumF m (f i)) = sumF m (fun j => sumF n (fun i => f i j)).
Proof.
  induction n as [|n IH]; simpl; [by rewrite sumF_0|]. by rewrite IH, sumF_add.
Qed.

(** Even and odd terms. *)
Lemma sumF_parity n f :
  sumF (2 * n) f = (sumF n (fun i => f (2 * i)%nat) + sumF n (fun i => f (2 * i + 1)%nat))%F.
Proof.
  induction n as [|n IH]; [simpl; ring|].
  replace (2 * S n)%nat with (S (S (2 * n)))%nat by lia. cbn [sumF]. rewrite IH.
  replace (2 * n + 1)%nat with (S (2 * n)) by lia. ring.
Qed.

#[export] Hint Resolve i16_int16 : mlkem.
#[export] Hint Resolve bnd_int16 bnd_mono fqmul_bnd barrett_bnd : mlkem.

End MlKemField.
