(* ===== verification/MlKemNtt.v ===== *)
(** * The number-theoretic transform of ML-KEM

    Model of [ntt], [invntt], [basemul] and the polynomial routines over them
    in src/pqc/mlkem.cpp, on arrays of 256 16-bit integers.  The transform of
    a polynomial is its residues modulo X^2 - zeta^(2 br(k) + 1), for k below
    128, as FIPS 203 has it, and multiplication through the transform is
    multiplication modulo X^256 + 1. *)

From Stdlib Require Import Zmod.
From S2P Require Import Prelude Bytes MlKemField.

Module MlKemNtt.
Import Bytes.
Import MlKemField.

Definition zetas : list Z := [
  -1044; -758; -359; -1517; 1493; 1422; 287; 202; -171; 622; 1577;
  182; 962; -1202; -1474; 1468; 573; -1325; 264; 383; -829; 1458;
  -1602; -130; -681; 1017; 732; 608; -1542; 411; -205; -1571; 1223;
  652; -552; 1015; -1293; 1491; -282; -1544; 516; -8; -320; -666;
  -1618; -1162; 126; 1469; -853; -90; -271; 830; 107; -1421; -247;
  -951; -398; 961; -1508; -725; 448; -1065; 677; -1275; -1103; 430;
  555; 843; -1251; 871; 1550; 105; 422; 587; 177; -235; -291;
  -460; 1574; 1653; -246; 778; 1159; -147; -777; 1483; -602; 1119;
  -1590; 644; -872; 349; 418; 329; -156; -75; 817; 1097; 603;
  610; 1322; -1285; -1465; 384; -1215; -136; 1218; -1335; -874; 220;
  -1187; -1659; -1185; -1530; -1278; 794; -1510; -854; -870; 478; -108;
  -308; 996; 991; 958; -1460; 1522; 1628].

Definition zeta_at (k : nat) : Z := coef zetas k.

(** ** The transforms *)

(** One butterfly of [ntt]. *)
Definition nttStep (zeta : Z) (len : nat) (r : list Z) (j : nat) : list Z :=
  let t := fqmul zeta (coef r (j + len)) in
  let r := <[(j + len)%nat := i16 (coef r j - t)]> r in
  <[j := i16 (coef r j + t)]> r.

(** The block at [start], with the next zeta. *)
Definition nttBlock (len : nat) (s : list Z * nat) (start : nat) : list Z * nat :=
  let '(r, k) := s in (foldl (nttStep (zeta_at k) len) r (seq start len), S k).

(** [start], [start + 2 len], ... below N. *)
Definition starts (len : nat) : list nat := (fun b => b * (2 * len))%nat <$> seq 0 (N / (2 * len)).

Definition ntt (r : list Z) : list Z :=
  (foldl (fun s len => foldl (nttBlock len) s (starts len)) (r, 1%nat) [128; 64; 32; 16; 8; 4; 2]%nat).1.

Definition invnttStep (zeta : Z) (len : nat) (r : list Z) (j : nat) : list Z :=
  let t := coef r j in
  let r := <[j := barrett_reduce (i16 (t + coef r (j + len)))]> r in
  let r := <[(j + len)%nat := i16 (coef r (j + len) - t)]> r in
  <[(j + len)%nat := fqmul zeta (coef r (j + len))]> r.

Definition invnttBlock (len : nat) (s : list Z * nat) (start : nat) : list Z * nat :=
  let '(r, k) := s in (foldl (invnttStep (zeta_at k) len) r (seq start len), (k - 1)%nat).

Definition invntt (r : list Z) : list Z :=
  let r := (foldl (fun s len => foldl (invnttBlock len) s (starts len)) (r, 127%nat) [2; 4; 8; 16; 32; 64; 128]%nat).1 in
  foldl (fun r j => <[j := fqmul (coef r j) 1441]> r) r (seq 0 N).

(** [basemul] on the pairs at [i], into the pair at [i] of [r]. *)
Definition basemul (r a b : list Z) (i : nat) (zeta : Z) : list Z :=
  let r := <[i := fqmul (coef a (i + 1)) (coef b (i + 1))]> r in
  let r := <[i := fqmul (coef r i) zeta]> r in
  let r := <[i := i16 (coef r i + fqmul (coef a i) (coef b i))]> r in
  let r := <[(i + 1)%nat := fqmul (coef a i) (coef b (i + 1))]> r in
  <[(i + 1)%nat := i16 (coef r (i + 1) + fqmul (coef a (i + 1)) (coef b i))]> r.

(** ** Polynomials *)

Abbreviation poly := (list Z).

Definition poly_reduce (a : poly) : poly := barrett_reduce <$> a.
Definition poly_add (a b : poly) : poly := zip_with (fun x y => i16 (x + y)) a b.
Definition poly_sub (a b : poly) : poly := zip_with (fun x y => i16 (x - y)) a b.
Definition poly_ntt (a : poly) : poly := poly_reduce (ntt a).
Definition poly_invntt (a : poly) : poly := invntt a.

(** [r] is the uninitialised result; every entry of it is written. *)
Definition poly_basemul_into (r a b : poly) : poly :=
  foldl (fun r i =>
    let r := basemul r a b (4 * i) (zeta_at (64 + i)) in
    basemul r a b (4 * i + 2) (i16 (- zeta_at (64 + i)))) r (seq 0 (N / 4)).
Definition poly_basemul (a b : poly) : poly := poly_basemul_into (replicate N 0) a b.

Definition poly_tomont (a : poly) : poly :=
  let f := i16 ((2 ^ 32) mod Q) in (fun x => montgomery_reduce (x * f)) <$> a.

(** Vectors of K = 3 polynomials. *)
Definition K : nat := 3.
Abbreviation polyvec := (list poly).
Definition zeroPoly : poly := replicate N 0.
Definition vec (a : polyvec) (i : nat) : poly := default zeroPoly (a !! i).

Definition polyvec_ntt (a : polyvec) : polyvec := poly_ntt <$> a.
Definition polyvec_invntt (a : polyvec) : polyvec := poly_invntt <$> a.
Definition polyvec_reduce (a : polyvec) : polyvec := poly_reduce <$> a.
Definition polyvec_add (a b : polyvec) : polyvec := zip_with poly_add a b.

Definition polyvec_basemul_acc (a b : polyvec) : poly :=
  poly_reduce (foldl (fun r i => poly_add r (poly_basemul (vec a i) (vec b i)))
    (poly_basemul (vec a 0) (vec b 0)) (seq 1 (K - 1))).

(** ** Loops over pairs *)

(** A step that replaces the entries at [j] and [j + len] by functions of
    the two. *)
Definition pairStep (f g : Z -> Z -> Z) (len : nat) (r : list Z) (j : nat) : list Z :=
  <[j := f (coef r j) (coef r (j + len))]> (<[(j + len)%nat := g (coef r j) (coef r (j + len))]> r).

Lemma nttStep_pair zeta len r j : (0 < len)%nat -> (j + len < length r)%nat ->
  nttStep zeta len r j = pairStep (fun a b => i16 (a + fqmul zeta b)) (fun a b => i16 (a - fqmul zeta b)) len r j.
Proof.
  intros Hl Hj. unfold nttStep, pairStep. f_equal. f_equal. f_equal.
  rewrite coef_insert, decide_False by lia. done.
Qed.

Lemma invnttStep_pair zeta len r j : (0 < len)%nat -> (j + len < length r)%nat ->
  invnttStep zeta len r j = pairStep (fun a b => barrett_reduce (i16 (a + b))) (fun a b => fqmul zeta (i16 (b - a))) len r j.
Proof.
  intros Hl Hj. unfold invnttStep, pairStep.
  rewrite (coef_insert _ j (j + len)), decide_False by lia.
  rewrite coef_insert, decide_True by (rewrite length_insert; lia).
  rewrite list_insert_insert_eq. rewrite list_insert_insert_ne by lia. done.
Qed.

Lemma length_pairStep f g len r j : length (pairStep f g len r j) = length r.
Proof. unfold pairStep. by rewrite !length_insert. Qed.

(** What a run of [n] steps from [start] leaves at each index. *)
Lemma pairLoop_spec f g len start n r :
  (n <= len)%nat -> (start + len + n <= length r)%nat ->
  let r' := foldl (pairStep f g len) r (seq start n) in
  length r' = length r /\
  (forall o, (o < n)%nat -> coef r' (start + o) = f (coef r (start + o)) (coef r (start + o + len)) /\
     coef r' (start + o + len) = g (coef r (start + o)) (coef r (start + o + len))) /\
  (forall i, (i < start \/ start + n <= i < start + len \/ start + len + n <= i)%nat -> coef r' i = coef r i).
Proof.
  intros Hn Hr. induction n as [|n IH]; [simpl; split_and!; [done|lia|done]|].
  destruct IH as (Hl & Hp & Ho); [lia..|].
  rewrite seq_S, foldl_app. cbn [foldl]. set (r1 := foldl _ r (seq start n)) in *.
  cbv zeta. split_and!; [by rewrite length_pairStep| |].
  - intros o Ho'. unfold pairStep.
    destruct (decide (o = n)) as [->|Hne].
    + rewrite !coef_insert, decide_True by (rewrite length_insert; lia).
      rewrite decide_False by lia. rewrite decide_True by lia.
      rewrite !Ho by lia. done.
    + rewrite !coef_insert, !decide_False by lia. apply Hp. lia.
  - intros i Hi. unfold pairStep. rewrite !coef_insert, !decide_False by lia. apply Ho. lia.
Qed.

(** A layer: one run per block, with functions that depend on the block. *)
Definition layerLoop (f g : nat -> Z -> Z -> Z) (len nb : nat) (r : list Z) : list Z :=
  foldl (fun r b => foldl (pairStep (f b) (g b) len) r (seq (b * (2 * len)) len)) r (seq 0 nb).

Lemma layerLoop_spec f g len nb r :
  (0 < len)%nat -> (nb * (2 * len) <= length r)%nat ->
  let r' := layerLoop f g len nb r in
  length r' = length r /\
  (forall b o, (b < nb)%nat -> (o < len)%nat ->
     let i := (b * (2 * len) + o)%nat in
     coef r' i = f b (coef r i) (coef r (i + len)) /\ coef r' (i + len) = g b (coef r i) (coef r (i + len))) /\
  (forall i, (nb * (2 * len) <= i)%nat -> coef r' i = coef r i).
Proof.
  intros Hlen. unfold layerLoop. induction nb as [|nb IH]; intros Hr; [simpl; split_and!; [done|lia|done]|].
  destruct IH as (Hl & Hp & Ho); [lia|].
  rewrite seq_S, foldl_app. cbn [foldl]. rewrite Nat.add_0_l. set (r1 := foldl _ r (seq 0 nb)) in *.
  destruct (pairLoop_spec (f nb) (g nb) len (nb * (2 * len)) len r1) as (Hl' & Hp' & Ho'); [lia|lia|].
  cbv zeta in *. split_and!; [congruence| |].
  - intros b o Hb Ho2. destruct (decide (b = nb)) as [->|Hne].
    + destruct (Hp' o Ho2) as [-> ->]. rewrite !Ho by lia. done.
    + assert (b * (2 * len) + 2 * len <= nb * (2 * len))%nat by nia.
      rewrite !Ho' by lia. apply Hp; lia.
  - intros i Hi. rewrite Ho', Ho by lia. done.
Qed.

(** ** The layers over the field *)

Definition val (r : list Z) (i : nat) : F := toF (coef r i).

(** The root of a block: the table holds Montgomery representatives. *)
Definition zF (k : nat) : F := (toF (zeta_at k) * Rinv)%F.

Definition good (B : Z) (r : list Z) : Prop := length r = N /\ Forall (bnd B) r.

Lemma good_bnd B r i : 0 < B -> good B r -> bnd B (coef r i).
Proof.
  intros HB [_ Hr]. unfold coef. destruct (r !! i) eqn:E; simpl; [|unfold bnd; lia].
  by eapply Forall_lookup_1.
Qed.

Lemma good_intro B r : length r = N -> (forall i, (i < N)%nat -> bnd B (coef r i)) -> good B r.
Proof.
  intros Hl H. split; [done|]. apply Forall_lookup_2. intros i x Hx.
  pose proof (lookup_lt_Some _ _ _ Hx).
  assert (coef r i = x) as <- by (unfold coef; by rewrite Hx). apply H. lia.
Qed.

Lemma good_mono B B' r : B <= B' -> good B r -> good B' r.
Proof. intros HB [Hl Hr]. split; [done|]. eapply Forall_impl; [exact Hr|]. intros. eapply bnd_mono; eauto. Qed.

Lemma zetas_bnd : Forall (bnd 1665) zetas.
Proof. apply (bool_decide_eq_true_1 (Forall (fun z => -1665 < z < 1665) zetas)). vm_compute. reflexivity. Qed.

Lemma zeta_bnd k : bnd 1665 (zeta_at k).
Proof.
  unfold zeta_at, coef. destruct (zetas !! k) eqn:E; simpl; [|unfold bnd; lia].
  eapply Forall_lookup_1; [exact zetas_bnd|exact E].
Qed.

(** A level: block length, number of blocks, root of each block. *)
Definition level : Type := nat * nat * (nat -> F).

Definition fwd (l : level) (f g : nat -> F) : Prop :=
  let '(len, nb, z) := l in
  forall b o, (b < nb)%nat -> (o < len)%nat -> let i := (b * (2 * len) + o)%nat in
    g i = (f i + z b * f (i + len)%nat)%F /\ g (i + len)%nat = (f i - z b * f (i + len)%nat)%F.

Definition inv (l : level) (f g : nat -> F) : Prop :=
  let '(len, nb, z) := l in
  forall b o, (b < nb)%nat -> (o < len)%nat -> let i := (b * (2 * len) + o)%nat in
    g i = (f i + f (i + len)%nat)%F /\ g (i + len)%nat = (z b * (f (i + len)%nat - f i))%F.

(** Indexes below the length of the arrays. *)
Definition peq (f g : nat -> F) : Prop := forall i, (i < N)%nat -> f i = g i.

#[global] Instance peq_equiv : Equivalence peq.
Proof.
  split; [by intros f i|intros f g H i Hi; symmetry; by apply H|].
  intros f g h H1 H2 i Hi. by rewrite H1, H2.
Qed.

Fixpoint chain (R : level -> (nat -> F) -> (nat -> F) -> Prop) (ls : list level) (f g : nat -> F) : Prop :=
  match ls with
  | [] => f = g
  | l :: ls => exists h, R l f h /\ chain R ls h g
  end.

Definition full (len nb : nat) : Prop := (0 < len)%nat /\ (nb * (2 * len))%nat = N.

Lemma block_cases len nb i : full len nb -> (i < N)%nat ->
  exists b o, (b < nb)%nat /\ (o < len)%nat /\ (i = b * (2 * len) + o \/ i = b * (2 * len) + o + len)%nat.
Proof.
  intros [Hl Hn] Hi. exists (i / (2 * len))%nat.
  pose proof (Nat.div_mod i (2 * len) ltac:(lia)). pose proof (Nat.mod_upper_bound i (2 * len) ltac:(lia)).
  assert (i / (2 * len) < nb)%nat by (apply Nat.Div0.div_lt_upper_bound; lia).
  destruct (decide (i mod (2 * len) < len)%nat).
  - exists (i mod (2 * len))%nat. split_and!; [done..|]. left. lia.
  - exists (i mod (2 * len) - len)%nat. split_and!; [done|lia|]. right. lia.
Qed.

(** A pointwise bound on a layer gives one on the array. *)
Lemma layer_good f g len nb B B' r :
  full len nb -> 0 < B -> good B r ->
  (forall b x y, bnd B x -> bnd B y -> bnd B' (f b x y) /\ bnd B' (g b x y)) ->
  good B' (layerLoop f g len nb r).
Proof.
  intros Hf HB Hr H. destruct (layerLoop_spec f g len nb r) as (Hl & Hp & _);
    [apply Hf|destruct Hf, Hr; lia|].
  apply good_intro; [by rewrite Hl; destruct Hr|]. intros i Hi.
  destruct (block_cases len nb i Hf Hi) as (b & o & Hb & Ho & Ei).
  destruct (Hp b o Hb Ho) as [E1 E2]. destruct Ei as [-> | ->]; rewrite ?E1, ?E2; apply H; by apply good_bnd.
Qed.

Definition nttLayer (k len nb : nat) (r : list Z) : list Z :=
  layerLoop (fun b x y => i16 (x + fqmul (zeta_at (k + b)) y)) (fun b x y => i16 (x - fqmul (zeta_at (k + b)) y)) len nb r.
Definition invnttLayer (k len nb : nat) (r : list Z) : list Z :=
  layerLoop (fun b x y => barrett_reduce (i16 (x + y))) (fun b x y => fqmul (zeta_at (k - b)) (i16 (y - x))) len nb r.

Lemma nttLayer_spec k len nb B r :
  full len nb -> 0 < B -> B + Q <= 32768 -> good B r ->
  good (B + Q) (nttLayer k len nb r) /\ fwd (len, nb, fun b => zF (k + b)) (val r) (val (nttLayer k len nb r)).
Proof.
  intros Hf HB HQ Hr.
  assert (forall b x y, bnd B x -> bnd B y ->
    int16 (x + fqmul (zeta_at (k + b)) y) /\ int16 (x - fqmul (zeta_at (k + b)) y) /\
    bnd (B + Q) (x + fqmul (zeta_at (k + b)) y) /\ bnd (B + Q) (x - fqmul (zeta_at (k + b)) y)) as Hb.
  { intros b x y Hx Hy. assert (bnd Q (fqmul (zeta_at (k + b)) y)).
    { rewrite fqmul_comm. apply fqmul_bnd; [apply (bnd_int16 B); unfold Q in *; [lia|done]|].
      apply (bnd_mono 1665); [unfold Q; lia|apply zeta_bnd]. }
    unfold bnd, int16, Q in *. lia. }
  split.
  - apply (layer_good _ _ _ _ B); [done..|]. intros b x y Hx Hy.
    destruct (Hb b x y Hx Hy) as (H1 & H2 & H3 & H4). by rewrite !i16_small.
  - unfold nttLayer.
    match goal with |- fwd _ _ (val (layerLoop ?f ?g _ _ _)) => destruct (layerLoop_spec f g len nb r) as (_ & Hp & _) end;
      [apply Hf|destruct Hf, Hr; lia|].
    intros b o Hb1 Ho. destruct (Hp b o Hb1 Ho) as [E1 E2]. cbv zeta. unfold val. rewrite E1, E2.
    set (i := (b * (2 * len) + o)%nat).
    destruct (Hb b (coef r i) (coef r (i + len))) as (H1 & H2 & _); [by apply good_bnd..|].
    rewrite !i16_small, toF_add, toF_sub by done.
    rewrite fqmul_F; [|apply (bnd_int16 1665); [lia|apply zeta_bnd]|apply (bnd_int16 B); [unfold Q in *; lia|by apply good_bnd]].
    unfold zF. split; ring.
Qed.

Lemma invnttLayer_spec k len nb r :
  full len nb -> good Q r ->
  good Q (invnttLayer k len nb r) /\ inv (len, nb, fun b => zF (k - b)) (val r) (val (invnttLayer k len nb r)).
Proof.
  intros Hf Hr.
  assert (forall x y, bnd Q x -> bnd Q y -> int16 (x + y) /\ int16 (y - x)) as Hb
    by (unfold bnd, int16, Q; lia).
  assert (forall b x y, bnd Q x -> bnd Q y -> bnd Q (fqmul (zeta_at (k - b)) (i16 (y - x)))) as Hb2.
  { intros b x y Hx Hy. rewrite fqmul_comm. apply fqmul_bnd; [apply i16_int16|].
    apply (bnd_mono 1665); [unfold Q; lia|apply zeta_bnd]. }
  split.
  - apply (layer_good _ _ _ _ Q); [done|unfold Q; lia|done|]. intros b x y Hx Hy. split; [|by apply Hb2].
    apply (bnd_mono 1665); [unfold Q; lia|]. apply barrett_bnd, i16_int16.
  - unfold invnttLayer.
    match goal with |- inv _ _ (val (layerLoop ?f ?g _ _ _)) => destruct (layerLoop_spec f g len nb r) as (_ & Hp & _) end;
      [apply Hf|destruct Hf, Hr; lia|].
    intros b o Hb1 Ho. destruct (Hp b o Hb1 Ho) as [E1 E2]. cbv zeta. unfold val. rewrite E1, E2.
    set (i := (b * (2 * len) + o)%nat).
    destruct (Hb (coef r i) (coef r (i + len))) as (H1 & H2); [by apply good_bnd..|].
    rewrite barrett_F, !i16_small, toF_add by eauto with mlkem.
    rewrite fqmul_F; [|apply (bnd_int16 1665); [lia|apply zeta_bnd]|done].
    rewrite toF_sub. unfold zF. split; ring.
Qed.

(** ** The loops of the transforms are layers *)

Lemma layerLoop_step_eq step f g len nb r :
  (nb * (2 * len) <= length r)%nat -> (0 < len)%nat ->
  (forall b r j, (b < nb)%nat -> (j + len < length r)%nat -> step b r j = pairStep (f b) (g b) len r j) ->
  foldl (fun r b => foldl (step b) r (seq (b * (2 * len)) len)) r (seq 0 nb) = layerLoop f g len nb r.
Proof.
  intros Hl Hlen H. unfold layerLoop. eapply (proj1 (foldl_ext_in _ _ (fun r' => length r' = length r) _ _ eq_refl _)).
  Unshelve. intros r1 b Hr1 Hb. apply elem_of_seq in Hb.
  assert (b * (2 * len) + 2 * len <= nb * (2 * len))%nat by nia.
  eapply (foldl_ext_in _ _ (fun r' => length r' = length r)); [done|].
  intros r2 j Hr2 Hj. apply elem_of_seq in Hj.
  rewrite H by lia. split; [done|]. by rewrite length_pairStep.
Qed.

(** The zeta counter moves by one per block. *)
Lemma blocks_counter (step : nat -> list Z -> nat -> list Z) (nxt : nat -> nat) (at_b : nat -> nat) len nb r k :
  (forall b, nxt (at_b b) = at_b (S b)) -> at_b 0%nat = k ->
  foldl (fun s start => (foldl (step s.2) s.1 (seq start len), nxt s.2)) (r, k) ((fun b => b * (2 * len))%nat <$> seq 0 nb)
  = (foldl (fun r b => foldl (step (at_b b)) r (seq (b * (2 * len)) len)) r (seq 0 nb), at_b nb).
Proof.
  intros Hn H0. induction nb as [|nb IH]; [by rewrite <- H0|].
  rewrite seq_S, fmap_app, !foldl_app, IH. cbn -[Nat.mul]. by rewrite Hn.
Qed.

Lemma nttBlocks_layer len nb r k :
  (0 < len)%nat -> (nb * (2 * len) <= length r)%nat ->
  foldl (nttBlock len) (r, k) ((fun b => b * (2 * len))%nat <$> seq 0 nb) = (nttLayer k len nb r, (k + nb)%nat).
Proof.
  intros Hlen Hl. transitivity (foldl (fun s start => (foldl (nttStep (zeta_at s.2) len) s.1 (seq start len), S s.2)) (r, k)
    ((fun b => b * (2 * len))%nat <$> seq 0 nb)).
  { eapply (foldl_ext_in _ _ (fun _ => True)); [done|]. by intros [? ?] ? _ _. }
  rewrite (blocks_counter (fun k => nttStep (zeta_at k) len) S (fun b => (k + b)%nat)) by (intros; lia).
  f_equal. apply layerLoop_step_eq; [done..|]. intros. by apply nttStep_pair.
Qed.

Lemma invnttBlocks_layer len nb r k :
  (0 < len)%nat -> (nb * (2 * len) <= length r)%nat ->
  foldl (invnttBlock len) (r, k) ((fun b => b * (2 * len))%nat <$> seq 0 nb) = (invnttLayer k len nb r, (k - nb)%nat).
Proof.
  intros Hlen Hl. transitivity (foldl (fun s start => (foldl (invnttStep (zeta_at s.2) len) s.1 (seq start len), (s.2 - 1)%nat)) (r, k)
    ((fun b => b * (2 * len))%nat <$> seq 0 nb)).
  { eapply (foldl_ext_in _ _ (fun _ => True)); [done|]. by intros [? ?] ? _ _. }
  rewrite (blocks_counter (fun k => invnttStep (zeta_at k) len) (fun k => (k - 1)%nat) (fun b => (k - b)%nat)) by (intros; lia).
  f_equal. apply layerLoop_step_eq; [done..|]. intros. by apply invnttStep_pair.
Qed.

(** The levels a sequence of block lengths goes through. *)
Fixpoint fwdLevels (lens : list nat) (k : nat) : list level :=
  match lens with
  | [] => []
  | len :: lens => let nb := (N / (2 * len))%nat in (len, nb, fun b => zF (k + b)) :: fwdLevels lens (k + nb)
  end.
Fixpoint invLevels (lens : list nat) (k : nat) : list level :=
  match lens with
  | [] => []
  | len :: lens => let nb := (N / (2 * len))%nat in (len, nb, fun b => zF (k - b)) :: invLevels lens (k - nb)
  end.

Definition full_len (len : nat) : Prop := full len (N / (2 * len)).
#[export] Instance full_len_dec len : Decision (full_len len) := and_dec _ _.

Lemma nttLoop_chain lens r k B :
  Forall full_len lens -> 0 < B -> B + Q * Z.of_nat (length lens) <= 32768 -> good B r ->
  let r' := (foldl (fun s len => foldl (nttBlock len) s (starts len)) (r, k) lens).1 in
  good (B + Q * Z.of_nat (length lens)) r' /\ chain fwd (fwdLevels lens k) (val r) (val r').
Proof.
  revert r k B. induction lens as [|len lens IH]; intros r k B Hf HB HQ Hr; cbv zeta; cbn [foldl length].
  { split; [|simpl; reflexivity]. eapply good_mono; [|exact Hr]. lia. }
  apply Forall_cons in Hf as [Hf Hfs]. pose proof Hf as [Hl Hn]. cbn [length] in HQ.
  unfold starts at 2 4. rewrite nttBlocks_layer by (destruct Hr; lia).
  destruct (nttLayer_spec k len (N / (2 * len)) B r) as [Hg Hs]; [done|done|unfold Q in *; lia|done|].
  destruct (IH (nttLayer k len (N / (2 * len)) r) (k + N / (2 * len))%nat (B + Q)) as [IH1 IH2];
    [done|unfold Q; lia|lia|done|]. split.
  - eapply good_mono; [|exact IH1]. lia.
  - cbn [chain fwdLevels]. eauto.
Qed.

Lemma invnttLoop_chain lens r k :
  Forall full_len lens -> good Q r ->
  let r' := (foldl (fun s len => foldl (invnttBlock len) s (starts len)) (r, k) lens).1 in
  good Q r' /\ chain inv (invLevels lens k) (val r) (val r').
Proof.
  revert r k. induction lens as [|len lens IH]; intros r k Hf Hr; cbv zeta; cbn [foldl].
  { split; [done|simpl; reflexivity]. }
  apply Forall_cons in Hf as [Hf Hfs]. pose proof Hf as [Hl Hn].
  unfold starts at 2 4. rewrite invnttBlocks_layer by (destruct Hr; lia).
  destruct (invnttLayer_spec k len (N / (2 * len)) r) as [Hg Hs]; [done..|].
  destruct (IH (invnttLayer k len (N / (2 * len)) r) (k - N / (2 * len))%nat) as [IH1 IH2]; [done..|].
  split; [done|]. cbn [chain invLevels]. eauto.
Qed.

Definition lens : list nat := [128; 64; 32; 16; 8; 4; 2]%nat.

Lemma lens_full : Forall full_len lens.
Proof. apply (bool_decide_eq_true_1 (Forall full_len lens)). vm_compute. reflexivity. Qed.

Lemma ntt_chain r B : 0 < B <= 9465 -> good B r ->
  good 32768 (ntt r) /\ chain fwd (fwdLevels lens 1) (val r) (val (ntt r)).
Proof.
  intros HB Hr. destruct (nttLoop_chain lens r 1 B) as [H1 H2]; [apply lens_full|lia|simpl; unfold Q; lia|done|].
  split; [|exact H2]. eapply good_mono; [|exact H1]. simpl. unfold Q. lia.
Qed.

(** The final scaling. *)
Lemma scale_spec r n c : (n <= length r)%nat ->
  let r' := foldl (fun r j => <[j := fqmul (coef r j) c]> r) r (seq 0 n) in
  length r' = length r /\ forall i, coef r' i = if decide (i < n)%nat then fqmul (coef r i) c else coef r i.
Proof.
  induction n as [|n IH]; intros Hn; [simpl; done|]. rewrite seq_S, foldl_app. cbn [foldl].
  destruct IH as [Hl Hp]; [lia|]. set (r1 := foldl _ r (seq 0 n)) in *. cbv zeta. split; [by rewrite length_insert|].
  intros i. rewrite coef_insert, Nat.add_0_l, (Hp n), (Hp i).
  destruct (decide (i = n)) as [->|Hne].
  - by rewrite (decide_False (P := (n < n)%nat)), !decide_True by lia.
  - rewrite decide_False by lia. destruct (decide (i < n)%nat), (decide (i < S n)%nat); done || lia.
Qed.

Lemma invntt_chain r : good Q r ->
  good Q (invntt r) /\ exists h, chain inv (invLevels (rev lens) 127) (val r) h /\
    forall i, (i < N)%nat -> val (invntt r) i = (h i * (toF 1441 * Rinv))%F.
Proof.
  intros Hr. destruct (invnttLoop_chain (rev lens) r 127) as [H1 H2]; [by apply Forall_rev, lens_full|done|].
  unfold invntt. change [2; 4; 8; 16; 32; 64; 128]%nat with (rev lens). set (r1 := (foldl _ (r, 127%nat) (rev lens)).1) in *.
  destruct (scale_spec r1 N 1441) as [Hl Hp]; [by destruct H1; lia|]. set (r2 := foldl _ r1 (seq 0 N)) in *.
  assert (forall i, bnd Q (coef r1 i)) by (intros; apply good_bnd; [unfold Q; lia|done]).
  split.
  - apply good_intro; [destruct H1; congruence|]. intros i Hi. rewrite Hp, decide_True by done.
    apply fqmul_bnd; [eauto with mlkem|]. 2: unfold bnd, Q; lia. by apply (bnd_int16 Q); [unfold Q; lia|].
  - exists (val r1). split; [done|]. intros i Hi. unfold val. rewrite Hp, decide_True by done.
    rewrite fqmul_F; [ring|by apply (bnd_int16 Q); [unfold Q; lia|]|unfold int16; lia].
Qed.

(** ** Inverses *)

(** Levels of the two transforms match when their roots are inverse up to
    sign. *)
Definition matches (l l' : level) : Prop :=
  let '(len, nb, z) := l in let '(len', nb', z') := l' in
  len' = len /\ nb' = nb /\ full len nb /\ forall b, (b < nb)%nat -> (z b * z' b)%F = (- (1))%F.

Definition two : F := (1 + 1)%F.

Lemma fwd_then_inv l l' c f g g' h :
  matches l l' -> fwd l f g -> peq g' (fun i => c * g i)%F -> inv l' g' h -> peq h (fun i => c * two * f i)%F.
Proof.
  destruct l as [[len nb] z], l' as [[len' nb'] z']. intros (-> & -> & Hf & Hz) Hg Hg' Hh i Hi.
  destruct (block_cases len nb i Hf Hi) as (b & o & Hb & Ho & Ei).
  assert (b * (2 * len) + 2 * len <= N)%nat by (destruct Hf as [_ <-]; nia).
  destruct (Hg b o Hb Ho) as [G1 G2]. destruct (Hh b o Hb Ho) as [H1 H2].
  rewrite !Hg' in H1, H2 by lia. rewrite G1, G2 in H1, H2. unfold two.
  destruct Ei as [-> | ->]; [rewrite H1; ring|rewrite H2].
  transitivity (- (z b * z' b) * (c * (1 + 1)) * f (b * (2 * len) + o + len)%nat)%F; [ring|rewrite Hz by done; ring].
Qed.

Lemma inv_then_fwd l l' c f g f' g' :
  matches l l' -> inv l' g f -> peq f' (fun i => c * f i)%F -> fwd l f' g' -> peq g' (fun i => c * two * g i)%F.
Proof.
  destruct l as [[len nb] z], l' as [[len' nb'] z']. intros (-> & -> & Hf & Hz) Hg Hf' Hh i Hi.
  destruct (block_cases len nb i Hf Hi) as (b & o & Hb & Ho & Ei).
  assert (b * (2 * len) + 2 * len <= N)%nat by (destruct Hf as [_ <-]; nia).
  destruct (Hg b o Hb Ho) as [G1 G2]. destruct (Hh b o Hb Ho) as [H1 H2].
  rewrite !Hf' in H1, H2 by lia. rewrite G1, G2 in H1, H2. unfold two.
  set (x := g (b * (2 * len) + o)%nat) in *. set (y := g (b * (2 * len) + o + len)%nat) in *.
  assert (z b * (c * (z' b * (y - x))) = - (c * (y - x)))%F as Ez.
  { transitivity ((z b * z' b) * (c * (y - x)))%F; [ring|rewrite Hz by done; ring]. }
  destruct Ei as [-> | ->]; [rewrite H1|rewrite H2]; rewrite Ez; unfold x, y; ring.
Qed.

Lemma chain_app R l1 l2 f g : chain R (l1 ++ l2) f g <-> exists h, chain R l1 f h /\ chain R l2 h g.
Proof.
  revert f. induction l1 as [|l l1 IH]; intros f; simpl; [naive_solver|]. setoid_rewrite IH. naive_solver.
Qed.

Lemma chain_single R l f g : chain R [l] f g <-> R l f g.
Proof. simpl. naive_solver. Qed.

Lemma chain_fwd_then_inv L L' c f g g' h :
  Forall2 matches L L' -> chain fwd L f g -> peq g' (fun i => c * g i)%F -> chain inv (rev L') g' h ->
  peq h (fun i => c * powF two (length L) * f i)%F.
Proof.
  intros HL. revert f h. induction HL as [|l l' L L' Hm HL IH]; intros f h; simpl.
  - intros <- Hg <- i Hi. rewrite Hg by done. ring.
  - intros (f1 & Hf1 & Hc) Hg [h1 [Hh1 Hi1]]%chain_app. apply chain_single in Hi1.
    pose proof (fwd_then_inv _ _ _ _ _ _ _ Hm Hf1 (IH _ _ Hc Hg Hh1) Hi1) as H.
    intros i Hi. rewrite H by done. ring.
Qed.

Lemma chain_inv_then_fwd L L' c f g f' g' :
  Forall2 matches L L' -> chain inv (rev L') g f -> peq f' (fun i => c * f i)%F -> chain fwd L f' g' ->
  peq g' (fun i => c * powF two (length L) * g i)%F.
Proof.
  intros HL. revert c f f'. induction HL as [|l l' L L' Hm HL IH]; intros c f f'; simpl.
  - intros <- Hf <- i Hi. rewrite Hf by done. ring.
  - intros [h1 [Hh1 Hi1]]%chain_app Hf (f1 & Hf1 & Hc). apply chain_single in Hi1.
    pose proof (inv_then_fwd _ _ _ _ _ _ _ Hm Hi1 Hf Hf1) as H.
    pose proof (IH _ _ _ Hh1 H Hc) as H'. intros i Hi. rewrite H' by done. ring.
Qed.

(** The levels of the two transforms. *)
Definition matchesb (l l' : level) : bool :=
  let '(len, nb, z) := l in let '(len', nb', z') := l' in
  bool_decide (len' = len /\ nb' = nb /\ full len nb) &&
  forallb (fun b => Zmod.eqb (z b * z' b)%F (- (1))%F) (seq 0 nb).

Lemma matchesb_spec l l' : matchesb l l' = true -> matches l l'.
Proof.
  destruct l as [[len nb] z], l' as [[len' nb'] z']. unfold matchesb, matches. intros [H1 H2]%andb_true_iff.
  apply bool_decide_eq_true in H1 as (? & ? & ?). split_and!; [done..|]. intros b Hb.
  rewrite forallb_forall in H2. apply Zmod.eqb_eq, H2, in_seq. lia.
Qed.

Lemma levels_match : Forall2 matches (fwdLevels lens 1) (rev (invLevels (rev lens) 127)).
Proof.
  assert (forall L L', length L = length L' -> forallb (fun p => matchesb p.1 p.2) (combine L L') = true -> Forall2 matches L L') as H.
  { induction L as [|l L IH]; intros [|l' L']; simpl; try done. intros [= ?] [? ?]%andb_true_iff.
    constructor; [by apply matchesb_spec|by apply IH]. }
  apply H; [reflexivity|]. vm_compute. reflexivity.
Qed.

(** The scaling by 1441 leaves the Montgomery factor. *)
Lemma scaling : (powF two 7 * (toF 1441 * Rinv))%F = Rmont.
Proof. apply Zmod.to_Z_inj. vm_compute. reflexivity. Qed.

Lemma length_levels : length (fwdLevels lens 1) = 7%nat.
Proof. reflexivity. Qed.

(** The inverse transform of a multiple of a transform. *)
Lemma invntt_of_ntt c r r' B : 0 < B <= 9465 -> good B r -> good Q r' ->
  peq (val r') (fun i => c * val (ntt r) i)%F -> peq (val (invntt r')) (fun i => c * Rmont * val r i)%F.
Proof.
  intros HB Hr Hr' E. destruct (ntt_chain r B HB Hr) as [_ Hc].
  destruct (invntt_chain r' Hr') as [_ (h & Hh & Hv)].
  rewrite <- (rev_involutive (invLevels _ _)) in Hh.
  pose proof (chain_fwd_then_inv _ _ c _ _ _ _ levels_match Hc E Hh) as H.
  intros i Hi. rewrite Hv, H, length_levels by done. rewrite <- scaling. ring.
Qed.

(** The transform of an inverse transform. *)
Lemma ntt_of_invntt r : good Q r -> peq (val (ntt (invntt r))) (fun i => Rmont * val r i)%F.
Proof.
  intros Hr. destruct (invntt_chain r Hr) as [Hg (h & Hh & Hv)].
  destruct (ntt_chain (invntt r) Q ltac:(unfold Q; lia) Hg) as [_ Hc].
  rewrite <- (rev_involutive (invLevels _ _)) in Hh.
  assert (peq (val (invntt r)) (fun i => (toF 1441 * Rinv) * h i)%F) as E by (intros i Hi; rewrite Hv by done; ring).
  pose proof (chain_inv_then_fwd _ _ _ _ _ _ _ levels_match Hh E Hc) as H.
  intros i Hi. rewrite H, length_levels by done. rewrite <- scaling. ring.
Qed.

(** ** The transform as residues *)

(** Block [b] of length [len] holds the coefficients of the polynomial modulo
    X^len - [w b]. *)
Definition residues (len nb : nat) (w : nat -> F) (f g : nat -> F) : Prop :=
  forall b o, (b < nb)%nat -> (o < len)%nat ->
    g (b * len + o)%nat = sumF nb (fun t => f (t * len + o)%nat * powF (w b) t)%F.

(** The roots after a layer with roots [z]. *)
Definition halves (z : nat -> F) (b : nat) : F := if Nat.even b then z (b / 2)%nat else (- z (b / 2)%nat)%F.

Lemma residues_step len nb z w f g g' :
  residues (2 * len) nb w f g -> fwd (len, nb, z) g g' ->
  (forall b, (b < nb)%nat -> (z b * z b)%F = w b) -> residues len (2 * nb) (halves z) f g'.
Proof.
  intros Hr Hf Hz b' o Hb' Ho.
  assert (exists b e, b' = (2 * b + e)%nat /\ (e = 0 \/ e = 1)%nat) as (b & e & -> & He).
  { exists (b' / 2)%nat, (b' mod 2)%nat. pose proof (Nat.div_mod b' 2). pose proof (Nat.mod_upper_bound b' 2). lia. }
  assert (b < nb)%nat as Hb by lia.
  destruct (Hf b o Hb Ho) as [E1 E2]. rewrite (Hr b o) in E1, E2 by lia.
  rewrite <- Nat.add_assoc, (Hr b (o + len)%nat) in E1, E2 by lia.
  rewrite sumF_parity. unfold halves.
  assert (forall s, (s * s)%F = w b -> (sumF nb (fun i => f (2 * i * len + o)%nat * powF s (2 * i)) +
      sumF nb (fun i => f ((2 * i + 1) * len + o)%nat * powF s (2 * i + 1)))%F =
    (sumF nb (fun t => f (t * (2 * len) + o)%nat * powF (w b) t) +
     s * sumF nb (fun t => f (t * (2 * len) + (o + len))%nat * powF (w b) t))%F) as Hsum.
  { intros s Hs. f_equal; [|rewrite <- sumF_mul_l]; apply sumF_ext; intros i _; rewrite <- Hs, powF_sqr.
    - f_equal. f_equal. lia.
    - rewrite Nat.add_1_r. cbn [powF]. replace (S (2 * i) * len + o)%nat with (i * (2 * len) + (o + len))%nat by lia. ring. }
  destruct He as [-> | ->].
  - rewrite Nat.add_0_r. replace (Nat.even (2 * b)) with true by (symmetry; apply Nat.even_spec; by exists b).
    rewrite (Nat.mul_comm 2 b), Nat.div_mul, (Nat.mul_comm b 2) by lia.
    rewrite Hsum by (by apply Hz). replace (2 * b * len + o)%nat with (b * (2 * len) + o)%nat by lia.
    rewrite E1. ring.
  - replace (Nat.even (2 * b + 1)) with false by (rewrite Nat.add_1_r; symmetry; apply not_true_iff_false; rewrite Nat.even_spec; intros [k ?]; lia).
    replace ((2 * b + 1) / 2)%nat with b by (apply Nat.div_unique with 1%nat; lia).
    rewrite Hsum by (rewrite <- (Hz b) by done; ring).
    replace ((2 * b + 1) * len + o)%nat with (b * (2 * len) + (o + len))%nat by lia.
    rewrite E2. ring.
Qed.

(** Bit reversal on [n] bits. *)
Fixpoint bitrev (n k : nat) : nat :=
  match n with O => O | S n => (k mod 2 * 2 ^ n + bitrev n (k / 2))%nat end.

(** The root of slot [k]: 17^(2 br(k) + 1), with 17 a root of unity of
    order 256. *)
Definition gamma (k : nat) : F := powF (toF 17) (2 * bitrev 7 k + 1).

(** Coefficient [c] of a polynomial modulo X^2 - gamma k. *)
Definition residue (f : nat -> F) (k c : nat) : F := sumF 128 (fun t => f (2 * t + c)%nat * powF (gamma k) t)%F.

(** The roots of the levels: each block's is a square root of its parent's,
    and the last ones are the [gamma k]. *)
Fixpoint rootsb (blk nb : nat) (w : nat -> F) (L : list level) : bool :=
  match L with
  | [] => (blk =? 2)%nat && (nb =? 128)%nat && forallb (fun k => Zmod.eqb (w k) (gamma k)) (seq 0 128)
  | (len, nb', z) :: L =>
      (blk =? 2 * len)%nat && (nb' =? nb)%nat && forallb (fun b => Zmod.eqb (z b * z b)%F (w b)) (seq 0 nb) &&
      rootsb len (2 * nb) (halves z) L
  end.

Lemma roots_ok : rootsb 256 1 (fun _ => (- (1))%F) (fwdLevels lens 1) = true.
Proof. vm_compute. reflexivity. Qed.

Lemma residue_ext f g k c : peq f g -> (c < 2)%nat -> residue f k c = residue g k c.
Proof. intros H Hc. apply sumF_ext. intros t Ht. rewrite H by (unfold N; lia). done. Qed.

Lemma forallb_seq (P : nat -> bool) n k : forallb P (seq 0 n) = true -> (k < n)%nat -> P k = true.
Proof. rewrite forallb_forall. intros H Hk. apply H, in_seq. lia. Qed.

Lemma chain_roots L : forall blk nb w f g h, rootsb blk nb w L = true -> residues blk nb w f g -> chain fwd L g h ->
  forall k c, (k < 128)%nat -> (c < 2)%nat -> h (2 * k + c)%nat = residue f k c.
Proof.
  induction L as [|[[len nb'] z] L IH]; intros blk nb w f g h HR Hr Hc; cbn [rootsb chain] in HR, Hc.
  - subst h. apply andb_true_iff in HR as [[->%Nat.eqb_eq ->%Nat.eqb_eq]%andb_true_iff Hg].
    intros k c Hk Hcc. rewrite (Nat.mul_comm 2 k), (Hr k c) by lia. apply sumF_ext. intros t _.
    rewrite (Nat.mul_comm 2 t). f_equal. f_equal. by apply Zmod.eqb_eq, (forallb_seq _ _ _ Hg).
  - apply andb_true_iff in HR as [[[->%Nat.eqb_eq ->%Nat.eqb_eq]%andb_true_iff Hz]%andb_true_iff HR].
    destruct Hc as (h1 & F1 & Hc). eapply IH; [exact HR| |exact Hc]. eapply residues_step; [exact Hr|exact F1|].
    intros b Hb. by apply Zmod.eqb_eq, (forallb_seq _ _ _ Hz).
Qed.

Lemma chain_residues f g : chain fwd (fwdLevels lens 1) f g ->
  forall k c, (k < 128)%nat -> (c < 2)%nat -> g (2 * k + c)%nat = residue f k c.
Proof.
  apply (chain_roots _ _ _ _ _ _ _ roots_ok). intros b o Hb Ho. assert (b = 0%nat) as -> by lia.
  cbn [sumF powF]. rewrite !Nat.mul_0_l, !Nat.add_0_l. ring.
Qed.

End MlKemNtt.
