(* ===== verification/MlKemRing.v ===== *)
(** * Polynomial multiplication through the transform

    The ring Z_q[X]/(X^256 + 1) of src/pqc/mlkem.cpp: the negacyclic product of
    coefficient arrays, the product on residues, and that transforming,
    multiplying with [basemul] and transforming back computes the former. *)

From Stdlib Require Import Zmod.
From S2P Require Import Prelude Bytes MlKemField MlKemNtt.

Module MlKemRing.
Import Bytes.
Import MlKemField MlKemNtt.

Implicit Types (f g h : nat -> F) (a b r : list Z).

(** ** The negacyclic product *)

Definition sumZ (l : list Z) : Z := foldr Z.add 0 l.

(** X^i times [b], modulo X^256 + 1. *)
Definition rotate (i : nat) b : list Z := (Z.opp <$> drop (N - i) b) ++ take (N - i) b.

(** Multiplication modulo X^256 + 1 over the integers. *)
Definition negacyclic a b : list Z :=
  foldl (fun r i => let x := coef a i in zip_with (fun y z => y + x * z) r (rotate i b)) zeroPoly (seq 0 N).

Definition mulF f g (n : nat) : F :=
  sumF N (fun i => f i * (if (i <=? n)%nat then g (n - i)%nat else - g (N + n - i)%nat))%F.

Lemma sumZ_snoc l x : sumZ (l ++ [x]) = sumZ l + x.
Proof. induction l as [|y l IH]; unfold sumZ in *; cbn [app foldr] in *; lia. Qed.

Lemma toF_sumZ n (c : nat -> Z) : toF (sumZ (c <$> seq 0 n)) = sumF n (fun i => toF (c i)).
Proof.
  induction n as [|n IH]; [apply toF_0|]. rewrite seq_S, fmap_app. cbn [sumF].
  rewrite <- IH, <- toF_add. f_equal. apply sumZ_snoc.
Qed.

Lemma rotate_coef i b n : length b = N -> (i < N)%nat -> (n < N)%nat ->
  coef (rotate i b) n = if (i <=? n)%nat then coef b (n - i) else - coef b (N + n - i).
Proof.
  intros Hb Hi Hn. unfold rotate. assert (length (Z.opp <$> drop (N - i) b) = i) as Hl by (rewrite length_fmap, length_drop; lia).
  destruct (Nat.leb_spec i n).
  - replace n with (length (Z.opp <$> drop (N - i) b) + (n - i))%nat at 1 by lia. rewrite coef_app_r. apply coef_take. lia.
  - rewrite coef_app_l, coef_fmap, coef_drop by (rewrite ?length_drop; lia). do 2 f_equal. lia.
Qed.

Lemma negacyclic_coef a b n : length b = N -> (n < N)%nat ->
  coef (negacyclic a b) n = sumZ ((fun i => coef a i * coef (rotate i b) n) <$> seq 0 N).
Proof.
  intros Hb Hn. unfold negacyclic.
  assert (forall k, (k <= N)%nat ->
    let r := foldl (fun r i => let x := coef a i in zip_with (fun y z => y + x * z) r (rotate i b)) zeroPoly (seq 0 k) in
    length r = N /\ coef r n = sumZ ((fun i => coef a i * coef (rotate i b) n) <$> seq 0 k)) as H.
  { induction k as [|k IH]; intros Hk; [split; [done|]|].
    - cbn [seq foldl fmap list_fmap]. unfold coef, zeroPoly. by rewrite lookup_replicate_2 by done.
    - destruct IH as [Hl E]; [lia|]. rewrite seq_S, foldl_app, fmap_app. cbn [foldl fmap list_fmap]. rewrite Nat.add_0_l.
      set (r := foldl _ _ _) in *.
      assert (length (rotate k b) = N) as Hr by (unfold rotate; rewrite length_app, length_fmap, length_drop, length_take; lia).
      cbv zeta. split; [rewrite length_zip_with; lia|]. rewrite coef_zip, sumZ_snoc by lia. by rewrite E. }
  apply H. lia.
Qed.

Lemma negacyclic_F a b : length b = N -> peq (val (negacyclic a b)) (mulF (val a) (val b)).
Proof.
  intros Hb n Hn. unfold val at 1. rewrite negacyclic_coef, toF_sumZ by done.
  apply sumF_ext. intros i Hi. rewrite rotate_coef, toF_mul by done. unfold val. f_equal. destruct (_ <=? _)%nat; [done|apply toF_opp].
Qed.

(** ** Residues of products *)

(** Coefficient [c] of X^n modulo X^2 - gamma k. *)
Definition pw (k c n : nat) : F := if (n mod 2 =? c)%nat then powF (gamma k) (n / 2) else 0%F.

Lemma pw_double k c n : (c < 2)%nat -> pw k c (2 * n) = (if (c =? 0)%nat then powF (gamma k) n else 0%F).
Proof.
  intros Hc. unfold pw. rewrite (Nat.mul_comm 2 n), Nat.Div0.mod_mul, Nat.div_mul by lia.
  destruct c as [|[|c]]; [done..|lia].
Qed.

Lemma pw_double1 k c n : (c < 2)%nat -> pw k c (2 * n + 1) = (if (c =? 1)%nat then powF (gamma k) n else 0%F).
Proof.
  intros Hc. unfold pw. replace ((2 * n + 1) mod 2)%nat with 1%nat by (rewrite Nat.add_comm, (Nat.mul_comm 2 n), Nat.Div0.mod_add; done).
  replace ((2 * n + 1) / 2)%nat with n by (apply Nat.div_unique with 1%nat; lia).
  destruct c as [|[|c]]; [done..|lia].
Qed.

Lemma residue_pw f k c : (c < 2)%nat -> residue f k c = sumF N (fun n => f n * pw k c n)%F.
Proof.
  intros Hc. change N with (2 * 128)%nat. rewrite sumF_parity. unfold residue.
  rewrite (sumF_ext _ (fun i => f (2 * i)%nat * pw k c (2 * i))%F (fun i => f (2 * i)%nat * (if (c =? 0)%nat then powF (gamma k) i else 0))%F)
    by (intros; by rewrite pw_double).
  rewrite (sumF_ext _ (fun i => f (2 * i + 1)%nat * pw k c (2 * i + 1))%F (fun i => f (2 * i + 1)%nat * (if (c =? 1)%nat then powF (gamma k) i else 0))%F)
    by (intros; by rewrite pw_double1).
  destruct c as [|[|c]]; [| |lia]; cbn [Nat.eqb].
  - rewrite (sumF_mul_r _ 0%F). transitivity (sumF 128 (fun t => f (2 * t)%nat * powF (gamma k) t)%F); [|ring].
    apply sumF_ext. intros. by rewrite Nat.add_0_r.
  - rewrite (sumF_mul_r _ 0%F). ring.
Qed.

Lemma parity_cases n : exists m e, n = (2 * m + e)%nat /\ (e = 0 \/ e = 1)%nat.
Proof.
  exists (n / 2)%nat, (n mod 2)%nat. pose proof (Nat.div_mod n 2). pose proof (Nat.mod_upper_bound n 2). lia.
Qed.

Lemma pw_0 k n m e : n = (2 * m + e)%nat -> (e = 0 \/ e = 1)%nat -> pw k 0 n = (if (e =? 0)%nat then powF (gamma k) m else 0%F).
Proof. intros -> [-> | ->]; [rewrite Nat.add_0_r, pw_double by lia|rewrite pw_double1 by lia]; done. Qed.
Lemma pw_1 k n m e : n = (2 * m + e)%nat -> (e = 0 \/ e = 1)%nat -> pw k 1 n = (if (e =? 0)%nat then 0%F else powF (gamma k) m).
Proof. intros -> [-> | ->]; [rewrite Nat.add_0_r, pw_double by lia|rewrite pw_double1 by lia]; done. Qed.

(** X^(i + j) is the product of X^i and X^j. *)
Lemma pw_add k i j :
  pw k 0 (i + j) = (pw k 0 i * pw k 0 j + gamma k * (pw k 1 i * pw k 1 j))%F /\
  pw k 1 (i + j) = (pw k 0 i * pw k 1 j + pw k 1 i * pw k 0 j)%F.
Proof.
  destruct (parity_cases i) as (mi & ei & Ei & Hi). destruct (parity_cases j) as (mj & ej & Ej & Hj).
  rewrite (pw_0 k i mi ei), (pw_1 k i mi ei), (pw_0 k j mj ej), (pw_1 k j mj ej) by done.
  destruct Hi as [-> | ->], Hj as [-> | ->]; cbn [Nat.eqb].
  - rewrite (pw_0 k _ (mi + mj) 0), (pw_1 k _ (mi + mj) 0) by lia. cbn [Nat.eqb]. rewrite powF_add. split; ring.
  - rewrite (pw_0 k _ (mi + mj) 1), (pw_1 k _ (mi + mj) 1) by lia. cbn [Nat.eqb]. rewrite powF_add. split; ring.
  - rewrite (pw_0 k _ (mi + mj) 1), (pw_1 k _ (mi + mj) 1) by lia. cbn [Nat.eqb]. rewrite powF_add. split; ring.
  - rewrite (pw_0 k _ (S (mi + mj)) 0), (pw_1 k _ (S (mi + mj)) 0) by lia. cbn [Nat.eqb powF]. rewrite powF_add. split; ring.
Qed.

Lemma powF_mul x n m : powF (powF x n) m = powF x (n * m).
Proof. induction m as [|m IH]; [by rewrite Nat.mul_0_r|]. rewrite Nat.mul_succ_r, Nat.add_comm, powF_add, <- IH. done. Qed.

Lemma powF_opp1 n : powF (- (1))%F (2 * n + 1) = (- (1))%F.
Proof.
  rewrite Nat.add_1_r. cbn [powF]. rewrite <- powF_sqr.
  assert (forall n, powF (- (1) * - (1))%F n = 1%F) as -> by (induction n0 as [|k IH]; [done|]; cbn [powF]; rewrite IH; ring). ring.
Qed.

(** 17 has order 256, so every root satisfies X^128 = -1. *)
Lemma gamma_order k : powF (gamma k) 128 = (- (1))%F.
Proof.
  unfold gamma. rewrite powF_mul, Nat.mul_comm, <- powF_mul.
  replace (powF (toF 17) 128) with (- (1))%F by (apply Zmod.to_Z_inj; vm_compute; reflexivity). apply powF_opp1.
Qed.

Lemma pw_N k c n : (k < 128)%nat -> (c < 2)%nat -> pw k c (N + n) = (- pw k c n)%F.
Proof.
  intros Hk Hc. destruct (parity_cases n) as (m & e & E & He). pose proof (gamma_order k) as H.
  destruct c as [|[|c]]; [| |lia].
  - rewrite (pw_0 k n m e), (pw_0 k (N + n) (128 + m) e) by (unfold N; lia || done).
    destruct (_ =? _)%nat; [rewrite powF_add, H|]; ring.
  - rewrite (pw_1 k n m e), (pw_1 k (N + n) (128 + m) e) by (unfold N; lia || done).
    destruct (_ =? _)%nat; [|rewrite powF_add, H]; ring.
Qed.

(** Evaluating a negacyclic product at a sequence that changes sign every 256
    places. *)
Lemma mulF_eval f g (p : nat -> F) : (forall n, p (N + n)%nat = (- p n)%F) ->
  sumF N (fun n => mulF f g n * p n)%F = sumF N (fun i => f i * sumF N (fun j => g j * p (i + j)%nat))%F.
Proof.
  intros Hp. unfold mulF.
  rewrite (sumF_ext _ _ (fun n => sumF N (fun i => f i * ((if (i <=? n)%nat then g (n - i)%nat else - g (N + n - i)%nat) * p n))%F))
    by (intros n _; rewrite <- sumF_mul_r; apply sumF_ext; intros; ring).
  rewrite sumF_swap. apply sumF_ext. intros i Hi. rewrite sumF_mul_l. f_equal.
  assert (exists d, N = (i + d)%nat) as [d Hd] by (exists (N - i)%nat; lia).
  transitivity (sumF (i + d) (fun n => (if (i <=? n)%nat then g (n - i)%nat else - g (N + n - i)%nat) * p n)%F); [by rewrite <- Hd|].
  transitivity (sumF (d + i) (fun j => g j * p (i + j)%nat)%F); [|by rewrite (Nat.add_comm d i), <- Hd].
  rewrite !sumF_split, Zmod.add_comm. f_equal; apply sumF_ext; intros j Hj.
  - rewrite (proj2 (Nat.leb_le _ _)) by lia. f_equal. f_equal. lia.
  - rewrite (proj2 (Nat.leb_gt _ _)) by lia. replace (N + j - i)%nat with (d + j)%nat by lia.
    replace (i + (d + j))%nat with (N + j)%nat by lia. rewrite Hp. ring.
Qed.

(** Evaluation at a sum of products of sequences is bilinear. *)
Lemma eval_bilinear n f g (p p1 p2 q1 q2 : nat -> F) (c : F) :
  (forall i j, p (i + j)%nat = (p1 i * q1 j + c * (p2 i * q2 j))%F) ->
  sumF n (fun i => f i * sumF n (fun j => g j * p (i + j)%nat))%F =
  (sumF n (fun i => f i * p1 i) * sumF n (fun j => g j * q1 j) +
   c * (sumF n (fun i => f i * p2 i) * sumF n (fun j => g j * q2 j)))%F.
Proof.
  intros Hp. set (Q1 := sumF n (fun j => g j * q1 j)%F). set (Q2 := sumF n (fun j => g j * q2 j)%F).
  transitivity (sumF n (fun i => f i * p1 i * Q1 + f i * p2 i * (c * Q2))%F).
  - apply sumF_ext. intros i _.
    rewrite (sumF_ext _ _ (fun j => p1 i * (g j * q1 j) + c * p2 i * (g j * q2 j))%F) by (intros j _; rewrite Hp; ring).
    rewrite sumF_add, !sumF_mul_l. fold Q1 Q2. generalize Q1 Q2. intros. ring.
  - rewrite sumF_add, !sumF_mul_r. generalize Q1 Q2 (sumF n (fun i => f i * p1 i)%F) (sumF n (fun i => f i * p2 i)%F).
    intros. ring.
Qed.

(** The product of residues. *)
Lemma residue_mul f g k : (k < 128)%nat ->
  residue (mulF f g) k 0 = (residue f k 0 * residue g k 0 + gamma k * (residue f k 1 * residue g k 1))%F /\
  residue (mulF f g) k 1 = (residue f k 0 * residue g k 1 + residue f k 1 * residue g k 0)%F.
Proof.
  intros Hk. rewrite !residue_pw by lia.
  rewrite !mulF_eval by (intros; apply pw_N; lia). split.
  - apply eval_bilinear. intros. apply pw_add.
  - erewrite (eval_bilinear _ _ _ _ (pw k 0) (pw k 1) (pw k 1) (pw k 0) 1%F); [by rewrite Zmod.mul_1_l|].
    intros. rewrite Zmod.mul_1_l. apply pw_add.
Qed.

(** ** The transform over the field *)

Definition NTT f (i : nat) : F := residue f (i / 2) (i mod 2).

(** The product slot by slot, modulo X^2 - gamma. *)
Definition hat f g (i : nat) : F :=
  if Nat.even i then (f i * g i + gamma (i / 2) * (f (i + 1)%nat * g (i + 1)%nat))%F
  else (f (i - 1)%nat * g i + f i * g (i - 1)%nat)%F.

Lemma slot_cases (P : nat -> Prop) : (forall k c, (k < 128)%nat -> (c < 2)%nat -> P (2 * k + c)%nat) -> forall i, (i < N)%nat -> P i.
Proof.
  intros H i Hi. destruct (parity_cases i) as (m & e & -> & He). apply H; unfold N in *; lia.
Qed.

Lemma slot_div k c : (c < 2)%nat -> ((2 * k + c) / 2 = k)%nat /\ ((2 * k + c) mod 2 = c)%nat /\ Nat.even (2 * k + c) = (c =? 0)%nat.
Proof.
  intros Hc. rewrite (Nat.mul_comm 2 k). split_and!.
  - rewrite Nat.div_add_l, Nat.div_small by lia. lia.
  - rewrite Nat.add_comm, Nat.Div0.mod_add, Nat.mod_small by lia. done.
  - rewrite Nat.even_add, Nat.even_mul, orb_true_r. by destruct c as [|[|c]]; [..|lia].
Qed.

Lemma NTT_slot f k c : (c < 2)%nat -> NTT f (2 * k + c) = residue f k c.
Proof. intros Hc. unfold NTT. by destruct (slot_div k c Hc) as (-> & -> & _). Qed.

Lemma hat_slot0 f g k : hat f g (2 * k) = (f (2 * k)%nat * g (2 * k)%nat + gamma k * (f (2 * k + 1)%nat * g (2 * k + 1)%nat))%F.
Proof.
  unfold hat. destruct (slot_div k 0) as (E1 & _ & E3); [lia|]. rewrite Nat.add_0_r in E1, E3. by rewrite E3, E1.
Qed.

Lemma hat_slot1 f g k : hat f g (2 * k + 1) = (f (2 * k)%nat * g (2 * k + 1)%nat + f (2 * k + 1)%nat * g (2 * k)%nat)%F.
Proof.
  unfold hat. destruct (slot_div k 1) as (_ & _ & E3); [lia|]. rewrite E3. cbn [Nat.eqb].
  by replace (2 * k + 1 - 1)%nat with (2 * k)%nat by lia.
Qed.

#[global] Instance NTT_proper : Proper (peq ==> peq) NTT.
Proof. intros f g H i Hi. unfold NTT. apply residue_ext; [exact H|]. apply Nat.mod_upper_bound. lia. Qed.

#[global] Instance hat_proper : Proper (peq ==> peq ==> peq) hat.
Proof.
  intros f f' Hf g g' Hg. unfold peq in *. apply slot_cases. intros k c Hk Hc.
  pose proof (Hf (2 * k)%nat ltac:(unfold N; lia)) as F0. pose proof (Hf (2 * k + 1)%nat ltac:(unfold N; lia)) as F1.
  pose proof (Hg (2 * k)%nat ltac:(unfold N; lia)) as G0. pose proof (Hg (2 * k + 1)%nat ltac:(unfold N; lia)) as G1.
  destruct c as [|[|c]]; [rewrite Nat.add_0_r, !hat_slot0|rewrite !hat_slot1|lia]; by rewrite F0, F1, G0, G1.
Qed.

Lemma NTT_mul f g : peq (NTT (mulF f g)) (hat (NTT f) (NTT g)).
Proof.
  unfold peq. apply slot_cases. intros k c Hk Hc. rewrite NTT_slot by done.
  destruct (residue_mul f g k Hk) as [E0 E1].
  destruct c as [|[|c]]; [| |lia].
  - rewrite Nat.add_0_r, hat_slot0, E0, !NTT_slot by lia. rewrite <- (Nat.add_0_r (2 * k)), !NTT_slot by lia. done.
  - rewrite hat_slot1, E1, !NTT_slot by lia. rewrite <- (Nat.add_0_r (2 * k)), !NTT_slot by lia. done.
Qed.

Lemma NTT_add f g i : NTT (fun n => f n + g n)%F i = (NTT f i + NTT g i)%F.
Proof. unfold NTT, residue. rewrite <- sumF_add. apply sumF_ext. intros. ring. Qed.
Lemma NTT_sub f g i : NTT (fun n => f n - g n)%F i = (NTT f i - NTT g i)%F.
Proof. unfold NTT, residue. rewrite <- sumF_sub. apply sumF_ext. intros. ring. Qed.
Lemma NTT_scale c f i : NTT (fun n => c * f n)%F i = (c * NTT f i)%F.
Proof. unfold NTT, residue. rewrite <- sumF_mul_l. apply sumF_ext. intros. ring. Qed.
Lemma NTT_sum n (f : nat -> nat -> F) i : NTT (fun m => sumF n (fun j => f j m)) i = sumF n (fun j => NTT (f j) i).
Proof.
  induction n as [|n IH]; simpl.
  - unfold NTT, residue. rewrite (sumF_ext _ _ (fun _ => 0%F)) by (intros; ring). apply sumF_0.
  - by rewrite NTT_add, IH.
Qed.

Lemma ntt_NTT r B : 0 < B <= 9465 -> good B r -> peq (val (ntt r)) (NTT (val r)).
Proof.
  intros HB Hr. destruct (ntt_chain r B HB Hr) as [_ Hc]. unfold peq. apply slot_cases. intros k c Hk Hc'.
  rewrite NTT_slot by done. by apply chain_residues.
Qed.

(** ** Arrays *)

Lemma good_coef_int16 B r i : 0 < B <= 32768 -> good B r -> int16 (coef r i).
Proof. intros HB Hr. apply (bnd_int16 B); [lia|apply good_bnd; [lia|done]]. Qed.

Lemma poly_reduce_spec r : good 32768 r -> good 1665 (poly_reduce r) /\ peq (val (poly_reduce r)) (val r).
Proof.
  intros Hr. assert (length r = N) as Hl by apply Hr. unfold poly_reduce. split.
  - apply good_intro; [by rewrite length_fmap|]. intros i Hi. rewrite coef_fmap by lia.
    by apply barrett_bnd, (good_coef_int16 32768).
  - intros i Hi. unfold val. rewrite coef_fmap by lia. by apply barrett_F, (good_coef_int16 32768).
Qed.

Lemma poly_zip_spec (m : Z -> Z -> Z) (mF : F -> F -> F) A B a b :
  0 < A -> 0 < B -> A + B <= 32769 -> good A a -> good B b ->
  (forall x y, bnd A x -> bnd B y -> bnd (A + B - 1) (m x y)) -> (forall x y, toF (m x y) = mF (toF x) (toF y)) ->
  good (A + B - 1) (zip_with (fun x y => i16 (m x y)) a b) /\
  peq (val (zip_with (fun x y => i16 (m x y)) a b)) (fun i => mF (val a i) (val b i)).
Proof.
  intros HA HB HAB Ha Hb Hm HF. assert (length a = N) as Hla by apply Ha. assert (length b = N) as Hlb by apply Hb.
  assert (forall i, bnd (A + B - 1) (m (coef a i) (coef b i))) as H by (intros; apply Hm; by apply good_bnd).
  assert (forall i, (i < N)%nat -> coef (zip_with (fun x y => i16 (m x y)) a b) i = m (coef a i) (coef b i)) as E.
  { intros i Hi. rewrite coef_zip by lia. apply i16_small, (bnd_int16 (A + B - 1)); [lia|apply H]. }
  split.
  - apply good_intro; [rewrite length_zip_with; lia|]. intros i Hi. rewrite E by done. apply H.
  - intros i Hi. unfold val. by rewrite E.
Qed.

Lemma poly_add_spec A B a b : 0 < A -> 0 < B -> A + B <= 32769 -> good A a -> good B b ->
  good (A + B - 1) (poly_add a b) /\ peq (val (poly_add a b)) (fun i => val a i + val b i)%F.
Proof. intros. apply (poly_zip_spec Z.add Zmod.add); [done..|unfold bnd; lia|apply toF_add]. Qed.

Lemma poly_sub_spec A B a b : 0 < A -> 0 < B -> A + B <= 32769 -> good A a -> good B b ->
  good (A + B - 1) (poly_sub a b) /\ peq (val (poly_sub a b)) (fun i => val a i - val b i)%F.
Proof. intros. apply (poly_zip_spec Z.sub Zmod.sub); [done..|unfold bnd; lia|apply toF_sub]. Qed.

Lemma poly_ntt_spec r B : 0 < B <= 9465 -> good B r ->
  good 1665 (poly_ntt r) /\ peq (val (poly_ntt r)) (NTT (val r)).
Proof.
  intros HB Hr. destruct (ntt_chain r B HB Hr) as [Hg _]. destruct (poly_reduce_spec _ Hg) as [H1 H2].
  split; [done|]. etransitivity; [exact H2|]. by eapply ntt_NTT.
Qed.

(** The inverse transform, up to the Montgomery factor. *)
Lemma poly_invntt_spec r : good Q r ->
  good Q (poly_invntt r) /\ peq (NTT (val (poly_invntt r))) (fun i => Rmont * val r i)%F.
Proof.
  intros Hr. destruct (invntt_chain r Hr) as [Hg _]. split; [done|].
  etransitivity; [symmetry; eapply (ntt_NTT _ Q); [unfold Q; lia|done]|]. by apply ntt_of_invntt.
Qed.

(** Any coefficients have an array. *)
Definition lift f : list Z := (fun i => Zmod.unsigned (f i)) <$> seq 0 N.

Lemma lift_spec f : good Q (lift f) /\ peq (val (lift f)) f.
Proof.
  split.
  - apply good_intro; [unfold lift; by rewrite length_fmap, length_seq|]. intros i Hi. unfold lift.
    rewrite coef_fmap_seq by done. pose proof (Zmod.unsigned_pos_bound (f i) ltac:(lia)). unfold bnd, Q. lia.
  - intros i Hi. unfold val, lift. rewrite coef_fmap_seq by done. apply toF_to_Z.
Qed.

Lemma NTT_inj f g : peq (NTT f) (NTT g) -> peq f g.
Proof.
  intros H. destruct (lift_spec f) as [Gf Ef]. destruct (lift_spec g) as [Gg Eg].
  destruct (poly_ntt_spec (lift f) Q) as [Gr Er]; [unfold Q; lia|done|].
  assert (good Q (poly_ntt (lift f))) as Gr' by (eapply good_mono; [|exact Gr]; unfold Q; lia).
  assert (forall h, good Q (lift h) -> peq (val (lift h)) h -> peq (NTT f) (NTT h) ->
    peq (val (invntt (poly_ntt (lift f)))) (fun i => Rmont * h i)%F) as E.
  { intros h Gh Eh Hh i Hi. rewrite (invntt_of_ntt 1%F (lift h) _ Q); [|unfold Q; lia|done..| |done].
    - rewrite Eh by done. ring.
    - intros j Hj. rewrite Zmod.mul_1_l, Er, (NTT_proper _ _ Ef j Hj), Hh by done.
      rewrite (ntt_NTT _ Q ltac:(unfold Q; lia) Gh j Hj). symmetry. exact (NTT_proper _ _ Eh j Hj). }
  intros i Hi. pose proof (E f Gf Ef ltac:(reflexivity) i Hi) as E1. rewrite (E g Gg Eg H i Hi) in E1.
  transitivity (Rinv * (Rmont * f i))%F; [|rewrite <- E1].
  - transitivity ((Rmont * Rinv) * f i)%F; [rewrite Rmont_inv|]; ring.
  - transitivity ((Rmont * Rinv) * g i)%F; [|rewrite Rmont_inv]; ring.
Qed.

(** ** The base multiplication *)

(** The zeta [poly_basemul] uses for slot [k]. *)
Definition slotZeta (k : nat) : Z := if Nat.even k then zeta_at (64 + k / 2) else i16 (- zeta_at (64 + k / 2)).

Lemma slotZeta_ok k : (k < 128)%nat -> (toF (slotZeta k) * Rinv)%F = gamma k /\ bnd 1665 (slotZeta k).
Proof.
  intros Hk.
  pose proof (forallb_seq (fun k => Zmod.eqb (toF (slotZeta k) * Rinv)%F (gamma k) && (-1665 <? slotZeta k) && (slotZeta k <? 1665)) 128 k) as H.
  apply andb_true_iff in H as [[H1 H2]%andb_true_iff H3]; [|vm_compute; reflexivity|done].
  split; [by apply Zmod.eqb_eq|]. b2p. unfold bnd. lia.
Qed.

(** The two products of a slot, as the code leaves them. *)
Definition base0 a b (k : nat) : Z :=
  i16 (fqmul (fqmul (coef a (2 * k + 1)) (coef b (2 * k + 1))) (slotZeta k) + fqmul (coef a (2 * k)) (coef b (2 * k))).
Definition base1 a b (k : nat) : Z :=
  i16 (fqmul (coef a (2 * k)) (coef b (2 * k + 1)) + fqmul (coef a (2 * k + 1)) (coef b (2 * k))).

(** Decide the index comparisons of array updates. *)
Ltac decide_lia :=
  repeat match goal with
  | |- context [decide ?P] => first [rewrite (decide_True (P := P)) by lia | rewrite (decide_False (P := P)) by lia]
  end.

Lemma basemul_spec r a b k : (2 * k + 1 < length r)%nat ->
  let r' := basemul r a b (2 * k) (slotZeta k) in
  length r' = length r /\ forall i, coef r' i =
    if decide (i = 2 * k)%nat then base0 a b k else if decide (i = 2 * k + 1)%nat then base1 a b k else coef r i.
Proof.
  intros Hk. unfold basemul, base0, base1. cbv zeta. split; [by rewrite !length_insert|]. intros i.
  rewrite !coef_insert, !length_insert. destruct (decide (i = 2 * k)%nat) as [->|H0]; [|destruct (decide (i = 2 * k + 1)%nat) as [->|H1]].
  - decide_lia. done.
  - decide_lia. done.
  - decide_lia. done.
Qed.

Lemma basemul_loop a b n r : (4 * n <= length r)%nat ->
  let r' := foldl (fun r i =>
    let r := basemul r a b (4 * i) (zeta_at (64 + i)) in
    basemul r a b (4 * i + 2) (i16 (- zeta_at (64 + i)))) r (seq 0 n) in
  length r' = length r /\
  (forall k, (k < 2 * n)%nat -> coef r' (2 * k) = base0 a b k /\ coef r' (2 * k + 1) = base1 a b k).
Proof.
  induction n as [|n IH]; intros Hn; [simpl; split; [done|lia]|].
  destruct IH as [Hl Hp]; [lia|]. rewrite seq_S, foldl_app. cbn [foldl]. rewrite Nat.add_0_l.
  set (r1 := foldl _ r (seq 0 n)) in *. cbv zeta in *.
  replace (zeta_at (64 + n)) with (slotZeta (2 * n)).
  2:{ unfold slotZeta. destruct (slot_div n 0) as (E1 & _ & E3); [lia|]. rewrite Nat.add_0_r in *. by rewrite E1, E3. }
  replace (i16 (- slotZeta (2 * n))) with (slotZeta (2 * n + 1)).
  2:{ unfold slotZeta. destruct (slot_div n 0) as (E1 & _ & E3); [lia|]. destruct (slot_div n 1) as (E1' & _ & E3'); [lia|].
      rewrite Nat.add_0_r in *. by rewrite E1, E3, E1', E3'. }
  replace (4 * n)%nat with (2 * (2 * n))%nat by lia. replace (2 * (2 * n) + 2)%nat with (2 * (2 * n + 1))%nat by lia.
  destruct (basemul_spec r1 a b (2 * n)) as [L1 P1]; [lia|]. set (r2 := basemul r1 _ _ _ _) in *.
  destruct (basemul_spec r2 a b (2 * n + 1)) as [L2 P2]; [lia|]. set (r3 := basemul r2 _ _ _ _) in *.
  split; [congruence|]. intros k Hk. rewrite !P2, !P1.
  assert (k = 2 * n + 1 \/ k = 2 * n \/ k < 2 * n)%nat as [-> | [-> | Hlt]] by lia.
  - decide_lia. done.
  - decide_lia. done.
  - destruct (Hp k Hlt) as [<- <-]. decide_lia. done.
Qed.

Lemma base_spec a b k : (k < 128)%nat -> good 32768 a -> good Q b ->
  bnd 6658 (base0 a b k) /\ bnd 6658 (base1 a b k) /\
  toF (base0 a b k) = (Rinv * hat (val a) (val b) (2 * k))%F /\
  toF (base1 a b k) = (Rinv * hat (val a) (val b) (2 * k + 1))%F.
Proof.
  intros Hk Ha Hb. rewrite hat_slot0, hat_slot1. unfold base0, base1, val.
  assert (forall i, int16 (coef a i)) as Ai by (intros; by apply (good_coef_int16 32768)).
  assert (forall i, bnd Q (coef b i)) as Bi by (intros; apply good_bnd; [unfold Q; lia|done]).
  assert (forall i, int16 (coef b i)) as Bi' by (intros; apply (bnd_int16 Q); [unfold Q; lia|done]).
  destruct (slotZeta_ok k Hk) as [Hz Hzb].
  assert (int16 (slotZeta k)) as Hz16 by (apply (bnd_int16 1665); [lia|done]).
  assert (forall i j, bnd Q (fqmul (coef a i) (coef b j))) as Hf by (intros; by apply fqmul_bnd).
  assert (forall i j, int16 (fqmul (coef a i) (coef b j))) as Hf' by (intros; apply (bnd_int16 Q); [unfold Q; lia|done]).
  assert (bnd Q (fqmul (fqmul (coef a (2 * k + 1)) (coef b (2 * k + 1))) (slotZeta k))) as Hg
    by (apply fqmul_bnd; [done|]; apply (bnd_mono 1665); [unfold Q; lia|done]).
  assert (forall x y, bnd Q x -> bnd Q y -> bnd 6658 (x + y) /\ int16 (x + y)) as Hs by (unfold bnd, int16, Q; lia).
  destruct (Hs _ _ Hg (Hf (2 * k)%nat (2 * k)%nat)) as [S1 S2].
  destruct (Hs _ _ (Hf (2 * k)%nat (2 * k + 1)%nat) (Hf (2 * k + 1)%nat (2 * k)%nat)) as [S3 S4].
  rewrite !i16_small by done. split_and!; [done..| |]; rewrite toF_add, !fqmul_F by done; [rewrite <- Hz|]; ring.
Qed.

Lemma poly_basemul_spec a b : good 32768 a -> good Q b ->
  good 6658 (poly_basemul a b) /\ peq (val (poly_basemul a b)) (fun i => Rinv * hat (val a) (val b) i)%F.
Proof.
  intros Ha Hb. unfold poly_basemul, poly_basemul_into. change (N / 4)%nat with 64%nat.
  destruct (basemul_loop a b 64 (replicate N 0)) as [Hl Hp]; [rewrite length_replicate; unfold N; lia|].
  set (r := foldl _ (replicate N 0) (seq 0 64)) in *. split.
  - apply good_intro; [by rewrite Hl, length_replicate|]. apply slot_cases. intros k c Hk Hc.
    destruct (Hp k) as [P0 P1]; [lia|]. destruct (base_spec a b k) as (B0 & B1 & _); [done..|].
    destruct c as [|[|c]]; [rewrite Nat.add_0_r, P0|rewrite P1|lia]; done.
  - unfold peq. apply slot_cases. intros k c Hk Hc. unfold val at 1.
    destruct (Hp k) as [P0 P1]; [lia|]. destruct (base_spec a b k) as (_ & _ & E0 & E1); [done..|].
    destruct c as [|[|c]]; [rewrite Nat.add_0_r, P0|rewrite P1|lia]; done.
Qed.

(** ** Vectors *)

Definition vgood (B : Z) (v : polyvec) : Prop := length v = K /\ Forall (good B) v.

Lemma vgood_vec B v i : vgood B v -> (i < K)%nat -> good B (vec v i).
Proof.
  intros [Hl Hv] Hi. unfold vec. destruct (v !! i) eqn:E; simpl; [by eapply Forall_lookup_1|].
  apply lookup_ge_None in E. lia.
Qed.

Lemma vgood_mono B B' v : B <= B' -> vgood B v -> vgood B' v.
Proof. intros HB [Hl Hv]. split; [done|]. eapply Forall_impl; [exact Hv|]. intros. by eapply good_mono. Qed.

(** A map over a vector. *)
Lemma vgood_fmap A B (m : poly -> poly) v : vgood A v -> (forall p, good A p -> good B (m p)) -> vgood B (m <$> v).
Proof. intros [Hl Hv] H. split; [by rewrite length_fmap|]. apply Forall_fmap. eapply Forall_impl; [exact Hv|exact H]. Qed.

Lemma vec_fmap (m : poly -> poly) v i : length v = K -> (i < K)%nat -> vec (m <$> v) i = m (vec v i).
Proof. intros Hl Hi. unfold vec. rewrite list_lookup_fmap. destruct (v !! i) eqn:E; [done|]. apply lookup_ge_None in E. lia. Qed.

Lemma vec_zip (m : poly -> poly -> poly) v w i : length v = K -> length w = K -> (i < K)%nat ->
  vec (zip_with m v w) i = m (vec v i) (vec w i).
Proof.
  intros Hv Hw Hi. unfold vec. rewrite lookup_zip_with.
  destruct (v !! i) eqn:E, (w !! i) eqn:E'; [done|apply lookup_ge_None in E'; lia|apply lookup_ge_None in E; lia..].
Qed.

Lemma vgood_zip A B C (m : poly -> poly -> poly) v w : vgood A v -> vgood B w ->
  (forall p q, good A p -> good B q -> good C (m p q)) -> vgood C (zip_with m v w).
Proof.
  intros [Hv Fv] [Hw Fw] H. split; [rewrite length_zip_with; lia|].
  apply Forall_lookup_2. intros i x Hx. apply lookup_zip_with_Some in Hx as (p & q & -> & Hp & Hq).
  apply H; by eapply Forall_lookup_1.
Qed.

(** The inner product of transformed vectors. *)
Definition dot (u v : nat -> nat -> F) (i : nat) : F := sumF K (fun j => hat (u j) (v j) i).

Lemma polyvec_basemul_acc_spec (a b : polyvec) : vgood 32768 a -> vgood Q b ->
  good 1665 (polyvec_basemul_acc a b) /\
  peq (val (polyvec_basemul_acc a b)) (fun i => Rinv * dot (fun j => val (vec a j)) (fun j => val (vec b j)) i)%F.
Proof.
  intros Ha Hb. unfold polyvec_basemul_acc. change (seq 1 (K - 1)) with [1; 2]%nat. cbn [foldl].
  assert (forall j, (j < K)%nat -> good 6658 (poly_basemul (vec a j) (vec b j)) /\
    peq (val (poly_basemul (vec a j) (vec b j))) (fun i => Rinv * hat (val (vec a j)) (val (vec b j)) i)%F) as H
    by (intros; apply poly_basemul_spec; by apply vgood_vec).
  destruct (H 0%nat) as [G0 E0]; [unfold K; lia|]. destruct (H 1%nat) as [G1 E1]; [unfold K; lia|]. destruct (H 2%nat) as [G2 E2]; [unfold K; lia|].
  destruct (poly_add_spec 6658 6658 _ _ ltac:(lia) ltac:(lia) ltac:(lia) G0 G1) as [G01 E01].
  destruct (poly_add_spec 13315 6658 _ _ ltac:(lia) ltac:(lia) ltac:(lia) G01 G2) as [G012 E012].
  apply (good_mono _ 32768) in G012; [|lia]. destruct (poly_reduce_spec _ G012) as [GR ER].
  split; [done|]. intros i Hi. rewrite ER, E012, E01, E0, E1, E2 by done.
  unfold dot, K. cbn [sumF]. ring.
Qed.

Lemma polyvec_ntt_spec B v : 0 < B <= 9465 -> vgood B v ->
  vgood 1665 (polyvec_ntt v) /\ forall j, (j < K)%nat -> peq (val (vec (polyvec_ntt v) j)) (NTT (val (vec v j))).
Proof.
  intros HB Hv. split; [eapply vgood_fmap; [exact Hv|]; intros; by eapply poly_ntt_spec|].
  intros j Hj. unfold polyvec_ntt. rewrite vec_fmap by (apply Hv || done). eapply poly_ntt_spec; [exact HB|by apply vgood_vec].
Qed.

(** The bounds a vector of small coefficients has. *)
Lemma mul_inner (a b : polyvec) A B : 0 < A <= 9465 -> 0 < B <= 9465 -> vgood A a -> vgood B b ->
  peq (val (poly_invntt (polyvec_basemul_acc (polyvec_ntt a) (polyvec_ntt b))))
      (fun n => sumF K (fun j => mulF (val (vec a j)) (val (vec b j)) n)).
Proof.
  intros HA HB Ha Hb.
  destruct (polyvec_ntt_spec A a HA Ha) as [Ga Ea]. destruct (polyvec_ntt_spec B b HB Hb) as [Gb Eb].
  destruct (polyvec_basemul_acc_spec (polyvec_ntt a) (polyvec_ntt b)) as [Gm Em];
    [eapply vgood_mono; [|exact Ga]; lia|eapply vgood_mono; [|exact Gb]; unfold Q; lia|].
  destruct (poly_invntt_spec (polyvec_basemul_acc (polyvec_ntt a) (polyvec_ntt b))) as [_ Ei];
    [eapply good_mono; [|exact Gm]; unfold Q; lia|].
  apply NTT_inj. intros i Hi. rewrite Ei, Em, NTT_sum by done.
  transitivity ((Rmont * Rinv) * dot (fun j => val (vec (polyvec_ntt a) j)) (fun j => val (vec (polyvec_ntt b) j)) i)%F; [ring|].
  rewrite Rmont_inv, Zmod.mul_1_l. apply sumF_ext. intros j Hj.
  rewrite (hat_proper _ _ (Ea j Hj) _ _ (Eb j Hj) i Hi). symmetry. by apply NTT_mul.
Qed.

(** Boolean forms, for concrete arrays. *)
Definition goodb (B : Z) (r : list Z) : bool := (length r =? N)%nat && forallb (fun x => (- B <? x) && (x <? B)) r.
Definition vgoodb (B : Z) (v : polyvec) : bool := (length v =? K)%nat && forallb (goodb B) v.

Lemma goodb_spec B r : goodb B r = true -> good B r.
Proof.
  intros [Hl%Nat.eqb_eq H]%andb_true_iff. split; [done|]. apply Forall_forall. intros x Hx%list_elem_of_In.
  rewrite forallb_forall in H. specialize (H x Hx). b2p. done.
Qed.

Lemma vgoodb_spec B v : vgoodb B v = true -> vgood B v.
Proof.
  intros [Hl%Nat.eqb_eq H]%andb_true_iff. split; [done|]. apply Forall_forall. intros x Hx%list_elem_of_In.
  rewrite forallb_forall in H. by apply goodb_spec, H.
Qed.

(** C10: multiplication through the transform is exact.  For vectors of
    polynomials with coefficients below 9465 in absolute value, transforming
    both, accumulating the base products and transforming back yields, in every
    coefficient and modulo q, the sum of the products modulo X^256 + 1; no
    16-bit operation on the way overflows, the Montgomery factors cancel, and
    the result is below q in absolute value. *)
Theorem inner_product_exact (a b : polyvec) n : vgood 9465 a -> vgood 9465 b -> (n < N)%nat ->
  let p := poly_invntt (polyvec_basemul_acc (polyvec_ntt a) (polyvec_ntt b)) in
  coef p n mod Q = sumZ ((fun j => coef (negacyclic (vec a j) (vec b j)) n) <$> seq 0 K) mod Q /\ bnd Q (coef p n).
Proof.
  intros Ha Hb Hn. split.
  - apply toF_eq. rewrite toF_sumZ. pose proof (mul_inner a b 9465 9465 ltac:(lia) ltac:(lia) Ha Hb n Hn) as E.
    etransitivity; [exact E|]. apply sumF_ext. intros j Hj. symmetry. apply negacyclic_F; [by eapply vgood_vec|done].
  - destruct (polyvec_ntt_spec 9465 a ltac:(lia) Ha) as [Ga _]. destruct (polyvec_ntt_spec 9465 b ltac:(lia) Hb) as [Gb _].
    destruct (polyvec_basemul_acc_spec (polyvec_ntt a) (polyvec_ntt b)) as [Gm _];
      [eapply vgood_mono; [|exact Ga]; lia|eapply vgood_mono; [|exact Gb]; unfold Q; lia|].
    apply good_bnd; [unfold Q; lia|]. apply poly_invntt_spec. eapply good_mono; [|exact Gm]. unfold Q. lia.
Qed.

(** X^200 times 3 X^100 is -3 X^44. *)
Definition monomial (c : Z) (n : nat) : poly := <[n := c]> zeroPoly.

Lemma inner_product_exact_witness :
  let a := [monomial 1 200; zeroPoly; zeroPoly] in let b := [monomial 3 100; zeroPoly; monomial 7 5] in
  let p := poly_invntt (polyvec_basemul_acc (polyvec_ntt a) (polyvec_ntt b)) in
  coef p 44 mod Q = sumZ ((fun j => coef (negacyclic (vec a j) (vec b j)) 44) <$> seq 0 K) mod Q /\ coef p 44 = -3.
Proof.
  intros a b p. split; [|vm_compute; reflexivity].
  apply (inner_product_exact a b 44); [apply vgoodb_spec; vm_compute; reflexivity..|unfold N; lia].
Defined.

End MlKemRing.
