(* ===== verification/MlKemCodec.v ===== *)
(** * Encodings of ML-KEM polynomials

    Model of the byte encodings of src/pqc/mlkem.cpp: 12-bit serialization,
    messages, compression to 10 and 4 bits, the centred binomial samples, and
    rejection sampling from an extendable-output function. *)

From Stdlib Require Import Zmod.
From S2P Require Import Prelude Bytes Keccak MlKemField MlKemNtt MlKemRing.

Module MlKemCodec.
Import Bytes.
Import MlKemField MlKemNtt MlKemRing.

Definition SYMBYTES : nat := 32.
Definition POLYBYTES : nat := 384.

(** [t = x; t += ((int16_t) t >> 15) & Q] on [uint16_t]. *)
Definition addQ (x : Z) : Z :=
  let t := u16 x in u16 (t + u16 (Z.land (Z.shiftr (i16 t) 15) Q)).

(** ** Serialization *)

Definition poly_tobytes (a : poly) : list Z :=
  seq 0 (N / 2) ≫= fun i =>
    let t0 := addQ (coef a (2 * i)) in
    let t1 := addQ (coef a (2 * i + 1)) in
    [u8 (Z.shiftr t0 0); u8 (Z.lor (Z.shiftr t0 8) (Z.shiftl t1 4)); u8 (Z.shiftr t1 4)].

Definition poly_frombytes (a : list Z) : poly :=
  seq 0 (N / 2) ≫= fun i =>
    [i16 (Z.land (Z.lor (Z.shiftr (coef a (3 * i)) 0) (Z.shiftl (coef a (3 * i + 1)) 8)) 0xFFF);
     i16 (Z.land (Z.lor (Z.shiftr (coef a (3 * i + 1)) 4) (Z.shiftl (coef a (3 * i + 2)) 4)) 0xFFF)].

Definition polyvec_tobytes (a : polyvec) : list Z := seq 0 K ≫= fun i => poly_tobytes (vec a i).
Definition polyvec_frombytes (a : list Z) : polyvec := (fun i => poly_frombytes (drop (i * POLYBYTES) a)) <$> seq 0 K.

(** ** Messages *)

Definition poly_frommsg (msg : list Z) : poly :=
  seq 0 (N / 8) ≫= fun i => (fun j : nat =>
    let mask := i16 (- i16 (Z.land (Z.shiftr (coef msg i) (Z.of_nat j)) 1)) in
    i16 (Z.land mask ((Q + 1) / 2))) <$> seq 0 8.

Definition msgBit (x : Z) : Z := u16 (Z.land ((Z.shiftl (addQ x) 1 + Q / 2) / Q) 1).

Definition poly_tomsg (a : poly) : list Z :=
  (fun i => foldl (fun b (j : nat) => Z.lor b (u8 (Z.shiftl (msgBit (coef a (8 * i + j))) (Z.of_nat j)))) 0 (seq 0 8)) <$> seq 0 (N / 8).

(** ** Compression *)

Definition compress4 (x : Z) : Z := u8 (Z.land ((u32 (Z.shiftl (addQ x) 4 + Q / 2)) / Q) 15).

Definition poly_compress_dv (a : poly) : list Z :=
  seq 0 (N / 8) ≫= fun i =>
    let t := (fun j => compress4 (coef a (8 * i + j))) <$> seq 0 8 in
    [u8 (Z.lor (coef t 0) (Z.shiftl (coef t 1) 4)); u8 (Z.lor (coef t 2) (Z.shiftl (coef t 3) 4));
     u8 (Z.lor (coef t 4) (Z.shiftl (coef t 5) 4)); u8 (Z.lor (coef t 6) (Z.shiftl (coef t 7) 4))].

Definition decompress4 (t : Z) : Z := i16 (Z.shiftr (t * Q + 8) 4).

Definition poly_decompress_dv (a : list Z) : poly :=
  seq 0 (N / 2) ≫= fun i => [decompress4 (Z.land (coef a i) 15); decompress4 (Z.shiftr (coef a i) 4)].

Definition compress10 (x : Z) : Z := u16 (Z.land (u32 (Z.shiftl (addQ x) 10 + Q / 2) / Q) 0x3ff).

(** One polynomial of [polyvec_compress_du]. *)
Definition poly_compress_du (a : poly) : list Z :=
  seq 0 (N / 4) ≫= fun j =>
    let t := (fun k => compress10 (coef a (4 * j + k))) <$> seq 0 4 in
    [u8 (Z.shiftr (coef t 0) 0);
     u8 (Z.lor (Z.shiftr (coef t 0) 8) (Z.shiftl (coef t 1) 2));
     u8 (Z.lor (Z.shiftr (coef t 1) 6) (Z.shiftl (coef t 2) 4));
     u8 (Z.lor (Z.shiftr (coef t 2) 4) (Z.shiftl (coef t 3) 6));
     u8 (Z.shiftr (coef t 3) 2)].
Definition polyvec_compress_du (a : polyvec) : list Z := seq 0 K ≫= fun i => poly_compress_du (vec a i).

Definition decompress10 (t : Z) : Z := i16 (Z.shiftr (u32 (Z.land t 0x3FF * Q + 512)) 10).

(** One polynomial of [polyvec_decompress_du]; [idx] is where its bytes start. *)
Definition poly_decompress_du (a : list Z) (idx : nat) : poly :=
  seq 0 (N / 4) ≫= fun j =>
    let b (n : nat) := coef a (idx + 5 * j + n) in
    decompress10 <$>
      [u16 (Z.lor (Z.shiftr (b 0%nat) 0) (Z.shiftl (b 1%nat) 8));
       u16 (Z.lor (Z.shiftr (b 1%nat) 2) (Z.shiftl (b 2%nat) 6));
       u16 (Z.lor (Z.shiftr (b 2%nat) 4) (Z.shiftl (b 3%nat) 4));
       u16 (Z.lor (Z.shiftr (b 3%nat) 6) (Z.shiftl (b 4%nat) 2))].
Definition polyvec_decompress_du (a : list Z) : polyvec := (fun i => poly_decompress_du a (i * 320)) <$> seq 0 K.

(** ** Sampling *)

Definition load32_le (x : list Z) (o : nat) : Z :=
  Z.lor (Z.lor (Z.lor (coef x o) (Z.shiftl (coef x (o + 1)) 8)) (Z.shiftl (coef x (o + 2)) 16)) (Z.shiftl (coef x (o + 3)) 24).

Definition cbd2 (buf : list Z) : poly :=
  seq 0 (N / 8) ≫= fun i =>
    let t := load32_le buf (4 * i) in
    let d := Z.land t 0x55555555 in
    let d := u32 (d + Z.land (Z.shiftr t 1) 0x55555555) in
    (fun j => let a := i16 (Z.land (Z.shiftr d (Z.of_nat (4 * j + 0))) 3) in
              let b := i16 (Z.land (Z.shiftr d (Z.of_nat (4 * j + 2))) 3) in i16 (a - b)) <$> seq 0 8.

Definition poly_getnoise (seed : list Z) (nonce : Z) : poly :=
  cbd2 (Keccak.shake256 128 (seed ++ [u8 nonce])).

(** [rej_uniform] for [len] coefficients; [r] holds the accepted ones. *)
Fixpoint rejLoop (fuel len : nat) (buf r : list Z) : list Z :=
  match fuel with
  | O => r
  | S fuel =>
      if (length r <? len)%nat && (3 <=? length buf)%nat then
        let val0 := u16 (Z.land (Z.lor (Z.shiftr (coef buf 0) 0) (Z.shiftl (coef buf 1) 8)) 0xFFF) in
        let val1 := u16 (Z.land (Z.lor (Z.shiftr (coef buf 1) 4) (Z.shiftl (coef buf 2) 4)) 0xFFF) in
        let r := if val0 <? Q then r ++ [i16 val0] else r in
        let r := if (length r <? len)%nat && (val1 <? Q) then r ++ [i16 val1] else r in
        rejLoop fuel len (drop 3 buf) r
      else r
  end.
Definition rej_uniform (len : nat) (buf : list Z) : list Z := rejLoop (length buf) len buf [].

(** The blocks squeezed until the polynomial is full; [None] when [fuel] more
    blocks do not suffice. *)
Fixpoint refill (fuel : nat) (c ctx : list Z) : option poly :=
  if (length c <? N)%nat then
    match fuel with
    | O => None
    | S fuel =>
        let '(buf, ctx) := Keccak.shake128_squeezeblocks 1 ctx in
        refill fuel (c ++ rej_uniform (N - length c) buf) ctx
    end
  else Some c.

Definition GEN_BLOCKS : nat := 3.

(** One entry of the matrix. *)
Definition gen_entry (fuel : nat) (rho : list Z) (transposed : bool) (i j : nat) : option poly :=
  let seed := rho ++ (if transposed then [u8 (Z.of_nat i); u8 (Z.of_nat j)] else [u8 (Z.of_nat j); u8 (Z.of_nat i)]) in
  let ctx := Keccak.shake128_absorb seed in
  let '(buf, ctx) := Keccak.shake128_squeezeblocks GEN_BLOCKS ctx in
  refill fuel (rej_uniform N buf) ctx.

Definition gen_matrix (fuel : nat) (rho : list Z) (transposed : bool) : option (list polyvec) :=
  mapM (fun i => mapM (gen_entry fuel rho transposed i) (seq 0 K)) (seq 0 K).

(** ** Arrays written in chunks *)

(** ** Bits as arithmetic *)

Lemma addQ_spec x : bnd Q x -> addQ x = x mod Q.
Proof.
  unfold bnd, addQ. intros Hx. unfold Q in *.
  assert (i16 (u16 x) = x) as E.
  { rewrite i16_mod. unfold u16. change 65536 with (2 ^ 16). rewrite Zplus_mod_idemp_l, Z.mod_small; lia. }
  rewrite E. destruct (Z.lt_ge_cases x 0).
  - replace (Z.shiftr x 15) with (-1) by (rewrite shiftr_div by lia; apply Z.div_unique with (x + 2 ^ 15); lia).
    rewrite Z.land_m1_l. unfold u16. change (3329 mod 2 ^ 16) with 3329. rewrite Zplus_mod_idemp_l, Z.mod_small by lia.
    apply Z.mod_unique with (-1); lia.
  - replace (Z.shiftr x 15) with 0 by (rewrite shiftr_div, Z.div_small; lia).
    rewrite Z.land_0_l. unfold u16. rewrite (Z.mod_small 0), Z.add_0_r, Zmod_mod by lia. rewrite !Z.mod_small; lia.
Qed.

Lemma addQ_bound x : bnd Q x -> 0 <= addQ x < Q.
Proof. intros Hx. rewrite addQ_spec by done. apply Z.mod_pos_bound. unfold Q; lia. Qed.

Lemma addQ_F x : bnd Q x -> toF (addQ x) = toF x.
Proof. intros Hx. rewrite addQ_spec by done. apply toF_mod. Qed.

(** ** Serialization *)

(** Two 12-bit numbers in three bytes. *)
Lemma pack12 t0 t1 : 0 <= t0 < 4096 -> 0 <= t1 < 4096 ->
  let b0 := u8 (Z.shiftr t0 0) in let b1 := u8 (Z.lor (Z.shiftr t0 8) (Z.shiftl t1 4)) in let b2 := u8 (Z.shiftr t1 4) in
  i16 (Z.land (Z.lor (Z.shiftr b0 0) (Z.shiftl b1 8)) 0xFFF) = t0 /\
  i16 (Z.land (Z.lor (Z.shiftr b1 4) (Z.shiftl b2 4)) 0xFFF) = t1.
Proof.
  intros H0 H1. cbv zeta. change 0xFFF with (Z.ones 12). rewrite !land_mod, !shiftr_div by lia.
  change (2 ^ 0) with 1. rewrite !Z.div_1_r.
  pose proof (u8_byte t0) as B0. unfold byte in B0.
  assert (0 <= t0 / 2 ^ 8 < 2 ^ 4) as D0 by (split; [apply Z.div_pos; lia|apply Z.div_lt_upper_bound; lia]).
  assert (0 <= u8 (t0 / 2 ^ 8 + 2 ^ 4 * t1) / 2 ^ 4 < 2 ^ 4) as D1.
  { pose proof (u8_byte (t0 / 2 ^ 8 + 2 ^ 4 * t1)) as B. unfold byte in B. split; [apply Z.div_pos; lia|apply Z.div_lt_upper_bound; lia]. }
  rewrite !lor_add by lia. unfold u8 in *.
  split; rewrite i16_small by (unfold int16; Z.div_mod_to_equations; lia); Z.div_mod_to_equations; lia.
Qed.

Lemma length_tobytes a : length (poly_tobytes a) = POLYBYTES.
Proof. unfold poly_tobytes. by erewrite (length_chunks _ 3). Qed.
Lemma length_frombytes a : length (poly_frombytes a) = N.
Proof. unfold poly_frombytes. by erewrite (length_chunks _ 2). Qed.

(** Reading back the bytes of a polynomial gives its coefficients modulo q. *)
Lemma frombytes_tobytes a l : good Q a -> poly_frombytes (poly_tobytes a ++ l) = (fun x => x mod Q) <$> a.
Proof.
  intros Ha. assert (length a = N) as Hl by apply Ha.
  apply coef_ext; rewrite length_frombytes; [by rewrite length_fmap|].
  change N with (2 * 128)%nat. apply chunk_cases; [lia|]. intros i j Hi Hj.
  rewrite coef_fmap by (rewrite Hl; unfold N; lia). unfold poly_frombytes. rewrite coef_chunks by done.
  assert (forall n, (n < 3)%nat -> coef (poly_tobytes a ++ l) (3 * i + n) =
    coef (let t0 := addQ (coef a (2 * i)) in let t1 := addQ (coef a (2 * i + 1)) in
      [u8 (Z.shiftr t0 0); u8 (Z.lor (Z.shiftr t0 8) (Z.shiftl t1 4)); u8 (Z.shiftr t1 4)]) n) as E.
  { intros n Hn. rewrite coef_app_l by (rewrite length_tobytes; unfold POLYBYTES; lia).
    unfold poly_tobytes. by rewrite coef_chunks. }
  pose proof (E 0%nat ltac:(lia)) as E0. rewrite Nat.add_0_r in E0. rewrite E0, (E 1%nat), (E 2%nat) by lia. clear E E0.
  assert (forall i, bnd Q (coef a i)) as Hb by (intros; apply good_bnd; [unfold Q; lia|done]).
  pose proof (addQ_bound _ (Hb (2 * i)%nat)). pose proof (addQ_bound _ (Hb (2 * i + 1)%nat)).
  destruct (pack12 (addQ (coef a (2 * i))) (addQ (coef a (2 * i + 1)))) as [P0 P1]; [unfold Q in *; lia..|].
  rewrite <- !addQ_spec by done. destruct j as [|[|j]]; [| |lia].
  - rewrite Nat.add_0_r. exact P0.
  - exact P1.
Qed.

Lemma vec_seq (f : nat -> poly) i : (i < K)%nat -> vec (f <$> seq 0 K) i = f i.
Proof. intros Hi. unfold vec. by rewrite list_lookup_fmap, lookup_seq_lt. Qed.

Lemma vgood_seq B (f : nat -> poly) : (forall i, (i < K)%nat -> good B (f i)) -> vgood B (f <$> seq 0 K).
Proof.
  intros H. split; [by rewrite length_fmap, length_seq|]. apply Forall_fmap, Forall_forall.
  intros i Hi. apply H. apply elem_of_seq in Hi. lia.
Qed.

Lemma polyvec_frombytes_tobytes (a : polyvec) l i : vgood Q a -> (i < K)%nat ->
  vec (polyvec_frombytes (polyvec_tobytes a ++ l)) i = (fun x => x mod Q) <$> vec a i.
Proof.
  intros Ha Hi. unfold polyvec_frombytes, polyvec_tobytes. rewrite vec_seq by done.
  destruct (drop_chunks (fun i => poly_tobytes (vec a i)) POLYBYTES K i l) as [l' ->]; [intros; apply length_tobytes|done|].
  apply frombytes_tobytes. by apply vgood_vec.
Qed.

Lemma length_polyvec_tobytes (a : polyvec) : length (polyvec_tobytes a) = (K * POLYBYTES)%nat.
Proof. unfold polyvec_tobytes. erewrite (length_chunks _ POLYBYTES); [done|]. intros. apply length_tobytes. Qed.

Lemma mod_fmap_spec a : length a = N -> good Q ((fun x => x mod Q) <$> a) /\ peq (val ((fun x => x mod Q) <$> a)) (val a).
Proof.
  intros Hl. split.
  - apply good_intro; [by rewrite length_fmap|]. intros i Hi. rewrite coef_fmap by lia.
    pose proof (Z.mod_pos_bound (coef a i) Q). unfold bnd, Q in *. lia.
  - intros i Hi. unfold val. rewrite coef_fmap by lia. apply toF_mod.
Qed.

(** What [poly_frombytes] reads is below 2^12, whatever the bytes. *)
Lemma frombytes_good l : good 32768 (poly_frombytes l).
Proof.
  apply good_intro; [apply length_frombytes|]. change N with (2 * 128)%nat. apply chunk_cases; [lia|]. intros i j Hi Hj.
  unfold poly_frombytes. rewrite coef_chunks by done.
  assert (forall x, bnd 32768 (i16 (Z.land x 0xFFF))) as H.
  { intros x. change 0xFFF with (Z.ones 12). rewrite land_mod by lia. pose proof (Z.mod_pos_bound x (2 ^ 12)).
    rewrite i16_small; unfold int16, bnd; lia. }
  destruct j as [|[|j]]; [apply H|apply H|lia].
Qed.

(** ** Messages *)

Lemma length_frommsg m : length (poly_frommsg m) = N.
Proof. unfold poly_frommsg. by erewrite (length_chunks _ 8). Qed.
Lemma length_tomsg a : length (poly_tomsg a) = SYMBYTES.
Proof. reflexivity. Qed.

Definition bitCoef (b : bool) : Z := if b then 1665 else 0.

Lemma frommsg_coef m i j : (i < 32)%nat -> (j < 8)%nat ->
  coef (poly_frommsg m) (8 * i + j) = bitCoef (Z.testbit (coef m i) (Z.of_nat j)).
Proof.
  intros Hi Hj. unfold poly_frommsg. rewrite coef_chunks by done. rewrite coef_fmap_seq by done.
  replace (Z.land (Z.shiftr (coef m i) (Z.of_nat j)) 1) with (Z.b2z (Z.testbit (coef m i) (Z.of_nat j))).
  - by destruct (Z.testbit _ _).
  - change 1 with (Z.ones 1). rewrite Z.land_ones by lia. rewrite Z.testbit_spec' by lia.
    rewrite shiftr_div by lia. done.
Qed.

Lemma frommsg_good m : good 1666 (poly_frommsg m).
Proof.
  apply good_intro; [apply length_frommsg|]. change N with (8 * 32)%nat. apply chunk_cases; [lia|]. intros i j Hi Hj.
  rewrite frommsg_coef by done. unfold bitCoef, bnd. destruct (Z.testbit _ _); lia.
Qed.

(** A coefficient decodes to its bit when the noise is within a quarter of q. *)
Definition noise_ok (w : Z) : Prop := -832 <= w <= 831.

Lemma msgBit_noisy b x w : bnd Q x -> noise_ok w -> x mod Q = (bitCoef b + w) mod Q -> msgBit x = Z.b2z b.
Proof.
  unfold noise_ok, msgBit. intros Hx Hw E. rewrite addQ_spec, E by done.
  assert (forall c, 0 <= c <= 2 -> u16 (Z.land c 1) = c mod 2) as Hc.
  { intros c Hc. change 1 with (Z.ones 1). rewrite land_mod by lia. change (2 ^ 1) with 2.
    unfold u16. apply Z.mod_small. pose proof (Z.mod_pos_bound c 2). lia. }
  assert (exists t, (bitCoef b + w) mod Q = t /\ 0 <= t < Q /\ (Z.shiftl t 1 + Q / 2) / Q = (if b then 1 else if 0 <=? w then 0 else 2)) as (t & -> & _ & ->).
  { change (Q / 2) with 1664. unfold Q. destruct b; cbn [bitCoef]; [|destruct (Z.leb_spec 0 w)].
    - exists (1665 + w). rewrite Z.shiftl_mul_pow2, Z.mod_small by lia. split_and!; [lia..|].
      symmetry. apply Z.div_unique with (2 * (1665 + w) + 1664 - 3329); lia.
    - exists w. rewrite Z.shiftl_mul_pow2, Z.mod_small by lia. split_and!; [lia..|]. apply Z.div_small. lia.
    - exists (w + 3329). rewrite Z.shiftl_mul_pow2 by lia. split_and!.
      + symmetry. apply Z.mod_unique with (-1); lia.
      + lia.
      + lia.
      + symmetry. apply Z.div_unique with (2 * (w + 3329) + 1664 - 2 * 3329); lia. }
  rewrite Hc by (destruct b; [|destruct (_ <=? _)]; lia). destruct b; [done|]. by destruct (_ <=? _).
Qed.

Lemma byte_bits m : byte m ->
  foldl (fun b (j : nat) => Z.lor b (u8 (Z.shiftl (Z.b2z (Z.testbit m (Z.of_nat j))) (Z.of_nat j)))) 0 (seq 0 8) = m.
Proof.
  intros Hm. unfold byte in Hm.
  pose proof (forallb_seq (fun n => foldl (fun b (j : nat) => Z.lor b (u8 (Z.shiftl (Z.b2z (Z.testbit (Z.of_nat n) (Z.of_nat j))) (Z.of_nat j)))) 0 (seq 0 8) =? Z.of_nat n) 256 (Z.to_nat m)) as H.
  cbn beta in H. rewrite Z2Nat.id in H by lia. apply Z.eqb_eq, H; [vm_compute; reflexivity|lia].
Qed.

(** A noisy message polynomial decodes to the message. *)
Lemma tomsg_noisy m a (w : nat -> Z) : length m = SYMBYTES -> Forall byte m -> good Q a ->
  (forall i, (i < N)%nat -> noise_ok (w i) /\ coef a i mod Q = (coef (poly_frommsg m) i + w i) mod Q) ->
  poly_tomsg a = m.
Proof.
  intros Hl Hb Ha H. apply coef_ext; rewrite length_tomsg; [done|]. intros i Hi. unfold SYMBYTES in Hi.
  unfold poly_tomsg. change (N / 8)%nat with 32%nat. rewrite coef_fmap_seq by done.
  rewrite <- (byte_bits (coef m i)) by (by apply coef_byte).
  eapply (foldl_ext_in _ _ (fun _ => True)); [done|]. intros b j _ Hj. apply elem_of_seq in Hj. split; [|done].
  destruct (H (8 * i + j)%nat) as [Hw E]; [unfold N; lia|]. rewrite frommsg_coef in E by lia.
  rewrite (msgBit_noisy _ _ _ (good_bnd Q a _ ltac:(unfold Q; lia) Ha) Hw E). done.
Qed.

(** ** Compression *)

Lemma length_compress_dv a : length (poly_compress_dv a) = 128%nat.
Proof. unfold poly_compress_dv. by erewrite (length_chunks _ 4). Qed.
Lemma length_compress_du a : length (poly_compress_du a) = 320%nat.
Proof. unfold poly_compress_du. by erewrite (length_chunks _ 5). Qed.
Lemma length_polyvec_compress_du a : length (polyvec_compress_du a) = (K * 320)%nat.
Proof. unfold polyvec_compress_du. erewrite (length_chunks _ 320); [done|]. intros. apply length_compress_du. Qed.

Lemma compress_bytes (u : polyvec) v : Forall byte (polyvec_compress_du u ++ poly_compress_dv v).
Proof.
  apply Forall_app. split.
  - apply chunks_bytes. intros i. apply chunks_bytes. intros j. repeat constructor; apply u8_byte.
  - apply chunks_bytes. intros i. repeat constructor; apply u8_byte.
Qed.

(** Four 10-bit numbers in five bytes, and two 4-bit numbers in one. *)
Lemma pack10 t0 t1 t2 t3 : 0 <= t0 < 1024 -> 0 <= t1 < 1024 -> 0 <= t2 < 1024 -> 0 <= t3 < 1024 ->
  let b0 := u8 (Z.shiftr t0 0) in let b1 := u8 (Z.lor (Z.shiftr t0 8) (Z.shiftl t1 2)) in
  let b2 := u8 (Z.lor (Z.shiftr t1 6) (Z.shiftl t2 4)) in let b3 := u8 (Z.lor (Z.shiftr t2 4) (Z.shiftl t3 6)) in
  let b4 := u8 (Z.shiftr t3 2) in
  Z.land (u16 (Z.lor (Z.shiftr b0 0) (Z.shiftl b1 8))) 0x3FF = t0 /\
  Z.land (u16 (Z.lor (Z.shiftr b1 2) (Z.shiftl b2 6))) 0x3FF = t1 /\
  Z.land (u16 (Z.lor (Z.shiftr b2 4) (Z.shiftl b3 4))) 0x3FF = t2 /\
  Z.land (u16 (Z.lor (Z.shiftr b3 6) (Z.shiftl b4 2))) 0x3FF = t3.
Proof.
  intros H0 H1 H2 H3. cbv zeta. change 0x3FF with (Z.ones 10). rewrite !land_mod, !shiftr_div by lia.
  change (2 ^ 0) with 1. rewrite !Z.div_1_r.
  assert (forall x k, 0 <= x < 1024 -> 0 <= k <= 8 -> 0 <= x / 2 ^ k < 2 ^ (10 - k)) as D.
  { intros x k Hx Hk. split; [apply Z.div_pos; lia|]. apply Z.div_lt_upper_bound; [lia|].
    rewrite <- Z.pow_add_r by lia. replace (k + (10 - k)) with 10 by lia. lia. }
  pose proof (D t0 8 H0 ltac:(lia)). pose proof (D t1 6 H1 ltac:(lia)). pose proof (D t2 4 H2 ltac:(lia)). clear D.
  assert (forall z k, 0 <= k <= 8 -> 0 <= u8 z / 2 ^ k < 2 ^ (8 - k)) as B.
  { intros z k Hk. pose proof (u8_byte z) as Hb. unfold byte in Hb. split; [apply Z.div_pos; lia|]. apply Z.div_lt_upper_bound; [lia|].
    rewrite <- Z.pow_add_r by lia. replace (k + (8 - k)) with 8 by lia. lia. }
  rewrite (lor_add (t0 / 2 ^ 8)), (lor_add (t1 / 2 ^ 6)), (lor_add (t2 / 2 ^ 4)) by (lia || assumption).
  set (b1 := t0 / 2 ^ 8 + _). set (b2 := t1 / 2 ^ 6 + _). set (b3 := t2 / 2 ^ 4 + _).
  pose proof (B t0 0 ltac:(lia)) as B0. rewrite Z.div_1_r in B0.
  rewrite (lor_add (u8 t0)) by (lia || exact B0).
  rewrite (lor_add (u8 b1 / 2 ^ 2)) by (lia || apply (B b1 2); lia).
  rewrite (lor_add (u8 b2 / 2 ^ 4)) by (lia || apply (B b2 4); lia).
  rewrite (lor_add (u8 b3 / 2 ^ 6)) by (lia || apply (B b3 6); lia). clear B B0.
  assert (forall x, u16 x mod 2 ^ 10 = x mod 2 ^ 10) as U.
  { intros x. unfold u16. change (2 ^ 16) with (2 ^ 10 * 2 ^ 6). rewrite Z.rem_mul_r by lia.
    rewrite Z.mul_comm, Z.mod_add, Zmod_mod by lia. done. }
  rewrite !U. unfold b1, b2, b3, u8. clear U b1 b2 b3.
  split_and!; Z.div_mod_to_equations; lia.
Qed.

Lemma compress_range x : 0 <= compress10 x < 1024 /\ 0 <= compress4 x < 16.
Proof.
  unfold compress10, compress4, u16, u8. change 0x3ff with (Z.ones 10). change 15 with (Z.ones 4). rewrite !land_mod by lia.
  set (a := u32 (Z.shiftl (addQ x) 10 + _) / Q). set (b := u32 _ / Q). clearbody a b.
  pose proof (Z.mod_pos_bound a (2 ^ 10) ltac:(lia)) as Ha. pose proof (Z.mod_pos_bound b (2 ^ 4) ltac:(lia)) as Hb.
  rewrite !(Z.mod_small (_ mod _)) by lia. split; [exact Ha|exact Hb].
Qed.

Lemma pack4 t0 t1 : 0 <= t0 < 16 -> 0 <= t1 < 16 ->
  Z.land (u8 (Z.lor t0 (Z.shiftl t1 4))) 15 = t0 /\ Z.shiftr (u8 (Z.lor t0 (Z.shiftl t1 4))) 4 = t1.
Proof.
  intros H0 H1. change 15 with (Z.ones 4). rewrite land_mod, shiftr_div, lor_add by lia. unfold u8.
  rewrite (Z.mod_small _ (2 ^ 8)) by lia. split; Z.div_mod_to_equations; lia.
Qed.

Lemma length_decompress_dv a : length (poly_decompress_dv a) = N.
Proof. unfold poly_decompress_dv. by erewrite (length_chunks _ 2). Qed.
Lemma length_decompress_du a o : length (poly_decompress_du a o) = N.
Proof. unfold poly_decompress_du. by erewrite (length_chunks _ 4). Qed.

(** Decompression yields values below q. *)
Lemma decompress4_bnd t : 0 <= t < 16 -> bnd Q (decompress4 t).
Proof.
  intros Ht. unfold decompress4. rewrite shiftr_div by lia.
  assert (0 <= (t * Q + 8) / 2 ^ 4 < Q) by (unfold Q; split; [apply Z.div_pos; lia|apply Z.div_lt_upper_bound; lia]).
  rewrite i16_small; unfold bnd, int16, Q in *; lia.
Qed.

Lemma decompress10_bnd t : bnd Q (decompress10 t).
Proof.
  unfold decompress10. change 0x3FF with (Z.ones 10). rewrite shiftr_div, land_mod by lia.
  pose proof (Z.mod_pos_bound t (2 ^ 10) ltac:(lia)) as Ht.
  assert (0 <= (t mod 2 ^ 10 * Q + 512) / 2 ^ 10 < Q) by (unfold Q; split; [apply Z.div_pos; lia|apply Z.div_lt_upper_bound; lia]).
  rewrite u32_small by (unfold Q; lia). rewrite i16_small; unfold bnd, int16, Q in *; lia.
Qed.

Lemma decompress_dv_good a : Forall byte a -> good Q (poly_decompress_dv a).
Proof.
  intros Ha. apply good_intro; [apply length_decompress_dv|]. change N with (2 * 128)%nat. apply chunk_cases; [lia|]. intros i j Hi Hj.
  unfold poly_decompress_dv. rewrite coef_chunks by done.
  pose proof (coef_byte a i Ha) as Hb. unfold byte in Hb. destruct j as [|[|j]]; [| |lia]; apply decompress4_bnd.
  - change 15 with (Z.ones 4). rewrite land_mod by lia. pose proof (Z.mod_pos_bound (coef a i) (2 ^ 4)). lia.
  - rewrite shiftr_div by lia. split; [apply Z.div_pos; lia|apply Z.div_lt_upper_bound; lia].
Qed.

Lemma decompress_du_good a o : good Q (poly_decompress_du a o).
Proof.
  apply good_intro; [apply length_decompress_du|]. change N with (4 * 64)%nat. apply chunk_cases; [lia|]. intros i j Hi Hj.
  unfold poly_decompress_du. rewrite coef_chunks by done.
  destruct j as [|[|[|[|j]]]]; [apply decompress10_bnd..|lia].
Qed.

(** Reading the bytes of a compressed polynomial. *)
Lemma decompress_compress_dv a n : (n < N)%nat ->
  coef (poly_decompress_dv (poly_compress_dv a)) n = decompress4 (compress4 (coef a n)).
Proof.
  change N with (8 * 32)%nat. revert n. apply chunk_cases; [lia|]. intros i j Hi Hj.
  assert (forall m e, (m < 4)%nat -> (e < 2)%nat -> coef (poly_decompress_dv (poly_compress_dv a)) (8 * i + (2 * m + e)) =
    decompress4 (compress4 (coef a (8 * i + (2 * m + e))))) as H.
  { intros m e Hm He. replace (8 * i + (2 * m + e))%nat with (2 * (4 * i + m) + e)%nat at 1 by lia.
    unfold poly_decompress_dv. change (N / 2)%nat with 128%nat. rewrite (coef_chunks _ 2) by (done || lia).
    unfold poly_compress_dv. rewrite (coef_chunks _ 4) by (done || lia).
    destruct (pack4 (compress4 (coef a (8 * i + 2 * m))) (compress4 (coef a (8 * i + (2 * m + 1))))) as [P0 P1]; [apply compress_range..|].
    destruct e as [|[|e]]; [| |lia]; unfold coef at 1; cbn [lookup list_lookup default]; unfold id; f_equal; rewrite ?Nat.add_0_r.
    - rewrite <- P0. do 4 (destruct m as [|m]; [reflexivity|]). lia.
    - rewrite <- P1. do 4 (destruct m as [|m]; [reflexivity|]). lia. }
  destruct (parity_cases j) as (m & e & -> & He). apply H; lia.
Qed.

Lemma decompress10_land t c : 0 <= c < 1024 -> Z.land t 0x3FF = c -> decompress10 t = decompress10 c.
Proof.
  intros Hc E. unfold decompress10. rewrite E. change 0x3FF with (Z.ones 10). by rewrite land_mod, Z.mod_small by lia.
Qed.

Lemma decompress_compress_du (u : polyvec) l i n : (i < K)%nat -> (n < N)%nat ->
  coef (vec (polyvec_decompress_du (polyvec_compress_du u ++ l)) i) n = decompress10 (compress10 (coef (vec u i) n)).
Proof.
  intros Hi. unfold polyvec_decompress_du. rewrite vec_seq by done. set (a := vec u i).
  assert (forall m, (m < 320)%nat -> coef (polyvec_compress_du u ++ l) (i * 320 + m) = coef (poly_compress_du a) m) as E.
  { intros m Hm. rewrite <- coef_drop. unfold polyvec_compress_du.
    destruct (drop_chunks (fun i => poly_compress_du (vec u i)) 320 K i l) as [l' ->]; [intros; apply length_compress_du|done|].
    apply coef_app_l. by rewrite length_compress_du. }
  change N with (4 * 64)%nat. revert n. apply chunk_cases; [lia|]. intros b j Hb Hj.
  unfold poly_decompress_du. rewrite (coef_chunks _ 4) by done.
  assert (forall m, (m < 5)%nat -> coef (polyvec_compress_du u ++ l) (i * 320 + 5 * b + m) = coef (poly_compress_du a) (5 * b + m)) as E'
    by (intros m Hm; rewrite <- Nat.add_assoc; apply E; lia).
  rewrite !E' by lia. unfold poly_compress_du. rewrite !(coef_chunks _ 5) by (done || lia).
  pose proof (pack10 (compress10 (coef a (4 * b + 0))) (compress10 (coef a (4 * b + 1))) (compress10 (coef a (4 * b + 2))) (compress10 (coef a (4 * b + 3)))
    (proj1 (compress_range _)) (proj1 (compress_range _)) (proj1 (compress_range _)) (proj1 (compress_range _))) as (P0 & P1 & P2 & P3).
  destruct j as [|[|[|[|j]]]]; [..|lia]; (apply decompress10_land; [apply compress_range|]);
    [exact P0|exact P1|exact P2|exact P3].
Qed.

(** The rounding errors, modulo q. *)
Lemma round10 t : 0 <= t < 3329 ->
  ((((t * 1024 + 1664) / 3329) mod 1024 * 3329 + 512) / 1024 - t + 2) mod 3329 <= 4.
Proof.
  intros Ht. assert (0 <= (t * 1024 + 1664) / 3329 <= 1024) by (Z.div_mod_to_equations; lia).
  destruct (decide ((t * 1024 + 1664) / 3329 = 1024)) as [E|].
  - rewrite E. change ((1024 mod 1024 * 3329 + 512) / 1024) with 0. Z.div_mod_to_equations; lia.
  - rewrite (Z.mod_small _ 1024) by lia. Z.div_mod_to_equations; lia.
Qed.

Lemma round4 t : 0 <= t < 3329 ->
  ((((t * 16 + 1664) / 3329) mod 16 * 3329 + 8) / 16 - t + 104) mod 3329 <= 208.
Proof.
  intros Ht. assert (0 <= (t * 16 + 1664) / 3329 <= 16) by (Z.div_mod_to_equations; lia).
  destruct (decide ((t * 16 + 1664) / 3329 = 16)) as [E|].
  - rewrite E. change ((16 mod 16 * 3329 + 8) / 16) with 0. Z.div_mod_to_equations; lia.
  - rewrite (Z.mod_small _ 16) by lia. Z.div_mod_to_equations; lia.
Qed.

Lemma compress_errors x : bnd Q x ->
  (decompress10 (compress10 x) - x + 2) mod Q <= 4 /\ (decompress4 (compress4 x) - x + 104) mod Q <= 208.
Proof.
  intros Hx. pose proof (addQ_spec x Hx) as E. pose proof (addQ_bound x Hx) as B.
  assert (forall d c, (d - x + c) mod Q = (d - addQ x + c) mod Q) as E'.
  { intros d c. rewrite E. rewrite <- (Zplus_mod_idemp_l (d - x)), <- (Zplus_mod_idemp_l (d - x mod Q)). by rewrite Zminus_mod_idemp_r. }
  rewrite !E'. clear E' E Hx. unfold compress10, compress4, decompress10, decompress4, Q in *. generalize dependent (addQ x). intros t B.
  change (3329 / 2) with 1664. change 0x3ff with (Z.ones 10). change 15 with (Z.ones 4). rewrite !land_mod, !shiftr_div, !Z.shiftl_mul_pow2 by lia.
  change (2 ^ 10) with 1024. change (2 ^ 4) with 16.
  assert (forall z m, 0 < m <= 1024 -> u16 (z mod m) = z mod m) as U16
    by (intros z m Hm; unfold u16; apply Z.mod_small; pose proof (Z.mod_pos_bound z m); lia).
  assert (forall z, u8 (z mod 16) = z mod 16) as U8
    by (intros z; unfold u8; apply Z.mod_small; pose proof (Z.mod_pos_bound z 16); lia).
  rewrite !(u32_small (t * _ + _)) by lia. rewrite U16, U8, Zmod_mod by lia.
  pose proof (round10 t B) as R10. pose proof (round4 t B) as R4.
  assert (forall c, 0 <= c < 1024 -> i16 (u32 (c * 3329 + 512) / 1024) = (c * 3329 + 512) / 1024) as I10.
  { intros c Hc. rewrite u32_small by lia. apply i16_small. unfold int16. Z.div_mod_to_equations; lia. }
  assert (forall c, 0 <= c < 16 -> i16 ((c * 3329 + 8) / 16) = (c * 3329 + 8) / 16) as I4
    by (intros c Hc; apply i16_small; unfold int16; Z.div_mod_to_equations; lia).
  rewrite I10, I4 by (apply Z.mod_pos_bound; lia). done.
Qed.



(** ** Samples *)

Lemma cbd2_good buf : good 4 (cbd2 buf).
Proof.
  assert (length (cbd2 buf) = N) as Hl by (unfold cbd2; by erewrite (length_chunks _ 8)).
  apply good_intro; [done|]. change N with (8 * 32)%nat. apply chunk_cases; [lia|]. intros i j Hi Hj.
  unfold cbd2. rewrite coef_chunks by done. cbv zeta. rewrite coef_fmap_seq by done. set (d := u32 _). clearbody d.
  assert (forall x, 0 <= i16 (Z.land x 3) < 4) as H.
  { intros x. change 3 with (Z.ones 2) at 1 2. rewrite land_mod by lia. pose proof (Z.mod_pos_bound x (2 ^ 2)).
    rewrite i16_small; unfold int16; lia. }
  pose proof (H (Z.shiftr d (Z.of_nat (4 * j + 0)))). pose proof (H (Z.shiftr d (Z.of_nat (4 * j + 2)))).
  rewrite i16_small; unfold int16, bnd; lia.
Qed.

(** Accepted coefficients are below q and no more than asked for. *)
Definition accepted (len : nat) (r : list Z) : Prop := (length r <= len)%nat /\ Forall (fun x => 0 <= x < Q) r.

Lemma accepted_snoc len r v : accepted len r -> (length r < len)%nat -> 0 <= v < Q -> accepted len (r ++ [i16 v]).
Proof.
  intros [Hl Hr] Hlt Hv. split; [rewrite length_app; simpl; lia|]. apply Forall_app. split; [done|].
  repeat constructor; rewrite i16_small; unfold int16, Q in *; lia.
Qed.

Lemma rejLoop_accepted fuel len buf r : accepted len r -> accepted len (rejLoop fuel len buf r).
Proof.
  revert buf r. induction fuel as [|fuel IH]; intros buf r Hr; cbn [rejLoop]; [done|].
  destruct ((length r <? len)%nat && (3 <=? length buf)%nat) eqn:E; [|done].
  apply andb_true_iff in E as [E%Nat.ltb_lt _]. apply IH.
  assert (forall x, 0 <= u16 x) as U by (intros x; unfold u16; apply Z.mod_pos_bound; lia).
  set (v0 := u16 _). set (v1 := u16 _). assert (0 <= v0 /\ 0 <= v1) as [H0 H1] by (split; apply U). clearbody v0 v1. clear U.
  set (r1 := if v0 <? Q then r ++ [i16 v0] else r).
  assert (accepted len r1) as Hr1 by (unfold r1; destruct (v0 <? Q) eqn:E0; b2p; [by apply accepted_snoc|done]).
  destruct ((length r1 <? len)%nat && (v1 <? Q)) eqn:E1; [|done].
  apply andb_true_iff in E1 as [El%Nat.ltb_lt E1]. b2p. by apply accepted_snoc.
Qed.

Lemma rej_uniform_accepted len buf : accepted len (rej_uniform len buf).
Proof. apply rejLoop_accepted. split; [simpl; lia|constructor]. Qed.

Lemma refill_good fuel : forall c ctx p, accepted N c -> refill fuel c ctx = Some p -> good Q p /\ accepted N p.
Proof.
  assert (forall c, accepted N c -> (N <= length c)%nat -> good Q c) as Hg.
  { intros c [Hl Hc] Hn. split; [lia|]. eapply Forall_impl; [exact Hc|]. unfold bnd. lia. }
  induction fuel as [|fuel IH]; intros c ctx p Hc; cbn [refill]; destruct (length c <? N)%nat eqn:E; try done;
    try (intros [= <-]; apply Nat.ltb_ge in E; by auto).
  destruct (Keccak.shake128_squeezeblocks 1 ctx) as [buf ctx']. apply IH. apply Nat.ltb_lt in E.
  destruct Hc as [Hl Hc]. destruct (rej_uniform_accepted (N - length c) buf) as [Hl' Hc'].
  split; [rewrite length_app; lia|]. by apply Forall_app.
Qed.

Lemma gen_entry_good fuel rho tr i j p : gen_entry fuel rho tr i j = Some p -> good Q p.
Proof.
  unfold gen_entry. destruct (Keccak.shake128_squeezeblocks _ _) as [buf ctx]. intros H.
  eapply refill_good; [|exact H]. apply rej_uniform_accepted.
Qed.

Lemma gen_entry_transposed fuel rho i j : gen_entry fuel rho true i j = gen_entry fuel rho false j i.
Proof. reflexivity. Qed.

(** The entries of a generated matrix. *)
Definition entry (a : list polyvec) (i j : nat) : poly := vec (default [] (a !! i)) j.

Lemma gen_matrix_entry fuel rho tr a : gen_matrix fuel rho tr = Some a ->
  (forall i, (i < K)%nat -> vgood Q (default [] (a !! i))) /\
  forall i j, (i < K)%nat -> (j < K)%nat -> gen_entry fuel rho tr i j = Some (entry a i j).
Proof.
  unfold gen_matrix. intros H%mapM_Some_1.
  assert (forall i, (i < K)%nat -> exists r, a !! i = Some r /\ Forall2 (fun j p => gen_entry fuel rho tr i j = Some p) (seq 0 K) r) as Hr.
  { intros i Hi. destruct (Forall2_lookup_l _ _ _ i i H) as (r & E & Hm); [by apply lookup_seq_lt|].
    exists r. split; [done|]. by apply mapM_Some_1. }
  split.
  - intros i Hi. destruct (Hr i Hi) as (r & -> & Hm). simpl. split; [by rewrite <- (Forall2_length _ _ _ Hm), length_seq|].
    apply Forall_lookup_2. intros j p Hp. destruct (Forall2_lookup_r _ _ _ j p Hm Hp) as (j' & _ & E). by eapply gen_entry_good.
  - intros i j Hi Hj. destruct (Hr i Hi) as (r & E & Hm). unfold entry. rewrite E. simpl.
    destruct (Forall2_lookup_l _ _ _ j j Hm) as (p & Ep & Hp); [by apply lookup_seq_lt|]. unfold vec. by rewrite Ep.
Qed.

(** The transposed matrix is generated whenever the matrix is. *)
Lemma gen_matrix_transposed fuel rho a : gen_matrix fuel rho false = Some a ->
  exists a', gen_matrix fuel rho true = Some a' /\
    forall i j, (i < K)%nat -> (j < K)%nat -> entry a' i j = entry a j i.
Proof.
  intros Ha. destruct (gen_matrix_entry _ _ _ _ Ha) as [_ He].
  assert (is_Some (gen_matrix fuel rho true)) as [a' Ha'].
  { unfold gen_matrix. apply mapM_is_Some_2, Forall_forall. intros i Hi. apply elem_of_seq in Hi.
    apply mapM_is_Some_2, Forall_forall. intros j Hj. apply elem_of_seq in Hj.
    change (is_Some (gen_entry fuel rho true i j)). rewrite gen_entry_transposed, He by lia. eauto. }
  exists a'. split; [done|]. intros i j Hi Hj. destruct (gen_matrix_entry _ _ _ _ Ha') as [_ He'].
  pose proof (He' i j Hi Hj) as E. rewrite gen_entry_transposed, (He j i Hj Hi) in E. congruence.
Qed.

(** The coefficients modulo q. *)
Definition canonical (v : polyvec) : polyvec := (fun p : poly => (fun x => x mod Q) <$> p) <$> v.

(** Serialization and messages decode.  Reading back the 1152 bytes of a
    vector, whatever follows them, gives its coefficients modulo q; and a
    message polynomial decodes to the message after any noise of -832 to 831
    per coefficient. *)
Theorem encodings_roundtrip (v : polyvec) l m a (w : nat -> Z) :
  vgood Q v -> length m = SYMBYTES -> Forall byte m -> good Q a ->
  (forall i, (i < N)%nat -> noise_ok (w i) /\ coef a i mod Q = (coef (poly_frommsg m) i + w i) mod Q) ->
  length (polyvec_tobytes v) = (K * POLYBYTES)%nat /\
  polyvec_frombytes (polyvec_tobytes v ++ l) = canonical v /\
  poly_tomsg a = m.
Proof.
  intros Hv Hm Hb Ha Hw. split; [apply length_polyvec_tobytes|]. split; [|by eapply tomsg_noisy].
  apply list_eq. intros i. destruct (decide (i < K)%nat) as [Hi|Hi].
  - pose proof (polyvec_frombytes_tobytes v l i Hv Hi) as E. assert (length v = K) as Hl by apply Hv.
    unfold canonical. rewrite list_lookup_fmap. unfold vec in E. destruct (lookup_lt_is_Some_2 v i ltac:(lia)) as [p Ep].
    unfold polyvec_frombytes in E |- *. rewrite list_lookup_fmap, lookup_seq_lt in E |- * by done.
    rewrite Ep in E |- *. exact (f_equal Some E).
  - rewrite !lookup_ge_None_2; [done|unfold canonical; rewrite length_fmap; destruct Hv; lia|unfold polyvec_frombytes; rewrite length_fmap, length_seq; lia].
Qed.

(** Three polynomials with negative coefficients, and a message whose
    polynomial is off by -832. *)
Lemma encodings_roundtrip_witness :
  polyvec_frombytes (polyvec_tobytes (replicate 3 (replicate 256 (-5))) ++ [9]) = replicate 3 (replicate 256 3324) /\
  poly_tomsg ((fun x => x - 832) <$> poly_frommsg (replicate 32 0xA5)) = replicate 32 0xA5.
Proof.
  destruct (encodings_roundtrip (replicate 3 (replicate 256 (-5))) [9] (replicate 32 0xA5)
    ((fun x => x - 832) <$> poly_frommsg (replicate 32 0xA5)) (fun _ => -832)) as (_ & H1 & H2).
  - apply vgoodb_spec. vm_compute. reflexivity.
  - reflexivity.
  - apply Forall_replicate. unfold byte. lia.
  - apply goodb_spec. vm_compute. reflexivity.
  - intros i Hi. split; [unfold noise_ok; lia|]. rewrite coef_fmap by (by rewrite length_frommsg). done.
  - split; [rewrite H1; vm_compute; reflexivity|exact H2].
Defined.

(** Compression loses little.  The ciphertext of a vector and a
    polynomial has 1088 bytes, and decompressing it returns every coefficient
    up to 2 (10 bits) and up to 104 (4 bits) modulo q. *)
Theorem compression_error (u : polyvec) v n : vgood Q u -> good Q v -> (n < N)%nat ->
  let ct := polyvec_compress_du u ++ poly_compress_dv v in
  length ct = 1088%nat /\
  (forall i, (i < K)%nat -> (coef (vec (polyvec_decompress_du ct) i) n - coef (vec u i) n + 2) mod Q <= 4) /\
  (coef (poly_decompress_dv (drop (K * 320) ct)) n - coef v n + 104) mod Q <= 208.
Proof.
  intros Hu Hv Hn ct. assert (length (polyvec_compress_du u) = (K * 320)%nat) as Hl by apply length_polyvec_compress_du.
  split; [unfold ct; rewrite length_app, Hl, length_compress_dv; reflexivity|]. split.
  - intros i Hi. unfold ct. rewrite decompress_compress_du by done. apply compress_errors. apply good_bnd; [unfold Q; lia|by apply vgood_vec].
  - unfold ct. rewrite <- Hl, drop_app_length, decompress_compress_dv by done. apply compress_errors, good_bnd; [unfold Q; lia|done].
Qed.

(** Both bounds are reached: 2 at -1653 and 104 at -1560. *)
Lemma compression_error_witness :
  let u := replicate 3 (replicate 256 (-1653)) in let v := replicate 256 (-1560) in
  let ct := polyvec_compress_du u ++ poly_compress_dv v in
  (coef (vec (polyvec_decompress_du ct) 2) 7 - -1653 + 2) mod Q <= 4 /\
  (coef (poly_decompress_dv (drop (K * 320) ct)) 7 - -1560 + 104) mod Q <= 208 /\
  (coef (vec (polyvec_decompress_du ct) 2) 7 - -1653) mod Q = 2 /\
  (coef (poly_decompress_dv (drop (K * 320) ct)) 7 - -1560) mod Q = 104.
Proof.
  intros u v ct. destruct (compression_error u v 7) as (_ & H1 & H2);
    [apply vgoodb_spec; vm_compute; reflexivity|apply goodb_spec; vm_compute; reflexivity|unfold N; lia|].
  split; [apply (H1 2%nat); unfold K; lia|]. split; [exact H2|]. split; vm_compute; reflexivity.
Defined.

End MlKemCodec.
