(* ===== verification/MlKem.v ===== *)
(** * ML-KEM-768

    Model of the key encapsulation of src/pqc/mlkem.cpp (FIPS 203): the public
    key scheme K-PKE ([indcpa_keypair], [indcpa_enc], [indcpa_dec]) and the
    transform with implicit rejection around it.  Decapsulation returns the
    key that was encapsulated whenever the noise of the ciphertext is within
    the decoding bound, and a key derived from the rejection secret when the
    ciphertext is not the one that re-encryption gives.  [fuel] bounds the
    extra blocks of rejection sampling per matrix entry. *)

From Stdlib Require Import Zmod.
From S2P Require Import Prelude Bytes Keccak MlKemField MlKemNtt MlKemRing MlKemCodec.

Module MlKem.
Import Bytes.
Import MlKemField MlKemNtt MlKemRing MlKemCodec.

Definition INDCPA_PK : nat := 1184.
Definition INDCPA_SK : nat := 1152.
Definition INDCPA_CT : nat := 1088.

(** A vector of noise polynomials from [seed], nonces from [nonce]. *)
Definition noisevec (seed : list Z) (nonce : nat) : polyvec :=
  (fun i => poly_getnoise seed (Z.of_nat (nonce + i))) <$> seq 0 K.

Definition row (a : list polyvec) (i : nat) : polyvec := default [] (a !! i).

(** ** K-PKE *)

(** [(pk, sk)]. *)
Definition indcpa_keypair (fuel : nat) (d : list Z) : option (list Z * list Z) :=
  let buf := Keccak.sha3_512 (d ++ [u8 (Z.of_nat K)]) in
  let rho := take SYMBYTES buf in
  let sigma := drop SYMBYTES buf in
  a ← gen_matrix fuel rho false;
  let skv := polyvec_ntt (noisevec sigma 0) in
  let e := polyvec_ntt (noisevec sigma K) in
  let t := (fun i => poly_tomont (polyvec_basemul_acc (row a i) skv)) <$> seq 0 K in
  let t := polyvec_reduce (polyvec_add t e) in
  Some (polyvec_tobytes t ++ rho, polyvec_tobytes skv).

(** The vectors [u] and [v] that [indcpa_enc] compresses. *)
Definition encrypt (at_ : list polyvec) (t : polyvec) (m coins : list Z) : polyvec * poly :=
  let r := polyvec_ntt (noisevec coins 0) in
  let e1 := noisevec coins K in
  let e2 := poly_getnoise coins (Z.of_nat (2 * K)) in
  let u := (fun i => polyvec_basemul_acc (row at_ i) r) <$> seq 0 K in
  let u := polyvec_reduce (polyvec_add (polyvec_invntt u) e1) in
  let v := poly_invntt (polyvec_basemul_acc t r) in
  let v := poly_reduce (poly_add (poly_add v e2) (poly_frommsg m)) in
  (u, v).

Definition indcpa_enc (fuel : nat) (m pk coins : list Z) : option (list Z) :=
  let t := polyvec_frombytes pk in
  let rho := take SYMBYTES (drop (K * POLYBYTES) pk) in
  at_ ← gen_matrix fuel rho true;
  let '(u, v) := encrypt at_ t m coins in
  Some (polyvec_compress_du u ++ poly_compress_dv v).

Definition indcpa_dec (ct sk : list Z) : list Z :=
  let u := polyvec_decompress_du ct in
  let v := poly_decompress_dv (drop (K * 320) ct) in
  let skv := polyvec_frombytes sk in
  let mp := poly_invntt (polyvec_basemul_acc skv (polyvec_ntt u)) in
  poly_tomsg (poly_reduce (poly_sub v mp)).

(** ** The transform *)

Definition H (inp : list Z) : list Z := Keccak.sha3_256 inp.
Definition J (inp : list Z) : list Z := Keccak.shake256 32 inp.

Definition mlkem768_keypair_derand (fuel : nat) (d z : list Z) : option (list Z * list Z) :=
  '(pk, sk) ← indcpa_keypair fuel d;
  Some (pk, sk ++ pk ++ H pk ++ z).

(** [(ct, ss)]. *)
Definition mlkem768_enc_derand (fuel : nat) (pk m : list Z) : option (list Z * list Z) :=
  let buf := m ++ H (take INDCPA_PK pk) in
  let kr := Keccak.sha3_512 buf in
  ct ← indcpa_enc fuel m pk (drop SYMBYTES kr);
  Some (ct, take SYMBYTES kr).

Definition mlkem768_dec (fuel : nat) (ct sk : list Z) : option (list Z) :=
  let ek := take INDCPA_PK (drop INDCPA_SK sk) in
  let h := take SYMBYTES (drop (INDCPA_SK + INDCPA_PK) sk) in
  let z := take SYMBYTES (drop (INDCPA_SK + INDCPA_PK + SYMBYTES) sk) in
  let m := indcpa_dec ct sk in
  let kr := Keccak.sha3_512 (m ++ h) in
  ct2 ← indcpa_enc fuel m ek (drop SYMBYTES kr);
  let kbar := J (z ++ ct) in
  let diff := foldl (fun d i => Z.lor d (u8 (Z.lxor (coef ct i) (coef ct2 i)))) 0 (seq 0 INDCPA_CT) in
  let mask := u8 (- (if diff =? 0 then 1 else 0)) in
  Some ((fun i => u8 (Z.lor (Z.land (coef kr i) mask) (Z.land (coef kbar i) (u8 (Z.lnot mask))))) <$> seq 0 SYMBYTES).

(** The public entry points draw their seeds from [random_bytes]. *)
Definition mlkem768_keypair (random_bytes : nat -> list Z) (fuel : nat) : option (list Z * list Z) :=
  mlkem768_keypair_derand fuel (random_bytes 0%nat) (random_bytes 1%nat).
Definition mlkem768_enc (random_bytes : list Z) (fuel : nat) (pk : list Z) : option (list Z * list Z) :=
  mlkem768_enc_derand fuel pk random_bytes.

(** ** Decryption noise *)

(** The representative of least absolute value. *)
Definition centered (x : Z) : Z := (x + 1664) mod Q - 1664.

(** The noise of a ciphertext, over the integers: [s], [e] are the secret and
    the error of the key, [r], [e1], [e2] those of the encryption, [cu], [cv]
    the errors of compression. *)
Definition noise (s e r e1 : polyvec) (e2 : poly) (cu : polyvec) (cv : poly) : list Z :=
  let er := (fun i => negacyclic (vec e i) (vec r i)) <$> seq 0 K in
  let sc := (fun i => negacyclic (vec s i) (zip_with Z.add (vec e1 i) (vec cu i))) <$> seq 0 K in
  (fun n => centered (coef e2 n + coef cv n
    + sumZ ((fun i => coef (vec er i) n) <$> seq 0 K) - sumZ ((fun i => coef (vec sc i) n) <$> seq 0 K))) <$> seq 0 N.

(** The noise of encapsulating [m] under the key of seed [d]. *)
Definition decryption_noise (fuel : nat) (d m : list Z) : option (list Z) :=
  let buf := Keccak.sha3_512 (d ++ [u8 (Z.of_nat K)]) in
  let rho := take SYMBYTES buf in
  let sigma := drop SYMBYTES buf in
  '(pk, _) ← indcpa_keypair fuel d;
  at_ ← gen_matrix fuel rho true;
  let coins := drop SYMBYTES (Keccak.sha3_512 (m ++ H (take INDCPA_PK pk))) in
  let '(u, v) := encrypt at_ (polyvec_frombytes pk) m coins in
  let u' := polyvec_decompress_du (polyvec_compress_du u ++ poly_compress_dv v) in
  let v' := poly_decompress_dv (poly_compress_dv v) in
  Some (noise (noisevec sigma 0) (noisevec sigma K) (noisevec coins 0) (noisevec coins K) (poly_getnoise coins (Z.of_nat (2 * K)))
    (zip_with (zip_with Z.sub) u' u) (zip_with Z.sub v' v)).

#[local] Opaque Keccak.keccak.

(** ** Products of slots *)

Lemma slot_ind (P : nat -> Prop) : (forall k, P (2 * k)%nat) -> (forall k, P (2 * k + 1)%nat) -> forall i, P i.
Proof. intros H0 H1 i. destruct (parity_cases i) as (m & e & -> & [-> | ->]); [rewrite Nat.add_0_r; apply H0|apply H1]. Qed.

Lemma hat_comm f g i : hat f g i = hat g f i.
Proof. revert i. apply slot_ind; intros k; rewrite ?hat_slot0, ?hat_slot1; ring. Qed.

Lemma hat_assoc f g h i : hat (hat f g) h i = hat f (hat g h) i.
Proof. revert i. apply slot_ind; intros k; rewrite ?hat_slot0, ?hat_slot1; rewrite ?hat_slot0, ?hat_slot1; ring. Qed.

Lemma hat_add_l f g h i : hat (fun n => f n + g n)%F h i = (hat f h i + hat g h i)%F.
Proof. revert i. apply slot_ind; intros k; rewrite ?hat_slot0, ?hat_slot1; ring. Qed.

Lemma hat_add_r f g h i : hat h (fun n => f n + g n)%F i = (hat h f i + hat h g i)%F.
Proof. by rewrite hat_comm, hat_add_l, (hat_comm f), (hat_comm g). Qed.

Lemma hat_sum_l n (f : nat -> nat -> F) h i : hat (fun x => sumF n (fun j => f j x)) h i = sumF n (fun j => hat (f j) h i).
Proof.
  induction n as [|n IH]; cbn [sumF]; [|by rewrite hat_add_l, IH].
  revert i. apply slot_ind; intros k; rewrite ?hat_slot0, ?hat_slot1; ring.
Qed.

Lemma hat_sum_r n (f : nat -> nat -> F) h i : hat h (fun x => sumF n (fun j => f j x)) i = sumF n (fun j => hat h (f j) i).
Proof. rewrite hat_comm, hat_sum_l. apply sumF_ext. intros. apply hat_comm. Qed.

(** The masks cancel: (A s + e) r - s (A^T r + c) = e r - s c. *)
Lemma decrypt_algebra (A : nat -> nat -> nat -> F) (s e r c : nat -> nat -> F) n :
  (sumF K (fun i => hat (fun n => sumF K (fun j => hat (A i j) (s j) n) + e i n) (r i) n) -
   sumF K (fun j => hat (s j) (fun n => sumF K (fun i => hat (A i j) (r i) n) + c j n) n))%F =
  (sumF K (fun i => hat (e i) (r i) n) - sumF K (fun j => hat (s j) (c j) n))%F.
Proof.
  rewrite (sumF_ext _ _ (fun i => sumF K (fun j => hat (hat (A i j) (s j)) (r i) n) + hat (e i) (r i) n)%F)
    by (intros; by rewrite hat_add_l, hat_sum_l).
  rewrite (sumF_ext _ (fun j => hat (s j) _ n) (fun j => sumF K (fun i => hat (s j) (hat (A i j) (r i)) n) + hat (s j) (c j) n)%F)
    by (intros; by rewrite hat_add_r, hat_sum_r).
  rewrite !sumF_add, sumF_swap.
  rewrite (sumF_ext _ (fun j => sumF K (fun i => hat (hat (A i j) (s j)) (r i) n)) (fun j => sumF K (fun i => hat (s j) (hat (A i j) (r i)) n))).
  - ring.
  - intros j _. apply sumF_ext. intros i _. rewrite <- hat_assoc.
    revert n. apply slot_ind; intros k; rewrite ?hat_slot0, ?hat_slot1; rewrite ?hat_slot0, ?hat_slot1; ring.
Qed.

(** ** Vectors over the field *)

Definition vval (v : polyvec) (j : nat) : nat -> F := val (vec v j).

Lemma noisevec_good seed k : vgood 4 (noisevec seed k).
Proof. apply vgood_seq. intros. apply cbd2_good. Qed.

Lemma ntt_noise_spec seed k :
  vgood 1665 (polyvec_ntt (noisevec seed k)) /\
  forall j, (j < K)%nat -> peq (vval (polyvec_ntt (noisevec seed k)) j) (NTT (vval (noisevec seed k) j)).
Proof. eapply polyvec_ntt_spec; [|apply noisevec_good]. lia. Qed.

Lemma poly_tomont_spec a : good 1665 a -> good Q (poly_tomont a) /\ peq (val (poly_tomont a)) (fun i => Rmont * val a i)%F.
Proof.
  intros Ha. assert (length a = N) as Hl by apply Ha. unfold poly_tomont. change (i16 ((2 ^ 32) mod Q)) with 1353. split.
  - apply good_intro; [by rewrite length_fmap|]. intros i Hi. rewrite coef_fmap by lia.
    change (bnd Q (fqmul (coef a i) 1353)). apply fqmul_bnd; [by apply (good_coef_int16 1665)|unfold bnd, Q; lia].
  - intros i Hi. unfold val. rewrite coef_fmap by lia.
    change (toF (fqmul (coef a i) 1353) = (Rmont * toF (coef a i))%F). rewrite fqmul_F; [|by apply (good_coef_int16 1665)|unfold int16; lia].
    replace Rmont with (toF 1353 * Rinv)%F by (apply Zmod.to_Z_inj; vm_compute; reflexivity). ring.
Qed.

(** Products of the rows of a matrix with a transformed vector. *)
Lemma dot_ext u u' v v' i : (i < N)%nat -> (forall j, (j < K)%nat -> peq (u j) (u' j)) -> (forall j, (j < K)%nat -> peq (v j) (v' j)) ->
  dot u v i = dot u' v' i.
Proof. intros Hi Hu Hv. apply sumF_ext. intros j Hj. by apply hat_proper; [apply Hu|apply Hv|]. Qed.

(** [x - x' + x'] slot-wise sums that appear in [encrypt]. *)
Lemma add_reduce_spec a b : good Q a -> good Q b ->
  good 1665 (poly_reduce (poly_add a b)) /\ peq (val (poly_reduce (poly_add a b))) (fun i => val a i + val b i)%F.
Proof.
  intros Ha Hb. destruct (poly_add_spec Q Q a b) as [G E]; [unfold Q; lia..|done|done|].
  apply (good_mono _ 32768) in G; [|unfold Q; lia]. destruct (poly_reduce_spec _ G) as [G' E']. split; [done|]. by etransitivity.
Qed.

Lemma vgood_intro B v : length v = K -> (forall i, (i < K)%nat -> good B (vec v i)) -> vgood B v.
Proof.
  intros Hl H. split; [done|]. apply Forall_lookup_2. intros i p Hp. pose proof (lookup_lt_Some _ _ _ Hp).
  assert (p = vec v i) as -> by (unfold vec; by rewrite Hp). apply H. lia.
Qed.

Lemma vec_reduce_add (f : nat -> poly) (w : polyvec) i : length w = K -> (i < K)%nat ->
  vec (polyvec_reduce (polyvec_add (f <$> seq 0 K) w)) i = poly_reduce (poly_add (f i) (vec w i)).
Proof.
  intros Hw Hi. unfold polyvec_reduce, polyvec_add.
  rewrite vec_fmap by (rewrite ?length_zip_with, ?length_fmap, ?length_seq; lia).
  rewrite vec_zip by (rewrite ?length_fmap, ?length_seq; lia). by rewrite vec_seq.
Qed.

Lemma length_reduce_add (f : nat -> poly) (w : polyvec) : length w = K ->
  length (polyvec_reduce (polyvec_add (f <$> seq 0 K) w)) = K.
Proof. intros Hw. unfold polyvec_reduce, polyvec_add. rewrite length_fmap, length_zip_with, length_fmap, length_seq. lia. Qed.

(** The vector [f] plus a noise vector, reduced. *)
Lemma reduce_add_spec (f : nat -> poly) (w : polyvec) (g : nat -> nat -> F) : vgood Q w ->
  (forall i, (i < K)%nat -> good Q (f i) /\ peq (val (f i)) (g i)) ->
  vgood 1665 (polyvec_reduce (polyvec_add (f <$> seq 0 K) w)) /\
  forall i, (i < K)%nat -> peq (vval (polyvec_reduce (polyvec_add (f <$> seq 0 K) w)) i) (fun n => g i n + vval w i n)%F.
Proof.
  intros Hw Hf. assert (length w = K) as Hl by apply Hw. split.
  - apply vgood_intro; [by apply length_reduce_add|]. intros i Hi. rewrite vec_reduce_add by done.
    destruct (Hf i Hi) as [Gf _]. by apply add_reduce_spec, vgood_vec.
  - intros i Hi n Hn. unfold vval at 1. rewrite vec_reduce_add by done. destruct (Hf i Hi) as [Gf Ef].
    destruct (add_reduce_spec (f i) (vec w i) Gf) as [_ E]; [by apply vgood_vec|]. by rewrite E, Ef.
Qed.

(** ** Keys *)

Lemma row_product (a : list polyvec) (v : polyvec) (nv : nat -> nat -> F) i :
  vgood Q (row a i) -> vgood 1665 v -> (forall j, (j < K)%nat -> peq (vval v j) (nv j)) -> 
  good 1665 (polyvec_basemul_acc (row a i) v) /\
  peq (val (polyvec_basemul_acc (row a i) v)) (fun n => Rinv * sumF K (fun j => hat (val (entry a i j)) (nv j) n))%F.
Proof.
  intros Ha Hv Ev. destruct (polyvec_basemul_acc_spec (row a i) v) as [Gm Em];
    [eapply vgood_mono; [|exact Ha]; unfold Q; lia|eapply vgood_mono; [|exact Hv]; unfold Q; lia|].
  split; [done|]. intros n Hn. rewrite Em by done. f_equal. apply dot_ext; [done|reflexivity|exact Ev].
Qed.

Lemma Rmont_cancel x : (Rmont * (Rinv * x))%F = x.
Proof. transitivity ((Rmont * Rinv) * x)%F; [ring|]. rewrite Rmont_inv. ring. Qed.

Section Scheme.
Context (a at_ : list polyvec) (sigma coins m : list Z).
Hypothesis a_good : forall i, (i < K)%nat -> vgood Q (row a i).
Hypothesis at_good : forall i, (i < K)%nat -> vgood Q (row at_ i).
Hypothesis at_transposed : forall i j, (i < K)%nat -> (j < K)%nat -> entry at_ i j = entry a j i.

Local Abbreviation s := (noisevec sigma 0).
Local Abbreviation e := (noisevec sigma K).
Local Abbreviation r := (noisevec coins 0).
Local Abbreviation e1 := (noisevec coins K).
Local Abbreviation e2 := (poly_getnoise coins (Z.of_nat (2 * K))).
Local Abbreviation A := (fun i j => val (entry a i j)).

Definition publicVector : polyvec :=
  polyvec_reduce (polyvec_add ((fun i => poly_tomont (polyvec_basemul_acc (row a i) (polyvec_ntt s))) <$> seq 0 K) (polyvec_ntt e)).

(** The public vector is A s + e. *)
Lemma publicVector_spec : vgood 1665 publicVector /\ forall i, (i < K)%nat ->
  peq (vval publicVector i) (fun n => sumF K (fun j => hat (A i j) (NTT (vval s j)) n) + NTT (vval e i) n)%F.
Proof.
  destruct (ntt_noise_spec sigma 0) as [Gs Es]. destruct (ntt_noise_spec sigma K) as [Ge Ee].
  destruct (reduce_add_spec (fun i => poly_tomont (polyvec_basemul_acc (row a i) (polyvec_ntt s))) (polyvec_ntt e)
    (fun i n => sumF K (fun j => hat (A i j) (NTT (vval s j)) n))) as [G E].
  - eapply vgood_mono; [|exact Ge]. unfold Q. lia.
  - intros i Hi. destruct (row_product a _ _ i (a_good i Hi) Gs Es) as [Gm Em]. destruct (poly_tomont_spec _ Gm) as [Gt Et].
    split; [done|]. intros n Hn. by rewrite Et, Em, Rmont_cancel.
  - split; [exact G|]. intros i Hi n Hn. unfold publicVector. rewrite (E i Hi n Hn). f_equal. by apply Ee.
Qed.

(** The two parts of a ciphertext, in the transform domain. *)
Lemma encrypt_spec (t : polyvec) (tv : nat -> nat -> F) : vgood 32768 t -> (forall i, (i < K)%nat -> peq (vval t i) (tv i)) ->
  let '(u, v) := encrypt at_ t m coins in
  vgood 1665 u /\ good 1665 v /\
  (forall j, (j < K)%nat -> peq (NTT (vval u j)) (fun n => sumF K (fun i => hat (A i j) (NTT (vval r i)) n) + NTT (vval e1 j) n)%F) /\
  peq (NTT (val v)) (fun n => sumF K (fun i => hat (tv i) (NTT (vval r i)) n) + NTT (val e2) n + NTT (val (poly_frommsg m)) n)%F.
Proof.
  intros Ht Et. unfold encrypt. destruct (ntt_noise_spec coins 0) as [Gr Er].
  unfold polyvec_invntt. rewrite <- list_fmap_compose.
  destruct (reduce_add_spec (poly_invntt ∘ (fun i => polyvec_basemul_acc (row at_ i) (polyvec_ntt r))) e1
    (fun i => val (poly_invntt (polyvec_basemul_acc (row at_ i) (polyvec_ntt r))))) as [Gu Eu].
  { eapply vgood_mono; [|apply noisevec_good]. unfold Q. lia. }
  { intros i Hi. destruct (row_product at_ _ _ i (at_good i Hi) Gr Er) as [Gm _]. split; [|reflexivity].
    apply poly_invntt_spec. eapply good_mono; [|exact Gm]. unfold Q. lia. }
  destruct (polyvec_basemul_acc_spec t (polyvec_ntt r)) as [Gm Em]; [done|eapply vgood_mono; [|exact Gr]; unfold Q; lia|].
  destruct (poly_invntt_spec (polyvec_basemul_acc t (polyvec_ntt r))) as [Gi Ei]; [eapply good_mono; [|exact Gm]; unfold Q; lia|].
  destruct (poly_add_spec Q 4 (poly_invntt (polyvec_basemul_acc t (polyvec_ntt r))) e2) as [Ga Ea]; [unfold Q; lia..|done|apply cbd2_good|].
  destruct (poly_add_spec (Q + 4 - 1) 1666 _ (poly_frommsg m) ltac:(unfold Q; lia) ltac:(lia) ltac:(unfold Q; lia) Ga (frommsg_good m)) as [Gb Eb].
  apply (good_mono _ 32768) in Gb; [|unfold Q; lia]. destruct (poly_reduce_spec _ Gb) as [Gv Ev].
  split_and!; [exact Gu|exact Gv| |].
  - intros j Hj n Hn. rewrite (NTT_proper _ _ (Eu j Hj) n Hn), NTT_add. apply (f_equal2 Zmod.add); [|reflexivity].
    destruct (row_product at_ _ _ j (at_good j Hj) Gr Er) as [Gj Ej].
    destruct (poly_invntt_spec (polyvec_basemul_acc (row at_ j) (polyvec_ntt r))) as [_ Ej']; [eapply good_mono; [|exact Gj]; unfold Q; lia|].
    rewrite Ej', Ej, Rmont_cancel by done. apply sumF_ext. intros i Hi. by rewrite at_transposed.
  - intros n Hn. assert (peq (val (poly_reduce (poly_add (poly_add (poly_invntt (polyvec_basemul_acc t (polyvec_ntt r))) e2) (poly_frommsg m))))
      (fun n => val (poly_invntt (polyvec_basemul_acc t (polyvec_ntt r))) n + val e2 n + val (poly_frommsg m) n)%F) as E
      by (intros i Hi; by rewrite Ev, Eb, Ea).
    rewrite (NTT_proper _ _ E n Hn), !NTT_add. do 2 (apply (f_equal2 Zmod.add); [|reflexivity]). rewrite Ei, Em, Rmont_cancel by done.
    apply dot_ext; [done|exact Et|exact Er].
Qed.
Lemma val_zip (op : Z -> Z -> Z) (opF : F -> F -> F) (a1 a2 : poly) :
  length a1 = N -> length a2 = N -> (forall x y, toF (op x y) = opF (toF x) (toF y)) ->
  peq (val (zip_with op a1 a2)) (fun n => opF (val a1 n) (val a2 n)).
Proof. intros H1 H2 H n Hn. unfold val. rewrite coef_zip by lia. apply H. Qed.

Lemma mulF_ext f f' g g' : peq f f' -> peq g g' -> peq (mulF f g) (mulF f' g').
Proof.
  intros Hf Hg n Hn. apply sumF_ext. intros i Hi. rewrite (Hf i Hi). f_equal.
  destruct (Nat.leb_spec i n); [|f_equal]; apply Hg; lia.
Qed.

Lemma centered_F x : toF (centered x) = toF x.
Proof. unfold centered. rewrite toF_sub, toF_mod, toF_add. ring. Qed.

(** The noise over the field. *)
Lemma noise_val (u u' : polyvec) (v v' : poly) : vgood 1665 u -> good 1665 v -> vgood Q u' -> good Q v' ->
  peq (val (noise s e r e1 e2 (zip_with (zip_with Z.sub) u' u) (zip_with Z.sub v' v)))
    (fun n => val e2 n + (val v' n - val v n) + sumF K (fun i => mulF (vval e i) (vval r i) n) -
       sumF K (fun j => mulF (vval s j) (fun n => vval e1 j n + (vval u' j n - vval u j n)) n))%F.
Proof.
  intros Hu Hv Hu' Hv' n Hn. assert (length u = K) by apply Hu. assert (length u' = K) by apply Hu'.
  unfold val at 1, noise. rewrite coef_fmap_seq by done. rewrite centered_F, toF_sub, !toF_add, !toF_sumZ.
  apply (f_equal2 Zmod.sub); [apply (f_equal2 Zmod.add); [apply (f_equal2 Zmod.add); [reflexivity|]|]|].
  - apply (val_zip Z.sub Zmod.sub); [apply Hv'|apply Hv|apply toF_sub|done].
  - apply sumF_ext. intros i Hi. rewrite vec_seq by done. apply negacyclic_F; [|done]. eapply vgood_vec; [apply noisevec_good|done].
  - apply sumF_ext. intros j Hj. rewrite vec_seq by done.
    assert (length (vec u j) = N) by (by eapply vgood_vec). assert (length (vec u' j) = N) by (by eapply vgood_vec).
    assert (length (vec e1 j) = N) by (eapply vgood_vec; [apply noisevec_good|done]).
    rewrite vec_zip by done.
    etransitivity; [apply negacyclic_F; [rewrite !length_zip_with; lia|done]|]. apply mulF_ext; [reflexivity| |done].
    etransitivity; [apply (val_zip Z.add Zmod.add); [done|rewrite length_zip_with; lia|apply toF_add]|].
    intros k Hk. apply (f_equal2 Zmod.add); [reflexivity|]. by apply (val_zip Z.sub Zmod.sub); [..|apply toF_sub|].
Qed.

(** What decryption computes before decoding: the message polynomial plus the
    noise. *)
Lemma decrypt_spec (t skd u u' : polyvec) (v v' : poly) :
  vgood 32768 t -> (forall i, (i < K)%nat -> peq (vval t i) (vval publicVector i)) ->
  vgood 32768 skd -> (forall j, (j < K)%nat -> peq (vval skd j) (NTT (vval s j))) ->
  encrypt at_ t m coins = (u, v) -> vgood Q u' -> good Q v' ->
  let p := poly_reduce (poly_sub v' (poly_invntt (polyvec_basemul_acc skd (polyvec_ntt u')))) in
  let w := noise s e r e1 e2 (zip_with (zip_with Z.sub) u' u) (zip_with Z.sub v' v) in
  good 1665 p /\ peq (val p) (fun n => val (poly_frommsg m) n + val w n)%F.
Proof.
  intros Ht Et Hsk Esk Eenc Hu' Hv' p w.
  destruct publicVector_spec as [_ Epv].
  pose proof (encrypt_spec t _ Ht (fun i Hi => transitivity (Et i Hi) (Epv i Hi))) as Henc. rewrite Eenc in Henc.
  destruct Henc as (Hu & Hv & Eu & Ev).
  destruct (polyvec_ntt_spec Q u' ltac:(unfold Q; lia) Hu') as [Gu Eu'].
  destruct (polyvec_basemul_acc_spec skd (polyvec_ntt u')) as [Gm Em]; [done|eapply vgood_mono; [|exact Gu]; unfold Q; lia|].
  destruct (poly_invntt_spec (polyvec_basemul_acc skd (polyvec_ntt u'))) as [Gi Ei]; [eapply good_mono; [|exact Gm]; unfold Q; lia|].
  destruct (poly_sub_spec Q Q v' _ ltac:(unfold Q; lia) ltac:(unfold Q; lia) ltac:(unfold Q; lia) Hv' Gi) as [Gs Es].
  apply (good_mono _ 32768) in Gs; [|unfold Q; lia]. destruct (poly_reduce_spec _ Gs) as [Gp Ep].
  split; [exact Gp|]. apply NTT_inj.
  assert (peq (NTT (val p)) (fun n => NTT (val v') n - sumF K (fun j => hat (NTT (vval s j)) (NTT (vval u' j)) n))%F) as Hp.
  { intros n Hn. rewrite (NTT_proper _ _ (Ep : peq (val p) _) n Hn), (NTT_proper _ _ Es n Hn), NTT_sub.
    apply (f_equal2 Zmod.sub); [reflexivity|]. rewrite Ei, Em, Rmont_cancel by done. apply dot_ext; [done|exact Esk|exact Eu']. }
  set (c := fun j n => (NTT (vval e1 j) n + (NTT (vval u' j) n - NTT (vval u j) n))%F).
  assert (forall n, (n < N)%nat -> sumF K (fun j => hat (NTT (vval s j)) (NTT (vval u' j)) n) =
    sumF K (fun j => hat (NTT (vval s j)) (fun n => sumF K (fun i => hat (A i j) (NTT (vval r i)) n) + c j n)%F n)) as HY.
  { intros n Hn. apply sumF_ext. intros j Hj. apply hat_proper; [reflexivity| |done]. intros k Hk. unfold c.
    pose proof (Eu j Hj k Hk) as E. cbn beta in E. rewrite E. generalize (sumF K (fun i => hat (A i j) (NTT (vval r i)) k)). intros. ring. }
  pose proof (noise_val u u' v v' Hu Hv Hu' Hv') as Hw. fold w in Hw.
  intros n Hn. rewrite (Hp n Hn), HY, NTT_add, (NTT_proper _ _ Hw n Hn) by done. clear Hw Hp HY.
  rewrite NTT_sub, !NTT_add, NTT_sub, !NTT_sum, (Ev n Hn).
  rewrite (sumF_ext _ (fun i => NTT (mulF (vval e i) (vval r i)) n) (fun i => hat (NTT (vval e i)) (NTT (vval r i)) n))
    by (intros; by apply NTT_mul).
  rewrite (sumF_ext _ (fun j => NTT (mulF (vval s j) _) n) (fun j => hat (NTT (vval s j)) (c j) n)).
  2:{ intros j Hj. etransitivity; [by apply NTT_mul|]. apply hat_proper; [reflexivity| |done].
      intros k Hk. by rewrite NTT_add, NTT_sub. }
  pose proof (decrypt_algebra A (fun j => NTT (vval s j)) (fun i => NTT (vval e i)) (fun i => NTT (vval r i)) c n) as HA.
  revert HA. cbn beta. match goal with |- (?X - ?Y)%F = (?E - ?S)%F -> _ => generalize X Y E S end.
  generalize (NTT (val v') n) (NTT (val e2) n) (NTT (val (poly_frommsg m)) n). clear.
  intros xv xe xm X Y E S HA. transitivity (xv - (X - (X - Y)))%F; [ring|rewrite HA; ring].
Qed.

End Scheme.

(** ** Decapsulation *)

Lemma sha3_512_spec x : length (Keccak.sha3_512 x) = 64%nat /\ Forall byte (Keccak.sha3_512 x).
Proof. unfold Keccak.sha3_512. split; [apply Keccak.length_keccak; lia|apply Keccak.keccak_bytes]. Qed.

(** Reading a serialized vector gives the same vector modulo q. *)
Lemma frombytes_vval (v : polyvec) l : vgood Q v ->
  vgood Q (polyvec_frombytes (polyvec_tobytes v ++ l)) /\
  forall i, (i < K)%nat -> peq (vval (polyvec_frombytes (polyvec_tobytes v ++ l)) i) (vval v i).
Proof.
  intros Hv. assert (forall i, (i < K)%nat -> length (vec v i) = N) as Hl by (intros; by eapply vgood_vec). split.
  - apply vgood_intro; [done|]. intros i Hi. rewrite polyvec_frombytes_tobytes by done. by apply mod_fmap_spec, Hl.
  - intros i Hi. unfold vval. rewrite polyvec_frombytes_tobytes by done. by apply mod_fmap_spec, Hl.
Qed.

Lemma decompress_du_vgood l : vgood Q (polyvec_decompress_du l).
Proof. apply vgood_seq. intros. apply decompress_du_good. Qed.

(** Decryption inverts encryption when the noise is within the decoding bound. *)
Lemma indcpa_correct fuel d pk sk m w rest :
  length m = SYMBYTES -> Forall byte m ->
  indcpa_keypair fuel d = Some (pk, sk) -> decryption_noise fuel d m = Some w -> Forall noise_ok w ->
  exists ct, indcpa_enc fuel m pk (drop SYMBYTES (Keccak.sha3_512 (m ++ H (take INDCPA_PK pk)))) = Some ct /\
    length pk = INDCPA_PK /\ length sk = INDCPA_SK /\ indcpa_dec ct (sk ++ rest) = m.
Proof.
  intros Hm Hmb Hk. unfold decryption_noise. rewrite Hk. cbn [mbind option_bind].
  unfold indcpa_keypair in Hk. set (buf := Keccak.sha3_512 (d ++ [u8 (Z.of_nat K)])) in *. destruct (sha3_512_spec (d ++ [u8 (Z.of_nat K)])) as [Hb _]. fold buf in Hb.
  set (rho := take SYMBYTES buf) in *. set (sigma := drop SYMBYTES buf) in *.
  assert (length rho = 32%nat) as Hrho by (unfold rho; rewrite length_take; unfold SYMBYTES; lia).
  destruct (gen_matrix fuel rho false) as [a|] eqn:Ea; [|discriminate]. cbn [mbind option_bind] in Hk.
  fold (publicVector a sigma) in Hk.
  destruct (gen_matrix_transposed _ _ _ Ea) as (at_ & Eat & Htr). rewrite Eat. cbn [mbind option_bind].
  destruct (gen_matrix_entry _ _ _ _ Ea) as [Ga _]. destruct (gen_matrix_entry _ _ _ _ Eat) as [Gat _].
  destruct (publicVector_spec a sigma Ga) as [Gpv _].
  assert (pk = polyvec_tobytes (publicVector a sigma) ++ rho) as Epk by congruence.
  assert (sk = polyvec_tobytes (polyvec_ntt (noisevec sigma 0))) as Esk by congruence. clear Hk.
  set (coins := drop SYMBYTES (Keccak.sha3_512 (m ++ H (take INDCPA_PK pk)))).
  unfold indcpa_enc. replace (take SYMBYTES (drop (K * POLYBYTES) pk)) with rho.
  2:{ rewrite Epk, drop_app_exact by apply length_polyvec_tobytes. rewrite take_ge; [done|]. unfold SYMBYTES. lia. }
  rewrite Eat. cbn [mbind option_bind].
  destruct (encrypt at_ (polyvec_frombytes pk) m coins) as [u v] eqn:Eenc. intros Hw0 Hw. apply (inj Some) in Hw0. subst w. eexists. split; [reflexivity|].
  split; [rewrite Epk, length_app, length_polyvec_tobytes, Hrho; reflexivity|].
  split; [rewrite Esk; apply length_polyvec_tobytes|].
  unfold indcpa_dec. rewrite drop_app_exact by apply length_polyvec_compress_du.
  destruct (frombytes_vval (publicVector a sigma) rho) as [Gt Et]; [eapply vgood_mono; [|exact Gpv]; unfold Q; lia|].
  rewrite <- Epk in Gt, Et.
  destruct (ntt_noise_spec sigma 0) as [Gs Es].
  destruct (frombytes_vval (polyvec_ntt (noisevec sigma 0)) rest) as [Gsk Esk']; [eapply vgood_mono; [|exact Gs]; unfold Q; lia|].
  rewrite <- Esk in Gsk, Esk'.
  pose proof (compress_bytes u v) as Hcb. apply Forall_app in Hcb as [_ Hcb].
  destruct (decrypt_spec a at_ sigma coins m Ga Gat Htr (polyvec_frombytes pk) (polyvec_frombytes (sk ++ rest)) u
    (polyvec_decompress_du (polyvec_compress_du u ++ poly_compress_dv v)) v (poly_decompress_dv (poly_compress_dv v))) as [Gp Ep];
    [eapply vgood_mono; [|exact Gt]; unfold Q; lia|exact Et|eapply vgood_mono; [|exact Gsk]; unfold Q; lia| |exact Eenc|
     apply decompress_du_vgood|by apply decompress_dv_good|].
  { intros j Hj. etransitivity; [by apply Esk'|by apply Es]. }
  eapply (tomsg_noisy _ _ (coef _)); [done|done|eapply good_mono; [|exact Gp]; unfold Q; lia|].
  intros i Hi. split.
  - eapply Forall_lookup_1; [exact Hw|]. apply coef_lookup. unfold noise. by rewrite length_fmap, length_seq.
  - apply toF_eq. rewrite toF_add. by apply Ep.
Qed.

(** The accumulated difference is zero exactly on equal ciphertexts. *)
Lemma foldl_lor_zero (f : nat -> Z) n : (forall i, 0 <= f i) ->
  0 <= foldl (fun d i => Z.lor d (f i)) 0 (seq 0 n) /\
  (foldl (fun d i => Z.lor d (f i)) 0 (seq 0 n) = 0 <-> forall i, (i < n)%nat -> f i = 0).
Proof.
  intros Hf. induction n as [|n [IH0 IH]]; [simpl; split; [lia|split; [lia|done]]|].
  rewrite seq_S, foldl_app. cbn [foldl]. rewrite Nat.add_0_l. split; [by apply Z.lor_nonneg|].
  rewrite Z.lor_eq_0_iff, IH. split.
  - intros [H1 H2] i Hi. destruct (decide (i = n)) as [->|]; [done|]. apply H1. lia.
  - intros H. split; [intros i Hi|]; apply H; lia.
Qed.

Lemma ct_diff_spec ct ct2 : length ct = INDCPA_CT -> length ct2 = INDCPA_CT -> Forall byte ct -> Forall byte ct2 ->
  (foldl (fun d i => Z.lor d (u8 (Z.lxor (coef ct i) (coef ct2 i)))) 0 (seq 0 INDCPA_CT) =? 0) = bool_decide (ct = ct2).
Proof.
  intros Hl Hl2 Hb Hb2. apply eq_true_iff_eq. rewrite Z.eqb_eq, bool_decide_eq_true.
  rewrite (proj2 (foldl_lor_zero _ INDCPA_CT (fun i => proj1 (u8_byte _)))).
  assert (forall i, u8 (Z.lxor (coef ct i) (coef ct2 i)) = Z.lxor (coef ct i) (coef ct2 i)) as E.
  { intros i. pose proof (coef_byte ct i Hb) as B1. pose proof (coef_byte ct2 i Hb2) as B2. unfold byte in *.
    unfold u8. apply Z.mod_small, (lxor_bound 8); lia. }
  setoid_rewrite E. split.
  - intros H. apply coef_ext; [lia|]. intros i Hi. apply Z.lxor_eq, H. lia.
  - intros -> i _. apply Z.lxor_nilpotent.
Qed.

(** The masked selection picks one of the two keys. *)
Lemma select_spec (b : bool) kr kbar : (SYMBYTES <= length kr)%nat -> length kbar = SYMBYTES -> Forall byte kr -> Forall byte kbar ->
  let mask := u8 (- (if b then 1 else 0)) in
  (fun i => u8 (Z.lor (Z.land (coef kr i) mask) (Z.land (coef kbar i) (u8 (Z.lnot mask))))) <$> seq 0 SYMBYTES =
  if b then take SYMBYTES kr else kbar.
Proof.
  intros Hl Hl' Hb Hb' mask.
  assert (forall x, byte x -> u8 (Z.lor (Z.land x 255) 0) = x /\ u8 (Z.lor 0 (Z.land x 255)) = x) as S.
  { intros x Hx. unfold byte in Hx. rewrite Z.lor_0_r, Z.lor_0_l. change 255 with (Z.ones 8).
    rewrite land_mod by lia. unfold u8. rewrite !Z.mod_small by (rewrite ?Z.mod_small; lia). done. }
  assert (forall i, u8 (Z.lor (Z.land (coef kr i) mask) (Z.land (coef kbar i) (u8 (Z.lnot mask)))) = if b then coef kr i else coef kbar i) as E.
  { intros i. pose proof (S _ (coef_byte kr i Hb)) as [S1 _]. pose proof (S _ (coef_byte kbar i Hb')) as [_ S2].
    unfold mask. destruct b.
    - change (u8 (-1)) with 255. change (u8 (Z.lnot 255)) with 0. by rewrite Z.land_0_r.
    - change (u8 (- 0)) with 0. change (u8 (Z.lnot 0)) with 255. by rewrite Z.land_0_r. }
  apply coef_ext; rewrite length_fmap, length_seq; [destruct b; rewrite ?length_take; lia|].
  intros i Hi. rewrite coef_fmap_seq, E by done. destruct b; [|done]. by rewrite coef_take.
Qed.

Lemma length_compress (u : polyvec) v : length (polyvec_compress_du u ++ poly_compress_dv v) = INDCPA_CT.
Proof. rewrite length_app, length_polyvec_compress_du, length_compress_dv. reflexivity. Qed.

Lemma indcpa_enc_ct fuel m pk coins ct : indcpa_enc fuel m pk coins = Some ct -> length ct = INDCPA_CT /\ Forall byte ct.
Proof.
  unfold indcpa_enc. destruct (gen_matrix _ _ _) as [at_|]; [|discriminate]. cbn [mbind option_bind].
  destruct (encrypt _ _ _ _) as [u v]. intros H. apply (inj Some) in H. subst ct.
  split; [apply length_compress|apply compress_bytes].
Qed.

Lemma J_spec x : length (J x) = SYMBYTES /\ Forall byte (J x).
Proof. unfold J, Keccak.shake256. split; [apply Keccak.length_keccak; unfold SYMBYTES; lia|apply Keccak.keccak_bytes]. Qed.

Lemma sha3_256_length x : length (H x) = SYMBYTES.
Proof. unfold H, Keccak.sha3_256. apply Keccak.length_keccak. lia. Qed.

(** Decapsulation, with the selection resolved. *)
Lemma dec_select fuel ct sk ct2 :
  length ct = INDCPA_CT -> Forall byte ct ->
  let kr := Keccak.sha3_512 (indcpa_dec ct sk ++ take SYMBYTES (drop (INDCPA_SK + INDCPA_PK) sk)) in
  indcpa_enc fuel (indcpa_dec ct sk) (take INDCPA_PK (drop INDCPA_SK sk)) (drop SYMBYTES kr) = Some ct2 ->
  mlkem768_dec fuel ct sk =
    Some (if bool_decide (ct = ct2) then take SYMBYTES kr
          else J (take SYMBYTES (drop (INDCPA_SK + INDCPA_PK + SYMBYTES) sk) ++ ct)).
Proof.
  intros Hl Hb kr Henc. unfold mlkem768_dec. fold kr. rewrite Henc. cbn [mbind option_bind]. f_equal.
  destruct (indcpa_enc_ct _ _ _ _ _ Henc) as [Hl2 Hb2]. rewrite ct_diff_spec by done.
  destruct (sha3_512_spec (indcpa_dec ct sk ++ take SYMBYTES (drop (INDCPA_SK + INDCPA_PK) sk))) as [Lk Bk]. fold kr in Lk, Bk.
  destruct (J_spec (take SYMBYTES (drop (INDCPA_SK + INDCPA_PK + SYMBYTES) sk) ++ ct)) as [Lj Bj].
  apply select_spec; [rewrite Lk; unfold SYMBYTES; lia|done..].
Qed.

(** Encapsulation under a key of low noise, and decapsulation of its result. *)
Lemma decaps_encaps fuel d z m pk sk w :
  length m = SYMBYTES -> Forall byte m ->
  mlkem768_keypair_derand fuel d z = Some (pk, sk) ->
  decryption_noise fuel d m = Some w -> Forall noise_ok w ->
  exists ct ss, mlkem768_enc_derand fuel pk m = Some (ct, ss) /\ (length ct = INDCPA_CT /\ length ss = SYMBYTES) /\ mlkem768_dec fuel ct sk = Some ss.
Proof.
  intros Hm Hmb Hk Hn Hw. unfold mlkem768_keypair_derand in Hk.
  destruct (indcpa_keypair fuel d) as [[pk0 sk0]|] eqn:Ek; [|discriminate]. cbn [mbind option_bind] in Hk.
  apply (inj Some) in Hk. apply (inj2 pair) in Hk as [-> <-].
  destruct (indcpa_correct fuel d pk sk0 m w (pk ++ H pk ++ z) Hm Hmb Ek Hn Hw) as (ct & Henc & Lpk & Lsk & Hdec).
  exists ct, (take SYMBYTES (Keccak.sha3_512 (m ++ H (take INDCPA_PK pk)))).
  unfold mlkem768_enc_derand. rewrite Henc. cbn [mbind option_bind]. split; [reflexivity|].
  destruct (sha3_512_spec (m ++ H (take INDCPA_PK pk))) as [Lkr _].
  destruct (indcpa_enc_ct _ _ _ _ _ Henc) as [Lct Bct].
  split; [split; [exact Lct|rewrite length_take, Lkr; reflexivity]|].
  assert (take INDCPA_PK pk = pk) as Epk by (apply take_ge; lia). rewrite Epk in *.
  assert (take INDCPA_PK (drop INDCPA_SK (sk0 ++ pk ++ H pk ++ z)) = pk) as E1
    by (rewrite drop_app_exact by done; by apply take_app_exact).
  assert (take SYMBYTES (drop (INDCPA_SK + INDCPA_PK) (sk0 ++ pk ++ H pk ++ z)) = H pk) as E2.
  { rewrite <- drop_drop, drop_app_exact, drop_app_exact by done. apply take_app_exact, sha3_256_length. }
  erewrite dec_select; [|done|done|rewrite Hdec, E1, E2; exact Henc].
  rewrite bool_decide_true by done. by rewrite Hdec, E2.
Qed.

(** C8: decapsulation returns the encapsulated key.  For any seeds and any
    32-byte message, if key generation succeeds and the noise of the ciphertext
    stays in [-832, 831] in every coefficient, then encapsulation succeeds and
    decapsulating its ciphertext with the secret key gives the same 32-byte
    key: matrix expansion, transforms, compression, decoding and the
    re-encryption check included. *)
Theorem mlkem768_decapsulates fuel d z m pk sk w :
  length m = SYMBYTES -> Forall byte m ->
  mlkem768_keypair_derand fuel d z = Some (pk, sk) ->
  decryption_noise fuel d m = Some w -> Forall noise_ok w ->
  exists ct ss, mlkem768_enc_derand fuel pk m = Some (ct, ss) /\ length ss = SYMBYTES /\ mlkem768_dec fuel ct sk = Some ss.
Proof.
  intros Hm Hmb Hk Hn Hw. destruct (decaps_encaps fuel d z m pk sk w Hm Hmb Hk Hn Hw) as (ct & ss & H1 & [_ H2] & H3).
  exists ct, ss. exact (conj H1 (conj H2 H3)).
Qed.

(** C9: decapsulation of any ciphertext.  For any secret key and any 1088
    bytes, when the matrix of the key expands, the result is the key derived
    from the decrypted message if encrypting that message again gives exactly
    these bytes, and otherwise the rejection key J(z, ct): a ciphertext that
    differs from its re-encryption in a single bit never yields the key of the
    message, and there is no error to observe. *)
Theorem mlkem768_dec_exact fuel ct dk ek h z :
  length ct = INDCPA_CT -> Forall byte ct ->
  length dk = INDCPA_SK -> length ek = INDCPA_PK -> length h = SYMBYTES -> length z = SYMBYTES ->
  let sk := dk ++ ek ++ h ++ z in
  let m := indcpa_dec ct sk in
  let kr := Keccak.sha3_512 (m ++ h) in
  mlkem768_dec fuel ct sk =
    ct2 ← indcpa_enc fuel m ek (drop SYMBYTES kr);
    Some (if bool_decide (ct = ct2) then take SYMBYTES kr else J (z ++ ct)).
Proof.
  intros Hl Hb Hdk Hek Hh Hz sk m kr.
  assert (take INDCPA_PK (drop INDCPA_SK sk) = ek) as E1 by (unfold sk; rewrite drop_app_exact by done; by apply take_app_exact).
  assert (drop (INDCPA_SK + INDCPA_PK) sk = h ++ z) as E2 by (unfold sk; by rewrite <- drop_drop, drop_app_exact, drop_app_exact).
  assert (take SYMBYTES (drop (INDCPA_SK + INDCPA_PK) sk) = h) as E3 by (rewrite E2; by apply take_app_exact).
  assert (take SYMBYTES (drop (INDCPA_SK + INDCPA_PK + SYMBYTES) sk) = z) as E4
    by (rewrite <- drop_drop, E2, drop_app_exact by done; apply take_ge; lia).
  destruct (indcpa_enc fuel m ek (drop SYMBYTES kr)) as [ct2|] eqn:Henc; cbn [mbind option_bind].
  - rewrite (dec_select fuel ct sk ct2); fold m; rewrite ?E1, ?E3; [by rewrite E4|done|done|exact Henc].
  - unfold mlkem768_dec. fold m. rewrite E1, E3. fold kr. rewrite Henc. reflexivity.
Qed.

(** The all-zero ciphertext under an all-zero key. *)
Lemma mlkem768_dec_exact_witness :
  let zeros n := replicate n 0 in
  let m := indcpa_dec (zeros INDCPA_CT) (zeros INDCPA_SK ++ zeros INDCPA_PK ++ zeros SYMBYTES ++ zeros SYMBYTES) in
  let kr := Keccak.sha3_512 (m ++ zeros SYMBYTES) in
  mlkem768_dec 1 (zeros INDCPA_CT) (zeros INDCPA_SK ++ zeros INDCPA_PK ++ zeros SYMBYTES ++ zeros SYMBYTES) =
    (ct2 ← indcpa_enc 1 m (zeros INDCPA_PK) (drop SYMBYTES kr);
     Some (if bool_decide (zeros INDCPA_CT = ct2) then take SYMBYTES kr else J (zeros SYMBYTES ++ zeros INDCPA_CT))).
Proof.
  intros zeros m kr.
  apply (mlkem768_dec_exact 1 (zeros INDCPA_CT) (zeros INDCPA_SK) (zeros INDCPA_PK) (zeros SYMBYTES) (zeros SYMBYTES));
    [reflexivity| |reflexivity..]. apply Forall_replicate. unfold byte. lia.
Defined.

(** Key generation returned when there is noise to speak of. *)
Lemma keypair_of_noise fuel d z m w : decryption_noise fuel d m = Some w ->
  exists pk sk, mlkem768_keypair_derand fuel d z = Some (pk, sk).
Proof.
  unfold decryption_noise, mlkem768_keypair_derand.
  destruct (indcpa_keypair fuel d) as [[pk sk]|]; [|discriminate]. intros _. do 2 eexists. reflexivity.
Qed.

(** ** A known answer *)

#[local] Transparent Keccak.keccak.

Definition bytes_from (a n : nat) : list Z := Z.of_nat <$> seq a n.

(** The seeds of src/tests/pqc: d = 0..31, z = 32..63, m = 64..95. *)
Definition kat_seed : list Z := bytes_from 0 32.
Definition kat_msg : list Z := bytes_from 64 32.

Lemma kat_msg_bytes : Forall byte kat_msg.
Proof. apply (bool_decide_eq_true_1 (Forall (fun b => 0 <= b < 256) kat_msg)). reflexivity. Qed.

Lemma noise_okb w : forallb (fun x => (-832 <=? x) && (x <=? 831)) w = true -> Forall noise_ok w.
Proof.
  rewrite forallb_forall. intros H. apply Forall_forall. intros x Hx%list_elem_of_In. specialize (H x Hx). b2p. done.
Qed.

Lemma kat_noise : match decryption_noise 1 kat_seed kat_msg with
  | Some w => forallb (fun x => (-832 <=? x) && (x <=? 831)) w | None => false end = true.
Proof. vm_compute. reflexivity. Qed.

Lemma mlkem768_decapsulates_witness : exists pk sk ct ss,
  mlkem768_keypair_derand 1 kat_seed (bytes_from 32 32) = Some (pk, sk) /\
  mlkem768_enc_derand 1 pk kat_msg = Some (ct, ss) /\ length ss = SYMBYTES /\ mlkem768_dec 1 ct sk = Some ss.
Proof.
  pose proof kat_noise as Hn.
  destruct (decryption_noise 1 kat_seed kat_msg) as [w|] eqn:Ew; [|discriminate Hn].
  destruct (keypair_of_noise 1 kat_seed (bytes_from 32 32) kat_msg w Ew) as (pk & sk & Ek).
  destruct (mlkem768_decapsulates 1 kat_seed (bytes_from 32 32) kat_msg pk sk w) as (ct & ss & H1 & H2 & H3).
  - reflexivity.
  - exact kat_msg_bytes.
  - exact Ek.
  - exact Ew.
  - exact (noise_okb w Hn).
  - exists pk, sk, ct, ss. exact (conj Ek (conj H1 (conj H2 H3))).
Defined.

End MlKem.
