(* ===== verification/Words.v ===== *)
(** * Words and bytes

    32-bit words as the cryptographic code uses them: rotations, loads and
    stores in either byte order, and the number a byte string spells.  The
    sums and shifts wrap with [u32] of [Prelude]. *)

From S2P Require Import Prelude Bytes.

Module Words.
Import Bytes.

(** [(x << n) | (x >> (32 - n))] and its mirror image. *)
Definition rotl32 (x n : Z) : Z := Z.lor (u32 (Z.shiftl x n)) (Z.shiftr x (32 - n)).
Definition rotr32 (x n : Z) : Z := Z.lor (Z.shiftr x n) (u32 (Z.shiftl x (32 - n))).

(** Words at a byte offset. *)
Definition le32 (l : list Z) (i : nat) : Z :=
  Z.lor (Z.lor (Z.lor (coef l i) (Z.shiftl (coef l (i + 1)) 8)) (Z.shiftl (coef l (i + 2)) 16)) (Z.shiftl (coef l (i + 3)) 24).
Definition be32 (l : list Z) (i : nat) : Z :=
  Z.lor (Z.lor (Z.lor (Z.shiftl (coef l i) 24) (Z.shiftl (coef l (i + 1)) 16)) (Z.shiftl (coef l (i + 2)) 8)) (coef l (i + 3)).

Definition le32_bytes (v : Z) : list Z := [u8 v; u8 (Z.shiftr v 8); u8 (Z.shiftr v 16); u8 (Z.shiftr v 24)].
Definition be32_bytes (v : Z) : list Z := [u8 (Z.shiftr v 24); u8 (Z.shiftr v 16); u8 (Z.shiftr v 8); u8 v].

(** Arrays after a prefix. *)
Lemma coef_app_r' l1 l2 i j : i = (length l1 + j)%nat -> coef (l1 ++ l2) i = coef l2 j.
Proof. intros ->. apply coef_app_r. Qed.

Lemma coef_zeros n i : coef (replicate n 0) i = 0.
Proof. unfold coef. destruct (_ !! _) eqn:E; [|done]. apply lookup_replicate in E. by destruct E as [-> _]. Qed.

Lemma coef_zip_lt (m : Z -> Z -> Z) a b i : (i < length a)%nat -> (i < length b)%nat ->
  coef (zip_with m a b) i = m (coef a i) (coef b i).
Proof.
  intros [x Ha]%lookup_lt_is_Some [y Hb]%lookup_lt_is_Some. unfold coef. by rewrite lookup_zip_with, Ha, Hb.
Qed.

Lemma coef_cons x l i : coef (x :: l) (S i) = coef l i.
Proof. done. Qed.

(** ** Numbers spelled by bytes, least significant first *)

Fixpoint le_num (l : list Z) : Z :=
  match l with [] => 0 | b :: l => b + 256 * le_num l end.

Definition le_bytes (n : nat) (z : Z) : list Z := (fun i => z / 2 ^ (8 * Z.of_nat i) mod 256) <$> seq 0 n.

Lemma le_num_bound l : Forall byte l -> 0 <= le_num l < 2 ^ (8 * Z.of_nat (length l)).
Proof.
  induction 1 as [|b l Hb _ IH]; [done|]. cbn [le_num length]. unfold byte in Hb.
  replace (8 * Z.of_nat (S (length l))) with (8 + 8 * Z.of_nat (length l)) by lia. rewrite Z.pow_add_r by lia. change (2 ^ 8) with 256. nia.
Qed.

Lemma le_num_app l1 l2 : le_num (l1 ++ l2) = le_num l1 + 2 ^ (8 * Z.of_nat (length l1)) * le_num l2.
Proof.
  induction l1 as [|b l IH]; [by rewrite Z.mul_1_l|]. cbn [le_num length app]. rewrite IH.
  replace (8 * Z.of_nat (S (length l))) with (8 + 8 * Z.of_nat (length l)) by lia. rewrite Z.pow_add_r by lia. ring.
Qed.

Lemma le_num_zeros n : le_num (replicate n 0) = 0.
Proof. induction n as [|n IH]; [done|]. simpl replicate. cbn [le_num]. lia. Qed.

(** A load is the number its four bytes spell. *)
Lemma le32_num l i : Forall byte l -> le32 l i = coef l i + 2 ^ 8 * coef l (i + 1) + 2 ^ 16 * coef l (i + 2) + 2 ^ 24 * coef l (i + 3).
Proof.
  intros Hl. unfold le32.
  pose proof (coef_byte l i Hl). pose proof (coef_byte l (i + 1) Hl). pose proof (coef_byte l (i + 2) Hl). pose proof (coef_byte l (i + 3) Hl).
  unfold byte in *. rewrite (lor_add (coef l i)), (lor_add (_ + _)), (lor_add (_ + _)) by lia. done.
Qed.

Lemma le32_bound l i : Forall byte l -> 0 <= le32 l i < 2 ^ 32.
Proof.
  intros Hl. rewrite le32_num by done.
  pose proof (coef_byte l i Hl). pose proof (coef_byte l (i + 1) Hl). pose proof (coef_byte l (i + 2) Hl). pose proof (coef_byte l (i + 3) Hl).
  unfold byte in *. lia.
Qed.

Lemma le_num_16 l : Forall byte l -> length l = 16%nat ->
  le_num l = le32 l 0 + 2 ^ 32 * le32 l 4 + 2 ^ 64 * le32 l 8 + 2 ^ 96 * le32 l 12.
Proof.
  intros Hl Hn. rewrite !le32_num by done. do 16 (destruct l as [|? l]; [done|]). destruct l; [|done].
  unfold coef. cbn [lookup list_lookup default Nat.add le_num]. unfold id. lia.
Qed.

Lemma u8_shiftr v k : 0 <= k -> u8 (Z.shiftr v k) = v / 2 ^ k mod 256.
Proof. intros. unfold u8. by rewrite shiftr_div. Qed.

Lemma length_le_bytes n z : length (le_bytes n z) = n.
Proof. unfold le_bytes. by rewrite length_fmap, length_seq. Qed.

Lemma le_bytes_S n z : le_bytes (S n) z = z mod 256 :: le_bytes n (z / 256).
Proof.
  unfold le_bytes. cbn [seq fmap list_fmap]. f_equal; [by rewrite Z.div_1_r|].
  rewrite <- seq_shift, <- list_fmap_compose. apply list_fmap_ext. intros ? i _. simpl.
  replace (8 * Z.of_nat (S i)) with (8 + 8 * Z.of_nat i) by lia. by rewrite Z.pow_add_r, <- Z.div_div by lia.
Qed.

Lemma le_bytes_mod n z : le_bytes n (z mod 2 ^ (8 * Z.of_nat n)) = le_bytes n z.
Proof.
  revert z. induction n as [|n IH]; intros z; [done|]. rewrite !le_bytes_S.
  replace (8 * Z.of_nat (S n)) with (8 + 8 * Z.of_nat n) by lia. rewrite Z.pow_add_r by lia.
  rewrite Z.rem_mul_r by lia. change (2 ^ 8) with 256.
  pose proof (Z.mod_pos_bound z 256 ltac:(lia)) as Hb.
  rewrite (Z.mul_comm 256), Z.mod_add, Z.div_add, Z.mod_mod, (Z.div_small (z mod 256)) by lia. f_equal. apply IH.
Qed.

Lemma le_bytes_byte n z : Forall byte (le_bytes n z).
Proof. apply Forall_fmap, Forall_forall. intros i _. apply Z.mod_pos_bound. lia. Qed.

(** Bytes and numbers determine each other. *)
Lemma le_num_bytes n z : le_num (le_bytes n z) = z mod 2 ^ (8 * Z.of_nat n).
Proof.
  revert z. induction n as [|n IH]; intros z; [by rewrite Z.mod_1_r|].
  rewrite le_bytes_S. cbn [le_num]. rewrite IH.
  replace (8 * Z.of_nat (S n)) with (8 + 8 * Z.of_nat n) by lia. rewrite Z.pow_add_r, Z.rem_mul_r by lia. done.
Qed.

Lemma le_bytes_app n m z : le_bytes (n + m) z = le_bytes n z ++ le_bytes m (z / 2 ^ (8 * Z.of_nat n)).
Proof.
  revert z. induction n as [|n IH]; intros z; [by rewrite Z.div_1_r|].
  rewrite Nat.add_succ_l, !le_bytes_S, IH. simpl app. do 3 f_equal.
  rewrite Z.div_div by lia. f_equal. replace (8 * Z.of_nat (S n)) with (8 + 8 * Z.of_nat n) by lia.
  by rewrite Z.pow_add_r by lia.
Qed.

Lemma le32_bytes_num v : le32_bytes v = le_bytes 4 v.
Proof. unfold le32_bytes. rewrite !u8_shiftr by lia. unfold le_bytes, u8. simpl. by rewrite Z.div_1_r. Qed.

Lemma length_le32_bytes v : length (le32_bytes v) = 4%nat.
Proof. done. Qed.

Lemma land_bound a b m : 0 <= m -> 0 <= a < 2 ^ m -> 0 <= Z.land a b < 2 ^ m.
Proof.
  intros Hm Ha. rewrite <- (Z.mod_small a (2 ^ m)), <- Z.land_ones by done.
  rewrite <- Z.land_assoc, (Z.land_comm (Z.ones m)), Z.land_assoc, Z.land_ones by done. apply Z.mod_pos_bound. lia.
Qed.

(** Masking byte by byte masks the number. *)
Lemma land_split a b m x y : 0 <= m -> 0 <= a < 2 ^ m -> 0 <= b < 2 ^ m ->
  Z.land (a + 2 ^ m * x) (b + 2 ^ m * y) = Z.land a b + 2 ^ m * Z.land x y.
Proof.
  intros Hm Ha Hb. rewrite <- !lor_add by done. apply Z.bits_inj'. intros i Hi.
  pose proof (land_bound a b m Hm Ha) as Hab.
  rewrite <- lor_add by done. rewrite Z.land_spec, !Z.lor_spec, Z.land_spec, !Z.shiftl_spec by done.
  destruct (Z.lt_ge_cases i m) as [Hlt|Hge].
  - rewrite !(Z.testbit_neg_r _ (i - m)) by lia. by rewrite !orb_false_r.
  - rewrite !(fun z H => testbit_above m z i Hm H Hge) by done. simpl. by rewrite Z.land_spec.
Qed.

Lemma le_num_land l m : Forall byte l -> Forall byte m -> length l = length m ->
  le_num (zip_with Z.land l m) = Z.land (le_num l) (le_num m).
Proof.
  intros Hl. revert m. induction Hl as [|b l Hb _ IH]; intros [|c m] Hm Hn; try done.
  apply Forall_cons in Hm as [Hc Hm]. cbn [zip_with le_num]. rewrite IH by (done || (simpl in Hn; lia)).
  unfold byte in *. symmetry. by apply (land_split b c 8).
Qed.

(** An accumulated difference is zero when every part is. *)
Lemma lor_fold_zero (f : nat -> Z) l a : foldl (fun d i => Z.lor d (f i)) a l = 0 <-> a = 0 /\ Forall (fun i => f i = 0) l.
Proof.
  revert a. induction l as [|i l IH]; intros a; simpl; [by split; [|intros []]|].
  rewrite IH, Z.lor_eq_0_iff, Forall_cons. tauto.
Qed.

Lemma be32_bytes_u32 v : be32_bytes (u32 v) = be32_bytes v.
Proof.
  unfold be32_bytes, u8, u32. rewrite !shiftr_div by lia.
  assert (forall k, 0 <= k <= 24 -> (v mod 2 ^ 32) / 2 ^ k mod 2 ^ 8 = v / 2 ^ k mod 2 ^ 8) as H.
  { intros k Hk. rewrite (Z.div_mod v (2 ^ 32)) at 2 by lia. replace (2 ^ 32) with (2 ^ (24 - k) * 2 ^ 8 * 2 ^ k) at 2.
    - rewrite <- Z.mul_assoc, (Z.mul_comm (2 ^ k)), !Z.mul_assoc, Z.div_add_l by lia.
      rewrite (Z.mul_comm (2 ^ (24 - k) * 2 ^ 8)), Z.mul_assoc, (Z.add_comm (_ * 2 ^ 8)), Z.mod_add by lia. done.
    - rewrite <- !Z.pow_add_r by lia. f_equal. lia. }
  rewrite !H by lia. pose proof (H 0 ltac:(lia)) as H0. rewrite !Z.div_1_r in H0. by rewrite H0.
Qed.

Lemma bytes_be32 v : Forall byte (be32_bytes v).
Proof. repeat constructor; apply u8_byte. Qed.

(** The four bytes of a word, most significant first. *)
Lemma be32_bytes_rev v : be32_bytes v = rev (le_bytes 4 v).
Proof. rewrite <- le32_bytes_num. reflexivity. Qed.

Lemma lxor_split a b m x y : 0 <= m -> 0 <= a < 2 ^ m -> 0 <= b < 2 ^ m ->
  Z.lxor (a + 2 ^ m * x) (b + 2 ^ m * y) = Z.lxor a b + 2 ^ m * Z.lxor x y.
Proof.
  intros Hm Ha Hb. destruct (decide (m = 0)) as [->|]; [change (2 ^ 0) with 1 in *; replace a with 0 by lia; replace b with 0 by lia; by rewrite !Z.mul_1_l|].
  pose proof (lxor_bound m a b ltac:(lia) Ha Hb). rewrite <- !lor_add by done. apply Z.bits_inj'. intros i Hi.
  rewrite Z.lxor_spec, !Z.lor_spec, !Z.shiftl_spec, !Z.lxor_spec by done.
  destruct (Z.lt_ge_cases i m) as [Hlt|Hge].
  - rewrite !(Z.testbit_neg_r _ (i - m)) by lia. simpl. by rewrite !orb_false_r.
  - by rewrite !(fun z H => testbit_above m z i ltac:(lia) H Hge).
Qed.

End Words.
