(* ===== verification/Poly1305.v ===== *)
(** * The Poly1305 authenticator

    Model of [poly1305_mac] in src/advanced/secure_channel_crypto.cpp: the
    accumulator in five 26-bit limbs held in 64-bit integers, the carries, the
    final reduction by a mask and the 128-bit tag.  The reference definition is
    arithmetic modulo 2^130 - 5 on the numbers the blocks spell. *)

From S2P Require Import Prelude Bytes Words.

Module Poly1305.
Import Bytes Words.

Definition mask26 : Z := 0x3ffffff.

(** [h0 ... h4], also [r0 ... r4] and [d0 ... d4]. *)
Record limbs := Limbs { l0 : Z; l1 : Z; l2 : Z; l3 : Z; l4 : Z }.

(** The clamped [r_bytes]. *)
Definition clampAt (m : Z) (r : list Z) (i : nat) : list Z := <[i := Z.land (coef r i) m]> r.
Definition clamp (key : list Z) : list Z :=
  foldl (clampAt 0xfc) (foldl (clampAt 0x0f) (take 16 key) [3; 7; 11; 15]%nat) [4; 8; 12]%nat.

(** Four 32-bit words as five limbs. *)
Definition split26 (b : list Z) : limbs :=
  let t0 := le32 b 0 in let t1 := le32 b 4 in let t2 := le32 b 8 in let t3 := le32 b 12 in
  Limbs (Z.land t0 mask26)
        (Z.land (Z.lor (Z.shiftr t0 26) (u64 (Z.shiftl t1 6))) mask26)
        (Z.land (Z.lor (Z.shiftr t1 20) (u64 (Z.shiftl t2 12))) mask26)
        (Z.land (Z.lor (Z.shiftr t2 14) (u64 (Z.shiftl t3 18))) mask26)
        (Z.land (Z.shiftr t3 8) mask26).

(** The 17-byte block: the chunk, a one, and zeros. *)
Definition block17 (chunk : list Z) : list Z := <[length chunk := 1]> (chunk ++ replicate (17 - length chunk) 0).

Definition addBlock (h : limbs) (b : list Z) : limbs :=
  let t := split26 b in
  Limbs (u64 (l0 h + l0 t)) (u64 (l1 h + l1 t)) (u64 (l2 h + l2 t)) (u64 (l3 h + l3 t))
        (u64 (u64 (l4 h + l4 t) + u64 (Z.shiftl (coef b 16) 18))).

(** One schoolbook product; [s] holds [r1*5 ... r4*5] (its [l0] unused). *)
Definition mulR (h r s : limbs) : limbs :=
  Limbs (u64 (l0 h * l0 r + l1 h * l4 s + l2 h * l3 s + l3 h * l2 s + l4 h * l1 s))
        (u64 (l0 h * l1 r + l1 h * l0 r + l2 h * l4 s + l3 h * l3 s + l4 h * l2 s))
        (u64 (l0 h * l2 r + l1 h * l1 r + l2 h * l0 r + l3 h * l4 s + l4 h * l3 s))
        (u64 (l0 h * l3 r + l1 h * l2 r + l2 h * l1 r + l3 h * l0 r + l4 h * l4 s))
        (u64 (l0 h * l4 r + l1 h * l3 r + l2 h * l2 r + l3 h * l1 r + l4 h * l0 r)).

Definition times5 (r : limbs) : limbs := Limbs 0 (u64 (l1 r * 5)) (u64 (l2 r * 5)) (u64 (l3 r * 5)) (u64 (l4 r * 5)).

(** Propagate carries. *)
Definition carry (d : limbs) : limbs :=
  let c := Z.shiftr (l0 d) 26 in let h0 := u32 (Z.land (l0 d) mask26) in let d1 := u64 (l1 d + c) in
  let c := Z.shiftr d1 26 in let h1 := u32 (Z.land d1 mask26) in let d2 := u64 (l2 d + c) in
  let c := Z.shiftr d2 26 in let h2 := u32 (Z.land d2 mask26) in let d3 := u64 (l3 d + c) in
  let c := Z.shiftr d3 26 in let h3 := u32 (Z.land d3 mask26) in let d4 := u64 (l4 d + c) in
  let c := Z.shiftr d4 26 in let h4 := u32 (Z.land d4 mask26) in let h0 := u64 (h0 + u64 (c * 5)) in
  let c := Z.shiftr h0 26 in Limbs (Z.land h0 mask26) (u64 (h1 + c)) h2 h3 h4.

Definition polyStep (r s h : limbs) (chunk : list Z) : limbs := carry (mulR (addBlock h (block17 chunk)) r s).

(** [while (pos < msgLen)]: at most one block per byte. *)
Fixpoint polyLoop (fuel : nat) (r s h : limbs) (msg : list Z) : limbs :=
  match fuel with
  | O => h
  | S fuel => if (length msg =? 0)%nat then h else polyLoop fuel r s (polyStep r s h (take 16 msg)) (drop 16 msg)
  end.

(** The carries before the comparison with the modulus. *)
Definition carryFinal (h : limbs) : limbs :=
  let c := Z.shiftr (l1 h) 26 in let h1 := Z.land (l1 h) mask26 in let h2 := u64 (l2 h + c) in
  let c := Z.shiftr h2 26 in let h2 := Z.land h2 mask26 in let h3 := u64 (l3 h + c) in
  let c := Z.shiftr h3 26 in let h3 := Z.land h3 mask26 in let h4 := u64 (l4 h + c) in
  let c := Z.shiftr h4 26 in let h4 := Z.land h4 mask26 in let h0 := u64 (l0 h + u64 (c * 5)) in
  let c := Z.shiftr h0 26 in Limbs (Z.land h0 mask26) (u64 (h1 + c)) h2 h3 h4.

Definition not64 (x : Z) : Z := Z.lxor x U64_MAX.

(** [(h & ~mask) | (g & mask)] *)
Definition select (mask h g : Z) : Z := Z.lor (Z.land h (not64 mask)) (Z.land g mask).

(** Subtract the modulus when [h] reaches it. *)
Definition subP (h : limbs) : limbs :=
  let g0 := u64 (l0 h + 5) in let c := Z.shiftr g0 26 in let g0 := Z.land g0 mask26 in
  let g1 := u64 (l1 h + c) in let c := Z.shiftr g1 26 in let g1 := Z.land g1 mask26 in
  let g2 := u64 (l2 h + c) in let c := Z.shiftr g2 26 in let g2 := Z.land g2 mask26 in
  let g3 := u64 (l3 h + c) in let c := Z.shiftr g3 26 in let g3 := Z.land g3 mask26 in
  let g4 := u64 (u64 (l4 h + c) - Z.shiftl 1 26) in
  let mask := not64 (u64 (- Z.shiftr g4 63)) in
  Limbs (select mask (l0 h) g0) (select mask (l1 h) g1) (select mask (l2 h) g2) (select mask (l3 h) g3) (select mask (l4 h) g4).

Definition le64 (l : list Z) (o : nat) : Z :=
  foldl (fun a i => Z.lor a (Z.shiftl (coef l (o + i)) (8 * Z.of_nat i))) 0 (seq 0 8).
Definition le64_bytes (v : Z) : list Z := (fun i => u8 (Z.shiftr v (8 * Z.of_nat i))) <$> seq 0 8.

(** [h + s] on 128 bits, as two halves. *)
Definition tagOf (h : limbs) (s_bytes : list Z) : list Z :=
  let s_lo := le64 s_bytes 0 in let s_hi := le64 s_bytes 8 in
  let h_lo := Z.lor (Z.lor (l0 h) (u64 (Z.shiftl (l1 h) 26))) (u64 (Z.shiftl (l2 h) 52)) in
  let h_hi := Z.lor (Z.lor (Z.shiftr (l2 h) 12) (u64 (Z.shiftl (l3 h) 14))) (u64 (Z.shiftl (l4 h) 40)) in
  let t_lo := u64 (h_lo + s_lo) in
  let t_hi := u64 (u64 (h_hi + s_hi) + (if t_lo <? h_lo then 1 else 0)) in
  le64_bytes t_lo ++ le64_bytes t_hi.

Definition poly1305_mac (key msg : list Z) : list Z :=
  let r := split26 (clamp key) in
  let h := polyLoop (length msg) r (times5 r) (Limbs 0 0 0 0 0) msg in
  tagOf (subP (carryFinal h)) (take 16 (drop 16 key)).

(** ** Arithmetic modulo 2^130 - 5 *)

Definition P1305 : Z := 2 ^ 130 - 5.

(** Where the bit after a block of [n] bytes goes: RFC 8439 puts it at
    [8 n]; here it is at 122 after a full block. *)
Definition padRFC (n : nat) : Z := 2 ^ (8 * Z.of_nat n).
Definition padCode (n : nat) : Z := if (n =? 16)%nat then 2 ^ 122 else padRFC n.

Fixpoint chunks16 (fuel : nat) (msg : list Z) : list (list Z) :=
  match fuel with
  | O => []
  | S fuel => if (length msg =? 0)%nat then [] else take 16 msg :: chunks16 fuel (drop 16 msg)
  end.

Definition clampMask : Z := 0x0ffffffc0ffffffc0ffffffc0fffffff.

(** The authenticator with a padding rule. *)
Definition poly1305_spec (pad : nat -> Z) (key msg : list Z) : list Z :=
  let r := Z.land (le_num (take 16 key)) clampMask in
  let s := le_num (take 16 (drop 16 key)) in
  let acc := foldl (fun a b => (a + (le_num b + pad (length b))) * r mod P1305) 0 (chunks16 (length msg) msg) in
  le_bytes 16 ((acc + s) mod 2 ^ 128).

(** ** The limbs as a number *)

Definition val (h : limbs) : Z := l0 h + 2 ^ 26 * l1 h + 2 ^ 52 * l2 h + 2 ^ 78 * l3 h + 2 ^ 104 * l4 h.

(** Every limb in its range; [l1] may keep a late carry. *)
Record within (b b1 b4 : Z) (h : limbs) : Prop := Within {
  w0 : 0 <= l0 h < b;
  w1 : 0 <= l1 h < b1;
  w2 : 0 <= l2 h < b;
  w3 : 0 <= l3 h < b;
  w4 : 0 <= l4 h < b4 }.

(** The invariant of the accumulator. *)
Definition acc_ok : limbs -> Prop := within (2 ^ 26) (2 ^ 26 + 2 ^ 12) (2 ^ 26).

Lemma land_mask26 x : Z.land x mask26 = x mod 2 ^ 26.
Proof. change mask26 with (Z.ones 26). by apply Z.land_ones. Qed.

Lemma join_words a b k m : 0 <= k -> 0 <= m -> k + m = 32 -> 0 <= a < 2 ^ 32 -> 0 <= b < 2 ^ 32 ->
  Z.lor (Z.shiftr a m) (u64 (Z.shiftl b k)) = a / 2 ^ m + 2 ^ k * b.
Proof.
  intros Hk Hm E Ha Hb.
  assert (2 ^ k * 2 ^ m = 2 ^ 32) as Ep by (rewrite <- Z.pow_add_r by lia; f_equal; lia).
  assert (1 <= 2 ^ k) by (pose proof (Z.pow_pos_nonneg 2 k); lia).
  assert (1 <= 2 ^ m) by (pose proof (Z.pow_pos_nonneg 2 m); lia).
  assert (2 ^ k <= 2 ^ 32) by nia.
  rewrite u64_small.
  - rewrite lor_add; [by rewrite shiftr_div|lia|]. rewrite shiftr_div by lia. split; [apply Z.div_pos; lia|].
    apply Z.div_lt_upper_bound; lia.
  - rewrite Z.shiftl_mul_pow2 by lia. nia.
Qed.

Lemma split26_spec b : Forall byte b -> (16 <= length b)%nat ->
  val (split26 b) = le_num (take 16 b) /\ within (2 ^ 26) (2 ^ 26) (2 ^ 24) (split26 b).
Proof.
  intros Hb Hl. assert (Forall byte (take 16 b)) as Ht by by apply Forall_take.
  rewrite le_num_16 by (done || rewrite length_take; lia).
  assert (forall i, (i <= 12)%nat -> le32 (take 16 b) i = le32 b i) as E.
  { intros i Hi. unfold le32. by rewrite !coef_take by lia. }
  rewrite !E by lia. unfold split26.
  pose proof (le32_bound b 0 Hb). pose proof (le32_bound b 4 Hb). pose proof (le32_bound b 8 Hb). pose proof (le32_bound b 12 Hb).
  revert H H0 H1 H2. generalize (le32 b 0) (le32 b 4) (le32 b 8) (le32 b 12). intros t0 t1 t2 t3 H0 H1 H2 H3.
  rewrite !join_words by lia. rewrite !land_mask26, !shiftr_div by lia. unfold val. cbn [l0 l1 l2 l3 l4].
  split; [|constructor; cbn [l0 l1 l2 l3 l4]]; Z.to_euclidean_division_equations; lia.
Qed.

(** ** One block *)

Lemma block17_spec chunk : Forall byte chunk -> (1 <= length chunk <= 16)%nat ->
  Forall byte (block17 chunk) /\ length (block17 chunk) = 17%nat /\
  le_num (take 16 (block17 chunk)) + 2 ^ 122 * coef (block17 chunk) 16 = le_num chunk + padCode (length chunk) /\
  0 <= coef (block17 chunk) 16 < 2.
Proof.
  intros Hb Hl. unfold block17, padCode, padRFC.
  assert (length chunk + 0 = length chunk)%nat as E0 by lia.
  replace (17 - length chunk)%nat with (S (16 - length chunk)) by lia.
  rewrite insert_app_r_alt, Nat.sub_diag by lia. cbn [replicate insert list_insert].
  split_and!.
  - apply Forall_app. split; [done|]. constructor; [unfold byte; lia|]. apply Forall_replicate. unfold byte. lia.
  - rewrite length_app. cbn [length]. rewrite length_replicate. lia.
  - case_goal.
    + apply Nat.eqb_eq in Heqb as E. rewrite E in *. rewrite take_app_exact by done.
      rewrite (coef_app_r' _ _ 16 0) by lia. unfold coef. simpl. lia.
    + apply Nat.eqb_neq in Heqb. rewrite take_app_ge by lia. rewrite (coef_app_r' _ _ 16 (16 - length chunk)) by lia.
      replace (16 - length chunk)%nat with (S (15 - length chunk)) by lia.
      cbn [take]. rewrite take_replicate, le_num_app. cbn [le_num]. rewrite le_num_zeros.
      rewrite coef_cons, coef_zeros. lia.
  - rewrite (coef_app_r' _ _ 16 (16 - length chunk)) by lia. destruct (16 - length chunk)%nat; [done|by rewrite coef_cons, coef_zeros].
  - rewrite (coef_app_r' _ _ 16 (16 - length chunk)) by lia. destruct (16 - length chunk)%nat; [done|by rewrite coef_cons, coef_zeros].
Qed.

Lemma addBlock_spec h chunk : acc_ok h -> Forall byte chunk -> (1 <= length chunk <= 16)%nat ->
  val (addBlock h (block17 chunk)) = val h + le_num chunk + padCode (length chunk) /\
  within (2 ^ 27) (2 ^ 27 + 2 ^ 12) (2 ^ 27) (addBlock h (block17 chunk)).
Proof.
  intros [H0 H1 H2 H3 H4] Hb Hl. destruct (block17_spec chunk Hb Hl) as (Hb' & Hl' & E & Hc).
  destruct (split26_spec (block17 chunk) Hb' ltac:(lia)) as [Es [S0 S1 S2 S3 S4]].
  unfold val in *. unfold addBlock. cbn [l0 l1 l2 l3 l4]. rewrite Z.shiftl_mul_pow2 by lia.
  rewrite !u64_small by (rewrite ?u64_small by lia; lia).
  split; [lia|constructor; cbn [l0 l1 l2 l3 l4]; lia].
Qed.

(** ** The product *)

Definition congr (x y : Z) : Prop := exists q, x = y + P1305 * q.

Lemma congr_mod x y : congr x y -> x mod P1305 = y mod P1305.
Proof. intros [q ->]. rewrite Z.mul_comm, Z.mod_add by done. done. Qed.

(** Five products of bounded factors. *)
Lemma dot5_bound A B a0 a1 a2 a3 a4 b0 b1 b2 b3 b4 :
  0 <= a0 < A -> 0 <= a1 < A -> 0 <= a2 < A -> 0 <= a3 < A -> 0 <= a4 < A ->
  0 <= b0 < B -> 0 <= b1 < B -> 0 <= b2 < B -> 0 <= b3 < B -> 0 <= b4 < B ->
  0 <= a0 * b0 + a1 * b1 + a2 * b2 + a3 * b3 + a4 * b4 < 5 * (A * B).
Proof.
  assert (forall a b, 0 <= a < A -> 0 <= b < B -> 0 <= a * b < A * B) as H by nia.
  intros. pose proof (H a0 b0). pose proof (H a1 b1). pose proof (H a2 b2). pose proof (H a3 b3). pose proof (H a4 b4). lia.
Qed.

Lemma mulR_spec h r : within (2 ^ 27) (2 ^ 27 + 2 ^ 12) (2 ^ 27) h -> within (2 ^ 26) (2 ^ 26) (2 ^ 24) r ->
  congr (val (mulR h r (times5 r))) (val h * val r) /\ within (2 ^ 59) (2 ^ 59) (2 ^ 59) (mulR h r (times5 r)).
Proof.
  intros [H0 H1 H2 H3 H4] [R0 R1 R2 R3 R4]. unfold mulR, times5. cbn [l0 l1 l2 l3 l4].
  rewrite (u64_small (l1 r * 5)), (u64_small (l2 r * 5)), (u64_small (l3 r * 5)), (u64_small (l4 r * 5)) by lia.
  pose proof (dot5_bound (2 ^ 27 + 2 ^ 12) (5 * 2 ^ 26)) as D.
  assert (5 * ((2 ^ 27 + 2 ^ 12) * (5 * 2 ^ 26)) < 2 ^ 59) as Hd by lia.
  split; [|constructor; cbn [l0 l1 l2 l3 l4]].
  2-6: rewrite u64_small; (split; [apply D|eapply Z.lt_trans; [apply D|]]; lia).
  exists (- (l1 h * l4 r + l2 h * l3 r + l3 h * l2 r + l4 h * l1 r + 2 ^ 26 * (l2 h * l4 r + l3 h * l3 r + l4 h * l2 r)
    + 2 ^ 52 * (l3 h * l4 r + l4 h * l3 r) + 2 ^ 78 * (l4 h * l4 r))).
  unfold val, P1305. cbn [l0 l1 l2 l3 l4].
  rewrite !u64_small by (split; [apply D|eapply Z.lt_trans; [apply D|]]; lia). ring.
Qed.

Lemma carry_spec d : within (2 ^ 59) (2 ^ 59) (2 ^ 59) d -> congr (val (carry d)) (val d) /\ acc_ok (carry d).
Proof.
  intros [H0 H1 H2 H3 H4]. destruct d as [d0 d1 d2 d3 d4]. cbn [l0 l1 l2 l3 l4] in *.
  unfold carry. cbn [l0 l1 l2 l3 l4]. rewrite !land_mask26, !shiftr_div by lia.
  assert (forall x, u32 (x mod 2 ^ 26) = x mod 2 ^ 26) as Em.
  { intros x. apply u32_small. pose proof (Z.mod_pos_bound x (2 ^ 26)). lia. }
  rewrite !Em.
  assert (forall x b, 0 <= x < b * 2 ^ 26 -> 0 <= x / 2 ^ 26 < b) as Hq.
  { intros. split; [apply Z.div_pos|apply Z.div_lt_upper_bound]; lia. }
  pose proof (Hq d0 (2 ^ 33)) as Q0. rewrite (u64_small (d1 + _)) by lia.
  set (e1 := d1 + d0 / 2 ^ 26) in *. pose proof (Hq e1 (2 ^ 34)) as Q1. rewrite (u64_small (d2 + _)) by lia.
  set (e2 := d2 + e1 / 2 ^ 26) in *. pose proof (Hq e2 (2 ^ 34)) as Q2. rewrite (u64_small (d3 + _)) by lia.
  set (e3 := d3 + e2 / 2 ^ 26) in *. pose proof (Hq e3 (2 ^ 34)) as Q3. rewrite (u64_small (d4 + _)) by lia.
  set (e4 := d4 + e3 / 2 ^ 26) in *. pose proof (Hq e4 (2 ^ 34)) as Q4. rewrite (u64_small (_ * 5)) by lia.
  pose proof (Z.mod_pos_bound d0 (2 ^ 26)) as M0. rewrite (u64_small (_ + _ * 5)) by lia.
  set (f0 := d0 mod 2 ^ 26 + e4 / 2 ^ 26 * 5) in *. pose proof (Hq f0 (2 ^ 12)) as Qf.
  pose proof (Z.mod_pos_bound e1 (2 ^ 26)) as M1. rewrite (u64_small (_ + f0 / _)) by lia.
  split.
  - exists (- (e4 / 2 ^ 26)). unfold val, P1305. cbn [l0 l1 l2 l3 l4]. subst f0 e4 e3 e2 e1.
    Z.to_euclidean_division_equations. lia.
  - pose proof (Z.mod_pos_bound e2 (2 ^ 26)). pose proof (Z.mod_pos_bound e3 (2 ^ 26)).
    pose proof (Z.mod_pos_bound e4 (2 ^ 26)). pose proof (Z.mod_pos_bound f0 (2 ^ 26)).
    constructor; cbn [l0 l1 l2 l3 l4]; lia.
Qed.

(** ** The final reduction *)

Lemma carryFinal_spec h : acc_ok h -> congr (val (carryFinal h)) (val h) /\ within (2 ^ 26) (2 ^ 26) (2 ^ 26) (carryFinal h).
Proof.
  intros [H0 H1 H2 H3 H4]. destruct h as [h0 h1 h2 h3 h4]. cbn [l0 l1 l2 l3 l4] in *.
  unfold carryFinal. cbn [l0 l1 l2 l3 l4]. rewrite !land_mask26, !shiftr_div by lia.
  assert (forall x, 0 <= x < 2 ^ 27 -> 0 <= x / 2 ^ 26 < 2) as Hq.
  { intros. split; [apply Z.div_pos|apply Z.div_lt_upper_bound]; lia. }
  pose proof (Hq h1) as Q1. rewrite (u64_small (h2 + _)) by lia.
  set (e2 := h2 + h1 / 2 ^ 26) in *. pose proof (Hq e2) as Q2. rewrite (u64_small (h3 + _)) by lia.
  set (e3 := h3 + e2 / 2 ^ 26) in *. pose proof (Hq e3) as Q3. rewrite (u64_small (h4 + _)) by lia.
  set (e4 := h4 + e3 / 2 ^ 26) in *. pose proof (Hq e4) as Q4. rewrite (u64_small (_ * 5)) by lia.
  rewrite (u64_small (h0 + _ * 5)) by lia. set (f0 := h0 + e4 / 2 ^ 26 * 5) in *. pose proof (Hq f0) as Qf.
  pose proof (Z.mod_pos_bound h1 (2 ^ 26)) as M1. rewrite (u64_small (_ + f0 / _)) by lia.
  split.
  - exists (- (e4 / 2 ^ 26)). unfold val, P1305. cbn [l0 l1 l2 l3 l4]. subst f0 e4 e3 e2.
    Z.to_euclidean_division_equations. lia.
  - assert (h1 mod 2 ^ 26 + f0 / 2 ^ 26 < 2 ^ 26).
    { subst f0 e4 e3 e2. Z.to_euclidean_division_equations. lia. }
    pose proof (Z.mod_pos_bound e2 (2 ^ 26)). pose proof (Z.mod_pos_bound e3 (2 ^ 26)).
    pose proof (Z.mod_pos_bound e4 (2 ^ 26)). pose proof (Z.mod_pos_bound f0 (2 ^ 26)).
    constructor; cbn [l0 l1 l2 l3 l4]; lia.
Qed.

Lemma land_all x : 0 <= x < 2 ^ 64 -> Z.land x U64_MAX = x.
Proof. intros. change U64_MAX with (Z.ones 64). rewrite Z.land_ones by lia. by apply Z.mod_small. Qed.

Lemma select_keep h g : 0 <= h < 2 ^ 64 -> select 0 h g = h.
Proof. intros. unfold select. rewrite Z.land_0_r, Z.lor_0_r. by apply land_all. Qed.

Lemma select_take h g : 0 <= g < 2 ^ 64 -> select U64_MAX h g = g.
Proof. intros. unfold select. change (not64 U64_MAX) with 0. rewrite Z.land_0_r, Z.lor_0_l. by apply land_all. Qed.

Lemma subP_spec h : within (2 ^ 26) (2 ^ 26) (2 ^ 26) h ->
  val (subP h) = val h mod P1305 /\ within (2 ^ 26) (2 ^ 26) (2 ^ 26) (subP h).
Proof.
  intros [H0 H1 H2 H3 H4]. destruct h as [h0 h1 h2 h3 h4]. cbn [l0 l1 l2 l3 l4] in *.
  unfold subP. cbn [l0 l1 l2 l3 l4]. rewrite !land_mask26.
  rewrite (u64_small (h0 + _)) by lia. set (g0 := h0 + 5) in *. rewrite (shiftr_div g0) by lia.
  assert (forall x, 0 <= x < 2 ^ 27 -> 0 <= x / 2 ^ 26 < 2) as Hq.
  { intros. split; [apply Z.div_pos|apply Z.div_lt_upper_bound]; lia. }
  pose proof (Hq g0) as Q0. rewrite (u64_small (h1 + _)) by lia. set (g1 := h1 + g0 / 2 ^ 26) in *.
  rewrite (shiftr_div g1) by lia. pose proof (Hq g1) as Q1. rewrite (u64_small (h2 + _)) by lia. set (g2 := h2 + g1 / 2 ^ 26) in *.
  rewrite (shiftr_div g2) by lia. pose proof (Hq g2) as Q2. rewrite (u64_small (h3 + _)) by lia. set (g3 := h3 + g2 / 2 ^ 26) in *.
  rewrite (shiftr_div g3) by lia. pose proof (Hq g3) as Q3. rewrite (u64_small (h4 + _)) by lia. set (g4 := h4 + g3 / 2 ^ 26) in *.
  assert (val (Limbs h0 h1 h2 h3 h4) + 5 = val (Limbs (g0 mod 2 ^ 26) (g1 mod 2 ^ 26) (g2 mod 2 ^ 26) (g3 mod 2 ^ 26) (g4 - 2 ^ 26)) + 2 ^ 130) as E.
  { unfold val. cbn [l0 l1 l2 l3 l4]. subst g4 g3 g2 g1 g0. Z.to_euclidean_division_equations. lia. }
  pose proof (Z.mod_pos_bound g0 (2 ^ 26)). pose proof (Z.mod_pos_bound g1 (2 ^ 26)).
  pose proof (Z.mod_pos_bound g2 (2 ^ 26)). pose proof (Z.mod_pos_bound g3 (2 ^ 26)).
  change (Z.shiftl 1 26) with (2 ^ 26). destruct (Z.lt_ge_cases g4 (2 ^ 26)) as [Hlt|Hge].
  - assert (u64 (g4 - 2 ^ 26) = g4 - 2 ^ 26 + 2 ^ 64) as ->.
    { unfold u64. symmetry. apply Z.mod_unique with (-1); lia. }
    assert (Z.shiftr (g4 - 2 ^ 26 + 2 ^ 64) 63 = 1) as ->.
    { rewrite shiftr_div by lia. symmetry. apply Z.div_unique with (g4 - 2 ^ 26 + 2 ^ 63); lia. }
    change (not64 (u64 (- (1)))) with 0. rewrite !select_keep by lia. split; [|constructor; cbn [l0 l1 l2 l3 l4]; lia].
    symmetry. apply Z.mod_small. unfold val, P1305 in *. cbn [l0 l1 l2 l3 l4] in *. lia.
  - rewrite (u64_small (g4 - 2 ^ 26)) by lia.
    assert (Z.shiftr (g4 - 2 ^ 26) 63 = 0) as ->.
    { rewrite shiftr_div by lia. apply Z.div_small. lia. }
    change (not64 (u64 (- 0))) with U64_MAX. rewrite !select_take by lia. split; [|constructor; cbn [l0 l1 l2 l3 l4]; lia].
    apply Z.mod_unique with 1; unfold val, P1305 in *; cbn [l0 l1 l2 l3 l4] in *; lia.
Qed.

(** ** The tag *)

Lemma le64_num l o : Forall byte l -> (o + 8 <= length l)%nat -> le64 l o = le_num (take 8 (drop o l)).
Proof.
  intros Hl Ho. assert (Forall byte (take 8 (drop o l))) as Hd by by apply Forall_take, Forall_drop.
  assert (le64 l o = le64 (take 8 (drop o l)) 0) as ->.
  { unfold le64. apply (foldl_ext_in _ _ (fun _ => True)); [done|]. intros a i _ Hi%elem_of_seq.
    by rewrite coef_take, coef_drop by lia. }
  assert (length (take 8 (drop o l)) = 8%nat) as Hn by (rewrite length_take, length_drop; lia).
  revert Hd Hn. generalize (take 8 (drop o l)). clear. intros l Hd Hn.
  do 8 (destruct l as [|? l]; [done|]). destruct l; [|done].
  repeat match goal with H : Forall _ (_ :: _) |- _ => apply Forall_cons in H; destruct H as [? H] end.
  unfold byte in *. unfold le64, coef. simpl. rewrite Z.lor_0_l, Z.shiftl_0_r.
  rewrite (lor_add z) by lia. rewrite !(lor_add (_ + _)) by lia. lia.
Qed.

Lemma le64_bytes_num v : le64_bytes v = le_bytes 8 v.
Proof. apply list_fmap_ext. intros ? i _. by rewrite u8_shiftr by lia. Qed.

Lemma add128 lo hi s0 s1 : 0 <= lo < 2 ^ 64 -> 0 <= s0 < 2 ^ 64 ->
  le_bytes 8 (u64 (lo + s0)) ++ le_bytes 8 (u64 (u64 (hi + s1) + (if u64 (lo + s0) <? lo then 1 else 0)))
  = le_bytes 16 ((lo + 2 ^ 64 * hi + (s0 + 2 ^ 64 * s1)) mod 2 ^ 128).
Proof.
  intros Hlo Hs0. set (c := if u64 (lo + s0) <? lo then 1 else 0).
  assert (lo + s0 = u64 (lo + s0) + 2 ^ 64 * c) as Ec.
  { unfold c, u64. destruct (Z.ltb_spec ((lo + s0) mod 2 ^ 64) lo); Z.to_euclidean_division_equations; lia. }
  pose proof (u64_bound (lo + s0)) as Bl. revert Ec Bl. generalize (u64 (lo + s0)). intros tl Ec Bl.
  assert (u64 (u64 (hi + s1) + c) = (hi + s1 + c) mod 2 ^ 64) as -> by (unfold u64; by rewrite Zplus_mod_idemp_l).
  assert ((lo + 2 ^ 64 * hi + (s0 + 2 ^ 64 * s1)) mod 2 ^ 128 = tl + 2 ^ 64 * ((hi + s1 + c) mod 2 ^ 64)) as ->.
  { symmetry. apply Z.mod_unique with ((hi + s1 + c) / 2 ^ 64).
    - pose proof (Z.mod_pos_bound (hi + s1 + c) (2 ^ 64)). lia.
    - pose proof (Z.div_mod (hi + s1 + c) (2 ^ 64)). lia. }
  change 16%nat with (8 + 8)%nat. rewrite le_bytes_app. f_equal.
  - rewrite <- (le_bytes_mod 8 (tl + _)). change (8 * Z.of_nat 8) with 64. rewrite Z.mul_comm, Z.mod_add by lia. by rewrite Z.mod_small.
  - f_equal. change (8 * Z.of_nat 8) with 64. rewrite Z.mul_comm, Z.div_add, Z.div_small by lia. done.
Qed.

Lemma tagOf_spec h s : within (2 ^ 26) (2 ^ 26) (2 ^ 26) h -> Forall byte s -> length s = 16%nat ->
  tagOf h s = le_bytes 16 ((val h + le_num s) mod 2 ^ 128).
Proof.
  intros [H0 H1 H2 H3 H4] Hs Hn. unfold tagOf. rewrite !le64_num by (done || lia).
  assert (le_num s = le_num (take 8 (drop 0 s)) + 2 ^ 64 * le_num (take 8 (drop 8 s))) as ->.
  { rewrite <- (take_drop 8 s) at 1. rewrite le_num_app, length_take, Hn, drop_0. f_equal. f_equal. f_equal.
    symmetry. apply take_ge. rewrite length_drop. lia. }
  pose proof (le_num_bound (take 8 (drop 0 s)) ltac:(by apply Forall_take, Forall_drop)) as B0.
  pose proof (le_num_bound (take 8 (drop 8 s)) ltac:(by apply Forall_take, Forall_drop)) as B1.
  rewrite length_take, length_drop, Hn in B0, B1. simpl Z.of_nat in B0, B1. change (8 * 8) with 64 in *.
  revert B0 B1. generalize (le_num (take 8 (drop 0 s))) (le_num (take 8 (drop 8 s))). intros s0 s1 B0 B1.
  destruct h as [h0 h1 h2 h3 h4]. unfold val. cbn [l0 l1 l2 l3 l4] in *. clear s Hs Hn.
  assert (forall k m x, 0 <= k -> 0 <= m -> k + m = 64 -> u64 (Z.shiftl x k) = 2 ^ k * (x mod 2 ^ m)) as Hu.
  { intros k m x Hk Hm E. unfold u64. rewrite <- E, Z.shiftl_mul_pow2, Z.pow_add_r, (Z.mul_comm x), Z.mul_mod_distr_l by lia. done. }
  assert (forall x y k, 0 <= k -> 0 <= x < 2 ^ k -> Z.lor x (2 ^ k * y) = x + 2 ^ k * y) as Hlor.
  { intros x y k Hk Hx. rewrite (Z.mul_comm (2 ^ k)), <- Z.shiftl_mul_pow2 by lia. rewrite lor_add by lia. by rewrite Z.shiftl_mul_pow2, Z.mul_comm by lia. }
  rewrite (Hu 26 38), (Hu 52 12), (Hu 14 50), (Hu 40 24), shiftr_div by lia.
  rewrite (Z.mod_small h1), (Z.mod_small h3) by lia.
  pose proof (Z.mod_pos_bound h2 (2 ^ 12) ltac:(lia)) as M2. pose proof (Z.mod_pos_bound h4 (2 ^ 24) ltac:(lia)) as M4.
  pose proof (Z.div_mod h2 (2 ^ 12) ltac:(lia)) as D2. pose proof (Z.div_mod h4 (2 ^ 24) ltac:(lia)) as D4.
  revert M2 M4 D2 D4. generalize (h2 mod 2 ^ 12) (h2 / 2 ^ 12) (h4 mod 2 ^ 24) (h4 / 2 ^ 24). intros r2 q2 r4 q4 M2 M4 D2 D4.
  rewrite (Hlor h0), (Hlor (h0 + _)), (Hlor q2), (Hlor (q2 + _)) by lia.
  rewrite !le64_bytes_num.
  rewrite add128 by lia. f_equal. rewrite <- (Z.mod_add _ q4) by lia. f_equal. lia.
Qed.

(** ** The key *)

Definition clampBytes : list Z := [255; 255; 255; 15; 252; 255; 255; 15; 252; 255; 255; 15; 252; 255; 255; 15].

Lemma clamp_spec key : Forall byte key -> length key = 32%nat ->
  Forall byte (clamp key) /\ length (clamp key) = 16%nat /\ le_num (clamp key) = Z.land (le_num (take 16 key)) clampMask.
Proof.
  intros Hk Hn. assert (Forall byte (take 16 key)) as Ht by by apply Forall_take.
  assert (length (take 16 key) = 16%nat) as Hl by (rewrite length_take; lia).
  assert (Forall byte clampBytes) as Hc by (repeat constructor; done).
  assert (clamp key = zip_with Z.land (take 16 key) clampBytes) as ->.
  { unfold clamp. revert Ht Hl. generalize (take 16 key). clear. intros l Ht Hl.
    do 16 (destruct l as [|? l]; [done|]). destruct l; [|done].
    repeat match goal with H : Forall _ (_ :: _) |- _ => apply Forall_cons in H; destruct H as [? H] end.
    assert (forall b, byte b -> Z.land b 255 = b) as E.
    { intros b Hb. change 255 with (Z.ones 8). rewrite Z.land_ones by lia. by apply Z.mod_small. }
    unfold clampBytes. cbn [zip_with]. by rewrite !E by done. }
  split_and!.
  - apply Forall_lookup_2. intros i x Hx. apply lookup_zip_with_Some in Hx as (b & m & -> & Hb & Hm).
    apply (land_bound b m 8); [done|]. exact (Forall_lookup_1 _ _ _ _ Ht Hb).
  - rewrite length_zip_with_l; [done|]. rewrite Hl. done.
  - by rewrite le_num_land.
Qed.

(** ** The loop *)

Lemma polyLoop_spec r n h a msg : within (2 ^ 26) (2 ^ 26) (2 ^ 24) r -> Forall byte msg -> (length msg <= n)%nat ->
  acc_ok h -> val h mod P1305 = a mod P1305 ->
  let h' := polyLoop n r (times5 r) h msg in
  acc_ok h' /\ val h' mod P1305 =
    foldl (fun a b => (a + (le_num b + padCode (length b))) * val r mod P1305) a (chunks16 n msg) mod P1305.
Proof.
  intros Hr. revert h a msg. induction n as [|n IH]; intros h a msg Hm Hn Hh E; cbn [polyLoop chunks16]; [done|].
  case_goal; [done|]. apply Nat.eqb_neq in Heqb. cbn [foldl].
  assert (Forall byte (take 16 msg)) as Ht by by apply Forall_take.
  destruct (addBlock_spec h (take 16 msg) Hh Ht) as [Ea Wa]; [rewrite length_take; lia|].
  destruct (mulR_spec _ r Wa Hr) as [Em%congr_mod Wm]. destruct (carry_spec _ Wm) as [Ec%congr_mod Wc].
  apply IH; [by apply Forall_drop|rewrite length_drop; lia|done|].
  unfold polyStep. rewrite Ec, Em, Ea, Zmod_mod, <- Z.add_assoc.
  rewrite <- Zmult_mod_idemp_l, <- Zplus_mod_idemp_l, E, Zplus_mod_idemp_l, Zmult_mod_idemp_l. done.
Qed.

Lemma poly1305_mac_spec key msg : Forall byte key -> length key = 32%nat -> Forall byte msg ->
  poly1305_mac key msg = poly1305_spec padCode key msg.
Proof.
  intros Hk Hn Hm. destruct (clamp_spec key Hk Hn) as (Hc & Lc & Ec). unfold poly1305_mac, poly1305_spec.
  destruct (split26_spec (clamp key) Hc ltac:(lia)) as [Er Wr]. rewrite take_ge, Ec in Er by lia.
  destruct (polyLoop_spec _ (length msg) (Limbs 0 0 0 0 0) 0 msg Wr Hm ltac:(lia)) as [Hh E]; [by constructor|done|].
  set (h := polyLoop _ _ _ _ _) in *. destruct (carryFinal_spec h Hh) as [Ef%congr_mod Wf].
  destruct (subP_spec _ Wf) as [Es Ws].
  rewrite tagOf_spec, Es, Ef, E, Er; [|done|by apply Forall_take, Forall_drop|rewrite length_take, length_drop; lia].
  f_equal. f_equal. f_equal. apply Z.mod_small. destruct (chunks16 _ _); [done|]. simpl foldl.
  apply (foldl_inv (fun x => 0 <= x < P1305)); [by apply Z.mod_pos_bound|]. intros. by apply Z.mod_pos_bound.
Qed.

(** Up to 15 bytes no block is full and the two paddings agree. *)
Lemma spec_short key msg : (length msg < 16)%nat -> poly1305_spec padCode key msg = poly1305_spec padRFC key msg.
Proof.
  intros Hm. unfold poly1305_spec. destruct msg as [|b msg]; [done|]. cbn [length chunks16 Nat.eqb].
  rewrite (take_ge (b :: msg)), (drop_ge (b :: msg)) by (simpl in *; lia). replace (chunks16 (length msg) []) with (@nil (list Z)) by by destruct msg.
  cbn [foldl]. unfold padCode at 1. rewrite (proj2 (Nat.eqb_neq _ _)) by (simpl in *; lia). done.
Qed.

(** A tag has 16 bytes, whatever the key. *)
Lemma length_mac key msg : length (poly1305_mac key msg) = 16%nat.
Proof. done. Qed.

Lemma mac_bytes key msg : Forall byte (poly1305_mac key msg).
Proof. unfold poly1305_mac, tagOf. rewrite !le64_bytes_num. apply Forall_app. split; apply le_bytes_byte. Qed.

(** The key and message of RFC 8439, section 2.5.2. *)
Definition rfc_key : list Z := le_bytes 32 0x1bf54941aff6bf4afdb20dfb8a800301a806d542fe52447f336d555778bed685.
Definition rfc_msg : list Z := le_bytes 34 0x70756f7247206863726165736552206d75726f4620636968706172676f7470797243.

(** C33: [poly1305_mac] computes, in five 64-bit limbs without overflow, the
    number ((sum of the padded blocks times powers of r) mod 2^130 - 5) + s mod
    2^128, with the bit that pads a full block at 2^122.  RFC 8439 puts that
    bit at 2^128: the tags agree for every message shorter than 16 bytes, and
    differ on the RFC's own test vector. *)
Theorem poly1305_tag key msg : Forall byte key -> length key = 32%nat -> Forall byte msg ->
  poly1305_mac key msg = poly1305_spec padCode key msg /\
  ((length msg < 16)%nat -> poly1305_mac key msg = poly1305_spec padRFC key msg) /\
  poly1305_mac rfc_key rfc_msg <> poly1305_spec padRFC rfc_key rfc_msg.
Proof.
  intros Hk Hn Hm. pose proof (poly1305_mac_spec key msg Hk Hn Hm) as E.
  split_and!; [done|intros; by rewrite E, spec_short|by vm_compute].
Qed.

(** The RFC's tag of that message, from the reference definition. *)
Example rfc_tag : poly1305_spec padRFC rfc_key rfc_msg = le_bytes 16 0xa927010caf8b2bc2c6365130c11d06a8.
Proof. vm_compute. reflexivity. Qed.

Lemma poly1305_tag_witness :
  Forall byte rfc_key /\ poly1305_mac rfc_key (take 15 rfc_msg) = poly1305_spec padRFC rfc_key (take 15 rfc_msg).
Proof.
  assert (Forall byte rfc_key) as Hk by apply le_bytes_byte. split; [exact Hk|].
  refine (proj1 (proj2 (poly1305_tag rfc_key (take 15 rfc_msg) Hk _ _)) _).
  - vm_compute. reflexivity.
  - apply Forall_take, le_bytes_byte.
  - vm_compute. lia.
Defined.
End Poly1305.
