(* ===== verification/ChaCha20.v ===== *)
(** * ChaCha20 and the authenticated encryption

    Model of the ChaCha20 cipher and of [chacha20_poly1305_encrypt] and
    [chacha20_poly1305_decrypt] in src/advanced/secure_channel_crypto.cpp.  The
    state is the array of sixteen 32-bit words, updated in place by the
    quarter rounds; the reference definition works on four rows at a time. *)

From S2P Require Import Prelude Bytes Words Poly1305.

Module ChaCha20.
Import Bytes Words Poly1305.

(** [s[a] += s[b]], [s[d] ^= s[a]], [s[d] = (s[d] << n) | (s[d] >> (32 - n))] *)
Definition addTo (s : list Z) (a b : nat) : list Z := <[a := u32 (coef s a + coef s b)]> s.
Definition xorTo (s : list Z) (d a : nat) : list Z := <[d := Z.lxor (coef s d) (coef s a)]> s.
Definition rotAt (s : list Z) (d : nat) (n : Z) : list Z := <[d := rotl32 (coef s d) n]> s.

Definition qr (s : list Z) (a b c d : nat) : list Z :=
  let s := rotAt (xorTo (addTo s a b) d a) d 16 in
  let s := rotAt (xorTo (addTo s c d) b c) b 12 in
  let s := rotAt (xorTo (addTo s a b) d a) d 8 in
  rotAt (xorTo (addTo s c d) b c) b 7.

Definition doubleRound (s : list Z) : list Z :=
  let s := qr (qr (qr (qr s 0 4 8 12) 1 5 9 13) 2 6 10 14) 3 7 11 15 in
  qr (qr (qr (qr s 0 5 10 15) 1 6 11 12) 2 7 8 13) 3 4 9 14.

Definition initState (key : list Z) (counter : Z) (nonce : list Z) : list Z :=
  [0x61707865; 0x3320646e; 0x79622d32; 0x6b206574] ++ ((fun i => coef key i) <$> seq 0 8) ++ counter :: ((fun i => coef nonce i) <$> seq 0 3).

Definition chacha20_block (key : list Z) (counter : Z) (nonce : list Z) : list Z :=
  let x := initState key counter nonce in
  let s := Nat.iter 10 doubleRound x in
  seq 0 16 ≫= fun i => le32_bytes (u32 (coef s i + coef x i)).

(** The words of the key and of the nonce. *)
Definition loadWords (n : nat) (b : list Z) : list Z := (fun i => le32 b (i * 4)) <$> seq 0 n.

(** [while (pos < len)]: at most one block per byte. *)
Fixpoint xorLoop (fuel : nat) (k n : list Z) (counter : Z) (inp : list Z) : list Z :=
  match fuel with
  | O => []
  | S fuel =>
      if (length inp =? 0)%nat then [] else
      zip_with Z.lxor (take 64 inp) (chacha20_block k counter n) ++ xorLoop fuel k n (u32 (counter + 1)) (drop 64 inp)
  end.

Definition chacha20_xor (key nonce : list Z) (counter : Z) (inp : list Z) : list Z :=
  xorLoop (length inp) (loadWords 8 key) (loadWords 3 nonce) counter inp.

(** The one-time key: block 0 of the keystream. *)
Definition poly_key (key nonce : list Z) : list Z := chacha20_block (loadWords 8 key) 0 (loadWords 3 nonce).

Definition chacha20_poly1305_encrypt (key nonce plain : list Z) : list Z :=
  let cipher := chacha20_xor key nonce 1 plain in
  cipher ++ poly1305_mac (take 32 (poly_key key nonce)) cipher.

(** [diff |= a[i] ^ b[i]] over the array, then [diff == 0]. *)
Definition tagEqual (a b : list Z) : bool :=
  foldl (fun diff i => Z.lor diff (Z.lxor (coef a i) (coef b i))) 0 (seq 0 16) =? 0.

Definition chacha20_poly1305_decrypt (key nonce cipher_with_tag : list Z) : option (list Z) :=
  let totalLen := length cipher_with_tag in
  if (totalLen <? 16)%nat then None else
  let cipherLen := (totalLen - 16)%nat in
  let ciphertext := take cipherLen cipher_with_tag in
  let tag_in := drop cipherLen cipher_with_tag in
  let tag_computed := poly1305_mac (take 32 (poly_key key nonce)) ciphertext in
  if negb (tagEqual tag_computed tag_in) then None else Some (chacha20_xor key nonce 1 ciphertext).

(** ** The cipher by rows

    RFC 8439 seen as four rows of four words: a quarter round acts on whole
    rows, and the diagonal round rotates the rows before and after. *)

Record rows := Rows { ra : list Z; rb : list Z; rc : list Z; rd : list Z }.

Definition addRow (x y : list Z) : list Z := zip_with (fun a b => u32 (a + b)) x y.
Definition xorRotRow (n : Z) (x y : list Z) : list Z := zip_with (fun a b => rotl32 (Z.lxor a b) n) x y.

Definition quarter (r : rows) : rows :=
  let a := addRow (ra r) (rb r) in let d := xorRotRow 16 (rd r) a in
  let c := addRow (rc r) d in let b := xorRotRow 12 (rb r) c in
  let a := addRow a b in let d := xorRotRow 8 d a in
  let c := addRow c d in let b := xorRotRow 7 b c in
  Rows a b c d.

Definition turn (n : nat) (l : list Z) : list Z := drop n l ++ take n l.

Definition rowRound (r : rows) : rows :=
  let r := quarter r in
  let r := quarter (Rows (ra r) (turn 1 (rb r)) (turn 2 (rc r)) (turn 3 (rd r))) in
  Rows (ra r) (turn 3 (rb r)) (turn 2 (rc r)) (turn 1 (rd r)).

Definition toRows (s : list Z) : rows := Rows (take 4 s) (take 4 (drop 4 s)) (take 4 (drop 8 s)) (drop 12 s).
Definition ofRows (r : rows) : list Z := ra r ++ rb r ++ rc r ++ rd r.

Definition block_spec (key : list Z) (counter : Z) (nonce : list Z) : list Z :=
  let x := initState (loadWords 8 key) counter (loadWords 3 nonce) in
  addRow (ofRows (Nat.iter 10 rowRound (toRows x))) x ≫= le_bytes 4.

(** ** The rounds agree *)

Lemma doubleRound_rows s : length s = 16%nat -> doubleRound s = ofRows (rowRound (toRows s)).
Proof.
  intros Hs. do 16 (destruct s as [|? s]; [discriminate Hs|]). destruct s; [|discriminate Hs].
  cbv -[u32 rotl32 Z.lxor Z.add]. reflexivity.
Qed.

(** Four rows of four words. *)
Definition rows_ok (r : rows) : Prop :=
  length (ra r) = 4%nat /\ length (rb r) = 4%nat /\ length (rc r) = 4%nat /\ length (rd r) = 4%nat.

Lemma quarter_ok r : rows_ok r -> rows_ok (quarter r).
Proof.
  intros (Ha & Hb & Hc & Hd). unfold quarter, addRow, xorRotRow, rows_ok. cbn [ra rb rc rd].
  by rewrite !length_zip_with, Ha, Hb, Hc, Hd.
Qed.

Lemma length_turn n l : length (turn n l) = length l.
Proof. unfold turn. rewrite length_app, length_drop, length_take. lia. Qed.

Lemma rowRound_ok r : rows_ok r -> rows_ok (rowRound r).
Proof.
  intros (Ha & Hb & Hc & Hd)%quarter_ok. unfold rowRound.
  edestruct (quarter_ok (Rows (ra (quarter r)) (turn 1 (rb (quarter r))) (turn 2 (rc (quarter r))) (turn 3 (rd (quarter r)))))
    as (Ha' & Hb' & Hc' & Hd'); [by unfold rows_ok; cbn [ra rb rc rd]; rewrite !length_turn|].
  unfold rows_ok. cbn [ra rb rc rd]. by rewrite !length_turn.
Qed.

Lemma toRows_ok s : length s = 16%nat -> rows_ok (toRows s).
Proof. intros Hs. unfold rows_ok, toRows. cbn [ra rb rc rd]. rewrite !length_take, !length_drop, Hs. done. Qed.

Lemma to_ofRows r : rows_ok r -> toRows (ofRows r) = r.
Proof.
  intros (Ha & Hb & Hc & Hd). destruct r as [a b c d]. cbn [ra rb rc rd] in *. unfold toRows, ofRows. cbn [ra rb rc rd].
  assert (drop 4 (a ++ b ++ c ++ d) = b ++ c ++ d) as D4 by by apply drop_app_exact.
  assert (drop 8 (a ++ b ++ c ++ d) = c ++ d) as D8.
  { rewrite <- (drop_drop _ 4 4), D4. by apply drop_app_exact. }
  assert (drop 12 (a ++ b ++ c ++ d) = d) as ->.
  { rewrite <- (drop_drop _ 4 8), D8. by apply drop_app_exact. }
  by rewrite D4, D8, !take_app_exact.
Qed.

Lemma length_ofRows r : rows_ok r -> length (ofRows r) = 16%nat.
Proof. intros (Ha & Hb & Hc & Hd). unfold ofRows. rewrite !length_app. lia. Qed.

Lemma of_toRows s : length s = 16%nat -> ofRows (toRows s) = s.
Proof.
  intros Hs. unfold ofRows, toRows. cbn [ra rb rc rd]. rewrite <- (take_drop 4 s) at 5. f_equal.
  rewrite <- (take_drop 4 (drop 4 s)) at 2. f_equal. rewrite drop_drop.
  rewrite <- (take_drop 4 (drop (4 + 4) s)). by rewrite drop_drop.
Qed.

Lemma iter_rows n s : length s = 16%nat ->
  Nat.iter n doubleRound s = ofRows (Nat.iter n rowRound (toRows s)) /\ rows_ok (Nat.iter n rowRound (toRows s)).
Proof.
  intros Hs. induction n as [|n [IH Hr]]; [split; [symmetry; by apply of_toRows|by apply toRows_ok]|]. cbn [Nat.iter nat_rect].
  split; [|by apply rowRound_ok].
  change (doubleRound (Nat.iter n doubleRound s) = ofRows (rowRound (Nat.iter n rowRound (toRows s)))).
  rewrite IH, doubleRound_rows by by apply length_ofRows. by rewrite to_ofRows.
Qed.

Lemma bind_seq_zip (f : Z -> list Z) (g : Z -> Z -> Z) l1 l2 n : length l1 = n -> length l2 = n ->
  (seq 0 n ≫= fun i => f (g (coef l1 i) (coef l2 i))) = zip_with g l1 l2 ≫= f.
Proof.
  revert l1 l2. induction n as [|n IH]; intros [|x l1] [|y l2] H1 H2; try done.
  cbn [seq zip_with mbind list_bind]. f_equal. rewrite bind_shift. apply (IH l1 l2); simpl in *; lia.
Qed.

Lemma length_chacha_block k c n : length (chacha20_block k c n) = 64%nat.
Proof. unfold chacha20_block. by rewrite (length_chunks _ 4). Qed.

Lemma chacha20_block_spec key c nonce : chacha20_block (loadWords 8 key) c (loadWords 3 nonce) = block_spec key c nonce.
Proof.
  unfold chacha20_block, block_spec. set (x := initState _ _ _). assert (length x = 16%nat) as Hx by done. clearbody x.
  destruct (iter_rows 10 x Hx) as [E Hr]. rewrite <- E. apply length_ofRows in Hr. rewrite <- E in Hr. unfold addRow.
  rewrite (bind_seq_zip le32_bytes (fun a b => u32 (a + b)) _ _ 16) by done.
  apply list_bind_ext; [|done]. intros v. apply le32_bytes_num.
Qed.

(** ** The stream *)

Lemma xorLoop_spec fuel k n c inp : (length inp <= fuel)%nat -> 0 <= c < 2 ^ 32 ->
  length (xorLoop fuel k n c inp) = length inp /\
  forall i, (i < length inp)%nat -> coef (xorLoop fuel k n c inp) i =
    Z.lxor (coef inp i) (coef (chacha20_block k (u32 (c + Z.of_nat (i / 64))) n) (i mod 64)).
Proof.
  revert c inp. induction fuel as [|fuel IH]; intros c inp Hf Hc.
  { destruct inp; [|simpl in Hf; lia]. split; [done|intros i Hi; simpl in Hi; lia]. }
  cbn [xorLoop]. destruct (length inp =? 0)%nat eqn:E0.
  { apply Nat.eqb_eq, length_zero_iff_nil in E0 as ->. split; [done|simpl; lia]. }
  apply Nat.eqb_neq in E0.
  destruct (IH (u32 (c + 1)) (drop 64 inp)) as [IHl IHc]; [rewrite length_drop; lia|apply u32_bound|].
  assert (length (zip_with Z.lxor (take 64 inp) (chacha20_block k c n)) = Nat.min 64 (length inp)) as Lz.
  { rewrite length_zip_with, length_take, length_chacha_block. lia. }
  split; [rewrite length_app, IHl, Lz, length_drop; lia|]. intros i Hi.
  destruct (decide (i < 64)%nat) as [Hlt|Hge].
  - rewrite coef_app_l by lia. rewrite Nat.div_small, Nat.mod_small, Z.add_0_r, u32_small by lia.
    rewrite coef_zip_lt by (rewrite ?length_take, ?length_chacha_block; lia). by rewrite coef_take.
  - rewrite (coef_app_r' _ _ i (i - 64)) by lia. rewrite IHc, coef_drop by (rewrite length_drop; lia).
    replace (64 + (i - 64))%nat with i by lia.
    assert (i / 64 = 1 + (i - 64) / 64)%nat as -> by (rewrite <- (Nat.div_add_l 1 64) by lia; f_equal; lia).
    assert (i mod 64 = (i - 64) mod 64)%nat as -> by (rewrite <- (Nat.Div0.mod_add (i - 64) 1 64); f_equal; lia).
    assert (u32 (u32 (c + 1) + Z.of_nat ((i - 64) / 64)) = u32 (c + Z.of_nat (1 + (i - 64) / 64))) as ->; [|reflexivity].
    unfold u32. rewrite Zplus_mod_idemp_l. f_equal. lia.
Qed.

Lemma length_xor key nonce c inp : 0 <= c < 2 ^ 32 -> length (chacha20_xor key nonce c inp) = length inp.
Proof. intros. by apply xorLoop_spec. Qed.

(** Encryption and decryption are one operation. *)
Lemma xor_involutive key nonce c inp : 0 <= c < 2 ^ 32 -> chacha20_xor key nonce c (chacha20_xor key nonce c inp) = inp.
Proof.
  intros Hc. unfold chacha20_xor. destruct (xorLoop_spec (length inp) (loadWords 8 key) (loadWords 3 nonce) c inp) as [L1 C1]; [done..|].
  destruct (xorLoop_spec (length inp) (loadWords 8 key) (loadWords 3 nonce) c (xorLoop (length inp) (loadWords 8 key) (loadWords 3 nonce) c inp)) as [L2 C2]; [by rewrite L1|done|].
  rewrite !L1 in *. apply coef_ext; [done|]. intros i Hi. rewrite L2 in Hi. rewrite C2, C1 by done.
  by rewrite Z.lxor_assoc, Z.lxor_nilpotent, Z.lxor_0_r.
Qed.

(** ** The tag comparison *)

Lemma tagEqual_iff a b : length a = 16%nat -> length b = 16%nat -> tagEqual a b = true <-> a = b.
Proof.
  intros Ha Hb. unfold tagEqual. rewrite Z.eqb_eq, lor_fold_zero, Forall_forall. split.
  - intros [_ H]. apply coef_ext; [by rewrite Ha|]. intros i Hi. apply Z.lxor_eq, H, elem_of_seq. lia.
  - intros ->. split; [done|]. intros. apply Z.lxor_nilpotent.
Qed.

(** [chacha20_xor] combines byte i of the input with byte i mod 64 of the
    RFC 8439 keystream block numbered counter + i / 64 (modulo 2^32), and keeps
    the length; the in-place quarter rounds compute the block function. *)
Theorem chacha20_stream key nonce counter inp : 0 <= counter < 2 ^ 32 ->
  length (chacha20_xor key nonce counter inp) = length inp /\
  forall i, (i < length inp)%nat -> coef (chacha20_xor key nonce counter inp) i =
    Z.lxor (coef inp i) (coef (block_spec key (u32 (counter + Z.of_nat (i / 64))) nonce) (i mod 64)).
Proof.
  intros Hc. destruct (xorLoop_spec (length inp) (loadWords 8 key) (loadWords 3 nonce) counter inp) as [L C]; [done..|].
  split; [exact L|]. intros i Hi. rewrite <- chacha20_block_spec. by apply C.
Qed.

(** The key and nonce of RFC 8439, section 2.3.2, and the words its block
    function gives for counter 1. *)
Definition rfc_chacha_key : list Z := Z.of_nat <$> seq 0 32.
Definition rfc_nonce : list Z := [0; 0; 0; 9; 0; 0; 0; 74; 0; 0; 0; 0].

Example rfc_block : (fun i => le32 (block_spec rfc_chacha_key 1 rfc_nonce) (4 * i)) <$> seq 0 4 =
  [0xe4e7f110; 0x15593bd1; 0x1fdd0f50; 0xc47120a3].
Proof. vm_compute. reflexivity. Qed.

Lemma chacha20_stream_witness :
  0 <= 2 ^ 32 - 1 < 2 ^ 32 /\
  coef (chacha20_xor rfc_chacha_key rfc_nonce (2 ^ 32 - 1) (replicate 70 1)) 65 = Z.lxor 1 (coef (block_spec rfc_chacha_key 0 rfc_nonce) 1).
Proof.
  assert (0 <= 2 ^ 32 - 1 < 2 ^ 32) as Hc by lia. split; [exact Hc|].
  exact (proj2 (chacha20_stream rfc_chacha_key rfc_nonce (2 ^ 32 - 1) (replicate 70 1) Hc) 65%nat ltac:(rewrite length_replicate; lia)).
Defined.

(** C34: [chacha20_poly1305_decrypt] accepts exactly the outputs of
    [chacha20_poly1305_encrypt]: it returns a plaintext if and only if the
    message is the encryption of that plaintext under the same key and nonce.
    Every other message, in particular one of fewer than 16 bytes, is rejected. *)
Theorem aead_exact key nonce msg plain :
  chacha20_poly1305_decrypt key nonce msg = Some plain <-> msg = chacha20_poly1305_encrypt key nonce plain.
Proof.
  unfold chacha20_poly1305_decrypt, chacha20_poly1305_encrypt. split.
  - case_goal; [done|]. apply Nat.ltb_ge in Heqb. case_goal; [done|]. apply negb_false_iff in Heqb0.
    apply tagEqual_iff in Heqb0; [|apply length_mac|rewrite length_drop; lia]. intros [= <-].
    rewrite xor_involutive by done. rewrite Heqb0. symmetry. apply take_drop.
  - intros ->. set (cipher := chacha20_xor key nonce 1 plain). rewrite length_app, length_mac.
    rewrite (proj2 (Nat.ltb_ge _ _)) by lia. rewrite Nat.add_sub, take_app_length, drop_app_length.
    rewrite (proj2 (tagEqual_iff _ _ (length_mac _ _) (length_mac _ _)) eq_refl). simpl. unfold cipher. by rewrite xor_involutive.
Qed.

End ChaCha20.
