(* ===== verification/Sha256.v ===== *)
(** * SHA-256, HMAC, PBKDF2 and HKDF

    Model of the hashing part of src/advanced/secure_channel_crypto.cpp: the
    streaming SHA-256 context with its 64-byte buffer and 64-bit bit counter,
    HMAC, PBKDF2 with its cached contexts, HKDF and the constant-time
    comparison.  The reference definitions hash a padded message in one fold. *)

From S2P Require Import Prelude Bytes Words.

Module Sha256.
Import Bytes Words.

(** ** The compression function *)

(** The table of the code, in decimal. *)
Definition K256 : list Z := [
  1116352408; 1899447441; 3049323471; 3921009573; 961987163; 1508970993; 2453635748; 2870763221;
  3624381080; 310598401; 607225278; 1426881987; 1925078388; 2162078206; 2614888103; 3248222580;
  3835390401; 4022224774; 264347078; 604807628; 770255983; 1249150122; 1555081692; 1996064986;
  2554220882; 2821834349; 2952996808; 3210313671; 3336571891; 3584528711; 113926993; 338241895;
  666307205; 773529912; 1294757372; 1396182291; 1695183700; 1986661051; 2177026350; 2456956037;
  2730485921; 2820302411; 3259730800; 3345764771; 3516065817; 3600352804; 4094571909; 275423344;
  430227734; 506948616; 659060556; 883997877; 958139571; 1322822218; 1537002063; 1747873779;
  1955562222; 2024104815; 2227730452; 2361852424; 2428436474; 2756734187; 3204031479; 3329325298].

Definition not32 (x : Z) : Z := Z.lxor x 0xffffffff.
Definition ch (x y z : Z) : Z := Z.lxor (Z.land x y) (Z.land (not32 x) z).
Definition maj (x y z : Z) : Z := Z.lxor (Z.lxor (Z.land x y) (Z.land x z)) (Z.land y z).
Definition sigma0 (x : Z) : Z := Z.lxor (Z.lxor (rotr32 x 2) (rotr32 x 13)) (rotr32 x 22).
Definition sigma1 (x : Z) : Z := Z.lxor (Z.lxor (rotr32 x 6) (rotr32 x 11)) (rotr32 x 25).
Definition gamma0 (x : Z) : Z := Z.lxor (Z.lxor (rotr32 x 7) (rotr32 x 18)) (Z.shiftr x 3).
Definition gamma1 (x : Z) : Z := Z.lxor (Z.lxor (rotr32 x 17) (rotr32 x 19)) (Z.shiftr x 10).

(** [W[0 .. 63]], one word appended per step. *)
Definition schedule (block : list Z) : list Z :=
  foldl (fun W i => W ++ [u32 (gamma1 (coef W (i - 2)) + coef W (i - 7) + gamma0 (coef W (i - 15)) + coef W (i - 16))])
    ((fun i => be32 block (i * 4)) <$> seq 0 16) (seq 16 48).

(** The working variables [a ... h]. *)
Record vars := Vars { va : Z; vb : Z; vc : Z; vd : Z; ve : Z; vf : Z; vg : Z; vh : Z }.

Definition round (W : list Z) (v : vars) (i : nat) : vars :=
  let t1 := u32 (vh v + sigma1 (ve v) + ch (ve v) (vf v) (vg v) + coef K256 i + coef W i) in
  let t2 := u32 (sigma0 (va v) + maj (va v) (vb v) (vc v)) in
  Vars (u32 (t1 + t2)) (va v) (vb v) (vc v) (u32 (vd v + t1)) (ve v) (vf v) (vg v).

Definition loadVars (s : list Z) : vars :=
  Vars (coef s 0) (coef s 1) (coef s 2) (coef s 3) (coef s 4) (coef s 5) (coef s 6) (coef s 7).

Definition sha256_transform (state block : list Z) : list Z :=
  let W := schedule block in
  let v := foldl (round W) (loadVars state) (seq 0 64) in
  zip_with (fun s x => u32 (s + x)) state [va v; vb v; vc v; vd v; ve v; vf v; vg v; vh v].

(** ** The context *)

Record SHA256Context := Ctx { state : list Z; bitcount : Z; buffer : list Z }.

Definition initState : list Z := [1779033703; 3144134277; 1013904242; 2773480762; 1359893119; 2600822924; 528734635; 1541459225].

Definition sha256_init : SHA256Context := Ctx initState 0 (replicate 64 0).

(** [memcpy(l + off, src, ...)] inside the array. *)
Definition memcpyAt (l : list Z) (off : nat) (src : list Z) : list Z := take off l ++ src ++ drop (off + length src) l.

(** [(ctx.bitcount >> 3) & 63] *)
Definition bufferFill (ctx : SHA256Context) : nat := Z.to_nat (Z.land (Z.shiftr (bitcount ctx) 3) 63).

(** Whole blocks straight from the input; [fuel] bounds them. *)
Fixpoint blockLoop (fuel : nat) (st data : list Z) : list Z * list Z :=
  match fuel with
  | O => (st, data)
  | S fuel => if (64 <=? length data)%nat then blockLoop fuel (sha256_transform st (take 64 data)) (drop 64 data) else (st, data)
  end.

Definition absorbRest (st : list Z) (bits : Z) (buf data : list Z) : SHA256Context :=
  let '(st, rest) := blockLoop (length data) st data in
  Ctx st bits (if (0 <? length rest)%nat then memcpyAt buf 0 rest else buf).

Definition sha256_update (ctx : SHA256Context) (data : list Z) : SHA256Context :=
  let fill := bufferFill ctx in
  let bits := u64 (bitcount ctx + u64 (Z.shiftl (Z.of_nat (length data)) 3)) in
  if (0 <? fill)%nat then
    let need := (64 - fill)%nat in
    let n := Nat.min need (length data) in
    let buf := memcpyAt (buffer ctx) fill (take n data) in
    if (fill + n <? 64)%nat then Ctx (state ctx) bits buf
    else absorbRest (sha256_transform (state ctx) buf) bits buf (drop n data)
  else absorbRest (state ctx) bits (buffer ctx) data.

(** The bit length, most significant byte first. *)
Definition be64_bytes (z : Z) : list Z := (fun i => u8 (Z.shiftr z (56 - Z.of_nat i * 8))) <$> seq 0 8.

Definition digestOf (st : list Z) : list Z := seq 0 8 ≫= fun i => be32_bytes (coef st i).

(** The digest; the context is wiped. *)
Definition sha256_final (ctx : SHA256Context) : list Z * SHA256Context :=
  let fill := bufferFill ctx in
  let buf := <[fill := 0x80]> (buffer ctx) in
  let fill := S fill in
  let '(st, buf, fill) :=
    if (56 <? fill)%nat then
      let buf := memcpyAt buf fill (replicate (64 - fill) 0) in (sha256_transform (state ctx) buf, buf, 0%nat)
    else (state ctx, buf, fill) in
  let buf := memcpyAt buf fill (replicate (56 - fill) 0) in
  let buf := memcpyAt buf 56 (be64_bytes (bitcount ctx)) in
  (digestOf (sha256_transform st buf), Ctx (replicate 8 0) 0 (replicate 64 0)).

Definition sha256 (data : list Z) : list Z := (sha256_final (sha256_update sha256_init data)).1.

(** ** HMAC, PBKDF2 and HKDF *)

Definition keyBlock (key : list Z) : list Z :=
  memcpyAt (replicate 64 0) 0 (if (64 <? length key)%nat then sha256 key else key).
Definition padKey (m : Z) (key : list Z) : list Z := (fun b => Z.lxor b m) <$> keyBlock key.

Definition hmac_sha256 (key data : list Z) : list Z :=
  let innerHash := (sha256_final (sha256_update (sha256_update sha256_init (padKey 0x36 key)) data)).1 in
  (sha256_final (sha256_update (sha256_update sha256_init (padKey 0x5c key)) innerHash)).1.

(** The contexts after the padded key, reused by every call. *)
Definition hmacReuse (innerBase outerBase : SHA256Context) (msg : list Z) : list Z :=
  let inner := (sha256_final (sha256_update innerBase msg)).1 in (sha256_final (sha256_update outerBase inner)).1.

(** [for (iter = 1; iter < iterations; ++iter)] *)
Fixpoint pbkdfIter (n : nat) (hmac : list Z -> list Z) (U T : list Z) : list Z :=
  match n with
  | O => T
  | S n => let U := hmac U in pbkdfIter n hmac U (zip_with Z.lxor T U)
  end.

(** One block of output per round, 32 bytes or what is left. *)
Fixpoint pbkdfLoop (fuel : nat) (hmac : list Z -> list Z) (salt : list Z) (iterations blockIndex : Z) (left : nat) : list Z :=
  match fuel with
  | O => []
  | S fuel =>
      if (left =? 0)%nat then [] else
      let U := hmac (salt ++ be32_bytes blockIndex) in
      let T := pbkdfIter (Z.to_nat (iterations - 1)) hmac U U in
      let copyLen := Nat.min left 32 in
      take copyLen T ++ pbkdfLoop fuel hmac salt iterations (u32 (blockIndex + 1)) (left - copyLen)
  end.

Definition pbkdf2_sha256 (password salt : list Z) (iterations : Z) (derivedKeyLen : nat) : list Z :=
  let innerBase := sha256_update sha256_init (padKey 0x36 password) in
  let outerBase := sha256_update sha256_init (padKey 0x5c password) in
  pbkdfLoop derivedKeyLen (hmacReuse innerBase outerBase) salt iterations 1 derivedKeyLen.

Definition hkdf_sha256_extract (salt ikm : list Z) : list Z := hmac_sha256 salt ikm.
Definition hkdf_sha256_expand (prk info : list Z) : list Z := hmac_sha256 prk (info ++ [0x01]).

(** "VGRE-session-key" *)
Definition kSalt : list Z := [86; 71; 82; 69; 45; 115; 101; 115; 115; 105; 111; 110; 45; 107; 101; 121].

Definition derive_session_key_from_dh (sharedSecret : list Z) : list Z :=
  hkdf_sha256_expand (hkdf_sha256_extract kSalt sharedSecret) [].

Definition secure_compare (a b : list Z) (len : nat) : bool :=
  foldl (fun diff i => Z.lor diff (Z.lxor (coef a i) (coef b i))) 0 (seq 0 len) =? 0.

(** ** FIPS 180-4 *)

Definition word (x : Z) : Prop := 0 <= x < 2 ^ 32.

(** Rotation as arithmetic, choice and majority bit by bit. *)
Definition ROTR (n x : Z) : Z := (x / 2 ^ n + 2 ^ (32 - n) * x) mod 2 ^ 32.
Definition SHR (n x : Z) : Z := x / 2 ^ n.

(** The fractional parts of roots of primes, 32 bits of them; [croot] is the
    integer cube root, found bit by bit from bit [n - 1]. *)
Fixpoint croot (n : nat) (acc x : Z) : Z :=
  match n with
  | O => acc
  | S n => let a := acc + 2 ^ Z.of_nat n in croot n (if a * a * a <=? x then a else acc) x
  end.
Definition primes : list Z := filter (fun p => forallb (fun d => negb (p mod d =? 0)) (Z.of_nat <$> seq 2 (Z.to_nat p - 2)) = true) (Z.of_nat <$> seq 2 310).
Definition K_spec : list Z := (fun p => croot 36 0 (p * 2 ^ 96) mod 2 ^ 32) <$> primes.
Definition IV_spec : list Z := (fun p => Z.sqrt (p * 2 ^ 64) mod 2 ^ 32) <$> take 8 primes.

Lemma constants : K256 = K_spec /\ initState = IV_spec.
Proof. vm_compute. split; reflexivity. Qed.

Section Fips.
Variable M : list Z.   (* a block of 64 bytes *)

(** The message schedule; [n] bounds the recursion. *)
Fixpoint W (n t : nat) : Z :=
  if (t <? 16)%nat then be32 M (t * 4) else
  match n with
  | O => 0
  | S n =>
      (Z.lxor (Z.lxor (ROTR 17 (W n (t - 2))) (ROTR 19 (W n (t - 2)))) (SHR 10 (W n (t - 2))) + W n (t - 7)
       + Z.lxor (Z.lxor (ROTR 7 (W n (t - 15))) (ROTR 18 (W n (t - 15)))) (SHR 3 (W n (t - 15))) + W n (t - 16)) mod 2 ^ 32
  end.

Definition S0 (x : Z) : Z := Z.lxor (Z.lxor (ROTR 2 x) (ROTR 13 x)) (ROTR 22 x).
Definition S1 (x : Z) : Z := Z.lxor (Z.lxor (ROTR 6 x) (ROTR 11 x)) (ROTR 25 x).

(** Bit [i] of [x] chooses between [y] and [z]; the majority of three bits. *)
Definition ofBits (f : Z -> bool) : Z := foldr (fun i a => Z.b2z (f (Z.of_nat i)) * 2 ^ Z.of_nat i + a) 0 (seq 0 32).
Definition Ch (x y z : Z) : Z := ofBits (fun i => if Z.testbit x i then Z.testbit y i else Z.testbit z i).
Definition Maj (x y z : Z) : Z := ofBits (fun i =>
  if Bool.eqb (Z.testbit x i) (Z.testbit y i) then Z.testbit x i else Z.testbit z i).

Definition round_spec (v : vars) (t : nat) : vars :=
  let T1 := vh v + S1 (ve v) + Ch (ve v) (vf v) (vg v) + coef K_spec t + W 64 t in
  let T2 := S0 (va v) + Maj (va v) (vb v) (vc v) in
  Vars ((T1 + T2) mod 2 ^ 32) (va v) (vb v) (vc v) ((vd v + T1) mod 2 ^ 32) (ve v) (vf v) (vg v).

Definition compress_spec (H : list Z) : list Z :=
  let v := foldl round_spec (loadVars H) (seq 0 64) in
  zip_with (fun s x => (s + x) mod 2 ^ 32) H [va v; vb v; vc v; vd v; ve v; vf v; vg v; vh v].
End Fips.

(** A one bit, zeros, and the length in bits modulo 2^64. *)
Definition padding (len : nat) : list Z :=
  0x80 :: replicate ((119 - len mod 64) mod 64) 0 ++ be64_bytes (u64 (8 * Z.of_nat len)).

Definition sha256_spec (msg : list Z) : list Z :=
  digestOf (foldl (fun H M => compress_spec M H) IV_spec (blocks 64 (msg ++ padding (length msg)))).

(** ** The compression function agrees *)

Lemma rotr32_spec n x : 0 < n < 32 -> word x -> rotr32 x n = ROTR n x.
Proof.
  intros Hn Hx. unfold rotr32, ROTR, word in *.
  assert (2 ^ n * 2 ^ (32 - n) = 2 ^ 32) as E by (rewrite <- Z.pow_add_r by lia; f_equal; lia).
  pose proof (Z.pow_pos_nonneg 2 n ltac:(lia) ltac:(lia)). pose proof (Z.pow_pos_nonneg 2 (32 - n) ltac:(lia) ltac:(lia)).
  assert (u32 (Z.shiftl x (32 - n)) = Z.shiftl (x mod 2 ^ n) (32 - n)) as ->.
  { rewrite !Z.shiftl_mul_pow2 by lia. unfold u32. rewrite <- E, Z.mul_mod_distr_r by lia. done. }
  assert (0 <= x / 2 ^ n < 2 ^ (32 - n)).
  { split; [apply Z.div_pos; lia|]. apply Z.div_lt_upper_bound; lia. }
  rewrite shiftr_div, lor_add by lia. pose proof (Z.mod_pos_bound x (2 ^ n) ltac:(lia)).
  apply Z.mod_unique with (x / 2 ^ n); [left; nia|].
  pose proof (Z.div_mod x (2 ^ n) ltac:(lia)) as D. rewrite D at 2. rewrite <- E. ring.
Qed.

Lemma ofBits_spec f x : word x -> (forall i, 0 <= i < 32 -> Z.testbit x i = f i) -> x = ofBits f.
Proof.
  intros Hx Hf. unfold ofBits. change 32 with (Z.of_nat 32) in *. revert Hf.
  assert (forall n k y, 0 <= y < 2 ^ Z.of_nat n -> (forall i, 0 <= i < Z.of_nat n -> Z.testbit y i = f (Z.of_nat k + i)) ->
    foldr (fun i a => Z.b2z (f (Z.of_nat i)) * 2 ^ Z.of_nat i + a) 0 (seq k n) = 2 ^ Z.of_nat k * y) as H.
  { clear. induction n as [|n IH]; intros k y Hy Hf.
    - simpl. change (2 ^ Z.of_nat 0) with 1 in Hy. replace y with 0 by lia. by rewrite Z.mul_0_r.
    - rewrite Nat2Z.inj_succ, Z.pow_succ_r in Hy by lia. cbn [seq foldr].
      rewrite (IH (S k) (y / 2)).
      + rewrite Nat2Z.inj_succ, Z.pow_succ_r by lia. specialize (Hf 0 ltac:(lia)). rewrite Z.add_0_r in Hf. rewrite <- Hf.
        rewrite Z.bit0_odd. pose proof (Zdiv2_odd_eqn y) as D. rewrite Z.div2_div in D. unfold Z.b2z. destruct (Z.odd y); lia.
      + split; [apply Z.div_pos; lia|apply Z.div_lt_upper_bound; lia].
      + intros i Hi. rewrite <- Z.div2_div, Z.div2_spec, Z.shiftr_spec, Hf by lia. f_equal. lia. }
  intros Hf. rewrite (H 32%nat 0%nat x); [|exact Hx|intros i Hi; by apply Hf]. change (2 ^ Z.of_nat 0) with 1. lia.
Qed.

Lemma land_word x y : word x -> word (Z.land x y).
Proof. by apply land_bound. Qed.

Lemma lxor_word x y : word x -> word y -> word (Z.lxor x y).
Proof. by apply (lxor_bound 32). Qed.

Lemma not32_bit x i : 0 <= i < 32 -> Z.testbit (not32 x) i = negb (Z.testbit x i).
Proof.
  intros Hi. unfold not32. change 0xffffffff with (Z.ones 32). rewrite Z.lxor_spec, Z.ones_spec_low by lia. by destruct (Z.testbit x i).
Qed.

Lemma ch_spec x y z : word x -> word y -> word z -> ch x y z = Ch x y z.
Proof.
  intros Hx Hy Hz. apply ofBits_spec.
  - apply lxor_word; [by apply land_word|]. rewrite Z.land_comm. by apply land_word.
  - intros i Hi. unfold ch. rewrite Z.lxor_spec, !Z.land_spec, not32_bit by done. by destruct (Z.testbit x i), (Z.testbit y i), (Z.testbit z i).
Qed.

Lemma maj_spec x y z : word x -> word y -> word z -> maj x y z = Maj x y z.
Proof.
  intros Hx Hy Hz. apply ofBits_spec.
  - repeat apply lxor_word; by apply land_word.
  - intros i Hi. unfold maj. rewrite !Z.lxor_spec, !Z.land_spec. by destruct (Z.testbit x i), (Z.testbit y i), (Z.testbit z i).
Qed.

Lemma word_mod x : word (x mod 2 ^ 32).
Proof. apply Z.mod_pos_bound. lia. Qed.
Hint Resolve word_mod : core.

Lemma be32_word l i : Forall byte l -> word (be32 l i).
Proof.
  intros Hl. unfold be32. rewrite <- !Z.lor_assoc.
  pose proof (coef_byte l i Hl). pose proof (coef_byte l (i + 1) Hl). pose proof (coef_byte l (i + 2) Hl). pose proof (coef_byte l (i + 3) Hl).
  unfold byte, word in *. rewrite (lor_shift _ (coef l (i + 3))), (lor_shift _ (_ + _)), (lor_shift _ (_ + _)) by lia. lia.
Qed.

(** ** The schedule *)

Lemma W_unfold M n t : (16 <= t)%nat -> W M (S n) t =
  (Z.lxor (Z.lxor (ROTR 17 (W M n (t - 2))) (ROTR 19 (W M n (t - 2)))) (SHR 10 (W M n (t - 2))) + W M n (t - 7)
   + Z.lxor (Z.lxor (ROTR 7 (W M n (t - 15))) (ROTR 18 (W M n (t - 15)))) (SHR 3 (W M n (t - 15))) + W M n (t - 16)) mod 2 ^ 32.
Proof. intros. cbn [W]. by rewrite (proj2 (Nat.ltb_ge t 16)). Qed.

Lemma W_low M n t : (t < 16)%nat -> W M n t = be32 M (t * 4).
Proof. intros Ht. destruct n; cbn [W]; by rewrite (proj2 (Nat.ltb_lt t 16) Ht). Qed.

Lemma W_fuel M n m t : (t <= n)%nat -> (t <= m)%nat -> W M n t = W M m t.
Proof.
  revert n m. induction (lt_wf t) as [t _ IH]. intros n m Hn Hm. destruct (decide (t < 16)%nat); [by rewrite !W_low|].
  destruct n as [|n], m as [|m]; [lia..|]. rewrite !W_unfold by lia.
  by rewrite (IH (t - 2)%nat ltac:(lia) n m), (IH (t - 7)%nat ltac:(lia) n m), (IH (t - 15)%nat ltac:(lia) n m), (IH (t - 16)%nat ltac:(lia) n m) by lia.
Qed.

Lemma W_word M n t : Forall byte M -> word (W M n t).
Proof.
  intros HM. destruct (decide (t < 16)%nat); [rewrite W_low by done; by apply be32_word|].
  destruct n; [cbn [W]; rewrite (proj2 (Nat.ltb_ge t 16)) by lia; done|]. by rewrite W_unfold by lia.
Qed.

Lemma gamma0_spec x : word x -> gamma0 x = Z.lxor (Z.lxor (ROTR 7 x) (ROTR 18 x)) (SHR 3 x).
Proof. intros. unfold gamma0, SHR. by rewrite !rotr32_spec, shiftr_div by (done || lia). Qed.
Lemma gamma1_spec x : word x -> gamma1 x = Z.lxor (Z.lxor (ROTR 17 x) (ROTR 19 x)) (SHR 10 x).
Proof. intros. unfold gamma1, SHR. by rewrite !rotr32_spec, shiftr_div by (done || lia). Qed.
Lemma sigma0_spec x : word x -> sigma0 x = S0 x.
Proof. intros. unfold sigma0, S0. by rewrite !rotr32_spec by (done || lia). Qed.
Lemma sigma1_spec x : word x -> sigma1 x = S1 x.
Proof. intros. unfold sigma1, S1. by rewrite !rotr32_spec by (done || lia). Qed.

Lemma schedule_spec M t : Forall byte M -> (t < 64)%nat -> coef (schedule M) t = W M 64 t.
Proof.
  intros HM. unfold schedule. set (f := fun _ _ => _).
  assert (forall k, (k <= 48)%nat -> let l := foldl f ((fun i => be32 M (i * 4)) <$> seq 0 16) (seq 16 k) in
    length l = (16 + k)%nat /\ forall t, (t < 16 + k)%nat -> coef l t = W M 64 t) as H.
  { induction k as [|k IH]; intros Hk.
    - change (seq 16 0) with (@nil nat). cbn [foldl]. split; [done|]. intros i Hi. rewrite (coef_fmap_seq _ 16) by lia. by rewrite W_low by lia.
    - cbv zeta. rewrite (seq_S k), foldl_app. destruct (IH ltac:(lia)) as [Hl Hc]. set (l := foldl f _ _) in *. cbn [foldl]. unfold f.
      split; [rewrite length_app, Hl; simpl; lia|]. intros i Hi. destruct (decide (i < 16 + k)%nat).
      + rewrite coef_app_l by lia. by apply Hc.
      + replace i with (16 + k)%nat by lia. rewrite (coef_app_r' _ _ (16 + k) 0) by lia. unfold coef at 1. simpl default.
        rewrite !Hc, gamma0_spec, gamma1_spec by (lia || by apply W_word).
        rewrite (W_unfold M 63 (16 + k)) by lia. by rewrite !(W_fuel M 64 63) by lia. }
  intros Ht. by apply (H 48%nat).
Qed.

(** ** The rounds *)

Definition vars_ok (v : vars) : Prop :=
  word (va v) /\ word (vb v) /\ word (vc v) /\ word (vd v) /\ word (ve v) /\ word (vf v) /\ word (vg v) /\ word (vh v).

Lemma round_spec_ok M v t : Forall byte M -> vars_ok v -> (t < 64)%nat ->
  round (schedule M) v t = round_spec M v t /\ vars_ok (round_spec M v t).
Proof.
  intros HM (Ha & Hb & Hc & Hd & He & Hf & Hg & Hh) Ht. unfold round, round_spec, vars_ok. cbn [va vb vc vd ve vf vg vh].
  split; [|by split_and!].
  rewrite schedule_spec, sigma0_spec, sigma1_spec, ch_spec, maj_spec, (proj1 constants) by done.
  unfold u32. f_equal; [by rewrite <- Zplus_mod|by rewrite Zplus_mod_idemp_r].
Qed.

Lemma transform_spec M H : Forall byte M -> Forall word H ->
  sha256_transform H M = compress_spec M H.
Proof.
  intros HM HH. unfold sha256_transform, compress_spec.
  assert (forall i, word (coef H i)) as Hi.
  { intros i. unfold coef. destruct (H !! i) eqn:E; [by eapply Forall_lookup_1|done]. }
  destruct (foldl_ext_in (round (schedule M)) (round_spec M) vars_ok (seq 0 64) (loadVars H)) as [-> _]; [|intros v t Hv Ht|done].
  - unfold vars_ok, loadVars. cbn [va vb vc vd ve vf vg vh]. by split_and!.
  - apply elem_of_seq in Ht. destruct (round_spec_ok M v t) as [-> ?]; [done..|lia|done].
Qed.

Lemma compress_words M H : Forall word (compress_spec M H).
Proof.
  apply Forall_lookup_2. intros i x Hx. apply lookup_zip_with_Some in Hx as (? & ? & -> & _). done.
Qed.

(** Folding the compression over blocks of bytes. *)
Lemma fold_spec bs H : Forall (Forall byte) bs -> Forall word H ->
  foldl sha256_transform H bs = foldl (fun H M => compress_spec M H) H bs.
Proof.
  intros Hb HH. apply (foldl_ext_in _ _ (Forall word)); [done|]. intros H' M HH' HM.
  rewrite Forall_forall in Hb. rewrite transform_spec by by (try apply Hb). split; [done|apply compress_words].
Qed.

(** ** Streaming *)

#[local] Opaque sha256_transform.

Definition hashBlocks (st msg : list Z) : list Z := foldl sha256_transform st (blocks 64 msg).

Lemma hash_nil st l : (length l < 64)%nat -> hashBlocks st l = st.
Proof. intros Hl. unfold hashBlocks, blocks. by rewrite Nat.div_small. Qed.

Lemma hash_cons st l : (64 <= length l)%nat -> hashBlocks st l = hashBlocks (sha256_transform st (take 64 l)) (drop 64 l).
Proof. intros Hl. unfold hashBlocks. rewrite blocks_cons by lia. done. Qed.

Lemma hash_app k st l1 l2 : length l1 = (64 * k)%nat -> hashBlocks st (l1 ++ l2) = hashBlocks (hashBlocks st l1) l2.
Proof.
  revert st l1. induction k as [|k IH]; intros st l1 Hl.
  - rewrite Nat.mul_0_r in Hl. apply length_zero_iff_nil in Hl as ->. by rewrite (hash_nil _ []) by (simpl; lia).
  - rewrite hash_cons, (hash_cons st l1) by (rewrite ?length_app; lia).
    rewrite take_app_le, drop_app_le by lia. apply IH. rewrite length_drop. lia.
Qed.

Lemma hash_block st l : length l = 64%nat -> hashBlocks st l = sha256_transform st l.
Proof. intros Hl. rewrite hash_cons by lia. by rewrite take_ge, drop_ge, hash_nil by (simpl; lia). Qed.

(** The context after [full ++ tail], [full] being whole blocks. *)
Record rep (full tail : list Z) (ctx : SHA256Context) : Prop := Rep {
  rep_full : exists k, length full = (64 * k)%nat;
  rep_tail : (length tail < 64)%nat;
  rep_state : state ctx = hashBlocks initState full;
  rep_bits : bitcount ctx = u64 (8 * Z.of_nat (length (full ++ tail)));
  rep_len : length (buffer ctx) = 64%nat;
  rep_buf : take (length tail) (buffer ctx) = tail }.

Lemma rep_fill full tail ctx : rep full tail ctx -> bufferFill ctx = length tail.
Proof.
  intros [[k Hk] Ht _ Hb _ _]. unfold bufferFill. rewrite Hb, length_app, Hk. change 63 with (Z.ones 6).
  rewrite Z.land_ones, Z.shiftr_div_pow2 by lia. unfold u64.
  assert (8 * Z.of_nat (64 * k + length tail) = 8 * (Z.of_nat (64 * k + length tail))) as E by lia.
  rewrite <- (Nat2Z.id (length tail)). f_equal.
  change (2 ^ 3) with 8. change (2 ^ 6) with 64. Z.to_euclidean_division_equations. lia.
Qed.

Lemma memcpyAt_length l o src : (o + length src <= length l)%nat -> length (memcpyAt l o src) = length l.
Proof. intros. unfold memcpyAt. rewrite !length_app, length_take, length_drop. lia. Qed.

Lemma memcpyAt_take l o src : (o + length src <= length l)%nat -> take (o + length src) (memcpyAt l o src) = take o l ++ src.
Proof.
  intros. unfold memcpyAt. rewrite app_assoc, take_app_exact; [done|]. rewrite length_app, length_take. lia.
Qed.

Lemma blockLoop_spec n st data : (length data <= n)%nat ->
  exists whole rest, blockLoop n st data = (hashBlocks st whole, rest) /\ data = whole ++ rest /\
    (exists k, length whole = (64 * k)%nat) /\ (length rest < 64)%nat.
Proof.
  revert st data. induction n as [|n IH]; intros st data Hn; cbn [blockLoop].
  - exists [], data. rewrite hash_nil by (simpl; lia). split_and!; [done|done|by exists 0%nat|lia].
  - case_goal.
    + apply Nat.leb_le in Heqb. destruct (IH (sha256_transform st (take 64 data)) (drop 64 data)) as (w & r & E & Hd & [k Hk] & Hr); [rewrite length_drop; lia|].
      exists (take 64 data ++ w), r. rewrite E. split_and!; [|by rewrite <- app_assoc, <- Hd, take_drop| |done].
      * f_equal. rewrite (hash_app 1) by (rewrite length_take; lia). by rewrite (hash_block st) by (rewrite length_take; lia).
      * exists (S k). rewrite length_app, length_take. lia.
    + apply Nat.leb_gt in Heqb. exists [], data. rewrite hash_nil by (simpl; lia). split_and!; [done|done|by exists 0%nat|lia].
Qed.

Lemma absorbRest_rep full buf data k : length full = (64 * k)%nat -> length buf = 64%nat ->
  exists full' tail', full ++ data = full' ++ tail' /\
    rep full' tail' (absorbRest (hashBlocks initState full) (u64 (8 * Z.of_nat (length (full ++ data)))) buf data).
Proof.
  intros Hf Hb. destruct (blockLoop_spec (length data) (hashBlocks initState full) data) as (w & r & E & Hd & [j Hj] & Hr); [done|].
  exists (full ++ w), r. split; [by rewrite <- app_assoc, <- Hd|]. unfold absorbRest. rewrite E.
  constructor; cbn [state bitcount buffer].
  - exists (k + j)%nat. rewrite length_app. lia.
  - done.
  - by rewrite (hash_app k).
  - by rewrite <- app_assoc, <- Hd.
  - case_goal; [|done]. by rewrite memcpyAt_length by lia.
  - case_goal; [by rewrite <- (Nat.add_0_l (length r)), memcpyAt_take by lia|]. apply Nat.ltb_ge in Heqb.
    by replace r with (@nil Z) by (destruct r; simpl in *; [done|lia]).
Qed.

Lemma bits_add n m : u64 (u64 (8 * n) + u64 (Z.shiftl m 3)) = u64 (8 * (n + m)).
Proof. unfold u64. rewrite <- Zplus_mod, Z.shiftl_mul_pow2 by lia. f_equal. lia. Qed.

Lemma update_rep full tail ctx data : rep full tail ctx ->
  exists full' tail', full ++ tail ++ data = full' ++ tail' /\ rep full' tail' (sha256_update ctx data).
Proof.
  intros HR. pose proof (rep_fill _ _ _ HR) as Hfill. destruct HR as [[k Hk] Ht Hs Hb Hl Hbuf].
  unfold sha256_update. rewrite Hfill, Hb, Hs, bits_add. destruct (0 <? length tail)%nat eqn:E0.
  - apply Nat.ltb_lt in E0. set (n := Nat.min _ _).
    assert (length (take n data) = n) as Hn by (rewrite length_take; lia).
    pose proof (memcpyAt_take (buffer ctx) (length tail) (take n data) ltac:(lia)) as Hm. rewrite Hbuf, Hn in Hm.
    pose proof (memcpyAt_length (buffer ctx) (length tail) (take n data) ltac:(lia)) as Hml. rewrite Hl in Hml.
    case_goal.
    + apply Nat.ltb_lt in Heqb. rewrite (take_ge data) in * by lia.
      exists full, (tail ++ data). split; [done|]. constructor; cbn [state bitcount buffer]; try done.
      * by exists k.
      * rewrite length_app. lia.
      * rewrite !length_app. f_equal. lia.
      * rewrite length_app. replace (length data) with n by lia. done.
    + apply Nat.ltb_ge in Heqb. rewrite (take_ge (memcpyAt _ _ _)) in Hm by lia.
      destruct (absorbRest_rep (full ++ tail ++ take n data) (memcpyAt (buffer ctx) (length tail) (take n data)) (drop n data) (S k)) as (f & t & E & HR).
      { rewrite !length_app. lia. }
      { done. }
      assert ((full ++ tail ++ take n data) ++ drop n data = full ++ tail ++ data) as Ed by by rewrite <- !app_assoc, take_drop.
      rewrite Ed in E, HR. exists f, t. split; [done|].
      rewrite (hash_app k), (hash_block _ (tail ++ _)), <- Hm in HR by (rewrite ?length_app; lia).
      by rewrite app_assoc, (length_app (full ++ tail)), Nat2Z.inj_add in HR.
  - apply Nat.ltb_ge in E0. replace tail with (@nil Z) in * by (destruct tail; simpl in *; [done|lia]).
    destruct (absorbRest_rep full (buffer ctx) data k) as (f & t & E & HR); [done..|]. exists f, t. split; [done|].
    rewrite app_nil_r. by rewrite length_app, Nat2Z.inj_add in HR.
Qed.

Lemma init_rep : rep [] [] sha256_init.
Proof. constructor; simpl; try done; [by exists 0%nat|lia]. Qed.

(** ** Padding *)

Lemma memcpyAt_end l o src : (o + length src)%nat = length l -> memcpyAt l o src = take o l ++ src.
Proof. intros E. unfold memcpyAt. by rewrite drop_ge, app_nil_r by lia. Qed.

Lemma take_S_insert (l tail : list Z) x : (length tail < length l)%nat -> take (length tail) l = tail ->
  take (S (length tail)) (<[length tail := x]> l) = tail ++ [x].
Proof.
  intros Hl Ht. rewrite (take_S_r _ _ x) by by rewrite list_lookup_insert_eq.
  by rewrite take_insert_ge, Ht by lia.
Qed.

Lemma zeros_count t k : (t < 64)%nat -> ((119 - (64 * k + t) mod 64) mod 64 = if t <? 56 then 55 - t else 119 - t)%nat.
Proof.
  intros Ht. rewrite Nat.add_comm, Nat.mul_comm, Nat.Div0.mod_add, (Nat.mod_small t) by lia.
  destruct (Nat.ltb_spec t 56); [|by rewrite Nat.mod_small by lia].
  replace (119 - t)%nat with (55 - t + 1 * 64)%nat by lia. by rewrite Nat.Div0.mod_add, Nat.mod_small by lia.
Qed.

Lemma final_rep full tail ctx : rep full tail ctx ->
  (sha256_final ctx).1 = digestOf (hashBlocks initState ((full ++ tail) ++ padding (length (full ++ tail)))).
Proof.
  intros HR. pose proof (rep_fill _ _ _ HR) as Hfill. destruct HR as [[k Hk] Ht Hs Hb Hl Hbuf].
  unfold sha256_final, padding. rewrite Hfill, Hs, Hb, <- app_assoc, length_app, Hk, zeros_count by done.
  set (bits := be64_bytes _). assert (length bits = 8%nat) as Hbits by done. clearbody bits.
  pose proof (take_S_insert (buffer ctx) tail 128 ltac:(lia) Hbuf) as Hi.
  set (b := <[length tail := 128]> (buffer ctx)) in *. assert (length b = 64%nat) as Hlb by (unfold b; by rewrite length_insert).
  rewrite (hash_app k) by done. f_equal. destruct (Nat.ltb_spec 56 (S (length tail))), (Nat.ltb_spec (length tail) 56); try lia.
  - rewrite !(memcpyAt_end b) by (rewrite length_replicate; lia). rewrite Hi.
    set (b1 := (tail ++ [128]) ++ replicate (64 - S (length tail)) 0).
    assert (length b1 = 64%nat) as Hb1 by (unfold b1; rewrite !length_app, length_replicate; simpl; lia).
    assert (tail ++ 128 :: replicate (119 - length tail) 0 ++ bits = b1 ++ replicate 56 0 ++ bits) as ->.
    { unfold b1. rewrite <- !app_assoc. f_equal. cbn [app]. f_equal. rewrite app_assoc. f_equal. rewrite <- replicate_add. f_equal. lia. }
    rewrite (hash_app 1), (hash_block _ b1) by done. rewrite (hash_block _ (replicate 56 0 ++ bits)) by (rewrite length_app, length_replicate; lia).
    assert (memcpyAt (memcpyAt b1 0 (replicate (56 - 0) 0)) 56 bits = replicate 56 0 ++ bits) as ->; [|reflexivity].
    rewrite memcpyAt_end by (rewrite memcpyAt_length; rewrite ?length_replicate; lia).
    apply (f_equal (fun l => l ++ bits)). apply (memcpyAt_take b1 0 (replicate 56 0)). rewrite length_replicate. lia.
  - rewrite (memcpyAt_end _ 56) by (rewrite memcpyAt_length; rewrite ?length_replicate; lia).
    replace 56%nat with (S (length tail) + length (replicate (56 - S (length tail)) 0%Z))%nat at 1 by (rewrite length_replicate; lia).
    rewrite memcpyAt_take by (rewrite length_replicate; lia). rewrite Hi, <- !app_assoc. simpl app.
    replace (56 - S (length tail))%nat with (55 - length tail)%nat by lia.
    rewrite (hash_block _ (tail ++ _)); [reflexivity|]. rewrite length_app. cbn [length]. rewrite length_app, length_replicate. lia.
Qed.

(** Any way of cutting the message. *)
Lemma updates_rep chunks : exists full tail, concat chunks = full ++ tail /\ rep full tail (foldl sha256_update sha256_init chunks).
Proof.
  induction chunks as [|d ds IH] using rev_ind; [exists [], []; split; [done|apply init_rep]|].
  destruct IH as (f & t & E & HR). destruct (update_rep _ _ _ d HR) as (f' & t' & E' & HR').
  exists f', t'. rewrite foldl_app, concat_app, E, <- app_assoc. simpl. by rewrite app_nil_r.
Qed.

Lemma padding_bytes n : Forall byte (padding n).
Proof.
  unfold padding. constructor; [unfold byte; lia|]. apply Forall_app. split; [apply Forall_replicate; unfold byte; lia|].
  apply Forall_fmap, Forall_forall. intros. apply u8_byte.
Qed.

Lemma blocks_bytes l : Forall byte l -> Forall (Forall byte) (blocks 64 l).
Proof. intros Hl. apply Forall_fmap, Forall_forall. intros i _. by apply Forall_take, Forall_drop. Qed.

Lemma hash_spec msg : Forall byte msg -> digestOf (hashBlocks initState (msg ++ padding (length msg))) = sha256_spec msg.
Proof.
  intros Hm. unfold sha256_spec, hashBlocks. rewrite <- (proj2 constants). f_equal. apply fold_spec.
  - apply blocks_bytes, Forall_app. split; [done|apply padding_bytes].
  - repeat constructor; done.
Qed.

Lemma stream_spec chunks : Forall (Forall byte) chunks ->
  (sha256_final (foldl sha256_update sha256_init chunks)).1 = sha256_spec (concat chunks).
Proof.
  intros Hc. destruct (updates_rep chunks) as (f & t & E & HR). rewrite (final_rep f t) by done.
  rewrite <- E. apply hash_spec. by apply Forall_concat.
Qed.

Lemma digest_bytes st : Forall byte (digestOf st) /\ length (digestOf st) = 32%nat.
Proof.
  split; [|by unfold digestOf; rewrite (length_chunks _ 4)]. apply chunks_bytes. intros i. repeat constructor; apply u8_byte.
Qed.

Lemma length_final ctx : length (sha256_final ctx).1 = 32%nat.
Proof. unfold sha256_final. case_goal. case_goal. apply digest_bytes. Qed.

Lemma final_bytes ctx : Forall byte (sha256_final ctx).1.
Proof. unfold sha256_final. case_goal. case_goal. apply digest_bytes. Qed.

Lemma spec_bytes msg : Forall byte (sha256_spec msg).
Proof. apply digest_bytes. Qed.

Lemma length_spec msg : length (sha256_spec msg) = 32%nat.
Proof. apply digest_bytes. Qed.

Lemma sha256_one msg : Forall byte msg -> sha256 msg = sha256_spec msg.
Proof.
  intros Hm. rewrite <- (app_nil_r msg) at 2. apply (stream_spec [msg]). by constructor.
Qed.

(** ** RFC 2104, RFC 8018 and RFC 5869 *)

Definition K0 (key : list Z) : list Z :=
  let k := if (64 <? length key)%nat then sha256_spec key else key in k ++ replicate (64 - length k) 0.

Definition hmac_spec (key data : list Z) : list Z :=
  sha256_spec (((fun b => Z.lxor b 0x5c) <$> K0 key) ++ sha256_spec (((fun b => Z.lxor b 0x36) <$> K0 key) ++ data)).

(** [U_1 = PRF (P, S || INT (i))], [U_j = PRF (P, U_(j-1))], their exclusive or,
    and the first [n] bytes of the blocks. *)
Definition U_spec (P S : list Z) (i : Z) (j : nat) : list Z := Nat.iter j (hmac_spec P) (hmac_spec P (S ++ be32_bytes i)).
Definition F_spec (P S : list Z) (c : nat) (i : Z) : list Z :=
  foldl (fun T j => zip_with Z.lxor T (U_spec P S i j)) (U_spec P S i 0) (seq 1 (c - 1)).
Definition pbkdf2_spec (P S : list Z) (c n : nat) : list Z :=
  take n (seq 1 ((n + 31) / 32) ≫= fun i => F_spec P S c (Z.of_nat i)).

(** [T(0) = ""], [T(n) = HMAC (PRK, T(n-1) || info || n)]. *)
Fixpoint T_spec (prk info : list Z) (n : nat) : list Z :=
  match n with O => [] | S m => hmac_spec prk (T_spec prk info m ++ info ++ [Z.of_nat n]) end.
Definition hkdf_spec (salt ikm info : list Z) (L : nat) : list Z :=
  take L (seq 1 ((L + 31) / 32) ≫= T_spec (hmac_spec salt ikm) info).

Lemma lxor_pad_byte m l : byte m -> Forall byte l -> Forall byte ((fun b => Z.lxor b m) <$> l).
Proof. intros Hm Hl. apply Forall_fmap. eapply Forall_impl; [exact Hl|]. intros b Hb. by apply (lxor_bound 8). Qed.

Lemma keyBlock_spec key : Forall byte key -> keyBlock key = K0 key.
Proof.
  intros Hk. unfold keyBlock, K0, memcpyAt. rewrite sha256_one by done. cbn [take app Nat.add].
  by rewrite drop_replicate.
Qed.

Lemma K0_bytes key : Forall byte key -> Forall byte (K0 key).
Proof.
  intros Hk. apply Forall_app. split; [|apply Forall_replicate; unfold byte; lia].
  case_goal; [apply spec_bytes|done].
Qed.

Lemma hmacReuse_spec key msg : Forall byte key -> Forall byte msg ->
  hmacReuse (sha256_update sha256_init (padKey 0x36 key)) (sha256_update sha256_init (padKey 0x5c key)) msg = hmac_spec key msg.
Proof.
  intros Hk Hm. unfold hmacReuse, hmac_spec, padKey. rewrite keyBlock_spec by done.
  pose proof (K0_bytes key Hk) as HK.
  set (ik := (fun b => Z.lxor b 54) <$> K0 key). set (ok := (fun b => Z.lxor b 92) <$> K0 key).
  assert (Forall byte ik) as Hik by by apply lxor_pad_byte. assert (Forall byte ok) as Hok by by apply lxor_pad_byte.
  assert (forall m, Forall byte m -> (sha256_final (sha256_update (sha256_update sha256_init ik) m)).1 = sha256_spec (ik ++ m)) as Ei.
  { intros m Hm'. rewrite <- (app_nil_r m) at 2. apply (stream_spec [ik; m]). by repeat constructor. }
  rewrite Ei by done. rewrite <- (app_nil_r (sha256_spec (ik ++ msg))) at 2. apply (stream_spec [ok; sha256_spec (ik ++ msg)]).
  apply Forall_cons. split; [done|]. apply Forall_singleton, spec_bytes.
Qed.

Lemma hmac_sha256_spec key msg : Forall byte key -> Forall byte msg -> hmac_sha256 key msg = hmac_spec key msg.
Proof. apply hmacReuse_spec. Qed.

Lemma hmac_bytes key msg : Forall byte (hmac_spec key msg).
Proof. apply spec_bytes. Qed.

Lemma U_spec_bytes P S i j : Forall byte (U_spec P S i j).
Proof. destruct j; apply hmac_bytes. Qed.

Lemma length_U P S i j : length (U_spec P S i j) = 32%nat.
Proof. destruct j; apply length_spec. Qed.

(** The iteration accumulates the exclusive or. *)
Lemma pbkdfIter_spec hm P S i n j T :
  (forall msg, Forall byte msg -> hm msg = hmac_spec P msg) ->
  pbkdfIter n hm (U_spec P S i j) T = foldl (fun T j => zip_with Z.lxor T (U_spec P S i j)) T (seq (j + 1) n).
Proof.
  intros Hh. revert j T. induction n as [|n IH]; intros j T; [done|]. cbn [pbkdfIter seq foldl].
  rewrite Hh by apply U_spec_bytes. change (hmac_spec P (U_spec P S i j)) with (U_spec P S i (Datatypes.S j)).
  rewrite IH. by rewrite !Nat.add_1_r.
Qed.

Lemma length_F P S c i : length (F_spec P S c i) = 32%nat.
Proof.
  unfold F_spec. apply (foldl_inv (fun T => length T = 32%nat)); [apply length_spec|].
  intros T j _ HT. rewrite length_zip_with_l; [done|]. by rewrite HT, length_U.
Qed.

Lemma pbkdfLoop_spec hm P S it fuel b left : (forall msg, Forall byte msg -> hm msg = hmac_spec P msg) -> Forall byte S ->
  (left <= fuel)%nat ->
  pbkdfLoop fuel hm S it (u32 (Z.of_nat b)) left = take left (seq b ((left + 31) / 32) ≫= fun i => F_spec P S (Z.to_nat it) (Z.of_nat i)).
Proof.
  intros Hh HS. revert b left. induction fuel as [|fuel IH]; intros b left Hf; [by replace left with 0%nat by lia|].
  cbn [pbkdfLoop]. destruct (Nat.eqb_spec left 0) as [->|Hn]; [done|].
  assert ((left + 31) / 32 = Datatypes.S ((left - Nat.min left 32 + 31) / 32))%nat as ->.
  { destruct (Nat.le_gt_cases left 32).
    - rewrite Nat.min_l, Nat.sub_diag by lia. symmetry. apply Nat.div_unique with (left - 1)%nat; [lia|]. change ((0 + 31) / 32)%nat with 0%nat. lia.
    - rewrite Nat.min_r by lia. replace (left + 31)%nat with (1 * 32 + (left - 32 + 31))%nat by lia. by rewrite Nat.div_add_l. }
  cbn [seq mbind list_bind]. rewrite take_app, length_F.
  rewrite be32_bytes_u32, Hh by (apply Forall_app; split; [done|apply bytes_be32]).
  change (hmac_spec P (S ++ be32_bytes (Z.of_nat b))) with (U_spec P S (Z.of_nat b) 0).
  assert (pbkdfIter (Z.to_nat (it - 1)) hm (U_spec P S (Z.of_nat b) 0) (U_spec P S (Z.of_nat b) 0) = F_spec P S (Z.to_nat it) (Z.of_nat b)) as ->.
  { rewrite (pbkdfIter_spec hm P S (Z.of_nat b) _ 0) by done. unfold F_spec. by rewrite Z2Nat.inj_sub by lia. }
  pose proof (length_F P S (Z.to_nat it) (Z.of_nat b)) as HF. f_equal.
  - destruct (Nat.le_gt_cases left 32); [by rewrite Nat.min_l by lia|]. by rewrite Nat.min_r, !take_ge by lia.
  - replace (left - 32)%nat with (left - Nat.min left 32)%nat by lia.
    assert (u32 (u32 (Z.of_nat b) + 1) = u32 (Z.of_nat (Datatypes.S b))) as ->.
    { unfold u32. rewrite Zplus_mod_idemp_l. f_equal. lia. }
    apply IH. lia.
Qed.

Lemma F_bytes P S c i : Forall byte (F_spec P S c i).
Proof.
  unfold F_spec. apply (foldl_inv (Forall byte)); [apply spec_bytes|]. intros T j _ HT.
  apply Forall_lookup_2. intros k x (p & q & -> & Hp & Hq)%lookup_zip_with_Some.
  apply (lxor_bound 8); [lia|exact (Forall_lookup_1 _ _ _ _ HT Hp)|exact (Forall_lookup_1 _ _ _ _ (U_spec_bytes P S i j) Hq)].
Qed.

(** A derived key has the length asked for. *)
Lemma pbkdf2_key P S it n : Forall byte P -> Forall byte S ->
  pbkdf2_sha256 P S it n = pbkdf2_spec P S (Z.to_nat it) n /\ Forall byte (pbkdf2_sha256 P S it n) /\ length (pbkdf2_sha256 P S it n) = n.
Proof.
  intros HP HS. assert (pbkdf2_sha256 P S it n = pbkdf2_spec P S (Z.to_nat it) n) as ->.
  { unfold pbkdf2_sha256. change 1 with (u32 (Z.of_nat 1)). apply pbkdfLoop_spec; [|done|done]. intros msg Hm. by apply hmacReuse_spec. }
  split; [done|]. unfold pbkdf2_spec. rewrite bind_shift. split.
  - apply Forall_take, chunks_bytes. intros i. apply F_bytes.
  - rewrite length_take, (length_chunks _ 32) by (intros; apply length_F).
    pose proof (Nat.div_mod_eq (n + 31) 32). pose proof (Nat.mod_upper_bound (n + 31) 32 ltac:(lia)). lia.
Qed.

(** ** Properties *)

(** C31: the streaming hash.  Feeding a message in any number of pieces of any
    sizes and finishing gives the SHA-256 digest of the whole message as FIPS
    180-4 defines it: padded with a one bit, zeros and the bit length modulo
    2^64, with the constants taken from roots of primes and the round functions
    stated bit by bit.  The digest has 32 bytes. *)
Theorem sha256_streaming chunks : Forall (Forall byte) chunks ->
  (sha256_final (foldl sha256_update sha256_init chunks)).1 = sha256_spec (concat chunks) /\
  length (sha256_spec (concat chunks)) = 32%nat.
Proof. intros Hc. split; [by apply stream_spec|apply length_spec]. Qed.

(** "abc" in three pieces, one of them empty. *)
Lemma sha256_streaming_witness :
  Forall (Forall byte) [[97; 98]; []; [99]] /\
  (sha256_final (foldl sha256_update sha256_init [[97; 98]; []; [99]])).1 = sha256_spec [97; 98; 99].
Proof.
  assert (Forall (Forall byte) [[97; 98]; []; [99]]) as Hb by (repeat constructor; unfold byte; lia).
  split; [exact Hb|]. exact (proj1 (sha256_streaming [[97; 98]; []; [99]] Hb)).
Defined.

(** C32: key derivation.  [pbkdf2_sha256], which hashes the padded password once
    and copies the two contexts, gives the derived key of RFC 8018 for every
    password, salt, iteration count (0 counts as 1) and length; and
    [derive_session_key_from_dh] gives 32 bytes of HKDF (RFC 5869) with the salt
    "VGRE-session-key" and no info. *)
Theorem key_derivation password salt iterations n secret :
  Forall byte password -> Forall byte salt -> Forall byte secret ->
  pbkdf2_sha256 password salt iterations n = pbkdf2_spec password salt (Z.to_nat iterations) n /\
  derive_session_key_from_dh secret = hkdf_spec kSalt secret [] 32.
Proof.
  intros Hp Hs Hx. split.
  - by apply pbkdf2_key.
  - unfold derive_session_key_from_dh, hkdf_sha256_expand, hkdf_sha256_extract, hkdf_spec.
    change (seq 1 ((32 + 31) / 32)) with [1%nat]. cbn [mbind list_bind T_spec app].
    assert (Forall byte kSalt) as Hk by (repeat constructor; unfold byte; lia).
    rewrite (hmac_sha256_spec kSalt _ Hk Hx), (hmac_sha256_spec _ [1] (hmac_bytes _ _)) by (repeat constructor; unfold byte; lia).
    rewrite app_nil_r, take_ge; [reflexivity|]. unfold hmac_spec at 1. rewrite length_spec. exact (le_n 32).
Qed.

Lemma key_derivation_witness :
  Forall byte [112; 119] /\ pbkdf2_sha256 [112; 119] [115] 2 40 = pbkdf2_spec [112; 119] [115] 2 40.
Proof.
  assert (Forall byte [112; 119]) as Hp by (repeat constructor; unfold byte; lia).
  assert (Forall byte [115]) as Hs by (repeat constructor; unfold byte; lia).
  split; [exact Hp|]. exact (proj1 (key_derivation [112; 119] [115] 2 40 [115] Hp Hs Hs)).
Defined.

(** The comparison reads every byte and tells whether all agree. *)
Lemma secure_compare_iff a b n : length a = n -> length b = n -> secure_compare a b n = true <-> a = b.
Proof.
  intros Ha Hb. unfold secure_compare. rewrite Z.eqb_eq, lor_fold_zero, Forall_forall. split.
  - intros [_ H]. apply coef_ext; [by rewrite Ha|]. intros i Hi. apply Z.lxor_eq, H, elem_of_seq. lia.
  - intros ->. split; [done|]. intros. apply Z.lxor_nilpotent.
Qed.

#[local] Transparent sha256_transform.

(** The digest of "abc". *)
Example sha256_abc : sha256 [97; 98; 99] = rev (le_bytes 32 0xba7816bf8f01cfea414140de5dae2223b00361a396177a9cb410ff61f20015ad).
Proof. vm_compute. reflexivity. Qed.
End Sha256.
