(* ===== verification/Aes.v ===== *)
(** * AES-256 and its counter mode

    Model of the software AES of src/advanced/secure_channel_crypto.cpp: the
    key schedule on 32-bit words, the block cipher on sixteen bytes in place
    and counter mode.  The reference definitions are those of FIPS 197: the
    S-box from inversion in GF(2^8), the state as a 4 x 4 matrix, MixColumns as
    a matrix product. *)

From S2P Require Import Prelude Bytes Words.

Module Aes.
Import Bytes Words.

(** The table of the code, in decimal. *)
Definition kAESSbox : list Z := [
  99; 124; 119; 123; 242; 107; 111; 197; 48; 1; 103; 43; 254; 215; 171; 118;
  202; 130; 201; 125; 250; 89; 71; 240; 173; 212; 162; 175; 156; 164; 114; 192;
  183; 253; 147; 38; 54; 63; 247; 204; 52; 165; 229; 241; 113; 216; 49; 21;
  4; 199; 35; 195; 24; 150; 5; 154; 7; 18; 128; 226; 235; 39; 178; 117;
  9; 131; 44; 26; 27; 110; 90; 160; 82; 59; 214; 179; 41; 227; 47; 132;
  83; 209; 0; 237; 32; 252; 177; 91; 106; 203; 190; 57; 74; 76; 88; 207;
  208; 239; 170; 251; 67; 77; 51; 133; 69; 249; 2; 127; 80; 60; 159; 168;
  81; 163; 64; 143; 146; 157; 56; 245; 188; 182; 218; 33; 16; 255; 243; 210;
  205; 12; 19; 236; 95; 151; 68; 23; 196; 167; 126; 61; 100; 93; 25; 115;
  96; 129; 79; 220; 34; 42; 144; 136; 70; 238; 184; 20; 222; 94; 11; 219;
  224; 50; 58; 10; 73; 6; 36; 92; 194; 211; 172; 98; 145; 149; 228; 121;
  231; 200; 55; 109; 141; 213; 78; 169; 108; 86; 244; 234; 101; 122; 174; 8;
  186; 120; 37; 46; 28; 166; 180; 198; 232; 221; 116; 31; 75; 189; 139; 138;
  112; 62; 181; 102; 72; 3; 246; 14; 97; 53; 87; 185; 134; 193; 29; 158;
  225; 248; 152; 17; 105; 217; 142; 148; 155; 30; 135; 233; 206; 85; 40; 223;
  140; 161; 137; 13; 191; 230; 66; 104; 65; 153; 45; 15; 176; 84; 187; 22].

Definition sbox (b : Z) : Z := coef kAESSbox (Z.to_nat b).

Definition xtime (a : Z) : Z := u8 (Z.lxor (Z.shiftl a 1) (if negb (Z.shiftr a 7 =? 0) then 0x1b else 0)).

(** ** Key schedule *)

Definition rcon : list Z := [0x00; 0x01; 0x02; 0x04; 0x08; 0x10; 0x20; 0x40; 0x80; 0x1b; 0x36].

(** The S-box on the four bytes of a word. *)
Definition subWord (t : Z) : Z :=
  Z.lor (Z.lor (Z.lor (Z.shiftl (sbox (Z.land (Z.shiftr t 24) 0xff)) 24) (Z.shiftl (sbox (Z.land (Z.shiftr t 16) 0xff)) 16))
    (Z.shiftl (sbox (Z.land (Z.shiftr t 8) 0xff)) 8)) (sbox (Z.land t 0xff)).

Definition scheduleStep (rk : list Z) (i : nat) : list Z :=
  let t := coef rk (i - 1) in
  let t :=
    if (i mod 8 =? 0)%nat then
      let t := Z.lor (u32 (Z.shiftl t 8)) (Z.shiftr t 24) in Z.lxor (subWord t) (Z.shiftl (coef rcon (i / 8)) 24)
    else if (i mod 8 =? 4)%nat then subWord t
    else t in
  rk ++ [Z.lxor (coef rk (i - 8)) t].

Definition aes256_key_schedule (key : list Z) : list Z :=
  foldl scheduleStep ((fun i => be32 key (4 * i)) <$> seq 0 8) (seq 8 52).

(** ** The block cipher *)

Definition xorAt (s : list Z) (i : nat) (x : Z) : list Z := <[i := Z.lxor (coef s i) x]> s.
Definition move (s : list Z) (i j : nat) : list Z := <[i := coef s j]> s.

Definition addRoundKey (rk : list Z) (round : nat) (s : list Z) : list Z :=
  foldl (fun s col =>
    let w := coef rk (4 * round + col) in
    let s := xorAt s (4 * col + 0) (Z.land (Z.shiftr w 24) 0xff) in
    let s := xorAt s (4 * col + 1) (Z.land (Z.shiftr w 16) 0xff) in
    let s := xorAt s (4 * col + 2) (Z.land (Z.shiftr w 8) 0xff) in
    xorAt s (4 * col + 3) (Z.land w 0xff)) s (seq 0 4).

Definition subBytes (s : list Z) : list Z := sbox <$> s.

Definition shiftRows (s : list Z) : list Z :=
  let t := coef s 1 in let s := <[13%nat := t]> (move (move (move s 1 5) 5 9) 9 13) in
  let t := coef s 2 in let s := <[10%nat := t]> (move s 2 10) in
  let t := coef s 6 in let s := <[14%nat := t]> (move s 6 14) in
  let t := coef s 15 in <[3%nat := t]> (move (move (move s 15 11) 11 7) 7 3).

Definition mixColumns (s : list Z) : list Z :=
  foldl (fun s col =>
    let a := coef s (4 * col) in let b := coef s (4 * col + 1) in
    let c := coef s (4 * col + 2) in let d := coef s (4 * col + 3) in
    let s := <[(4 * col + 0)%nat := Z.lxor (Z.lxor (Z.lxor (xtime a) (u8 (Z.lxor (xtime b) b))) c) d]> s in
    let s := <[(4 * col + 1)%nat := Z.lxor (Z.lxor (Z.lxor a (xtime b)) (u8 (Z.lxor (xtime c) c))) d]> s in
    let s := <[(4 * col + 2)%nat := Z.lxor (Z.lxor (Z.lxor a b) (xtime c)) (u8 (Z.lxor (xtime d) d))]> s in
    <[(4 * col + 3)%nat := Z.lxor (Z.lxor (Z.lxor (u8 (Z.lxor (xtime a) a)) b) c) (xtime d)]> s) s (seq 0 4).

Definition roundStep (rk : list Z) (s : list Z) (round : nat) : list Z :=
  let s := shiftRows (subBytes s) in
  let s := if (round <? 14)%nat then mixColumns s else s in
  addRoundKey rk round s.

Definition aes256_encrypt_block (inp rk : list Z) : list Z := foldl (roundStep rk) (addRoundKey rk 0 inp) (seq 1 14).

(** ** Counter mode *)

(** [nonce || be32(counter)], the counter cut to 32 bits. *)
Definition counterBlock (nonce : list Z) (counter : Z) : list Z := take 12 nonce ++ be32_bytes (Z.land counter 0xffffffff).

(** [while (offset < len)]: at most one block per byte. *)
Fixpoint ctrLoop (fuel : nat) (rk nonce : list Z) (counter : Z) (inp : list Z) : list Z :=
  match fuel with
  | O => []
  | S fuel =>
      if (length inp =? 0)%nat then [] else
      zip_with Z.lxor (take 16 inp) (aes256_encrypt_block (counterBlock nonce counter) rk)
        ++ ctrLoop fuel rk nonce (u64 (counter + 1)) (drop 16 inp)
  end.

Definition aes256_ctr (key nonce : list Z) (initialCounter : Z) (inp : list Z) : list Z :=
  ctrLoop (length inp) (aes256_key_schedule key) nonce initialCounter inp.

(** ** FIPS 197 *)

(** Multiplication in GF(2^8) modulo x^8 + x^4 + x^3 + x + 1, by shift and add
    on the bits of the first factor. *)
Fixpoint gmulBits (n : nat) (a b : Z) : Z :=
  match n with
  | O => 0
  | S n =>
      let r := gmulBits n (a / 2) b in
      Z.lxor (if 128 <=? r then Z.lxor (2 * r) 283 else 2 * r) (if Z.odd a then b else 0)
  end.
Definition gmul (a b : Z) : Z := gmulBits 8 a b.

(** Inversion is the 254th power; the affine map adds a byte rotated four ways
    and the constant 99. *)
Definition ginv (b : Z) : Z :=
  let sq x := gmul x x in let b2 := sq b in let b4 := sq b2 in let b8 := sq b4 in
  let b16 := sq b8 in let b32 := sq b16 in let b64 := sq b32 in let b128 := sq b64 in
  gmul b2 (gmul b4 (gmul b8 (gmul b16 (gmul b32 (gmul b64 b128))))).
Definition rotl8 (n x : Z) : Z := (2 ^ n * x) mod 256 + 2 ^ n * x / 256.
Definition SBox (b : Z) : Z :=
  let x := ginv b in Z.lxor (Z.lxor (Z.lxor (Z.lxor (Z.lxor x (rotl8 1 x)) (rotl8 2 x)) (rotl8 3 x)) (rotl8 4 x)) 99.

Lemma sbox_table : SBox <$> (Z.of_nat <$> seq 0 256) = kAESSbox.
Proof. vm_compute. reflexivity. Qed.

(** The state: row [r] of column [c] is byte [r + 4 c]. *)
Definition matrix (f : nat -> nat -> Z) : list Z := (fun i => f (i mod 4) (i / 4))%nat <$> seq 0 16.
Definition cell (s : list Z) (r c : nat) : Z := coef s (r + 4 * c).

Definition SubBytes (s : list Z) : list Z := matrix (fun r c => SBox (cell s r c)).
Definition ShiftRows (s : list Z) : list Z := matrix (fun r c => cell s r ((c + r) mod 4)).
Definition mixRow (r : nat) : nat -> Z := fun k => coef [2; 3; 1; 1] ((k + 4 - r) mod 4).
Definition MixColumns (s : list Z) : list Z := matrix (fun r c =>
  Z.lxor (Z.lxor (Z.lxor (gmul (mixRow r 0) (cell s 0 c)) (gmul (mixRow r 1) (cell s 1 c)))
    (gmul (mixRow r 2) (cell s 2 c))) (gmul (mixRow r 3) (cell s 3 c))).

(** Words of four bytes; [w] is the expanded key. *)
Definition xorWord (u v : list Z) : list Z := zip_with Z.lxor u v.
Definition AddRoundKey (w : list (list Z)) (round : nat) (s : list Z) : list Z :=
  matrix (fun r c => Z.lxor (cell s r c) (coef (default [] (w !! (4 * round + c)%nat)) r)).

Definition RotWord (u : list Z) : list Z := drop 1 u ++ take 1 u.
Definition SubWord (u : list Z) : list Z := SBox <$> u.
Definition Rcon (j : nat) : list Z := [Nat.iter (j - 1) (gmul 2) 1; 0; 0; 0].

Definition expandStep (w : list (list Z)) (i : nat) : list (list Z) :=
  let temp := default [] (w !! (i - 1)%nat) in
  let temp :=
    if (i mod 8 =? 0)%nat then xorWord (SubWord (RotWord temp)) (Rcon (i / 8))
    else if (i mod 8 =? 4)%nat then SubWord temp else temp in
  w ++ [xorWord (default [] (w !! (i - 8)%nat)) temp].

Definition KeyExpansion (key : list Z) : list (list Z) :=
  foldl expandStep ((fun i => take 4 (drop (4 * i) key)) <$> seq 0 8) (seq 8 52).

Definition Cipher (w : list (list Z)) (inp : list Z) : list Z :=
  let s := AddRoundKey w 0 inp in
  let s := foldl (fun s round => AddRoundKey w round (MixColumns (ShiftRows (SubBytes s)))) s (seq 1 13) in
  AddRoundKey w 14 (ShiftRows (SubBytes s)).

Definition aes256_spec (key inp : list Z) : list Z := Cipher (KeyExpansion key) inp.

(** ** Facts on all bytes, by enumeration *)

Definition all_bytes : list Z := Z.of_nat <$> seq 0 256.

Lemma byte_enum (P : Z -> bool) : forallb P all_bytes = true -> forall b, byte b -> P b = true.
Proof.
  intros HP b Hb. rewrite forallb_forall in HP. apply HP. apply in_map_iff. exists (Z.to_nat b).
  unfold byte in Hb. split; [lia|]. apply in_seq. lia.
Qed.

Lemma sbox_spec b : byte b -> sbox b = SBox b.
Proof.
  intros Hb. unfold sbox. rewrite <- sbox_table. rewrite coef_fmap by (rewrite length_fmap, length_seq; unfold byte in Hb; lia).
  f_equal. unfold coef. rewrite list_lookup_fmap, lookup_seq_lt by (unfold byte in Hb; lia). simpl. unfold byte in Hb. lia.
Qed.

Definition byteb (x : Z) : bool := (0 <=? x) && (x <? 256).
Lemma byteb_byte x : byteb x = true -> byte x.
Proof. unfold byteb, byte. intros H. b2p. lia. Qed.

Lemma byte_facts b : byte b ->
  byte (SBox b) /\ xtime b = gmul 2 b /\ u8 (Z.lxor (xtime b) b) = gmul 3 b /\ gmul 1 b = b /\ byte (gmul 2 b) /\ byte (gmul 3 b).
Proof.
  intros Hb.
  pose proof (byte_enum (fun b => byteb (sbox b) && (xtime b =? gmul 2 b) && (u8 (Z.lxor (xtime b) b) =? gmul 3 b) && (gmul 1 b =? b)
    && byteb (gmul 2 b) && byteb (gmul 3 b)) ltac:(vm_compute; reflexivity) b Hb) as H.
  cbv beta in H. rewrite (sbox_spec b Hb) in H. b2p. repeat match goal with H : byteb _ = true |- _ => apply byteb_byte in H end.
  repeat match goal with H : (_ =? _) = true |- _ => apply Z.eqb_eq in H end. tauto.
Qed.

Lemma lxor_byte x y : byte x -> byte y -> byte (Z.lxor x y).
Proof. by apply (lxor_bound 8). Qed.

(** ** Words *)

Definition word_ok (u : list Z) : Prop := length u = 4%nat /\ Forall byte u.

Lemma be32_num l i : Forall byte l -> be32 l i = coef l (i + 3) + 2 ^ 8 * (coef l (i + 2) + 2 ^ 8 * (coef l (i + 1) + 2 ^ 8 * coef l i)).
Proof.
  intros Hl. unfold be32. rewrite <- !Z.lor_assoc.
  pose proof (coef_byte l i Hl). pose proof (coef_byte l (i + 1) Hl). pose proof (coef_byte l (i + 2) Hl). pose proof (coef_byte l (i + 3) Hl).
  unfold byte in *. rewrite (lor_shift _ (coef l (i + 3))), (lor_shift _ (_ + _)), (lor_shift _ (_ + _)) by lia. lia.
Qed.

Ltac word_cases u Hu := destruct u as [|?a [|?b [|?c [|?d [|? ?]]]]]; destruct Hu as [?Hlen Hu]; try discriminate;
  repeat match goal with H : Forall _ (_ :: _) |- _ => apply Forall_cons in H; destruct H as [? H] end.

Lemma be32_xor u v : word_ok u -> word_ok v -> be32 (xorWord u v) 0 = Z.lxor (be32 u 0) (be32 v 0).
Proof.
  intros Hu Hv. assert (Forall byte (xorWord u v)) as Hx.
  { apply Forall_lookup_2. intros i x (p & q & -> & Hp & Hq)%lookup_zip_with_Some.
    apply lxor_byte; [exact (Forall_lookup_1 _ _ _ _ (proj2 Hu) Hp)|exact (Forall_lookup_1 _ _ _ _ (proj2 Hv) Hq)]. }
  rewrite !be32_num by (done || apply Hu || apply Hv). destruct Hu as [Lu Bu], Hv as [Lv Bv].
  assert (forall i, (i < 4)%nat -> coef (xorWord u v) i = Z.lxor (coef u i) (coef v i)) as Hc by (intros; apply coef_zip_lt; lia).
  assert (forall i, byte (coef u i)) as Hbu by (intros; by apply coef_byte). assert (forall i, byte (coef v i)) as Hbv by (intros; by apply coef_byte).
  unfold byte in *. rewrite !Hc by lia. by rewrite !(lxor_split _ _ 8) by (lia || auto).
Qed.

(** The bytes of a word. *)
Lemma word_bytes u : word_ok u ->
  Z.land (Z.shiftr (be32 u 0) 24) 0xff = coef u 0 /\ Z.land (Z.shiftr (be32 u 0) 16) 0xff = coef u 1 /\
  Z.land (Z.shiftr (be32 u 0) 8) 0xff = coef u 2 /\ Z.land (be32 u 0) 0xff = coef u 3.
Proof.
  intros [Lu Bu]. rewrite be32_num by done. change 0xff with (Z.ones 8). rewrite !Z.land_ones, !shiftr_div by lia.
  pose proof (coef_byte u 0 Bu). pose proof (coef_byte u 1 Bu). pose proof (coef_byte u 2 Bu). pose proof (coef_byte u 3 Bu). unfold byte in *.
  cbn [Nat.add]. split_and!; Z.to_euclidean_division_equations; lia.
Qed.

Lemma subWord_spec u : word_ok u -> subWord (be32 u 0) = be32 (SubWord u) 0.
Proof.
  intros Hu. unfold subWord. destruct (word_bytes u Hu) as (-> & -> & -> & ->).
  unfold SubWord. word_cases u Hu. unfold be32, coef. cbn [lookup list_lookup default fmap list_fmap Nat.add]. unfold id.
  rewrite (sbox_spec a), (sbox_spec b), (sbox_spec c), (sbox_spec d) by assumption. reflexivity.
Qed.

Lemma rotWord_spec u : word_ok u ->
  Z.lor (u32 (Z.shiftl (be32 u 0) 8)) (Z.shiftr (be32 u 0) 24) = be32 (RotWord u) 0.
Proof.
  intros Hu. assert (word_ok (RotWord u)) as [_ Hr].
  { word_cases u Hu. split; [reflexivity|]. repeat (apply Forall_cons; split; [assumption|]). by apply Forall_nil. }
  rewrite !be32_num by (done || apply Hu). word_cases u Hu. unfold RotWord, coef. cbn [lookup list_lookup default app drop take Nat.add]. unfold id.
  unfold byte in *. rewrite shiftr_div by lia.
  assert ((d + 2 ^ 8 * (c + 2 ^ 8 * (b + 2 ^ 8 * a))) / 2 ^ 24 = a) as -> by (Z.to_euclidean_division_equations; lia).
  assert (u32 (Z.shiftl (d + 2 ^ 8 * (c + 2 ^ 8 * (b + 2 ^ 8 * a))) 8) = Z.shiftl (d + 2 ^ 8 * (c + 2 ^ 8 * b)) 8) as ->.
  { rewrite !Z.shiftl_mul_pow2 by lia. unfold u32. symmetry. apply Z.mod_unique with a; lia. }
  rewrite lor_shift by lia. lia.
Qed.

(** ** The key schedule *)

Definition words (w : list (list Z)) : list Z := (fun u => be32 u 0) <$> w.

Lemma coef_words w i : (i < length w)%nat -> coef (words w) i = be32 (default [] (w !! i)) 0.
Proof. intros [u Hu]%lookup_lt_is_Some_2. unfold coef, words. by rewrite list_lookup_fmap, Hu. Qed.

Lemma word_at w i : Forall word_ok w -> (i < length w)%nat -> word_ok (default [] (w !! i)).
Proof. intros Hw [u Hu]%lookup_lt_is_Some_2. rewrite Hu. simpl. by eapply Forall_lookup_1. Qed.

Lemma xorWord_ok u v : word_ok u -> word_ok v -> word_ok (xorWord u v).
Proof.
  intros [Lu Bu] [Lv Bv]. split; [unfold xorWord; rewrite length_zip_with; lia|].
  apply Forall_lookup_2. intros i x (p & q & -> & Hp & Hq)%lookup_zip_with_Some.
  apply lxor_byte; [exact (Forall_lookup_1 _ _ _ _ Bu Hp)|exact (Forall_lookup_1 _ _ _ _ Bv Hq)].
Qed.

Lemma SubWord_ok u : word_ok u -> word_ok (SubWord u).
Proof.
  intros [Lu Bu]. split; [unfold SubWord; by rewrite length_fmap|]. apply Forall_fmap. eapply Forall_impl; [exact Bu|]. intros b Hb. by apply byte_facts.
Qed.

Lemma RotWord_ok u : word_ok u -> word_ok (RotWord u).
Proof.
  intros [Lu Bu]. split; [unfold RotWord; rewrite length_app, length_drop, length_take; lia|].
  apply Forall_app. split; [by apply Forall_drop|by apply Forall_take].
Qed.

Lemma Rcon_ok j : (1 <= j < 8)%nat -> word_ok (Rcon j) /\ Z.shiftl (coef rcon j) 24 = be32 (Rcon j) 0.
Proof.
  intros Hj. assert (byteb (Nat.iter (j - 1) (gmul 2) 1) && (Z.shiftl (coef rcon j) 24 =? be32 (Rcon j) 0) = true) as H.
  { do 8 (destruct j as [|j]; [try lia; by vm_compute|]). lia. }
  b2p. split; [|assumption]. split; [reflexivity|]. unfold Rcon. apply Forall_cons. split; [by apply byteb_byte|].
  by repeat (apply Forall_cons; split; [unfold byte; lia|]).
Qed.

Lemma expandStep_ok w i : Forall word_ok w -> length w = i -> (8 <= i < 60)%nat ->
  scheduleStep (words w) i = words (expandStep w i) /\ Forall word_ok (expandStep w i) /\ length (expandStep w i) = S i.
Proof.
  intros Hw Hl Hi. unfold scheduleStep, expandStep. rewrite !coef_words by lia.
  pose proof (word_at w (i - 1) Hw ltac:(lia)) as H1. pose proof (word_at w (i - 8) Hw ltac:(lia)) as H8.
  set (t := default [] (w !! (i - 1)%nat)) in *. set (u := default [] (w !! (i - 8)%nat)) in *. clearbody t u.
  assert (forall v, word_ok v -> words w ++ [Z.lxor (be32 u 0) (be32 v 0)] = words (w ++ [xorWord u v]) /\
    Forall word_ok (w ++ [xorWord u v]) /\ length (w ++ [xorWord u v]) = S i) as Hstep.
  { intros v Hv. unfold words. rewrite fmap_app, length_app. simpl. rewrite be32_xor by done. split_and!; [done| |lia].
    apply Forall_app. split; [done|]. apply Forall_singleton. by apply xorWord_ok. }
  destruct (i mod 8 =? 0)%nat; [|destruct (i mod 8 =? 4)%nat].
  - assert (1 <= i / 8 < 8)%nat as Hj by (split; [apply (Nat.div_le_lower_bound i 8 1); lia|apply Nat.Div0.div_lt_upper_bound; lia]).
    destruct (Rcon_ok (i / 8) Hj) as [Hr ->].
    rewrite rotWord_spec, subWord_spec, <- be32_xor by (done || by apply SubWord_ok, RotWord_ok || by apply RotWord_ok).
    apply Hstep, xorWord_ok; [by apply SubWord_ok, RotWord_ok|done].
  - rewrite subWord_spec by done. by apply Hstep, SubWord_ok.
  - by apply Hstep.
Qed.

Lemma be32_slice key i : (i + 4 <= length key)%nat -> be32 key i = be32 (take 4 (drop i key)) 0.
Proof. intros. unfold be32. rewrite !coef_take, !coef_drop by lia. by rewrite Nat.add_0_r. Qed.

Lemma key_schedule_spec key : Forall byte key -> length key = 32%nat ->
  aes256_key_schedule key = words (KeyExpansion key) /\ Forall word_ok (KeyExpansion key) /\ length (KeyExpansion key) = 60%nat.
Proof.
  intros Hk Hl. unfold aes256_key_schedule, KeyExpansion. set (w0 := (fun i => take 4 (drop (4 * i) key)) <$> seq 0 8).
  assert (Forall word_ok w0) as Hw0.
  { apply Forall_fmap, Forall_forall. intros i Hi%elem_of_seq. split; [rewrite length_take, length_drop; lia|by apply Forall_take, Forall_drop]. }
  replace ((fun i => be32 key (4 * i)) <$> seq 0 8) with (words w0); cycle 1.
  { unfold words, w0. rewrite <- list_fmap_compose. apply list_fmap_ext. intros ? i Hi%list_elem_of_lookup_2%elem_of_seq. simpl compose. symmetry. apply be32_slice. lia. }
  assert (forall k, (k <= 52)%nat -> foldl scheduleStep (words w0) (seq 8 k) = words (foldl expandStep w0 (seq 8 k)) /\
    Forall word_ok (foldl expandStep w0 (seq 8 k)) /\ length (foldl expandStep w0 (seq 8 k)) = (8 + k)%nat) as H; [|by apply (H 52%nat)].
  assert (length w0 = 8%nat) as L0 by done. clearbody w0. induction k as [|k IH]; intros Hk'; [done|].
  rewrite (seq_S k 8), !foldl_app. cbn [foldl]. destruct (IH ltac:(lia)) as (-> & Hw & Hlw).
  destruct (expandStep_ok _ (8 + k) Hw Hlw ltac:(lia)) as (-> & ? & ->). split_and!; [done|done|lia].
Qed.

(** ** Blocks *)

Lemma matrix_ext f g : (forall r c, (r < 4)%nat -> (c < 4)%nat -> f r c = g r c) -> matrix f = matrix g.
Proof.
  intros H. apply list_fmap_ext. intros ? i Hi%list_elem_of_lookup_2%elem_of_seq.
  apply H; [apply Nat.mod_upper_bound; lia|apply Nat.Div0.div_lt_upper_bound; lia].
Qed.

Lemma cell_matrix f r c : (r < 4)%nat -> (c < 4)%nat -> cell (matrix f) r c = f r c.
Proof. intros Hr Hc. by do 4 (destruct r as [|r]; [by do 4 (destruct c as [|c]; [reflexivity|]); lia|]); lia. Qed.

Lemma matrix_byte f : (forall r c, byte (f r c)) -> Forall byte (matrix f).
Proof. intros H. apply Forall_fmap, Forall_forall. intros. apply H. Qed.

Lemma cell_byte s r c : Forall byte s -> byte (cell s r c).
Proof. apply coef_byte. Qed.

Ltac split16 s Hs := do 16 (destruct s as [|? s]; [discriminate Hs|]); destruct s; [|discriminate Hs].

(** The updates of a column by four key bytes. *)
Definition addKey (kb : nat -> nat -> Z) (s : list Z) : list Z :=
  foldl (fun s col => xorAt (xorAt (xorAt (xorAt s (4 * col + 0) (kb 0%nat col)) (4 * col + 1) (kb 1%nat col)) (4 * col + 2) (kb 2%nat col)) (4 * col + 3) (kb 3%nat col)) s (seq 0 4).

Lemma addKey_matrix kb s : length s = 16%nat -> addKey kb s = matrix (fun r c => Z.lxor (cell s r c) (kb r c)).
Proof. intros Hs. split16 s Hs. reflexivity. Qed.

Lemma addRoundKey_spec w round s : Forall word_ok w -> (4 * round + 4 <= length w)%nat -> length s = 16%nat ->
  addRoundKey (words w) round s = AddRoundKey w round s.
Proof.
  intros Hw Hl Hs.
  transitivity (addKey (fun r c => coef (let x := coef (words w) (4 * round + c) in
    [Z.land (Z.shiftr x 24) 0xff; Z.land (Z.shiftr x 16) 0xff; Z.land (Z.shiftr x 8) 0xff; Z.land x 0xff]) r) s).
  { unfold addRoundKey, addKey. apply (foldl_ext_in _ _ (fun _ => True)); [done|]. intros s' col _ _. by split. }
  rewrite addKey_matrix by done. apply matrix_ext. intros r c Hr Hc. f_equal. cbv zeta. rewrite coef_words by lia.
  pose proof (word_at w (4 * round + c) Hw ltac:(lia)) as Hu. destruct (word_bytes _ Hu) as (-> & -> & -> & ->).
  by do 4 (destruct r as [|r]; [reflexivity|]); lia.
Qed.

Lemma subBytes_spec s : Forall byte s -> length s = 16%nat -> subBytes s = SubBytes s.
Proof.
  intros Hb Hs. transitivity (matrix (fun r c => sbox (cell s r c))).
  - split16 s Hs. reflexivity.
  - apply matrix_ext. intros r c _ _. by apply sbox_spec, cell_byte.
Qed.

Lemma shiftRows_spec s : length s = 16%nat -> shiftRows s = ShiftRows s.
Proof. intros Hs. split16 s Hs. reflexivity. Qed.

Lemma mixColumns_spec s : Forall byte s -> length s = 16%nat -> mixColumns s = MixColumns s.
Proof.
  intros Hb Hs.
  transitivity (matrix (fun r c => let a := cell s 0 c in let b := cell s 1 c in let d := cell s 2 c in let e := cell s 3 c in
    coef [Z.lxor (Z.lxor (Z.lxor (xtime a) (u8 (Z.lxor (xtime b) b))) d) e;
          Z.lxor (Z.lxor (Z.lxor a (xtime b)) (u8 (Z.lxor (xtime d) d))) e;
          Z.lxor (Z.lxor (Z.lxor a b) (xtime d)) (u8 (Z.lxor (xtime e) e));
          Z.lxor (Z.lxor (Z.lxor (u8 (Z.lxor (xtime a) a)) b) d) (xtime e)] r)).
  - split16 s Hs. reflexivity.
  - apply matrix_ext. intros r c Hr Hc. cbv zeta.
    destruct (byte_facts (cell s 0 c) (cell_byte s 0 c Hb)) as (_ & -> & -> & E0 & _).
    destruct (byte_facts (cell s 1 c) (cell_byte s 1 c Hb)) as (_ & -> & -> & E1 & _).
    destruct (byte_facts (cell s 2 c) (cell_byte s 2 c Hb)) as (_ & -> & -> & E2 & _).
    destruct (byte_facts (cell s 3 c) (cell_byte s 3 c Hb)) as (_ & -> & -> & E3 & _).
    do 4 (destruct r as [|r]; [repeat match goal with |- context [mixRow ?r ?k] => let v := eval vm_compute in (mixRow r k) in change (mixRow r k) with v end;
      rewrite ?E0, ?E1, ?E2, ?E3; reflexivity|]). lia.
Qed.

(** ** The cipher *)

Lemma length_matrix f : length (matrix f) = 16%nat.
Proof. done. Qed.

Lemma sub_shift s : Forall byte s -> length s = 16%nat ->
  shiftRows (subBytes s) = ShiftRows (SubBytes s) /\ Forall byte (ShiftRows (SubBytes s)).
Proof.
  intros Hb Hs. rewrite subBytes_spec, shiftRows_spec by done. split; [done|].
  apply matrix_byte. intros r c. apply cell_byte, matrix_byte. intros r' c'. by apply byte_facts, cell_byte.
Qed.

Lemma MixColumns_byte s : Forall byte s -> Forall byte (MixColumns s).
Proof.
  intros Hb. apply matrix_byte. intros r c.
  assert (forall k, byte (gmul (mixRow r k) (cell s k c))) as H.
  { intros k. destruct (byte_facts _ (cell_byte s k c Hb)) as (_ & _ & _ & F1 & F2 & F3).
    assert (mixRow r k = 2 \/ mixRow r k = 3 \/ mixRow r k = 1) as [-> | [-> | ->]].
    - unfold mixRow. pose proof (Nat.mod_upper_bound (k + 4 - r)%nat 4 ltac:(lia)).
      generalize dependent ((k + 4 - r) mod 4)%nat. intros j Hj.
      do 4 (destruct j as [|j]; [first [left; reflexivity|right; left; reflexivity|right; right; reflexivity]|]). lia.
    - exact F2.
    - exact F3.
    - rewrite F1. by apply cell_byte. }
  apply lxor_byte; [apply lxor_byte; [apply lxor_byte|]|]; apply H.
Qed.

Lemma AddRoundKey_byte w round s : Forall word_ok w -> Forall byte s -> Forall byte (AddRoundKey w round s).
Proof.
  intros Hw Hb. apply matrix_byte. intros r c. apply lxor_byte; [by apply cell_byte|].
  apply coef_byte. destruct (w !! _) eqn:E; simpl; [|by apply Forall_nil]. by apply (Forall_lookup_1 _ _ _ _ Hw E).
Qed.

Lemma encrypt_block_spec w inp : Forall word_ok w -> length w = 60%nat -> Forall byte inp -> length inp = 16%nat ->
  aes256_encrypt_block inp (words w) = Cipher w inp.
Proof.
  intros Hw Hl Hb Hi. unfold aes256_encrypt_block, Cipher. change (seq 1 14) with (seq 1 13 ++ [14%nat]).
  rewrite foldl_app, addRoundKey_spec by (done || lia). cbn [foldl].
  destruct (foldl_ext_in (roundStep (words w)) (fun s round => AddRoundKey w round (MixColumns (ShiftRows (SubBytes s))))
    (fun s => Forall byte s /\ length s = 16%nat) (seq 1 13) (AddRoundKey w 0 inp)) as [E [Hb' Hl']].
  - split; [by apply AddRoundKey_byte|done].
  - intros s round [Hs Ls] Hr%elem_of_seq. destruct (sub_shift s Hs Ls) as [Es Bs].
    assert (roundStep (words w) s round = AddRoundKey w round (MixColumns (ShiftRows (SubBytes s)))) as ->.
    { unfold roundStep. rewrite Es, (proj2 (Nat.ltb_lt round 14)) by lia. rewrite mixColumns_spec by done. apply addRoundKey_spec; [done|lia|done]. }
    split; [done|]. split; [|done]. by apply AddRoundKey_byte, MixColumns_byte.
  - rewrite E. rewrite E in Hb', Hl'. clear E. revert Hb' Hl'. generalize (foldl (fun s round => AddRoundKey w round (MixColumns (ShiftRows (SubBytes s)))) (AddRoundKey w 0 inp) (seq 1 13)). intros s Hb' Hl'. destruct (sub_shift s Hb' Hl') as [Es _].
    unfold roundStep. change (14 <? 14)%nat with false. cbv iota. rewrite Es. apply addRoundKey_spec; [done|lia|done].
Qed.

Lemma aes_spec key inp : Forall byte key -> length key = 32%nat -> Forall byte inp -> length inp = 16%nat ->
  aes256_encrypt_block inp (aes256_key_schedule key) = aes256_spec key inp.
Proof.
  intros Hk Lk Hb Lb. destruct (key_schedule_spec key Hk Lk) as (-> & Hw & Hl). by apply encrypt_block_spec.
Qed.

Lemma aes_spec_ok key inp : Forall byte key -> length key = 32%nat -> Forall byte inp ->
  Forall byte (aes256_spec key inp) /\ length (aes256_spec key inp) = 16%nat.
Proof.
  intros Hk Lk Hb. split; [|reflexivity]. destruct (key_schedule_spec key Hk Lk) as (_ & Hw & _). unfold aes256_spec, Cipher.
  set (s := foldl _ _ _). assert (Forall byte s /\ length s = 16%nat) as [Bs Ls]; [|by apply AddRoundKey_byte, sub_shift].
  apply (foldl_inv (fun s => Forall byte s /\ length s = 16%nat)); [split; [by apply AddRoundKey_byte|done]|].
  intros s' r _ [Bs Ls]. split; [|done]. by apply AddRoundKey_byte, MixColumns_byte, sub_shift.
Qed.

Lemma length_block inp rk : length (aes256_encrypt_block inp rk) = length inp.
Proof.
  assert (forall r s, length (addRoundKey rk r s) = length s) as Ha.
  { intros. apply (foldl_inv (fun t => length t = length s)); [done|]. intros t col _ <-. unfold xorAt. by rewrite !length_insert. }
  assert (forall s, length (mixColumns s) = length s) as Hm.
  { intros. apply (foldl_inv (fun t => length t = length s)); [done|]. intros t col _ <-. by rewrite !length_insert. }
  unfold aes256_encrypt_block. apply (foldl_inv (fun s => length s = length inp)); [apply Ha|]. intros s r _ Hs.
  unfold roundStep. rewrite Ha. assert (length (shiftRows (subBytes s)) = length inp) as E.
  { unfold shiftRows, move, subBytes. by rewrite !length_insert, length_fmap. }
  case_goal; [by rewrite Hm|done].
Qed.

(** ** The stream *)

Lemma length_counterBlock nonce c : length nonce = 12%nat -> length (counterBlock nonce c) = 16%nat.
Proof. intros Hn. unfold counterBlock. by rewrite length_app, length_take, Hn. Qed.

(** Only the low 32 bits of the counter matter. *)
Lemma counterBlock_mod nonce c : counterBlock nonce (c mod 2 ^ 64) = counterBlock nonce c.
Proof.
  unfold counterBlock. do 2 f_equal. change 0xffffffff with (Z.ones 32). rewrite !Z.land_ones by lia.
  apply Z.mod_mod_divide. by exists (2 ^ 32).
Qed.

Lemma ctrLoop_spec fuel rk nonce c inp : length nonce = 12%nat -> (length inp <= fuel)%nat ->
  length (ctrLoop fuel rk nonce c inp) = length inp /\
  forall i, (i < length inp)%nat -> coef (ctrLoop fuel rk nonce c inp) i =
    Z.lxor (coef inp i) (coef (aes256_encrypt_block (counterBlock nonce (c + Z.of_nat (i / 16))) rk) (i mod 16)).
Proof.
  intros Hn. revert c inp. induction fuel as [|fuel IH]; intros c inp Hf.
  { destruct inp; [|simpl in Hf; lia]. split; [done|intros i Hi; simpl in Hi; lia]. }
  cbn [ctrLoop]. destruct (length inp =? 0)%nat eqn:E0.
  { apply Nat.eqb_eq, length_zero_iff_nil in E0 as ->. split; [done|simpl; lia]. }
  apply Nat.eqb_neq in E0.
  destruct (IH (u64 (c + 1)) (drop 16 inp)) as [IHl IHc]; [rewrite length_drop; lia|].
  assert (length (aes256_encrypt_block (counterBlock nonce c) rk) = 16%nat) as Lb by by rewrite length_block, length_counterBlock.
  assert (length (zip_with Z.lxor (take 16 inp) (aes256_encrypt_block (counterBlock nonce c) rk)) = Nat.min 16 (length inp)) as Lz.
  { rewrite length_zip_with, length_take, Lb. lia. }
  split; [rewrite length_app, IHl, Lz, length_drop; lia|]. intros i Hi.
  destruct (decide (i < 16)%nat) as [Hlt|Hge].
  - rewrite coef_app_l by lia. rewrite Nat.div_small, Nat.mod_small, Z.add_0_r by lia.
    rewrite coef_zip_lt by (rewrite ?length_take, ?Lb; lia). rewrite coef_take by lia. reflexivity.
  - rewrite (coef_app_r' _ _ i (i - 16)) by lia. rewrite IHc, coef_drop by (rewrite length_drop; lia).
    replace (16 + (i - 16))%nat with i by lia.
    assert (i / 16 = 1 + (i - 16) / 16)%nat as -> by (rewrite <- (Nat.div_add_l 1 16) by lia; f_equal; lia).
    assert (i mod 16 = (i - 16) mod 16)%nat as -> by (rewrite <- (Nat.Div0.mod_add (i - 16) 1 16); f_equal; lia).
    rewrite <- (counterBlock_mod nonce (u64 (c + 1) + _)), <- (counterBlock_mod nonce (c + _)).
    assert ((u64 (c + 1) + Z.of_nat ((i - 16) / 16)) mod 2 ^ 64 = (c + Z.of_nat (1 + (i - 16) / 16)) mod 2 ^ 64) as ->; [|reflexivity].
    unfold u64. rewrite Zplus_mod_idemp_l. f_equal. lia.
Qed.

(** Twelve bytes of the nonce are read. *)
Lemma ctrLoop_take fuel rk nonce c inp : ctrLoop fuel rk (take 12 nonce) c inp = ctrLoop fuel rk nonce c inp.
Proof.
  revert c inp. induction fuel as [|fuel IH]; intros c inp; [done|]. cbn [ctrLoop]. rewrite IH.
  unfold counterBlock. by rewrite take_idemp.
Qed.

(** The 64-bit counter can be kept modulo 2^64 or not. *)
Lemma ctrLoop_mod fuel rk nonce c inp : ctrLoop fuel rk nonce (u64 c) inp = ctrLoop fuel rk nonce c inp.
Proof.
  destruct fuel as [|fuel]; [done|]. cbn [ctrLoop]. unfold u64. rewrite counterBlock_mod, Zplus_mod_idemp_l. reflexivity.
Qed.

Lemma ctrLoop_involutive fuel rk nonce c inp : length nonce = 12%nat -> (length inp <= fuel)%nat ->
  ctrLoop fuel rk nonce c (ctrLoop fuel rk nonce c inp) = inp.
Proof.
  intros Hn Hf. destruct (ctrLoop_spec fuel rk nonce c inp Hn Hf) as [L1 C1].
  destruct (ctrLoop_spec fuel rk nonce c (ctrLoop fuel rk nonce c inp) Hn ltac:(lia)) as [L2 C2]. rewrite L1 in L2, C2.
  apply coef_ext; [done|]. intros i Hi. rewrite L2 in Hi. rewrite C2, C1 by done.
  by rewrite Z.lxor_assoc, Z.lxor_nilpotent, Z.lxor_0_r.
Qed.

Lemma counterBlock_spec nonce c : length nonce = 12%nat -> counterBlock nonce c = nonce ++ rev (le_bytes 4 c).
Proof.
  intros Hn. unfold counterBlock. rewrite take_ge by lia. f_equal. change 0xffffffff with (Z.ones 32). rewrite Z.land_ones by lia.
  change (c mod 2 ^ 32) with (u32 c). by rewrite be32_bytes_u32, be32_bytes_rev.
Qed.

Lemma counterBlock_ok nonce c : Forall byte nonce -> length nonce = 12%nat ->
  Forall byte (nonce ++ rev (le_bytes 4 c)) /\ length (nonce ++ rev (le_bytes 4 c)) = 16%nat.
Proof.
  intros Hb Hn. split; [|rewrite length_app, length_rev, length_le_bytes; lia].
  apply Forall_app. split; [done|]. apply Forall_rev, le_bytes_byte.
Qed.

Lemma ctr_spec key nonce c inp : Forall byte key -> length key = 32%nat -> Forall byte nonce -> length nonce = 12%nat ->
  length (aes256_ctr key nonce c inp) = length inp /\
  forall i, (i < length inp)%nat -> coef (aes256_ctr key nonce c inp) i =
    Z.lxor (coef inp i) (coef (aes256_spec key (nonce ++ rev (le_bytes 4 (c + Z.of_nat (i / 16))))) (i mod 16)).
Proof.
  intros Hk Lk Hn Ln. destruct (ctrLoop_spec (length inp) (aes256_key_schedule key) nonce c inp Ln (le_n _)) as [L C].
  split; [exact L|]. intros i Hi. unfold aes256_ctr. rewrite C by done. rewrite counterBlock_spec by done.
  destruct (counterBlock_ok nonce (c + Z.of_nat (i / 16)) Hn Ln). by rewrite aes_spec.
Qed.

(** ** Properties *)

(** The block cipher.  For a key of 32 bytes and a block of 16, the key
    schedule on words and the in-place rounds compute AES-256 as FIPS 197
    defines it: the table is inversion in GF(2^8) followed by the affine map,
    ShiftRows rotates the rows of the state matrix, MixColumns multiplies the
    columns by the circulant matrix of 2, 3, 1, 1. *)
Theorem aes256_is_fips197 key inp : Forall byte key -> length key = 32%nat -> Forall byte inp -> length inp = 16%nat ->
  aes256_encrypt_block inp (aes256_key_schedule key) = aes256_spec key inp.
Proof. apply aes_spec. Qed.

(** The key and block of FIPS 197, appendix C.3. *)
Definition fips_key : list Z := Z.of_nat <$> seq 0 32.
Definition fips_block : list Z := (fun i => Z.of_nat i * 17) <$> seq 0 16.

Example fips_vector : aes256_encrypt_block fips_block (aes256_key_schedule fips_key) = rev (le_bytes 16 0x8ea2b7ca516745bfeafc49904b496089).
Proof. vm_compute. reflexivity. Qed.

Lemma fips_key_ok : Forall byte fips_key /\ length fips_key = 32%nat.
Proof.
  split; [|reflexivity]. apply Forall_fmap, Forall_forall. intros i Hi%elem_of_seq. unfold byte. simpl. lia.
Qed.

Lemma fips_block_ok : Forall byte fips_block /\ length fips_block = 16%nat.
Proof.
  split; [|reflexivity]. apply Forall_fmap, Forall_forall. intros i Hi%elem_of_seq. unfold byte. simpl. lia.
Qed.

Lemma aes256_is_fips197_witness :
  length fips_block = 16%nat /\ aes256_encrypt_block fips_block (aes256_key_schedule fips_key) = aes256_spec fips_key fips_block.
Proof.
  split; [exact (proj2 fips_block_ok)|].
  exact (aes256_is_fips197 fips_key fips_block (proj1 fips_key_ok) (proj2 fips_key_ok) (proj1 fips_block_ok) (proj2 fips_block_ok)).
Defined.

(** C30: counter mode.  Byte i of the input is combined with byte i mod 16 of
    the AES-256 encryption of nonce || be32 (initialCounter + i / 16).  Hence
    the keystream of initial counter c + 1 is the keystream of c without its
    first 16 bytes: two packets of a channel, whose initial counters are their
    consecutive sequence numbers, share keystream as soon as the first one is
    longer than one block. *)
Theorem aes256_ctr_stream key nonce c inp : Forall byte key -> length key = 32%nat -> Forall byte nonce -> length nonce = 12%nat ->
  (length (aes256_ctr key nonce c inp) = length inp /\
   forall i, (i < length inp)%nat -> coef (aes256_ctr key nonce c inp) i =
     Z.lxor (coef inp i) (coef (aes256_spec key (nonce ++ rev (le_bytes 4 (c + Z.of_nat (i / 16))))) (i mod 16))) /\
  (forall n i, (i < n)%nat ->
     coef (aes256_ctr key nonce c (replicate (16 + n) 0)) (16 + i) = coef (aes256_ctr key nonce (c + 1) (replicate n 0)) i).
Proof.
  intros Hk Lk Hn Ln. split; [by apply ctr_spec|]. intros n i Hi.
  destruct (ctr_spec key nonce c (replicate (16 + n) 0) Hk Lk Hn Ln) as [_ C1].
  destruct (ctr_spec key nonce (c + 1) (replicate n 0) Hk Lk Hn Ln) as [_ C2].
  rewrite C1, C2, !coef_zeros by (rewrite length_replicate; lia).
  assert ((16 + i) mod 16 = i mod 16)%nat as -> by (rewrite <- (Nat.Div0.mod_add i 1 16); f_equal; lia).
  assert (c + Z.of_nat ((16 + i) / 16) = c + 1 + Z.of_nat (i / 16)) as ->; [|reflexivity].
  change (16 + i)%nat with (1 * 16 + i)%nat. rewrite Nat.div_add_l by lia. lia.
Qed.

Lemma aes256_ctr_stream_witness :
  length (take 12 fips_block) = 12%nat /\
  coef (aes256_ctr fips_key (take 12 fips_block) 7 (replicate 32 0)) 20 = coef (aes256_ctr fips_key (take 12 fips_block) 8 (replicate 16 0)) 4.
Proof.
  split; [reflexivity|].
  exact (proj2 (aes256_ctr_stream fips_key (take 12 fips_block) 7 [] (proj1 fips_key_ok) (proj2 fips_key_ok)
    (Forall_take _ _ _ (proj1 fips_block_ok)) eq_refl) 16%nat 4%nat ltac:(lia)).
Defined.
End Aes.
