(* ===== verification/AesNi.v ===== *)
(** * The hardware paths of AES-256

    Model of the AES-NI code of src/advanced/secure_channel_crypto.cpp
    ([aes256_assist_128], [aes256_assist_256], [aes256_ni_key_expand],
    [aes256_ctr_hw]) over registers of sixteen bytes in memory order.  The
    compiler intrinsics are the instructions of the processor manual, on the
    round functions of [Aes].  The hardware block cipher and counter mode are
    those of the software path. *)

From S2P Require Import Prelude Bytes Words Aes.

Module AesNi.
Import Bytes Words Aes.

(** ** Instructions *)

Definition mm_xor_si128 (x y : list Z) : list Z := zip_with Z.lxor x y.

(** Byte shifts: towards the high end, and back. *)
Definition mm_slli_si128 (x : list Z) (n : nat) : list Z := replicate n 0 ++ take (16 - n) x.
Definition mm_srli_si128 (x : list Z) (n : nat) : list Z := drop n x ++ replicate n 0.

Definition dword (x : list Z) (i : nat) : list Z := take 4 (drop (4 * i) x).

Definition mm_shuffle_epi32 (x : list Z) (imm : Z) : list Z :=
  seq 0 4 ≫= fun k => dword x (Z.to_nat (Z.land (Z.shiftr imm (2 * Z.of_nat k)) 3)).

Definition mm_aeskeygenassist_si128 (x : list Z) (imm : Z) : list Z :=
  let sub i := subBytes (dword x i) in
  let rot u := mm_xor_si128 (drop 1 u ++ take 1 u) [imm; 0; 0; 0] in
  sub 1%nat ++ rot (sub 1%nat) ++ sub 3%nat ++ rot (sub 3%nat).

Definition mm_aesenc_si128 (s k : list Z) : list Z := mm_xor_si128 (mixColumns (subBytes (shiftRows s))) k.
Definition mm_aesenclast_si128 (s k : list Z) : list Z := mm_xor_si128 (subBytes (shiftRows s)) k.

(** ** Key expansion *)

Definition aes256_assist_128 (t1 t2 : list Z) : list Z :=
  let t2 := mm_shuffle_epi32 t2 0xff in
  let t1 := mm_xor_si128 t1 (mm_slli_si128 t1 4) in
  let t1 := mm_xor_si128 t1 (mm_slli_si128 t1 4) in
  let t1 := mm_xor_si128 t1 (mm_slli_si128 t1 4) in
  mm_xor_si128 t1 t2.

Definition aes256_assist_256 (t1 t3 : list Z) : list Z :=
  let t2 := mm_shuffle_epi32 (mm_aeskeygenassist_si128 t1 0) 0xaa in
  let t3 := mm_xor_si128 t3 (mm_slli_si128 t3 4) in
  let t3 := mm_xor_si128 t3 (mm_slli_si128 t3 4) in
  let t3 := mm_xor_si128 t3 (mm_slli_si128 t3 4) in
  mm_xor_si128 t3 t2.

(** The lines of [aes256_ni_key_expand], one round constant after the other. *)
Fixpoint niRounds (t1 t3 : list Z) (rcons : list Z) : list (list Z) :=
  match rcons with
  | [] => []
  | c :: rcons =>
      let t1 := aes256_assist_128 t1 (mm_aeskeygenassist_si128 t3 c) in
      match rcons with
      | [] => [t1]
      | _ => let t3 := aes256_assist_256 t1 t3 in t1 :: t3 :: niRounds t1 t3 rcons
      end
  end.

Definition aes256_ni_key_expand (key : list Z) : list (list Z) :=
  let t1 := take 16 key in let t3 := take 16 (drop 16 key) in
  t1 :: t3 :: niRounds t1 t3 [0x01; 0x02; 0x04; 0x08; 0x10; 0x20; 0x40].

(** ** Blocks *)

Definition roundKey (rk : list (list Z)) (r : nat) : list Z := default [] (rk !! r).

Definition niBlock (rk : list (list Z)) (b : list Z) : list Z :=
  let b := mm_xor_si128 b (roundKey rk 0) in
  let b := foldl (fun b r => mm_aesenc_si128 b (roundKey rk r)) b (seq 1 13) in
  mm_aesenclast_si128 b (roundKey rk 14).

(** ** Counter mode *)

Definition ctrBlock (rk : list (list Z)) (nonce : list Z) (ctr : Z) : list Z := niBlock rk (counterBlock nonce ctr).

(** The single blocks and the tail. *)
Fixpoint ctrSingles (fuel : nat) (rk : list (list Z)) (nonce : list Z) (ctr : Z) (inp : list Z) : list Z :=
  match fuel with
  | O => []
  | S fuel =>
      if (16 <=? length inp)%nat then
        mm_xor_si128 (take 16 inp) (ctrBlock rk nonce ctr) ++ ctrSingles fuel rk nonce (u64 (ctr + 1)) (drop 16 inp)
      else zip_with Z.lxor inp (ctrBlock rk nonce ctr)
  end.

(** Four blocks at a time while there are 64 bytes. *)
Fixpoint ctrQuads (fuel : nat) (rk : list (list Z)) (nonce : list Z) (ctr : Z) (inp : list Z) : list Z :=
  match fuel with
  | O => []
  | S fuel =>
      if (64 <=? length inp)%nat then
        mm_xor_si128 (take 16 inp) (ctrBlock rk nonce ctr) ++
        mm_xor_si128 (take 16 (drop 16 inp)) (ctrBlock rk nonce (u64 (ctr + 1))) ++
        mm_xor_si128 (take 16 (drop 32 inp)) (ctrBlock rk nonce (u64 (ctr + 2))) ++
        mm_xor_si128 (take 16 (drop 48 inp)) (ctrBlock rk nonce (u64 (ctr + 3))) ++
        ctrQuads fuel rk nonce (u64 (ctr + 4)) (drop 64 inp)
      else ctrSingles (S (length inp)) rk nonce ctr inp
  end.

Definition aes256_ctr_hw (key nonce : list Z) (initialCounter : Z) (inp : list Z) : list Z :=
  ctrQuads (S (length inp)) (aes256_ni_key_expand key) nonce initialCounter inp.

(** The counter mode a machine runs. *)
Definition aes256_ctr (hw : bool) (key nonce : list Z) (initialCounter : Z) (inp : list Z) : list Z :=
  if hw then aes256_ctr_hw key nonce initialCounter inp else Aes.aes256_ctr key nonce initialCounter inp.

(** ** Key expansion, word by word *)

Ltac xor_bits :=
  apply Z.bits_inj; intros ?k; rewrite ?Z.lxor_spec, ?Z.bits_0; repeat destruct (Z.testbit _ _); reflexivity.

Ltac split4 u Hu := destruct Hu as [?L _]; do 4 (destruct u as [|? u]; [discriminate L|]); destruct u; [clear L|discriminate L].

Lemma subBytes_word u : Forall byte u -> subBytes u = SubWord u.
Proof. induction 1 as [|b u Hb _ IH]; [done|]. unfold subBytes, SubWord in *. cbn [fmap list_fmap]. by rewrite IH, sbox_spec. Qed.

Definition chain (a0 a1 a2 a3 t : list Z) : list Z :=
  let n0 := xorWord a0 t in let n1 := xorWord a1 n0 in let n2 := xorWord a2 n1 in let n3 := xorWord a3 n2 in n0 ++ n1 ++ n2 ++ n3.

(** Three shifted sums accumulate the words. *)
Lemma shifted_sums a0 a1 a2 a3 t : word_ok a0 -> word_ok a1 -> word_ok a2 -> word_ok a3 -> word_ok t ->
  (let x := a0 ++ a1 ++ a2 ++ a3 in
   let x := mm_xor_si128 x (mm_slli_si128 x 4) in let x := mm_xor_si128 x (mm_slli_si128 x 4) in
   let x := mm_xor_si128 x (mm_slli_si128 x 4) in mm_xor_si128 x (t ++ t ++ t ++ t)) = chain a0 a1 a2 a3 t.
Proof.
  intros A0 A1 A2 A3 Ht. split4 a0 A0. split4 a1 A1. split4 a2 A2. split4 a3 A3. split4 t Ht.
  unfold chain, xorWord, mm_xor_si128, mm_slli_si128. cbn [app replicate take Nat.sub zip_with].
  repeat apply (f_equal2 cons); try reflexivity; xor_bits.
Qed.

Lemma keygen_dword3 b0 b1 b2 b3 c : word_ok b0 -> word_ok b1 -> word_ok b2 -> word_ok b3 ->
  mm_shuffle_epi32 (mm_aeskeygenassist_si128 (b0 ++ b1 ++ b2 ++ b3) c) 0xff =
  (let t := xorWord (SubWord (RotWord b3)) [c; 0; 0; 0] in t ++ t ++ t ++ t) /\
  mm_shuffle_epi32 (mm_aeskeygenassist_si128 (b0 ++ b1 ++ b2 ++ b3) c) 0xaa = SubWord b3 ++ SubWord b3 ++ SubWord b3 ++ SubWord b3.
Proof.
  intros B0 B1 B2 B3. rewrite <- !subBytes_word by (apply RotWord_ok, B3 || apply B3).
  split4 b0 B0. split4 b1 B1. split4 b2 B2. split4 b3 B3. split; reflexivity.
Qed.

Lemma assist_128_words a0 a1 a2 a3 b0 b1 b2 b3 c : word_ok a0 -> word_ok a1 -> word_ok a2 -> word_ok a3 ->
  word_ok b0 -> word_ok b1 -> word_ok b2 -> word_ok b3 -> byte c ->
  aes256_assist_128 (a0 ++ a1 ++ a2 ++ a3) (mm_aeskeygenassist_si128 (b0 ++ b1 ++ b2 ++ b3) c) =
  chain a0 a1 a2 a3 (xorWord (SubWord (RotWord b3)) [c; 0; 0; 0]).
Proof.
  intros A0 A1 A2 A3 B0 B1 B2 B3 Hc. unfold aes256_assist_128. rewrite (proj1 (keygen_dword3 b0 b1 b2 b3 c B0 B1 B2 B3)). apply shifted_sums; [done..|].
  apply xorWord_ok; [by apply SubWord_ok, RotWord_ok|]. split; [done|].
  repeat (apply Forall_cons; split; [done || unfold byte; lia|]). by apply Forall_nil.
Qed.

Lemma assist_256_words a0 a1 a2 a3 b0 b1 b2 b3 : word_ok a0 -> word_ok a1 -> word_ok a2 -> word_ok a3 ->
  word_ok b0 -> word_ok b1 -> word_ok b2 -> word_ok b3 ->
  aes256_assist_256 (b0 ++ b1 ++ b2 ++ b3) (a0 ++ a1 ++ a2 ++ a3) = chain a0 a1 a2 a3 (SubWord b3).
Proof.
  intros A0 A1 A2 A3 B0 B1 B2 B3. unfold aes256_assist_256. rewrite (proj2 (keygen_dword3 b0 b1 b2 b3 0 B0 B1 B2 B3)).
  by apply shifted_sums, SubWord_ok.
Qed.

(** ** The schedule of FIPS 197 *)

Section Schedule.
Context (w0 : list (list Z)) (Hw0 : length w0 = 8%nat).

Definition expanded (k : nat) : list (list Z) := foldl expandStep w0 (seq 8 k).

Lemma expanded_S k : expanded (S k) = expandStep (expanded k) (8 + k).
Proof. unfold expanded. by rewrite seq_S, foldl_app. Qed.

Lemma length_expanded k : length (expanded k) = (8 + k)%nat.
Proof. induction k as [|k IH]; [done|]. rewrite expanded_S. unfold expandStep. rewrite length_app, IH. simpl. lia. Qed.

Lemma expanded_stable k j i : (i < 8 + k)%nat -> expanded (k + j) !! i = expanded k !! i.
Proof.
  intros Hi. induction j as [|j IH]; [by rewrite Nat.add_0_r|]. rewrite Nat.add_succ_r, expanded_S. unfold expandStep.
  rewrite lookup_app_l by (rewrite length_expanded; lia). exact IH.
Qed.

Definition word (i : nat) : list Z := default [] (expanded 52 !! i).

Lemma word_step i : (8 <= i < 60)%nat -> word i = xorWord (word (i - 8))
  (if (i mod 8 =? 0)%nat then xorWord (SubWord (RotWord (word (i - 1)))) (Rcon (i / 8))
   else if (i mod 8 =? 4)%nat then SubWord (word (i - 1)) else word (i - 1)).
Proof.
  intros Hi. unfold word. set (k := (i - 8)%nat). assert (52 = S k + (51 - k))%nat as E by (unfold k; lia).
  rewrite E, (expanded_stable (S k) _ i) by (unfold k; lia).
  assert (forall m, (m < 8 + k)%nat -> expanded (S k + (51 - k)) !! m = expanded k !! m) as Hk.
  { intros m Hm. rewrite (expanded_stable (S k)) by lia. replace (S k) with (k + 1)%nat by lia. by apply expanded_stable. }
  rewrite !Hk by (unfold k; lia). rewrite expanded_S. replace (8 + k)%nat with i by (unfold k; lia). unfold expandStep.
  rewrite lookup_app_r by (rewrite length_expanded; unfold k; lia). rewrite length_expanded.
  replace (i - (8 + k))%nat with 0%nat by (unfold k; lia). reflexivity.
Qed.

Definition block4 (r : nat) : list Z := word (4 * r) ++ word (4 * r + 1) ++ word (4 * r + 2) ++ word (4 * r + 3).

Context (Hok : forall i, (i < 60)%nat -> word_ok (word i)).

Lemma word_plain i : (8 <= i < 60)%nat -> (i mod 4 <> 0)%nat -> word i = xorWord (word (i - 8)) (word (i - 1)).
Proof.
  intros Hi Hm. rewrite word_step by done.
  assert (i mod 4 = (i mod 8) mod 4)%nat as E by (change 8%nat with (4 * 2)%nat; rewrite Nat.Div0.mod_mul_r, Nat.mul_comm, Nat.Div0.mod_add, Nat.Div0.mod_mod; done).
  destruct (Nat.eqb_spec (i mod 8) 0) as [H0|_]; [rewrite H0 in E; done|]. destruct (Nat.eqb_spec (i mod 8) 4) as [H4|_]; [rewrite H4 in E; done|done].
Qed.

Lemma chain_block r t : (2 <= r < 15)%nat -> word (4 * r) = xorWord (word (4 * (r - 2))) t ->
  chain (word (4 * (r - 2))) (word (4 * (r - 2) + 1)) (word (4 * (r - 2) + 2)) (word (4 * (r - 2) + 3)) t = block4 r.
Proof.
  intros Hr H0. unfold chain, block4. rewrite <- H0.
  assert (forall k, (1 <= k < 4)%nat -> word (4 * r + k) = xorWord (word (4 * (r - 2) + k)) (word (4 * r + (k - 1)))) as Hk.
  { intros k Hk. rewrite word_plain by (lia || (rewrite (Nat.mul_comm 4 r), Nat.add_comm, Nat.Div0.mod_add, Nat.mod_small; lia)).
    f_equal; f_equal; lia. }
  rewrite (Hk 3%nat), (Hk 2%nat) by lia. change (3 - 1)%nat with 2%nat. change (2 - 1)%nat with 1%nat.
  rewrite (Hk 2%nat) by lia. change (2 - 1)%nat with 1%nat. rewrite (Hk 1%nat) by lia. change (1 - 1)%nat with 0%nat.
  rewrite Nat.add_0_r. reflexivity.
Qed.

Lemma even_block j c : (1 <= j < 8)%nat -> Rcon j = [c; 0; 0; 0] -> byte c ->
  aes256_assist_128 (block4 (2 * j - 2)) (mm_aeskeygenassist_si128 (block4 (2 * j - 1)) c) = block4 (2 * j).
Proof.
  intros Hj Hc Bc. unfold block4 at 1 2. rewrite assist_128_words by (exact Bc || (apply Hok; lia)).
  apply chain_block; [lia|]. rewrite word_step by lia. replace (4 * (2 * j))%nat with (j * 8)%nat by lia.
  rewrite Nat.Div0.mod_mul, Nat.div_mul by lia. cbn [Nat.eqb]. rewrite <- Hc. f_equal; [f_equal; lia|]. do 4 f_equal. lia.
Qed.

Lemma odd_block j : (1 <= j < 7)%nat -> aes256_assist_256 (block4 (2 * j)) (block4 (2 * j - 1)) = block4 (2 * j + 1).
Proof.
  intros Hj. unfold block4 at 1 2. rewrite assist_256_words by (apply Hok; lia).
  replace (2 * j - 1)%nat with (2 * j + 1 - 2)%nat by lia.
  apply chain_block; [lia|]. rewrite word_step by lia. replace (4 * (2 * j + 1))%nat with (4 + j * 8)%nat by lia.
  rewrite Nat.Div0.mod_add. change (4 mod 8)%nat with 4%nat. cbn [Nat.eqb]. f_equal; [f_equal; lia|]. do 2 f_equal. lia.
Qed.
End Schedule.

(** The words the key starts with. *)
Definition keyWords (key : list Z) : list (list Z) := (fun i => take 4 (drop (4 * i) key)) <$> seq 0 8.

(** The hardware schedule is that of FIPS 197, four words to a register. *)
Lemma ni_key_expand_spec key : Forall byte key -> length key = 32%nat ->
  aes256_ni_key_expand key = block4 (keyWords key) <$> seq 0 15 /\
  (forall i, (i < 60)%nat -> word_ok (word (keyWords key) i)) /\ expanded (keyWords key) 52 = KeyExpansion key.
Proof.
  intros Hk Hl. assert (length (keyWords key) = 8%nat) as L0 by done.
  destruct (key_schedule_spec key Hk Hl) as (_ & Hw & Hlw).
  assert (expanded (keyWords key) 52 = KeyExpansion key) as E by (unfold expanded, KeyExpansion, keyWords; exact eq_refl).
  assert (forall i, (i < 60)%nat -> word_ok (word (keyWords key) i)) as Hok.
  { intros i Hi. unfold word. rewrite E. apply word_at; [done|lia]. }
  split; [|by split]. pose proof (even_block _ L0 Hok) as He. pose proof (odd_block _ L0 Hok) as Ho.
  assert (take 16 key = block4 (keyWords key) 0 /\ take 16 (drop 16 key) = block4 (keyWords key) 1) as [E0 E1].
  { assert (forall i, (i < 8)%nat -> word (keyWords key) i = take 4 (drop (4 * i) key)) as Hi.
    { intros i Hi. unfold word. change 52%nat with (0 + 52)%nat. rewrite (expanded_stable _ L0 0 52 i) by lia. unfold expanded, keyWords. cbn [seq foldl].
      by do 8 (destruct i as [|i]; [reflexivity|]); lia. }
    unfold block4. rewrite !Hi by lia. clear -Hl. do 32 (destruct key as [|? key]; [discriminate Hl|]). destruct key; [|discriminate Hl]. done. }
  unfold aes256_ni_key_expand. rewrite E0, E1. cbn [niRounds]. clear E0 E1.
  set (bl := block4 (keyWords key)) in *.
  assert (forall j c r0 r1 r2, (1 <= j < 8)%nat -> Rcon j = [c; 0; 0; 0] -> 0 <= c < 256 -> (r0 = 2 * j - 2)%nat -> (r1 = 2 * j - 1)%nat ->
    (r2 = 2 * j)%nat -> aes256_assist_128 (bl r0) (mm_aeskeygenassist_si128 (bl r1) c) = bl r2) as Hev by (intros; subst; by apply He).
  assert (forall j r1 r2 r3, (1 <= j < 7)%nat -> (r1 = 2 * j - 1)%nat -> (r2 = 2 * j)%nat -> (r3 = 2 * j + 1)%nat ->
    aes256_assist_256 (bl r2) (bl r1) = bl r3) as Hod by (intros; subst; by apply Ho).
  rewrite (Hev 1%nat 1 0%nat 1%nat 2%nat), (Hod 1 1 2 3)%nat by (lia || reflexivity).
  rewrite (Hev 2%nat 2 2%nat 3%nat 4%nat), (Hod 2 3 4 5)%nat by (lia || reflexivity).
  rewrite (Hev 3%nat 4 4%nat 5%nat 6%nat), (Hod 3 5 6 7)%nat by (lia || reflexivity).
  rewrite (Hev 4%nat 8 6%nat 7%nat 8%nat), (Hod 4 7 8 9)%nat by (lia || reflexivity).
  rewrite (Hev 5%nat 16 8%nat 9%nat 10%nat), (Hod 5 9 10 11)%nat by (lia || reflexivity).
  rewrite (Hev 6%nat 32 10%nat 11%nat 12%nat), (Hod 6 11 12 13)%nat by (lia || reflexivity).
  rewrite (Hev 7%nat 64 12%nat 13%nat 14%nat) by (lia || reflexivity). reflexivity.
Qed.

(** ** The block cipher *)

Lemma addKey_xor w0 round s : length s = 16%nat -> (forall i, (i < 60)%nat -> word_ok (word w0 i)) -> (round < 15)%nat ->
  mm_xor_si128 s (block4 w0 round) = AddRoundKey (expanded w0 52) round s.
Proof.
  intros Hs Hok Hr.
  transitivity (matrix (fun r c => Z.lxor (cell s r c) (coef (word w0 (4 * round + c)) r))); [|done].
  unfold block4. pose proof (Hok (4 * round)%nat ltac:(lia)) as O0. pose proof (Hok (4 * round + 1)%nat ltac:(lia)) as O1.
  pose proof (Hok (4 * round + 2)%nat ltac:(lia)) as O2. pose proof (Hok (4 * round + 3)%nat ltac:(lia)) as O3. clear Hok.
  change (matrix (fun r c => Z.lxor (cell s r c) (coef (word w0 (4 * round + c)) r))) with
    ((fun i => Z.lxor (cell s (i mod 4) (i / 4)) (coef (word w0 (4 * round + i / 4)) (i mod 4)))%nat <$> seq 0 16).
  cbn [seq fmap list_fmap Nat.divmod Nat.div Nat.modulo fst snd Nat.sub]. rewrite Nat.add_0_r.
  generalize dependent (word w0 (4 * round)). generalize dependent (word w0 (4 * round + 1)).
  generalize dependent (word w0 (4 * round + 2)). generalize dependent (word w0 (4 * round + 3)).
  intros u3 O3 u2 O2 u1 O1 u0 O0. split4 u0 O0. split4 u1 O1. split4 u2 O2. split4 u3 O3. split16 s Hs. reflexivity.
Qed.

Lemma shift_sub s : length s = 16%nat -> subBytes (shiftRows s) = shiftRows (subBytes s).
Proof. intros Hs. split16 s Hs. reflexivity. Qed.

(** The hardware block cipher is the software one, AES-256. *)
Lemma niBlock_spec key b : Forall byte key -> length key = 32%nat -> Forall byte b -> length b = 16%nat ->
  niBlock (aes256_ni_key_expand key) b = aes256_encrypt_block b (aes256_key_schedule key).
Proof.
  intros Hk Lk Hb Lb. rewrite aes_spec by done. destruct (ni_key_expand_spec key Hk Lk) as (-> & Hok & E).
  unfold aes256_spec. destruct (key_schedule_spec key Hk Lk) as (_ & Hw & Hlw). rewrite <- E in *. clear E.
  assert (forall r, (r < 15)%nat -> roundKey (block4 (keyWords key) <$> seq 0 15) r = block4 (keyWords key) r) as Hrk.
  { intros r Hr. unfold roundKey. rewrite list_lookup_fmap, lookup_seq_lt by done. reflexivity. }
  unfold niBlock, Cipher. rewrite !Hrk, addKey_xor by (done || lia). set (W := expanded (keyWords key) 52) in *.
  assert (forall s, Forall byte s -> length s = 16%nat -> subBytes (shiftRows s) = ShiftRows (SubBytes s) /\ Forall byte (ShiftRows (SubBytes s))) as Hss.
  { intros s Bs Ls. rewrite shift_sub by done. by apply sub_shift. }
  destruct (foldl_ext_in (fun b r => mm_aesenc_si128 b (roundKey (block4 (keyWords key) <$> seq 0 15) r))
    (fun s round => AddRoundKey W round (MixColumns (ShiftRows (SubBytes s))))
    (fun s => Forall byte s /\ length s = 16%nat) (seq 1 13) (AddRoundKey W 0 b)) as [E [Bs Ls]].
  - split; [by apply AddRoundKey_byte|done].
  - intros s r [Bs Ls] Hr%elem_of_seq. destruct (Hss s Bs Ls) as [Es Bs'].
    assert (mm_aesenc_si128 s (roundKey (block4 (keyWords key) <$> seq 0 15) r) =
      AddRoundKey W r (MixColumns (ShiftRows (SubBytes s)))) as ->.
    { unfold mm_aesenc_si128. rewrite Es, Hrk, mixColumns_spec by (done || lia). apply addKey_xor; [done|done|lia]. }
    split; [done|]. split; [by apply AddRoundKey_byte, MixColumns_byte|done].
  - rewrite E in *. clear E. revert Bs Ls. generalize (foldl (fun s round => AddRoundKey W round (MixColumns (ShiftRows (SubBytes s)))) (AddRoundKey W 0 b) (seq 1 13)).
    intros s Bs Ls. unfold mm_aesenclast_si128. rewrite (proj1 (Hss s Bs Ls)). apply addKey_xor; [done|done|lia].
Qed.

(** ** Counter mode *)

Section Stream.
Context (key nonce : list Z) (Hk : Forall byte key) (Lk : length key = 32%nat) (Hn : Forall byte nonce) (Ln : length nonce = 12%nat).
Local Abbreviation sw := (aes256_key_schedule key).
Local Abbreviation hw := (aes256_ni_key_expand key).

Lemma ctrBlock_spec c : ctrBlock hw nonce c = aes256_encrypt_block (counterBlock nonce c) sw.
Proof.
  unfold ctrBlock. rewrite counterBlock_spec by done. destruct (counterBlock_ok nonce c Hn Ln). by apply niBlock_spec.
Qed.

(** Enough fuel is as good as any. *)
Lemma ctrLoop_fuel f1 f2 c inp : (length inp <= f1)%nat -> (length inp <= f2)%nat -> ctrLoop f1 sw nonce c inp = ctrLoop f2 sw nonce c inp.
Proof.
  intros H1 H2. destruct (ctrLoop_spec f1 sw nonce c inp Ln H1) as [L1 C1]. destruct (ctrLoop_spec f2 sw nonce c inp Ln H2) as [L2 C2].
  apply coef_ext; [by rewrite L1, L2|]. intros i Hi. rewrite L1 in Hi. by rewrite C1, C2.
Qed.

Local Abbreviation ctr := (fun c inp => ctrLoop (length inp) sw nonce c inp).

Lemma ctr_block c inp : inp <> [] ->
  ctr c inp = zip_with Z.lxor (take 16 inp) (ctrBlock hw nonce c) ++ ctr (u64 (c + 1)) (drop 16 inp).
Proof.
  intros Hne. rewrite ctrBlock_spec. destruct inp as [|b inp]; [done|]. cbv beta. set (l := b :: inp).
  change (length l) with (S (length inp)). cbn [ctrLoop]. change (length l =? 0)%nat with false. cbv iota. f_equal.
  apply ctrLoop_fuel; rewrite length_drop; unfold l; simpl; lia.
Qed.

Lemma ctrSingles_spec fuel c inp : (length inp < fuel)%nat -> ctrSingles fuel hw nonce c inp = ctr c inp.
Proof.
  revert c inp. induction fuel as [|fuel IH]; intros c inp Hf; [lia|]. cbn [ctrSingles].
  destruct (Nat.leb_spec 16 (length inp)) as [Hle|Hlt].
  - rewrite IH by (rewrite length_drop; lia). rewrite (ctr_block c inp); [done|]. intros ->. simpl in Hle. lia.
  - destruct inp as [|b inp]; [done|]. rewrite (ctr_block c (b :: inp)) by done. rewrite take_ge, drop_ge by lia. by rewrite app_nil_r.
Qed.

Lemma ctrQuads_spec fuel c inp : (length inp < fuel)%nat -> ctrQuads fuel hw nonce c inp = ctr c inp.
Proof.
  revert c inp. induction fuel as [|fuel IH]; intros c inp Hf; [lia|]. cbn [ctrQuads].
  destruct (Nat.leb_spec 64 (length inp)) as [Hle|Hlt]; [|apply ctrSingles_spec; lia].
  rewrite IH by (rewrite length_drop; lia).
  assert (forall n, (n < 64)%nat -> drop n inp <> []) as Hne.
  { intros n Hn' E. apply (f_equal length) in E. rewrite length_drop in E. simpl in E. lia. }
  assert (forall k, u64 (u64 (c + k) + 1) = u64 (c + (k + 1))) as Hu.
  { intros k. unfold u64. rewrite Zplus_mod_idemp_l. f_equal. lia. }
  rewrite (ctr_block c) by apply (Hne 0%nat ltac:(lia)). rewrite (ctr_block (u64 (c + 1))) by (apply Hne; lia). rewrite drop_drop, (Hu 1).
  rewrite (ctr_block (u64 (c + (1 + 1)))) by (apply Hne; lia). rewrite drop_drop, (Hu (1 + 1)).
  rewrite (ctr_block (u64 (c + (1 + 1 + 1)))) by (apply Hne; lia). rewrite drop_drop, (Hu (1 + 1 + 1)).
  reflexivity.
Qed.
End Stream.

(** Twelve bytes of the nonce are read. *)
Lemma ctrBlock_take rk nonce c : ctrBlock rk (take 12 nonce) c = ctrBlock rk nonce c.
Proof. unfold ctrBlock, counterBlock. by rewrite take_idemp. Qed.

Lemma ctr_take hw key nonce c inp : aes256_ctr hw key (take 12 nonce) c inp = aes256_ctr hw key nonce c inp.
Proof.
  destruct hw; cbn [aes256_ctr]; [|apply ctrLoop_take]. unfold aes256_ctr_hw. generalize (aes256_ni_key_expand key). intros rk.
  assert (forall fuel c inp, ctrSingles fuel rk (take 12 nonce) c inp = ctrSingles fuel rk nonce c inp) as Hs.
  { induction fuel as [|fuel IH]; intros c' l; [done|]. cbn [ctrSingles]. by rewrite IH, ctrBlock_take. }
  generalize (S (length inp)). intros fuel. revert c inp. induction fuel as [|fuel IH]; intros c l; [done|]. cbn [ctrQuads].
  by rewrite IH, !ctrBlock_take, Hs.
Qed.

(** Counter mode does not depend on the machine: the interleaved hardware loop
    computes what the software loop computes. *)
Lemma ctr_machine hw key nonce c inp : Forall byte key -> length key = 32%nat -> Forall byte nonce -> length nonce = 12%nat ->
  aes256_ctr hw key nonce c inp = Aes.aes256_ctr key nonce c inp.
Proof. intros Hk Lk Hn Ln. destruct hw; [|done]. apply ctrQuads_spec; [done..|lia]. Qed.
End AesNi.
