(* ===== verification/Gcm.v ===== *)
(** * AES-256-GCM in software

    Model of the portable GCM path of src/advanced/secure_channel_crypto.cpp
    ([gf128_mul_sw], [ghash_sw], [aes256_gcm_core_sw], [aes256_gcm_encrypt],
    [aes256_gcm_decrypt]): field elements are arrays of sixteen bytes.  The
    reference definition is that of NIST SP 800-38D on 128-bit numbers. *)

From S2P Require Import Prelude Bytes Words Sha256 Aes.

Module Gcm.
Import Bytes Words Aes.

(** ** The field *)

(** [v[k] = (v[k] >> 1) | carry], the last bit of each byte carried into the
    next; the bit that falls out at the end is returned. *)
Fixpoint shiftRight (v : list Z) (carry : Z) : list Z * Z :=
  match v with
  | [] => ([], carry)
  | x :: v =>
      let next := u8 (Z.shiftl x 7) in
      let '(v', c) := shiftRight v next in (Z.lor (Z.shiftr x 1) carry :: v', c)
  end.

Definition mulStep (b : Z) (zv : list Z * list Z) : list Z * list Z :=
  let '(z, v) := zv in
  let z := if negb (b =? 0) then zip_with Z.lxor z v else z in
  let '(v, carry) := shiftRight v 0 in
  (z, if negb (carry =? 0) then <[0%nat := Z.lxor (coef v 0) 0xe1]> v else v).

Definition gf128_mul_sw (a b : list Z) : list Z :=
  (foldl (fun zv i => foldl (fun zv bit => mulStep (Z.land (Z.shiftr (coef a i) bit) 1) zv) zv [7; 6; 5; 4; 3; 2; 1; 0])
    (replicate 16 0, b) (seq 0 16)).1.

(** ** GHASH *)

Definition process (H X blk : list Z) : list Z := gf128_mul_sw (zip_with Z.lxor X blk) H.

(** The full blocks, then the rest padded with zeros. *)
Definition processAll (H X data : list Z) : list Z :=
  let full := (length data / 16)%nat in
  let X := foldl (fun X i => process H X (take 16 (drop (i * 16) data))) X (seq 0 full) in
  if negb (length data mod 16 =? 0)%nat
  then let rest := drop (full * 16) data in process H X (rest ++ replicate (16 - length rest) 0) else X.

Definition lenblk (aadLen dataLen : nat) : list Z :=
  Sha256.be64_bytes (u64 (Z.of_nat aadLen * 8)) ++ Sha256.be64_bytes (u64 (Z.of_nat dataLen * 8)).

Definition ghash_sw (H aad data : list Z) : list Z :=
  process H (processAll H (processAll H (replicate 16 0) aad) data) (lenblk (length aad) (length data)).

(** ** The core *)

(** [for (i = 15; i >= 12; --i) if (++b[i]) break;] *)
Fixpoint incFrom (idx : list nat) (cb : list Z) : list Z :=
  match idx with
  | [] => cb
  | i :: idx => let x := u8 (coef cb i + 1) in let cb := <[i := x]> cb in if negb (x =? 0) then cb else incFrom idx cb
  end.
Definition inc_ctr_sw (cb : list Z) : list Z := incFrom [15; 14; 13; 12]%nat cb.

(** [while (offset < len)]: at most one block per byte. *)
Fixpoint gctrLoop (fuel : nat) (rk cb inp : list Z) : list Z :=
  match fuel with
  | O => []
  | S fuel =>
      if (length inp =? 0)%nat then [] else
      zip_with Z.lxor (take 16 inp) (aes256_encrypt_block cb rk) ++ gctrLoop fuel rk (inc_ctr_sw cb) (drop 16 inp)
  end.

(** The output and the tag; [input] and [output] are distinct arrays, as in
    every call. *)
Definition aes256_gcm_core_sw (key iv aad inp : list Z) (encrypt : bool) : list Z * list Z :=
  let rk := aes256_key_schedule key in
  let H := aes256_encrypt_block (replicate 16 0) rk in
  let ej0 := aes256_encrypt_block (take 12 iv ++ [0; 0; 0; 1]) rk in
  let output := gctrLoop (length inp) rk (take 12 iv ++ [0; 0; 0; 2]) inp in
  let cipher_data := if encrypt then output else inp in
  (output, zip_with Z.lxor (ghash_sw H aad cipher_data) ej0).

Definition aes256_gcm_encrypt (key iv aad plain : list Z) : list Z * list Z := aes256_gcm_core_sw key iv aad plain true.

(** The plaintext buffer is written whether or not the tag matches. *)
Definition aes256_gcm_decrypt (key iv aad cipher tag_in : list Z) : bool * list Z :=
  let '(plain, computed_tag) := aes256_gcm_core_sw key iv aad cipher false in
  (Sha256.secure_compare computed_tag tag_in 16, plain).

(** ** NIST SP 800-38D *)

(** The number a block spells, most significant byte first; bit 127 is the
    coefficient of x^0. *)
Fixpoint be_num (l : list Z) : Z :=
  match l with [] => 0 | b :: l => be_num l + 2 ^ (8 * Z.of_nat (length l)) * b end.

Definition R : Z := 0xe1 * 2 ^ 120.
Definition mulX (V : Z) : Z := if Z.odd V then Z.lxor (V / 2) R else V / 2.

(** Algorithm 1: the bits of [X] from the most significant one. *)
Definition gf_mul (X Y : Z) : Z :=
  (foldl (fun '(Z', V) k => (if Z.testbit X (127 - Z.of_nat k) then Z.lxor Z' V else Z', mulX V)) (0, Y) (seq 0 128)).1.

(** A string cut in blocks of sixteen bytes, the last one padded with zeros. *)
Definition padded (data : list Z) : list (list Z) :=
  (fun i => let b := take 16 (drop (i * 16) data) in b ++ replicate (16 - length b) 0) <$> seq 0 ((length data + 15) / 16).

Definition GHASH (H : Z) (bs : list (list Z)) : Z := foldl (fun X b => gf_mul (Z.lxor X (be_num b)) H) 0 bs.

Definition gcm_keystream (key iv : list Z) (i : nat) : Z :=
  coef (aes256_spec key (iv ++ rev (le_bytes 4 (2 + Z.of_nat (i / 16))))) (i mod 16).

Definition gcm_tag (key iv aad cipher : list Z) : Z :=
  let lens := rev (le_bytes 8 (8 * Z.of_nat (length aad))) ++ rev (le_bytes 8 (8 * Z.of_nat (length cipher))) in
  Z.lxor (GHASH (be_num (aes256_spec key (replicate 16 0))) (padded aad ++ padded cipher ++ [lens]))
    (be_num (aes256_spec key (iv ++ [0; 0; 0; 1]))).

(** ** Blocks as numbers *)

Lemma be_num_bound l : Forall byte l -> 0 <= be_num l < 2 ^ (8 * Z.of_nat (length l)).
Proof.
  induction 1 as [|b l Hb _ IH]; [done|]. cbn [be_num length]. unfold byte in Hb.
  replace (8 * Z.of_nat (S (length l))) with (8 + 8 * Z.of_nat (length l)) by lia. rewrite Z.pow_add_r by lia. change (2 ^ 8) with 256. nia.
Qed.

Lemma be_num_xor u v : Forall byte u -> Forall byte v -> length u = length v ->
  be_num (zip_with Z.lxor u v) = Z.lxor (be_num u) (be_num v) /\ Forall byte (zip_with Z.lxor u v).
Proof.
  intros Hu. revert v. induction Hu as [|b u Hb Hu IH]; intros [|c v] Hv Hl; try done.
  apply Forall_cons in Hv as [Hc Hv]. injection Hl as Hl. destruct (IH v Hv Hl) as [E B]. cbn [zip_with be_num]. split.
  - rewrite E, length_zip_with_l, Hl by lia. symmetry. apply lxor_split; [lia| |by apply be_num_bound].
    rewrite <- Hl. by apply be_num_bound.
  - apply Forall_cons. split; [by apply lxor_byte|done].
Qed.

Lemma be_num_zeros n : be_num (replicate n 0) = 0.
Proof. induction n as [|n IH]; [done|]. simpl replicate. cbn [be_num]. lia. Qed.

(** The shift halves the number and returns its last bit. *)
Lemma shiftRight_spec v carry : Forall byte v -> carry = 0 \/ carry = 128 ->
  let '(v', c) := shiftRight v carry in
  2 * be_num v' + c / 128 = be_num v + carry / 128 * 2 ^ (8 * Z.of_nat (length v)) /\
  (c = 0 \/ c = 128) /\ Forall byte v' /\ length v' = length v.
Proof.
  intros Hv. revert carry. induction Hv as [|x v Hx Hv IH]; intros carry Hc; cbn [shiftRight].
  { split_and!; [|done..]. cbn [be_num length]. change (2 ^ (8 * Z.of_nat 0)) with 1. lia. }
  assert (u8 (Z.shiftl x 7) = 128 * (x mod 2)) as En.
  { rewrite Z.shiftl_mul_pow2 by lia. unfold u8. change (2 ^ 8) with (2 * 2 ^ 7). rewrite Z.mul_mod_distr_r by lia. lia. }
  pose proof (Z.mod_pos_bound x 2 ltac:(lia)). rewrite En.
  specialize (IH (128 * (x mod 2)) ltac:(lia)). destruct (shiftRight v _) as [v' c]. destruct IH as (E & Hc' & Hv' & Hl').
  unfold byte in Hx. assert (Z.lor (Z.shiftr x 1) carry = x / 2 + carry) as Ex.
  { rewrite shiftr_div by lia. change (2 ^ 1) with 2. assert (carry = Z.shiftl (carry / 128) 7) as -> by (destruct Hc as [-> | ->]; done).
    rewrite lor_add, Z.shiftl_mul_pow2 by (lia || (split; [apply Z.div_pos|apply Z.div_lt_upper_bound]; lia)). lia. }
  rewrite Ex. split_and!; [|done| |by simpl; rewrite Hl'].
  - cbn [be_num length]. rewrite Hl'. replace (8 * Z.of_nat (S (length v))) with (8 + 8 * Z.of_nat (length v)) by lia.
    rewrite Z.pow_add_r by lia. change (2 ^ 8) with 256. replace (128 * (x mod 2) / 128) with (x mod 2) in E by (rewrite Z.mul_comm, Z.div_mul; lia).
    pose proof (Z.div_mod x 2 ltac:(lia)). destruct Hc as [-> | ->]; [change (0 / 128) with 0|change (128 / 128) with 1]; nia.
  - apply Forall_cons. split; [|done]. unfold byte. pose proof (Z.div_mod x 2 ltac:(lia)). destruct Hc as [-> | ->]; lia.
Qed.

(** A block of the field. *)
Definition block_ok (v : list Z) : Prop := Forall byte v /\ length v = 16%nat.

Lemma mulStep_spec b z v : block_ok z -> block_ok v ->
  let '(z', v') := mulStep b (z, v) in
  block_ok z' /\ block_ok v' /\ be_num z' = (if negb (b =? 0) then Z.lxor (be_num z) (be_num v) else be_num z) /\ be_num v' = mulX (be_num v).
Proof.
  intros [Bz Lz] [Bv Lv]. unfold mulStep. pose proof (shiftRight_spec v 0 Bv ltac:(tauto)) as Hs.
  destruct (shiftRight v 0) as [v' c]. destruct Hs as (E & Hc & Bv' & Lv'). change (0 / 128) with 0 in E.
  destruct (be_num_xor z v Bz Bv ltac:(lia)) as [Ex Bx].
  assert (be_num v' = be_num v / 2 /\ (c =? 0) = negb (Z.odd (be_num v))) as [E2 Eo].
  { pose proof (Zdiv2_odd_eqn (be_num v)) as D. rewrite Z.div2_div in D. destruct Hc as [-> | ->].
    - change (0 / 128) with 0 in E. destruct (Z.odd (be_num v)); simpl in *; split; lia.
    - change (128 / 128) with 1 in E. destruct (Z.odd (be_num v)); simpl in *; split; lia. }
  refine (conj _ (conj _ (conj _ _))).
  - destruct (negb (b =? 0)); [split; [exact Bx|rewrite length_zip_with; lia]|exact (conj Bz Lz)].
  - rewrite Eo, negb_involutive. destruct (Z.odd _); [|split; [done|lia]]. split; [|by rewrite length_insert; lia].
    apply Forall_insert; [done|]. apply lxor_byte; [by apply coef_byte|unfold byte; lia].
  - by destruct (negb (b =? 0)).
  - rewrite Eo, negb_involutive. unfold mulX. destruct (Z.odd (be_num v)); [|done]. rewrite <- E2.
    destruct v' as [|x t]; [simpl in Lv'; lia|]. change (<[0%nat := Z.lxor (coef (x :: t) 0) 225]> (x :: t)) with (Z.lxor x 225 :: t).
    cbn [be_num]. apply Forall_cons in Bv' as [_ Bt]. pose proof (be_num_bound t Bt).
    assert (length t = 15%nat) as Lt by (simpl in Lv'; lia). rewrite Lt in *. unfold R. change (8 * Z.of_nat 15) with 120 in *.
    replace (225 * 2 ^ 120) with (0 + 2 ^ 120 * 225) by lia. rewrite lxor_split by lia. by rewrite Z.lxor_0_r.
Qed.

Lemma testbit_add a b m k : 0 <= m -> 0 <= a < 2 ^ m -> 0 <= k ->
  Z.testbit (a + 2 ^ m * b) k = if k <? m then Z.testbit a k else Z.testbit b (k - m).
Proof.
  intros Hm Ha Hk. rewrite <- lor_add, Z.lor_spec, Z.shiftl_spec by done. destruct (Z.ltb_spec k m).
  - by rewrite (Z.testbit_neg_r b), orb_false_r by lia.
  - assert (Z.testbit a k = false) as ->; [|done]. destruct (decide (a = 0)) as [->|]; [apply Z.testbit_0_l|].
    apply Z.bits_above_log2; [lia|]. apply Z.lt_le_trans with m; [apply Z.log2_lt_pow2; lia|done].
Qed.

(** Bit [bit] of byte [i]. *)
Lemma be_num_bit l i bit : Forall byte l -> (i < length l)%nat -> 0 <= bit < 8 ->
  Z.testbit (be_num l) (8 * Z.of_nat (length l - 1 - i) + bit) = Z.testbit (coef l i) bit.
Proof.
  intros Hl. revert i. induction Hl as [|x l Hx Hl IH]; intros i Hi Hb; [simpl in Hi; lia|]. cbn [be_num length] in *.
  rewrite testbit_add by (lia || by apply be_num_bound). destruct i as [|i].
  - rewrite (proj2 (Z.ltb_ge _ _)) by lia. change (coef (x :: l) 0) with x. f_equal. lia.
  - rewrite (proj2 (Z.ltb_lt _ _)) by lia. rewrite coef_cons, <- IH by lia. f_equal. lia.
Qed.

Lemma land1_bit x k : 0 <= k -> negb (Z.land (Z.shiftr x k) 1 =? 0) = Z.testbit x k.
Proof.
  intros Hk. change 1 with (Z.ones 1). rewrite Z.land_ones by lia. change (2 ^ 1) with 2. rewrite Zmod_odd.
  replace (Z.testbit x k) with (Z.testbit (Z.shiftr x k) 0) by (rewrite Z.shiftr_spec by lia; f_equal; lia).
  rewrite Z.bit0_odd. by destruct (Z.odd _).
Qed.

Lemma foldl_bind {A B C} (f : A -> B -> A) (g : C -> list B) l a : foldl f a (l ≫= g) = foldl (fun a i => foldl f a (g i)) a l.
Proof. revert a. induction l as [|i l IH]; intros a; [done|]. cbn [mbind list_bind foldl]. by rewrite foldl_app, <- IH. Qed.

(** Position [k] of the bit string: byte [k / 8], bit [7 - k mod 8]. *)
Lemma bits_order : seq 0 128 = seq 0 16 ≫= fun i => (fun bit => 8 * i + (7 - Z.to_nat bit))%nat <$> [7; 6; 5; 4; 3; 2; 1; 0].
Proof. reflexivity. Qed.

Lemma foldl_fmap {A B C} (f : A -> B -> A) (g : C -> B) l a : foldl f a (g <$> l) = foldl (fun a x => f a (g x)) a l.
Proof. revert a. induction l as [|x l IH]; intros a; [done|]. apply IH. Qed.

(** Two folds in step. *)
Lemma foldl_rel {A A' B} (Q : A -> A' -> Prop) (f : A -> B -> A) (g : A' -> B -> A') l a a' :
  Q a a' -> (forall a a' x, x ∈ l -> Q a a' -> Q (f a x) (g a' x)) -> Q (foldl f a l) (foldl g a' l).
Proof.
  revert a a'. induction l as [|x l IH]; intros a a' Ha H; [done|]. apply IH; [apply H; [left|done]|]. intros. apply H; [by right|done].
Qed.

Lemma gf128_mul_spec a b : block_ok a -> block_ok b ->
  block_ok (gf128_mul_sw a b) /\ be_num (gf128_mul_sw a b) = gf_mul (be_num a) (be_num b).
Proof.
  intros Ha Hb. unfold gf128_mul_sw, gf_mul. rewrite bits_order, foldl_bind.
  set (Q := fun (zv : list Z * list Z) (ZV : Z * Z) => block_ok zv.1 /\ block_ok zv.2 /\ be_num zv.1 = ZV.1 /\ be_num zv.2 = ZV.2).
  assert (forall zv ZV, Q zv ZV -> block_ok zv.1 /\ be_num zv.1 = ZV.1) as HQ by (unfold Q; naive_solver).
  apply HQ. clear HQ. apply (foldl_rel Q).
  - unfold Q. cbn [fst snd]. refine (conj _ (conj Hb (conj _ _))); [|done..]. split; [by apply Forall_replicate|done].
  - intros zv ZV i Hi%elem_of_seq HQ. rewrite foldl_fmap. apply (foldl_rel Q); [done|]. clear zv ZV HQ.
    intros [z v] [Z' V] bit Hbit (Hz & Hv & Ez0 & Ev0). cbn [fst snd] in *. subst Z' V.
    assert (0 <= bit < 8) as Hbb by (repeat (apply elem_of_cons in Hbit as [-> | Hbit]; [lia|]); by apply elem_of_nil in Hbit).
    pose proof (mulStep_spec (Z.land (Z.shiftr (coef a i) bit) 1) z v Hz Hv) as Hm. destruct (mulStep _ _) as [z' v'].
    destruct Hm as (Hz' & Hv' & Ez & Ev). unfold Q. cbn [fst snd]. refine (conj Hz' (conj Hv' (conj _ Ev))).
    rewrite Ez, land1_bit by lia. destruct Ha as [Ba La].
    rewrite <- (be_num_bit a i bit Ba) by lia. rewrite La.
    replace (127 - Z.of_nat (8 * i + (7 - Z.to_nat bit))) with (8 * Z.of_nat (16 - 1 - i) + bit) by lia. done.
Qed.

(** ** GHASH *)

Lemma process_spec H X blk : block_ok H -> block_ok X -> block_ok blk ->
  block_ok (process H X blk) /\ be_num (process H X blk) = gf_mul (Z.lxor (be_num X) (be_num blk)) (be_num H).
Proof.
  intros HH [BX LX] [Bb Lb]. unfold process. destruct (be_num_xor X blk BX Bb ltac:(lia)) as [E B]. rewrite <- E.
  apply gf128_mul_spec; [|done]. split; [done|]. rewrite length_zip_with. lia.
Qed.

Lemma padded_ok data : Forall byte data -> Forall block_ok (padded data).
Proof.
  intros Hd. apply Forall_fmap, Forall_forall. intros i _. simpl. split.
  - apply Forall_app. split; [by apply Forall_take, Forall_drop|apply Forall_replicate; unfold byte; lia].
  - rewrite length_app, length_replicate, length_take, length_drop. lia.
Qed.

Lemma process_all_spec H X Xn bs : block_ok H -> block_ok X -> be_num X = Xn -> Forall block_ok bs ->
  block_ok (foldl (process H) X bs) /\
  be_num (foldl (process H) X bs) = foldl (fun X b => gf_mul (Z.lxor X (be_num b)) (be_num H)) Xn bs.
Proof.
  intros HH HX EX Hbs. apply (foldl_rel (fun X Xn => block_ok X /\ be_num X = Xn)); [done|].
  intros a a' b Hb [Ha <-]. apply process_spec; [done|done|]. rewrite Forall_forall in Hbs. by apply Hbs.
Qed.

(** The blocks processed are the padded blocks. *)
Lemma processAll_padded H X data : processAll H X data = foldl (process H) X (padded data).
Proof.
  unfold processAll, padded. rewrite foldl_fmap. set (full := (length data / 16)%nat).
  pose proof (Nat.div_mod_eq (length data) 16) as D. fold full in D. pose proof (Nat.mod_upper_bound (length data) 16 ltac:(lia)) as Hm.
  assert (foldl (fun X i => process H X (take 16 (drop (i * 16) data))) X (seq 0 full) =
    foldl (fun X i => process H X (let b := take 16 (drop (i * 16) data) in b ++ replicate (16 - length b) 0)) X (seq 0 full)) as ->.
  { apply (foldl_ext_in _ _ (fun _ => True)); [done|]. intros a i _ Hi%elem_of_seq. split; [|done]. cbv zeta.
    rewrite length_take, length_drop. replace (16 - _)%nat with 0%nat by lia. simpl. by rewrite app_nil_r. }
  destruct (length data mod 16 =? 0)%nat eqn:E0.
  - apply Nat.eqb_eq in E0. simpl negb. cbv iota. do 2 f_equal. apply (Nat.div_unique _ _ _ 15); lia.
  - apply Nat.eqb_neq in E0. simpl negb. cbv iota.
    assert ((length data + 15) / 16 = S full)%nat as -> by (symmetry; apply (Nat.div_unique _ _ _ (length data mod 16 - 1)); lia).
    rewrite (seq_S full), foldl_app. cbn [foldl Nat.add]. cbv zeta. by rewrite take_ge by (rewrite length_drop; lia).
Qed.

Lemma be64_bytes_rev z : Sha256.be64_bytes (u64 z) = rev (le_bytes 8 z).
Proof.
  rewrite <- (le_bytes_mod 8 z). change (8 * Z.of_nat 8) with 64. change (z mod 2 ^ 64) with (u64 z).
  unfold Sha256.be64_bytes, le_bytes. cbn [seq fmap list_fmap rev app]. rewrite !u8_shiftr by lia. reflexivity.
Qed.

Lemma lenblk_spec n m : lenblk n m = rev (le_bytes 8 (8 * Z.of_nat n)) ++ rev (le_bytes 8 (8 * Z.of_nat m)) /\ block_ok (lenblk n m).
Proof.
  unfold lenblk. rewrite !be64_bytes_rev, !(Z.mul_comm _ 8). split; [done|].
  split; [|reflexivity]. apply Forall_app. split; apply Forall_rev, le_bytes_byte.
Qed.

Lemma ghash_spec H aad data : block_ok H -> Forall byte aad -> Forall byte data ->
  block_ok (ghash_sw H aad data) /\ be_num (ghash_sw H aad data) = GHASH (be_num H) (padded aad ++ padded data ++ [lenblk (length aad) (length data)]).
Proof.
  intros HH Ha Hd. unfold ghash_sw, GHASH. rewrite !processAll_padded.
  replace (process H (foldl (process H) (foldl (process H) (replicate 16 0) (padded aad)) (padded data)) (lenblk (length aad) (length data)))
    with (foldl (process H) (replicate 16 0) (padded aad ++ padded data ++ [lenblk (length aad) (length data)])) by by rewrite !foldl_app.
  apply process_all_spec; [done| |apply be_num_zeros|].
  - split; [|done]. apply Forall_replicate. unfold byte. lia.
  - apply Forall_app. split; [by apply padded_ok|]. apply Forall_app. split; [by apply padded_ok|]. apply Forall_singleton, lenblk_spec.
Qed.

(** ** The counter *)

Lemma incFrom_spec n p q c : incFrom (rev (seq (length p) n)) (p ++ rev (le_bytes n c) ++ q) = p ++ rev (le_bytes n (c + 1)) ++ q.
Proof.
  revert c q. induction n as [|n IH]; intros c q; [done|].
  rewrite (seq_S n), rev_app_distr, !le_bytes_S. cbn [rev app incFrom]. rewrite <- !app_assoc. cbn [app].
  set (i := (length p + n)%nat). assert (i = length (p ++ rev (le_bytes n (c / 256))) + 0)%nat as Ei.
  { unfold i. rewrite length_app, length_rev, length_le_bytes. lia. }
  rewrite (app_assoc p), (coef_app_r' _ _ i 0 Ei). change (coef (c mod 256 :: q) 0) with (c mod 256).
  rewrite Ei, insert_app_r. cbn [insert list_insert]. rewrite <- app_assoc.
  assert (u8 (c mod 256 + 1) = (c + 1) mod 256) as -> by (unfold u8; change (2 ^ 8) with 256; by rewrite Zplus_mod_idemp_l).
  destruct (Z.eqb_spec ((c + 1) mod 256) 0) as [E|E]; simpl negb; cbv iota.
  - rewrite E, (IH (c / 256) (0 :: q)). replace ((c + 1) / 256) with (c / 256 + 1); [done|].
    Z.to_euclidean_division_equations. lia.
  - replace ((c + 1) / 256) with (c / 256); [done|]. Z.to_euclidean_division_equations. lia.
Qed.

Lemma inc_ctr_spec iv c : length iv = 12%nat -> inc_ctr_sw (iv ++ rev (le_bytes 4 c)) = iv ++ rev (le_bytes 4 (c + 1)).
Proof.
  intros Hl. pose proof (incFrom_spec 4 iv [] c) as H. rewrite Hl, !app_nil_r in H. exact H.
Qed.

(** The loop is counter mode from 2. *)
Lemma gctr_ctr fuel rk iv c inp : length iv = 12%nat -> gctrLoop fuel rk (iv ++ rev (le_bytes 4 c)) inp = ctrLoop fuel rk iv c inp.
Proof.
  intros Hl. revert c inp. induction fuel as [|fuel IH]; intros c inp; [done|]. cbn [gctrLoop ctrLoop].
  rewrite counterBlock_spec, inc_ctr_spec, IH by done. destruct (length inp =? 0)%nat; [done|]. f_equal.
  rewrite <- (ctrLoop_mod fuel rk iv (c + 1)). reflexivity.
Qed.

Section Core.
Context (key iv aad : list Z).
Context (Hkey : Forall byte key) (Lkey : length key = 32%nat) (Hiv : Forall byte iv) (Liv : length iv = 12%nat) (Haad : Forall byte aad).

Lemma iv_block n : iv ++ [0; 0; 0; Z.of_nat n mod 256] = iv ++ rev (le_bytes 4 (Z.of_nat n mod 256)).
Proof.
  f_equal. pose proof (Z.mod_pos_bound (Z.of_nat n) 256). rewrite !le_bytes_S. simpl.
  rewrite (Z.mod_small (Z.of_nat n mod 256)), (Z.div_small (Z.of_nat n mod 256)) by lia. reflexivity.
Qed.

Lemma core_output inp (encrypt : bool) :
  (aes256_gcm_core_sw key iv aad inp encrypt).1 = ctrLoop (length inp) (aes256_key_schedule key) iv 2 inp.
Proof.
  unfold aes256_gcm_core_sw. cbn [fst]. rewrite (take_ge iv) by lia. rewrite <- gctr_ctr by done.
  pose proof (iv_block 2) as E2. change (Z.of_nat 2 mod 256) with 2 in E2. rewrite E2. reflexivity.
Qed.

(** Both directions run counter mode from 2 and authenticate the ciphertext. *)
Lemma core_spec inp (encrypt : bool) :
  let output := ctrLoop (length inp) (aes256_key_schedule key) iv 2 inp in
  let cipher := if encrypt then output else inp in
  Forall byte cipher -> exists tag, aes256_gcm_core_sw key iv aad inp encrypt = (output, tag) /\ block_ok tag /\ be_num tag = gcm_tag key iv aad cipher.
Proof.
  intros output cipher Hc. unfold aes256_gcm_core_sw. rewrite !(take_ge iv) by lia.
  pose proof (iv_block 1) as E1. pose proof (iv_block 2) as E2. change (Z.of_nat 1 mod 256) with 1 in E1. change (Z.of_nat 2 mod 256) with 2 in E2.
  rewrite E2, gctr_ctr by done. fold output. fold cipher. eexists. split; [reflexivity|].
  assert (Forall byte (replicate 16 0)) as Hz by (apply Forall_replicate; unfold byte; lia).
  destruct (counterBlock_ok iv 1 Hiv Liv) as [Hj Lj]. unfold gcm_tag. rewrite E1.
  rewrite (aes_spec key (replicate 16 0) Hkey Lkey Hz eq_refl), (aes_spec key (iv ++ rev (le_bytes 4 1)) Hkey Lkey Hj Lj).
  pose proof (aes_spec_ok key (replicate 16 0) Hkey Lkey Hz) as HH. pose proof (aes_spec_ok key _ Hkey Lkey Hj) as [HJ LJ].
  destruct (ghash_spec _ aad cipher HH Haad Hc) as [[HS LS] ES]. rewrite (proj1 (lenblk_spec _ _)) in ES. rewrite <- ES.
  destruct (be_num_xor _ _ HS HJ ltac:(lia)) as [Ex Bx]. split; [|exact Ex]. split; [exact Bx|]. rewrite length_zip_with. lia.
Qed.

Lemma ctr_bytes inp : Forall byte inp -> Forall byte (ctrLoop (length inp) (aes256_key_schedule key) iv 2 inp).
Proof.
  intros Hi. destruct (ctr_spec key iv 2 inp Hkey Lkey Hiv Liv) as [L C]. apply Forall_lookup_2. intros i x Hx.
  pose proof (lookup_lt_Some _ _ _ Hx) as Hlt. change (ctrLoop (length inp) (aes256_key_schedule key) iv 2 inp) with (aes256_ctr key iv 2 inp) in *.
  rewrite (coef_lookup _ _ Hlt) in Hx. injection Hx as <-. rewrite L in Hlt. rewrite C by done. apply lxor_byte; [by apply coef_byte|].
  destruct (counterBlock_ok iv (2 + Z.of_nat (i / 16)) Hiv Liv). by apply coef_byte, aes_spec_ok.
Qed.

Lemma gcm_encrypt_spec plain cipher tag : Forall byte plain -> aes256_gcm_encrypt key iv aad plain = (cipher, tag) ->
  cipher = aes256_ctr key iv 2 plain /\ Forall byte cipher /\ block_ok tag /\ be_num tag = gcm_tag key iv aad cipher.
Proof.
  intros Hp E. destruct (core_spec plain true (ctr_bytes plain Hp)) as (t & Ec & Ht & En). unfold aes256_gcm_encrypt in E.
  rewrite Ec in E. injection E as <- <-. refine (conj eq_refl (conj (ctr_bytes plain Hp) (conj Ht En))).
Qed.
End Core.

(** A block is determined by its number. *)
Lemma be_num_inj u v : Forall byte u -> Forall byte v -> length u = length v -> be_num u = be_num v -> u = v.
Proof.
  intros Hu. revert v. induction Hu as [|b u Hb Hu IH]; intros [|c v] Hv Hl E; try done.
  apply Forall_cons in Hv as [Hc Hv]. injection Hl as Hl. cbn [be_num] in E. rewrite Hl in E.
  pose proof (be_num_bound u Hu) as Bu. pose proof (be_num_bound v Hv) as Bv. rewrite Hl in Bu.
  assert (b = c) as -> by nia. f_equal. apply IH; [done|done|lia].
Qed.

(** C29: encryption is AES-256-GCM.  For a 32-byte key and a 12-byte
    initialization vector, [aes256_gcm_encrypt] combines byte i of the plaintext
    with the keystream of counter 2 + i / 16 and returns the tag that NIST SP
    800-38D defines: GHASH over the padded additional data, the padded
    ciphertext and the two bit lengths, combined with the encryption of the
    counter 1.  The shifts and masks on arrays of sixteen bytes multiply in
    GF(2^128). *)
Theorem gcm_is_sp800_38d key iv aad plain :
  Forall byte key -> length key = 32%nat -> Forall byte iv -> length iv = 12%nat -> Forall byte aad -> Forall byte plain ->
  exists cipher tag, aes256_gcm_encrypt key iv aad plain = (cipher, tag) /\
    length cipher = length plain /\ (forall i, (i < length plain)%nat -> coef cipher i = Z.lxor (coef plain i) (gcm_keystream key iv i)) /\
    length tag = 16%nat /\ be_num tag = gcm_tag key iv aad cipher.
Proof.
  intros Hk Lk Hi Li Ha Hp. destruct (aes256_gcm_encrypt key iv aad plain) as [c t] eqn:E.
  destruct (gcm_encrypt_spec key iv aad Hk Lk Hi Li Ha plain c t Hp E) as (-> & _ & [_ Lt] & En).
  destruct (ctr_spec key iv 2 plain Hk Lk Hi Li) as [L C]. exists (aes256_ctr key iv 2 plain), t. by split_and!.
Qed.

Lemma gcm_is_sp800_38d_witness :
  Forall byte fips_key /\
  exists cipher tag, aes256_gcm_encrypt fips_key (take 12 fips_block) [1; 2] fips_block = (cipher, tag) /\
    length cipher = 16%nat /\ (forall i, (i < 16)%nat -> coef cipher i = Z.lxor (coef fips_block i) (gcm_keystream fips_key (take 12 fips_block) i)) /\
    length tag = 16%nat /\ be_num tag = gcm_tag fips_key (take 12 fips_block) [1; 2] cipher.
Proof.
  assert (Forall byte [1; 2]) as Ha by (repeat (apply Forall_cons; split; [unfold byte; lia|]); by apply Forall_nil).
  split; [exact (proj1 fips_key_ok)|].
  exact (gcm_is_sp800_38d fips_key (take 12 fips_block) [1; 2] fips_block (proj1 fips_key_ok) (proj2 fips_key_ok)
    (Forall_take _ _ _ (proj1 fips_block_ok)) eq_refl
    Ha (proj1 fips_block_ok)).
Defined.

Lemma decrypt_iff key iv aad cipher tag plain :
  Forall byte key -> length key = 32%nat -> Forall byte iv -> length iv = 12%nat -> Forall byte aad -> Forall byte cipher -> length tag = 16%nat ->
  aes256_gcm_decrypt key iv aad cipher tag = (true, plain) <-> aes256_gcm_encrypt key iv aad plain = (cipher, tag).
Proof.
  intros Hk Lk Hi Li Ha Hc Lt. unfold aes256_gcm_decrypt, aes256_gcm_encrypt.
  destruct (core_spec key iv aad Hk Lk Hi Li Ha cipher false Hc) as (t & Ed & [Bt Ltt] & En). rewrite Ed.
  set (ctr := fun l => ctrLoop (length l) (aes256_key_schedule key) iv 2 l). change (ctrLoop (length cipher) _ iv 2 cipher) with (ctr cipher) in *.
  assert (forall l, length (ctr l) = length l) as Lc by (intros; by apply ctrLoop_spec).
  assert (forall l, ctr (ctr l) = l) as Inv by (intros l; unfold ctr at 1; rewrite Lc; by apply ctrLoop_involutive).
  assert (forall p, ctr p = cipher -> exists t', aes256_gcm_core_sw key iv aad p true = (cipher, t') /\ t' = t) as He.
  { intros p Ep. destruct (core_spec key iv aad Hk Lk Hi Li Ha p true) as (t' & Ee & [Bt' Lt'] & En'); [by fold (ctr p); rewrite Ep|].
    exists t'. rewrite Ee. fold (ctr p) in *. rewrite Ep in *. split; [done|]. apply be_num_inj; [done|done|lia|congruence]. }
  split.
  - intros [= E <-]. apply Sha256.secure_compare_iff in E as <-; [|done|done]. destruct (He (ctr cipher) (Inv cipher)) as (t' & -> & ->). done.
  - intros E. assert (ctr plain = cipher) as Ep by (unfold ctr; rewrite <- (core_output key iv aad Lk Li plain true), E; reflexivity).
    destruct (He plain Ep) as (t' & E' & ->). rewrite E' in E. injection E as <-.
    rewrite <- Ep, Inv. by rewrite (proj2 (Sha256.secure_compare_iff t t 16 Ltt Ltt) eq_refl).
Qed.

(** C28: decryption accepts exactly what encryption produces.  For byte strings,
    [aes256_gcm_decrypt] reports success with a plaintext if and only if
    [aes256_gcm_encrypt] of that plaintext, under the same key, initialization
    vector and additional data, gives this ciphertext and tag. *)
Theorem gcm_exact key iv aad cipher tag plain :
  Forall byte key -> length key = 32%nat -> Forall byte iv -> length iv = 12%nat -> Forall byte aad -> Forall byte cipher -> length tag = 16%nat ->
  aes256_gcm_decrypt key iv aad cipher tag = (true, plain) <-> aes256_gcm_encrypt key iv aad plain = (cipher, tag).
Proof. apply decrypt_iff. Qed.

(** The test cases of the GCM specification for a zero key: an empty plaintext
    and a block of zeros. *)
Example gcm_vectors :
  aes256_gcm_encrypt (replicate 32 0) (replicate 12 0) [] [] = ([], rev (le_bytes 16 0x530f8afbc74536b9a963b4f1c4cb738b)) /\
  aes256_gcm_encrypt (replicate 32 0) (replicate 12 0) [] (replicate 16 0) =
    (rev (le_bytes 16 0xcea7403d4d606b6e074ec5d3baf39d18), rev (le_bytes 16 0xd0d1c8a799996bf0265b98b5d48ab919)).
Proof. vm_compute. split; reflexivity. Qed.

Lemma gcm_exact_witness :
  length (replicate 32 0) = 32%nat /\
  aes256_gcm_decrypt (replicate 32 0) (replicate 12 0) [] (rev (le_bytes 16 0xcea7403d4d606b6e074ec5d3baf39d18))
    (rev (le_bytes 16 0xd0d1c8a799996bf0265b98b5d48ab919)) = (true, replicate 16 0).
Proof.
  assert (forall n, Forall byte (replicate n 0)) as Hz by (intros; apply Forall_replicate; unfold byte; lia).
  split; [reflexivity|].
  refine (proj2 (gcm_exact (replicate 32 0) (replicate 12 0) [] _ _ (replicate 16 0) (Hz 32%nat) eq_refl (Hz 12%nat) eq_refl (Hz 0%nat) _ _) (proj2 gcm_vectors)).
  - apply Forall_rev, le_bytes_byte.
  - reflexivity.
Defined.
End Gcm.
