(* ===== verification/GcmHardware.v ===== *)
(** * AES-256-GCM by machine

    Model of the PCLMULQDQ path of src/advanced/secure_channel_crypto.cpp
    ([gf128_mul], [byterev], [ghash_hw], [aes256_gcm_core_hw]) and of the choice
    between it and the software path in [aes256_gcm_encrypt] and
    [aes256_gcm_decrypt].  Each path decrypts what it encrypts; the two give the
    same ciphertext and different tags. *)

From S2P Require Import Prelude Bytes Words Sha256 Aes AesNi Gcm.

Module GcmHardware.
Import Bytes Words AesNi.

(** ** The field product *)

(** Carry-less product of two 64-bit words. *)
Definition clmul (a b : Z) : Z :=
  foldl (fun z i => if Z.testbit b i then Z.lxor z (Z.shiftl a i) else z) 0 (seqZ 0 64).

Definition qword (x : list Z) (i : nat) : Z := le_num (take 8 (drop (8 * i) x)).

(** Bit 0 of [imm] selects the half of [a], bit 4 that of [b]. *)
Definition mm_clmulepi64_si128 (a b : list Z) (imm : Z) : list Z :=
  le_bytes 16 (clmul (qword a (if Z.testbit imm 0 then 1 else 0)) (qword b (if Z.testbit imm 4 then 1 else 0))).

Definition gf128_mul (a b : list Z) : list Z :=
  let t0 := mm_clmulepi64_si128 a b 0x00 in
  let t1 := mm_clmulepi64_si128 a b 0x10 in
  let t2 := mm_clmulepi64_si128 a b 0x01 in
  let t3 := mm_clmulepi64_si128 a b 0x11 in
  let mid := mm_xor_si128 t1 t2 in
  let lo := mm_xor_si128 t0 (mm_slli_si128 mid 8) in
  let hi := mm_xor_si128 t3 (mm_srli_si128 mid 8) in
  let p := le_bytes 16 0x87 in
  let r := mm_clmulepi64_si128 hi p 0x01 in
  let r2 := mm_clmulepi64_si128 hi p 0x00 in
  let lo := mm_xor_si128 lo (mm_xor_si128 r (mm_slli_si128 r2 8)) in
  let r3 := mm_clmulepi64_si128 (mm_srli_si128 r2 8) p 0x00 in
  mm_xor_si128 lo r3.

Definition bswap64 (z : Z) : Z := le_num (rev (le_bytes 8 z)).

Definition byterev (x : list Z) : list Z :=
  let lo := qword x 0 in let hi := qword x 1 in
  le_bytes 8 (bswap64 hi) ++ le_bytes 8 (bswap64 lo).

(** ** GHASH *)

Definition process_block (H_be X blk_be : list Z) : list Z := gf128_mul (mm_xor_si128 X blk_be) H_be.

(** The full blocks, then the rest padded with zeros. *)
Definition processBlocks (H_be X data : list Z) : list Z :=
  let full := (length data / 16)%nat in
  let X := foldl (fun X i => process_block H_be X (take 16 (drop (i * 16) data))) X (seq 0 full) in
  if negb (length data mod 16 =? 0)%nat
  then let rest := drop (full * 16) data in process_block H_be X (rest ++ replicate (16 - length rest) 0) else X.

Definition ghash_hw (H_be aad data : list Z) : list Z :=
  process_block H_be (processBlocks H_be (processBlocks H_be (replicate 16 0) aad) data) (Gcm.lenblk (length aad) (length data)).

(** ** The core *)

(** Full blocks, then the tail; the counter block is incremented in place. *)
Fixpoint gctrHw (fuel : nat) (rk : list (list Z)) (cb inp : list Z) : list Z :=
  match fuel with
  | O => []
  | S fuel =>
      if (16 <=? length inp)%nat
      then mm_xor_si128 (niBlock rk cb) (take 16 inp) ++ gctrHw fuel rk (Gcm.inc_ctr_sw cb) (drop 16 inp)
      else zip_with Z.lxor inp (niBlock rk cb)
  end.

Definition aes256_gcm_core_hw (key iv aad inp : list Z) (encrypt : bool) : list Z * list Z :=
  let rk := aes256_ni_key_expand key in
  let H_be := byterev (niBlock rk (replicate 16 0)) in
  let ej0 := niBlock rk (take 12 iv ++ [0; 0; 0; 1]) in
  let output := gctrHw (S (length inp)) rk (take 12 iv ++ [0; 0; 0; 2]) inp in
  let cipher_for_hash := if encrypt then output else inp in
  (output, mm_xor_si128 (ghash_hw H_be aad cipher_for_hash) (byterev ej0)).

(** ** The public functions *)

(** [hw]: compiled with, and run on a processor with, AES and PCLMULQDQ
    ([gcm_hw_supported]). *)
Definition gcmCore (hw : bool) : list Z -> list Z -> list Z -> list Z -> bool -> list Z * list Z :=
  if hw then aes256_gcm_core_hw else Gcm.aes256_gcm_core_sw.

Definition aes256_gcm_encrypt (hw : bool) (key iv aad plain : list Z) : list Z * list Z := gcmCore hw key iv aad plain true.

Definition aes256_gcm_decrypt (hw : bool) (key iv aad cipher tag_in : list Z) : bool * list Z :=
  let '(plain, computed_tag) := gcmCore hw key iv aad cipher false in
  (Sha256.secure_compare computed_tag tag_in 16, plain).

(** ** Blocks of bytes *)

Lemma xor_block x y : Gcm.block_ok x -> Gcm.block_ok y -> Gcm.block_ok (mm_xor_si128 x y).
Proof.
  intros [Bx Lx] [By Ly]. unfold mm_xor_si128. split; [|rewrite length_zip_with; lia].
  apply Gcm.be_num_xor; [done|done|lia].
Qed.

Lemma mm_xor_comm x y : mm_xor_si128 x y = mm_xor_si128 y x.
Proof.
  unfold mm_xor_si128. revert y. induction x as [|a x IH]; intros [|b y]; [done..|]. cbn [zip_with]. by rewrite IH, Z.lxor_comm.
Qed.

Lemma le_bytes_block z : Gcm.block_ok (le_bytes 16 z).
Proof. split; [apply le_bytes_byte|apply length_le_bytes]. Qed.

Lemma gf128_mul_block a b : Gcm.block_ok (gf128_mul a b).
Proof.
  assert (forall n, Forall byte (replicate n 0)) as Hz by (intros; apply Forall_replicate; unfold byte; lia).
  assert (forall x, Gcm.block_ok x -> Gcm.block_ok (mm_slli_si128 x 8) /\ Gcm.block_ok (mm_srli_si128 x 8)) as Hs.
  { intros x [Bx Lx]. unfold mm_slli_si128, mm_srli_si128. split; (split; [apply Forall_app; split; [auto|]|rewrite length_app, length_replicate, ?length_take, ?length_drop; lia]);
      auto using Forall_take, Forall_drop. }
  unfold gf128_mul. repeat first [apply xor_block | apply Hs | apply le_bytes_block].
Qed.

Lemma byterev_block x : Gcm.block_ok (byterev x).
Proof.
  unfold byterev. split; [apply Forall_app; split; apply le_bytes_byte|]. by rewrite length_app, !length_le_bytes.
Qed.

Lemma hw_tag_block key iv aad inp encrypt : Gcm.block_ok (aes256_gcm_core_hw key iv aad inp encrypt).2.
Proof. apply xor_block; [apply gf128_mul_block|apply byterev_block]. Qed.

Section Core.
Context (key iv aad : list Z).
Context (Hkey : Forall byte key) (Lkey : length key = 32%nat) (Hiv : Forall byte iv) (Liv : length iv = 12%nat) (Haad : Forall byte aad).

Local Abbreviation ctr := (fun inp => Aes.ctrLoop (length inp) (Aes.aes256_key_schedule key) iv 2 inp).

Lemma gctrHw_spec fuel c inp : (length inp < fuel)%nat ->
  gctrHw fuel (aes256_ni_key_expand key) (iv ++ rev (le_bytes 4 c)) inp = Aes.ctrLoop (length inp) (Aes.aes256_key_schedule key) iv c inp.
Proof.
  revert c inp. induction fuel as [|fuel IH]; intros c inp Hf; [lia|]. cbn [gctrHw].
  assert (niBlock (aes256_ni_key_expand key) (iv ++ rev (le_bytes 4 c)) = ctrBlock (aes256_ni_key_expand key) iv c) as ->.
  { unfold ctrBlock. by rewrite Aes.counterBlock_spec. }
  destruct (Nat.leb_spec 16 (length inp)) as [Hle|Hlt].
  - rewrite Gcm.inc_ctr_spec, IH by (done || rewrite length_drop; lia).
    rewrite (ctr_block key iv Hkey Lkey Hiv Liv c inp) by (intros ->; simpl in Hle; lia). rewrite Aes.ctrLoop_mod.
    f_equal. apply mm_xor_comm.
  - destruct inp as [|b inp]; [done|]. rewrite (ctr_block key iv Hkey Lkey Hiv Liv c (b :: inp)) by done.
    rewrite take_ge, drop_ge by lia. by rewrite app_nil_r.
Qed.

(** Both cores encrypt alike; the tag is a function of the ciphertext. *)
Lemma core_hw_output inp encrypt : (aes256_gcm_core_hw key iv aad inp encrypt).1 = ctr inp.
Proof.
  unfold aes256_gcm_core_hw. cbn [fst]. rewrite take_ge by lia.
  change [0; 0; 0; 2] with (rev (le_bytes 4 2)). apply gctrHw_spec. lia.
Qed.

Lemma core_machine hw inp encrypt : (gcmCore hw key iv aad inp encrypt).1 = ctr inp.
Proof. destruct hw; [apply core_hw_output|by apply Gcm.core_output]. Qed.

Lemma core_tag hw plain : (gcmCore hw key iv aad plain true).2 = (gcmCore hw key iv aad (ctr plain) false).2.
Proof.
  pose proof (core_machine hw plain true) as E. destruct hw; cbn [gcmCore] in *;
    unfold aes256_gcm_core_hw, Gcm.aes256_gcm_core_sw in *; cbn [fst snd] in *; by rewrite E.
Qed.

Lemma core_tag_block hw inp encrypt : Forall byte inp -> Gcm.block_ok (gcmCore hw key iv aad inp encrypt).2.
Proof.
  intros Hi. destruct hw; [apply hw_tag_block|]. cbn [gcmCore].
  assert (Forall byte (if encrypt then ctr inp else inp)) as Hd by (destruct encrypt; [by apply Gcm.ctr_bytes|done]).
  destruct (Gcm.core_spec key iv aad Hkey Lkey Hiv Liv Haad inp encrypt Hd) as (t & -> & Ht & _). exact Ht.
Qed.

Lemma ctr_twice inp : ctr (ctr inp) = inp.
Proof.
  cbv beta. rewrite (proj1 (Aes.ctrLoop_spec (length inp) (Aes.aes256_key_schedule key) iv 2 inp Liv (le_n _))).
  by apply Aes.ctrLoop_involutive.
Qed.

(** On one kind of machine, decryption accepts exactly what encryption gives. *)
Lemma decrypt_exact hw cipher tag plain : Forall byte cipher -> length tag = 16%nat ->
  aes256_gcm_decrypt hw key iv aad cipher tag = (true, plain) <-> aes256_gcm_encrypt hw key iv aad plain = (cipher, tag).
Proof.
  intros Hc Lt. unfold aes256_gcm_decrypt, aes256_gcm_encrypt.
  pose proof (core_machine hw cipher false) as Ed. pose proof (core_tag_block hw cipher false Hc) as [_ Ltag].
  pose proof (core_machine hw plain true) as Ee. pose proof (core_tag hw plain) as Et.
  destruct (gcmCore hw key iv aad cipher false) as [p t] eqn:E. destruct (gcmCore hw key iv aad plain true) as [c' t'].
  cbn [fst snd] in *. subst p c' t'. split.
  - intros [= Es <-]. apply Sha256.secure_compare_iff in Es as <-; [|done|done]. rewrite ctr_twice, E. done.
  - intros [= Hcp Ht]. rewrite Hcp, E in Ht. cbn [snd] in Ht. subst tag.
    rewrite (proj2 (Sha256.secure_compare_iff t t 16 Lt Lt) eq_refl). by rewrite <- Hcp, ctr_twice.
Qed.

Lemma encrypt_bytes hw plain : Forall byte plain ->
  let '(cipher, tag) := aes256_gcm_encrypt hw key iv aad plain in
  length cipher = length plain /\ Forall byte cipher /\ length tag = 16%nat /\ Forall byte tag.
Proof.
  intros Hp. unfold aes256_gcm_encrypt. pose proof (core_machine hw plain true) as E.
  pose proof (core_tag_block hw plain true Hp) as [Bt Lt].
  destruct (gcmCore hw key iv aad plain true) as [c t]. cbn [fst snd] in *. subst c.
  split; [by apply Aes.ctrLoop_spec|]. split; [by apply Gcm.ctr_bytes|by split].
Qed.
End Core.

(** The two kinds of machine do not understand each other: the second test
    case of the GCM specification encrypts to the specified ciphertext on both,
    with the specified tag in software and another one in hardware. *)
Lemma mixed_tags_differ :
  let e hw := aes256_gcm_encrypt hw (replicate 32 0) (replicate 12 0) [] (replicate 16 0) in
  (e true).1 = (e false).1 /\ (e true).2 <> (e false).2 /\
  (aes256_gcm_decrypt false (replicate 32 0) (replicate 12 0) [] (e true).1 (e true).2).1 = false /\
  (aes256_gcm_decrypt true (replicate 32 0) (replicate 12 0) [] (e false).1 (e false).2).1 = false.
Proof. vm_compute. split_and!; done. Qed.
End GcmHardware.
