(* ===== verification/SecureChannel.v ===== *)
(** * The secure channel

    Model of the packet layer of src/advanced/secure_channel.cpp: key setup
    from a shared token, key rotation, [sendSecure], [recvSecure] and the sliding
    window of 2048 bits against replays.  The authenticated cipher is an
    interface indexed by the kind of machine that runs it (with the GCM
    instructions or without), discharged by the two cores of [GcmHardware],
    whose tags differ.  Sockets are byte streams that a short read consumes;
    the clock, the random vector and socket errors are arguments.  A call is
    one step: [recvSecure] takes the mutex in pieces, and calls that overlap
    on one channel are not modelled. *)

From S2P Require Import Prelude Bytes Words Sha256 Aes AesNi Gcm GcmHardware.

Module SecureChannel.
Import Bytes Words.

(** ** What the channel needs of an authenticated cipher *)

(** [hw] is the machine that runs the function: with AES and PCLMULQDQ
    instructions or without.  Each machine opens what it sealed; nothing relates
    the two. *)
Class Aead := {
  seal : bool -> list Z -> list Z -> list Z -> list Z -> list Z * list Z;        (* hw, key, iv, aad, plain *)
  unseal : bool -> list Z -> list Z -> list Z -> list Z -> list Z -> bool * list Z;  (* hw, key, iv, aad, cipher, tag *)
  seal_bytes hw key iv aad plain : Forall byte key -> length key = 32%nat -> Forall byte iv -> length iv = 12%nat ->
    Forall byte aad -> Forall byte plain ->
    let '(cipher, tag) := seal hw key iv aad plain in
    length cipher = length plain /\ Forall byte cipher /\ length tag = 16%nat /\ Forall byte tag;
  unseal_exact hw key iv aad cipher tag plain : Forall byte key -> length key = 32%nat -> Forall byte iv -> length iv = 12%nat ->
    Forall byte aad -> Forall byte cipher -> length tag = 16%nat ->
    unseal hw key iv aad cipher tag = (true, plain) <-> seal hw key iv aad plain = (cipher, tag) }.

(** ** Packets *)

Definition kFlagGCM : Z := 0x0001.
Definition kMagic : Z := 0x56475345.

Record SecurePacketHeader := Header {
  magic : Z; version : Z; reserved : Z; flags : Z; sequence_number : Z; payload_length : Z; hmac_tag : list Z }.

Definition headerSize : nat := 52.

(** The packed structure in memory, little-endian. *)
Definition headerBytes (h : SecurePacketHeader) : list Z :=
  le_bytes 4 (magic h) ++ le_bytes 1 (version h) ++ le_bytes 1 (reserved h) ++ le_bytes 2 (flags h) ++
  le_bytes 8 (sequence_number h) ++ le_bytes 4 (payload_length h) ++ hmac_tag h.

Definition field (l : list Z) (o n : nat) : Z := le_num (take n (drop o l)).
Definition parseHeader (l : list Z) : SecurePacketHeader :=
  Header (field l 0 4) (field l 4 1) (field l 5 1) (field l 6 2) (field l 8 8) (field l 16 4) (take 32 (drop 20 l)).

(** ** State *)

Definition kReplayWindowBits : Z := 2048.
Definition kReplayWordCount : nat := 32.

Record channel := Channel {
  sessionKey_ : list Z; keyFingerprint_ : list Z;
  sendSequence_ : Z;
  replayBitmap_ : list Z; highestSeenSeq_ : Z; replayWindowSeeded_ : bool;
  packetsSent_ : Z; packetsReceived_ : Z; bytesSent_ : Z; bytesReceived_ : Z;
  sessionStartMs_ : Z; last_recv_result_ : VGREResult;
  initialized_ : bool; useGcm_ : bool }.

Definition newChannel : channel :=
  Channel (replicate 32 0) (replicate 32 0) 0 (replicate 32 0) 0 false 0 0 0 0 0 SUCCESS false false.

Definition with_key (c : channel) (key : list Z) : channel :=
  Channel key (Sha256.sha256 key) (sendSequence_ c) (replayBitmap_ c) (highestSeenSeq_ c) (replayWindowSeeded_ c)
    (packetsSent_ c) (packetsReceived_ c) (bytesSent_ c) (bytesReceived_ c) (sessionStartMs_ c) (last_recv_result_ c) (initialized_ c) (useGcm_ c).

(** [authToken] as bytes; [iterEnv] is VGRE_PBKDF2_ITERATIONS when it parses. *)
Definition initializeFromSecret (c : channel) (authToken masterNonce clientNonce : list Z) (iterEnv : option Z) (nowMs : Z) (gcmHw : bool)
    : channel * VGREResult :=
  if (length authToken =? 0)%nat then (c, ERR_INVALID_VALUE) else
  let salt := masterNonce ++ clientNonce in
  let pbkdf2Iters := match iterEnv with
    | Some val => if (10000 <=? val) && (val <=? 10000000) then val else 600000
    | None => 600000 end in
  let key := Sha256.pbkdf2_sha256 authToken salt pbkdf2Iters 32 in
  (Channel key (Sha256.sha256 key) 0 (replicate 32 0) 0 false 0 0 0 0 nowMs (last_recv_result_ c) true gcmHw, SUCCESS).

(** "VGRE_ROTATE_v1" *)
Definition saltLabel : list Z := [86; 71; 82; 69; 95; 82; 79; 84; 65; 84; 69; 95; 118; 49].

Definition rotateKey (c : channel) (nextNonce : list Z) : channel * VGREResult :=
  if negb (initialized_ c) then (c, ERR_NOT_INITIALIZED) else
  (with_key c (Sha256.hmac_sha256 (sessionKey_ c) (saltLabel ++ nextNonce)), SUCCESS).

(** ** The stream cipher and the packet code *)

(** "aes_nonce_v1" *)
Definition kNonceSuffix : list Z := [97; 101; 115; 95; 110; 111; 110; 99; 101; 95; 118; 49].

Definition aesCtr (hw : bool) (key input : list Z) (sequenceNum : Z) : list Z :=
  AesNi.aes256_ctr hw key (Sha256.sha256 (key ++ kNonceSuffix)) sequenceNum input.

(** version || sequence_number || payload_length: the header fields the code
    and the cipher authenticate. *)
Definition headerFields (h : SecurePacketHeader) : list Z :=
  version h :: le_bytes 8 (sequence_number h) ++ le_bytes 4 (payload_length h).

Definition computePacketHMAC (key : list Z) (h : SecurePacketHeader) (payload : list Z) : list Z :=
  Sha256.hmac_sha256 key (headerFields h ++ payload).

(** ** Replay detection *)

(** The bitmap shifted left by [advance] bits, word by word. *)
Definition shiftWords (bm : list Z) (advance : Z) : list Z :=
  let ws := Z.to_nat (advance / 64) in let bs := advance mod 64 in
  (fun i =>
    let src := if (ws <=? i)%nat then (i - ws)%nat else kReplayWordCount in
    if (src <? kReplayWordCount)%nat then
      let t := if bs =? 0 then coef bm src else u64 (Z.shiftl (coef bm src) bs) in
      if (0 <? bs) && (0 <? src)%nat then Z.lor t (Z.shiftr (coef bm (src - 1)) (64 - bs)) else t
    else 0) <$> seq 0 kReplayWordCount.

Definition setBit (bm : list Z) (word : nat) (bit : Z) : list Z := <[word := Z.lor (coef bm word) (Z.shiftl 1 bit)]> bm.

(** The new bitmap and highest sequence number, or [None] for a replay. *)
Definition replayCheck (bm : list Z) (highest : Z) (seeded : bool) (seq : Z) : option (list Z * Z) :=
  if negb seeded then Some (<[0%nat := 1]> (replicate kReplayWordCount 0), seq)
  else if seq >? highest then
    let advance := seq - highest in
    let bm := if advance >=? kReplayWindowBits then replicate kReplayWordCount 0 else shiftWords bm advance in
    Some (setBit bm 0 0, seq)
  else
    let offset := highest - seq in
    if offset >=? kReplayWindowBits then None else
    let word := Z.to_nat (offset / 64) in let bit := offset mod 64 in
    if negb (Z.land (coef bm word) (Z.shiftl 1 bit) =? 0) then None else
    Some (setBit bm word bit, highest).

(** ** Sending and receiving *)

Section Transport.
Context `{Aead} (hw : bool).

(** The wire bytes are [None] when the channel is not initialized; [iv] is
    fresh randomness, [sent] what the socket reports. *)
Definition sendSecure (c : channel) (data iv : list Z) (sent : bool) : channel * VGREResult * option (list Z) :=
  if negb (initialized_ c) then (c, ERR_NOT_INITIALIZED, None) else
  let seq := sendSequence_ c in
  let len := length data in
  let hdr fl tag := Header kMagic 1 0 fl seq (u32 (Z.of_nat len)) tag in
  let '(h, encrypted) :=
    if useGcm_ c then
      let '(enc, tag) := seal hw (sessionKey_ c) iv (headerFields (hdr kFlagGCM [])) data in
      (hdr kFlagGCM (iv ++ tag ++ replicate 4 0), enc)
    else
      let enc := if (0 <? len)%nat then aesCtr hw (sessionKey_ c) data seq else [] in
      (hdr 0 (computePacketHMAC (sessionKey_ c) (hdr 0 []) enc), enc) in
  let wire := headerBytes h ++ encrypted in
  let upd ps bs := Channel (sessionKey_ c) (keyFingerprint_ c) (u64 (seq + 1)) (replayBitmap_ c) (highestSeenSeq_ c) (replayWindowSeeded_ c)
    ps (packetsReceived_ c) bs (bytesReceived_ c) (sessionStartMs_ c) (last_recv_result_ c) (initialized_ c) (useGcm_ c) in
  if negb sent then (upd (packetsSent_ c) (bytesSent_ c), ERR_IO, Some wire)
  else (upd (u64 (packetsSent_ c + 1)) (u64 (bytesSent_ c + Z.of_nat len)), SUCCESS, Some wire).

(** [recvAll]: the bytes asked for, or the code the socket ends with (-1 closed
    or failed, -2 timed out), and the rest of the stream.  A short read has
    consumed all that was there. *)
Definition recvAll (stream : list Z) (err : Z) (len : nat) : result Z (list Z) * list Z :=
  if (len <=? length stream)%nat then (Ok (take len stream), drop len stream) else (Err err, []).

Definition finish (c : channel) (r : VGREResult) : channel :=
  Channel (sessionKey_ c) (keyFingerprint_ c) (sendSequence_ c) (replayBitmap_ c) (highestSeenSeq_ c) (replayWindowSeeded_ c)
    (packetsSent_ c) (packetsReceived_ c) (bytesSent_ c) (bytesReceived_ c) (sessionStartMs_ c) r (initialized_ c) (useGcm_ c).

Definition invalidate (c : channel) : channel :=
  Channel (sessionKey_ c) (keyFingerprint_ c) (sendSequence_ c) (replayBitmap_ c) (highestSeenSeq_ c) (replayWindowSeeded_ c)
    (packetsSent_ c) (packetsReceived_ c) (bytesSent_ c) (bytesReceived_ c) (sessionStartMs_ c) (last_recv_result_ c) false (useGcm_ c).

Definition accepted (c : channel) (bm : list Z) (highest len : Z) : channel :=
  Channel (sessionKey_ c) (keyFingerprint_ c) (sendSequence_ c) bm highest true
    (packetsSent_ c) (u64 (packetsReceived_ c + 1)) (bytesSent_ c) (u64 (bytesReceived_ c + len)) (sessionStartMs_ c) (last_recv_result_ c) (initialized_ c) (useGcm_ c).

Definition expired (c : channel) (nowMs : Z) : bool := (0 <? sessionStartMs_ c) && (u64 (nowMs - sessionStartMs_ c) >? 3600000).

(** What authentication decides: the plaintext so far (deciphered already in
    the GCM case), or failure. *)
Definition authenticate (c : channel) (h : SecurePacketHeader) (payload out : list Z) : bool * list Z :=
  if negb (Z.land (flags h) kFlagGCM =? 0) then
    unseal hw (sessionKey_ c) (take 12 (hmac_tag h)) (headerFields h) payload (take 16 (drop 12 (hmac_tag h)))
  else (Sha256.secure_compare (hmac_tag h) (computePacketHMAC (sessionKey_ c) h payload) 32, out).

(** From authentication to the end of the function; [rest] is what is left of
    the stream and [out] the caller's buffer. *)
Definition deliver (c : channel) (h : SecurePacketHeader) (payload out rest : list Z) : channel * VGREResult * list Z * list Z :=
  let '(ok, out) := authenticate c h payload out in
  if negb ok then (finish c ERR_AUTH_FAILED, ERR_AUTH_FAILED, out, rest) else
  match replayCheck (replayBitmap_ c) (highestSeenSeq_ c) (replayWindowSeeded_ c) (sequence_number h) with
  | None => (finish c ERR_AUTH_FAILED, ERR_AUTH_FAILED, out, rest)
  | Some (bm, highest) =>
      let out := if negb (Z.land (flags h) kFlagGCM =? 0) then out
                 else if 0 <? payload_length h then aesCtr hw (sessionKey_ c) payload (sequence_number h) else [] in
      (finish (accepted c bm highest (payload_length h)) SUCCESS, SUCCESS, out, rest)
  end.

Definition recvSecure (c : channel) (nowMs : Z) (stream : list Z) (err : Z) (out : list Z) : channel * VGREResult * list Z * list Z :=
  let fail c r rest := (finish c r, r, out, rest) in
  let ioErr := if err =? -2 then ERR_TIMEOUT else ERR_IO in
  if negb (initialized_ c) then fail c ERR_NOT_INITIALIZED stream else
  if expired c nowMs then fail (invalidate c) ERR_AUTH_FAILED stream else
  match recvAll stream err headerSize with
  | (Err _, rest) => fail c ioErr rest
  | (Ok hb, rest) =>
      let h := parseHeader hb in
      if negb (magic h =? kMagic) || negb (version h =? 1) then fail c ERR_CRYPTO rest else
      if payload_length h >? 64 * 1024 * 1024 then fail c ERR_INVALID_VALUE rest else
      match recvAll rest err (Z.to_nat (payload_length h)) with
      | (Err _, rest) => fail c ioErr rest
      | (Ok payload, rest) => deliver c h payload out rest
      end
  end.

End Transport.

(** ** The window as a set of bits *)

(** Bit [j] of the bitmap. *)
Definition bitAt (bm : list Z) (j : Z) : bool := Z.testbit (coef bm (Z.to_nat (j / 64))) (j mod 64).

Definition word64 (x : Z) : Prop := 0 <= x < 2 ^ 64.
Definition bitmap_ok (bm : list Z) : Prop := length bm = kReplayWordCount /\ Forall word64 bm.

Lemma word64_coef bm i : Forall word64 bm -> word64 (coef bm i).
Proof. intros Hb. unfold coef. destruct (bm !! i) eqn:E; simpl; [by eapply Forall_lookup_1|unfold word64; lia]. Qed.

Lemma testbit_high x k : word64 x -> 64 <= k -> Z.testbit x k = false.
Proof.
  intros Hx Hk. destruct (decide (x = 0)) as [->|]; [apply Z.testbit_0_l|]. unfold word64 in Hx.
  apply Z.bits_above_log2; [lia|]. apply Z.lt_le_trans with 64; [apply Z.log2_lt_pow2; lia|done].
Qed.

Lemma testbit_u64 x k : 0 <= k -> Z.testbit (u64 x) k = if k <? 64 then Z.testbit x k else false.
Proof.
  intros Hk. unfold u64. destruct (Z.ltb_spec k 64); [by apply Z.mod_pow2_bits_low|by apply Z.mod_pow2_bits_high].
Qed.

Lemma lor_word64 x y : word64 x -> word64 y -> word64 (Z.lor x y).
Proof.
  unfold word64. intros Hx Hy. assert (0 <= Z.lor x y) as H0 by (apply Z.lor_nonneg; lia). split; [done|].
  destruct (decide (Z.lor x y = 0)) as [->|]; [lia|]. apply Z.log2_lt_pow2; [lia|]. rewrite Z.log2_lor by lia.
  assert (forall z, 0 <= z < 2 ^ 64 -> Z.log2 z < 64) as Hlog.
  { intros z Hz. destruct (decide (z = 0)) as [->|]; [done|]. apply Z.log2_lt_pow2; lia. }
  apply Z.max_lub_lt; by apply Hlog.
Qed.

Lemma shiftl1_bit b k : 0 <= b -> 0 <= k -> Z.testbit (Z.shiftl 1 b) k = (k =? b).
Proof.
  intros Hb Hk. rewrite Z.shiftl_1_l. destruct (Z.eqb_spec k b) as [->|]; [by apply Z.pow2_bits_true|by apply Z.pow2_bits_false].
Qed.

Lemma zeros_ok : bitmap_ok (replicate kReplayWordCount 0).
Proof. split; [done|]. apply Forall_replicate. unfold word64. lia. Qed.

Lemma zeros_bit j : bitAt (replicate kReplayWordCount 0) j = false.
Proof. unfold bitAt. rewrite coef_zeros. apply Z.testbit_0_l. Qed.

(** Setting a bit. *)
Lemma setBit_spec bm j : bitmap_ok bm -> 0 <= j < kReplayWindowBits ->
  bitmap_ok (setBit bm (Z.to_nat (j / 64)) (j mod 64)) /\
  forall k, 0 <= k < kReplayWindowBits -> bitAt (setBit bm (Z.to_nat (j / 64)) (j mod 64)) k = (k =? j) || bitAt bm k.
Proof.
  intros [Lb Wb] Hj. unfold kReplayWindowBits, kReplayWordCount in *. pose proof (Z.mod_pos_bound j 64 ltac:(lia)) as Mj.
  assert (0 <= j / 64 < 32) as Dj by (split; [apply Z.div_pos; lia|apply Z.div_lt_upper_bound; lia]).
  unfold setBit. split.
  - split; [by rewrite length_insert|]. apply Forall_insert; [done|]. apply lor_word64; [by apply word64_coef|].
    unfold word64. rewrite Z.shiftl_1_l. pose proof (Z.pow_lt_mono_r 2 (j mod 64) 64 ltac:(lia) ltac:(lia) ltac:(lia)).
    pose proof (Z.pow_pos_nonneg 2 (j mod 64)). lia.
  - intros k Hk. unfold bitAt. pose proof (Z.mod_pos_bound k 64 ltac:(lia)) as Mk.
    assert (0 <= k / 64 < 32) as Dk by (split; [apply Z.div_pos; lia|apply Z.div_lt_upper_bound; lia]).
    pose proof (Z.div_mod j 64 ltac:(lia)). pose proof (Z.div_mod k 64 ltac:(lia)).
    rewrite coef_insert. destruct (decide _) as [[E _]|Hne].
    + rewrite Z.lor_spec, shiftl1_bit by lia. rewrite <- E, orb_comm. f_equal.
      destruct (Z.eqb_spec (k mod 64) (j mod 64)), (Z.eqb_spec k j); try done; lia.
    + destruct (Z.eqb_spec k j) as [->|]; [|done]. exfalso. apply Hne. split; [done|lia].
Qed.

Lemma split64 x q r : x = 64 * q + r -> 0 <= r < 64 -> x / 64 = q /\ x mod 64 = r.
Proof. intros E Hr. split; [symmetry; by apply Z.div_unique with r; lia|symmetry; by apply Z.mod_unique with q; lia]. Qed.

(** The shift moves every bit by [advance] positions; those that leave the
    window are lost. *)
Lemma shiftWords_spec bm advance : bitmap_ok bm -> 0 < advance < kReplayWindowBits ->
  bitmap_ok (shiftWords bm advance) /\
  forall k, 0 <= k < kReplayWindowBits -> bitAt (shiftWords bm advance) k = if k <? advance then false else bitAt bm (k - advance).
Proof.
  intros [Lb Wb] Ha. unfold kReplayWindowBits, kReplayWordCount in *.
  pose proof (Z.mod_pos_bound advance 64 ltac:(lia)) as Ma. pose proof (Z.div_mod advance 64 ltac:(lia)) as Da.
  assert (0 <= advance / 64 < 32) as Dj by (split; [apply Z.div_pos; lia|apply Z.div_lt_upper_bound; lia]).
  unfold shiftWords, kReplayWordCount. set (ws := Z.to_nat (advance / 64)) in *. set (bs := advance mod 64) in *.
  split.
  { split; [done|]. apply Forall_fmap, Forall_forall. intros i _. simpl. case_goal; [|unfold word64; lia].
    assert (word64 (if bs =? 0 then coef bm (if (ws <=? i)%nat then (i - ws)%nat else 32%nat) else u64 (Z.shiftl (coef bm (if (ws <=? i)%nat then (i - ws)%nat else 32%nat)) bs))) as Ht
      by (case_goal; [by apply word64_coef|apply u64_bound]).
    destruct (_ && _); [|exact Ht]. apply lor_word64; [exact Ht|].
    pose proof (word64_coef bm ((if (ws <=? i)%nat then (i - ws)%nat else 32%nat) - 1) Wb) as Hw. unfold word64 in *.
    rewrite Z.shiftr_div_pow2 by lia. split; [apply Z.div_pos; lia|].
    eapply Z.le_lt_trans; [|apply Hw]. apply Z.div_le_upper_bound; [lia|]. pose proof (Z.pow_pos_nonneg 2 (64 - bs)). nia. }
  intros k Hk. unfold bitAt. pose proof (Z.mod_pos_bound k 64 ltac:(lia)) as Mk. pose proof (Z.div_mod k 64 ltac:(lia)) as Dk.
  assert (0 <= k / 64 < 32) as Dk' by (split; [apply Z.div_pos; lia|apply Z.div_lt_upper_bound; lia]).
  rewrite (coef_fmap_seq _ 32) by lia. set (i := Z.to_nat (k / 64)) in *. set (b := k mod 64) in *.
  assert (Z.of_nat i = k / 64) as Ei by lia. assert (Z.of_nat ws = advance / 64) as Ew by lia.
  destruct (Nat.leb_spec ws i) as [Hle|Hgt]; cycle 1.
  { rewrite (proj2 (Nat.ltb_ge 32 32)), Z.testbit_0_l by lia. rewrite (proj2 (Z.ltb_lt k advance)) by lia. done. }
  rewrite (proj2 (Nat.ltb_lt (i - ws) 32)) by lia.
  destruct (Z.eqb_spec bs 0) as [E0|E0].
  - rewrite E0. cbn [Z.ltb Z.compare andb]. rewrite (proj2 (Z.ltb_ge k advance)) by lia.
    destruct (split64 (k - advance) (Z.of_nat (i - ws)) b) as [-> ->]; [lia|lia|]. by rewrite Nat2Z.id.
  - rewrite (proj2 (Z.ltb_lt 0 bs)) by lia. cbn [andb].
    assert (forall x, Z.testbit (u64 (Z.shiftl x bs)) b = if b <? bs then false else Z.testbit x (b - bs)) as Ht.
    { intros x. rewrite testbit_u64, (proj2 (Z.ltb_lt b 64)), Z.shiftl_spec by lia. case_goal; [|done]. b2p. by rewrite Z.testbit_neg_r by lia. }
    assert (forall x, word64 x -> Z.testbit (Z.shiftr x (64 - bs)) b = if b <? bs then Z.testbit x (b + 64 - bs) else false) as Hs.
    { intros x Hx. rewrite Z.shiftr_spec by lia. case_goal; b2p; [f_equal; lia|]. apply testbit_high; [done|lia]. }
    destruct (Nat.ltb_spec 0 (i - ws)) as [Hp|Hp].
    + rewrite Z.lor_spec, Ht, Hs by by apply word64_coef. rewrite (proj2 (Z.ltb_ge k advance)) by lia. destruct (Z.ltb_spec b bs).
      * destruct (split64 (k - advance) (Z.of_nat (i - ws - 1)) (b + 64 - bs)) as [-> ->]; [lia|lia|]. by rewrite Nat2Z.id.
      * destruct (split64 (k - advance) (Z.of_nat (i - ws)) (b - bs)) as [-> ->]; [lia|lia|]. by rewrite Nat2Z.id, orb_false_r.
    + rewrite Ht. destruct (Z.ltb_spec b bs).
      * by rewrite (proj2 (Z.ltb_lt k advance)) by lia.
      * rewrite (proj2 (Z.ltb_ge k advance)) by lia. destruct (split64 (k - advance) (Z.of_nat (i - ws)) (b - bs)) as [-> ->]; [lia|lia|]. by rewrite Nat2Z.id.
Qed.

(** ** The window is exact *)

(** [acc] are the sequence numbers accepted so far. *)
Definition window_rep (acc : list Z) (bm : list Z) (highest : Z) (seeded : bool) : Prop :=
  bitmap_ok bm /\
  if seeded then highest ∈ acc /\ Forall (fun s => 0 <= s <= highest) acc /\
    forall j, 0 <= j < kReplayWindowBits -> bitAt bm j = true <-> (highest - j) ∈ acc
  else acc = [].

(** A number is fresh when it was not accepted before and is less than 2048
    behind every accepted one. *)
Definition fresh (acc : list Z) (seq : Z) : Prop := (seq ∉ acc) /\ Forall (fun s => s - seq < kReplayWindowBits) acc.

Lemma setBit_0 bm : setBit bm 0 0 = setBit bm (Z.to_nat (0 / 64)) (0 mod 64).
Proof. done. Qed.

Lemma replayCheck_new acc bm highest seq : window_rep acc bm highest true -> highest < seq ->
  let bm' := if seq - highest >=? kReplayWindowBits then replicate kReplayWordCount 0 else shiftWords bm (seq - highest) in
  window_rep (seq :: acc) (setBit bm' 0 0) seq true.
Proof.
  intros (Hb & Hh & Hall & Hbits) Hlt bm'. rewrite Forall_forall in Hall.
  assert (bitmap_ok bm' /\ forall k, 0 <= k < kReplayWindowBits -> bitAt bm' k = if k <? seq - highest then false else bitAt bm (k - (seq - highest))) as [Hb' Hk'].
  { unfold bm'. rewrite Z.geb_leb. destruct (Z.leb_spec kReplayWindowBits (seq - highest)).
    - split; [apply zeros_ok|]. intros k Hk. rewrite zeros_bit, (proj2 (Z.ltb_lt _ _)) by lia. done.
    - apply shiftWords_spec; [done|lia]. }
  clearbody bm'. rewrite setBit_0. destruct (setBit_spec bm' 0 Hb') as [Hok Hset]; [done|].
  split; [exact Hok|]. split_and!.
  - left.
  - constructor; [pose proof (Hall highest Hh); lia|]. apply Forall_forall. intros s Hs. pose proof (Hall s Hs). lia.
  - intros j Hj. rewrite Hset, Hk' by done. rewrite elem_of_cons. destruct (Z.eqb_spec j 0) as [->|Hj0]; [split; [by left; lia|done]|]. simpl.
    destruct (Z.ltb_spec j (seq - highest)).
    + split; [done|]. intros [?|Hin]; [lia|]. pose proof (Hall _ Hin). lia.
    + rewrite Hbits by (unfold kReplayWindowBits in *; lia). replace (highest - (j - (seq - highest))) with (seq - j) by lia.
      split; [by right|]. intros [?|?]; [lia|done].
Qed.

Lemma land_bit_zero x b : 0 <= b -> (Z.land x (Z.shiftl 1 b) =? 0) = negb (Z.testbit x b).
Proof.
  intros Hb. destruct (Z.testbit x b) eqn:E; simpl.
  - apply Z.eqb_neq. intros H0. assert (Z.testbit (Z.land x (Z.shiftl 1 b)) b = false) as F by (rewrite H0; apply Z.testbit_0_l).
    rewrite Z.land_spec, shiftl1_bit, Z.eqb_refl, E in F by lia. done.
  - apply Z.eqb_eq, Z.bits_inj'. intros k Hk. rewrite Z.land_spec, shiftl1_bit, Z.testbit_0_l by lia.
    destruct (Z.eqb_spec k b) as [->|]; [by rewrite E|apply andb_false_r].
Qed.

Lemma replayCheck_spec acc bm highest seeded seq : window_rep acc bm highest seeded -> 0 <= seq ->
  match replayCheck bm highest seeded seq with
  | Some (bm', highest') => fresh acc seq /\ window_rep (seq :: acc) bm' highest' true
  | None => ~ fresh acc seq
  end.
Proof.
  intros HR Hs. unfold replayCheck. destruct seeded; simpl negb; cbv iota; cycle 1.
  { destruct HR as [_ ->]. split; [split; [apply not_elem_of_nil|by apply Forall_nil]|].
    change (<[0%nat := 1]> (replicate kReplayWordCount 0)) with (setBit (replicate kReplayWordCount 0) (Z.to_nat (0 / 64)) (0 mod 64)).
    destruct (setBit_spec _ 0 zeros_ok) as [Hok Hset]; [done|]. split; [exact Hok|]. split_and!; [left|by constructor|].
    intros j Hj. rewrite Hset, zeros_bit, orb_false_r, elem_of_cons by done. rewrite Z.eqb_eq. split; [left; lia|].
    intros [?|?%elem_of_nil]; [lia|done]. }
  rewrite Z.gtb_ltb. destruct (Z.ltb_spec highest seq).
  { split; [|by apply replayCheck_new]. destruct HR as (_ & _ & Hall & _). rewrite Forall_forall in Hall. split.
    - intros Hin. pose proof (Hall _ Hin). lia.
    - apply Forall_forall. intros s Hin. pose proof (Hall _ Hin). unfold kReplayWindowBits. lia. }
  destruct HR as (Hb & Hh & Hall & Hbits). rewrite Z.geb_leb. destruct (Z.leb_spec kReplayWindowBits (highest - seq)).
  { intros [_ Hf]. rewrite Forall_forall in Hf. pose proof (Hf _ Hh). simpl in *. lia. }
  rewrite land_bit_zero by (apply Z.mod_pos_bound; lia). rewrite negb_involutive.
  assert (0 <= highest - seq < kReplayWindowBits) as Hj by lia.
  pose proof (Hbits _ Hj) as Hbit. unfold bitAt in Hbit. replace (highest - (highest - seq)) with seq in Hbit by lia.
  destruct (Z.testbit _ _) eqn:Eb; [intros [Hn _]; apply Hn; tauto|].
  assert (seq ∉ acc) as Hn by (intros Hin; by apply Hbit in Hin).
  destruct (setBit_spec bm (highest - seq) Hb Hj) as [Hok Hset]. rewrite Forall_forall in Hall.
  split; [split; [done|]; apply Forall_forall; intros s Hin; pose proof (Hall _ Hin); lia|].
  split; [exact Hok|]. split_and!.
  - by right.
  - constructor; [lia|]. by apply Forall_forall.
  - intros j Hj'. rewrite Hset by done. rewrite elem_of_cons, orb_true_iff, Z.eqb_eq, Hbits by done. intuition lia.
Qed.

(** ** Headers *)

Definition header_ok (h : SecurePacketHeader) : Prop :=
  0 <= magic h < 2 ^ 32 /\ 0 <= version h < 256 /\ 0 <= reserved h < 256 /\ 0 <= flags h < 2 ^ 16 /\
  0 <= sequence_number h < 2 ^ 64 /\ 0 <= payload_length h < 2 ^ 32 /\ length (hmac_tag h) = 32%nat.

Lemma length_headerBytes h : length (hmac_tag h) = 32%nat -> length (headerBytes h) = headerSize.
Proof. intros Hl. unfold headerBytes. rewrite !length_app, !length_le_bytes, Hl. done. Qed.

Lemma parse_header h : header_ok h -> parseHeader (headerBytes h) = h.
Proof.
  intros (Hm & Hv & Hr & Hf & Hs & Hp & Hl). destruct h as [m v r f q p t]. cbn [magic version reserved flags sequence_number payload_length hmac_tag] in *.
  unfold parseHeader, headerBytes. cbn [magic version reserved flags sequence_number payload_length hmac_tag].
  assert (forall n z, 0 <= z < 2 ^ (8 * Z.of_nat n) -> le_num (le_bytes n z) = z) as E by (intros; rewrite le_num_bytes; by apply Z.mod_small).
  f_equal; [change (le_num (le_bytes 4 m) = m)|change (le_num (le_bytes 1 v) = v)|change (le_num (le_bytes 1 r) = r)|change (le_num (le_bytes 2 f) = f)
    |change (le_num (le_bytes 8 q) = q)|change (le_num (le_bytes 4 p) = p)|change (take 32 t = t); by apply take_ge; rewrite Hl].
  all: by apply E.
Qed.

(** ** Ciphers *)

Lemma length_hmac key msg : length (Sha256.hmac_sha256 key msg) = 32%nat.
Proof. apply Sha256.length_final. Qed.

Lemma length_sha key : length (Sha256.sha256 key) = 32%nat.
Proof. apply Sha256.length_final. Qed.

(** The counter mode of any machine is undone by that of any other. *)
Lemma aesCtr_software hw key input seq : Forall byte key -> length key = 32%nat -> aesCtr hw key input seq = aesCtr false key input seq.
Proof.
  intros Hk Lk. unfold aesCtr. rewrite <- !(AesNi.ctr_take _ _ (Sha256.sha256 _)). set (n := Sha256.sha256 _).
  assert (length n = 32%nat) as Ln by apply length_sha. assert (Forall byte n) as Bn by apply Sha256.final_bytes.
  rewrite !AesNi.ctr_machine by (done || apply Forall_take, Bn || rewrite length_take; lia). reflexivity.
Qed.

Lemma aesCtr_involutive hw hw2 key input seq : Forall byte key -> length key = 32%nat ->
  aesCtr hw2 key (aesCtr hw key input seq) seq = input.
Proof.
  intros Hk Lk. rewrite (aesCtr_software hw), (aesCtr_software hw2) by done.
  unfold aesCtr, AesNi.aes256_ctr, Aes.aes256_ctr. set (n := Sha256.sha256 _). assert (length (take 12 n) = 12%nat) as Hn by (rewrite length_take; unfold n; rewrite length_sha; done).
  clearbody n. rewrite <- !(Aes.ctrLoop_take _ _ n). destruct (Aes.ctrLoop_spec (length input) (Aes.aes256_key_schedule key) (take 12 n) seq input Hn (le_n _)) as [-> _].
  by apply Aes.ctrLoop_involutive.
Qed.

Lemma length_aesCtr hw key input seq : Forall byte key -> length key = 32%nat -> length (aesCtr hw key input seq) = length input.
Proof.
  intros Hk Lk. rewrite (aesCtr_software hw) by done.
  unfold aesCtr, AesNi.aes256_ctr, Aes.aes256_ctr. set (n := Sha256.sha256 _). assert (length (take 12 n) = 12%nat) as Hn by (rewrite length_take; unfold n; rewrite length_sha; done).
  rewrite <- (Aes.ctrLoop_take _ _ n). by apply Aes.ctrLoop_spec.
Qed.

(** The GCM of the code is such a cipher. *)
#[export] Instance gcm_aead : Aead.
Proof.
  refine {| seal := GcmHardware.aes256_gcm_encrypt; unseal := GcmHardware.aes256_gcm_decrypt |}.
  - intros. by apply GcmHardware.encrypt_bytes.
  - intros. by apply GcmHardware.decrypt_exact.
Defined.

Lemma decide_GCM : negb (Z.land kFlagGCM kFlagGCM =? 0) = true.
Proof. reflexivity. Qed.

(** ** Receiving *)

Section Receive.
Context `{Aead} (hw : bool).

Definition resultOf (x : channel * VGREResult * list Z * list Z) : VGREResult := x.1.1.2.
Definition channelOf (x : channel * VGREResult * list Z * list Z) : channel := x.1.1.1.
Definition seqOf (stream : list Z) : Z := sequence_number (parseHeader (take headerSize stream)).

(** Every guard but the replay check: an initialized and live session, a whole
    packet with the right magic, version and size, and a valid tag. *)
Definition authentic (c : channel) (nowMs : Z) (stream : list Z) : bool :=
  let h := parseHeader (take headerSize stream) in
  let rest := drop headerSize stream in let n := Z.to_nat (payload_length h) in
  initialized_ c && negb (expired c nowMs) && (headerSize <=? length stream)%nat && (magic h =? kMagic) && (version h =? 1) &&
  (payload_length h <=? 64 * 1024 * 1024) && (n <=? length rest)%nat && (authenticate hw c h (take n rest) []).1.

Definition window (acc : list Z) (c : channel) : Prop :=
  window_rep acc (replayBitmap_ c) (highestSeenSeq_ c) (replayWindowSeeded_ c).

Lemma authenticate_out c h payload out out' : (authenticate hw c h payload out).1 = (authenticate hw c h payload out').1.
Proof. unfold authenticate. destruct (negb (Z.land (flags h) kFlagGCM =? 0)); cbn [fst]; reflexivity. Qed.

Lemma seqOf_nonneg stream : Forall byte stream -> 0 <= seqOf stream.
Proof. intros Hs. unfold seqOf, parseHeader, field. simpl. apply le_num_bound. by apply Forall_take, Forall_drop, Forall_take. Qed.

(** One packet: it succeeds exactly when it is authentic and fresh, and only
    then the window moves. *)
Lemma deliver_window acc c h payload out rest : window acc c -> 0 <= sequence_number h ->
  (resultOf (deliver hw c h payload out rest) = SUCCESS <-> (authenticate hw c h payload []).1 = true /\ fresh acc (sequence_number h)) /\
  window (if decide (resultOf (deliver hw c h payload out rest) = SUCCESS) then sequence_number h :: acc else acc)
    (channelOf (deliver hw c h payload out rest)).
Proof.
  intros Hw Hq. unfold deliver. rewrite (authenticate_out c h payload [] out).
  destruct (authenticate hw c h payload out) as [ok o]. cbn [fst]. destruct ok; cbn [negb].
  - pose proof (replayCheck_spec acc _ _ _ (sequence_number h) Hw Hq) as HR.
    destruct (replayCheck _ _ _ _) as [[bm hi]|]; unfold resultOf, channelOf; cbn [fst snd].
    + destruct HR as [Hf HR]. rewrite decide_True by reflexivity. split; [by split|exact HR].
    + rewrite decide_False by discriminate. split; [split; [discriminate|intros [_ ?]; tauto]|exact Hw].
  - unfold resultOf, channelOf. cbn [fst snd]. rewrite decide_False by discriminate. split; [split; [discriminate|intros [? _]; discriminate]|exact Hw].
Qed.

Lemma recvSecure_window acc c nowMs stream err out : window acc c -> Forall byte stream ->
  (resultOf (recvSecure hw c nowMs stream err out) = SUCCESS <-> authentic c nowMs stream = true /\ fresh acc (seqOf stream)) /\
  window (if decide (resultOf (recvSecure hw c nowMs stream err out) = SUCCESS) then seqOf stream :: acc else acc)
    (channelOf (recvSecure hw c nowMs stream err out)).
Proof.
  intros Hw Hs. pose proof (seqOf_nonneg stream Hs) as Hq. unfold seqOf in *.
  assert (forall c' r o rest, r <> SUCCESS -> window acc c' ->
    (resultOf (finish c' r, r, o, rest) = SUCCESS <-> false = true /\ fresh acc (sequence_number (parseHeader (take headerSize stream)))) /\
    window (if decide (resultOf (finish c' r, r, o, rest) = SUCCESS) then sequence_number (parseHeader (take headerSize stream)) :: acc else acc)
      (channelOf (finish c' r, r, o, rest))) as Hfail.
  { intros c' r o rest Hr Hw'. unfold resultOf, channelOf. cbn [fst snd]. rewrite decide_False by done.
    split; [split; [intros ?; contradiction|intros [? _]; discriminate]|exact Hw']. }
  assert ((if err =? -2 then ERR_TIMEOUT else ERR_IO) <> SUCCESS) as Hio by by destruct (err =? -2).
  unfold recvSecure, authentic, recvAll.
  destruct (initialized_ c); cbn [negb andb]; [|by apply Hfail].
  destruct (expired c nowMs); cbn [negb andb]; [by apply Hfail|].
  destruct (headerSize <=? length stream)%nat; cbn [andb]; [|by apply Hfail].
  set (h := parseHeader _) in *. clearbody h.
  destruct (magic h =? kMagic); cbn [negb andb orb]; [|by apply Hfail].
  destruct (version h =? 1); cbn [negb andb]; [|by apply Hfail].
  rewrite Z.gtb_ltb, Z.leb_antisym. destruct (64 * 1024 * 1024 <? payload_length h); cbn [negb andb]; [by apply Hfail|].
  destruct (Z.to_nat (payload_length h) <=? length (drop headerSize stream))%nat; cbn [andb]; [|by apply Hfail].
  by apply deliver_window.
Qed.

(** ** A sequence of packets *)

Definition input : Type := Z * list Z * Z.   (* the clock, the stream and how it ends *)

(** The results of receiving one packet from each stream in turn. *)
Fixpoint recvMany (c : channel) (inputs : list input) : channel * list (Z * VGREResult) :=
  match inputs with
  | [] => (c, [])
  | (nowMs, stream, err) :: inputs =>
      let x := recvSecure hw c nowMs stream err [] in
      let '(c', log) := recvMany (channelOf x) inputs in (c', (seqOf stream, resultOf x) :: log)
  end.

Definition successes (log : list (Z * VGREResult)) : list Z := fst <$> filter (fun x => x.2 = SUCCESS) log.

Lemma recvMany_window acc c inputs : window acc c -> Forall (fun i => Forall byte i.1.2) inputs -> NoDup acc ->
  let '(c', log) := recvMany c inputs in window (rev (successes log) ++ acc) c' /\ NoDup (rev (successes log) ++ acc).
Proof.
  intros Hw Hi Hn. revert acc c Hw Hn. induction Hi as [|[[now stream] err] inputs Hs _ IH]; intros acc c Hw Hn; cbn [recvMany]; [done|].
  destruct (recvSecure_window acc c now stream err [] Hw Hs) as [Hiff Hw']. destruct (decide _) as [E|E].
  - destruct (proj1 Hiff E) as [_ [Hf _]]. specialize (IH (seqOf stream :: acc) _ Hw' ltac:(by constructor)).
    destruct (recvMany _ inputs) as [c' log]. unfold successes in *. rewrite filter_cons_True by done. cbn [fmap list_fmap fst rev].
    by rewrite <- app_assoc.
  - specialize (IH acc _ Hw' Hn). destruct (recvMany _ inputs) as [c' log]. unfold successes in *. by rewrite filter_cons_False by done.
Qed.

(** ** A packet on the wire *)

Lemma headerFields_bytes h : 0 <= version h < 256 -> Forall byte (headerFields h) .
Proof.
  intros Hv. unfold headerFields. apply Forall_cons. split; [exact Hv|]. apply Forall_app. split; apply le_bytes_byte.
Qed.

Lemma sent_header_ok fl seq len tag : 0 <= seq < 2 ^ 64 -> 0 <= len < 2 ^ 32 -> 0 <= fl < 2 ^ 16 -> length tag = 32%nat ->
  header_ok (Header kMagic 1 0 fl seq len tag).
Proof.
  intros. unfold header_ok, kMagic. cbn [magic version reserved flags sequence_number payload_length hmac_tag]. split_and!; (assumption || lia).
Qed.

(** Two states of one session. *)
Definition same_session (c c' : channel) : Prop :=
  sessionKey_ c' = sessionKey_ c /\ initialized_ c' = initialized_ c /\ sessionStartMs_ c' = sessionStartMs_ c /\ useGcm_ c' = useGcm_ c.

(** What [sendSecure] puts on the wire: a header in range and a payload that
    the receiver's authentication turns back into the data. *)
Lemma sendSecure_wire c data iv : Forall byte (sessionKey_ c) -> length (sessionKey_ c) = 32%nat -> initialized_ c = true ->
  0 <= sendSequence_ c < 2 ^ 64 -> Forall byte data -> Z.of_nat (length data) < 2 ^ 32 -> Forall byte iv -> length iv = 12%nat ->
  exists c' h enc, sendSecure hw c data iv true = (c', SUCCESS, Some (headerBytes h ++ enc)) /\
    (sendSequence_ c' = u64 (sendSequence_ c + 1) /\ same_session c c') /\ header_ok h /\ magic h = kMagic /\ version h = 1 /\ sequence_number h = sendSequence_ c /\
    payload_length h = Z.of_nat (length data) /\ length enc = length data /\
    (forall hw2 c2 out, (useGcm_ c = true -> hw2 = hw) -> sessionKey_ c2 = sessionKey_ c ->
      exists o, authenticate hw2 c2 h enc out = (true, o) /\
        (if negb (Z.land (flags h) kFlagGCM =? 0) then o else if 0 <? payload_length h then aesCtr hw2 (sessionKey_ c2) enc (sequence_number h) else []) = data).
Proof.
  intros Hk Lk Hin Hseq Hd Ld Hiv Liv. unfold sendSecure. rewrite Hin. cbn [negb].
  assert (u32 (Z.of_nat (length data)) = Z.of_nat (length data)) as E32 by (apply u32_small; lia). rewrite E32.
  destruct (useGcm_ c) eqn:Eg.
  - set (hd := Header kMagic 1 0 kFlagGCM (sendSequence_ c) (Z.of_nat (length data)) []).
    pose proof (headerFields_bytes hd ltac:(simpl; lia)) as Hf.
    pose proof (seal_bytes hw (sessionKey_ c) iv (headerFields hd) data Hk Lk Hiv Liv Hf Hd) as Hseal.
    destruct (seal hw (sessionKey_ c) iv (headerFields hd) data) as [enc tag] eqn:Es. destruct Hseal as (Le & Be & Lt & Bt).
    eexists _, _, enc. split; [reflexivity|]. cbn [sendSequence_ magic version sequence_number payload_length flags hmac_tag].
    split; [split; [done|unfold same_session; cbn; by rewrite ?Hin, ?Eg]|]. split; [apply sent_header_ok; [done|lia|done|]; rewrite !length_app, length_replicate; lia|].
    do 4 (split; [reflexivity|]). split; [exact Le|].
    intros hw2 c2 out -> Hk2; [|done]. exists data. split; [|by rewrite decide_GCM]. unfold authenticate. cbn [flags hmac_tag]. rewrite decide_GCM, Hk2.
      rewrite (take_app_exact iv), (drop_app_exact iv), (take_app_exact tag) by done.
      apply unseal_exact; done.
  - set (enc := if (0 <? length data)%nat then _ else _).
    assert (length enc = length data) as Le.
    { unfold enc. destruct (Nat.ltb_spec 0 (length data)); [by apply length_aesCtr|simpl; lia]. }
    eexists _, _, enc. split; [reflexivity|]. cbn [sendSequence_ magic version sequence_number payload_length flags hmac_tag].
    split; [split; [done|unfold same_session; cbn; by rewrite ?Hin, ?Eg]|]. split; [apply sent_header_ok; [done|lia|done|apply length_hmac]|].
    do 4 (split; [reflexivity|]). split; [exact Le|]. intros hw2 c2 out _ Hk2. exists out.
    unfold authenticate. cbn [flags hmac_tag sequence_number payload_length]. rewrite Hk2. change (negb (Z.land 0 kFlagGCM =? 0)) with false. cbv iota. split.
    + f_equal. apply Sha256.secure_compare_iff; [apply length_hmac|apply length_hmac|reflexivity].
    + unfold enc. destruct (Nat.ltb_spec 0 (length data)).
      * rewrite (proj2 (Z.ltb_lt _ _)) by lia. by apply aesCtr_involutive.
      * rewrite (proj2 (Z.ltb_ge _ _)) by lia. destruct data; [done|simpl in *; lia].
Qed.

Lemma recv_wire acc c2 nowMs h enc rest err out o : initialized_ c2 = true -> expired c2 nowMs = false ->
  header_ok h -> magic h = kMagic -> version h = 1 -> payload_length h = Z.of_nat (length enc) -> Z.of_nat (length enc) <= 64 * 1024 * 1024 ->
  authenticate hw c2 h enc out = (true, o) -> window acc c2 -> fresh acc (sequence_number h) ->
  exists c2', recvSecure hw c2 nowMs (headerBytes h ++ enc ++ rest) err out =
      (c2', SUCCESS, if negb (Z.land (flags h) kFlagGCM =? 0) then o else if 0 <? payload_length h then aesCtr hw (sessionKey_ c2) enc (sequence_number h) else [], rest) /\
    window (sequence_number h :: acc) c2' /\ packetsReceived_ c2' = u64 (packetsReceived_ c2 + 1) /\ same_session c2 c2'.
Proof.
  intros Hin Hex Hh Hm Hv Hp Ll Ha Hw Hf. unfold recvSecure, recvAll. rewrite Hin, Hex. cbn [negb].
  assert (length (headerBytes h) = headerSize) as Lh by (apply length_headerBytes; apply Hh).
  rewrite (proj2 (Nat.leb_le _ _)) by (rewrite length_app; lia).
  rewrite (take_app_exact (headerBytes h)), (drop_app_exact (headerBytes h)), parse_header by done.
  rewrite Hm, Hv, !Z.eqb_refl. cbn [negb orb]. rewrite Z.gtb_ltb, (proj2 (Z.ltb_ge _ _)) by lia.
  rewrite Hp, Nat2Z.id. rewrite (proj2 (Nat.leb_le _ _)) by (rewrite length_app; lia).
  rewrite (take_app_exact enc), (drop_app_exact enc) by done. unfold deliver. rewrite Ha. cbn [negb].
  pose proof (replayCheck_spec acc _ _ _ (sequence_number h) Hw) as HR.
  destruct (replayCheck _ _ _ _) as [[bm hi]|]; [|exfalso; apply HR; [apply Hh|exact Hf]].
  rewrite Hp. eexists. split; [reflexivity|]. split; [apply HR; apply Hh|split; [reflexivity|by unfold same_session]].
Qed.

(** The sender does not check the limit of 64 MiB; the receiver refuses what
    exceeds it, after the header. *)
Lemma oversized_rejected c c2 data iv nowMs err out : Forall byte (sessionKey_ c) -> length (sessionKey_ c) = 32%nat ->
  initialized_ c = true -> 0 <= sendSequence_ c < 2 ^ 64 -> Forall byte data -> 64 * 1024 * 1024 < Z.of_nat (length data) < 2 ^ 32 ->
  Forall byte iv -> length iv = 12%nat -> initialized_ c2 = true -> expired c2 nowMs = false ->
  exists c' wire, sendSecure hw c data iv true = (c', SUCCESS, Some wire) /\
    forall hw2, resultOf (recvSecure hw2 c2 nowMs wire err out) = ERR_INVALID_VALUE.
Proof.
  intros Hk Lk Hin Hseq Hd Ld Hiv Liv Hin2 Hex.
  destruct (sendSecure_wire c data iv Hk Lk Hin Hseq Hd ltac:(lia) Hiv Liv) as (c' & h & enc & Es & _ & Hh & Hm & Hv & _ & Hp & Le & _).
  eexists _, _. split; [exact Es|]. intros hw2. unfold recvSecure, recvAll. rewrite Hin2, Hex. cbn [negb].
  assert (length (headerBytes h) = headerSize) as Lh by (apply length_headerBytes; apply Hh).
  rewrite (proj2 (Nat.leb_le _ _)) by (rewrite length_app; lia).
  rewrite (take_app_exact (headerBytes h)), (drop_app_exact (headerBytes h)), parse_header by done.
  rewrite Hm, Hv, !Z.eqb_refl. cbn [negb orb]. rewrite Hp, Z.gtb_ltb, (proj2 (Z.ltb_lt _ _)) by lia. reflexivity.
Qed.

(** A session set up from a token is ready: its key is the PBKDF2 key of the
    token and the two nonces, its window is empty. *)
Lemma initialize_ready c token mn cn env now gcmHw : token <> [] -> Forall byte token -> Forall byte mn -> Forall byte cn ->
  let '(c', r) := initializeFromSecret c token mn cn env now gcmHw in
  r = SUCCESS /\ initialized_ c' = true /\ sendSequence_ c' = 0 /\ window [] c' /\ Forall byte (sessionKey_ c') /\ length (sessionKey_ c') = 32%nat.
Proof.
  intros Ht Hb Hm Hc. unfold initializeFromSecret. destruct token as [|b token]; [done|]. cbn [length Nat.eqb].
  set (it := match env with Some _ => _ | None => _ end). assert (Forall byte (mn ++ cn)) as Hs by by apply Forall_app.
  destruct (Sha256.pbkdf2_key (b :: token) (mn ++ cn) it 32 Hb Hs) as (_ & Hk & Lk). cbn [sessionKey_ initialized_ sendSequence_].
  split; [done|]. split; [done|]. split; [done|]. split; [|by split]. split; [apply zeros_ok|done].
Qed.

(** Rotating keeps both ends in step: equal keys and nonces give equal keys. *)
Lemma rotate_agrees c c2 nonce : initialized_ c = true -> initialized_ c2 = true -> sessionKey_ c = sessionKey_ c2 ->
  (rotateKey c nonce).2 = SUCCESS /\ sessionKey_ (rotateKey c nonce).1 = sessionKey_ (rotateKey c2 nonce).1 /\
  keyFingerprint_ (rotateKey c nonce).1 = keyFingerprint_ (rotateKey c2 nonce).1.
Proof. intros H1 H2 E. unfold rotateKey. rewrite H1, H2. cbn [negb fst snd with_key sessionKey_ keyFingerprint_]. by rewrite E. Qed.
End Receive.

(** ** Properties *)

Section Properties.
Context `{Aead}.

(** C5: delivery.  An initialized channel sends at most 64 MiB of data; the
    other end has the same session key, is initialized and not expired, and
    finds the sequence number fresh in its window; and either the sender does
    not use GCM, or both ends run on the same kind of machine.  Then
    [sendSecure] succeeds, [recvSecure] returns SUCCESS and exactly the data,
    leaves the rest of the stream, and records the sequence number.  Each of
    the conditions is needed: see [oversized_rejected], [mixed_machines_rejected]
    and [replay_window_exact]. *)
Theorem secure_delivery hw hw2 acc c c2 data iv nowMs rest err out :
  Forall byte (sessionKey_ c) -> length (sessionKey_ c) = 32%nat -> initialized_ c = true -> 0 <= sendSequence_ c < 2 ^ 64 ->
  Forall byte data -> Z.of_nat (length data) <= 64 * 1024 * 1024 -> Forall byte iv -> length iv = 12%nat ->
  (useGcm_ c = true -> hw2 = hw) ->
  sessionKey_ c2 = sessionKey_ c -> initialized_ c2 = true -> expired c2 nowMs = false ->
  window acc c2 -> fresh acc (sendSequence_ c) ->
  exists c' wire c2', sendSecure hw c data iv true = (c', SUCCESS, Some wire) /\ sendSequence_ c' = u64 (sendSequence_ c + 1) /\
    recvSecure hw2 c2 nowMs (wire ++ rest) err out = (c2', SUCCESS, data, rest) /\
    window (sendSequence_ c :: acc) c2' /\ packetsReceived_ c2' = u64 (packetsReceived_ c2 + 1).
Proof.
  intros Hk Lk Hin Hseq Hd Ld Hiv Liv Hhw Hk2 Hin2 Hex Hw Hf.
  destruct (sendSecure_wire hw c data iv Hk Lk Hin Hseq Hd ltac:(lia) Hiv Liv) as (c' & h & enc & Es & [Hs' _] & Hh & Hm & Hv & Hq & Hp & Le & Ha).
  destruct (Ha hw2 c2 out Hhw Hk2) as (o & Hau & Ho). rewrite <- Hq in Hf.
  destruct (recv_wire hw2 acc c2 nowMs h enc rest err out o Hin2 Hex Hh Hm Hv) as (c2' & Er & Hw' & Hp2 & _); [by rewrite Le|lia|done..|].
  rewrite Ho in Er. rewrite Hq in Hw'. exists c', (headerBytes h ++ enc), c2'. rewrite <- app_assoc. split_and!; done.
Qed.

(** C4: replays.  Start from a channel that has received nothing and receive
    any streams, well formed or not.  No sequence number is accepted twice; and
    a further packet succeeds exactly when it is authentic and its number is
    fresh: not accepted before, and less than 2048 behind every accepted one.
    The word-wise shifts of the bitmap lose and invent nothing. *)
Theorem replay_window_exact hw c inputs nowMs stream err out :
  window [] c -> Forall (fun i => Forall byte i.1.2) inputs -> Forall byte stream ->
  let '(c', log) := recvMany hw c inputs in
  NoDup (successes log) /\
  (resultOf (recvSecure hw c' nowMs stream err out) = SUCCESS <-> authentic hw c' nowMs stream = true /\ fresh (successes log) (seqOf stream)).
Proof.
  intros Hw Hi Hs. pose proof (recvMany_window hw [] c inputs Hw Hi (NoDup_nil_2)) as HR. destruct (recvMany hw c inputs) as [c' log].
  destruct HR as [Hw' Hn]. rewrite app_nil_r in *. destruct (recvSecure_window hw _ c' nowMs stream err out Hw' Hs) as [Hiff _].
  assert (rev (successes log) ≡ₚ successes log) as Hp by (symmetry; apply Permutation_rev).
  split; [by rewrite <- Hp|]. rewrite Hiff. unfold fresh. by rewrite Hp.
Qed.
End Properties.

(** An established session with the key 0, 1, ..., 31. *)
Definition session (gcm : bool) : channel :=
  Channel Aes.fips_key (replicate 32 0) 0 (replicate 32 0) 0 false 0 0 0 0 0 SUCCESS true gcm.

Lemma session_window gcm : window [] (session gcm).
Proof. split; [apply zeros_ok|reflexivity]. Qed.

Lemma small_bytes : Forall byte [1; 2; 3].
Proof. repeat (apply Forall_cons; split; [unfold byte; lia|]). by apply Forall_nil. Qed.

(** The conditions of delivery.  A packet sealed on a machine with the GCM
    instructions is refused, though its key and sequence number are right, on a
    machine without them. *)
Lemma mixed_machines_rejected :
  match sendSecure true (session true) [1; 2; 3] (replicate 12 7) true with
  | (_, SUCCESS, Some wire) =>
      resultOf (recvSecure true (session true) 5 wire 0 []) = SUCCESS /\ resultOf (recvSecure false (session false) 5 wire 0 []) = ERR_AUTH_FAILED
  | _ => False
  end.
Proof. vm_compute. split; reflexivity. Qed.

Lemma secure_delivery_witness :
  window [] (session true) /\
  exists c' wire c2', sendSecure true (session true) [1; 2; 3] (replicate 12 7) true = (c', SUCCESS, Some wire) /\ sendSequence_ c' = 1 /\
    recvSecure true (session true) 5 (wire ++ [9]) 0 [] = (c2', SUCCESS, [1; 2; 3], [9]) /\
    window [0] c2' /\ packetsReceived_ c2' = 1.
Proof.
  assert (Forall byte (replicate 12 7)) as Hiv by (apply Forall_replicate; unfold byte; lia).
  assert (fresh [] 0) as Hf by (split; [apply not_elem_of_nil|by apply Forall_nil]).
  split; [exact (session_window true)|].
  exact (secure_delivery true true [] (session true) (session true) [1; 2; 3] (replicate 12 7) 5 [9] 0 [] (proj1 Aes.fips_key_ok) (proj2 Aes.fips_key_ok)
    eq_refl (conj (Z.le_refl 0) eq_refl) small_bytes ltac:(simpl; lia) Hiv eq_refl (fun _ => eq_refl) eq_refl eq_refl eq_refl (session_window true) Hf).
Defined.

Lemma replay_window_exact_witness :
  window [] (session false) /\
  let '(c', log) := recvMany false (session false) [(5, replicate 60 7, 0); (6, [], -2)] in
  NoDup (successes log) /\
  (resultOf (recvSecure false c' 7 (replicate 80 3) 0 []) = SUCCESS <-> authentic false c' 7 (replicate 80 3) = true /\ fresh (successes log) (seqOf (replicate 80 3))).
Proof.
  split; [exact (session_window false)|].
  assert (forall n b, byte b -> Forall byte (replicate n b)) as Hr by (intros; by apply Forall_replicate).
  assert (byte 3) as H3 by (unfold byte; lia).
  assert (Forall (fun i : input => Forall byte i.1.2) [(5, replicate 60 7, 0); (6, [], -2)]) as Hi.
  { apply Forall_cons. split; [apply Hr; unfold byte; lia|]. apply Forall_singleton. by apply Forall_nil. }
  exact (replay_window_exact false (session false) [(5, replicate 60 7, 0); (6, [], -2)] 7 (replicate 80 3) 0 [] (session_window false) Hi (Hr 80%nat 3 H3)).
Defined.
End SecureChannel.
