(* ===== verification/Field25519.v ===== *)
(** * The field modulo 2^255 - 19 in software

    Model of the field arithmetic of the portable X25519 of
    src/advanced/secure_channel_crypto.cpp: sixteen signed limbs of 16 bits in
    64-bit integers.  A signed overflow, undefined in C++, wraps in the model;
    the proofs bound the limbs through every operation, so that none occurs,
    and show that each operation computes its namesake modulo the prime. *)

From S2P Require Import Prelude Bytes Words.
From Stdlib Require Import Setoid Morphisms.

Module Field25519.
Import Bytes Words.

(** [int64_t] *)
Definition i64 (x : Z) : Z := (x + 2 ^ 63) mod 2 ^ 64 - 2 ^ 63.

Abbreviation gf := (list Z).

(** ** Field operations *)

Definition carryStep (o : gf) (i : nat) : gf :=
  let o := <[i := i64 (coef o i + Z.shiftl 1 16)]> o in
  let c := Z.shiftr (coef o i) 16 in
  let j := ((i + 1) * (if (i <? 15)%nat then 1 else 0))%nat in
  let o := <[j := i64 (coef o j + i64 (c - 1 + 37 * (c - 1) * (if (i =? 15)%nat then 1 else 0)))]> o in
  <[i := i64 (coef o i - i64 (Z.shiftl c 16))]> o.
Definition gf_carry (o : gf) : gf := foldl carryStep o (seq 0 16).

Definition gf_add (a b : gf) : gf := (fun i => i64 (coef a i + coef b i)) <$> seq 0 16.
Definition gf_sub (a b : gf) : gf := (fun i => i64 (coef a i - coef b i)) <$> seq 0 16.

(** [t = m & (f[i] ^ g[i]); f[i] ^= t; g[i] ^= t] with [m = -b]. *)
Definition gf_cswap (f g : gf) (b : Z) : gf * gf :=
  let m := i64 (- b) in
  let t := fun i => Z.land m (Z.lxor (coef f i) (coef g i)) in
  ((fun i => Z.lxor (coef f i) (t i)) <$> seq 0 16, (fun i => Z.lxor (coef g i) (t i)) <$> seq 0 16).

(** [t[k] += x] *)
Definition addAt (t : list Z) (k : nat) (x : Z) : list Z := <[k := i64 (coef t k + i64 x)]> t.

Definition gf_mul (a b : gf) : gf :=
  let t := foldl (fun t i => foldl (fun t j => addAt t (i + j) (coef a i * coef b j)) t (seq 0 16)) (replicate 31 0) (seq 0 16) in
  let t := foldl (fun t i => addAt t i (38 * coef t (i + 16))) t (seq 0 15) in
  gf_carry (gf_carry (take 16 t)).

Definition gf_sqr (a : gf) : gf := gf_mul a a.

Definition gf_mul121665 (a : gf) : gf := gf_carry (gf_carry ((fun i => i64 (121665 * coef a i)) <$> seq 0 16)).

(** [for (i = 253; i >= 0; i--)] *)
Definition invStep (a c : gf) (i : nat) : gf :=
  let c := gf_sqr c in if negb (i =? 2)%nat && negb (i =? 4)%nat then gf_mul c a else c.
Definition gf_inv (a : gf) : gf := foldl (invStep a) a (rev (seq 0 254)).

Definition gf_unpack (s : list Z) : gf :=
  let o := (fun i => Z.lor (coef s (2 * i)) (Z.shiftl (coef s (2 * i + 1)) 8)) <$> seq 0 16 in
  <[15%nat := Z.land (coef o 15) 0x7fff]> o.

(** One pass of [m = a - p] with its borrows, [b] the last one. *)
Definition borrow (m : Z) : Z := Z.land (Z.shiftr m 16) 1.
Definition subStep (a m : gf) (i : nat) : gf :=
  let m := <[i := i64 (coef a i - 0xffff - borrow (coef m (i - 1)))]> m in
  <[(i - 1)%nat := Z.land (coef m (i - 1)) 0xffff]> m.
Definition subPrime (a m : gf) : gf * gf :=
  let m := <[0%nat := i64 (coef a 0 - 0xffed)]> m in
  let m := foldl (subStep a) m (seq 1 14) in
  let m := <[15%nat := i64 (coef a 15 - 0x7fff - borrow (coef m 14))]> m in
  let b := borrow (coef m 15) in
  let m := <[14%nat := Z.land (coef m 14) 0xffff]> m in
  gf_cswap a m (1 - b).

(** [m] is uninitialized in the code; its first pass writes every limb. *)
Definition gf_pack (a : gf) : list Z :=
  let a := gf_carry (gf_carry a) in
  let '(a, m) := subPrime a (replicate 16 0) in
  let '(a, m) := subPrime a m in
  seq 0 16 ≫= fun i => [u8 (Z.land (coef a i) 0xff); u8 (Z.land (Z.shiftr (coef a i) 8) 0xff)].

(** ** The numbers behind the limbs *)

Definition p : Z := 2 ^ 255 - 19.
Definition val (l : list Z) : Z := foldr (fun x v => x + 2 ^ 16 * v) 0 l.

(** Congruence modulo the prime, with its rewriting. *)
Definition eqp (a b : Z) : Prop := exists k, a = b + k * p.
Infix "≡p" := eqp (at level 70, no associativity).

#[export] Instance eqp_equiv : Equivalence eqp.
Proof.
  split.
  - intros a. exists 0. lia.
  - intros a b [k ->]. exists (- k). lia.
  - intros a b c [k ->] [l ->]. exists (l + k). lia.
Qed.
#[export] Instance eqp_add : Proper (eqp ==> eqp ==> eqp) Z.add.
Proof. intros a a' [k ->] b b' [l ->]. exists (k + l). lia. Qed.
#[export] Instance eqp_sub : Proper (eqp ==> eqp ==> eqp) Z.sub.
Proof. intros a a' [k ->] b b' [l ->]. exists (k - l). lia. Qed.
#[export] Instance eqp_mul : Proper (eqp ==> eqp ==> eqp) Z.mul.
Proof. intros a a' [k ->] b b' [l ->]. exists (a' * l + k * b' + k * l * p). ring. Qed.
#[export] Instance eqp_mod_proper : Proper (eqp ==> eq) (fun a => a mod p).
Proof. intros a a' [k ->]. apply Z_mod_plus_full. Qed.

Lemma eqp_multiple a b k : a = b + k * p -> a ≡p b.
Proof. by exists k. Qed.

Lemma eqp_eq a b : a ≡p b -> a mod p = b mod p.
Proof. apply eqp_mod_proper. Qed.

Lemma i64_small x : - 2 ^ 63 <= x < 2 ^ 63 -> i64 x = x.
Proof. intros. unfold i64. rewrite Z.mod_small; lia. Qed.

Lemma val_cons x l : val (x :: l) = x + 2 ^ 16 * val l.
Proof. done. Qed.

Lemma val_app l1 l2 : val (l1 ++ l2) = val l1 + 2 ^ (16 * Z.of_nat (length l1)) * val l2.
Proof.
  induction l1 as [|x l IH]; [by rewrite Z.mul_1_l|]. simpl app. rewrite !val_cons, IH.
  cbn [length]. replace (16 * Z.of_nat (S (length l))) with (16 + 16 * Z.of_nat (length l)) by lia. rewrite Z.pow_add_r by lia. ring.
Qed.

Lemma val_insert l k x : (k < length l)%nat -> val (<[k := x]> l) = val l + 2 ^ (16 * Z.of_nat k) * (x - coef l k).
Proof.
  intros Hk. rewrite <- (take_drop_middle l k (coef l k)) at 2 by (by apply coef_lookup).
  rewrite insert_take_drop by done. rewrite !val_app, !val_cons, length_take, Nat.min_l by lia. ring.
Qed.

Lemma val_zeros n : val (replicate n 0) = 0.
Proof. induction n as [|n IH]; [done|]. simpl replicate. by rewrite val_cons, IH. Qed.

(** ** Carrying *)

Definition within (lo hi : Z) (l : list Z) : Prop := Forall (fun x => lo <= x <= hi) l.
Abbreviation limbs := (within 0 65535).

Fixpoint carryL (q : Z) (l : list Z) : list Z * Z :=
  match l with
  | [] => ([], q)
  | x :: l => let '(l', q') := carryL ((x + q) / 2 ^ 16) l in ((x + q) mod 2 ^ 16 :: l', q')
  end.

Lemma carryL_cons q x l :
  carryL q (x :: l) = ((x + q) mod 2 ^ 16 :: (carryL ((x + q) / 2 ^ 16) l).1, (carryL ((x + q) / 2 ^ 16) l).2).
Proof. cbn [carryL]. by destruct carryL. Qed.

Lemma carryL_length q l : length (carryL q l).1 = length l.
Proof. revert q. induction l as [|x l IH]; intros q; [done|]. simpl. specialize (IH ((x + q) / 2 ^ 16)). destruct carryL. simpl in *. by rewrite IH. Qed.

Lemma carryL_limbs q l : limbs (carryL q l).1.
Proof.
  revert q. induction l as [|x l IH]; intros q; [constructor|]. cbn [carryL]. specialize (IH ((x + q) / 2 ^ 16)). destruct carryL.
  apply Forall_cons. split; [|done]. change (2 ^ 16) with 65536. pose proof (Z.mod_pos_bound (x + q) 65536). lia.
Qed.

Lemma carryL_val q l : val l + q = val (carryL q l).1 + 2 ^ (16 * Z.of_nat (length l)) * (carryL q l).2.
Proof.
  revert q. induction l as [|x l IH]; intros q; [simpl; lia|]. cbn [carryL length]. specialize (IH ((x + q) / 2 ^ 16)).
  destruct carryL as [l' q']. cbn [fst snd] in *. rewrite !val_cons.
  replace (16 * Z.of_nat (S (length l))) with (16 + 16 * Z.of_nat (length l)) by lia. rewrite Z.pow_add_r by lia.
  pose proof (Z.div_mod (x + q) (2 ^ 16) ltac:(lia)). nia.
Qed.

Lemma div16_bound x lo hi : 65536 * lo <= x < 65536 * hi -> lo <= x / 2 ^ 16 < hi.
Proof. change (2 ^ 16) with 65536. intros. split; [apply Z.div_le_lower_bound; lia|apply Z.div_lt_upper_bound; lia]. Qed.

Lemma carryL_bound lo hi Q q l : within lo hi l -> - Q <= q <= Q -> Q <= lo + 65536 * Q -> hi + Q < 65536 * (Q + 1) ->
  - Q <= (carryL q l).2 <= Q.
Proof.
  intros Hl Hq Hlo Hhi. revert q Hq. induction Hl as [|x l Hx _ IH]; intros q Hq; [done|]. rewrite carryL_cons. cbn [snd].
  apply IH. pose proof (div16_bound (x + q) (- Q) (Q + 1)). lia.
Qed.

Lemma val_limbs l : limbs l -> 0 <= val l < 2 ^ (16 * Z.of_nat (length l)).
Proof.
  induction 1 as [|x l Hx _ IH]; [done|]. rewrite val_cons. cbn [length].
  replace (16 * Z.of_nat (S (length l))) with (16 + 16 * Z.of_nat (length l)) by lia. rewrite Z.pow_add_r by lia. lia.
Qed.

Lemma coef_middle pre x l : coef (pre ++ x :: l) (length pre) = x.
Proof. unfold coef. by rewrite list_lookup_middle. Qed.

Lemma insert_middle' pre x y (l : list Z) : <[length pre := y]> (pre ++ x :: l) = pre ++ y :: l.
Proof. rewrite <- (Nat.add_0_r (length pre)). by rewrite insert_app_r. Qed.

Lemma shiftr_carry x : Z.shiftr (x + 65536) 16 = x / 2 ^ 16 + 1.
Proof. rewrite shiftr_div by lia. by rewrite <- (Z.div_add x 1 (2 ^ 16)) by lia. Qed.

Lemma carryStep_inner pre s y l : (length pre < 15)%nat -> - 2 ^ 61 <= s < 2 ^ 61 -> - 2 ^ 61 <= y < 2 ^ 61 ->
  carryStep (pre ++ s :: y :: l) (length pre) = (pre ++ [s mod 2 ^ 16]) ++ (y + s / 2 ^ 16) :: l.
Proof.
  intros Hp Hs Hy. unfold carryStep. rewrite coef_middle, (proj2 (Nat.ltb_lt _ _) Hp), Nat.mul_1_r.
  rewrite (proj2 (Nat.eqb_neq _ _)) by lia. change (Z.shiftl 1 16) with 65536. rewrite (i64_small (s + _)) by lia.
  rewrite insert_middle', coef_middle, shiftr_carry. rewrite Z.mul_0_r, Z.add_0_r, Z.add_simpl_r.
  pose proof (div16_bound s (- 2 ^ 46) (2 ^ 46) ltac:(lia)) as Hq.
  rewrite (i64_small (s / _)) by lia.
  replace (pre ++ s + 65536 :: y :: l) with ((pre ++ [s + 65536]) ++ y :: l) by (by rewrite <- app_assoc).
  replace (length pre + 1)%nat with (length (pre ++ [s + 65536])) by (rewrite length_app; done).
  rewrite coef_middle, insert_middle', (i64_small (y + _)) by lia. rewrite <- app_assoc. simpl app. rewrite coef_middle, insert_middle'.
  rewrite <- app_assoc. simpl app. f_equal. f_equal. rewrite Z.shiftl_mul_pow2 by lia.
  pose proof (Z.mod_eq s (2 ^ 16) ltac:(lia)) as Hm. pose proof (Z.mod_pos_bound s (2 ^ 16) ltac:(lia)).
  rewrite (i64_small (_ * _)) by lia. rewrite i64_small; lia.
Qed.

Lemma carryStep_last h pre s : length pre = 14%nat -> - 2 ^ 61 <= s < 2 ^ 61 -> - 2 ^ 61 <= h < 2 ^ 61 ->
  carryStep (h :: pre ++ [s]) 15 = (h + 38 * (s / 2 ^ 16)) :: pre ++ [s mod 2 ^ 16].
Proof.
  intros Hp Hs Hh. assert (length (h :: pre) = 15%nat) as Hl by (simpl; lia).
  assert (forall h' s', length h' = 1%nat -> coef (h' ++ pre ++ [s']) 15 = s') as Hc.
  { intros h' s' Hh'. rewrite app_assoc. replace 15%nat with (length (h' ++ pre)) by (rewrite length_app; lia). apply coef_middle. }
  assert (forall h' s' y, length h' = 1%nat -> <[15%nat := y]> (h' ++ pre ++ [s']) = h' ++ pre ++ [y]) as Hi.
  { intros h' s' y Hh'. rewrite !app_assoc. replace 15%nat with (length (h' ++ pre)) by (rewrite length_app; lia). apply insert_middle'. }
  unfold carryStep. change (h :: pre ++ [s]) with ([h] ++ pre ++ [s]). rewrite Hc by done. change (Z.shiftl 1 16) with 65536.
  rewrite (i64_small (s + _)) by lia. rewrite Hi, Hc, shiftr_carry by done.
  change ((15 + 1) * _)%nat with 0%nat. change (if (15 =? 15)%nat then 1 else 0) with 1.
  pose proof (div16_bound s (- 2 ^ 46) (2 ^ 46) ltac:(lia)) as Hq. change (coef ([h] ++ _) 0) with h.
  change (<[0%nat := ?v]> ([h] ++ ?r)) with ([v] ++ r).
  rewrite (i64_small (_ - 1 + _)) by lia. rewrite (i64_small (h + _)) by lia.
  rewrite Z.shiftl_mul_pow2 by lia. rewrite (i64_small (_ * _)) by lia.
  rewrite Hc, Hi by done.
  pose proof (Z.mod_eq s (2 ^ 16) ltac:(lia)) as Hm. pose proof (Z.mod_pos_bound s (2 ^ 16) ltac:(lia)).
  rewrite i64_small by lia. cbn [app]. f_equal; [lia|]. do 2 f_equal. lia.
Qed.

(** The whole pass: limbs are reduced in order and the last carry returns to
    the first limb, times 38. *)
Lemma carry_run l : forall pre x q, (length pre + length (x :: l) = 16)%nat -> (0 < length pre)%nat ->
  within (- 2 ^ 59) (2 ^ 59) (pre ++ x :: l) -> - 2 ^ 59 <= q <= 2 ^ 59 ->
  foldl carryStep (pre ++ (x + q) :: l) (seq (length pre) (length (x :: l))) =
  match pre with [] => [] | h :: pre => (h + 38 * (carryL q (x :: l)).2) :: pre ++ (carryL q (x :: l)).1 end.
Proof.
  induction l as [|y l IH]; intros pre x q Hl H0 Hw Hq.
  - destruct pre as [|h pre]; [simpl in H0; lia|]. apply Forall_app in Hw as [Hp Hx]. apply Forall_cons in Hp as [Hh Hp]. apply Forall_cons in Hx as [Hx _].
    cbn [length] in Hl. assert (length pre = 14)%nat as Hpl by lia. cbn [length seq foldl carryL fst snd app]. rewrite Hpl.
    apply carryStep_last; [done|lia..].
  - cbn [length] in Hl. pose proof Hw as Hw'. apply Forall_app in Hw' as [Hp Hx]. apply Forall_cons in Hx as [Hx Hy]. apply Forall_cons in Hy as [Hy Hlw].
    change (seq (length pre) (length (x :: y :: l))) with (length pre :: seq (S (length pre)) (length (y :: l))).
    cbn [foldl]. rewrite carryStep_inner by lia.
    replace (S (length pre)) with (length (pre ++ [(x + q) mod 2 ^ 16])) by (rewrite length_app; simpl; lia).
    pose proof (div16_bound (x + q) (- 2 ^ 46) (2 ^ 46) ltac:(lia)) as Hd. pose proof (Z.mod_pos_bound (x + q) (2 ^ 16) ltac:(lia)) as Hm.
    rewrite IH.
    + destruct pre as [|h pre]; [simpl in H0; lia|]. cbn [app]. rewrite (carryL_cons q x). cbn [fst snd]. by rewrite <- app_assoc.
    + rewrite length_app. simpl. lia.
    + rewrite length_app. simpl. lia.
    + apply Forall_app. split; [apply Forall_app; split; [done|]|by apply Forall_cons]. apply Forall_singleton. lia.
    + lia.
Qed.

Lemma gf_carry_first o : gf_carry o = foldl carryStep (carryStep o 0) (seq 1 15).
Proof.
  assert (forall i l (a : gf), foldl carryStep a (i :: l) = foldl carryStep (carryStep a i) l) as H by done.
  unfold gf_carry. rewrite <- H. done.
Qed.

Lemma carryStep_first x y l : - 2 ^ 59 <= x <= 2 ^ 59 -> - 2 ^ 59 <= y <= 2 ^ 59 ->
  carryStep (x :: y :: l) 0 = x mod 2 ^ 16 :: (y + x / 2 ^ 16) :: l.
Proof. intros. apply (carryStep_inner [] x y l); simpl length; lia. Qed.

Lemma gf_carry_run o : length o = 16%nat -> within (- 2 ^ 59) (2 ^ 59) o ->
  gf_carry o = match carryL 0 o with (h :: l, q) => (h + 38 * q) :: l | ([], _) => [] end.
Proof.
  intros Hl Hw. destruct o as [|x [|y l]]; [done..|]. rewrite gf_carry_first.
  apply Forall_cons in Hw as [Hx Hw]. apply Forall_cons in Hw as [Hy Hw]. rewrite carryStep_first by done.
  pose proof (div16_bound x (- 2 ^ 46) (2 ^ 46) ltac:(lia)) as Hd. pose proof (Z.mod_pos_bound x (2 ^ 16) ltac:(lia)) as Hm.
  pose proof (carry_run l [x mod 2 ^ 16] y (x / 2 ^ 16)) as H. cbn [length app] in H, Hl. replace (S (length l)) with 15%nat in H by lia. rewrite H.
  - rewrite (carryL_cons 0), Z.add_0_r. reflexivity.
  - lia.
  - lia.
  - apply Forall_cons. split; [lia|]. apply Forall_cons. split; [lia|]. exact Hw.
  - lia.
Qed.

(** One pass keeps the field element. *)
Lemma gf_carry_val o : length o = 16%nat -> within (- 2 ^ 59) (2 ^ 59) o -> val (gf_carry o) ≡p val o.
Proof.
  intros Hl Hw. rewrite gf_carry_run by done. pose proof (carryL_val 0 o) as H. pose proof (carryL_length 0 o) as Hn. rewrite Hl in H, Hn.
  destruct carryL as [[|h l] q]; [done|]. cbn [fst snd] in *. rewrite val_cons in *.
  apply (eqp_multiple _ _ (- 2 * q)). unfold p. lia.
Qed.

(** What an operation returns: limbs in range, the first one but for the
    carry that came back. *)
Definition tight (o : gf) : Prop := length o = 16%nat /\ exists h l, o = h :: l /\ -38 <= h <= 65573 /\ limbs l.

Lemma within_weaken lo hi lo' hi' l : lo' <= lo -> hi <= hi' -> within lo hi l -> within lo' hi' l.
Proof. intros ? ? H. apply (Forall_impl _ _ _ H). intros x. lia. Qed.

Lemma gf_carry_coarse M o : length o = 16%nat -> within (- M) M o -> 2 ^ 16 <= M <= 2 ^ 48 ->
  exists h l, gf_carry o = h :: l /\ - 2 ^ 39 <= h <= 2 ^ 39 /\ limbs l /\ length l = 15%nat.
Proof.
  intros Hl Hw HM. rewrite gf_carry_run by (done || (eapply within_weaken; [| |done]; lia)).
  pose proof (carryL_bound (- 2 ^ 48) (2 ^ 48) (2 ^ 33) 0 o) as Hq. pose proof (carryL_length 0 o) as Hn. pose proof (carryL_limbs 0 o) as Hr.
  destruct carryL as [[|h l] q]; cbn [fst snd] in *; [rewrite Hl in Hn; done|]. apply Forall_cons in Hr as [Hh Hr].
  exists (h + 38 * q), l. split; [done|]. split; [|split; [done|cbn [length] in Hn; lia]].
  assert (- 2 ^ 33 <= q <= 2 ^ 33) as Hb; [|lia]. apply Hq; [|lia..]. eapply within_weaken; [| |done]; lia.
Qed.

Lemma gf_carry_fine h l : - 2 ^ 39 <= h <= 2 ^ 39 -> limbs l -> length l = 15%nat -> tight (gf_carry (h :: l)).
Proof.
  intros Hh Hl Hn. rewrite gf_carry_run; [|simpl; lia|apply Forall_cons; split; [lia|eapply within_weaken; [| |done]; lia]].
  pose proof (carryL_length 0 (h :: l)) as Hlen. pose proof (carryL_limbs 0 (h :: l)) as Hr.
  assert (-1 <= (carryL 0 (h :: l)).2 <= 1) as Hq.
  { destruct l as [|y [|z l]]; [done..|]. apply Forall_cons in Hl as [Hy Hl]. apply Forall_cons in Hl as [Hz Hl].
    rewrite 3 carryL_cons. cbn [fst snd]. pose proof (div16_bound (h + 0) (- 2 ^ 24) (2 ^ 24) ltac:(lia)) as H1. set (c1 := (h + 0) / _) in *.
    pose proof (div16_bound (y + c1) (- 2 ^ 10) (2 ^ 10) ltac:(lia)) as H2. set (c2 := (y + c1) / _) in *.
    pose proof (div16_bound (z + c2) (- 1) 2 ltac:(lia)) as H3. set (c3 := (z + c2) / _) in *.
    apply (carryL_bound 0 65535 1); [done|lia..]. }
  destruct carryL as [[|h' l'] q]; cbn [fst snd] in *; [done|]. apply Forall_cons in Hr as [Hh' Hr].
  split; [by cbn [length] in *; lia|]. exists (h' + 38 * q), l'. split; [done|]. split; [lia|done].
Qed.

Lemma carry_twice M o : length o = 16%nat -> within (- M) M o -> 2 ^ 16 <= M <= 2 ^ 48 ->
  tight (gf_carry (gf_carry o)) /\ val (gf_carry (gf_carry o)) ≡p val o.
Proof.
  intros Hl Hw HM. destruct (gf_carry_coarse M o) as (h & l & E & Hh & Hr & Hn); [done..|].
  split; [rewrite E; by apply gf_carry_fine|]. rewrite gf_carry_val; [apply gf_carry_val; [done|]|..].
  - eapply within_weaken; [| |done]; lia.
  - rewrite E. simpl. lia.
  - rewrite E. apply Forall_cons. split; [lia|]. eapply within_weaken; [| |done]; lia.
Qed.

(** ** Sums and differences *)

Definition small (M : Z) (a : gf) : Prop := length a = 16%nat /\ within (- M) M a.

Lemma tight_small a M : tight a -> 65573 <= M -> small M a.
Proof.
  intros [Hl (h & l & -> & Hh & Hr)] HM. split; [done|]. apply Forall_cons. split; [lia|]. eapply within_weaken; [| |done]; lia.
Qed.

Lemma coef_within lo hi l i : lo <= 0 <= hi -> within lo hi l -> lo <= coef l i <= hi.
Proof. intros H0 Hl. unfold coef. destruct (l !! i) eqn:E; [|done]. by apply (Forall_lookup_1 _ _ _ _ Hl E). Qed.

(** A loop over the sixteen limbs is pointwise. *)
Lemma limbwise (g : Z -> Z -> Z) (w : Z -> Z) M a b : small M a -> small M b -> 0 <= M ->
  (forall x y, - M <= x <= M -> - M <= y <= M -> w (g x y) = g x y) ->
  (fun i => w (g (coef a i) (coef b i))) <$> seq 0 16 = zip_with g a b.
Proof.
  intros [Hla Ha] [Hlb Hb] HM Hw. apply coef_ext; [by rewrite length_fmap, length_seq, length_zip_with, Hla, Hlb|].
  intros i Hi. rewrite length_fmap, length_seq in Hi. rewrite coef_fmap_seq by done. rewrite coef_zip by lia.
  apply Hw; by apply coef_within; [lia|].
Qed.

Lemma small_zip (g : Z -> Z -> Z) M N a b : small M a -> small M b ->
  (forall x y, - M <= x <= M -> - M <= y <= M -> - N <= g x y <= N) -> small N (zip_with g a b).
Proof.
  intros [Hla Ha] [Hlb Hb] Hg. split; [by rewrite length_zip_with, Hla, Hlb|].
  apply Forall_lookup. intros i x Hx. apply lookup_zip_with_Some in Hx as (y & z & -> & Hy & Hz).
  apply Hg; [apply (Forall_lookup_1 _ _ _ _ Ha Hy)|apply (Forall_lookup_1 _ _ _ _ Hb Hz)].
Qed.

Lemma val_zip_add a b : length a = length b -> val (zip_with Z.add a b) = val a + val b.
Proof.
  revert b. induction a as [|x a IH]; intros [|y b] H; try done. cbn [zip_with]. rewrite !val_cons, IH by (simpl in H; lia). lia.
Qed.

Lemma val_zip_sub a b : length a = length b -> val (zip_with Z.sub a b) = val a - val b.
Proof.
  revert b. induction a as [|x a IH]; intros [|y b] H; try done. cbn [zip_with]. rewrite !val_cons, IH by (simpl in H; lia). lia.
Qed.

(** Operands of a product: reduced elements, their sums and differences. *)
Abbreviation operand := (small 131146).

Lemma tight_operand a : tight a -> operand a.
Proof. intros H. by apply tight_small. Qed.

Lemma gf_add_spec a b : tight a -> tight b -> operand (gf_add a b) /\ val (gf_add a b) = val a + val b.
Proof.
  intros Ha%(fun H => tight_small a 65573 H ltac:(lia)) Hb%(fun H => tight_small b 65573 H ltac:(lia)).
  assert (gf_add a b = zip_with Z.add a b) as -> by (apply (limbwise Z.add i64 65573); [done..|lia|]; intros; apply i64_small; lia).
  split; [apply (small_zip _ 65573); [done..|lia]|]. apply val_zip_add. by rewrite (proj1 Ha), (proj1 Hb).
Qed.

Lemma gf_sub_spec a b : tight a -> tight b -> operand (gf_sub a b) /\ val (gf_sub a b) = val a - val b.
Proof.
  intros Ha%(fun H => tight_small a 65573 H ltac:(lia)) Hb%(fun H => tight_small b 65573 H ltac:(lia)).
  assert (gf_sub a b = zip_with Z.sub a b) as -> by (apply (limbwise Z.sub i64 65573); [done..|lia|]; intros; apply i64_small; lia).
  split; [apply (small_zip _ 65573); [done..|lia]|]. apply val_zip_sub. by rewrite (proj1 Ha), (proj1 Hb).
Qed.

Lemma gf_mul121665_spec a : operand a -> tight (gf_mul121665 a) /\ val (gf_mul121665 a) ≡p 121665 * val a.
Proof.
  intros Ha. unfold gf_mul121665.
  replace ((fun i => i64 (121665 * coef a i)) <$> seq 0 16) with (zip_with (fun x _ => 121665 * x) a a)
    by (symmetry; apply (limbwise (fun x _ => 121665 * x) i64 131146); [done..|lia|]; intros; apply i64_small; lia).
  destruct (small_zip (fun x _ => 121665 * x) 131146 (2 ^ 48) a a Ha Ha ltac:(lia)) as [Hl Hs].
  destruct (carry_twice (2 ^ 48) _ Hl Hs ltac:(lia)) as [Ht Hv]. split; [done|]. rewrite Hv.
  clear. induction a as [|x a IH]; [done|]. cbn [zip_with]. rewrite !val_cons.
  rewrite IH. apply (eqp_multiple _ _ 0). lia.
Qed.

(** ** Products *)

(** [n] products accumulated, with sum [v]. *)
Abbreviation K := (131146 * 131146).
Definition acc (n : nat) (v : Z) (t : list Z) : Prop :=
  length t = 31%nat /\ within (- (Z.of_nat n * K)) (Z.of_nat n * K) t /\ val t = v.

Lemma acc_step n v t k x : acc n v t -> (n < 256)%nat -> (k < 31)%nat -> - K <= x <= K ->
  acc (S n) (v + 2 ^ (16 * Z.of_nat k) * x) (addAt t k x).
Proof.
  intros (Hl & Hw & <-) Hn Hk Hx. pose proof (coef_within (- (Z.of_nat n * K)) (Z.of_nat n * K) t k ltac:(lia) Hw) as Hc. unfold addAt.
  rewrite (i64_small x), i64_small by lia. split; [by rewrite length_insert|]. split.
  - apply Forall_insert; [|lia]. eapply within_weaken; [| |done]; lia.
  - rewrite val_insert by lia. lia.
Qed.

Lemma drop_coef (l : list Z) k : (k < length l)%nat -> drop k l = coef l k :: drop (S k) l.
Proof. intros H. apply drop_S. by apply coef_lookup. Qed.

Lemma row_acc b x i : operand b -> - 131146 <= x <= 131146 -> (i < 16)%nat -> forall m k n v t, (k + m = 16)%nat -> (n + m <= 256)%nat -> acc n v t ->
  acc (n + m) (v + 2 ^ (16 * Z.of_nat (i + k)) * (x * val (drop k b))) (foldl (fun t j => addAt t (i + j) (x * coef b j)) t (seq k m)).
Proof.
  intros [Hlb Hb] Hx Hi. induction m as [|m IH]; intros k n v t Hk Hn Ht.
  - rewrite drop_ge by lia. simpl. rewrite Nat.add_0_r, Z.mul_0_r, Z.mul_0_r, Z.add_0_r. done.
  - rewrite drop_coef by lia. cbn [seq foldl]. rewrite val_cons. pose proof (coef_within (-131146) 131146 b k ltac:(lia) Hb) as Hc.
    specialize (IH (S k) (S n) (v + 2 ^ (16 * Z.of_nat (i + k)) * (x * coef b k)) (addAt t (i + k) (x * coef b k)) ltac:(lia) ltac:(lia)).
    replace (n + S m)%nat with (S n + m)%nat by lia.
    replace (v + 2 ^ (16 * Z.of_nat (i + k)) * (x * (coef b k + 2 ^ 16 * val (drop (S k) b)))) with
      (v + 2 ^ (16 * Z.of_nat (i + k)) * (x * coef b k) + 2 ^ (16 * Z.of_nat (i + S k)) * (x * val (drop (S k) b))).
    + apply IH, acc_step; [done|lia|lia|nia].
    + replace (16 * Z.of_nat (i + S k)) with (16 * Z.of_nat (i + k) + 16) by lia. rewrite Z.pow_add_r by lia. ring.
Qed.

Lemma rows_acc a b : operand a -> operand b -> forall m k v t, (k + m = 16)%nat -> acc (16 * k) v t ->
  acc 256 (v + 2 ^ (16 * Z.of_nat k) * (val (drop k a) * val b))
    (foldl (fun t i => foldl (fun t j => addAt t (i + j) (coef a i * coef b j)) t (seq 0 16)) t (seq k m)).
Proof.
  intros [Hla Ha] Hb. induction m as [|m IH]; intros k v t Hk Ht.
  - rewrite drop_ge by lia. simpl. rewrite Z.mul_0_r, Z.add_0_r. replace k with 16%nat in Ht by lia. done.
  - rewrite drop_coef by lia. change (seq k (S m)) with (k :: seq (S k) m). cbn [foldl]. rewrite val_cons.
    replace (v + 2 ^ (16 * Z.of_nat k) * ((coef a k + 2 ^ 16 * val (drop (S k) a)) * val b)) with
      (v + 2 ^ (16 * Z.of_nat (k + 0)) * (coef a k * val (drop 0 b)) + 2 ^ (16 * Z.of_nat (S k)) * (val (drop (S k) a) * val b)).
    + apply IH; [lia|]. replace (16 * S k)%nat with (16 * k + 16)%nat by lia.
      apply row_acc; [done|by apply coef_within; [lia|]|lia|lia|lia|done].
    + rewrite Nat.add_0_r, drop_0. replace (16 * Z.of_nat (S k)) with (16 * Z.of_nat k + 16) by lia. rewrite Z.pow_add_r by lia. ring.
Qed.

(** The upper half folds onto the lower one: 2^256 is 38 modulo the prime. *)
Lemma fold_upper t0 : length t0 = 31%nat -> within (- (256 * K)) (256 * K) t0 -> forall m t k, (k + m = 15)%nat -> length t = 31%nat ->
  drop 16 t = drop 16 t0 -> drop k t = drop k t0 -> within (- 2 ^ 48) (2 ^ 48) t ->
  let t' := foldl (fun t i => addAt t i (38 * coef t (i + 16))) t (seq k m) in
  length t' = 31%nat /\ within (- 2 ^ 48) (2 ^ 48) t' /\
  val (take 16 t') = val (take 16 t) + 38 * 2 ^ (16 * Z.of_nat k) * val (drop (16 + k) t0).
Proof.
  intros Hl0 Hw0. induction m as [|m IH]; intros t k Hk Hl Hu Hd Hw.
  - cbn [seq foldl]. rewrite (drop_ge t0) by lia. simpl. split; [done|]. split; [done|]. rewrite Z.mul_0_r, Z.add_0_r. done.
  - cbn [seq foldl].
    assert (coef t (k + 16) = coef t0 (k + 16)) as E1 by (rewrite !(Nat.add_comm k), <- !coef_drop; by rewrite Hu).
    assert (coef t k = coef t0 k) as E2 by (rewrite <- (Nat.add_0_r k), <- !coef_drop; by rewrite Hd).
    pose proof (coef_within (- (256 * K)) (256 * K) t0 k ltac:(lia) Hw0) as H1.
    pose proof (coef_within (- (256 * K)) (256 * K) t0 (k + 16) ltac:(lia) Hw0) as H2.
    assert (addAt t k (38 * coef t (k + 16)) = <[k := coef t k + 38 * coef t0 (k + 16)]> t) as ->.
    { unfold addAt. rewrite E1. rewrite (i64_small (38 * _)), i64_small by lia. done. }
    assert (drop (S k) t = drop (S k) t0) as Hd' by (rewrite !(drop_coef _ k) in Hd by lia; by injection Hd).
    destruct (IH (<[k := coef t k + 38 * coef t0 (k + 16)]> t) (S k)) as (H3 & H4 & H5).
    + lia.
    + by rewrite length_insert.
    + by rewrite drop_insert_lt by lia.
    + by rewrite drop_insert_lt by lia.
    + apply Forall_insert; [done|lia].
    + split; [done|]. split; [done|]. rewrite H5. rewrite take_insert_lt, val_insert, coef_take by (rewrite ?length_take; lia).
      rewrite (drop_coef t0 (16 + k)), val_cons by lia. replace (16 + k)%nat with (k + 16)%nat by lia.
      replace (16 * Z.of_nat (S k)) with (16 * Z.of_nat k + 16) by lia. rewrite Z.pow_add_r by lia.
      replace (16 + S k)%nat with (S (k + 16)) by lia. ring.
Qed.

Lemma gf_mul_spec a b : operand a -> operand b -> tight (gf_mul a b) /\ val (gf_mul a b) ≡p val a * val b.
Proof.
  intros Ha Hb. unfold gf_mul.
  destruct (rows_acc a b Ha Hb 16 0 0 (replicate 31 0)) as (Hl & Hw & Hv).
  { lia. }
  { split; [done|]. split; [|apply val_zeros]. by apply Forall_replicate. }
  set (t := foldl _ (replicate 31 0) _) in *. clearbody t.
  destruct (fold_upper t Hl Hw 15 t 0) as (Hl' & Hw' & Hv'); [done..| |].
  { eapply within_weaken; [| |done]; lia. }
  set (t' := foldl _ t _) in *. clearbody t'.
  destruct (carry_twice (2 ^ 48) (take 16 t')) as [Ht Hc]; [rewrite length_take; lia|by apply Forall_take|lia|].
  split; [done|]. rewrite Hc, Hv'. rewrite Z.mul_1_l, !drop_0, Z.add_0_l in Hv. rewrite <- Hv.
  pose proof (val_app (take 16 t) (drop 16 t)) as E. rewrite take_drop, length_take, Nat.min_l in E by lia.
  change (16 + 0)%nat with 16%nat. change (2 ^ (16 * Z.of_nat 0)) with 1. change (2 ^ (16 * Z.of_nat 16)) with (2 ^ 256) in E. apply (eqp_multiple _ _ (-2 * val (drop 16 t))). unfold p. lia.
Qed.

Lemma gf_mul_tight a b : tight a -> tight b -> tight (gf_mul a b) /\ val (gf_mul a b) ≡p val a * val b.
Proof. intros. apply gf_mul_spec; by apply tight_operand. Qed.

(** ** The inverse is the power p - 2 *)

Definition invExp (e : Z) (i : nat) : Z := if negb (i =? 2)%nat && negb (i =? 4)%nat then 2 * e + 1 else 2 * e.

Lemma invStep_power a c e i : tight a -> tight c -> val c ≡p val a ^ e -> 0 <= e ->
  tight (invStep a c i) /\ val (invStep a c i) ≡p val a ^ invExp e i /\ 0 <= invExp e i.
Proof.
  intros Ha Hc Hv He. unfold invStep, invExp, gf_sqr.
  destruct (gf_mul_tight c c Hc Hc) as [Hs Hsv]. destruct (gf_mul_tight _ a Hs Ha) as [Hm Hmv].
  assert (val (gf_mul c c) ≡p val a ^ (2 * e)) as Hsq.
  { rewrite Hsv, Hv, <- Z.pow_add_r by done. by replace (e + e) with (2 * e) by lia. }
  destruct (negb _ && _); [|split_and!; [done..|lia]]. split; [done|]. split; [|lia].
  rewrite Hmv, Hsq, Z.pow_add_r, Z.pow_1_r by lia. done.
Qed.

Lemma gf_inv_power a l : tight a -> forall c e, tight c -> val c ≡p val a ^ e -> 0 <= e ->
  tight (foldl (invStep a) c l) /\ val (foldl (invStep a) c l) ≡p val a ^ foldl invExp e l.
Proof.
  intros Ha. induction l as [|i l IH]; intros c e Hc Hv He; [done|]. cbn [foldl].
  destruct (invStep_power a c e i Ha Hc Hv He) as (H1 & H2 & H3). exact (IH _ _ H1 H2 H3).
Qed.

Lemma inv_exponent : foldl invExp 1 (rev (seq 0 254)) = p - 2.
Proof. vm_compute. reflexivity. Qed.

Lemma gf_inv_spec a : tight a -> tight (gf_inv a) /\ val (gf_inv a) ≡p val a ^ (p - 2).
Proof.
  intros Ha. rewrite <- inv_exponent. unfold gf_inv. apply gf_inv_power; [done|done| |done].
  rewrite Z.pow_1_r. reflexivity.
Qed.

(** ** The conditional swap *)

Lemma gf_cswap_spec f g b : length f = 16%nat -> length g = 16%nat -> b = 0 \/ b = 1 ->
  gf_cswap f g b = if b =? 1 then (g, f) else (f, g).
Proof.
  intros Hf Hg Hb. assert (forall h r : gf, length h = 16%nat -> (forall i, r !! i = if (i <? 16)%nat then Some (coef h i) else None) -> r = h) as Hr.
  { intros h r Hh H. apply list_eq. intros i. rewrite H. destruct (Nat.ltb_spec i 16); [by rewrite coef_lookup by lia|by rewrite lookup_ge_None_2 by lia]. }
  assert (forall (w : nat -> Z) i, (w <$> seq 0 16) !! i = if (i <? 16)%nat then Some (w i) else None) as Hs.
  { intros w i. rewrite list_lookup_fmap. destruct (Nat.ltb_spec i 16); [by rewrite lookup_seq_lt|by rewrite lookup_seq_ge]. }
  unfold gf_cswap. destruct Hb as [-> | ->].
  - change (i64 (- 0)) with 0. change (0 =? 1) with false. f_equal; (apply Hr; [done|]); intros i; rewrite Hs.
    + by rewrite Z.land_0_l, Z.lxor_0_r.
    + by rewrite Z.land_0_l, Z.lxor_0_r.
  - change (i64 (- 1)) with (-1). change (1 =? 1) with true. f_equal; (apply Hr; [done|]); intros i; rewrite Hs, Z.land_m1_l.
    + by rewrite <- Z.lxor_assoc, Z.lxor_nilpotent, Z.lxor_0_l.
    + by rewrite (Z.lxor_comm (coef f i)), <- Z.lxor_assoc, Z.lxor_nilpotent, Z.lxor_0_l.
Qed.

(** ** Loading *)

Lemma pairs_num n s : length s = (2 * n)%nat -> Forall byte s ->
  let o := (fun i => Z.lor (coef s (2 * i)) (Z.shiftl (coef s (2 * i + 1)) 8)) <$> seq 0 n in limbs o /\ val o = le_num s.
Proof.
  revert s. induction n as [|n IH]; intros s Hl Hs; [destruct s; [split; [constructor|done]|done]|]. destruct s as [|x [|y s]]; [done|simpl in Hl; lia|].
  apply Forall_cons in Hs as [Hx Hs]. apply Forall_cons in Hs as [Hy Hs]. unfold byte in Hx, Hy. cbn [length] in Hl.
  destruct (IH s) as [H1 H2]; [lia|done|]. cbn [seq fmap list_fmap]. rewrite <- seq_shift, <- list_fmap_compose.
  rewrite (list_fmap_ext _ (fun i => Z.lor (coef s (2 * i)) (Z.shiftl (coef s (2 * i + 1)) 8)) (seq 0 n)).
  2:{ intros ? i _. simpl. replace (i + S (i + 0))%nat with (S (2 * i)) by lia. replace (S (2 * i) + 1)%nat with (S (2 * i + 1)) by lia. by rewrite !coef_cons. }
  change (coef (x :: y :: s) (2 * 0)) with x. change (coef (x :: y :: s) (2 * 0 + 1)) with y. rewrite lor_add by lia.
  split; [apply Forall_cons; split; [lia|done]|]. rewrite val_cons, H2. cbn [le_num]. lia.
Qed.

Lemma limbs_tight o : length o = 16%nat -> limbs o -> tight o.
Proof.
  intros Hl Ho. split; [done|]. destruct o as [|h l]; [done|]. apply Forall_cons in Ho as [Hh Ho]. exists h, l. split; [done|]. split; [lia|done].
Qed.

Lemma gf_unpack_spec s : length s = 32%nat -> Forall byte s -> tight (gf_unpack s) /\ val (gf_unpack s) = le_num s mod 2 ^ 255.
Proof.
  intros Hl Hs. destruct (pairs_num 16 s Hl Hs) as [Ho <-]. unfold gf_unpack. set (o := _ <$> seq 0 16) in *.
  assert (length o = 16%nat) as Hn by (unfold o; by rewrite length_fmap, length_seq). clearbody o.
  change 32767 with (Z.ones 15). rewrite land_mod by lia. rewrite <- (take_drop_middle o 15 (coef o 15)) by (apply coef_lookup; lia).
  rewrite (drop_ge o) by lia. set (x := coef o 15) in *. set (l := take 15 o) in *.
  assert (length l = 15%nat) as Hln by (unfold l; rewrite length_take; lia). assert (limbs l) as Hll by (by apply Forall_take).
  assert (0 <= x <= 65535) as Hx by (by apply coef_within; [lia|]). clearbody x l. clear o Hn Ho.
  assert (coef (l ++ [x]) 15 = x) as -> by (rewrite <- Hln at 1; apply coef_middle).
  replace 15%nat with (length l) by done. rewrite insert_middle'.
  pose proof (Z.mod_pos_bound x (2 ^ 15) ltac:(lia)) as Hm. pose proof (Z.div_mod x (2 ^ 15) ltac:(lia)) as Hd.
  split; [apply limbs_tight; [by rewrite length_app, Hln|]; apply Forall_app; split; [done|]; apply Forall_cons; split; [lia|constructor]|].
  rewrite !val_app, Hln. change (val [?y]) with (y + 2 ^ 16 * 0). pose proof (val_limbs l Hll) as Hv. rewrite Hln in Hv.
  change (2 ^ (16 * Z.of_nat 15)) with (2 ^ 240) in *. apply Z.mod_unique with (x / 2 ^ 15); [left; lia|lia].
Qed.

(** ** Packing *)

(** A value in range loses its last carry: both passes leave digits. *)
Lemma gf_carry_digits o : tight o -> limbs (gf_carry o) /\ length (gf_carry o) = 16%nat.
Proof.
  intros [Hl (h & l & -> & Hh & Hr)]. cbn [length] in Hl.
  rewrite gf_carry_run by (done || (apply Forall_cons; split; [lia|eapply within_weaken; [| |done]; lia])).
  pose proof (carryL_length 0 (h :: l)) as Hn. pose proof (carryL_limbs 0 (h :: l)) as Hd. pose proof (carryL_val 0 (h :: l)) as Hv.
  destruct carryL as [[|h' l'] q]; cbn [fst snd] in *; [done|]. pose proof (val_limbs _ Hd) as Hb. apply Forall_cons in Hd as [Hh' Hd].
  pose proof (val_limbs l Hr) as Hbl. pose proof (val_limbs l' Hd) as Hbl'. rewrite !val_cons in *. cbn [length] in *.
  assert (length l = 15%nat) as E by lia. assert (length l' = 15%nat) as E' by lia. rewrite E, E' in *.
  change (2 ^ (16 * Z.of_nat 15)) with (2 ^ 240) in *. change (2 ^ (16 * Z.of_nat 16)) with (2 ^ 256) in *.
  split; [|lia]. apply Forall_cons. split; [|done]. lia.
Qed.

Lemma gf_carry_id o : length o = 16%nat -> limbs o -> gf_carry o = o.
Proof.
  intros Hl Hr. rewrite gf_carry_run by (done || (eapply within_weaken; [| |done]; lia)).
  assert (carryL 0 o = (o, 0)) as ->.
  { clear Hl. induction Hr as [|x l Hx _ IH]; [done|]. rewrite carryL_cons, Z.add_0_r, Z.mod_small, Z.div_small by lia. by rewrite IH. }
  destruct o as [|h l]; [done|]. by rewrite Z.mul_0_r, Z.add_0_r.
Qed.

(** The limbs of the prime, subtracted with borrows: limb [i] still raw, the
    ones before it final. *)
Definition primeLimbs : list Z := 65517 :: replicate 14 65535 ++ [32767].
Definition subInv (a m : gf) (i : nat) : Prop :=
  length m = 16%nat /\ limbs (take i m) /\ -65536 <= coef m i <= 65535 /\
  val (take i m) + 2 ^ (16 * Z.of_nat i) * coef m i = val (take (S i) a) - val (take (S i) primeLimbs).

Lemma take_snoc (l : list Z) k : (k < length l)%nat -> take (S k) l = take k l ++ [coef l k].
Proof. intros H. apply take_S_r. by apply coef_lookup. Qed.

Lemma val_take_S l k : (k < length l)%nat -> val (take (S k) l) = val (take k l) + 2 ^ (16 * Z.of_nat k) * coef l k.
Proof. intros H. rewrite take_snoc, val_app, length_take, Nat.min_l by lia. change (val [?y]) with (y + 2 ^ 16 * 0). lia. Qed.

Lemma borrow_spec x : -65536 <= x <= 65535 -> 0 <= borrow x <= 1 /\ 0 <= Z.land x 65535 <= 65535 /\
  Z.land x 65535 = x + 65536 * borrow x /\ (borrow x = 0 <-> 0 <= x).
Proof.
  intros Hx. unfold borrow. rewrite shiftr_div by lia. replace (Z.land x 65535) with (x mod 2 ^ 16) by (symmetry; apply (land_mod x 16); lia).
  change 1 with (Z.ones 1). rewrite land_mod by lia. change (Z.ones 1) with 1. change (2 ^ 1) with 2.
  pose proof (div16_bound x (-1) 1 ltac:(lia)) as Hd. pose proof (Z.mod_eq x (2 ^ 16) ltac:(lia)) as Hm.
  pose proof (Z.mod_pos_bound x (2 ^ 16) ltac:(lia)) as Hb.
  assert (x / 2 ^ 16 = -1 \/ x / 2 ^ 16 = 0) as [E | E] by lia; rewrite E in *; [change (-1 mod 2) with 1|change (0 mod 2) with 0]; lia.
Qed.

Lemma subInv_step a m i y : length a = 16%nat -> subInv a m i -> (S i < 16)%nat ->
  -65536 <= coef a (S i) - coef primeLimbs (S i) - borrow (coef m i) <= 65535 -> y = coef a (S i) - coef primeLimbs (S i) - borrow (coef m i) ->
  subInv a (<[i := Z.land (coef m i) 65535]> (<[S i := y]> m)) (S i).
Proof.
  intros Ha (Hl & Hr & Hx & Hv) Hi Hy ->. destruct (borrow_spec (coef m i) Hx) as (Hb & Hn & Hland & _).
  set (m' := <[i := _]> _). assert (length m' = 16%nat) as Hl' by (unfold m'; by rewrite !length_insert).
  assert (take i m' = take i m) as Ht by (unfold m'; by rewrite !take_insert_ge by lia).
  assert (coef m' i = Z.land (coef m i) 65535) as Hc by (unfold m'; by rewrite coef_insert, decide_True by (rewrite ?length_insert; lia)).
  assert (coef m' (S i) = coef a (S i) - coef primeLimbs (S i) - borrow (coef m i)) as Hs.
  { unfold m'. rewrite coef_insert, decide_False by lia. rewrite coef_insert, decide_True; [done|lia]. }
  clearbody m'. split; [done|]. split; [|split; [lia|]].
  - rewrite take_snoc, Ht, Hc by lia. apply Forall_app. split; [done|]. apply Forall_cons. split; [lia|constructor].
  - rewrite Hs, val_take_S, Ht, Hc, Hland by lia. rewrite (val_take_S a (S i)), (val_take_S primeLimbs (S i)) by (try change (length primeLimbs) with 16%nat; lia).
    replace (16 * Z.of_nat (S i)) with (16 * Z.of_nat i + 16) by lia. rewrite Z.pow_add_r by lia. change (2 ^ 16) with 65536. lia.
Qed.

Lemma subInv_loop a : length a = 16%nat -> limbs a -> forall n m i, (i + n = 14)%nat -> subInv a m i -> subInv a (foldl (subStep a) m (seq (S i) n)) 14.
Proof.
  intros Hl Ha. induction n as [|n IH]; intros m i Hi Hm; [by replace 14%nat with i by lia|].
  cbn [seq foldl]. apply IH; [lia|]. unfold subStep. replace (S i - 1)%nat with i by lia.
  assert (coef primeLimbs (S i) = 65535) as Hp.
  { unfold primeLimbs. rewrite coef_cons, coef_app_l by (rewrite length_replicate; lia). unfold coef. by rewrite lookup_replicate_2 by lia. }
  pose proof Hm as (Hlm & _ & Hx & _). pose proof (coef_within 0 65535 a (S i) ltac:(lia) Ha). pose proof (borrow_spec _ Hx) as (Hb & _).
  rewrite coef_insert, decide_False by lia. apply subInv_step; [done|done|lia|rewrite Hp; lia|]. rewrite Hp, i64_small by lia. done.
Qed.

Lemma subPrime_spec a m : length a = 16%nat -> limbs a -> length m = 16%nat ->
  exists m', length m' = 16%nat /\ subPrime a m = (if p <=? val a then (m', a) else (a, m')) /\ (p <= val a -> limbs m' /\ val m' = val a - p).
Proof.
  intros Hl Ha Hm. unfold subPrime. pose proof (coef_within 0 65535 a 0 ltac:(lia) Ha) as H0.
  assert (subInv a (<[0%nat := i64 (coef a 0 - 65517)]> m) 0) as Hi.
  { rewrite i64_small by lia. split; [by rewrite length_insert|]. rewrite coef_insert, decide_True by lia. split; [constructor|]. split; [lia|].
    rewrite !val_take_S by (try change (length primeLimbs) with 16%nat; lia). change (coef primeLimbs 0) with 65517. rewrite !take_0. cbn [val foldr]. lia. }
  apply (subInv_loop a Hl Ha 14 _ 0 eq_refl) in Hi. set (m1 := foldl _ _ _) in *. clearbody m1. clear m Hm.
  pose proof Hi as (Hl1 & _ & Hx & _). pose proof (borrow_spec _ Hx) as (Hb & _). pose proof (coef_within 0 65535 a 15 ltac:(lia) Ha) as H15.
  assert (i64 (coef a 15 - 32767 - borrow (coef m1 14)) = coef a 15 - coef primeLimbs 15 - borrow (coef m1 14)) as Hy.
  { change (coef primeLimbs 15) with 32767. apply i64_small. lia. }
  apply (subInv_step a m1 14 (i64 (coef a 15 - 32767 - borrow (coef m1 14)))) in Hi; [|done|lia|change (coef primeLimbs 15) with 32767; lia|exact Hy].
  set (y := i64 _) in *. set (m2 := <[15%nat := y]> m1) in *.
  assert (coef m2 14 = coef m1 14) as E14 by (unfold m2; by rewrite coef_insert, decide_False by lia).
  assert (coef m2 15 = coef (<[14%nat := Z.land (coef m1 14) 65535]> m2) 15) as E15 by (by rewrite (coef_insert m2), decide_False by lia).
  rewrite E15, E14. set (m3 := <[14%nat := _]> m2) in *. clearbody m3. clear m2 E14 E15 y Hy.
  destruct Hi as (Hl3 & Hr3 & Hx3 & Hv3). destruct (borrow_spec _ Hx3) as (Hb3 & _ & _ & Hsign).
  exists m3. split; [done|]. rewrite (take_ge a), (take_ge primeLimbs) in Hv3 by (try change (length primeLimbs) with 16%nat; lia).
  change (val primeLimbs) with p in Hv3.
  assert (val m3 = val a - p) as Hval.
  { rewrite <- Hv3. rewrite <- (take_ge m3 16) at 1 by lia. by rewrite val_take_S by lia. }
  pose proof (val_limbs _ Hr3) as Hlow. rewrite length_take, Nat.min_l in Hlow by lia. change (2 ^ (16 * Z.of_nat 15)) with (2 ^ 240) in *.
  rewrite gf_cswap_spec by (done || lia).
  assert ((1 - borrow (coef m3 15) =? 1) = (p <=? val a)) as -> by (destruct (Z.eqb_spec (1 - borrow (coef m3 15)) 1), (Z.leb_spec p (val a)); [done|lia..|done]).
  split; [done|]. intros Hge. split; [|done]. rewrite <- (take_ge m3 16) by lia. rewrite take_snoc by lia.
  apply Forall_app. split; [done|]. apply Forall_cons. split; [lia|constructor].
Qed.

Lemma subPrime_reduce a m : length a = 16%nat -> limbs a -> length m = 16%nat ->
  exists a' m', subPrime a m = (a', m') /\ length a' = 16%nat /\ limbs a' /\ length m' = 16%nat /\
    val a' = (if p <=? val a then val a - p else val a).
Proof.
  intros Hl Ha Hm. destruct (subPrime_spec a m Hl Ha Hm) as (m' & Hl' & -> & Hp).
  destruct (Z.leb_spec p (val a)) as [H | H]; [|by exists a, m']. destruct (Hp H) as [Hd Hv]. by exists m', a.
Qed.

Lemma digits_bytes o : limbs o -> (o ≫= fun x => [u8 (Z.land x 255); u8 (Z.land (Z.shiftr x 8) 255)]) = le_bytes (2 * length o) (val o).
Proof.
  induction 1 as [|x l Hx _ IH]; [done|]. cbn [mbind list_bind length]. change (list_bind _ _ ?f l) with (l ≫= f). rewrite IH.
  replace (2 * S (length l))%nat with (S (S (2 * length l))) by lia. rewrite !le_bytes_S, val_cons. cbn [app].
  change 255 with (Z.ones 8). rewrite !land_mod by lia. unfold u8. rewrite shiftr_div by lia. rewrite !Z.mod_mod by lia. change (2 ^ 8) with 256.
  change (2 ^ 16) with 65536. rewrite Z.div_div by lia. f_equal; [|f_equal; [|f_equal]].
  - replace (x + 65536 * val l) with (x + (256 * val l) * 256) by lia. by rewrite Z.mod_add by lia.
  - replace (x + 65536 * val l) with (x + (256 * val l) * 256) by lia. rewrite Z.div_add by lia. rewrite (Z.mul_comm 256 (val l)). by rewrite Z.mod_add by lia.
  - change (256 * 256) with 65536. rewrite (Z.mul_comm 65536), Z.div_add, Z.div_small by lia. done.
Qed.

Lemma gf_pack_spec a : tight a -> gf_pack a = le_bytes 32 (val a mod p).
Proof.
  intros Ha. unfold gf_pack. destruct (gf_carry_digits a Ha) as [Hd Hl]. rewrite (gf_carry_id (gf_carry a)) by done.
  assert (val (gf_carry a) ≡p val a) as Hv.
  { apply gf_carry_val; [apply Ha|]. destruct (tight_small a 65573 Ha ltac:(lia)) as [_ Hw]. eapply within_weaken; [| |done]; lia. }
  rewrite <- (eqp_eq _ _ Hv). set (o := gf_carry a) in *. clearbody o. clear a Ha Hv.
  pose proof (val_limbs _ Hd) as Hb. rewrite Hl in Hb. change (2 ^ (16 * Z.of_nat 16)) with (2 ^ 256) in Hb.
  destruct (subPrime_reduce o (replicate 16 0) Hl Hd) as (o1 & m1 & -> & Hl1 & Hd1 & Hm1 & Hv1); [by rewrite length_replicate|].
  destruct (subPrime_reduce o1 m1 Hl1 Hd1 Hm1) as (o2 & m2 & -> & Hl2 & Hd2 & _ & Hv2).
  assert (val o2 = val o mod p) as <-.
  { pose proof (val_limbs _ Hd2) as Hb2. assert (2 ^ 256 = 2 * p + 38 /\ 100 < p) as [Hp Hp'] by done.
    set (P := p) in *. clearbody P. destruct (Z.leb_spec P (val o)), (Z.leb_spec P (val o1)).
    - apply Z.mod_unique with 2; lia.
    - apply Z.mod_unique with 1; lia.
    - lia.
    - apply Z.mod_unique with 0; lia. }
  replace 32%nat with (2 * length o2)%nat by lia. rewrite <- digits_bytes by done.
  assert (o2 = coef o2 <$> seq 0 16) as E.
  { apply coef_ext; [by rewrite length_fmap, length_seq|]. intros i Hi. rewrite coef_fmap_seq by lia. done. }
  transitivity ((coef o2 <$> seq 0 16) ≫= fun x => [u8 (Z.land x 255); u8 (Z.land (Z.shiftr x 8) 255)]); [|by rewrite <- E].
  generalize (seq 0 16). intros l. induction l as [|i l IH]; [done|]. cbn [fmap list_fmap mbind list_bind]. do 2 f_equal. exact IH.
Qed.

Lemma gf_pack_eqp a z : tight a -> val a ≡p z -> gf_pack a = le_bytes 32 (z mod p).
Proof. intros Ha <-%eqp_eq. by apply gf_pack_spec. Qed.

End Field25519.
