(* ===== verification/X25519.v ===== *)
(** * X25519 in software

    Model of the portable X25519 of src/advanced/secure_channel_crypto.cpp:
    the Montgomery ladder with its lazy conditional swaps, key generation with
    clamping, and the shared secret with the rejection of the all-zero output.
    The reference definition works on integers modulo the prime, doubles and
    adds points by the textbook formulas of the curve and chooses by the bits
    of the scalar instead of swapping. *)

From S2P Require Import Prelude Bytes Words Field25519.
From Stdlib Require Import Zpow_facts.

Module X25519.
Import Bytes Words Field25519.

(** ** The ladder *)

Record ladder := Ladder { lx2 : gf; lz2 : gf; lx3 : gf; lz3 : gf; lswap : Z }.

(** [(k[bit >> 3] >> (bit & 7)) & 1] *)
Definition scalarBit (k : list Z) (bit : nat) : Z := Z.land (Z.shiftr (coef k (bit / 8)) (Z.of_nat (bit mod 8))) 1.

Definition ladderStep (k : list Z) (x1 : gf) (s : ladder) (bit : nat) : ladder :=
  let b := scalarBit k bit in
  let swap := Z.lxor (lswap s) b in
  let '(x2, x3) := gf_cswap (lx2 s) (lx3 s) swap in
  let '(z2, z3) := gf_cswap (lz2 s) (lz3 s) swap in
  let A := gf_add x2 z2 in let AA := gf_sqr A in
  let B := gf_sub x2 z2 in let BB := gf_sqr B in
  let E := gf_sub AA BB in
  let C := gf_add x3 z3 in
  let D := gf_sub x3 z3 in
  let DA := gf_mul D A in let CB := gf_mul C B in
  let x3 := gf_sqr (gf_add DA CB) in
  let z3 := gf_mul x1 (gf_sqr (gf_sub DA CB)) in
  let x2 := gf_mul AA BB in
  let t := gf_add (gf_mul121665 E) AA in let z2 := gf_mul E t in
  Ladder x2 z2 x3 z3 b.

Definition one : gf := 1 :: replicate 15 0.
Definition zero : gf := replicate 16 0.

Definition sw_x25519 (k u : list Z) : list Z :=
  let x1 := gf_unpack u in
  let s := foldl (ladderStep k x1) (Ladder one zero x1 one 0) (rev (seq 0 255)) in
  let '(x2, x3) := gf_cswap (lx2 s) (lx3 s) (lswap s) in
  let '(z2, z3) := gf_cswap (lz2 s) (lz3 s) (lswap s) in
  gf_pack (gf_mul x2 (gf_inv z2)).

(** ** Keys and shared secrets *)

Definition kX25519Base : list Z := 9 :: replicate 31 0.

(** [random] are the 32 bytes drawn. *)
Definition x25519_genkeypair (random : list Z) : list Z * list Z :=
  let privateKey := <[0%nat := Z.land (coef random 0) 248]> random in
  let privateKey := <[31%nat := Z.land (coef privateKey 31) 127]> privateKey in
  let privateKey := <[31%nat := Z.lor (coef privateKey 31) 64]> privateKey in
  (privateKey, sw_x25519 privateKey kX25519Base).

(** Whether it succeeds, and [sharedSecret]. *)
Definition x25519_shared_secret (privateKey peerPublic : list Z) : bool * list Z :=
  let sharedSecret := sw_x25519 privateKey peerPublic in
  let check := foldl (fun c i => Z.lor c (coef sharedSecret i)) 0 (seq 0 32) in
  (negb (check =? 0), sharedSecret).

(** ** Reference: the function X25519 on numbers

    A point of the curve [y^2 = x^3 + 486662 x^2 + x] is known by its
    projective abscissa. *)

Definition point : Type := Z * Z.

Definition double (P : point) : point :=
  let '(x, z) := P in
  ((x * x - z * z) * (x * x - z * z) mod p, 4 * x * z * (x * x + 486662 * x * z + z * z) mod p).

(** The sum of two points whose difference has abscissa [u]. *)
Definition diffAdd (u : Z) (P Q : point) : point :=
  let '(x2, z2) := P in let '(x3, z3) := Q in
  (4 * (x2 * x3 - z2 * z3) * (x2 * x3 - z2 * z3) mod p, 4 * u * (x2 * z3 - x3 * z2) * (x2 * z3 - x3 * z2) mod p).

Definition montStep (k u : Z) (PQ : point * point) (i : nat) : point * point :=
  let '(P, Q) := PQ in
  if Z.testbit k (Z.of_nat i) then (diffAdd u P Q, double Q) else (double P, diffAdd u P Q).

Definition curve25519 (k u : Z) : Z :=
  let '(x, z) := (foldl (montStep k u) ((1, 0), (u, 1)) (rev (seq 0 255))).1 in
  x * Zpow_mod z (p - 2) p mod p.
(** The private key of RFC 7748, as a number. *)
Definition clamp (n : Z) : Z := 2 ^ 254 + n mod 2 ^ 254 / 8 * 8.

(** ** The ladder computes the reference *)

Lemma eqp_mod a : a mod p ≡p a.
Proof. apply (eqp_multiple _ _ (- (a / p))). rewrite Z.mod_eq by discriminate. ring. Qed.

(** A point in limbs. *)
Definition is_point (x z : gf) (P : point) : Prop := (tight x /\ val x ≡p P.1) /\ (tight z /\ val z ≡p P.2).

(** The state of the loop, its pending swap undone. *)
Definition ladder_rel (s : ladder) (PQ : point * point) : Prop :=
  lswap s = 0 /\ is_point (lx2 s) (lz2 s) PQ.1 /\ is_point (lx3 s) (lz3 s) PQ.2 \/
  lswap s = 1 /\ is_point (lx2 s) (lz2 s) PQ.2 /\ is_point (lx3 s) (lz3 s) PQ.1.

(** Swapping by the pending bit and the new one puts the point to double first. *)
Lemma ladder_swap s PQ b : ladder_rel s PQ -> b = 0 \/ b = 1 -> exists x2 z2 x3 z3,
  gf_cswap (lx2 s) (lx3 s) (Z.lxor (lswap s) b) = (x2, x3) /\ gf_cswap (lz2 s) (lz3 s) (Z.lxor (lswap s) b) = (z2, z3) /\
  is_point x2 z2 (if b =? 1 then PQ.2 else PQ.1) /\ is_point x3 z3 (if b =? 1 then PQ.1 else PQ.2).
Proof.
  intros Hs Hb.
  assert (forall x z P, is_point x z P -> length x = 16%nat /\ length z = 16%nat) as Hlen by (by intros ? ? ? [[[? ?] ?] [[? ?] ?]]).
  assert (Z.lxor (lswap s) b = 0 \/ Z.lxor (lswap s) b = 1) as Hx.
  { destruct Hs as [(-> & _) | (-> & _)], Hb as [-> | ->]; cbv; auto. }
  destruct Hs as [(Es & H1 & H2) | (Es & H1 & H2)]; destruct (Hlen _ _ _ H1), (Hlen _ _ _ H2); rewrite !gf_cswap_spec by done; rewrite Es;
    destruct Hb as [-> | ->]; simpl; do 4 eexists; (split; [reflexivity|]); (split; [reflexivity|]); by split.
Qed.

(** One step on points: the operations in the order of the code. *)
Lemma ladder_point x1 u x2 z2 x3 z3 P Q : tight x1 -> val x1 ≡p u -> is_point x2 z2 P -> is_point x3 z3 Q ->
  let A := gf_add x2 z2 in let AA := gf_mul A A in let B := gf_sub x2 z2 in let BB := gf_mul B B in let E := gf_sub AA BB in
  let DA := gf_mul (gf_sub x3 z3) A in let CB := gf_mul (gf_add x3 z3) B in let S := gf_add DA CB in let F := gf_sub DA CB in
  is_point (gf_mul AA BB) (gf_mul E (gf_add (gf_mul121665 E) AA)) (double P) /\ is_point (gf_mul S S) (gf_mul x1 (gf_mul F F)) (diffAdd u P Q).
Proof.
  intros Hx1 Hu [[Hx2 Ex2] [Hz2 Ez2]] [[Hx3 Ex3] [Hz3 Ez3]] A AA B BB E DA CB S F. subst A AA B BB E DA CB S F.
  destruct (gf_add_spec x2 z2 Hx2 Hz2) as [HA EA]. destruct (gf_mul_spec _ _ HA HA) as [HAA EAA].
  destruct (gf_sub_spec x2 z2 Hx2 Hz2) as [HB EB]. destruct (gf_mul_spec _ _ HB HB) as [HBB EBB].
  destruct (gf_sub_spec _ _ HAA HBB) as [HE EE].
  destruct (gf_add_spec x3 z3 Hx3 Hz3) as [HC EC]. destruct (gf_sub_spec x3 z3 Hx3 Hz3) as [HD ED].
  destruct (gf_mul_spec _ _ HD HA) as [HDA EDA]. destruct (gf_mul_spec _ _ HC HB) as [HCB ECB].
  destruct (gf_add_spec _ _ HDA HCB) as [HS ES]. destruct (gf_mul_spec _ _ HS HS) as [HSS ESS].
  destruct (gf_sub_spec _ _ HDA HCB) as [HF EF]. destruct (gf_mul_spec _ _ HF HF) as [HFF EFF].
  destruct (gf_mul_tight x1 _ Hx1 HFF) as [HZ3 EZ3]. destruct (gf_mul_tight _ _ HAA HBB) as [HX2 EX2].
  destruct (gf_mul121665_spec _ HE) as [HT0 ET0]. destruct (gf_add_spec _ _ HT0 HAA) as [HT ET].
  destruct (gf_mul_spec _ _ HE HT) as [HZ2 EZ2].
  destruct P as [xp zp], Q as [xq zq]. cbn [fst snd] in *.
  split; (split; split; [assumption| |assumption|]); unfold double, diffAdd; cbn [fst snd]; rewrite eqp_mod.
  - rewrite EX2, EAA, EBB, EA, EB, Ex2, Ez2. apply (eqp_multiple _ _ 0). ring.
  - rewrite EZ2, ET, ET0, EE, EAA, EBB, EA, EB, Ex2, Ez2. apply (eqp_multiple _ _ 0). ring.
  - rewrite ESS, ES, EDA, ECB, EC, ED, EA, EB, Ex2, Ez2, Ex3, Ez3. apply (eqp_multiple _ _ 0). ring.
  - rewrite EZ3, EFF, EF, EDA, ECB, EC, ED, EA, EB, Ex2, Ez2, Ex3, Ez3, Hu. apply (eqp_multiple _ _ 0). ring.
Qed.

Lemma diffAdd_comm u P Q : diffAdd u P Q = diffAdd u Q P.
Proof. destruct P as [x2 z2], Q as [x3 z3]. unfold diffAdd. f_equal; f_equal; ring. Qed.

Lemma ladder_bit k x1 u s PQ i : tight x1 -> val x1 ≡p u -> ladder_rel s PQ ->
  scalarBit k i = Z.b2z (Z.testbit (le_num k) (Z.of_nat i)) ->
  ladder_rel (ladderStep k x1 s i) (montStep (le_num k) u PQ i).
Proof.
  intros Hx1 Hu Hs Hbit. unfold ladderStep, montStep. rewrite Hbit.
  destruct (ladder_swap s PQ (Z.b2z (Z.testbit (le_num k) (Z.of_nat i))) Hs) as (x2 & z2 & x3 & z3 & -> & -> & H1 & H2); [by destruct Z.testbit; [right|left]|].
  destruct (ladder_point x1 u x2 z2 x3 z3 _ _ Hx1 Hu H1 H2) as [Hd Ha]. clear H1 H2. destruct PQ as [P Q]. unfold gf_sqr.
  destruct (Z.testbit _ _); cbn [Z.b2z fst snd] in *; [right|left]; (split; [reflexivity|]); cbn [lx2 lz2 lx3 lz3 fst snd].
  - rewrite diffAdd_comm. split; [exact Hd|exact Ha].
  - split; [exact Hd|exact Ha].
Qed.

(** The bit the code extracts is the scalar's. *)
Lemma testbit_le_num k i j : Forall byte k -> (j < 8)%nat -> Z.testbit (le_num k) (Z.of_nat (8 * i + j)) = Z.testbit (coef k i) (Z.of_nat j).
Proof.
  intros Hk Hj. revert i. induction Hk as [|b k Hb Hk IH]; intros i; [unfold coef; rewrite lookup_nil; by rewrite !Z.testbit_0_l|].
  cbn [le_num]. unfold byte in Hb. replace (b + 256 * le_num k) with (b + 2 ^ 8 * le_num k) by lia. rewrite <- lor_add, Z.lor_spec, Z.shiftl_spec by lia.
  destruct i as [|i].
  - change (coef (b :: k) 0) with b. rewrite Nat.mul_0_r, Nat.add_0_l. rewrite (Z.testbit_neg_r _ (_ - 8)) by lia. apply orb_false_r.
  - rewrite coef_cons, <- IH. replace (Z.of_nat (8 * S i + j) - 8) with (Z.of_nat (8 * i + j)) by lia.
    by rewrite (testbit_above 8 b) by lia.
Qed.

Lemma scalarBit_spec k i : Forall byte k -> scalarBit k i = Z.b2z (Z.testbit (le_num k) (Z.of_nat i)).
Proof.
  intros Hk. unfold scalarBit. change 1 with (Z.ones 1). rewrite land_mod, shiftr_div by lia. change (2 ^ 1) with 2.
  rewrite <- Z.testbit_spec' by lia. rewrite <- testbit_le_num by (done || apply Nat.mod_upper_bound; lia).
  by rewrite <- Nat.div_mod by lia.
Qed.

Lemma one_tight : tight one.
Proof. apply limbs_tight; [done|]. apply Forall_cons. split; [lia|]. apply Forall_replicate. lia. Qed.

Lemma zero_tight : tight zero.
Proof. apply limbs_tight; [done|]. apply Forall_replicate. lia. Qed.

Lemma ladder_run k x1 u l : Forall byte k -> tight x1 -> val x1 ≡p u -> forall s PQ, ladder_rel s PQ ->
  ladder_rel (foldl (ladderStep k x1) s l) (foldl (montStep (le_num k) u) PQ l).
Proof.
  intros Hk Hx1 Hu. induction l as [|i l IH]; intros s PQ Hs; [exact Hs|]. cbn [foldl].
  apply IH, ladder_bit; [done..|]. by apply scalarBit_spec.
Qed.

Lemma power_mod z a : z ≡p a -> z ^ (p - 2) mod p = Zpow_mod a (p - 2) p.
Proof. intros Hz%eqp_eq. rewrite Zpow_mod_correct by done. rewrite Zpower_mod, Hz, <- Zpower_mod by done. done. Qed.

Lemma sw_x25519_spec k u : Forall byte k -> length u = 32%nat -> Forall byte u ->
  sw_x25519 k u = le_bytes 32 (curve25519 (le_num k) (le_num u mod 2 ^ 255)).
Proof.
  intros Hk Hl Hu. unfold sw_x25519. destruct (gf_unpack_spec u Hl Hu) as [Hx1 Ex1].
  set (x1 := gf_unpack u) in *. clearbody x1. set (U := le_num u mod 2 ^ 255) in *. clearbody U.
  assert (ladder_rel (Ladder one zero x1 one 0) ((1, 0), (U, 1))) as H0.
  { left. split; [done|]. split; split; cbn [lx2 lz2 lx3 lz3 fst snd].
    - split; [apply one_tight|]. by apply (eqp_multiple _ _ 0).
    - split; [apply zero_tight|]. by apply (eqp_multiple _ _ 0).
    - split; [done|]. rewrite Ex1. by apply (eqp_multiple _ _ 0); rewrite Z.add_0_r.
    - split; [apply one_tight|]. by apply (eqp_multiple _ _ 0). }
  assert (val x1 ≡p U) as Eu by (apply (eqp_multiple _ _ 0); lia).
  pose proof (ladder_run k x1 U (rev (seq 0 255)) Hk Hx1 Eu _ _ H0) as Hs. unfold curve25519.
  set (s := foldl _ _ _) in *. set (PQ := foldl (montStep _ _) _ _) in *. clearbody s PQ.
  destruct (ladder_swap s PQ 0 Hs ltac:(by left)) as (x2 & z2 & x3 & z3 & E1 & E2 & [[Hx Ex] [Hz Ez]] & _).
  rewrite Z.lxor_0_r in E1, E2. rewrite E1, E2. change (0 =? 1) with false in *. cbn iota in *. destruct PQ.1 as [X Z]. cbn [fst snd] in *.
  destruct (gf_inv_spec z2 Hz) as [Hi Ei]. destruct (gf_mul_tight x2 _ Hx Hi) as [Hm Em].
  rewrite gf_pack_spec by done. f_equal. rewrite (eqp_eq _ _ Em), Zmult_mod, (eqp_eq _ _ Ex), (eqp_eq _ _ Ei), (power_mod _ _ Ez).
  apply Zmult_mod_idemp_l.
Qed.

(** ** Keys *)

Lemma curve25519_range k u : 0 <= curve25519 k u < p.
Proof. unfold curve25519. destruct (foldl _ _ _).1. apply Z.mod_pos_bound. done. Qed.

(** The disjunction of the bytes is zero for the number zero alone. *)
Lemma all_zero n : 0 <= n < p -> (foldl (fun c i => Z.lor c (coef (le_bytes 32 n) i)) 0 (seq 0 32) =? 0) = (n =? 0).
Proof.
  intros Hn. apply eq_true_iff_eq. rewrite !Z.eqb_eq. rewrite (lor_fold_zero (coef (le_bytes 32 n))). split.
  - intros [_ H]. rewrite Forall_forall in H.
    assert (le_bytes 32 n = replicate 32 0) as E.
    { apply coef_ext; [by rewrite length_le_bytes, length_replicate|]. intros i Hi. rewrite length_le_bytes in Hi.
      rewrite H by (apply elem_of_seq; lia). by rewrite coef_zeros. }
    apply (f_equal le_num) in E. rewrite le_num_bytes, le_num_zeros, Z.mod_small in E; [done|]. unfold p in Hn. change (8 * Z.of_nat 32) with 256. lia.
  - intros ->. split; [done|]. apply Forall_forall. intros i Hi. apply elem_of_seq in Hi.
    change (le_bytes 32 0) with (replicate 32 0). apply coef_zeros.
Qed.

(** Masks of a byte, as arithmetic. *)
Lemma clamp_low b : byte b -> Z.land b 248 = b / 8 * 8.
Proof.
  intros Hb. unfold byte in Hb. pose proof (Z.mod_eq b 8 ltac:(lia)) as Hm. pose proof (Z.mod_pos_bound b 8 ltac:(lia)).
  replace b with (b mod 8 + 2 ^ 3 * (b / 8)) at 1 by lia. change 248 with (0 + 2 ^ 3 * Z.ones 5).
  rewrite land_split by lia. rewrite Z.land_0_r, land_mod by lia. rewrite (Z.mod_small (b / 8)); [lia|].
  split; [apply Z.div_pos; lia|apply Z.div_lt_upper_bound; lia].
Qed.

Lemma clamp_high b : byte b -> Z.lor (Z.land b 127) 64 = 64 + b mod 64.
Proof.
  intros Hb. unfold byte in Hb. change 127 with (Z.ones 7). rewrite land_mod by lia. change (2 ^ 7) with 128.
  pose proof (Z.mod_pos_bound b 64 ltac:(lia)). pose proof (Z.mod_pos_bound (b / 64) 2 ltac:(lia)).
  replace (b mod 128) with (b mod 64 + 2 ^ 6 * (b / 64 mod 2)) by (change 128 with (64 * 2); rewrite Z.rem_mul_r by lia; lia).
  rewrite <- lor_add by lia. change 64 with (Z.shiftl 1 6) at 3. rewrite <- Z.lor_assoc, <- Z.shiftl_lor.
  replace (Z.lor (b / 64 mod 2) 1) with 1; [rewrite lor_add by lia; lia|].
  assert (b / 64 mod 2 = 0 \/ b / 64 mod 2 = 1) as [-> | ->] by lia; done.
Qed.

Lemma clamp_key r : length r = 32%nat -> Forall byte r ->
  let k := (x25519_genkeypair r).1 in length k = 32%nat /\ Forall byte k /\ le_num k = clamp (le_num r).
Proof.
  intros Hl Hr. unfold x25519_genkeypair. cbn [fst].
  destruct r as [|b0 r]; [done|]. cbn [length] in Hl.
  assert (exists m b31, length m = 30%nat /\ r = m ++ [b31]) as (m & b31 & Hm & ->).
  { exists (take 30 r), (coef r 30). split; [rewrite length_take; lia|]. rewrite <- take_snoc by lia. by rewrite take_ge by lia. }
  apply Forall_cons in Hr as [H0 Hr]. apply Forall_app in Hr as [Hbm H31]. apply Forall_cons in H31 as [H31 _].
  assert (forall x y, coef (x :: m ++ [y]) 31 = y) as Hc.
  { intros x y. rewrite coef_cons. replace 30%nat with (length m) by done. apply coef_middle. }
  assert (forall x y z, <[31%nat := z]> (x :: m ++ [y]) = x :: m ++ [z]) as Hi.
  { intros x y z. rewrite <- Hm. exact (f_equal (cons x) (insert_middle' m y z [])). }
  change (coef (b0 :: _) 0) with b0. change (<[0%nat := ?x]> (b0 :: ?l)) with (x :: l). rewrite !Hc, Hi, Hc, Hi.
  rewrite clamp_low, clamp_high by done. unfold byte in *.
  pose proof (Z.mod_pos_bound b31 64 ltac:(lia)) as Hb31. pose proof (Z.mod_eq b0 8 ltac:(lia)) as E0. pose proof (Z.mod_pos_bound b0 8 ltac:(lia)) as B0.
  split; [simpl; rewrite length_app; simpl; lia|]. split.
  { apply Forall_cons. split; [lia|]. apply Forall_app. split; [done|]. apply Forall_cons. split; [lia|constructor]. }
  cbn [le_num]. rewrite !le_num_app, Hm. cbn [le_num]. pose proof (le_num_bound m Hbm) as Bm. rewrite Hm in Bm.
  change (2 ^ (8 * Z.of_nat 30)) with (2 ^ 240) in *. unfold clamp.
  assert ((b0 + 256 * (le_num m + 2 ^ 240 * (b31 + 256 * 0))) mod 2 ^ 254 = b0 + 256 * (le_num m + 2 ^ 240 * (b31 mod 64))) as ->.
  { symmetry. apply Z.mod_unique with (b31 / 64); [left; lia|]. rewrite (Z.div_mod b31 64) at 1 by lia. lia. }
  replace (b0 + 256 * (le_num m + 2 ^ 240 * (b31 mod 64))) with (b0 mod 8 + (b0 / 8 + 32 * (le_num m + 2 ^ 240 * (b31 mod 64))) * 8) by lia.
  rewrite Z.div_add, (Z.div_small (b0 mod 8)) by lia. lia.
Qed.

Lemma base_bytes : Forall byte kX25519Base.
Proof. apply Forall_cons. split; [unfold byte; lia|]. apply Forall_replicate. unfold byte. lia. Qed.

Lemma genkeypair_public random k : Forall byte k -> (x25519_genkeypair random).1 = k ->
  (x25519_genkeypair random).2 = le_bytes 32 (curve25519 (le_num k) 9).
Proof.
  intros Hk <-. unfold x25519_genkeypair in *. cbn [fst snd] in *. rewrite sw_x25519_spec; [|exact Hk|reflexivity|exact base_bytes].
  replace (le_num kX25519Base mod 2 ^ 255) with 9 by (vm_compute; reflexivity). reflexivity.
Qed.

Lemma shared_secret_spec k peer : Forall byte k -> length peer = 32%nat -> Forall byte peer ->
  let n := curve25519 (le_num k) (le_num peer mod 2 ^ 255) in x25519_shared_secret k peer = (negb (n =? 0), le_bytes 32 n).
Proof.
  intros Hk Hl Hp n. unfold x25519_shared_secret. rewrite sw_x25519_spec by done. fold n.
  by rewrite all_zero by apply curve25519_range.
Qed.

(** C7: With the portable field arithmetic the key exchange computes the
    function X25519 of RFC 7748 exactly, for every key and every input: no sum
    or product of limbs overflows, the ladder with its lazy swaps equals
    double-and-add by the textbook formulas, and packing leaves the canonical
    residue.  Private keys are the drawn bytes clamped, public keys the image
    of the base point, and the shared secret is refused exactly when it is
    zero; the bytes are written either way. *)
Theorem x25519_exact random peer :
  length random = 32%nat -> Forall byte random -> length peer = 32%nat -> Forall byte peer ->
  let '(privateKey, publicKey) := x25519_genkeypair random in
  let n := curve25519 (clamp (le_num random)) (le_num peer mod 2 ^ 255) in
  le_num privateKey = clamp (le_num random) /\
  publicKey = le_bytes 32 (curve25519 (clamp (le_num random)) 9) /\
  x25519_shared_secret privateKey peer = (negb (n =? 0), le_bytes 32 n).
Proof.
  intros Hl Hr Hlp Hp. destruct (clamp_key random Hl Hr) as (Hlk & Hk & E).
  destruct (x25519_genkeypair random) as [k pk] eqn:Ek. pose proof (f_equal fst Ek) as Ek1. cbn [fst] in *. rewrite <- E. split; [reflexivity|]. split.
  - rewrite <- (genkeypair_public random k Hk Ek1). by rewrite Ek.
  - by apply shared_secret_spec.
Qed.

Lemma x25519_exact_witness :
  let random := replicate 32 7 in let peer := kX25519Base in
  let '(privateKey, publicKey) := x25519_genkeypair random in
  let n := curve25519 (clamp (le_num random)) (le_num peer mod 2 ^ 255) in
  le_num privateKey = clamp (le_num random) /\
  publicKey = le_bytes 32 (curve25519 (clamp (le_num random)) 9) /\
  x25519_shared_secret privateKey peer = (negb (n =? 0), le_bytes 32 n).
Proof.
  apply (x25519_exact (replicate 32 7) kX25519Base).
  - reflexivity.
  - apply Forall_replicate. split; [discriminate|reflexivity].
  - reflexivity.
  - apply Forall_cons. split; [split; [discriminate|reflexivity]|]. apply Forall_replicate. split; [discriminate|reflexivity].
Defined.
End X25519.
