(* ===== verification/KeyAgreement.v ===== *)
(** * Key agreement

    What the secure channel and the hybrid key encapsulation need of
    [x25519_genkeypair] and [x25519_shared_secret]: an interface, its laws, and
    its instances.  Built with OpenSSL the two functions belong to the library
    and are known by the interface alone; the portable ones of [X25519] are an
    instance that meets the laws on sizes by proof, and the agreement of both
    ends if the numeric function X25519 commutes.  Diffie-Hellman modulo
    2^255 - 19 is an instance that meets every law. *)

From Stdlib Require Import Zpow_facts.
From S2P Require Import Prelude Bytes Words Field25519 X25519.

Module KeyAgreement.
Import Bytes Words Field25519 X25519.

(** The operations: whether they succeed, and the buffers they leave. *)
Class Dh := {
  genkeypair : list Z -> list Z * list Z -> bool * (list Z * list Z);   (* randomness, (private, public) *)
  shared_secret : list Z -> list Z -> list Z -> bool * list Z }.        (* private, peer's public, buffer *)

Definition bytes32 (l : list Z) : Prop := length l = 32%nat /\ Forall byte l.

(** Keys and secrets are 32 bytes. *)
Class DhSizes `{Dh} : Prop := {
  genkeypair_size r old sk pk : bytes32 r -> genkeypair r old = (true, (sk, pk)) -> bytes32 sk /\ bytes32 pk;
  shared_size sk pk buf s : bytes32 sk -> bytes32 pk -> shared_secret sk pk buf = (true, s) -> bytes32 s }.

(** Two key pairs give both ends the same secret, or are refused at both. *)
Class DhAgrees `{Dh} : Prop := {
  shared_agrees r r' old old' sk pk sk' pk' buf buf' s : bytes32 r -> bytes32 r' ->
    genkeypair r old = (true, (sk, pk)) -> genkeypair r' old' = (true, (sk', pk')) ->
    shared_secret sk pk' buf = (true, s) -> shared_secret sk' pk buf' = (true, s) }.

(** ** The portable implementation *)

#[export] Instance portable : Dh := {
  genkeypair r _ := (true, x25519_genkeypair r);
  shared_secret sk pk _ := x25519_shared_secret sk pk }.

Lemma le_bytes_32 n : bytes32 (le_bytes 32 n).
Proof. split; [apply length_le_bytes|apply le_bytes_byte]. Qed.

Lemma portable_pair r old sk pk : bytes32 r -> genkeypair (Dh := portable) r old = (true, (sk, pk)) ->
  bytes32 sk /\ le_num sk = clamp (le_num r) /\ pk = le_bytes 32 (curve25519 (clamp (le_num r)) 9).
Proof.
  intros [Hl Hr] E. pose proof (f_equal snd E) as Esk. change (x25519_genkeypair r = (sk, pk)) in Esk. destruct (clamp_key r Hl Hr) as (Hlk & Hk & En).
  assert ((x25519_genkeypair r).1 = sk) as E1 by (by rewrite Esk).
  assert ((x25519_genkeypair r).2 = pk) as E2 by (by rewrite Esk).
  cbv zeta in *. rewrite E1 in *. split; [by split|]. split; [done|]. rewrite <- E2, <- En. by apply genkeypair_public.
Qed.

#[export] Instance portable_sizes : DhSizes (H := portable).
Proof.
  split.
  - intros r old sk pk Hr E. destruct (portable_pair r old sk pk Hr E) as (Hsk & _ & ->). split; [done|apply le_bytes_32].
  - intros sk pk buf s [_ Hk] [Hl Hp] E. cbn [shared_secret portable] in E. rewrite shared_secret_spec in E by done.
    pose proof (f_equal snd E) as Es. cbn [snd] in Es. rewrite <- Es. apply le_bytes_32.
Qed.

(** A key agreement needs no more than the commutation of the numeric function. *)
Lemma portable_agrees :
  (forall a b, curve25519 (clamp a) (curve25519 (clamp b) 9) = curve25519 (clamp b) (curve25519 (clamp a) 9)) ->
  DhAgrees (H := portable).
Proof.
  intros Hcomm. split. intros r r' old old' sk pk sk' pk' buf buf' s Hr Hr' E E' Es.
  destruct (portable_pair r old sk pk Hr E) as ([_ Hk] & Ek & ->). destruct (portable_pair r' old' sk' pk' Hr' E') as ([_ Hk'] & Ek' & ->).
  assert (forall k, le_num (le_bytes 32 (curve25519 k 9)) mod 2 ^ 255 = curve25519 k 9) as Hn.
  { intros k. pose proof (curve25519_range k 9) as H. unfold p in H. rewrite le_num_bytes. change (8 * Z.of_nat 32) with 256.
    by rewrite (Z.mod_small _ (2 ^ 256)), (Z.mod_small _ (2 ^ 255)) by lia. }
  cbn [shared_secret portable] in *.
  rewrite (shared_secret_spec sk _ Hk (length_le_bytes 32 _) (le_bytes_byte 32 _)), Hn, Ek in Es.
  rewrite (shared_secret_spec sk' _ Hk' (length_le_bytes 32 _) (le_bytes_byte 32 _)), Hn, Ek', <- Hcomm. exact Es.
Qed.

(** ** Diffie-Hellman modulo a prime *)

(** Powers of 2 modulo 2^255 - 19, where the law holds by arithmetic; the
    secret 1 is refused. *)
Definition modP : Z := 2 ^ 255 - 19.
Definition power (b e : Z) : Z := Zpow_mod b e modP.

Definition modDh : Dh := {|
  genkeypair r _ := (true, (r, le_bytes 32 (power 2 (le_num r))));
  shared_secret sk pk _ := let s := power (le_num pk) (le_num sk) in (negb (s =? 1), le_bytes 32 s) |}.

Lemma power_spec b e : power b e = b ^ e mod modP.
Proof. apply Zpow_mod_correct. done. Qed.

Lemma le_num_power b e : le_num (le_bytes 32 (power b e)) = power b e.
Proof.
  rewrite le_num_bytes, power_spec. apply Z.mod_small. pose proof (Z.mod_pos_bound (b ^ e) modP ltac:(done)) as H.
  split; [apply H|]. eapply Z.lt_trans; [apply H|done].
Qed.

Lemma modDh_sizes : DhSizes (H := modDh).
Proof.
  split.
  - intros r old sk pk Hr E. injection E as <- <-. split; [done|apply le_bytes_32].
  - intros sk pk buf s _ _ E. cbn in E. injection E as _ <-. apply le_bytes_32.
Qed.

Lemma modDh_agrees : DhAgrees (H := modDh).
Proof.
  split. intros r r' old old' sk pk sk' pk' buf buf' s [_ Hr] [_ Hr'] E E' Es.
  injection E as <- <-. injection E' as <- <-. rewrite <- Es. cbn [shared_secret modDh]. rewrite !le_num_power.
  apply le_num_bound in Hr as [Hr _], Hr' as [Hr' _].
  assert (power (power 2 (le_num r)) (le_num r') = power (power 2 (le_num r')) (le_num r)) as ->; [|done].
  rewrite !power_spec, <- !Zpower_mod, <- !Z.pow_mul_r by (done || lia). by rewrite Z.mul_comm.
Qed.

End KeyAgreement.
