(* ===== verification/KeyExchange.v ===== *)
(** * Ephemeral key exchange of the secure channel

    Model of the X25519 key exchange of [SecureChannel]
    (src/advanced/secure_channel.cpp): the ephemeral key pair, the peer's key,
    [executeKeyExchange] with its fallback to the shared token, and the erasure
    of the secrets.  The key agreement is the interface [Dh] of [KeyAgreement];
    [ssl] is whether the build has VGRE_ENABLE_SSL. *)

From S2P Require Import Prelude Bytes Words Sha256 Aes Gcm SecureChannel KeyAgreement.

Module KeyExchange.
Import Bytes Words SecureChannel KeyAgreement.

(** A channel with its members for the exchange. *)
Record endpoint := Endpoint {
  base : channel;
  ephemeralPrivate_ : list Z; ephemeralPublic_ : list Z; peerPublicKey_ : list Z; ecdhSharedSecret_ : list Z;
  ecdhEnabled_ : bool }.

Definition zero32 : list Z := replicate 32 0.
Definition newEndpoint : endpoint := Endpoint newChannel zero32 zero32 zero32 zero32 false.

Section Exchange.
Context `{Dh} (ssl : bool).

Definition generateEphemeralKeypair (random : list Z) (e : endpoint) : endpoint * bool :=
  if ssl then
    let '(ok, (sk, pk)) := genkeypair random (ephemeralPrivate_ e, ephemeralPublic_ e) in
    (Endpoint (base e) sk pk (peerPublicKey_ e) (ecdhSharedSecret_ e) (ecdhEnabled_ e), ok)
  else (e, false).

Definition setPeerPublicKey (peerPublic : list Z) (e : endpoint) : endpoint :=
  Endpoint (base e) (ephemeralPrivate_ e) (ephemeralPublic_ e) (take 32 peerPublic) (ecdhSharedSecret_ e) (ecdhEnabled_ e).

Definition getEphemeralPublicKey (e : endpoint) : list Z := ephemeralPublic_ e.

Definition setPeerECDHCapable (capable : bool) (e : endpoint) : endpoint :=
  Endpoint (base e) (ephemeralPrivate_ e) (ephemeralPublic_ e) (peerPublicKey_ e) (ecdhSharedSecret_ e) capable.

Definition executeKeyExchange (e : endpoint) (authToken masterNonce clientNonce : list Z) (iterEnv : option Z) (nowMs : Z) (gcmHw : bool)
    : endpoint * VGREResult :=
  if ssl && ecdhEnabled_ e then
    let '(ok, secret) := shared_secret (ephemeralPrivate_ e) (peerPublicKey_ e) (ecdhSharedSecret_ e) in
    if negb ok then
      (Endpoint (base e) (ephemeralPrivate_ e) (ephemeralPublic_ e) (peerPublicKey_ e) secret (ecdhEnabled_ e), ERR_CRYPTO) else
    let key := Sha256.derive_session_key_from_dh secret in
    (Endpoint (Channel key (Sha256.sha256 key) 0 (replicate 32 0) 0 false 0 0 0 0 nowMs (last_recv_result_ (base e)) true gcmHw)
       zero32 (ephemeralPublic_ e) (peerPublicKey_ e) zero32 (ecdhEnabled_ e), SUCCESS)
  else
    let '(c, r) := initializeFromSecret (base e) authToken masterNonce clientNonce iterEnv nowMs gcmHw in
    (Endpoint c (ephemeralPrivate_ e) (ephemeralPublic_ e) (peerPublicKey_ e) (ecdhSharedSecret_ e) (ecdhEnabled_ e), r).

(** [token] is what the hardware token manager returns. *)
Definition initializeFromHardware (e : endpoint) (token : VGREResult * list Z) (masterNonce clientNonce : list Z) (iterEnv : option Z) (nowMs : Z)
    (gcmHw : bool) : endpoint * VGREResult :=
  if negb (bool_decide (token.1 = SUCCESS)) then (e, token.1) else
  let '(c, r) := initializeFromSecret (base e) token.2 masterNonce clientNonce iterEnv nowMs gcmHw in
  (Endpoint c (ephemeralPrivate_ e) (ephemeralPublic_ e) (peerPublicKey_ e) (ecdhSharedSecret_ e) (ecdhEnabled_ e), r).

(** The destructor. *)
Definition destroy (e : endpoint) : endpoint :=
  let c := base e in
  Endpoint (Channel zero32 zero32 0 (replicate 32 0) 0 false (packetsSent_ c) (packetsReceived_ c) (bytesSent_ c) (bytesReceived_ c)
      (sessionStartMs_ c) (last_recv_result_ c) false (useGcm_ c))
    zero32 (ephemeralPublic_ e) zero32 zero32 (ecdhEnabled_ e).

(** One end: its own key pair, then the peer's key and capability. *)
Definition prepare (peerPublic : list Z) (e : endpoint) : endpoint := setPeerECDHCapable true (setPeerPublicKey peerPublic e).
End Exchange.

(** ** Properties *)

Section Properties.
Context `{D : Dh} `{Hz : !DhSizes} `{Ha : !DhAgrees} `{Aead}.

(** The keys an end holds after [generateEphemeralKeypair]. *)
Definition holds (r : list Z) (e : endpoint) : Prop :=
  bytes32 r /\ exists old, genkeypair r old = (true, (ephemeralPrivate_ e, ephemeralPublic_ e)).

Lemma generate_holds r e e' : bytes32 r -> generateEphemeralKeypair true r e = (e', true) -> holds r e' /\ base e' = base e.
Proof.
  intros Hr. unfold generateEphemeralKeypair. destruct (genkeypair r _) as [ok [sk pk]] eqn:E. intros E'.
  injection E' as <- ->. split; [|done]. split; [done|]. by eexists.
Qed.

(** The session an end derives from a secret, on a machine with or without
    the GCM instructions. *)
Definition session_of (secret : list Z) (nowMs : Z) (hw : bool) (e : endpoint) : Prop :=
  sessionKey_ (base e) = Sha256.derive_session_key_from_dh secret /\ keyFingerprint_ (base e) = Sha256.sha256 (Sha256.derive_session_key_from_dh secret) /\
  useGcm_ (base e) = hw /\ sendSequence_ (base e) = 0 /\ window [] (base e) /\ initialized_ (base e) = true /\ sessionStartMs_ (base e) = nowMs /\
  ephemeralPrivate_ e = zero32 /\ ecdhSharedSecret_ e = zero32.

Lemma exchange_result peer e token mn cn env nowMs hw : bytes32 peer ->
  let '(e', r) := executeKeyExchange true (prepare peer e) token mn cn env nowMs hw in
  match shared_secret (ephemeralPrivate_ e) peer (ecdhSharedSecret_ e) with
  | (true, s) => r = SUCCESS /\ session_of s nowMs hw e'
  | (false, _) => r = ERR_CRYPTO /\ base e' = base e
  end.
Proof.
  intros [Hl _]. unfold executeKeyExchange, prepare, setPeerECDHCapable, setPeerPublicKey.
  cbn [ecdhEnabled_ ephemeralPrivate_ peerPublicKey_ ecdhSharedSecret_ base andb]. rewrite take_ge by lia.
  destruct (shared_secret _ _ _) as [[|] s]; cbn [negb]; [|done].
  split; [done|]. unfold session_of. split_and!; try reflexivity. split; [apply zeros_ok|reflexivity].
Qed.

Lemma derived_key secret : Forall byte (Sha256.derive_session_key_from_dh secret) /\ length (Sha256.derive_session_key_from_dh secret) = 32%nat.
Proof.
  unfold Sha256.derive_session_key_from_dh, Sha256.hkdf_sha256_expand.
  split; [unfold Sha256.hmac_sha256; apply Sha256.final_bytes|apply length_hmac].
Qed.

(** *** A conversation *)

(** What one end sends: data and initialization vectors, and what is put on the
    wire. *)
Fixpoint sendPackets (hw : bool) (c : channel) (packets : list (list Z * list Z)) : channel * list Z :=
  match packets with
  | [] => (c, [])
  | (data, iv) :: packets =>
      let '(c, _, wire) := sendSecure hw c data iv true in
      let '(c, wires) := sendPackets hw c packets in (c, default [] wire ++ wires)
  end.

(** What the other end makes of a stream, one packet at each time. *)
Fixpoint recvPackets (hw : bool) (c : channel) (times : list Z) (stream : list Z) : list (VGREResult * list Z) * list Z :=
  match times with
  | [] => ([], stream)
  | t :: times =>
      let '(c, r, data, stream) := recvSecure hw c t stream 0 [] in
      let '(log, stream) := recvPackets hw c times stream in ((r, data) :: log, stream)
  end.

Definition packet_ok (x : list Z * list Z) : Prop :=
  Forall byte x.1 /\ Z.of_nat (length x.1) <= 64 * 1024 * 1024 /\ Forall byte x.2 /\ length x.2 = 12%nat.

Lemma packets_delivered hw hw2 packets times rest : Forall packet_ok packets -> length times = length packets ->
  forall acc c c2, Forall byte (sessionKey_ c) -> length (sessionKey_ c) = 32%nat -> initialized_ c = true ->
  (useGcm_ c = true -> hw2 = hw) -> sessionKey_ c2 = sessionKey_ c -> initialized_ c2 = true ->
  Forall (fun t => expired c2 t = false) times -> window acc c2 -> Forall (fun q => 0 <= q < sendSequence_ c) acc ->
  0 <= sendSequence_ c -> sendSequence_ c + Z.of_nat (length packets) < 2 ^ 64 ->
  recvPackets hw2 c2 times ((sendPackets hw c packets).2 ++ rest) = ((fun x => (SUCCESS, x.1)) <$> packets, rest).
Proof.
  intros Hp. revert times. induction Hp as [|[data iv] packets (Hd & Ld & Hiv & Liv) _ IH]; intros [|t times] Hl; try done.
  intros acc c c2 Bk Lk Ic Hhw Ek Ic2 Hex Hw Hacc H0 Hn. injection Hl as Hl. apply Forall_cons in Hex as [Ht Hex]. cbn [length] in Hn.
  cbn [fst snd] in *. cbn [sendPackets recvPackets].
  destruct (sendSecure_wire hw c data iv Bk Lk Ic ltac:(lia) Hd ltac:(lia) Hiv Liv)
    as (c' & h & enc & Es & [Hs' (Sk & Si & _ & Sg)] & Hh & Hm & Hv & Hq & Hpl & Le & Hau).
  destruct (Hau hw2 c2 [] Hhw Ek) as (o & Ho & Hdata).
  rewrite Es. destruct (sendPackets hw c' packets) as [c'' wires] eqn:Ep. cbn [snd].
  change (default [] (Some (headerBytes h ++ enc))) with (headerBytes h ++ enc). rewrite <- !app_assoc.
  destruct (recv_wire hw2 acc c2 t h enc (wires ++ rest) 0 [] o Ic2 Ht Hh Hm Hv) as (c2' & Er & Hw' & _ & (Rk & Ri & Rs & _)); [by rewrite Le|lia|done|done| |].
  { rewrite Hq. rewrite Forall_forall in Hacc. split; [intros Hin; specialize (Hacc _ Hin); lia|].
    apply Forall_forall. intros q Hin. specialize (Hacc _ Hin). unfold kReplayWindowBits. lia. }
  rewrite Er, Hdata. rewrite u64_small in Hs' by lia.
  replace wires with (sendPackets hw c' packets).2 by by rewrite Ep.
  rewrite (IH times Hl (sequence_number h :: acc) c' c2'); [done| | | | | | | |done| | |].
  - by rewrite Sk.
  - by rewrite Sk.
  - by rewrite Si.
  - by rewrite Sg.
  - congruence.
  - by rewrite Ri.
  - eapply Forall_impl; [exact Hex|]. intros t'. unfold expired. by rewrite Rs.
  - rewrite Hs', Hq. constructor; [lia|]. eapply Forall_impl; [exact Hacc|]. simpl. lia.
  - lia.
  - lia.
Qed.

(** Everything one fresh session sends within the hour reaches the other, if
    the receiver has the GCM instructions whenever the sender has them. *)
Lemma session_packets s ta tb hwA hwB ea eb packets times rest :
  session_of s ta hwA ea -> session_of s tb hwB eb -> (hwA = true -> hwB = true) ->
  Forall packet_ok packets -> length times = length packets -> Z.of_nat (length packets) < 2 ^ 64 -> Forall (fun t => tb <= t <= tb + 3600000) times ->
  recvPackets hwB (base eb) times ((sendPackets hwA (base ea) packets).2 ++ rest) = ((fun x => (SUCCESS, x.1)) <$> packets, rest).
Proof.
  intros (Ka & _ & Ga & Qa & _ & Ia & _) (Kb & _ & _ & _ & Wb & Ib & Tb & _) Hhw Hp Hl Hn Ht. destruct (derived_key s) as [Bk Lk]. rewrite <- Ka in Bk, Lk.
  apply (packets_delivered hwA hwB packets times rest Hp Hl [] (base ea) (base eb)); try done; rewrite ?Qa; try lia; [rewrite Ga; intros ->; by apply Hhw|congruence|].
  eapply Forall_impl; [exact Ht|]. intros t Ht'. cbv beta in Ht'. unfold expired. rewrite Tb, u64_small by lia.
  rewrite Z.gtb_ltb, (proj2 (Z.ltb_ge 3600000 _)) by lia. apply andb_false_r.
Qed.

(** C6: the ephemeral key exchange.  Two endpoints in any state generate their
    key pairs, give each other their public keys and run
    [executeKeyExchange], with whatever tokens and nonces and on any two
    machines.  An end whose own shared secret is refused returns ERR_CRYPTO and
    keeps its channel.  If one end obtains a shared secret then, by the law of
    the key agreement, so does the other, both return SUCCESS with one session
    key, the HKDF of that secret, a sequence starting at 0 and an empty replay
    window, the private key and the shared secret erased; and every sequence of
    packets (of at most 64 MiB each) that the first sends and the second
    receives within an hour of its set-up is delivered intact and in order,
    provided the second has the GCM instructions if the first has them. *)
Theorem key_exchange_session a b a1 b1 ra rb :
  bytes32 ra -> bytes32 rb ->
  generateEphemeralKeypair true ra a = (a1, true) -> generateEphemeralKeypair true rb b = (b1, true) ->
  forall tokA mnA cnA envA ta hwA tokB mnB cnB envB tb hwB,
  let '(a2, resA) := executeKeyExchange true (prepare (getEphemeralPublicKey b1) a1) tokA mnA cnA envA ta hwA in
  let '(b2, resB) := executeKeyExchange true (prepare (getEphemeralPublicKey a1) b1) tokB mnB cnB envB tb hwB in
  match shared_secret (ephemeralPrivate_ a1) (ephemeralPublic_ b1) (ecdhSharedSecret_ a1) with
  | (false, _) => resA = ERR_CRYPTO /\ base a2 = base a
  | (true, secret) => resA = SUCCESS /\ resB = SUCCESS /\ session_of secret ta hwA a2 /\ session_of secret tb hwB b2 /\ bytes32 secret /\
      forall packets times rest, (hwA = true -> hwB = true) -> Forall packet_ok packets -> length times = length packets ->
        Z.of_nat (length packets) < 2 ^ 64 -> Forall (fun t => tb <= t <= tb + 3600000) times ->
        recvPackets hwB (base b2) times ((sendPackets hwA (base a2) packets).2 ++ rest) = ((fun x => (SUCCESS, x.1)) <$> packets, rest)
  end.
Proof.
  intros Hra Hrb Ea Eb tokA mnA cnA envA ta hwA tokB mnB cnB envB tb hwB.
  destruct (generate_holds ra a a1 Hra Ea) as [[_ [olda Ga]] Ba]. destruct (generate_holds rb b b1 Hrb Eb) as [[_ [oldb Gb]] _].
  destruct (genkeypair_size ra olda _ _ Hra Ga) as [Ska Pka]. destruct (genkeypair_size rb oldb _ _ Hrb Gb) as [_ Pkb].
  pose proof (exchange_result (getEphemeralPublicKey b1) a1 tokA mnA cnA envA ta hwA Pkb) as HA.
  pose proof (exchange_result (getEphemeralPublicKey a1) b1 tokB mnB cnB envB tb hwB Pka) as HB.
  destruct (executeKeyExchange true (prepare _ a1) _ _ _ _ _ _) as [a2 resA]. destruct (executeKeyExchange true (prepare _ b1) _ _ _ _ _ _) as [b2 resB].
  unfold getEphemeralPublicKey in *.
  destruct (shared_secret (ephemeralPrivate_ a1) _ _) as [[|] sa] eqn:Sa; [|by rewrite <- Ba].
  rewrite (shared_agrees ra rb olda oldb _ _ _ _ _ (ecdhSharedSecret_ b1) sa Hra Hrb Ga Gb Sa) in HB.
  destruct HA as [-> HA], HB as [-> HB]. do 4 (split; [done|]). split; [exact (shared_size _ _ _ _ Ska Pkb Sa)|].
  intros. by apply (session_packets sa ta tb).
Qed.
End Properties.

#[local] Existing Instances modDh_sizes modDh_agrees.

Lemma key_exchange_session_witness :
  let ra := replicate 32 1 in let rb := replicate 32 2 in
  let a1 := (generateEphemeralKeypair (H := modDh) true ra newEndpoint).1 in let b1 := (generateEphemeralKeypair (H := modDh) true rb newEndpoint).1 in
  let '(a2, resA) := executeKeyExchange (H := modDh) true (prepare (getEphemeralPublicKey b1) a1) [] [] [] None 5 true in
  let '(b2, resB) := executeKeyExchange (H := modDh) true (prepare (getEphemeralPublicKey a1) b1) [] [] [] None 6 true in
  resA = SUCCESS /\ resB = SUCCESS /\ sessionKey_ (base a2) = sessionKey_ (base b2) /\
  recvPackets true (base b2) [7; 8] ((sendPackets true (base a2) [([1; 2; 3], replicate 12 7); ([4], replicate 12 9)]).2 ++ [0]) =
    ([(SUCCESS, [1; 2; 3]); (SUCCESS, [4])], [0]).
Proof.
  assert (forall b n, byte b -> Forall byte (replicate n b)) as Hb by (intros; by apply Forall_replicate).
  assert (forall b, byte b -> bytes32 (replicate 32 b)) as Hr by (intros; split; [apply length_replicate|by apply Hb]).
  cbv zeta.
  set (a1 := (generateEphemeralKeypair true (replicate 32 1) newEndpoint).1).
  set (b1 := (generateEphemeralKeypair true (replicate 32 2) newEndpoint).1).
  assert (generateEphemeralKeypair (H := modDh) true (replicate 32 1) newEndpoint = (a1, true)) as Ea by exact eq_refl.
  assert (generateEphemeralKeypair (H := modDh) true (replicate 32 2) newEndpoint = (b1, true)) as Eb by exact eq_refl.
  assert ((shared_secret (Dh := modDh) (ephemeralPrivate_ a1) (ephemeralPublic_ b1) (ecdhSharedSecret_ a1)).1 = true) as Hs by (vm_compute; exact eq_refl).
  clearbody a1 b1.
  pose proof (key_exchange_session (D := modDh) newEndpoint newEndpoint a1 b1 (replicate 32 1) (replicate 32 2)
    (Hr 1 ltac:(unfold byte; lia)) (Hr 2 ltac:(unfold byte; lia)) Ea Eb [] [] [] None 5 true [] [] [] None 6 true) as H.
  destruct (executeKeyExchange true (prepare (getEphemeralPublicKey b1) a1) [] [] [] None 5 true) as [a2 resA].
  destruct (executeKeyExchange true (prepare (getEphemeralPublicKey a1) b1) [] [] [] None 6 true) as [b2 resB].
  destruct (shared_secret _ _ _) as [ok secret]. cbn [fst] in Hs. subst ok. destruct H as (-> & -> & HA & HB & _ & HP).
  split; [reflexivity|]. split; [reflexivity|]. split; [rewrite (proj1 HA); symmetry; exact (proj1 HB)|].
  apply (HP [([1; 2; 3], replicate 12 7); ([4], replicate 12 9)] [7; 8] [0]); [reflexivity| |reflexivity|reflexivity|].
  - repeat (apply Forall_cons; split); [..|by apply Forall_nil]; (split; [|split; [simpl; lia|split; [apply Hb; unfold byte; lia|reflexivity]]]).
    + exact small_bytes.
    + repeat (apply Forall_cons; split); [unfold byte; lia|by apply Forall_nil].
  - repeat (apply Forall_cons; split); [lia|lia|by apply Forall_nil].
Defined.
End KeyExchange.
