(* ===== verification/HybridKem.v ===== *)
(** * The hybrid key encapsulation

    Model of src/pqc/hybrid_kem.cpp: X25519 and ML-KEM-768 side by side, with
    the combiner that hashes both secrets and the transcript.  The X25519 side
    is the interface [Dh] of [KeyAgreement], the other one [MlKem]. *)

From S2P Require Import Prelude Bytes Words Keccak MlKemRing MlKemCodec MlKem KeyAgreement.

Module HybridKem.
Import Bytes Words KeyAgreement.

(** Why an operation gives no result: it returns [false], or the model of the
    rejection sampling of ML-KEM ran out of fuel. *)
Inductive failure := ReturnsFalse | OutOfFuel.

Definition from_fuel {A} (r : option A) : result failure A := match r with Some a => Ok a | None => Err OutOfFuel end.

(** "VGRE-HYBRID-MLKEM768-X25519-v1" *)
Definition kDomain : list Z :=
  [86; 71; 82; 69; 45; 72; 89; 66; 82; 73; 68; 45; 77; 76; 75; 69; 77; 55; 54; 56; 45; 88; 50; 53; 53; 49; 57; 45; 118; 49].

(** What is hashed: domain, both secrets, then the transcript. *)
Definition transcript (ss_m ss_x ct_m eph_pub x_pub : list Z) : list Z :=
  kDomain ++ take 32 ss_m ++ take 32 ss_x ++ take MlKem.INDCPA_CT ct_m ++ take 32 eph_pub ++ take 32 x_pub.
Definition combine (ss_m ss_x ct_m eph_pub x_pub : list Z) : list Z := Keccak.shake256 32 (transcript ss_m ss_x ct_m eph_pub x_pub).

Section Hybrid.
Context `{Dh}.

(** [xrandom] are the bytes X25519 draws, [mrandom] those of ML-KEM; the local
    buffers are written before they are read. *)
Definition hybrid_keypair (xrandom : list Z) (mrandom : nat -> list Z) (fuel : nat) : result failure (list Z * list Z) :=
  let '(ok, (xpriv, xpub)) := genkeypair xrandom ([], []) in
  if negb ok then Err ReturnsFalse else
  '(ek, dk) ← from_fuel (MlKem.mlkem768_keypair mrandom fuel);
  Ok (xpub ++ ek, xpriv ++ xpub ++ dk).

Definition hybrid_encaps (xrandom mrandom : list Z) (fuel : nat) (pk : list Z) : result failure (list Z * list Z) :=
  let peer_xpub := take 32 pk in
  let ek := drop 32 pk in
  let '(ok, (eph_priv, eph_pub)) := genkeypair xrandom ([], []) in
  if negb ok then Err ReturnsFalse else
  let '(ok, ss_x) := shared_secret eph_priv peer_xpub [] in
  if negb ok then Err ReturnsFalse else
  '(ct_m, ss_m) ← from_fuel (MlKem.mlkem768_enc mrandom fuel ek);
  Ok (eph_pub ++ ct_m, combine ss_m ss_x ct_m eph_pub peer_xpub).

Definition hybrid_decaps (fuel : nat) (ct sk : list Z) : result failure (list Z) :=
  let xpriv := take 32 sk in
  let xpub := take 32 (drop 32 sk) in
  let dk := drop 64 sk in
  let eph_pub := take 32 ct in
  let ct_m := drop 32 ct in
  let '(ok, ss_x) := shared_secret xpriv eph_pub [] in
  if negb ok then Err ReturnsFalse else
  ss_m ← from_fuel (MlKem.mlkem768_dec fuel ct_m dk);
  Ok (combine ss_m ss_x ct_m eph_pub xpub).
End Hybrid.

(** ** Properties *)

Section Properties.
Context `{D : Dh} `{Hz : !DhSizes} `{Ha : !DhAgrees}.

(** The operations on keys and ciphertexts in their parts. *)
Lemma encaps_parts xr mr fuel xpub ek eph_priv eph_pub : length xpub = 32%nat -> genkeypair xr ([], []) = (true, (eph_priv, eph_pub)) ->
  hybrid_encaps xr mr fuel (xpub ++ ek) =
    match shared_secret eph_priv xpub [] with
    | (false, _) => Err ReturnsFalse
    | (true, ss_x) => '(ct_m, ss_m) ← from_fuel (MlKem.mlkem768_enc_derand fuel ek mr); Ok (eph_pub ++ ct_m, combine ss_m ss_x ct_m eph_pub xpub)
    end.
Proof.
  intros Hl E. unfold hybrid_encaps, MlKem.mlkem768_enc. rewrite (take_app_exact xpub), (drop_app_exact xpub), E by done. cbn [negb].
  by destruct (shared_secret _ _ _) as [[|] ss].
Qed.

Lemma decaps_parts fuel eph_pub ct_m xpriv xpub dk : length eph_pub = 32%nat -> length xpriv = 32%nat -> length xpub = 32%nat ->
  hybrid_decaps fuel (eph_pub ++ ct_m) (xpriv ++ xpub ++ dk) =
    match shared_secret xpriv eph_pub [] with
    | (false, _) => Err ReturnsFalse
    | (true, ss_x) => ss_m ← from_fuel (MlKem.mlkem768_dec fuel ct_m dk); Ok (combine ss_m ss_x ct_m eph_pub xpub)
    end.
Proof.
  intros He Hp Hx. unfold hybrid_decaps.
  replace (drop 64 (xpriv ++ xpub ++ dk)) with dk.
  2:{ rewrite app_assoc. symmetry. apply drop_app_exact. rewrite length_app. lia. }
  rewrite (take_app_exact eph_pub), (drop_app_exact eph_pub), (take_app_exact xpriv), (drop_app_exact xpriv), (take_app_exact xpub) by done.
  by destruct (shared_secret _ _ _) as [[|] ss].
Qed.

(** The combiner separates: equal hash inputs come from equal secrets and
    transcripts. *)
Lemma transcript_inj m x c e p m' x' c' e' p' :
  length m = 32%nat -> length m' = 32%nat -> length x = 32%nat -> length x' = 32%nat ->
  length c = MlKem.INDCPA_CT -> length c' = MlKem.INDCPA_CT -> length e = 32%nat -> length e' = 32%nat -> length p = 32%nat -> length p' = 32%nat ->
  transcript m x c e p = transcript m' x' c' e' p' -> m = m' /\ x = x' /\ c = c' /\ e = e' /\ p = p'.
Proof.
  intros ? ? ? ? Hc Hc' ? ? ? ?. unfold transcript. rewrite (take_ge c), (take_ge c') by (by rewrite ?Hc, ?Hc'). rewrite !take_ge by lia.
  intros E. apply app_inj_1 in E as [_ E]; [|done].
  apply app_inj_1 in E as [-> E]; [|congruence]. apply app_inj_1 in E as [-> E]; [|congruence].
  apply app_inj_1 in E as [-> E]; [|congruence]. by apply app_inj_1 in E as [-> ->]; [|congruence].
Qed.

(** C12: the two ends of the hybrid agree, where ML-KEM decrypts.  For any
    seeds: the recipient's key pair was generated, the sender's ephemeral pair
    too, and the ML-KEM noise of this message stays in [-832, 831].  If X25519
    refuses the sender's ephemeral key with the recipient's public key,
    encapsulation returns [false].  Otherwise it gives a ciphertext of 1120
    bytes and a secret of 32, the SHAKE256 of the domain, both secrets and the
    transcript, and by the law of the key agreement decapsulation recovers
    that secret from that ciphertext. *)
Theorem hybrid_agreement fuel xr mr xr' m pk sk w :
  bytes32 xr -> bytes32 xr' -> length m = 32%nat -> Forall byte m ->
  hybrid_keypair xr mr fuel = Ok (pk, sk) ->
  (genkeypair xr' ([], [])).1 = true ->
  MlKem.decryption_noise fuel (mr 0%nat) m = Some w -> Forall MlKemCodec.noise_ok w ->
  let eph := (genkeypair xr' ([], [])).2 in
  match shared_secret eph.1 (take 32 pk) [] with
  | (false, _) => hybrid_encaps xr' m fuel pk = Err ReturnsFalse
  | (true, ss_x) => exists ct_m ss_m, MlKem.mlkem768_enc m fuel (drop 32 pk) = Some (ct_m, ss_m) /\
      let ct := eph.2 ++ ct_m in let ss := combine ss_m ss_x ct_m eph.2 (take 32 pk) in
      hybrid_encaps xr' m fuel pk = Ok (ct, ss) /\ length ct = 1120%nat /\ length ss = 32%nat /\ hybrid_decaps fuel ct sk = Ok ss
  end.
Proof.
  intros Hxr Hxr' Hm Hmb Hk Hg Hn Hw. unfold hybrid_keypair in Hk.
  destruct (genkeypair xr _) as [[|] [xpriv xpub]] eqn:G; cbn [negb] in Hk; [|discriminate Hk].
  apply bind_Ok in Hk as ([ek dk] & Ek & E). unfold from_fuel, MlKem.mlkem768_keypair in Ek.
  destruct (MlKem.mlkem768_keypair_derand fuel (mr 0%nat) (mr 1%nat)) as [[ek' dk']|] eqn:EK; [|discriminate Ek].
  assert (ek' = ek /\ dk' = dk) as [-> ->] by (injection Ek as <- <-; done).
  assert (pk = xpub ++ ek /\ sk = xpriv ++ xpub ++ dk) as [-> ->] by (injection E as <- <-; done). clear Ek E.
  destruct (genkeypair xr' _) as [ok [eph_priv eph_pub]] eqn:G'. cbn [fst snd] in *. subst ok.
  destruct (genkeypair_size _ _ _ _ Hxr G) as [[Lxs _] [Lxp Bxp]]. destruct (genkeypair_size _ _ _ _ Hxr' G') as [[Les _] [Lep Bep]].
  destruct (MlKem.decaps_encaps fuel (mr 0%nat) (mr 1%nat) m ek dk w Hm Hmb EK Hn Hw) as (ct_m & ss_m & E1 & [Lct Lss] & E2).
  rewrite (encaps_parts xr' m fuel xpub ek eph_priv eph_pub Lxp G'), (take_app_exact xpub), (drop_app_exact xpub) by done. cbv zeta. cbn [fst snd].
  destruct (shared_secret eph_priv xpub []) as [[|] ss_x] eqn:S; [|done].
  exists ct_m, ss_m. split; [exact E1|]. rewrite E1. split; [done|].
  split; [rewrite length_app, Lep, Lct; reflexivity|]. split; [apply Keccak.length_keccak; lia|].
  rewrite decaps_parts by done. rewrite (shared_agrees _ _ _ _ _ _ _ _ _ [] ss_x Hxr' Hxr G' G S). by rewrite E2.
Qed.
End Properties.

#[local] Existing Instances modDh_sizes modDh_agrees.

Lemma hybrid_agreement_witness : exists pk sk ct ss,
  hybrid_keypair (H := modDh) (replicate 32 1) (fun i => if (i =? 0)%nat then MlKem.kat_seed else MlKem.bytes_from 32 32) 1 = Ok (pk, sk) /\
  hybrid_encaps (H := modDh) (replicate 32 2) MlKem.kat_msg 1 pk = Ok (ct, ss) /\ hybrid_decaps (H := modDh) 1 ct sk = Ok ss.
Proof.
  assert (forall b, byte b -> bytes32 (replicate 32 b)) as Hr by (intros; split; [apply length_replicate|by apply Forall_replicate]).
  pose proof MlKem.kat_noise as Hn. destruct (MlKem.decryption_noise 1 MlKem.kat_seed MlKem.kat_msg) as [w|] eqn:Ew; [|discriminate Hn].
  destruct (MlKem.keypair_of_noise 1 MlKem.kat_seed (MlKem.bytes_from 32 32) MlKem.kat_msg w Ew) as (ek & dk & Ek).
  set (mr := fun i => if (i =? 0)%nat then MlKem.kat_seed else MlKem.bytes_from 32 32).
  set (xpub := le_bytes 32 (power 2 (le_num (replicate 32 1)))).
  assert (hybrid_keypair (H := modDh) (replicate 32 1) mr 1 = Ok (xpub ++ ek, replicate 32 1 ++ xpub ++ dk)) as EK.
  { unfold hybrid_keypair. cbn [genkeypair modDh negb]. unfold MlKem.mlkem768_keypair.
    change (mr 0%nat) with MlKem.kat_seed. change (mr 1%nat) with (MlKem.bytes_from 32 32). rewrite Ek. reflexivity. }
  assert ((shared_secret (Dh := modDh) (replicate 32 2) xpub []).1 = true) as Hs by (vm_compute; exact eq_refl).
  assert (length xpub = 32%nat) as Lx by reflexivity. clearbody xpub.
  pose proof (hybrid_agreement (D := modDh) 1 (replicate 32 1) mr (replicate 32 2) MlKem.kat_msg _ _ w (Hr 1 ltac:(unfold byte; lia))
    (Hr 2 ltac:(unfold byte; lia)) eq_refl MlKem.kat_msg_bytes EK eq_refl Ew (MlKem.noise_okb w Hn)) as HA.
  cbv zeta in HA. rewrite (take_app_exact xpub) in HA by exact Lx.
  change (genkeypair (replicate 32 2) ([], [])).2.1 with (replicate 32 2) in HA.
  destruct (shared_secret (replicate 32 2) xpub []) as [ok ss_x]. cbn [fst] in Hs. subst ok.
  destruct HA as (ct_m & ss_m & _ & HE & _ & _ & HD). do 4 eexists. split; [exact EK|]. split; [exact HE|exact HD].
Defined.
End HybridKem.
